(* ===== verification/_CoqProject ===== *)
-Q . S2P
Prelude.v
Text.v
Diagnostic.v
Proto.v
Hashing.v
Mapping.v
MappingGrant.v
MappingAdmit.v
Grant.v
Lookups.v
AuthData.v
Authority.v
AuthPolicy.v
AuthSettle.v
AuthRefund.v
AuthRequest.v
AuthFrame.v
AuthTame.v
AuthInner.v
AuthInv.v
AuthAccounts.v
AuthSystem.v
AuthSample.v
AuthStream.v
AuthSysInv.v
AuthSysProps.v
AuthConfined.v
AuthScopes.v
AuthProps.v
AuthExisting.v
AuthMetadata.v
TcpRecords.v
TcpProps.v
Directive.v
DirectiveProps.v
Signer.v
SignerProps.v
Redeem.v
RedeemSystem.v
RedeemStage.v
RedeemWp.v
RedeemInv.v
RedeemProps.v
RedeemOnce.v
RedeemFresh.v
RedeemSample.v
DestResults.v
DestSpec.v
DestStream.v
DestReader.v
DestRun.v
DestDeliver.v
DestProps.v
DestSample.v
Sparse.v
SparseProps.v
WorkBudget.v
WireBudget.v
WireProps.v
RangeQueue.v
FileQueue.v
Jobs.v
Sched.v
SchedRanges.v
SchedInv.v
SchedOps.v
SchedRun.v
SchedWake.v
SchedProps.v
Expression.v
ExprSound.v
ExprLex.v
ExprParse.v
ExprTotal.v
ExprProps.v
ExprText.v
