(* ===== verification/Prelude.v ===== *)
(** * syq: a verification development

    syq copies file trees between machines.  Its coordinator scans a source,
    plans file jobs, and hands them to worker threads that compare, transfer
    and finish files; a receiver that runs under a signed grant holds a copy to
    what was approved and lists what it did; users choose files with predicates.
    This library models the parts of the Rust code in which that logic lives, as
    executable definitions over explicit state, and proves what makes them
    correct.

    ** The files and the code they model

    - [Prelude]: results, methods on a state that may fail, fixed-width
      arithmetic, byte-string splitting, Rust's total orders and ordered sets.
    - [Text]: what the code uses of [str], [u8] and integer parsing, on byte
      lists, with UTF-8 validity.
    - [Diagnostic] (src/src/destination_results.rs): a failure as the results
      list it, and messages cut to a bounded length.
    - [Proto] (src/src/proto.rs): entries, registered paths and their
      validation, and the functions that decide what fits one frame.
    - [Hashing] (src/src/hashing.rs): digests, their text, and checking a
      reader against one digest or a set of them.
    - [Mapping] (src/src/mapping.rs, src/src/mapping/metadata.rs): manifest
      entries, the sender's preflight, the receiver's permissions and the
      chunked admission of a signed manifest.  [MappingGrant] relates the
      permissions to the set of listed paths, [MappingAdmit] the admission to
      the whole manifest.
    - [Grant] (src/src/delegation.rs): the rules of an approved copy, their
      validation, and how they speak about paths.  [Lookups]
      (src/src/fsops/lookups.rs): the names a receiver looked up.
    - The restricted receiver (src/src/restricted/authority.rs): [AuthData] its
      state, requests, replies and settlements; [Authority] the checks on paths,
      times and metadata; [AuthPolicy] reservations and the policy for existing
      objects; [AuthSettle] charges, refunds, settlement and results;
      [AuthRequest] the authorization of every request and the stream state of a
      connection.  A method is a function from a call (the receiver's state, the
      connection's stream state and what the call collected) to a call and a
      result, so that what a failing method did stays done.  [AuthSystem] puts
      any number of connections around one state, as a step function on events.
    - About it: [AuthFrame], [AuthTame], [AuthInner], [AuthInv], [AuthAccounts],
      [AuthStream] and [AuthSysInv] build the accounting invariant, and
      [AuthSysProps] has its theorems; [AuthConfined] (what a method leaves
      alone, as a class of relations), [AuthScopes] and [AuthProps] show where
      changes may go, [AuthExisting] what they may replace, [AuthMetadata] what
      they may set, [AuthRefund] what is given back; [AuthSample] is a concrete
      grant with a run of it.
    - [Directive], [DirectiveProps] (src/src/directive.rs, src/src/delegation.rs):
      the signed command of one copy, its limits, encoding and signature armor,
      and the receiver's checks of binding and time.  [Signer], [SignerProps]
      (src/src/delegation.rs): the login key a receiver trusts, over a class that
      stands for the key libraries.
    - [Redeem] (src/src/delegation.rs, src/src/restricted/receiver.rs): verifying
      a directive and recording it as used, as programs: trees of typed system
      calls with a continuation for every answer.  [RedeemSystem] gives the calls
      their effect on the store's directory, with failures chosen from outside,
      contents and names that are or are not on disk, locks, crashes and any
      number of processes.  [RedeemStage] is the automaton of the order in which
      the directory may change, with a weakest precondition for programs;
      [RedeemWp] shows the programs keep to it, [RedeemInv] what each stage means
      on disk, [RedeemProps] the invariant of the whole system.  [RedeemOnce] and
      [RedeemFresh] have the theorems, [RedeemSample] concrete runs.
    - [DestResults] (src/src/destination_results.rs): the authenticated stream in
      which a restricted destination lists what it did, and the reader that
      checks it for the invoking machine, over a class that stands for JSON,
      [postcard], HPKE, signatures and keyed hashing.  [DestSpec] is the listing
      a stream stands for and that each operation refines it; [DestStream] the
      same for frames and the end; [DestRun] whole streams; [DestReader] and
      [DestDeliver] what the reader does with frames of the stream and with any
      others; [DestProps] the theorems, [DestSample] a run.
    - [TcpRecords], [TcpProps] (src/src/tcp_records.rs): the record layer of
      data connections, its nonces, writer and reader.
    - [Sparse], [SparseProps] (src/src/sparse.rs): writes that leave holes.
    - [WorkBudget] (src/src/transfer/work_budget.rs): how a worker sizes its
      next requests.  [WireBudget], [WireProps] (src/src/wire_budget.rs): the
      memory allowances all connections share, with every live message and
      reservation in one state.
    - [RangeQueue], [FileQueue], [Jobs] (src/src/sched.rs): the scheduler's
      indexed range queue, its grouped file queue and the append-only job table
      with its snapshots.
    - [Sched] (src/src/sched.rs, and the worker's claims in
      src/src/transfer/worker.rs): every operation of the scheduler under its
      lock.  The shared [Arc<Mutex<..>>] handles of ranges and small-file
      batches are references into heaps of the state; condition variables are
      the list of signals sent.  [SchedRanges], [SchedInv], [SchedOps] hold the
      invariant and each operation's specification, [SchedRun] the step
      relation of workers using their handles, [SchedWake] the wake-up argument
      and [SchedProps] the theorems.
    - [Expression] (src/src/expression/mod.rs), [ExprLex], [ExprParse]
      (src/src/expression/parser.rs): the predicate language.  [ExprSound]
      has type soundness and partial evaluation, [ExprTotal] that the lexer and
      the parser always answer, [ExprText] literals, [ExprProps] the theorems
      about whole predicates and policies.

    ** What the theorems show

    - Scheduler: under any interleaving of the operations workers may perform,
      each registered byte is live in exactly one place or retired; a file in
      fewer than 2^32 pieces completes only after all its bytes were requested;
      no wake-up is lost; work is handed out by priority, a worker sleeps only
      when there is nothing to do, and the end leaves nothing behind; stealing
      and the initial split tile ranges.  An operation that keeps the callers'
      protocol panics only when a total overflows its machine integer
      ([SchedRun.overflows] lists the totals).
    - Queues and jobs: each queue refines its abstract multiset and hands out
      its extremes; snapshots are immutable; first preparation is claimed once.
    - Mappings: a restricted receiver permits nothing before the signed
      manifest has arrived complete, whatever calls it gets; what it then
      permits is exactly what the manifest lists; it accepts what the sender's
      preflight accepts; sending ends and succeeds.
    - Restricted receiver: for every sequence of events on any number of
      connections, nothing panics, the signed limits hold, requests in flight and
      outstanding charges are counted exactly, and the results end only when all
      is settled.  Every authorized request stays in the signed scopes, the
      mapping and the filters, out of the receiver's own paths, changes nothing
      under a read-only grant, obeys the policy for existing objects (leaving
      one to an unconditional rename only where the receiver's own lookups
      settle whether the name exists) and sets only granted metadata; two
      theorems say exactly how far the directory the copy goes into is exempt.
    - Redemption: no request is redeemed twice and a redeemed one stays recorded,
      whatever is interleaved, fails, is killed or crashes; nothing is recorded
      before all checks passed; what is run was checked, recorded and is bound in
      time; with no failure a fresh request is redeemed.  Directives signed by a
      key read back, have one spelling, and only trusted signatures count.  Two
      examples show where comments promise more than the code does.
    - Results: a stream refines its listing, and its frames, in any order after
      the header, give the reader that listing and its totals; whatever the
      reader accepts to the end is that listing, unless a frame was forged or
      keyed sums coincide, both defined as such; a failure held for a retry that
      does not come is listed.
    - Expressions: compilation always answers; a compiled predicate cannot fail
      on types, but for the operand of a membership test in an empty list, which
      is not typed; deciding from a listing agrees with the complete metadata;
      [--where] cannot look at the destination; literals and quantities are
      exact.
    - Hashing: checking in pieces is checking the whole; a set of expected
      hashes is their conjunction; digests print and read back.
    - Connections: no nonce repeats under a key; what a writer sends, however
      the socket splits it, is what a reader delivers; a failed read exposes
      nothing.  Sparse writes end, touch only their range and read back as the
      data where old bytes are cleared or were zero.
    - Budgets: a worker's limits stay within bounds, grow on time and shrink in
      proportion to delay; shared memory accounting is exact and bounded under
      any interleaving, and a reservation waits only for others.

    ** Conventions

    A machine integer is a [Z] in its range; where the code uses unchecked
    operators the model returns [None] (or [Stuck]) for a panic, and the theorems
    exclude it or name the overflow that causes it ([panics]).  Errors keep their fixed message; interpolated values and
    [anyhow] context are left out.  A loop that is not structural takes fuel:
    [FileQueue.take_loop], [Sched.split_parts], the lexer's loop (the length of
    the text), the parser's loops (the number of tokens) and its recursion (65,
    one more than the source's nesting limit), [Mapping.send_loop] (the length
    of the manifest), [TcpRecords.write_all] the loops of [Sparse] (the
    length of the data), [DestResults.seal_loop] (the bytes to seal) and
    [DestResults.extend_loop] (the distance); each is proved sufficient.  Library code is a parameter:
    regular expressions, globs, RFC 3339 times, JSON, base64, the hash
    functions, with the documented law that hashing in pieces is hashing the
    whole, and AES-256-GCM, with the laws that sealed data opens and is a tag
    longer, and gitignore matching.  What the operating system answers (partial
    writes, failures) is a script the theorems quantify over; what a receiver
    finds beneath its root, the time and whether a filesystem's inode numbers can
    be trusted are the functions of a [World], indexed by how often it was asked.

    The receiver's authorization is two steps, as in the source: admission, under
    the state's lock, and the rest, which the source runs with the lock released
    in places and the model as one step.  Its counts of requests in flight and of
    reservations made are not bounded by their width: they count requests, which
    no connection can send 2^64 of.

    ** Plan and what is not modelled

    Left out: how a receiver derives its rules from a directive's command line
    (a parameter of verification) and resolves the links on the way to its root
    ([restricted/]), the relaying of result frames as lines of output, the
    sizing rules of [resources.rs] and [transfer_tuning.rs], the framing of
    [proto.rs], command-line parsing, terminal output and progress, filesystem
    and network I/O (the scanner, [fsops], [conn], the S3 client), process and descriptor
    brokers, the floating-point pacing of [bwlimit.rs], the serde adapters of
    [wire_budget.rs], and the serialized message types of the protocol beyond
    the fields used here. *)

From stdpp Require Export base gmap list fin_maps fin_sets sorting.
From Stdlib Require Export ZArith Lia.

(** Notations of the development live in [syq_scope]. *)
Declare Scope syq_scope.
Delimit Scope syq_scope with syq.

Create HintDb syq.

(** ** Results

    [anyhow::Result<T>] and [io::Result<T>]: a value or an error. *)
Inductive result (E A : Type) : Type :=
| Ok (a : A)
| Err (e : E).
Arguments Ok {E A} a.
Arguments Err {E A} e.

#[export] Instance result_ret {E} : MRet (result E) := fun A a => Ok a.
#[export] Instance result_bind {E} : MBind (result E) := fun A B f r =>
  match r with Ok a => f a | Err e => Err e end.
#[export] Instance result_fmap {E} : FMap (result E) := fun A B f r =>
  match r with Ok a => Ok (f a) | Err e => Err e end.

Lemma result_bind_Ok {E A B} (r : result E A) (f : A -> result E B) (b : B) :
  r ≫= f = Ok b <-> exists a, r = Ok a /\ f a = Ok b.
Proof. destruct r; cbn; naive_solver. Qed.

Lemma result_bind_Err {E A B} (r : result E A) (f : A -> result E B) (e : E) :
  r ≫= f = Err e <-> r = Err e \/ exists a, r = Ok a /\ f a = Err e.
Proof. destruct r; cbn; naive_solver. Qed.

Definition from_option_err {E A} (e : E) (o : option A) : result E A :=
  match o with Some a => Ok a | None => Err e end.

(** [require(ok, error)]. *)
Definition require {E} (b : bool) (e : E) : result E unit :=
  if b then Ok tt else Err e.

Lemma require_Ok {E} (b : bool) (e : E) u : require b e = Ok u <-> b = true.
Proof. destruct b, u; cbn; naive_solver. Qed.

(** ** Fixed-width unsigned integers

    A [u64] (and [usize] where its width matters) is a [Z] in [0, 2^64), a
    [u32] one in [0, 2^32).  Arithmetic that the source writes with the plain
    operators panics on overflow in checked builds; it returns [None] here, and
    the theorems show when the result can be [None]. *)
Local Open Scope Z_scope.

Definition u32_max : Z := 2 ^ 32 - 1.
Definition u64_max : Z := 2 ^ 64 - 1.
Definition u128_max : Z := 2 ^ 128 - 1.
Definition in_u64 (x : Z) : Prop := 0 <= x <= u64_max.

Definition u64_sub (a b : Z) : option Z := if decide (b <= a) then Some (a - b) else None.
Definition u64_add (a b : Z) : option Z :=
  if decide (a + b <= u64_max) then Some (a + b) else None.
Definition u32_add (a b : Z) : option Z :=
  if decide (a + b <= u32_max) then Some (a + b) else None.
(** Whether a subtraction underflows does not depend on the width: [u64_sub]
    serves [u32] counts too.  [as_u32] is the truncating [n as u32]. *)
Definition as_u32 (n : nat) : Z := Z.of_nat n mod 2 ^ 32.
Definition usize_sub (a b : nat) : option nat :=
  if decide (b <= a)%nat then Some (a - b)%nat else None.
Definition checked_mul (a b : Z) : option Z :=
  if decide (a * b <= u64_max) then Some (a * b) else None.
Definition saturating_sub (a b : Z) : Z := Z.max 0 (a - b).
Definition saturating_add (a b : Z) : Z := Z.min u64_max (a + b).
Definition saturating_mul (a b : Z) : Z := Z.min u64_max (a * b).
Definition div_ceil (a b : Z) : Z := if decide (a mod b = 0) then a / b else a / b + 1.

Lemma u64_sub_Some a b c : u64_sub a b = Some c <-> b <= a /\ c = a - b.
Proof. unfold u64_sub. case_decide; naive_solver lia. Qed.

Lemma u64_add_Some a b : a + b <= u64_max -> u64_add a b = Some (a + b).
Proof. intros H. unfold u64_add. by rewrite decide_True. Qed.

Lemma checked_mul_Some a b : a * b <= u64_max -> checked_mul a b = Some (a * b).
Proof. intros H. unfold checked_mul. by rewrite decide_True. Qed.

(** Counting up and down at 32 bits: the count is right modulo [2 ^ 32], and the
    checks fire only when the true count is out of range. *)
Lemma as_u32_bound n : 0 <= as_u32 n <= u32_max.
Proof. unfold as_u32, u32_max. pose proof (Z.mod_pos_bound (Z.of_nat n) (2 ^ 32) ltac:(lia)). lia. Qed.

Lemma as_u32_small n : Z.of_nat n <= u32_max -> as_u32 n = Z.of_nat n.
Proof. intros H. unfold as_u32, u32_max in *. rewrite Z.mod_small; lia. Qed.

Lemma as_u32_succ n :
  match u32_add (as_u32 n) 1 with
  | Some v => v = as_u32 (S n)
  | None => u32_max <= Z.of_nat n
  end.
Proof.
  pose proof (as_u32_bound n) as H. unfold u32_add. case_decide as Hd.
  - unfold as_u32 in *. rewrite Nat2Z.inj_succ, <- Z.add_1_r, <- Zplus_mod_idemp_l.
    rewrite (Z.mod_small (_ + 1)); unfold u32_max in *; lia.
  - assert (as_u32 n = u32_max) as Hn by lia. unfold as_u32 in Hn.
    pose proof (Z.mod_le (Z.of_nat n) (2 ^ 32) ltac:(lia) ltac:(lia)). lia.
Qed.

Lemma as_u32_pred n :
  match u64_sub (as_u32 (S n)) 1 with
  | Some v => v = as_u32 n
  | None => u32_max <= Z.of_nat n
  end.
Proof.
  pose proof (as_u32_bound n) as Hn. generalize (as_u32_succ n). unfold u64_sub.
  unfold u32_add at 1. case_decide as E; intros H.
  - case_decide; lia.
  - case_decide as Hd; [|done]. exfalso.
    assert (Z.of_nat n mod 2 ^ 32 = u32_max) as Hm by (unfold as_u32 in *; lia). unfold as_u32 in Hd.
    rewrite Nat2Z.inj_succ, <- Z.add_1_r, <- Zplus_mod_idemp_l, Hm in Hd. by vm_compute in Hd.
Qed.

Lemma usize_sub_Some a b c : usize_sub a b = Some c <-> (b <= a /\ c = a - b)%nat.
Proof. unfold usize_sub. case_decide; naive_solver lia. Qed.

Lemma div_ceil_spec a b : 0 < b -> a <= div_ceil a b * b < a + b.
Proof.
  intros Hb. unfold div_ceil. pose proof (Z.div_mod a b ltac:(lia)).
  pose proof (Z.mod_pos_bound a b Hb). case_decide; nia.
Qed.

Lemma div_ceil_le a b k : 0 < b -> div_ceil a b <= k <-> a <= k * b.
Proof. intros Hb. pose proof (div_ceil_spec a b Hb). nia. Qed.

Lemma div_ceil_mul k b : 0 < b -> div_ceil (k * b) b = k.
Proof. intros Hb. pose proof (div_ceil_spec (k * b) b Hb). nia. Qed.

Lemma div_ceil_nonneg a b : 0 < b -> 0 <= a -> 0 <= div_ceil a b.
Proof. intros Hb Ha. pose proof (div_ceil_spec a b Hb). nia. Qed.

(** ** Splitting byte strings: [slice.split(|b| *b == sep)] *)
Fixpoint split_on (sep : Z) (l : list Z) : list (list Z) :=
  match l with
  | [] => [[]]
  | b :: l' =>
      if decide (b = sep) then [] :: split_on sep l' else
        match split_on sep l' with
        | [] => [[b]]
        | c :: cs => (b :: c) :: cs
        end
  end.

Lemma split_on_cons sep l : exists c cs, split_on sep l = c :: cs.
Proof.
  induction l as [|b l (c & cs & IH)]; cbn; [eauto|]. case_decide; [eauto|]. rewrite IH. eauto.
Qed.

Lemma split_on_app sep l l' :
  split_on sep (l ++ sep :: l') = split_on sep l ++ split_on sep l'.
Proof.
  induction l as [|b l IH]; cbn.
  - by rewrite decide_True.
  - rewrite IH. case_decide; [done|]. destruct (split_on_cons sep l) as (c & cs & ->). done.
Qed.

Lemma split_on_no_sep sep l : sep ∉ l -> split_on sep l = [l].
Proof.
  induction l as [|b l IH]; [done|]. intros [Hne Hl]%not_elem_of_cons. cbn.
  rewrite decide_False by congruence. by rewrite (IH Hl).
Qed.

Lemma split_on_head_slash sep l : exists rest, split_on sep (sep :: l) = [] :: rest.
Proof. cbn. rewrite decide_True by done. eauto. Qed.

(** ** Total orders, as Rust's [Ord]

    Tuples compare lexicographically and [Reverse] flips the order. *)
Class Ord (A : Type) := {
  rcmp : A -> A -> comparison;
  rcmp_eq x y : rcmp x y = Eq <-> x = y;
  rcmp_opp x y : rcmp y x = CompOpp (rcmp x y);
  rcmp_trans x y z : rcmp x y = Lt -> rcmp y z = Lt -> rcmp x z = Lt
}.

#[export] Program Instance Ord_Z : Ord Z := {| rcmp := Z.compare |}.
Next Obligation. apply Z.compare_eq_iff. Qed.
Next Obligation. intros. apply Z.compare_antisym. Qed.
Next Obligation. intros x y z. rewrite !Z.compare_lt_iff. lia. Qed.

#[export] Program Instance Ord_nat : Ord nat := {| rcmp := Nat.compare |}.
Next Obligation. intros. apply Nat.compare_eq_iff. Qed.
Next Obligation. intros. apply Nat.compare_antisym. Qed.
Next Obligation. intros x y z. rewrite !Nat.compare_lt_iff. lia. Qed.

Definition lex_cmp {A B} `{Ord A} `{Ord B} (p q : A * B) : comparison :=
  match rcmp p.1 q.1 with Eq => rcmp p.2 q.2 | Lt => Lt | Gt => Gt end.

#[export] Program Instance Ord_prod {A B} `{Ord A} `{Ord B} : Ord (A * B) :=
  {| rcmp := lex_cmp |}.
Next Obligation.
  intros A B ?? [a b] [a' b']; unfold lex_cmp; cbn.
  destruct (rcmp a a') eqn:E; rewrite ?rcmp_eq in *; subst.
  - naive_solver.
  - split; [done|]. intros [= -> ->]. by rewrite (proj2 (rcmp_eq _ _) eq_refl) in E.
  - split; [done|]. intros [= -> ->]. by rewrite (proj2 (rcmp_eq _ _) eq_refl) in E.
Qed.
Next Obligation.
  intros A B ?? [a b] [a' b']; unfold lex_cmp; cbn. rewrite (rcmp_opp a a').
  destruct (rcmp a a'); cbn; auto. apply rcmp_opp.
Qed.
Next Obligation.
  intros A B ?? [a b] [a' b'] [a2 b2]; unfold lex_cmp; cbn.
  destruct (rcmp a a') eqn:E1; try done; destruct (rcmp a' a2) eqn:E2; try done;
    rewrite ?rcmp_eq in *; subst; intros; try by rewrite ?E1, ?E2.
  - rewrite (proj2 (rcmp_eq _ _) eq_refl). eauto using rcmp_trans.
  - by rewrite (rcmp_trans _ _ _ E1 E2).
Qed.

(** [std::cmp::Reverse]. *)
Record Reverse (A : Type) := Rev { unrev : A }.
Arguments Rev {A} _.
Arguments unrev {A} _.

#[export] Instance Reverse_eq_dec {A} `{EqDecision A} : EqDecision (Reverse A).
Proof. solve_decision. Defined.
#[export] Program Instance Reverse_countable {A} `{Countable A} : Countable (Reverse A) :=
  inj_countable' unrev Rev _.
Next Obligation. by intros ??? []. Qed.
#[export] Program Instance Ord_Reverse {A} `{Ord A} : Ord (Reverse A) :=
  {| rcmp x y := rcmp (unrev y) (unrev x) |}.
Next Obligation. intros A ? [x] [y]; cbn. rewrite rcmp_eq. naive_solver. Qed.
Next Obligation. intros A ? [x] [y]; cbn. apply rcmp_opp. Qed.
Next Obligation. intros A ? [x] [y] [z]; cbn. eauto using rcmp_trans. Qed.

Definition rle {A} `{Ord A} (x y : A) : Prop := rcmp x y <> Gt.

#[export] Instance rle_dec {A} `{Ord A} (x y : A) : Decision (rle x y).
Proof. unfold rle. apply _. Defined.

Section Order.
Context {A : Type} `{Ord A}.

Lemma rcmp_refl (x : A) : rcmp x x = Eq.
Proof. by apply rcmp_eq. Qed.

Lemma rle_refl (x : A) : rle x x.
Proof. unfold rle. by rewrite rcmp_refl. Qed.

Lemma rle_total (x y : A) : rle x y \/ rle y x.
Proof. unfold rle. rewrite (rcmp_opp x y). destruct (rcmp x y); cbn; auto. Qed.

Lemma rle_antisym (x y : A) : rle x y -> rle y x -> x = y.
Proof.
  unfold rle. rewrite (rcmp_opp x y). destruct (rcmp x y) eqn:E; cbn; try done.
  intros _ _. by apply rcmp_eq.
Qed.

Lemma rle_trans (x y z : A) : rle x y -> rle y z -> rle x z.
Proof.
  unfold rle. intros H1 H2. destruct (rcmp x y) eqn:E1; try done.
  - apply rcmp_eq in E1. by subst.
  - destruct (rcmp y z) eqn:E2; try done.
    + apply rcmp_eq in E2. subst. by rewrite E1.
    + by rewrite (rcmp_trans _ _ _ E1 E2).
Qed.

(** The greatest element of a list: what [BTreeSet::last] and
    [BinaryHeap::peek] return for the elements they hold. *)
Fixpoint list_max (l : list A) : option A :=
  match l with
  | [] => None
  | x :: l' => match list_max l' with
               | None => Some x
               | Some y => if decide (rle x y) then Some y else Some x
               end
  end.

Lemma list_max_None l : list_max l = None <-> l = [].
Proof. destruct l; cbn; [done|]. repeat case_match; naive_solver. Qed.

Lemma list_max_elem l x : list_max l = Some x -> x ∈ l.
Proof.
  revert x. induction l as [|y l IH]; intros x; cbn; [done|].
  destruct (list_max l) eqn:E; [case_decide|]; intros [= ->]; set_solver.
Qed.

Lemma list_max_ge l x y : list_max l = Some x -> y ∈ l -> rle y x.
Proof.
  revert x. induction l as [|z l IH]; intros x; cbn; [done|].
  destruct (list_max l) as [m|] eqn:E.
  - case_decide as D; intros [= <-] [Hy|Hy]%elem_of_cons; subst; auto using rle_refl.
    destruct (rle_total z m); [done|]. eauto using rle_trans.
  - apply list_max_None in E. subst. intros [= ->] ->%list_elem_of_singleton.
    apply rle_refl.
Qed.

Lemma list_max_unique l x :
  x ∈ l -> (forall y, y ∈ l -> rle y x) -> list_max l = Some x.
Proof.
  intros Hx Hall. destruct (list_max l) as [m|] eqn:E.
  - f_equal. apply rle_antisym; eauto using list_max_elem, list_max_ge.
  - apply list_max_None in E. set_solver.
Qed.

Lemma list_max_perm l l' : l ≡ₚ l' -> list_max l = list_max l'.
Proof.
  intros HP. destruct (list_max l) as [m|] eqn:E.
  - symmetry. apply list_max_unique.
    + rewrite <- HP. by apply list_max_elem.
    + intros y. rewrite <- HP. by apply list_max_ge.
  - apply list_max_None in E. subst. apply Permutation_nil in HP. by subst.
Qed.
End Order.

Lemma rle_pair {A B} `{Ord A} `{Ord B} (a a' : A) (b b' : B) :
  rle (a, b) (a', b') <-> rcmp a a' = Lt \/ (a = a' /\ rle b b').
Proof.
  unfold rle. cbn. unfold lex_cmp. cbn. rewrite <- (rcmp_eq a a').
  destruct (rcmp a a'); naive_solver.
Qed.

Lemma rle_Z (a b : Z) : rle a b <-> a <= b.
Proof. done. Qed.

(** ** [BTreeSet]: a finite set with its first and last element *)
Section BTreeSet.
Context {A : Type} `{Countable A} `{!Ord A}.

Definition set_last (s : gset A) : option A := list_max (elements s).
Definition set_first (s : gset A) : option A := unrev <$> list_max (Rev <$> elements s).

Lemma set_last_None s : set_last s = None <-> s = ∅.
Proof. unfold set_last. rewrite list_max_None. rewrite elements_empty_iff. set_solver. Qed.

Lemma set_last_Some s x : set_last s = Some x <-> x ∈ s /\ forall y, y ∈ s -> rle y x.
Proof.
  unfold set_last. split.
  - intros E. split; [by apply elem_of_elements, list_max_elem|].
    intros y Hy. apply (list_max_ge _ _ _ E). by apply elem_of_elements.
  - intros [Hx Hall]. apply list_max_unique; [by apply elem_of_elements|].
    intros y Hy%elem_of_elements. auto.
Qed.

Lemma set_last_is_Some s : s <> ∅ -> exists x, set_last s = Some x.
Proof. intros Hs. destruct (set_last s) eqn:E; [eauto|]. by apply set_last_None in E. Qed.

Lemma set_first_None s : set_first s = None <-> s = ∅.
Proof.
  unfold set_first. rewrite fmap_None, list_max_None. split; [|by intros ->].
  intros E%fmap_nil_inv. apply elements_empty_iff in E. set_solver.
Qed.

Lemma set_first_Some s x : set_first s = Some x <-> x ∈ s /\ forall y, y ∈ s -> rle x y.
Proof.
  unfold set_first. rewrite fmap_Some. split.
  - intros ([z] & E & ->). cbn. split.
    + apply list_max_elem, list_elem_of_fmap in E as (w & [= <-] & Hw).
      by apply elem_of_elements.
    + intros y Hy. apply (list_max_ge _ _ (Rev y) E), list_elem_of_fmap_2.
      by apply elem_of_elements.
  - intros [Hx Hall]. exists (Rev x). split; [|done]. apply list_max_unique.
    + by apply list_elem_of_fmap_2, elem_of_elements.
    + intros ? (w & -> & Hw%elem_of_elements)%list_elem_of_fmap. by apply Hall.
Qed.

(** [insert] and [remove] with the booleans the source asserts. *)
Definition set_insert_new (x : A) (s : gset A) : option (gset A) :=
  if decide (x ∈ s) then None else Some ({[x]} ∪ s).
Definition set_remove_old (x : A) (s : gset A) : option (gset A) :=
  if decide (x ∈ s) then Some (s ∖ {[x]}) else None.
End BTreeSet.

(** ** Removing one occurrence (a heap's pop) *)
Section Remove.
Context {A : Type} `{EqDecision A}.

Fixpoint remove_one (x : A) (l : list A) : list A :=
  match l with
  | [] => []
  | y :: l' => if decide (x = y) then l' else y :: remove_one x l'
  end.

Lemma remove_one_perm x l : x ∈ l -> l ≡ₚ x :: remove_one x l.
Proof.
  induction l as [|y l IH]; [set_solver|]. cbn. case_decide as D; [by subst|].
  intros [->|Hx]%elem_of_cons; [done|]. rewrite (IH Hx) at 1. constructor.
Qed.
End Remove.

(** ** Sums and counts *)
Definition sumZ (l : list Z) : Z := foldr Z.add 0 l.

Lemma sumZ_cons x l : sumZ (x :: l) = x + sumZ l.
Proof. done. Qed.

Lemma sumZ_app l l' : sumZ (l ++ l') = sumZ l + sumZ l'.
Proof. induction l as [|x l IH]; [done|]. cbn [app]. rewrite !sumZ_cons, IH. lia. Qed.

#[export] Instance sumZ_proper : Proper ((≡ₚ) ==> (=)) sumZ.
Proof. induction 1; rewrite ?sumZ_cons; [done | lia | lia | congruence]. Qed.

(** [iter.sum::<u64>()], checked at every addition. *)
Fixpoint u64_sum (acc : Z) (l : list Z) : option Z :=
  match l with
  | [] => Some acc
  | x :: l' => acc' ← u64_add acc x; u64_sum acc' l'
  end.

Lemma sumZ_nonneg l : (forall x, x ∈ l -> 0 <= x) -> 0 <= sumZ l.
Proof.
  induction l as [|x l IH]; [cbn; lia|]. intros Hl. rewrite sumZ_cons.
  pose proof (Hl x ltac:(set_solver)). pose proof (IH ltac:(set_solver)). lia.
Qed.

(** A checked sum of [u64]s panics exactly when the sum does not fit. *)
Lemma u64_sum_spec l : forall acc, (forall x, x ∈ l -> 0 <= x) ->
  (u64_sum acc l = None /\ u64_max < acc + sumZ l) \/
  (u64_sum acc l = Some (acc + sumZ l) /\ (acc <= u64_max -> acc + sumZ l <= u64_max)).
Proof.
  induction l as [|x l IH]; intros acc Hl; cbn [u64_sum].
  { right. cbn. rewrite Z.add_0_r. done. }
  rewrite sumZ_cons. unfold u64_add. pose proof (sumZ_nonneg l ltac:(set_solver)).
  case_decide; cbn [mbind option_bind]; [|left; split; [done|lia]].
  rewrite Z.add_assoc. destruct (IH (acc + x) ltac:(set_solver)) as [[-> ?]|[-> ?]]; [left|right]; auto.
Qed.

(** [panics P m]: the computation [m] panics, for the reason [P].  The theorems
    on operations whose counters can overflow have the form [panics P m \/
    exists r, m = Some r /\ ..]. *)
Definition panics {A} (P : Prop) (m : option A) : Prop := m = None /\ P.

Lemma panics_mono {A} (P Q : Prop) (m : option A) : panics P m -> (P -> Q) -> panics Q m.
Proof. intros [? ?] ?. split; auto. Qed.

Definition countb {A} (f : A -> bool) (l : list A) : nat := length (filter f l).

Lemma countb_app {A} (f : A -> bool) l l' : countb f (l ++ l') = (countb f l + countb f l')%nat.
Proof. unfold countb. by rewrite filter_app, length_app. Qed.

Lemma countb_cons {A} (f : A -> bool) x l :
  countb f (x :: l) = ((if f x then 1 else 0) + countb f l)%nat.
Proof. unfold countb. rewrite filter_cons. destruct (f x); cbn; done. Qed.

#[export] Instance countb_proper {A} (f : A -> bool) : Proper ((≡ₚ) ==> (=)) (countb f).
Proof. intros l l' HP. unfold countb. by rewrite HP. Qed.

Lemma countb_mono {A} (f g : A -> bool) l :
  (forall x, f x = true -> g x = true) -> (countb f l <= countb g l)%nat.
Proof.
  intros H. induction l as [|x l IH]; [done|]. rewrite !countb_cons. specialize (H x).
  destruct (f x), (g x); lia || naive_solver.
Qed.

Lemma countb_zero {A} (f : A -> bool) l :
  countb f l = 0%nat <-> forall x, x ∈ l -> f x = false.
Proof.
  induction l as [|y l IH]; [split; [set_solver|done]|]. rewrite countb_cons. split.
  - intros H x [->|Hx]%elem_of_cons; destruct (f y); try done; try lia; by apply IH; [lia|].
  - intros H. rewrite (H y) by set_solver. cbn. apply IH. intros x Hx. apply H. set_solver.
Qed.

Lemma countb_pos {A} (f : A -> bool) l : (0 < countb f l)%nat <-> exists x, x ∈ l /\ f x = true.
Proof.
  induction l as [|y l IH].
  { split; [intros H; by apply Nat.lt_irrefl in H|]. intros (x & Hx & _). by apply elem_of_nil in Hx. }
  rewrite countb_cons. destruct (f y) eqn:E.
  - split; [|lia]. intros _. exists y. split; [by left|done].
  - cbn. rewrite IH. split; intros (x & Hx & Hf); exists x.
    + split; [by right|done].
    + apply elem_of_cons in Hx as [->|Hx]; [congruence|done].
Qed.

Lemma sum_list_app l l' : sum_list (l ++ l') = (sum_list l + sum_list l')%nat.
Proof. induction l; cbn; lia. Qed.

Lemma sum_list_perm l l' : l ≡ₚ l' -> sum_list l = sum_list l'.
Proof. induction 1; cbn; [done|lia|lia|congruence]. Qed.

(** ** Methods

    [fn f(&mut self, ..) -> Result<A>]: a step on the receiver's state that may
    fail.  An error leaves the state as it was when the error was raised. *)
Definition method (S E A : Type) : Type := S -> S * result E A.
#[export] Instance method_ret {S E} : MRet (method S E) := fun A a s => (s, Ok a).
#[export] Instance method_bind {S E} : MBind (method S E) := fun A B f m s =>
  match m s with
  | (s', Ok a) => f a s'
  | (s', Err e) => (s', Err e)
  end.

Definition m_get {S E} : method S E S := fun s => (s, Ok s).
Definition m_put {S E} (s : S) : method S E unit := fun _ => (s, Ok tt).
Definition m_modify {S E} (f : S -> S) : method S E unit := fun s => (f s, Ok tt).
Definition m_lift {S E A} (r : result E A) : method S E A := fun s => (s, r).
Definition m_fail {S E A} (e : E) : method S E A := fun s => (s, Err e).
(** [if !ok { bail!(e) }]. *)
Definition m_ensure {S E} (ok : bool) (e : E) : method S E unit := m_lift (require ok e).
Definition for_each {S E A} (f : A -> method S E unit) : list A -> method S E unit :=
  fix go l := match l with [] => mret tt | x :: l => _ ← f x; go l end.
