(* ===== verification/Text.v ===== *)
(** * Text and bytes

    What the source uses of Rust's [str], [u8] and integer parsing, on byte
    lists: literals, character classes, UTF-8 validity, splitting, prefixes and
    hexadecimal digits, with the lemmas the components share. *)

From stdpp Require Import strings.
From S2P Require Import Prelude.
Local Open Scope Z_scope.

(** Byte string literals. *)
Fixpoint bs (s : string) : list Z :=
  match s with
  | EmptyString => []
  | String c s' => Z.of_nat (Ascii.nat_of_ascii c) :: bs s'
  end.

(** ** Characters *)
Definition is_digit (b : Z) : bool := bool_decide (48 <= b <= 57).
Definition is_alpha (b : Z) : bool := bool_decide (97 <= b <= 122) || bool_decide (65 <= b <= 90).
Definition is_alphanumeric (b : Z) : bool := is_digit b || is_alpha b.
(** [u8::is_ascii_whitespace]: space, tab, line feed, form feed, carriage return. *)
Definition is_whitespace (b : Z) : bool :=
  bool_decide (b = 32) || bool_decide (b = 9) || bool_decide (b = 10) || bool_decide (b = 12) ||
  bool_decide (b = 13).

(** [str::is_char_boundary] at the start of the remaining text. *)
Definition char_boundary (rest : list Z) : bool :=
  match rest with [] => true | b :: _ => negb (bool_decide (128 <= b <= 191)) end.

(** Valid UTF-8, what [str] guarantees and [String::from_utf8] checks. *)
Definition within (lo hi b : Z) : bool := bool_decide (lo <= b <= hi).
Definition utf8_2 (a b : Z) : bool := within 194 223 a && within 128 191 b.
Definition utf8_3 (a b c : Z) : bool :=
  (bool_decide (a = 224) && within 160 191 b || within 225 236 a && within 128 191 b ||
   bool_decide (a = 237) && within 128 159 b || within 238 239 a && within 128 191 b) && within 128 191 c.
Definition utf8_4 (a b c d : Z) : bool :=
  (bool_decide (a = 240) && within 144 191 b || within 241 243 a && within 128 191 b ||
   bool_decide (a = 244) && within 128 143 b) && within 128 191 c && within 128 191 d.

Fixpoint utf8_valid (l : list Z) : bool :=
  match l with
  | [] => true
  | a :: l1 =>
      if within 0 127 a then utf8_valid l1 else
        match l1 with
        | [] => false
        | b :: l2 =>
            if utf8_2 a b then utf8_valid l2 else
              match l2 with
              | [] => false
              | c :: l3 =>
                  if utf8_3 a b c then utf8_valid l3 else
                    match l3 with [] => false | d :: l4 => utf8_4 a b c d && utf8_valid l4 end
              end
        end
  end.

(** [char::to_digit]. *)
Definition to_digit (radix b : Z) : option Z :=
  let d := if is_digit b then Some (b - 48)
           else if bool_decide (97 <= b <= 122) then Some (b - 97 + 10)
           else if bool_decide (65 <= b <= 90) then Some (b - 65 + 10)
           else None in
  match d with Some d => if decide (d < radix) then Some d else None | None => None end.

Fixpoint digits_value (radix acc : Z) (l : list Z) : option Z :=
  match l with
  | [] => Some acc
  | b :: l' => d ← to_digit radix b; digits_value radix (acc * radix + d) l'
  end.

(** [from_str_radix] of an integer type with range [lo..hi]: a leading [+], and
    for a signed type a leading [-], may precede at least one digit. *)
Definition from_str_radix (signed : bool) (lo hi radix : Z) (l : list Z) : option Z :=
  let magnitude l := match l with [] => None | _ => digits_value radix 0 l end in
  v ← match l with
      | 43 :: l' => magnitude l'
      | 45 :: l' => if signed then Z.opp <$> magnitude l' else magnitude l
      | _ => magnitude l
      end;
  if decide (lo <= v <= hi) then Some v else None.

Definition parse_u8 (radix : Z) (l : list Z) : option Z := from_str_radix false 0 255 radix l.

(** ** Prefixes, splitting and matching *)
(** [str::strip_prefix] and [str::starts_with]. *)
Fixpoint strip_prefix (p l : list Z) : option (list Z) :=
  match p, l with
  | [], _ => Some l
  | x :: p', y :: l' => if decide (x = y) then strip_prefix p' l' else None
  | _ :: _, [] => None
  end.

Fixpoint take_while (f : Z -> bool) (l : list Z) : list Z * list Z :=
  match l with
  | [] => ([], [])
  | b :: l' => if f b then let '(t, r) := take_while f l' in (b :: t, r) else ([], l)
  end.

(** [str::split_once('.')]. *)
Fixpoint split_once (sep : Z) (l : list Z) : option (list Z * list Z) :=
  match l with
  | [] => None
  | b :: l' => if decide (b = sep) then Some ([], l')
               else '(t, r) ← split_once sep l'; Some (b :: t, r)
  end.

(** A [match] on string literals. *)
Fixpoint match_name {A} (s : list Z) (l : list (string * A)) : option A :=
  match l with
  | [] => None
  | (name, v) :: l' => if decide (s = bs name) then Some v else match_name s l'
  end.

(** ** Bytes and hexadecimal *)
Definition is_byte (b : Z) : Prop := 0 <= b < 256.

(** A digit of [{:02x}]. *)
Definition hex_digit (d : Z) : Z := if decide (d < 10) then 48 + d else 87 + d.

Lemma byte_cases (P : Z -> bool) b : forallb P (seqZ 0 256) = true -> is_byte b -> P b = true.
Proof.
  intros H Hb. rewrite forallb_forall in H. apply H, list_elem_of_In, elem_of_seqZ. unfold is_byte in Hb. lia.
Qed.

(** ** UTF-8 *)
Lemma within_spec lo hi b : within lo hi b = true <-> lo <= b <= hi.
Proof. unfold within. by rewrite bool_decide_eq_true. Qed.

Lemma utf8_2_high a b : utf8_2 a b = true -> 127 < a /\ 127 < b.
Proof. unfold utf8_2. rewrite andb_true_iff, !within_spec. lia. Qed.

Ltac utf8_bools := repeat (rewrite ?andb_true_iff, ?orb_true_iff, ?bool_decide_eq_true, ?within_spec in *).

Lemma utf8_3_high a b c : utf8_3 a b c = true -> 127 < a /\ 127 < b /\ 127 < c.
Proof. unfold utf8_3. intros H. utf8_bools. lia. Qed.

Lemma utf8_4_high a b c d : utf8_4 a b c d = true -> 127 < a /\ 127 < b /\ 127 < c /\ 127 < d.
Proof. unfold utf8_4. intros H. utf8_bools. lia. Qed.

(** What a valid text starts with. *)
Lemma utf8_valid_cons a l : utf8_valid (a :: l) = true ->
  exists pre rest, a :: l = a :: pre ++ rest /\ utf8_valid rest = true /\
    (0 <= a <= 127 /\ pre = [] \/ 194 <= a <= 244 /\ Forall (fun b => 127 < b) pre).
Proof.
  cbn [utf8_valid]. destruct (within 0 127 a) eqn:E0.
  { intros H. exists [], l. apply within_spec in E0. auto. }
  destruct l as [|b l2]; [done|]. destruct (utf8_2 a b) eqn:E2.
  { intros H. exists [b], l2. split_and!; [done..|]. right.
    pose proof (utf8_2_high _ _ E2). unfold utf8_2 in E2. utf8_bools. split; [lia|]. repeat constructor; lia. }
  destruct l2 as [|c l3]; [done|]. destruct (utf8_3 a b c) eqn:E3.
  { intros H. exists [b; c], l3. split_and!; [done..|]. right.
    pose proof (utf8_3_high _ _ _ E3). unfold utf8_3 in E3. utf8_bools. split; [lia|].
    repeat constructor; lia. }
  destruct l3 as [|d l4]; [done|]. intros [E4 H]%andb_true_iff. exists [b; c; d], l4. split_and!; [done..|].
  right. pose proof (utf8_4_high _ _ _ _ E4). unfold utf8_4 in E4. utf8_bools. split; [lia|].
  repeat constructor; lia.
Qed.

(** Text after an ASCII byte is valid text. *)
Lemma utf8_after_ascii l1 c l2 : utf8_valid (l1 ++ c :: l2) = true -> 0 <= c <= 127 -> utf8_valid l2 = true.
Proof.
  remember (length l1) as n eqn:En. revert l1 En. induction n as [n IH] using lt_wf_ind. intros l1 En H Hc.
  destruct l1 as [|a l1]; cbn [app] in H.
  - destruct (utf8_valid_cons _ _ H) as (pre & rest & [= ->] & Hv & [[_ ->]|[? _]]); [done|lia].
  - destruct (utf8_valid_cons _ _ H) as (pre & rest & [= E] & Hv & Hp).
    assert (Hpre : Forall (fun b => 127 < b) pre) by (destruct Hp as [[_ ->]|[_ ?]]; [constructor|done]).
    destruct (app_eq_inv _ _ _ _ E) as [(k & E1 & E2)|(k & E1 & E2)].
    + subst l1. apply (IH (length k)) with (l1 := k); [cbn in En; rewrite length_app in En; lia|done| |done].
      by rewrite E2 in Hv.
    + destruct k as [|x k]; [|exfalso]; subst.
      * cbn in E2. subst rest. apply (IH 0%nat) with (l1 := []); [cbn in *; lia|done|done|done].
      * injection E2 as <- _. rewrite Forall_app, Forall_cons in Hpre. lia.
Qed.

Lemma utf8_boundary l : utf8_valid l = true -> char_boundary l = true.
Proof.
  destruct l as [|a l]; [done|]. intros H. destruct (utf8_valid_cons _ _ H) as (pre & rest & _ & _ & Hp).
  cbn. rewrite bool_decide_eq_false_2; [done|]. destruct Hp as [[? _]|[? _]]; lia.
Qed.

Lemma utf8_tail a l : utf8_valid (a :: l) = true -> 0 <= a <= 127 -> utf8_valid l = true.
Proof. intros H. by apply (utf8_after_ascii [] a l). Qed.

Lemma ascii_digit b : is_digit b = true -> 0 <= b <= 127.
Proof. unfold is_digit. rewrite bool_decide_eq_true. lia. Qed.

Lemma ascii_alpha b : is_alpha b = true -> 0 <= b <= 127.
Proof. unfold is_alpha. rewrite orb_true_iff, !bool_decide_eq_true. lia. Qed.

Lemma take_while_valid f l : (forall b, f b = true -> 0 <= b <= 127) -> utf8_valid l = true ->
  utf8_valid (take_while f l).2 = true.
Proof.
  intros Hf. induction l as [|b l IH]; [done|]. cbn [take_while]. destruct (f b) eqn:E; [|done].
  intros H%utf8_tail; [|auto]. specialize (IH H). by destruct (take_while f l).
Qed.

Lemma take_while_app f l : (take_while f l).1 ++ (take_while f l).2 = l.
Proof.
  induction l as [|b l IH]; [done|]. cbn. destruct (f b); [|done]. destruct (take_while f l). cbn in *. by f_equal.
Qed.

Lemma strip_prefix_Some p l r : strip_prefix p l = Some r -> l = p ++ r.
Proof.
  revert l. induction p as [|x p IH]; intros [|y l] H; cbn in *; simplify_eq; try done.
  case_decide; [|done]. subst. f_equal. auto.
Qed.

Lemma from_str_radix_range s lo hi radix l v : from_str_radix s lo hi radix l = Some v -> lo <= v <= hi.
Proof.
  unfold from_str_radix. destruct (match l with [] => _ | _ => _ end) as [x|]; cbn; [|done].
  case_decide; naive_solver.
Qed.

Lemma match_name_elem {A} s (l : list (string * A)) v : match_name s l = Some v -> v ∈ l.*2.
Proof.
  induction l as [|[name w] l IH]; [done|]. cbn. case_decide; [|intros Hl; right; auto].
  intros [= <-]. by left.
Qed.

Lemma take_while_app_stop f a b : Forall (fun c => f c = true) a ->
  match b with [] => True | c :: _ => f c = false end -> take_while f (a ++ b) = (a, b).
Proof.
  induction 1 as [|c a Hc _ IH]; intros Hb; cbn.
  - destruct b as [|c b]; [done|]. cbn. by rewrite Hb.
  - rewrite Hc, IH by done. done.
Qed.

Lemma split_once_absent sep l : sep ∉ l -> split_once sep l = None.
Proof.
  induction l as [|b l IH]; [done|]. intros [Hb Hl]%not_elem_of_cons. cbn. rewrite decide_False by done.
  by rewrite IH.
Qed.

Lemma split_once_first sep a b : sep ∉ a -> split_once sep (a ++ sep :: b) = Some (a, b).
Proof.
  induction a as [|c a IH]; intros H; cbn; [by rewrite decide_True|].
  apply not_elem_of_cons in H as [Hc Ha]. rewrite decide_False by done. by rewrite IH.
Qed.

