(* ===== verification/Diagnostic.v ===== *)
(** * Failures and their messages (src/src/destination_results.rs)

    A failure as the results carry it, a message and a class, and the bounded
    form of a message: what a restricted receiver keeps of a failure, and what
    it lists. *)

From stdpp Require Import strings.
From S2P Require Import Prelude Text.
Local Open Scope Z_scope.

Definition MAX_DIAGNOSTIC_BYTES : nat := Z.to_nat 1024.

Record Failure := mkFailure { lf_message : list Z; lf_class : list Z }.

Definition Failure_io (message : list Z) : Failure := mkFailure message (bs "io").

(** ** Messages of a bounded length *)
(** [is_char_boundary]. *)
Definition boundary_at (l : list Z) (n : nat) : bool := bool_decide (n = 0%nat) || char_boundary (drop n l).

Fixpoint back_to_boundary (l : list Z) (n : nat) : nat :=
  if boundary_at l n then n else match n with O => O | S n => back_to_boundary l n end.

Record BoundedWriter := mkBounded { bw_text : list Z; bw_truncated : bool }.

Definition write_str (w : BoundedWriter) (value : list Z) : BoundedWriter :=
  let remaining := (MAX_DIAGNOSTIC_BYTES - length (bw_text w))%nat in
  if decide (length value <= remaining)%nat then mkBounded (bw_text w ++ value) (bw_truncated w)
  else mkBounded (bw_text w ++ take (back_to_boundary value (Nat.min remaining (length value))) value) true.

Definition ellipsis : list Z := [226; 128; 166].

(** The pieces that formatting writes. *)
Definition bounded_format (pieces : list (list Z)) : option (list Z) :=
  let w := foldl write_str (mkBounded [] false) pieces in
  if decide (bw_text w = []) then None
  else Some (if bw_truncated w then bw_text w ++ ellipsis else bw_text w).

Definition bounded_diagnostic (error : list Z) : option (list Z) := bounded_format [error].
