(* ===== verification/Proto.v ===== *)
(** * Wire protocol data and size limits (src/src/proto.rs)

    The records and enums that scheduler, expressions and mappings share, the
    strict descriptor-relative path [RegisteredPath], and the functions that
    decide whether a request or a response fits one frame. *)

From S2P Require Import Prelude.
Local Open Scope Z_scope.

(** [PathBytes]: bytes, each a [Z] in [0, 256). *)
Abbreviation PathBytes := (list Z).

Inductive Kind := Dir | File | Symlink | Fifo | Socket | CharDev | BlockDev | Other.

#[export] Instance Kind_eq_dec : EqDecision Kind.
Proof. solve_decision. Defined.

Inductive TargetCondition :=
| Any
| Absent
| Matches (dev ino : Z)
| MatchesFingerprint (dev ino ctime ctime_nsec : Z).

Inductive ScannedDestination := ScUnknown | ScAbsent | ScFile (mode : Z).

Inductive ReplaceReason :=
| NotRegular | OtherNames | UntrustedFilesystem | Owner | Privileges | WiderPermissions
| NotWritable.

(** [Entry], without [atime] and [inode_metadata], which no operation modelled
    here reads. *)
Record Entry := mkEntry {
  e_path : PathBytes;
  e_kind : Kind;
  e_size : Z;
  e_mtime : Z;
  e_mtime_nsec : Z;
  e_mode : Z;
  e_uid : Z;
  e_gid : Z;
  e_rdev : Z;
  e_dev : Z;
  e_ino : Z;
  e_nlink : Z;
  e_ctime : Z;
  e_ctime_nsec : Z;
  e_link : option PathBytes
}.

(** ** Descriptor-relative paths *)
Inductive PathError := MustBeRelative | ContainsNul | UnsafeComponent.

Definition slash : Z := 47.
Definition dot : Z := 46.

(** [component.is_empty() || component == b"." || component == b".."] *)
Definition unsafe_component (c : list Z) : bool :=
  bool_decide (c = []) || bool_decide (c = [dot]) || bool_decide (c = [dot; dot]).

Definition validate_relative_path (path : PathBytes) : result PathError unit :=
  if bool_decide (head path = Some slash) then Err MustBeRelative
  else if bool_decide (0 ∈ path) then Err ContainsNul
  else if bool_decide (path = []) then Ok tt
  else if existsb unsafe_component (split_on slash path) then Err UnsafeComponent
  else Ok tt.

(** [RegisteredPath]; the root is an opaque identifier. *)
Record RegisteredPath := mkRegistered { rp_root : Z; rp_relative : PathBytes }.

Definition RegisteredPath_new (root : Z) (relative : PathBytes) : result PathError RegisteredPath :=
  _ ← validate_relative_path relative; Ok (mkRegistered root relative).

Definition RegisteredPath_join (p : RegisteredPath) (relative : PathBytes)
  : result PathError RegisteredPath :=
  _ ← validate_relative_path relative;
  let joined := rp_relative p in
  let joined := if negb (bool_decide (joined = [])) && negb (bool_decide (relative = []))
                then joined ++ [slash] else joined in
  RegisteredPath_new (rp_root p) (joined ++ relative).

(** ** Frame limits *)
Definition MAX_FRAME : Z := 65 * 1024 * 1024.
Definition MAX_READ_BYTES : Z := 64 * 1024 * 1024.
Definition MIN_HASH_BLOCK_BYTES : Z := 64 * 1024.
Definition MAX_HASH_BLOCK_BYTES : Z := 64 * 1024 * 1024.
Definition HASH_RESPONSE_BYTES_PER_ENTRY : Z := 32.
Definition HASH_RESPONSE_OVERHEAD : Z := 24.
Definition EXISTING_HASHES_OVERHEAD : Z := 64.
Definition i64_max : Z := 2 ^ 63 - 1.

Definition hash_window_fits (off len block : Z) : bool :=
  bool_decide (0 < len) && bool_decide (len <= MAX_READ_BYTES) && bool_decide (0 < block) &&
  bool_decide (block <= MAX_READ_BYTES) && bool_decide (div_ceil len block <= 1024) &&
  match u64_add off len with Some end_ => bool_decide (end_ <= i64_max) | None => false end.

Definition hash_block_ok (block : Z) : bool :=
  bool_decide (MIN_HASH_BLOCK_BYTES <= block) && bool_decide (block <= MAX_HASH_BLOCK_BYTES).

Definition hash_response_fits (block len : Z) : bool :=
  if negb (hash_block_ok block) then false else
    match checked_mul (div_ceil len block) HASH_RESPONSE_BYTES_PER_ENTRY
            ≫= fun bytes => u64_add bytes HASH_RESPONSE_OVERHEAD with
    | Some bytes => bool_decide (bytes < MAX_FRAME)
    | None => false
    end.

Definition hash_response_window (block : Z) : Z :=
  (MAX_FRAME - HASH_RESPONSE_OVERHEAD - 1) / HASH_RESPONSE_BYTES_PER_ENTRY * block.

Definition patch_batch_fits (lens : list Z) : bool :=
  bool_decide (foldl saturating_add 0 lens <= MAX_READ_BYTES).

(** One file's share of an [ExistingHashes] response, added to [bytes]. *)
Definition existing_hash_step (block : Z) (bytes : option Z) (len : Z) : option Z :=
  bytes ← bytes;
  hashes ← checked_mul (div_ceil len block) (HASH_RESPONSE_BYTES_PER_ENTRY + 1);
  file ← u64_add hashes EXISTING_HASHES_OVERHEAD;
  u64_add bytes file.

Definition existing_hashes_fit (block : Z) (lens : list Z) : bool :=
  if negb (hash_block_ok block) then false else
    match foldl (existing_hash_step block) (Some HASH_RESPONSE_OVERHEAD) lens with
    | Some bytes => bool_decide (bytes < MAX_FRAME)
    | None => false
    end.

(** ** Facts about safe paths *)

(** A path that names something strictly below (or at) its root: relative, free
    of NUL, and with no empty, [.] or [..] component. *)
Definition path_safe (path : PathBytes) : Prop :=
  0 ∉ path /\ (path = [] \/ forall c, c ∈ split_on slash path -> unsafe_component c = false).

Lemma unsafe_nil : unsafe_component [] = true.
Proof. done. Qed.

Lemma existsb_false {A} (f : A -> bool) l :
  existsb f l = false <-> forall x, x ∈ l -> f x = false.
Proof.
  induction l as [|a l IH]; cbn; [split; [set_solver|done]|].
  rewrite orb_false_iff, IH. split; [intros [? ?] x; set_solver|]. intros H.
  split; [apply H; set_solver|]. intros x Hx. apply H. set_solver.
Qed.

Lemma validate_relative_path_Ok path u : validate_relative_path path = Ok u <-> path_safe path.
Proof.
  unfold validate_relative_path, path_safe. destruct u.
  case_bool_decide as Hs; [split; [done|]|].
  { destruct path as [|b path]; [done|]. cbn in Hs. injection Hs as ->.
    intros [_ [?|Hc]]; [done|]. destruct (split_on_head_slash slash path) as [rest E].
    rewrite E in Hc. by specialize (Hc [] ltac:(set_solver)). }
  case_bool_decide as Hz; [naive_solver|]. case_bool_decide as Hn; [naive_solver|].
  destruct (existsb unsafe_component (split_on slash path)) eqn:E.
  - split; [done|]. intros [_ [?|Hc]]; [done|]. apply existsb_false in Hc. congruence.
  - split; [|done]. intros _. split; [done|]. right. by apply existsb_false.
Qed.

Lemma path_safe_join a b : path_safe a -> path_safe b -> a <> [] -> b <> [] ->
  path_safe (a ++ slash :: b).
Proof.
  intros [Ha0 Ha] [Hb0 Hb] Hna Hnb. split.
  - rewrite elem_of_app, elem_of_cons. unfold slash. naive_solver.
  - right. intros c. rewrite split_on_app, elem_of_app. naive_solver.
Qed.

(** The components of a relative path; the empty path has none. *)
Definition path_components (path : PathBytes) : list (list Z) :=
  if bool_decide (path = []) then [] else split_on slash path.

Lemma path_components_join a b : a <> [] -> b <> [] ->
  path_components (a ++ slash :: b) = path_components a ++ path_components b.
Proof.
  intros Ha Hb. unfold path_components. rewrite !bool_decide_eq_false_2; [apply split_on_app|done..|].
  by destruct a.
Qed.

(** Joining a relative path onto a registered path succeeds exactly when
    the added path is safe (relative, NUL-free, no empty, [.] or [..]
    component); the result keeps the root, is again safe, and its components
    are those of the two paths in order, so a join never leaves the root. *)
Theorem registered_path_join_stays_below (p : RegisteredPath) (rel : PathBytes) :
  path_safe (rp_relative p) ->
  match RegisteredPath_join p rel with
  | Ok q => path_safe rel /\ path_safe (rp_relative q) /\ rp_root q = rp_root p /\
      path_components (rp_relative q) = path_components (rp_relative p) ++ path_components rel
  | Err _ => ~ path_safe rel
  end.
Proof.
  destruct p as [root base]; cbn. intros Hbase. unfold RegisteredPath_join, RegisteredPath_new; cbn.
  destruct (validate_relative_path rel) as [[]|e] eqn:Hv; cbn; last first.
  { intros Hs. rewrite <- (validate_relative_path_Ok rel tt) in Hs. congruence. }
  pose proof (proj1 (validate_relative_path_Ok rel tt) Hv) as Hrel.
  set (j := (if negb (bool_decide (base = [])) && negb (bool_decide (rel = []))
             then base ++ [slash] else base) ++ rel).
  assert (path_safe j /\ path_components j = path_components base ++ path_components rel) as [Hj Hc].
  { unfold j. destruct (decide (base = [])) as [->|Hb]; [done|].
    destruct (decide (rel = [])) as [->|Hr].
    - rewrite bool_decide_eq_false_2 by done. cbn. rewrite !app_nil_r. done.
    - rewrite !bool_decide_eq_false_2 by done. cbn. rewrite <- app_assoc. cbn.
      auto using path_safe_join, path_components_join. }
  rewrite (proj2 (validate_relative_path_Ok j tt) Hj). cbn. done.
Qed.

Lemma registered_path_join_stays_below_witness :
  exists q, RegisteredPath_join (mkRegistered 3 [97; 47; 98]) [99] = Ok q /\
    path_components (rp_relative q) = [[97]; [98]; [99]].
Proof.
  eexists. split; [reflexivity|].
  assert (path_safe [97; 47; 98]) as Hs by (apply (validate_relative_path_Ok _ tt); reflexivity).
  pose proof (registered_path_join_stays_below (mkRegistered 3 [97; 47; 98]) [99] Hs) as (_ & _ & _ & H).
  exact H.
Defined.

Lemma hash_block_ok_spec block :
  hash_block_ok block = true <-> MIN_HASH_BLOCK_BYTES <= block <= MAX_HASH_BLOCK_BYTES.
Proof. unfold hash_block_ok. rewrite andb_true_iff, !bool_decide_eq_true. done. Qed.

(** For every admissible block size, [hash_response_window] is exactly
    the largest length whose block hashes fit one response frame: a length
    fits ([hash_response_fits]) if and only if it is at most the window. *)
Theorem hash_response_window_maximal (block len : Z) :
  hash_block_ok block = true -> 0 <= len <= u64_max ->
  hash_response_fits block len = true <-> len <= hash_response_window block.
Proof.
  intros Hb Hlen. pose proof (proj1 (hash_block_ok_spec block) Hb) as Hrange.
  unfold MIN_HASH_BLOCK_BYTES, MAX_HASH_BLOCK_BYTES in Hrange.
  unfold hash_response_fits, hash_response_window. rewrite Hb. cbn [negb].
  rewrite <- div_ceil_le by lia. pose proof (div_ceil_nonneg len block ltac:(lia) ltac:(lia)) as Hn.
  set (n := div_ceil len block) in *.
  change ((MAX_FRAME - HASH_RESPONSE_OVERHEAD - 1) / HASH_RESPONSE_BYTES_PER_ENTRY) with 2129919.
  unfold checked_mul, u64_add, HASH_RESPONSE_BYTES_PER_ENTRY, HASH_RESPONSE_OVERHEAD, MAX_FRAME, u64_max.
  case_decide; cbn; [case_decide; cbn; rewrite ?bool_decide_eq_true|]; split; (done || lia).
Qed.

Lemma hash_response_window_maximal_witness :
  hash_response_fits 65536 (hash_response_window 65536) = true /\
  hash_response_fits 65536 (hash_response_window 65536 + 1) = false.
Proof.
  split; [|reflexivity].
  apply (hash_response_window_maximal 65536 (hash_response_window 65536)); [reflexivity | | reflexivity].
  split; vm_compute; discriminate.
Defined.

Lemma existing_hash_step_None block lens : foldl (existing_hash_step block) None lens = None.
Proof. by induction lens. Qed.

Definition existing_hash_cost (block len : Z) : Z :=
  div_ceil len block * (HASH_RESPONSE_BYTES_PER_ENTRY + 1) + EXISTING_HASHES_OVERHEAD.

Lemma existing_hash_fold block lens : 0 < block -> Forall (fun l => 0 <= l) lens ->
  forall acc, 0 <= acc ->
  match foldl (existing_hash_step block) (Some acc) lens with
  | Some bytes => bytes = acc + sumZ (existing_hash_cost block <$> lens)
  | None => u64_max < acc + sumZ (existing_hash_cost block <$> lens)
  end.
Proof.
  intros Hb Hl. induction Hl as [|len lens Hlen Hlens IH]; intros acc Hacc; cbn [foldl].
  { cbn. lia. }
  pose proof (div_ceil_nonneg len block Hb Hlen) as Hn.
  assert (0 <= sumZ (existing_hash_cost block <$> lens)) as Hs.
  { apply sumZ_nonneg. intros x (l & -> & Hin)%list_elem_of_fmap.
    rewrite Forall_forall in Hlens. pose proof (div_ceil_nonneg l block Hb (Hlens l Hin)).
    unfold existing_hash_cost, HASH_RESPONSE_BYTES_PER_ENTRY, EXISTING_HASHES_OVERHEAD. lia. }
  rewrite fmap_cons, sumZ_cons.
  assert (existing_hash_step block (Some acc) len =
          if decide (acc + existing_hash_cost block len <= u64_max)
          then Some (acc + existing_hash_cost block len) else None) as ->.
  { unfold existing_hash_step, existing_hash_cost, checked_mul, u64_add.
    unfold HASH_RESPONSE_BYTES_PER_ENTRY, EXISTING_HASHES_OVERHEAD. cbn [mbind option_bind].
    repeat (case_decide; cbn [mbind option_bind]); (done || lia). }
  assert (0 <= existing_hash_cost block len).
  { unfold existing_hash_cost, HASH_RESPONSE_BYTES_PER_ENTRY, EXISTING_HASHES_OVERHEAD. lia. }
  case_decide; [|rewrite existing_hash_step_None; lia].
  specialize (IH (acc + existing_hash_cost block len) ltac:(lia)). destruct (foldl _ _ _); lia.
Qed.

(** The overflow-checked fold of [existing_hashes_fit] decides the
    mathematical size: for an admissible block, a batch of existing files fits
    one response exactly when the response overhead plus, for each file, its
    fixed overhead and 33 bytes per block stays below the frame limit. *)
Theorem existing_hashes_fit_exact (block : Z) (lens : list Z) :
  hash_block_ok block = true -> Forall (fun l => 0 <= l) lens ->
  existing_hashes_fit block lens = true <->
  HASH_RESPONSE_OVERHEAD + sumZ (existing_hash_cost block <$> lens) < MAX_FRAME.
Proof.
  intros Hb Hl. pose proof (proj1 (hash_block_ok_spec block) Hb) as Hrange.
  unfold MIN_HASH_BLOCK_BYTES in Hrange. unfold existing_hashes_fit. rewrite Hb. cbn [negb].
  pose proof (existing_hash_fold block lens ltac:(lia) Hl HASH_RESPONSE_OVERHEAD ltac:(done)) as HF.
  destruct (foldl _ _ _); [rewrite bool_decide_eq_true; subst; done|].
  split; [done|]. unfold u64_max in HF. unfold MAX_FRAME. lia.
Qed.

Lemma existing_hashes_fit_exact_witness :
  existing_hashes_fit 65536 [0; 65536; 200000] = true.
Proof.
  apply (existing_hashes_fit_exact 65536 [0; 65536; 200000]);
    [reflexivity | repeat constructor; lia | vm_compute; reflexivity].
Defined.
