(* ===== verification/Hashing.v ===== *)
(** * File checksums (src/src/hashing.rs)

    The algorithms, the digests users write and the receiver's checks of file
    contents against them.  The hash functions themselves (blake3, sha2, md5,
    xxhash) are library code: a [HashLib] is a parameter, and [HashLaws] states
    the documented contract that hashing in pieces is hashing the whole and
    that outputs have their width.
    - A hash is 32 bytes; shorter outputs are padded with zeros.
    - A reader is the list of what its successive [read] calls return; an empty
      piece is the end of the file. *)

From stdpp Require Import strings.
From S2P Require Import Prelude Text.
Local Open Scope Z_scope.

Abbreviation hres := (result string).

Inductive HashAlgorithm := Blake3 | Sha256 | Md5 | Xxh3.

#[export] Instance HashAlgorithm_eq_dec : EqDecision HashAlgorithm.
Proof. solve_decision. Defined.

Definition as_str (a : HashAlgorithm) : list Z :=
  match a with
  | Blake3 => bs "blake3" | Sha256 => bs "sha256" | Md5 => bs "md5" | Xxh3 => bs "xxh3-128"
  end.

Definition output_len (a : HashAlgorithm) : nat :=
  match a with Blake3 | Sha256 => 32 | Md5 | Xxh3 => 16 end.

Definition algorithm_from_str (value : list Z) : hres HashAlgorithm :=
  if decide (value = bs "blake3") then Ok Blake3
  else if decide (value = bs "sha256") then Ok Sha256
  else if decide (value = bs "md5") then Ok Md5
  else if decide (value = bs "xxh3-128") then Ok Xxh3
  else Err "unknown hash algorithm"%string.

(** ** The hash libraries *)
Record HashImpl (O : Type) := mkImpl {
  hstate : Type;
  h_new : hstate;
  h_update : hstate -> list Z -> hstate;
  h_finalize : hstate -> O;
  h_hash : list Z -> O
}.
Arguments hstate {O} _.
Arguments h_new {O} _.
Arguments h_update {O} _ _ _.
Arguments h_finalize {O} _ _.
Arguments h_hash {O} _ _.

Class HashLib := {
  blake3 : HashImpl (list Z);
  sha2 : HashImpl (list Z);
  md5 : HashImpl (list Z);
  (** [digest128] is a [u128]. *)
  xxh3 : HashImpl Z
}.

Definition streams {O} (h : HashImpl O) : Prop :=
  forall pieces, h_finalize h (foldl (h_update h) (h_new h) pieces) = h_hash h (concat pieces).
Definition has_width (n : nat) (l : list Z) : Prop := length l = n /\ Forall is_byte l.

Class HashLaws `{HashLib} := {
  blake3_streams : streams blake3;
  sha2_streams : streams sha2;
  md5_streams : streams md5;
  xxh3_streams : streams xxh3;
  blake3_width l : has_width 32 (h_hash blake3 l);
  sha2_width l : has_width 32 (h_hash sha2 l);
  md5_width l : has_width 16 (h_hash md5 l)
}.

(** [u128::to_be_bytes]. *)
Definition to_be_bytes (width : nat) (n : Z) : list Z :=
  (fun i => Z.shiftr n (8 * (Z.of_nat width - 1 - Z.of_nat i)) mod 256) <$> seq 0 width.

(** [let mut result = [0; 32]; result[..n].copy_from_slice(out)]. *)
Definition pad32 (out : list Z) : list Z := out ++ replicate (32 - length out) 0.

Section Hash.
Context `{HashLib}.

Inductive Hasher :=
| HBlake3 (s : hstate blake3)
| HSha256 (s : hstate sha2)
| HMd5 (s : hstate md5)
| HXxh3 (s : hstate xxh3).

Definition hasher (a : HashAlgorithm) : Hasher :=
  match a with
  | Blake3 => HBlake3 (h_new blake3)
  | Sha256 => HSha256 (h_new sha2)
  | Md5 => HMd5 (h_new md5)
  | Xxh3 => HXxh3 (h_new xxh3)
  end.

Definition hash (a : HashAlgorithm) (bytes : list Z) : list Z :=
  match a with
  | Blake3 => pad32 (h_hash blake3 bytes)
  | Sha256 => pad32 (h_hash sha2 bytes)
  | Md5 => pad32 (h_hash md5 bytes)
  | Xxh3 => pad32 (to_be_bytes 16 (h_hash xxh3 bytes))
  end.

Definition update (h : Hasher) (bytes : list Z) : Hasher :=
  match h with
  | HBlake3 s => HBlake3 (h_update blake3 s bytes)
  | HSha256 s => HSha256 (h_update sha2 s bytes)
  | HMd5 s => HMd5 (h_update md5 s bytes)
  | HXxh3 s => HXxh3 (h_update xxh3 s bytes)
  end.

Definition finalize (h : Hasher) : list Z :=
  match h with
  | HBlake3 s => pad32 (h_finalize blake3 s)
  | HSha256 s => pad32 (h_finalize sha2 s)
  | HMd5 s => pad32 (h_finalize md5 s)
  | HXxh3 s => pad32 (to_be_bytes 16 (h_finalize xxh3 s))
  end.
End Hash.

(** ** Policies *)
Record HashPolicy := mkHashPolicy {
  hp_algorithm : HashAlgorithm;
  hp_transfer_integrity : bool;
  hp_transfer_hash_type : option HashAlgorithm
}.

Definition payload_algorithm (p : HashPolicy) : HashAlgorithm :=
  default (hp_algorithm p) (hp_transfer_hash_type p).

(** ** Digests *)
Record Digest := mkDigest { d_algorithm : HashAlgorithm; d_value : list Z }.

#[export] Instance Digest_eq_dec : EqDecision Digest.
Proof. solve_decision. Defined.

Definition is_hexdigit (b : Z) : bool :=
  is_digit b || bool_decide (97 <= b <= 102) || bool_decide (65 <= b <= 70).
Definition to_ascii_lowercase (b : Z) : Z := if decide (65 <= b <= 90) then b + 32 else b.

Definition Digest_new (algorithm : HashAlgorithm) (value : list Z) : hres Digest :=
  if negb (bool_decide (length value = output_len algorithm * 2)%nat) || negb (forallb is_hexdigit value)
  then Err "hash must contain exactly the algorithm's hexadecimal characters"%string
  else Ok (mkDigest algorithm (to_ascii_lowercase <$> value)).

Definition Digest_validate (d : Digest) : hres unit :=
  _ ← Digest_new (d_algorithm d) (d_value d); Ok tt.

(** [format!("{b:02x}")]. *)
Definition hex_byte (b : Z) : list Z := [hex_digit (b / 16); hex_digit (b mod 16)].

Definition from_hash (algorithm : HashAlgorithm) (hash : list Z) : Digest :=
  mkDigest algorithm (flat_map hex_byte (take (output_len algorithm) hash)).

Definition verify (d : Digest) (actual : list Z) : hres unit :=
  if decide (from_hash (d_algorithm d) actual <> d) then Err "expected hash does not match"%string else Ok tt.

Definition Digest_from_str (text : list Z) : hres Digest :=
  match split_once 58 text with
  | None => Err "expected hash must be ALGORITHM:HEX"%string
  | Some (algorithm, value) => a ← algorithm_from_str algorithm; Digest_new a value
  end.

Definition Digest_display (d : Digest) : list Z := as_str (d_algorithm d) ++ [58] ++ d_value d.

(** ** Reading *)
Definition Reader : Type := list (hres (list Z)).

Section Verify.
Context `{HashLib}.

Definition hash_bytes (algorithm : HashAlgorithm) (bytes : list Z) : Digest :=
  from_hash algorithm (hash algorithm bytes).

(** The read loop of both [verify_reader]s: until an empty piece or an error. *)
Fixpoint read_loop {S} (step : S -> list Z -> S) (reader : Reader) (s : S) : hres S :=
  match reader with
  | [] => Ok s
  | r :: reader =>
      piece ← r;
      match piece with
      | [] => Ok s
      | _ => read_loop step reader (step s piece)
      end
  end.

Definition verify_reader (d : Digest) (reader : Reader) : hres unit :=
  h ← read_loop update reader (hasher (d_algorithm d)); verify d (finalize h).

Inductive ExpectedHashes := Single (d : Digest) | Multiple (ds : list Digest).

Fixpoint collect_loop (digests distinct : list Digest) : hres (list Digest) :=
  match digests with
  | [] => Ok distinct
  | digest :: digests =>
      match find (fun d => bool_decide (d_algorithm d = d_algorithm digest)) distinct with
      | Some previous =>
          if decide (previous <> digest)
          then Err "conflicting expected hashes for one hardlink group"%string
          else collect_loop digests distinct
      | None => collect_loop digests (distinct ++ [digest])
      end
  end.

Definition collect (digests : list Digest) : hres (option ExpectedHashes) :=
  distinct ← collect_loop digests [];
  Ok match distinct with
     | [] => None
     | [d] => Some (Single d)
     | _ => Some (Multiple distinct)
     end.

(** [digest.validate()] and no earlier digest of the same algorithm, for every
    digest in order; [before] are the digests already seen. *)
Fixpoint check_set (before digests : list Digest) : hres unit :=
  match digests with
  | [] => Ok tt
  | d :: digests =>
      _ ← Digest_validate d;
      _ ← require (forallb (fun e => negb (bool_decide (d_algorithm e = d_algorithm d))) before)
            "duplicate expected hash algorithm"%string;
      check_set (before ++ [d]) digests
  end.

Fixpoint verify_all (digests : list Digest) (hashers : list Hasher) : hres unit :=
  match digests, hashers with
  | d :: digests, h :: hashers => _ ← verify d (finalize h); verify_all digests hashers
  | _, _ => Ok tt
  end.

Definition expected_verify_reader (e : ExpectedHashes) (reader : Reader) : hres unit :=
  match e with
  | Single d => verify_reader d reader
  | Multiple digests =>
      _ ← require (bool_decide (2 <= length digests <= 4)%nat) "invalid expected hash set"%string;
      _ ← check_set [] digests;
      hs ← read_loop (fun hs piece => (fun h => update h piece) <$> hs) reader
             ((fun d => hasher (d_algorithm d)) <$> digests);
      verify_all digests hs
  end.
End Verify.

(** ** The contents a reader delivers *)
Fixpoint contents (reader : Reader) : hres (list Z) :=
  match reader with
  | [] => Ok []
  | r :: reader =>
      piece ← r;
      match piece with [] => Ok [] | _ => rest ← contents reader; Ok (piece ++ rest) end
  end.

Section Theorems.
Context `{HashLaws}.

(** A hasher that has seen [bytes]. *)
Definition seen (a : HashAlgorithm) (bytes : list Z) (h : Hasher) : Prop :=
  exists pieces, concat pieces = bytes /\ h = foldl update (hasher a) pieces.

Lemma seen_new a : seen a [] (hasher a).
Proof. by exists []. Qed.

Lemma seen_update a bytes h piece : seen a bytes h -> seen a (bytes ++ piece) (update h piece).
Proof.
  intros (pieces & <- & ->). exists (pieces ++ [piece]). split; [|by rewrite foldl_snoc].
  rewrite concat_app. cbn. by rewrite app_nil_r.
Qed.

Lemma foldl_update a pieces : foldl update (hasher a) pieces =
  match a with
  | Blake3 => HBlake3 (foldl (h_update blake3) (h_new blake3) pieces)
  | Sha256 => HSha256 (foldl (h_update sha2) (h_new sha2) pieces)
  | Md5 => HMd5 (foldl (h_update md5) (h_new md5) pieces)
  | Xxh3 => HXxh3 (foldl (h_update xxh3) (h_new xxh3) pieces)
  end.
Proof.
  induction pieces as [|p pieces IH] using rev_ind; [by destruct a|]. rewrite foldl_snoc, IH.
  destruct a; cbn; by rewrite foldl_snoc.
Qed.

Lemma seen_finalize a bytes h : seen a bytes h -> finalize h = hash a bytes.
Proof.
  intros (pieces & <- & ->). rewrite foldl_update. destruct a; cbn [finalize hash].
  - f_equal. apply blake3_streams.
  - f_equal. apply sha2_streams.
  - f_equal. apply md5_streams.
  - do 2 f_equal. apply xxh3_streams.
Qed.

(** The read loop keeps any relation to the bytes read so far. *)
Lemma read_loop_spec {S} (P : list Z -> S -> Prop) step reader s bytes :
  (forall bytes s piece, P bytes s -> P (bytes ++ piece) (step s piece)) -> P bytes s ->
  match read_loop step reader s, contents reader with
  | Ok s', Ok rest => P (bytes ++ rest) s'
  | Err e, Err e' => e = e'
  | _, _ => False
  end.
Proof.
  intros Hstep. revert bytes s. induction reader as [|r reader IH]; intros bytes s HP; cbn [read_loop contents].
  { by rewrite app_nil_r. }
  destruct r as [piece|e]; cbn [mbind result_bind]; [|done]. destruct piece as [|b piece]; [by rewrite app_nil_r|].
  specialize (IH (bytes ++ b :: piece) (step s (b :: piece)) (Hstep _ _ _ HP)).
  destruct (read_loop step reader _), (contents reader); cbn; try done. by rewrite <- app_assoc in IH.
Qed.

Lemma verify_seen d bytes h : seen (d_algorithm d) bytes h ->
  verify d (finalize h) = if decide (hash_bytes (d_algorithm d) bytes = d) then Ok tt
                          else Err "expected hash does not match"%string.
Proof.
  intros Hs. unfold verify, hash_bytes. rewrite (seen_finalize _ _ _ Hs).
  destruct (decide (from_hash _ _ = d)) as [E|E]; [rewrite decide_False by tauto|rewrite decide_True by tauto]; done.
Qed.

Lemma verify_reader_spec d reader :
  verify_reader d reader =
    (bytes ← contents reader;
     if decide (hash_bytes (d_algorithm d) bytes = d) then Ok tt else Err "expected hash does not match"%string).
Proof.
  unfold verify_reader.
  pose proof (read_loop_spec (seen (d_algorithm d)) update reader (hasher (d_algorithm d)) []
    (fun b s p => seen_update _ b s p) (seen_new _)) as Hr.
  destruct (read_loop _ _ _) as [h|e], (contents reader) as [bytes|e']; cbn [mbind result_bind];
    try done; [|by subst]. by apply verify_seen.
Qed.

Lemma verify_all_spec bytes digests hashers : Forall2 (fun d h => seen (d_algorithm d) bytes h) digests hashers ->
  verify_all digests hashers = Ok tt <-> Forall (fun d => hash_bytes (d_algorithm d) bytes = d) digests.
Proof.
  induction 1 as [|d h ds hs Hd _ IH]; cbn; [done|]. rewrite (verify_seen _ _ _ Hd), Forall_cons.
  case_decide; cbn; [rewrite IH|]; naive_solver.
Qed.

(** ** Digest values are normal: lower-case hexadecimal of the right length *)
Definition normal (d : Digest) : Prop := Digest_new (d_algorithm d) (d_value d) = Ok d.

Lemma normal_validate d : normal d -> Digest_validate d = Ok tt.
Proof. unfold normal, Digest_validate. by intros ->. Qed.

Lemma hexdigit_lower b : is_hexdigit b = true ->
  is_hexdigit (to_ascii_lowercase b) = true /\ to_ascii_lowercase (to_ascii_lowercase b) = to_ascii_lowercase b.
Proof.
  unfold is_hexdigit, is_digit, to_ascii_lowercase. rewrite !orb_true_iff, !bool_decide_eq_true.
  intros Hb. repeat case_decide; lia.
Qed.

Lemma Digest_new_normal a v d : Digest_new a v = Ok d -> normal d.
Proof.
  unfold normal, Digest_new. destruct (_ || _) eqn:E; [done|]. intros [= <-]. cbn.
  apply orb_false_iff in E as [E1%negb_false_iff E2%negb_false_iff]. apply bool_decide_eq_true in E1.
  rewrite length_fmap, (bool_decide_eq_true_2 _ E1). rewrite forallb_forall in E2.
  assert (E3 : forallb is_hexdigit (to_ascii_lowercase <$> v) = true).
  { apply forallb_forall. intros b (x & -> & Hx)%list_elem_of_In%list_elem_of_fmap.
    apply hexdigit_lower, E2. by apply list_elem_of_In. }
  rewrite E3. cbn. do 2 f_equal. rewrite <- list_fmap_compose. apply list_fmap_ext. intros i b Hb. cbn.
  apply hexdigit_lower, E2, list_elem_of_In. by eapply list_elem_of_lookup_2.
Qed.

Definition hex_lower (d : Z) : bool :=
  is_hexdigit (hex_digit (d / 16)) && is_hexdigit (hex_digit (d mod 16)) &&
  bool_decide (to_ascii_lowercase <$> hex_byte d = hex_byte d).

Lemma hex_byte_lower b : is_byte b ->
  forallb is_hexdigit (hex_byte b) = true /\ to_ascii_lowercase <$> hex_byte b = hex_byte b.
Proof.
  intros Hb. assert (E : hex_lower b = true) by (apply byte_cases; [vm_compute; reflexivity|done]).
  apply andb_true_iff in E as [[E1 E2]%andb_true_iff E3%bool_decide_eq_true].
  split; [|done]. cbn. by rewrite E1, E2.
Qed.

Lemma hex_bytes_lower l : Forall is_byte l ->
  forallb is_hexdigit (flat_map hex_byte l) = true /\
  to_ascii_lowercase <$> flat_map hex_byte l = flat_map hex_byte l.
Proof.
  induction 1 as [|b l Hb _ [IH1 IH2]]; [done|]. destruct (hex_byte_lower b Hb) as [H1 H2].
  cbn [flat_map]. rewrite forallb_app, fmap_app, H1, IH1, H2, IH2. done.
Qed.

Lemma from_hash_normal a h : has_width 32 h -> normal (from_hash a h).
Proof.
  intros [Hl Hb]. unfold normal, Digest_new, from_hash. cbn [d_algorithm d_value].
  set (l := take (output_len a) h). assert (Hb' : Forall is_byte l) by (by apply Forall_take).
  assert (Hlen : length (flat_map hex_byte l) = (output_len a * 2)%nat).
  { rewrite (flat_map_constant_length (c := 2)); [|done]. subst l. rewrite length_take, Hl. by destruct a. }
  rewrite (bool_decide_eq_true_2 _ Hlen). destruct (hex_bytes_lower l Hb') as [-> ->]. done.
Qed.

Lemma to_be_bytes_width n x : has_width n (to_be_bytes n x).
Proof.
  unfold to_be_bytes. split; [by rewrite length_fmap, length_seq|]. apply Forall_fmap, Forall_forall.
  intros i _. unfold is_byte. cbn. pose proof (Z.mod_pos_bound (Z.shiftr x (8 * (Z.of_nat n - 1 - Z.of_nat i))) 256). lia.
Qed.

Lemma pad32_width n l : (n <= 32)%nat -> has_width n l -> has_width 32 (pad32 l).
Proof.
  intros Hn [Hl Hb]. unfold pad32. split; [rewrite length_app, length_replicate; lia|].
  apply Forall_app. split; [done|]. apply Forall_replicate. unfold is_byte. lia.
Qed.

Lemma hash_width a bytes : has_width 32 (hash a bytes).
Proof using H0.
  destruct a; cbn [hash]; (eapply pad32_width; [|first [apply blake3_width|apply sha2_width|apply md5_width
    |apply to_be_bytes_width]]); lia.
Qed.

Lemma hash_bytes_normal a bytes : normal (hash_bytes a bytes).
Proof using H0. apply from_hash_normal, hash_width. Qed.

Lemma display_from_str d : normal d -> Digest_from_str (Digest_display d) = Ok d.
Proof.
  intros Hd. unfold Digest_from_str, Digest_display. cbn [app].
  rewrite split_once_first by (by destruct (d_algorithm d); apply (bool_decide_unpack _); vm_compute).
  replace (algorithm_from_str (as_str (d_algorithm d))) with (Ok (E := string) (d_algorithm d))
    by (by destruct (d_algorithm d)).
  exact Hd.
Qed.

(** Digests print and read back: a digest that was parsed (in any letter
    case) or computed from contents is written as [ALGORITHM:hex] text that
    parses to the same digest. *)
Theorem digest_text_roundtrip d :
  (exists text, Digest_from_str text = Ok d) \/ (exists a bytes, d = hash_bytes a bytes) ->
  Digest_from_str (Digest_display d) = Ok d.
Proof using H0.
  intros [[text Ht]|(a & bytes & ->)]; apply display_from_str; [|apply hash_bytes_normal].
  unfold Digest_from_str in Ht. destruct (split_once 58 text) as [[alg v]|]; [|done].
  apply result_bind_Ok in Ht as (a & _ & Ht). by eapply Digest_new_normal.
Qed.

(** Checking a file against a digest is comparing the digest of its whole
    contents, however the reader cuts them into pieces; a read error is
    reported as it is. *)
Theorem verify_reader_whole d reader :
  verify_reader d reader =
    (bytes ← contents reader;
     if decide (hash_bytes (d_algorithm d) bytes = d) then Ok tt else Err "expected hash does not match"%string).
Proof using H0. apply verify_reader_spec. Qed.

(** ** Sets of expected hashes *)
Lemma find_algorithm_None ds d :
  find (fun e => bool_decide (d_algorithm e = d_algorithm d)) ds = None -> d_algorithm d ∉ d_algorithm <$> ds.
Proof.
  intros Hf (e & He & Hin)%list_elem_of_fmap. apply list_elem_of_In in Hin.
  pose proof (find_none _ _ Hf _ Hin) as Hn. apply bool_decide_eq_false in Hn. congruence.
Qed.

Lemma collect_loop_spec digests distinct : NoDup (d_algorithm <$> distinct) ->
  match collect_loop digests distinct with
  | Ok ds => NoDup (d_algorithm <$> ds) /\ forall d, d ∈ ds <-> d ∈ distinct \/ d ∈ digests
  | Err _ => exists d d', d ∈ distinct ++ digests /\ d' ∈ digests /\ d_algorithm d = d_algorithm d' /\ d <> d'
  end.
Proof.
  revert distinct. induction digests as [|digest digests IH]; intros distinct Hn; cbn [collect_loop].
  { split; [done|]. set_solver. }
  destruct (find _ distinct) as [previous|] eqn:Ef.
  - apply find_some in Ef as [Hin%list_elem_of_In Ha%bool_decide_eq_true]. case_decide as Hd.
    { exists previous, digest. set_solver. }
    subst previous. specialize (IH distinct Hn).
    destruct (collect_loop digests distinct); [|destruct IH as (d & d' & ?); exists d, d'; set_solver].
    destruct IH as [IH1 IH2]. split; [done|]. set_solver.
  - apply find_algorithm_None in Ef. specialize (IH (distinct ++ [digest])).
    destruct (collect_loop digests _); [destruct IH as [IH1 IH2]|destruct IH as (d & d' & IH)].
    + rewrite fmap_app, NoDup_app. cbn. split_and!; [done|set_solver|apply NoDup_singleton].
    + split; [done|]. set_solver.
    + rewrite fmap_app, NoDup_app. cbn. split_and!; [done|set_solver|apply NoDup_singleton].
    + exists d, d'. set_solver.
Qed.

Lemma algorithms_bound (l : list HashAlgorithm) : NoDup l -> (length l <= 4)%nat.
Proof.
  intros Hl. change 4%nat with (length [Blake3; Sha256; Md5; Xxh3]). apply submseteq_length, NoDup_submseteq; [done|].
  intros [] _; set_solver.
Qed.

Lemma check_set_ok before digests : NoDup (d_algorithm <$> before ++ digests) ->
  Forall (fun d => Digest_validate d = Ok tt) digests -> check_set before digests = Ok tt.
Proof.
  revert before. induction digests as [|d digests IH]; intros before Hn Hv; [done|]. cbn [check_set].
  apply Forall_cons in Hv as [Hd Hv]. rewrite Hd. cbn [mbind result_bind].
  replace (forallb _ before) with true; cbn [require mbind result_bind].
  - apply IH; [by rewrite <- app_assoc|done].
  - symmetry. apply forallb_forall. intros e He%list_elem_of_In. rewrite bool_decide_eq_false_2; [done|].
    rewrite fmap_app in Hn. apply NoDup_app in Hn as (_ & Hn & _). intros Ee.
    apply (Hn (d_algorithm e)); [by apply list_elem_of_fmap_2|]. rewrite Ee. cbn. left.
Qed.

Lemma multiple_spec digests reader bytes : (2 <= length digests)%nat -> NoDup (d_algorithm <$> digests) ->
  Forall (fun d => Digest_validate d = Ok tt) digests -> contents reader = Ok bytes ->
  expected_verify_reader (Multiple digests) reader = Ok tt <->
  Forall (fun d => hash_bytes (d_algorithm d) bytes = d) digests.
Proof.
  intros Hl Hn Hv Hc. cbn [expected_verify_reader].
  pose proof (algorithms_bound _ Hn) as Hb. rewrite length_fmap in Hb.
  rewrite (bool_decide_eq_true_2 (2 <= length digests <= 4)%nat) by lia. cbn [require mbind result_bind].
  rewrite check_set_ok by done. cbn [mbind result_bind].
  set (seen_by := fun (b : list Z) hs => Forall2 (fun d h => seen (d_algorithm d) b h) digests hs).
  assert (Hnew : seen_by [] ((fun d => hasher (d_algorithm d)) <$> digests)).
  { apply Forall2_fmap_r, Forall2_same_length_lookup_2; [done|]. intros i x y Hx Hy.
    rewrite Hx in Hy. injection Hy as <-. apply seen_new. }
  assert (Hstep : forall b s p, seen_by b s -> seen_by (b ++ p) ((fun h => update h p) <$> s)).
  { intros b s p Hs. apply Forall2_fmap_r. eapply Forall2_impl; [exact Hs|]. intros. by apply seen_update. }
  pose proof (read_loop_spec seen_by (fun hs piece => (fun h => update h piece) <$> hs) reader _ [] Hstep Hnew) as Hr.
  rewrite Hc in Hr. destruct (read_loop _ _ _) as [hs|e]; cbn [mbind result_bind]; [|done].
  by apply verify_all_spec.
Qed.

(** The expected hashes of a group check exactly the conjunction: collecting
    valid digests either finds two that contradict each other, or gives a set
    that a file passes precisely when its contents match every one of them. *)
Theorem expected_hashes_conjunction digests reader bytes :
  Forall (fun d => Digest_validate d = Ok tt) digests -> contents reader = Ok bytes ->
  match collect digests with
  | Ok None => digests = []
  | Ok (Some e) => expected_verify_reader e reader = Ok tt <->
                   Forall (fun d => hash_bytes (d_algorithm d) bytes = d) digests
  | Err _ => exists d d', d ∈ digests /\ d' ∈ digests /\ d_algorithm d = d_algorithm d' /\ d <> d'
  end.
Proof using H0.
  intros Hv Hc. unfold collect. pose proof (collect_loop_spec digests [] (NoDup_nil_2)) as Hs.
  destruct (collect_loop digests []) as [ds|e]; cbn [mbind result_bind]; [|by destruct Hs as (d & d' & Hs); exists d, d'].
  destruct Hs as [Hn Hm].
  assert (Hall : forall P : Digest -> Prop, Forall P digests <-> Forall P ds).
  { intros P. rewrite !Forall_forall. set_solver. }
  rewrite Hall in Hv.
  destruct ds as [|d [|d' ds]].
  - destruct digests as [|d digests]; [done|]. exfalso. specialize (Hm d). set_solver.
  - cbn [expected_verify_reader]. rewrite Hall, Forall_singleton, verify_reader_spec, Hc. cbn.
    case_decide; naive_solver.
  - rewrite Hall. apply multiple_spec; [cbn; lia|done..].
Qed.
End Theorems.

(** ** A concrete library: a hash that remembers the bytes it has seen and adds
    them up. *)
Definition sum_impl (width : nat) : HashImpl (list Z) :=
  mkImpl (list Z) (list Z) [] (fun s b => s ++ b)
    (fun s => replicate width (foldr Z.add 0 s mod 256)) (fun b => replicate width (foldr Z.add 0 b mod 256)).
Definition sum_lib : HashLib :=
  {| blake3 := sum_impl 32; sha2 := sum_impl 32; md5 := sum_impl 16;
     xxh3 := mkImpl Z (list Z) [] (fun s b => s ++ b) (fun s => foldr Z.add 0 s) (fun b => foldr Z.add 0 b) |}.

Lemma foldl_app_concat (pieces : list (list Z)) acc : foldl (fun s b => s ++ b) acc pieces = acc ++ concat pieces.
Proof.
  revert acc. induction pieces as [|p pieces IH]; intros acc; cbn; [by rewrite app_nil_r|].
  rewrite IH. by rewrite app_assoc.
Qed.

Lemma sum_width n l : has_width n (replicate n (foldr Z.add 0 l mod 256)).
Proof.
  split; [apply length_replicate|]. apply Forall_replicate. unfold is_byte.
  pose proof (Z.mod_pos_bound (foldr Z.add 0 l) 256). lia.
Qed.

Lemma appends_streams {O} (f : list Z -> O) :
  streams (mkImpl O (list Z) [] (fun s b => s ++ b) f f).
Proof. intros pieces. cbn [h_finalize h_update h_new h_hash]. f_equal. apply foldl_app_concat. Qed.

Lemma sum_laws : HashLaws (H := sum_lib).
Proof.
  constructor; first [apply appends_streams|intros l; apply sum_width].
Defined.

Lemma digest_text_roundtrip_witness :
  let d := mkDigest Md5 (bs "900150983cd24fb0d6963f7d28e17f72") in
  Digest_from_str (bs "md5:900150983CD24FB0D6963F7D28E17F72") = Ok d /\ Digest_from_str (Digest_display d) = Ok d.
Proof.
  intros d. split; [reflexivity|]. apply (digest_text_roundtrip (H := sum_lib) (H0 := sum_laws)).
  left. exists (bs "md5:900150983CD24FB0D6963F7D28E17F72"). reflexivity.
Defined.

Definition sum_digests : list Digest := [hash_bytes (H := sum_lib) Md5 [1; 2; 3]; hash_bytes (H := sum_lib) Blake3 [1; 2; 3]].

Lemma expected_hashes_conjunction_witness :
  collect sum_digests = Ok (Some (Multiple sum_digests)) /\
  (expected_verify_reader (H := sum_lib) (Multiple sum_digests) [Ok [1]; Ok [2; 3]; Ok []] = Ok tt <->
   Forall (fun d => hash_bytes (H := sum_lib) (d_algorithm d) [1; 2; 3] = d) sum_digests).
Proof.
  split; [vm_compute; reflexivity|].
  apply (expected_hashes_conjunction (H := sum_lib) (H0 := sum_laws) sum_digests [Ok [1]; Ok [2; 3]; Ok []] [1; 2; 3]);
    [|reflexivity]. repeat constructor.
Defined.

Lemma verify_reader_whole_witness :
  verify_reader (H := sum_lib) (hash_bytes (H := sum_lib) Xxh3 [1; 2; 3]) [Ok [1]; Ok [2; 3]; Ok []] = Ok tt.
Proof. rewrite (verify_reader_whole (H := sum_lib) (H0 := sum_laws)). vm_compute. reflexivity. Defined.
