(* ===== verification/Mapping.v ===== *)
(** * Mapping manifests (src/src/mapping.rs and src/src/mapping/metadata.rs)

    The [--mapping] manifest: one JSON entry per line, naming a source, a
    destination and optional attributes.  The sending side reads the whole
    manifest and checks it before anything is written; a restricted receiver
    is granted only the manifest's length and digest, receives it in chunks and
    builds the set of destinations the copy may touch.
    - JSON and base64 decoding and blake3 are library code: parameters.
    - Messages are kept without their interpolated values. *)

From stdpp Require Import strings.
From S2P Require Import Prelude Text Proto Hashing.
Local Open Scope Z_scope.

Abbreviation mres := (result string).
Definition mbail {A} (m : string) : mres A := Err m.

(** ** Declared kinds and explicit attributes *)
Inductive DeclaredKind := DFile | DDir | DSymlink | DSpecial.

#[export] Instance DeclaredKind_eq_dec : EqDecision DeclaredKind.
Proof. solve_decision. Defined.

Definition declared_matches (d : DeclaredKind) (k : Kind) : bool :=
  match d with
  | DFile => bool_decide (k = File)
  | DDir => bool_decide (k = Dir)
  | DSymlink => bool_decide (k = Symlink)
  | DSpecial => match k with Fifo | Socket | CharDev | BlockDev => true | _ => false end
  end.

Definition declared_label (d : DeclaredKind) : list Z :=
  match d with
  | DFile => bs "file" | DDir => bs "dir" | DSymlink => bs "symlink" | DSpecial => bs "special"
  end.

Record Metadata := mkMetadata {
  md_mode : option Z;
  md_uid : option Z;
  md_gid : option Z;
  md_mtime : option Z;
  md_mtime_nsec : option Z
}.

#[export] Instance Metadata_eq_dec : EqDecision Metadata.
Proof. solve_decision. Defined.

Definition is_none_or {A} (o : option A) (f : A -> bool) : bool :=
  match o with None => true | Some a => f a end.

Definition metadata_validate (m : Metadata) : mres unit :=
  _ ← require (is_none_or (md_mode m) (fun mode => bool_decide (mode <= 4095)))
        "metadata.mode must contain permission bits only (0..4095)"%string;
  _ ← require (bool_decide (md_uid m <> Some u32_max)) "metadata.uid cannot be the reserved ID 4294967295"%string;
  _ ← require (bool_decide (md_gid m <> Some u32_max)) "metadata.gid cannot be the reserved ID 4294967295"%string;
  _ ← require (is_none_or (md_mtime_nsec m) (fun ns => bool_decide (ns < 1000000000)))
        "metadata.mtime_nsec must be in 0..999999999"%string;
  require (bool_decide (md_mtime_nsec m = None) || bool_decide (is_Some (md_mtime m)))
    "metadata.mtime_nsec requires metadata.mtime"%string.

Definition metadata_validate_kind (m : Metadata) (k : Kind) : mres unit :=
  require (bool_decide (k <> Symlink) || bool_decide (md_mode m = None))
    "metadata.mode cannot be applied to a symlink"%string.

(** [proto::flags]. *)
Definition MODE : Z := 1.
Definition OWNER : Z := 2.
Definition GROUP : Z := 4.
Definition TIMES : Z := 8.
Definition REQUIRE_OWNER : Z := 32.
Definition REQUIRE_GROUP : Z := 64.

Definition flag_if {A} (o : option A) (flag : Z) : Z := match o with Some _ => flag | None => 0 end.

Definition metadata_flags (m : Metadata) : Z :=
  Z.lor (Z.lor (Z.lor (Z.lor 0 (flag_if (md_mode m) MODE)) (flag_if (md_uid m) OWNER))
               (flag_if (md_gid m) GROUP)) (flag_if (md_mtime m) TIMES).

Definition metadata_apply_flags (m : Metadata) : Z :=
  Z.lor (Z.lor (metadata_flags m) (flag_if (md_uid m) REQUIRE_OWNER)) (flag_if (md_gid m) REQUIRE_GROUP).

(** [InodeMetadata]; the values themselves are opaque. *)
Record InodeMetadata := mkInode {
  im_acls : option Z; im_macos_acl : option Z; im_xattrs : option Z; im_atime : option Z; im_crtime : option Z
}.

(** [proto::Meta]; [inode_metadata] is carried along. *)
Record Meta := mkMeta {
  me_mode : Z; me_uid : Z; me_gid : Z; me_mtime : Z; me_mtime_nsec : Z; me_inode_metadata : option InodeMetadata
}.

Definition metadata_apply (m : Metadata) (meta : Meta) : Meta :=
  let meta := match md_mode m with
    | Some mode => mkMeta mode (me_uid meta) (me_gid meta) (me_mtime meta) (me_mtime_nsec meta) (me_inode_metadata meta)
    | None => meta end in
  let meta := match md_uid m with
    | Some uid => mkMeta (me_mode meta) uid (me_gid meta) (me_mtime meta) (me_mtime_nsec meta) (me_inode_metadata meta)
    | None => meta end in
  let meta := match md_gid m with
    | Some gid => mkMeta (me_mode meta) (me_uid meta) gid (me_mtime meta) (me_mtime_nsec meta) (me_inode_metadata meta)
    | None => meta end in
  match md_mtime m with
  | Some mtime => mkMeta (me_mode meta) (me_uid meta) (me_gid meta) mtime (default 0 (md_mtime_nsec m)) (me_inode_metadata meta)
  | None => meta
  end.

(** ** Entries *)
Record ManifestEntry := mkManifest {
  m_src : PathBytes;
  m_dst : PathBytes;
  m_kind : option DeclaredKind;
  m_expected_hash : option Digest;
  m_metadata : option Metadata
}.

Record WirePath := mkWirePath { wp_encoding : list Z; wp_value : list Z; wp_display : option (list Z) }.

Record WireEntry := mkWireEntry {
  we_src : WirePath;
  we_dst : WirePath;
  we_kind : option (list Z);
  we_expected_hash : option Digest;
  we_metadata : option Metadata;
  we_size : option Z;
  we_mtime : option Z;
  we_s3_last_modified : option Z
}.

Definition validate_manifest_path (path : PathBytes) : mres unit :=
  match path with
  | [] => mbail "path is empty"
  | b :: _ =>
      if decide (b = slash) then mbail "path is absolute; mapping entries are root-relative"
      else if decide (0 ∈ path) then mbail "path contains NUL"
      else if existsb unsafe_component (split_on slash path)
      then mbail "path contains an empty, `.`, or `..` component"
      else Ok tt
  end.

Definition wire_kind (kind : option (list Z)) : mres (option DeclaredKind) :=
  match kind with
  | None => Ok None
  | Some k =>
      if decide (k = bs "file") then Ok (Some DFile)
      else if decide (k = bs "dir") then Ok (Some DDir)
      else if decide (k = bs "symlink") then Ok (Some DSymlink)
      else if decide (k = bs "special") then Ok (Some DSpecial)
      else mbail "unknown kind"
  end.

(** [!matches!(kind, K)] for a kind that is declared. *)
Definition declared_other (kind : option DeclaredKind) (d : DeclaredKind) : bool :=
  match kind with Some k => negb (bool_decide (k = d)) | None => false end.

Definition wire_validate (e : WireEntry) : mres (option DeclaredKind) :=
  kind ← wire_kind (we_kind e);
  _ ← match we_metadata e with
      | Some metadata =>
          _ ← metadata_validate metadata;
          if decide (kind = Some DSymlink) then metadata_validate_kind metadata Symlink else Ok tt
      | None => Ok tt
      end;
  _ ← match we_expected_hash e with
      | Some digest =>
          _ ← Digest_validate digest;
          require (negb (declared_other kind DFile)) "expected_hash requires a regular file"%string
      | None => Ok tt
      end;
  Ok kind.

(** ** Lines *)
Definition newline : Z := 10.

(** [slice.split_inclusive(|b| b == '\n')], and the lines successive
    [read_line] calls return. *)
Fixpoint split_inclusive (l : list Z) : list (list Z) :=
  match l with
  | [] => []
  | b :: l' =>
      if decide (b = newline) then [b] :: split_inclusive l' else
        match split_inclusive l' with
        | [] => [[b]]
        | c :: cs => (b :: c) :: cs
        end
  end.

(** [str::trim_end_matches]. *)
Fixpoint trim_end (c : Z) (l : list Z) : list Z :=
  match l with
  | [] => []
  | b :: l' => match trim_end c l' with
               | [] => if decide (b = c) then [] else [b]
               | t => b :: t
               end
  end.

Definition trim_line (line : list Z) : list Z := trim_end 13 (trim_end newline line).

Definition CHUNK_BYTES : Z := 1024 * 1024.
Definition MAX_PATH_BYTES : Z := 4096.

(** The destination prefixes that end at a slash, shortest first. *)
Fixpoint slash_prefixes (before path : list Z) : list (list Z) :=
  match path with
  | [] => []
  | b :: path' => (if decide (b = slash) then [before] else []) ++ slash_prefixes (before ++ [b]) path'
  end.
Definition ancestors (path : list Z) : list (list Z) := slash_prefixes [] path.

(** ** The sending side *)
Record Input := mkInput { in_contents : list Z; in_restricted_bounds_error : option string }.
Record ParsedManifest := mkParsed { pm_input : Input; pm_entries : list (Z * ManifestEntry) }.

Definition validate_restricted_bounds (i : Input) : mres unit :=
  match in_restricted_bounds_error i with Some error => Err error | None => Ok tt end.

(** The first loop of [validate_destinations]: [HashMap::insert] of each
    destination, refusing one that was there. *)
Fixpoint declare (entries : list (Z * (PathBytes * option DeclaredKind)))
    (declared : gmap PathBytes (Z * option DeclaredKind)) : mres (gmap PathBytes (Z * option DeclaredKind)) :=
  match entries with
  | [] => Ok declared
  | (line, (path, kind)) :: entries =>
      match declared !! path with
      | Some _ => mbail "duplicate destination"
      | None => declare entries (<[path := (line, kind)]> declared)
      end
  end.

Definition blocked_ancestor (declared : gmap PathBytes (Z * option DeclaredKind)) (path : PathBytes) : bool :=
  existsb (fun a => match declared !! a with Some (_, kind) => declared_other kind DDir | None => false end)
    (ancestors path).

(** The iteration order of the map decides only which message is reported. *)
Definition validate_destinations (entries : list (Z * (PathBytes * option DeclaredKind))) : mres unit :=
  declared ← declare entries ∅;
  if existsb (fun p => blocked_ancestor declared p.1) (map_to_list declared)
  then mbail "destination ancestor is mapped with a kind that is not dir" else Ok tt.

Definition parsed_manifest (contents : list Z) (entries : list (Z * ManifestEntry)) (error : option string)
  : mres ParsedManifest :=
  _ ← validate_destinations ((fun le => (le.1, (m_dst le.2, m_kind le.2))) <$> entries);
  Ok (mkParsed (mkInput contents error) entries).

Record Authorization := mkAuthorization { au_bytes : Z; au_digest : list Z }.

(** ** The receiving side *)
Record Permissions := mkPermissions {
  pe_expected_hashes : gmap PathBytes Digest;
  pe_metadata : gmap PathBytes Metadata;
  pe_entries : gmap PathBytes (option DeclaredKind);
  pe_parents : gset PathBytes
}.

Definition Permissions_new : Permissions := mkPermissions ∅ ∅ ∅ {[ [] ]}.

Definition with_parents (f : gset PathBytes -> gset PathBytes) (p : Permissions) : Permissions :=
  mkPermissions (pe_expected_hashes p) (pe_metadata p) (pe_entries p) (f (pe_parents p)).

Definition check_limit (max_entries : Z) : method Permissions string unit :=
  p ← m_get;
  m_ensure (negb (bool_decide (max_entries < Z.of_nat (size (pe_entries p) + size (pe_parents p)))))
    "mapping exceeds the signed destination entry limit"%string.

Definition entry_blocks (p : Permissions) (path : PathBytes) : bool :=
  match pe_entries p !! path with Some kind => declared_other kind DDir | None => false end.

Definition add_parent (max_entries : Z) (parent : PathBytes) : method Permissions string unit :=
  p ← m_get;
  _ ← m_ensure (negb (entry_blocks p parent)) "mapping destination ancestor is not a directory"%string;
  match pe_entries p !! parent with
  | Some _ => mret tt
  | None => _ ← m_modify (with_parents (fun s => s ∪ {[ parent ]})); check_limit max_entries
  end.

Definition set_entry (entry : ManifestEntry) (p : Permissions) : Permissions :=
  mkPermissions
    (match m_expected_hash entry with Some h => <[m_dst entry := h]> (pe_expected_hashes p) | None => pe_expected_hashes p end)
    (match m_metadata entry with Some m => <[m_dst entry := m]> (pe_metadata p) | None => pe_metadata p end)
    (<[m_dst entry := m_kind entry]> (pe_entries p)) (pe_parents p).

Definition insert_entry (entry : ManifestEntry) (max_entries : Z) : method Permissions string unit :=
  let dst := m_dst entry in
  _ ← m_ensure (negb (bool_decide (MAX_PATH_BYTES < Z.of_nat (length dst))))
        "restricted mapping destination exceeds its limit"%string;
  p ← m_get;
  _ ← m_ensure (bool_decide (pe_entries p !! dst = None)) "duplicate mapping destination"%string;
  _ ← m_ensure (negb (declared_other (m_kind entry) DDir && bool_decide (dst ∈ pe_parents p)))
        "mapping destination ancestor is not a directory"%string;
  _ ← for_each (add_parent max_entries) (ancestors dst);
  _ ← m_modify (with_parents (fun s => s ∖ {[ dst ]}));
  _ ← m_modify (set_entry entry);
  check_limit max_entries.

Definition allows (p : Permissions) (path : PathBytes) (directory : option bool) : bool :=
  bool_decide (is_Some (pe_entries p !! path)) ||
  (negb (bool_decide (directory = Some false)) && bool_decide (path ∈ pe_parents p)).
Definition implicit_directory (p : Permissions) (path : PathBytes) : bool := bool_decide (path ∈ pe_parents p).
Definition permissions_metadata (p : Permissions) (path : PathBytes) : option Metadata := pe_metadata p !! path.

Section Manifest.
(** [serde_json::from_str] of an entry and base64's standard engine. *)
Context (from_json : list Z -> option WireEntry) (base64 : list Z -> option (list Z)).

Definition wire_decode (w : WirePath) : mres PathBytes :=
  bytes ← (if decide (wp_encoding w = bs "utf-8") then Ok (wp_value w)
           else if decide (wp_encoding w = bs "base64") then
             match base64 (wp_value w) with Some b => Ok b | None => mbail "invalid base64 path" end
           else mbail "unknown path encoding");
  _ ← validate_manifest_path bytes;
  Ok bytes.

Definition parse_manifest_entry (text : list Z) : mres ManifestEntry :=
  match from_json text with
  | None => mbail "invalid JSON"
  | Some entry =>
      kind ← wire_validate entry;
      src ← wire_decode (we_src entry);
      dst ← wire_decode (we_dst entry);
      Ok (mkManifest src dst kind (we_expected_hash entry) (we_metadata entry))
  end.

(** The loop of [read_mapping_manifest] over the lines. *)
Fixpoint read_lines (lines : list (list Z)) (line_number : Z) (error : option string)
    (entries : list (Z * ManifestEntry)) : mres (list (Z * ManifestEntry) * option string) :=
  match lines with
  | [] => Ok (entries, error)
  | line :: lines =>
      if negb (utf8_valid line) then mbail "--mapping: read" else
        let line_number := line_number + 1 in
        let error := if bool_decide (CHUNK_BYTES < Z.of_nat (length line)) && bool_decide (error = None)
                     then Some "restricted mapping line exceeds 1 MiB"%string else error in
        let text := trim_line line in
        if decide (text = []) then read_lines lines line_number error entries else
          entry ← parse_manifest_entry text;
          let error := if bool_decide (MAX_PATH_BYTES < Z.of_nat (length (m_dst entry))) && bool_decide (error = None)
                       then Some "restricted mapping destination exceeds its limit"%string else error in
          read_lines lines line_number error (entries ++ [(line_number, entry)])
  end.

Definition read_mapping_manifest (contents : list Z) : mres ParsedManifest :=
  '(entries, error) ← read_lines (split_inclusive contents) 0 None [];
  parsed_manifest contents entries error.

Section Admission.
Context `{HashLib}.

Definition from_contents (contents : list Z) : Authorization :=
  mkAuthorization (Z.of_nat (length contents)) (h_hash blake3 contents).

Definition authorization (i : Input) : mres Authorization :=
  _ ← validate_restricted_bounds i; Ok (from_contents (in_contents i)).

Record Admission := mkAdmission {
  ad_authorization : Authorization;
  ad_received : Z;
  ad_hasher : hstate blake3;
  ad_line : list Z;
  ad_max_entries : Z;
  ad_pending : option Permissions;
  ad_permissions : option Permissions
}.

Definition Admission_new (a : Authorization) (max_entries : Z) : Admission :=
  mkAdmission a 0 (h_new blake3) [] max_entries (Some Permissions_new) None.

Abbreviation adm := (method Admission string).

Definition set_line (l : list Z) (a : Admission) : Admission :=
  mkAdmission (ad_authorization a) (ad_received a) (ad_hasher a) l (ad_max_entries a) (ad_pending a) (ad_permissions a).
Definition set_pending (p : option Permissions) (a : Admission) : Admission :=
  mkAdmission (ad_authorization a) (ad_received a) (ad_hasher a) (ad_line a) (ad_max_entries a) p (ad_permissions a).
Definition set_permissions (p : option Permissions) (a : Admission) : Admission :=
  mkAdmission (ad_authorization a) (ad_received a) (ad_hasher a) (ad_line a) (ad_max_entries a) (ad_pending a) p.
Definition set_progress (received : Z) (h : hstate blake3) (a : Admission) : Admission :=
  mkAdmission (ad_authorization a) received h (ad_line a) (ad_max_entries a) (ad_pending a) (ad_permissions a).

(** [self.pending.as_mut().context(..)?.insert(entry, self.max_entries)?]. *)
Definition insert_pending (entry : ManifestEntry) : adm unit := fun a =>
  match ad_pending a with
  | None => (a, mbail "mapping admission is closed")
  | Some p => let '(p, r) := insert_entry entry (ad_max_entries a) p in (set_pending (Some p) a, r)
  end.

Definition finish_line : adm unit :=
  a ← m_get;
  _ ← m_ensure (utf8_valid (ad_line a)) "invalid utf-8 sequence"%string;
  let text := trim_line (ad_line a) in
  _ ← (if decide (text = []) then mret tt
       else entry ← m_lift (parse_manifest_entry text); insert_pending entry);
  m_modify (set_line []).

Definition ends_with_newline (part : list Z) : bool := bool_decide (last part = Some newline).

Definition append_part (part : list Z) : adm unit :=
  a ← m_get;
  _ ← m_ensure (negb (bool_decide (CHUNK_BYTES < Z.of_nat (length (ad_line a) + length part))))
        "restricted mapping line exceeds 1 MiB"%string;
  _ ← m_modify (fun a => set_line (ad_line a ++ part) a);
  if ends_with_newline part then finish_line else mret tt.

(** The closure of [append]. *)
Definition append_body (offset : Z) (data : list Z) (finish : bool) : adm unit :=
  a ← m_get;
  _ ← m_ensure (bool_decide (offset = ad_received a)) "mapping chunk is out of order"%string;
  _ ← m_ensure (negb (bool_decide (CHUNK_BYTES < Z.of_nat (length data)))) "mapping chunk exceeds size limit"%string;
  let end_ := offset + Z.of_nat (length data) in
  _ ← m_ensure (bool_decide (end_ <= u64_max)) "mapping length overflow"%string;
  _ ← m_ensure (negb (bool_decide (au_bytes (ad_authorization a) < end_))) "mapping exceeds its signed length"%string;
  _ ← for_each append_part (split_inclusive data);
  _ ← m_modify (fun a => set_progress end_ (h_update blake3 (ad_hasher a) data) a);
  if finish then
    a ← m_get;
    _ ← m_ensure (bool_decide (ad_received a = au_bytes (ad_authorization a)) &&
                  bool_decide (h_finalize blake3 (ad_hasher a) = au_digest (ad_authorization a)))
          "mapping does not match the signed manifest"%string;
    _ ← finish_line;
    _ ← m_modify (fun a => set_pending None (set_permissions (ad_pending a) a));
    m_modify (set_line [])
  else mret tt.

Definition append (offset : Z) (data : list Z) (finish : bool) : adm unit := fun a =>
  match ad_pending a with
  | None => (a, mbail "mapping admission is already closed")
  | Some _ =>
      match append_body offset data finish a with
      | (a, Ok _) => (a, Ok tt)
      | (a, Err e) => (set_line [] (set_pending None a), Err e)
      end
  end.

Definition permissions (a : Admission) : mres Permissions :=
  match ad_permissions a with
  | Some p => Ok p
  | None => mbail "the signed mapping must be verified before filesystem access"
  end.

Definition expected_hash (a : Admission) (path : PathBytes) : mres (option Digest) :=
  p ← permissions a; Ok (pe_expected_hashes p !! path).
End Admission.
End Manifest.

(** ** [send]: the manifest in chunks over a connection *)
Section Send.
Context {C : Type} (call : Z -> list Z -> bool -> method C string unit).

Fixpoint send_loop (fuel : nat) (contents : list Z) (offset : Z) : method C string unit :=
  match fuel with
  | O => m_fail "fuel"%string
  | S fuel =>
      let end_ := Z.min (offset + CHUNK_BYTES) (Z.of_nat (length contents)) in
      let finish := bool_decide (end_ = Z.of_nat (length contents)) in
      _ ← call offset (take (Z.to_nat (end_ - offset)) (drop (Z.to_nat offset) contents)) finish;
      if finish then mret tt else send_loop fuel contents end_
  end.

Definition send (contents : list Z) : method C string unit := send_loop (S (length contents)) contents 0.
End Send.
