(* ===== verification/MappingGrant.v ===== *)
(** * What a mapping grants

    The receiver's [Permissions] against an abstract specification: the set of
    destinations listed, and their strict ancestors as implicit directories.
    Inserting entries one by one, with the limit checked on the way, accepts
    exactly the lists that are free of duplicates, name no non-directory above
    another entry and stay within the limit - the lists the sending side's
    preflight accepts. *)

From stdpp Require Import strings.
From S2P Require Import Prelude Text Proto Hashing Mapping.
Local Open Scope Z_scope.

(** ** Methods *)
Lemma method_bind_Ok {S E A B} (m : method S E A) (k : A -> method S E B) s s' b :
  (m ≫= k) s = (s', Ok b) <-> exists s1 a, m s = (s1, Ok a) /\ k a s1 = (s', Ok b).
Proof.
  unfold mbind, method_bind. destruct (m s) as [s1 [a|e]]; split.
  - eauto.
  - by intros (? & ? & [= <- <-] & ?).
  - done.
  - by intros (? & ? & ? & ?).
Qed.

Lemma m_ensure_Ok {S E} b (e : E) (s s' : S) u : m_ensure b e s = (s', Ok u) <-> b = true /\ s' = s.
Proof. destruct b, u; cbn; split; [intros [= ->]; done|by intros [_ ->]|done|by intros [? _]]. Qed.

Lemma for_each_app {S E A} (f : A -> method S E unit) l l' s s' :
  for_each f (l ++ l') s = (s', Ok tt) <->
  exists s1, for_each f l s = (s1, Ok tt) /\ for_each f l' s1 = (s', Ok tt).
Proof.
  revert s. induction l as [|x l IH]; intros s; cbn [app for_each].
  - split; [intros H; exists s; done|]. by intros (s1 & [= ->] & H).
  - rewrite method_bind_Ok. split.
    + intros (s1 & [] & H1 & (s2 & H2 & H3)%IH). exists s2. split; [|done]. apply method_bind_Ok. eauto.
    + intros (s2 & (s1 & [] & H1 & H2)%method_bind_Ok & H3). exists s1, tt. split; [done|]. apply IH. eauto.
Qed.

Lemma for_each_cons {S E A} (f : A -> method S E unit) x l s s' :
  for_each f (x :: l) s = (s', Ok tt) <->
  exists s1, f x s = (s1, Ok tt) /\ for_each f l s1 = (s', Ok tt).
Proof.
  change (for_each f (x :: l)) with (_ ← f x; for_each f l). rewrite method_bind_Ok. split.
  - intros (s1 & [] & H1 & H2). eauto.
  - intros (s1 & H1 & H2). eauto.
Qed.

(** ** Ancestors *)
Lemma elem_of_slash_prefixes a before path :
  a ∈ slash_prefixes before path <-> exists pre rest, path = pre ++ slash :: rest /\ a = before ++ pre.
Proof.
  revert before. induction path as [|b path IH]; intros before; cbn [slash_prefixes].
  { split; [set_solver|]. intros (pre & rest & E & _). by destruct pre. }
  rewrite elem_of_app, IH. split.
  - intros [H|(pre & rest & -> & ->)].
    + case_decide; [|set_solver]. subst b. apply list_elem_of_singleton in H as ->.
      exists [], path. by rewrite app_nil_r.
    + exists (b :: pre), rest. split; [done|]. by rewrite <- app_assoc.
  - intros (pre & rest & E & ->). destruct pre as [|c pre]; cbn in E; injection E as -> ->.
    + left. rewrite decide_True by done. rewrite app_nil_r. set_solver.
    + right. exists pre, rest. split; [done|]. by rewrite <- app_assoc.
Qed.

Lemma elem_of_ancestors a path : a ∈ ancestors path <-> exists rest, path = a ++ slash :: rest.
Proof.
  unfold ancestors. rewrite elem_of_slash_prefixes. cbn. naive_solver.
Qed.

Lemma ancestors_trans a b c : a ∈ ancestors b -> b ∈ ancestors c -> a ∈ ancestors c.
Proof.
  rewrite !elem_of_ancestors. intros [r ->] [r' ->]. exists (r ++ slash :: r'). by rewrite <- app_assoc.
Qed.

Lemma ancestors_irrefl a : a ∉ ancestors a.
Proof. rewrite elem_of_ancestors. intros [r E]. apply (f_equal length) in E. rewrite length_app in E. cbn in E. lia. Qed.

(** ** Specification *)
Abbreviation dsts es := (m_dst <$> es).

(** No entry declared as something else than a directory lies above another. *)
Definition compatible (es : list ManifestEntry) : Prop :=
  forall e e', e ∈ es -> e' ∈ es -> m_dst e ∈ ancestors (m_dst e') -> declared_other (m_kind e) DDir = false.

(** Everything the entries may touch: themselves, their ancestors, the root. *)
Definition implied (es : list ManifestEntry) : gset PathBytes :=
  {[ [] ]} ∪ list_to_set (es ≫= fun e => ancestors (m_dst e)).
Definition reach (es : list ManifestEntry) : gset PathBytes := list_to_set (dsts es) ∪ implied es.

Record granted (es : list ManifestEntry) (p : Permissions) : Prop := {
  gr_nodup : NoDup (dsts es);
  gr_compatible : compatible es;
  gr_entries path kind : pe_entries p !! path = Some kind <-> exists e, e ∈ es /\ m_dst e = path /\ m_kind e = kind;
  gr_hashes path h : pe_expected_hashes p !! path = Some h <->
    exists e, e ∈ es /\ m_dst e = path /\ m_expected_hash e = Some h;
  gr_metadata path m : pe_metadata p !! path = Some m <->
    exists e, e ∈ es /\ m_dst e = path /\ m_metadata e = Some m;
  gr_parents : pe_parents p = implied es ∖ list_to_set (dsts es)
}.

Lemma granted_new : granted [] Permissions_new.
Proof.
  split; cbn; [constructor|intros e e' H; set_solver|..]; intros;
    rewrite ?lookup_empty; try (split; [done|set_solver]). set_solver.
Qed.

Lemma gr_entries_None es p path : granted es p -> pe_entries p !! path = None <-> path ∉ dsts es.
Proof.
  intros G. rewrite eq_None_not_Some. split; intros H.
  - intros (e & -> & He)%list_elem_of_fmap. apply H. exists (m_kind e). apply (gr_entries _ _ G). eauto.
  - intros [k (e & He & <- & _)%(gr_entries _ _ G)]. apply H. by apply list_elem_of_fmap_2.
Qed.

Lemma gr_dom es p : granted es p -> dom (pe_entries p) = list_to_set (dsts es).
Proof.
  intros G. apply set_eq. intros path. rewrite elem_of_dom, elem_of_list_to_set, <- not_eq_None_Some.
  rewrite (gr_entries_None _ _ _ G). destruct (decide (path ∈ dsts es)); tauto.
Qed.

Lemma granted_count es p : granted es p -> (size (pe_entries p) + size (pe_parents p))%nat = size (reach es).
Proof.
  intros G. rewrite <- size_dom, (gr_dom _ _ G), (gr_parents _ _ G).
  rewrite <- size_union by set_solver. f_equal. apply set_eq. intros x. unfold reach.
  rewrite !elem_of_union, elem_of_difference. destruct (decide (x ∈@{gset PathBytes} list_to_set (dsts es))); tauto.
Qed.

Lemma reach_snoc_subset es e : reach es ⊆ reach (es ++ [e]).
Proof. unfold reach, implied. rewrite fmap_app, bind_app. set_solver. Qed.

Lemma entry_blocks_spec es p path : granted es p ->
  entry_blocks p path = true <-> exists e, e ∈ es /\ m_dst e = path /\ declared_other (m_kind e) DDir = true.
Proof.
  intros G. unfold entry_blocks. destruct (pe_entries p !! path) as [k|] eqn:E.
  - apply (gr_entries _ _ G) in E as (e & He & <- & <-). split; [eauto|]. intros (e' & He' & Ed & Hk).
    assert (pe_entries p !! m_dst e = Some (m_kind e)) as E1 by (apply (gr_entries _ _ G); eauto).
    assert (pe_entries p !! m_dst e = Some (m_kind e')) as E2 by (apply (gr_entries _ _ G); eauto).
    congruence.
  - split; [done|]. intros (e & He & <- & _). apply (gr_entries_None _ _ _ G) in E. destruct E.
    by apply list_elem_of_fmap_2.
Qed.

(** ** The loop over the ancestors of a new entry *)
Definition fresh_parents (p : Permissions) (l : list PathBytes) : gset PathBytes :=
  list_to_set (filter (fun a => pe_entries p !! a = None) l).

Definition count (p : Permissions) : Z := Z.of_nat (size (pe_entries p) + size (pe_parents p)).

Lemma check_limit_Ok max p p' : check_limit max p = (p', Ok tt) <-> count p <= max /\ p' = p.
Proof.
  unfold check_limit. rewrite method_bind_Ok. cbn [m_get]. split.
  - intros (s1 & a & [= <- <-] & [H%negb_true_iff ->]%m_ensure_Ok). apply bool_decide_eq_false in H.
    split; [unfold count; lia|done].
  - intros [H ->]. exists p, p. split; [done|]. apply m_ensure_Ok. split; [|done].
    apply negb_true_iff, bool_decide_eq_false. unfold count in H. lia.
Qed.

Lemma with_parents_ext f g p : f (pe_parents p) = g (pe_parents p) -> with_parents f p = with_parents g p.
Proof. unfold with_parents. by intros ->. Qed.

Lemma with_parents_id f p : f (pe_parents p) = pe_parents p -> with_parents f p = p.
Proof. unfold with_parents. intros ->. by destruct p. Qed.

Lemma add_parent_Ok max parent p p' : add_parent max parent p = (p', Ok tt) <->
  entry_blocks p parent = false /\ p' = with_parents (fun s => s ∪ fresh_parents p [parent]) p /\
  (pe_entries p !! parent = None -> count p' <= max).
Proof.
  unfold add_parent. rewrite method_bind_Ok. cbn [m_get]. unfold fresh_parents.
  split.
  - intros (? & ? & [= <- <-] & H). apply method_bind_Ok in H as (? & [] & [Hb%negb_true_iff ->]%m_ensure_Ok & H).
    split; [done|]. destruct (pe_entries p !! parent) as [k|] eqn:E.
    + injection H as <-. rewrite filter_cons_False by congruence. cbn [filter list_filter].
      split; [|done]. symmetry. apply with_parents_id. set_solver.
    + apply method_bind_Ok in H as (? & [] & [= <-] & [Hc ->]%check_limit_Ok).
      rewrite filter_cons_True by done. split; [apply with_parents_ext; set_solver|by intros _].
  - intros (Hb & -> & Hc). exists p, p. split; [done|]. apply method_bind_Ok. exists p, tt.
    split; [by apply m_ensure_Ok; rewrite Hb|]. destruct (pe_entries p !! parent) as [k|] eqn:E.
    + rewrite filter_cons_False by congruence. rewrite with_parents_id by set_solver. done.
    + rewrite filter_cons_True in Hc |- * by done. apply method_bind_Ok. eexists _, tt. split; [reflexivity|].
      assert (Es : with_parents (fun s => s ∪ {[parent]}) p =
        with_parents (fun s => s ∪ list_to_set (parent :: filter (fun a => pe_entries p !! a = None) [])) p).
      { apply with_parents_ext. set_solver. }
      rewrite Es. apply check_limit_Ok. auto.
Qed.

Lemma fresh_parents_cons p a l : fresh_parents p (a :: l) = fresh_parents p [a] ∪ fresh_parents p l.
Proof. unfold fresh_parents. change (a :: l) with ([a] ++ l). rewrite filter_app. set_solver. Qed.

Lemma count_parents p X Y : X ⊆ Y ->
  count (with_parents (fun s => s ∪ X) p) <= count (with_parents (fun s => s ∪ Y) p).
Proof.
  intros H. unfold count. cbn. assert (size (pe_parents p ∪ X) <= size (pe_parents p ∪ Y))%nat; [|lia].
  apply subseteq_size. set_solver.
Qed.

(** The whole loop: no ancestor may be a listed non-directory; the limit is
    checked at each new ancestor, and the last check is the strongest. *)
Lemma add_parents_Ok max l p p' : for_each (add_parent max) l p = (p', Ok tt) <->
  (forall a, a ∈ l -> entry_blocks p a = false) /\
  p' = with_parents (fun s => s ∪ fresh_parents p l) p /\
  (fresh_parents p l <> ∅ -> count p' <= max).
Proof.
  revert p. induction l as [|a l IH]; intros p.
  { cbn [for_each]. split.
    - intros [= <-]. split_and!; [set_solver| |done]. symmetry. apply with_parents_id. unfold fresh_parents. set_solver.
    - intros (_ & -> & _). rewrite with_parents_id; [done|]. unfold fresh_parents. set_solver. }
  rewrite for_each_cons. setoid_rewrite add_parent_Ok. rewrite (fresh_parents_cons p a l).
  assert (Hfresh : forall X, fresh_parents (with_parents X p) l = fresh_parents p l) by done.
  assert (Hblock : forall X x, entry_blocks (with_parents X p) x = entry_blocks p x) by done.
  split.
  - intros (p1 & (Hb & -> & Hc) & (Hbl & -> & Hcl)%IH). rewrite Hfresh in *. split_and!.
    + intros x [->|Hx]%elem_of_cons; [done|]. specialize (Hbl x Hx). by rewrite Hblock in Hbl.
    + unfold with_parents. cbn. f_equal. set_solver.
    + intros Hne. destruct (decide (fresh_parents p l = ∅)) as [El|El]; [|by apply Hcl].
      rewrite El in Hne |- *. rewrite with_parents_id by set_solver. apply Hc.
      unfold fresh_parents in Hne. destruct (decide (pe_entries p !! a = None)) as [|Ea]; [done|].
      rewrite filter_cons_False in Hne by done. set_solver.
  - intros (Hb & -> & Hc). eexists. split_and!; [apply Hb; set_solver|reflexivity|..].
    + intros Ha. etransitivity; [|apply Hc].
      * apply count_parents. set_solver.
      * unfold fresh_parents. rewrite filter_cons_True by done. set_solver.
    + apply IH. rewrite Hfresh. split_and!.
      * intros x Hx. rewrite Hblock. apply Hb. set_solver.
      * unfold with_parents. cbn. f_equal. set_solver.
      * intros Hne. apply Hc. set_solver.
Qed.

(** ** Inserting an entry *)
Definition admissible (es : list ManifestEntry) (e : ManifestEntry) (max : Z) : Prop :=
  Z.of_nat (length (m_dst e)) <= MAX_PATH_BYTES /\ m_dst e ∉ dsts es /\ compatible (es ++ [e]) /\
  Z.of_nat (size (reach (es ++ [e]))) <= max.

(** The permissions after the entry is recorded. *)
Definition inserted (e : ManifestEntry) (p : Permissions) : Permissions :=
  set_entry e (with_parents (fun s => (s ∪ fresh_parents p (ancestors (m_dst e))) ∖ {[ m_dst e ]}) p).

Lemma compatible_snoc es e : compatible (es ++ [e]) <->
  compatible es /\
  (forall e', e' ∈ es -> m_dst e' ∈ ancestors (m_dst e) -> declared_other (m_kind e') DDir = false) /\
  (forall e', e' ∈ es -> m_dst e ∈ ancestors (m_dst e') -> declared_other (m_kind e) DDir = false).
Proof.
  unfold compatible. split.
  - intros H. split_and!; intros; eapply H; try eassumption; set_solver.
  - intros (H1 & H2 & H3) x y [Hx| ->%list_elem_of_singleton]%elem_of_app [Hy| ->%list_elem_of_singleton]%elem_of_app; eauto.
    by intros ?%ancestors_irrefl.
Qed.

Lemma lookup_set_entry {A} (m : gmap PathBytes A) (f : ManifestEntry -> option A) es e path v :
  m_dst e ∉ dsts es ->
  (forall path v, m !! path = Some v <-> exists x, x ∈ es /\ m_dst x = path /\ f x = Some v) ->
  match f e with Some a => <[m_dst e := a]> m | None => m end !! path = Some v <->
  exists x, x ∈ es ++ [e] /\ m_dst x = path /\ f x = Some v.
Proof.
  intros Hnew Hm. destruct (decide (m_dst e = path)) as [<-|Hp].
  - assert (Hno : m !! m_dst e = None).
    { apply eq_None_not_Some. intros [w (x & Hx & Ex & _)%Hm]. apply Hnew. rewrite <- Ex. by apply list_elem_of_fmap_2. }
    transitivity (f e = Some v).
    + destruct (f e); [by rewrite lookup_insert_eq|by rewrite Hno].
    + split; [intros Hf; exists e; set_solver|]. intros (x & [Hx| ->%list_elem_of_singleton]%elem_of_app & Ex & Hf); [|done].
      destruct Hnew. rewrite <- Ex. by apply list_elem_of_fmap_2.
  - transitivity (m !! path = Some v).
    + destruct (f e); [by rewrite lookup_insert_ne|done].
    + rewrite Hm. split; intros (x & Hx & Ex & Hf); exists x; (split; [|done]); [set_solver|].
      apply elem_of_app in Hx as [Hx| ->%list_elem_of_singleton]; [done|congruence].
Qed.

Lemma inserted_granted es e p : granted es p -> m_dst e ∉ dsts es -> compatible (es ++ [e]) ->
  granted (es ++ [e]) (inserted e p).
Proof.
  intros G Hnew Hc. split.
  - rewrite fmap_app, NoDup_app. cbn. split_and!; [apply G|set_solver|apply NoDup_singleton].
  - done.
  - intros path kind.
    pose proof (lookup_set_entry (pe_entries p) (fun e => Some (m_kind e)) es e path kind Hnew) as H.
    cbn in H |- *. rewrite H; [naive_solver|]. intros pa v. rewrite (gr_entries _ _ G). naive_solver.
  - intros path h. apply (lookup_set_entry _ m_expected_hash); [done|apply G].
  - intros path h. apply (lookup_set_entry _ m_metadata); [done|apply G].
  - cbn. rewrite (gr_parents _ _ G). apply set_eq. intros x. unfold implied, fresh_parents. rewrite bind_app, fmap_app.
    cbn. rewrite app_nil_r. assert (Hd := gr_entries_None _ _ x G).
    rewrite !elem_of_difference, !elem_of_union, !elem_of_difference, !elem_of_union, !elem_of_list_to_set.
    rewrite list_elem_of_filter, Hd, !elem_of_app, !elem_of_singleton, list_elem_of_singleton. tauto.
Qed.

(** Recording the entry does not make room: the count is at least what it was
    after the ancestors were added. *)
Lemma inserted_count e p : pe_entries p !! m_dst e = None ->
  count (with_parents (fun s => s ∪ fresh_parents p (ancestors (m_dst e))) p) <= count (inserted e p).
Proof.
  intros Hn. unfold count, inserted. cbn. rewrite map_size_insert_None by done.
  set (X := pe_parents p ∪ _). assert (size X <= S (size (X ∖ {[m_dst e]})))%nat; [|lia].
  transitivity (size ((X ∖ {[m_dst e]}) ∪ {[m_dst e]})).
  - apply subseteq_size. intros x Hx. destruct (decide (x = m_dst e)); set_solver.
  - rewrite size_union_alt.
    assert (size ({[m_dst e]} ∖ (X ∖ {[m_dst e]})) <= size ({[m_dst e]} : gset PathBytes))%nat as Hs
      by (apply subseteq_size; set_solver).
    rewrite size_singleton in Hs. lia.
Qed.

Lemma insert_entry_Ok es e max p p' : granted es p -> m_dst e <> [] ->
  insert_entry e max p = (p', Ok tt) <-> admissible es e max /\ p' = inserted e p.
Proof.
  intros G Hne. unfold admissible. rewrite compatible_snoc.
  assert (Hblocks : (forall a, a ∈ ancestors (m_dst e) -> entry_blocks p a = false) <->
    forall e', e' ∈ es -> m_dst e' ∈ ancestors (m_dst e) -> declared_other (m_kind e') DDir = false).
  { split.
    - intros H e' He' Ha. specialize (H _ Ha). apply not_true_iff_false in H. apply not_true_iff_false.
      intros Hd. apply H, (entry_blocks_spec _ _ _ G). eauto.
    - intros H a Ha. apply not_true_iff_false. intros (e' & He' & <- & Hd)%(entry_blocks_spec _ _ _ G).
      rewrite H in Hd; done. }
  assert (Hup : m_dst e ∉ dsts es -> (declared_other (m_kind e) DDir && bool_decide (m_dst e ∈ pe_parents p) = false <->
    forall e', e' ∈ es -> m_dst e ∈ ancestors (m_dst e') -> declared_other (m_kind e) DDir = false)).
  { intros Hnew. rewrite (gr_parents _ _ G). rewrite andb_false_iff, bool_decide_eq_false. split.
    - intros [H|H]; [done|]. intros e' He' Ha. destruct H. unfold implied. set_solver.
    - intros H. destruct (declared_other (m_kind e) DDir); [|by left]. right. unfold implied.
      rewrite elem_of_difference, elem_of_union, elem_of_singleton, elem_of_list_to_set, list_elem_of_bind.
      intros [[?|(e' & Ha & He')] _]; [done|]. by specialize (H e' He' Ha). }
  unfold insert_entry. rewrite method_bind_Ok. split.
  - intros (? & [] & [Hlen%negb_true_iff ->]%m_ensure_Ok & H). apply bool_decide_eq_false in Hlen.
    apply method_bind_Ok in H as (? & ? & [= <- <-] & H).
    apply method_bind_Ok in H as (? & [] & [Hnew%bool_decide_eq_true ->]%m_ensure_Ok & H).
    apply (gr_entries_None _ _ _ G) in Hnew.
    apply method_bind_Ok in H as (? & [] & [Hp%negb_true_iff ->]%m_ensure_Ok & H).
    apply method_bind_Ok in H as (? & [] & (Hb & -> & _)%add_parents_Ok & H).
    apply method_bind_Ok in H as (? & [] & [= <-] & H). apply method_bind_Ok in H as (? & [] & [= <-] & H).
    apply check_limit_Ok in H as [Hmax ->].
    assert (Hc : compatible (es ++ [e])).
    { apply compatible_snoc. split_and!; [apply G|by apply Hblocks|by apply Hup]. }
    pose proof (inserted_granted es e p G Hnew Hc) as G'. unfold inserted in *.
    split_and!; [lia|done|apply G|by apply Hblocks|by apply Hup| |done].
    rewrite <- (granted_count _ _ G'). exact Hmax.
  - intros ((Hlen & Hnew & (Hc0 & Hc1 & Hc2) & Hmax) & ->).
    assert (Hc : compatible (es ++ [e])) by (by apply compatible_snoc).
    pose proof (inserted_granted es e p G Hnew Hc) as G'. rewrite <- (granted_count _ _ G') in Hmax.
    exists p, tt. split; [apply m_ensure_Ok; split; [apply negb_true_iff, bool_decide_eq_false; lia|done]|].
    apply method_bind_Ok. exists p, p. split; [done|]. apply method_bind_Ok. exists p, tt.
    split; [apply m_ensure_Ok; split; [by apply bool_decide_eq_true, (gr_entries_None _ _ _ G)|done]|].
    apply method_bind_Ok. exists p, tt.
    split; [apply m_ensure_Ok; split; [by apply negb_true_iff, Hup|done]|].
    apply method_bind_Ok. eexists _, tt. split.
    { apply add_parents_Ok. split_and!; [by apply Hblocks|reflexivity|]. intros _.
      etransitivity; [|exact Hmax]. apply inserted_count. by apply (gr_entries_None _ _ _ G). }
    apply method_bind_Ok. eexists _, tt. split; [reflexivity|]. apply method_bind_Ok. eexists _, tt. split; [reflexivity|].
    apply check_limit_Ok. split; [exact Hmax|done].
Qed.

(** ** Inserting a whole list *)
Definition insert_all (max : Z) (es : list ManifestEntry) : method Permissions string unit :=
  for_each (fun e => insert_entry e max) es.

(** What the receiver demands of the list as a whole. *)
Record acceptable (es : list ManifestEntry) (max : Z) : Prop := {
  ac_lengths : Forall (fun e => Z.of_nat (length (m_dst e)) <= MAX_PATH_BYTES) es;
  ac_nodup : NoDup (dsts es);
  ac_compatible : compatible es;
  ac_limit : es <> [] -> Z.of_nat (size (reach es)) <= max
}.

Lemma compatible_prefix es es' : compatible (es ++ es') -> compatible es.
Proof. intros H e e' He He'. apply H; set_solver. Qed.

Lemma reach_prefix es es' : reach es ⊆ reach (es ++ es').
Proof. unfold reach, implied. rewrite fmap_app, bind_app. set_solver. Qed.

Lemma acceptable_prefix es es' max : acceptable (es ++ es') max -> acceptable es max.
Proof.
  intros [Hl Hn Hc Hm]. apply Forall_app in Hl as [Hl _]. rewrite fmap_app, NoDup_app in Hn. split.
  - done.
  - tauto.
  - by eapply compatible_prefix.
  - intros He. etransitivity; [|apply Hm; by destruct es]. apply Nat2Z.inj_le, subseteq_size, reach_prefix.
Qed.

Lemma acceptable_snoc es e max : acceptable (es ++ [e]) max <-> acceptable es max /\ admissible es e max.
Proof.
  split.
  - intros H. split; [by eapply acceptable_prefix|]. destruct H as [Hl Hn Hc Hm].
    apply Forall_app in Hl as [_ Hl]. rewrite Forall_singleton in Hl. rewrite fmap_app, NoDup_app in Hn.
    split; [exact Hl|]. split; [|split; [done|apply Hm; by destruct es]].
    intros Hd. destruct Hn as (_ & Hn & _). apply (Hn _ Hd). cbn. set_solver.
  - intros [[Hl Hn Hc Hm] (H1 & H2 & H3 & H4)]. split; [|..|done].
    + apply Forall_app. split; [done|]. by apply Forall_singleton.
    + rewrite fmap_app, NoDup_app. cbn. split_and!; [done|set_solver|apply NoDup_singleton].
    + done.
Qed.

Lemma insert_all_Ok max es : Forall (fun e => m_dst e <> []) es ->
  (forall p, insert_all max es Permissions_new = (p, Ok tt) -> acceptable es max /\ granted es p) /\
  (acceptable es max -> exists p, insert_all max es Permissions_new = (p, Ok tt)).
Proof.
  induction es as [|e es IH] using rev_ind; intros Hne.
  { split.
    - intros p [= <-]. split; [|apply granted_new]. split; [constructor|constructor|intros ? ? ?; set_solver|done].
    - intros _. by eexists. }
  apply Forall_app in Hne as [Hne He]. rewrite Forall_singleton in He. destruct (IH Hne) as [IH1 IH2]. split.
  - intros p (p1 & [Ha G]%IH1 & (p2 & Hi & Hp)%for_each_cons)%for_each_app. injection Hp as <-.
    apply (insert_entry_Ok _ _ _ _ _ G He) in Hi as [Hadm ->].
    split; [by apply acceptable_snoc|]. apply inserted_granted; [done|apply Hadm..].
  - intros [Ha Hadm]%acceptable_snoc. destruct (IH2 Ha) as [p1 Hp1]. destruct (IH1 _ Hp1) as [_ G].
    exists (inserted e p1). apply for_each_app. exists p1. split; [done|].
    apply for_each_cons. eexists. split; [|reflexivity]. by apply (insert_entry_Ok _ _ _ _ _ G He).
Qed.

(** ** The sender's preflight *)
Lemma declare_spec entries declared :
  match declare entries declared with
  | Ok m => NoDup (entries.*2.*1) /\ (forall p, p ∈ entries.*2.*1 -> declared !! p = None) /\
            forall p v, m !! p = Some v <-> declared !! p = Some v \/ (v.1, (p, v.2)) ∈ entries
  | Err _ => ~ (NoDup (entries.*2.*1) /\ (forall p, p ∈ entries.*2.*1 -> declared !! p = None))
  end.
Proof.
  revert declared. induction entries as [|[line [path kind]] entries IH]; intros declared; cbn [declare].
  { split; [constructor|]. split; [intros p Hp; set_solver|]. intros p v. set_solver. }
  destruct (declared !! path) eqn:Ed.
  { intros [_ H]. specialize (H path ltac:(cbn; set_solver)). congruence. }
  specialize (IH (<[path := (line, kind)]> declared)). destruct (declare entries _) as [m|].
  - destruct IH as (Hn & Hd & Hm). cbn [fmap list_fmap].
    assert (Hp : path ∉ entries.*2.*1) by (intros Hp%Hd; by rewrite lookup_insert_eq in Hp).
    split; [by constructor|]. split.
    + intros p [->|Hp']%elem_of_cons; [done|]. specialize (Hd p Hp'). apply lookup_insert_None in Hd. tauto.
    + intros p [l k]. rewrite Hm, lookup_insert_Some, elem_of_cons. cbn. split.
      * intros [[[-> [= -> ->]]|[_ ?]]|?]; auto.
      * intros [Hl|[[= -> -> ->]|?]]; auto. left. right. split; [congruence|done].
  - intros [Hn Hd]. cbn [fmap list_fmap] in Hn, Hd. apply NoDup_cons in Hn as [Hp Hn]. apply IH. split; [done|].
    intros p Hp'. apply lookup_insert_None. split; [apply Hd; set_solver|]. intros ->. done.
Qed.

Abbreviation numbered es := ((fun le : Z * ManifestEntry => (le.1, (m_dst le.2, m_kind le.2))) <$> es).

(** The preflight accepts exactly the destinations that are distinct and under
    no listed non-directory. *)
Lemma validate_destinations_Ok (es : list (Z * ManifestEntry)) u :
  validate_destinations (numbered es) = Ok u <-> NoDup (dsts es.*2) /\ compatible es.*2.
Proof.
  unfold validate_destinations. pose proof (declare_spec (numbered es) ∅) as Hd.
  assert (Hdst : (numbered es).*2.*1 = dsts es.*2) by (rewrite <- !list_fmap_compose; done).
  rewrite Hdst in Hd. destruct (declare _ ∅) as [m|e]; cbn [mbind result_bind]; cycle 1.
  { split; [done|]. intros [Hn _]. destruct Hd. split; [done|]. intros p _. apply lookup_empty. }
  destruct Hd as (Hn & _ & Hm).
  assert (Hk : forall p l k, m !! p = Some (l, k) <-> exists e, (l, e) ∈ es /\ m_dst e = p /\ m_kind e = k).
  { intros p l k. rewrite Hm, lookup_empty. cbn. rewrite list_elem_of_fmap. split.
    - intros [?|([l' e] & [= -> -> ->] & He)]; [done|eauto].
    - intros (e & He & <- & <-). right. by exists (l, e). }
  transitivity (existsb (fun p => blocked_ancestor m p.1) (map_to_list m) = false).
  { destruct (existsb _ _), u; done. }
  rewrite existsb_false. transitivity (compatible es.*2); [|tauto]. split.
  - intros H e e' ([l e1] & -> & He)%list_elem_of_fmap ([l' e1'] & -> & He')%list_elem_of_fmap Ha. cbn in *.
    assert (Hp : (m_dst e1', (l', m_kind e1')) ∈ map_to_list m) by (apply elem_of_map_to_list, Hk; eauto).
    specialize (H _ Hp). cbn in H. unfold blocked_ancestor in H. rewrite existsb_false in H. specialize (H _ Ha).
    assert (Em : m !! m_dst e1 = Some (l, m_kind e1)) by (apply Hk; eauto). by rewrite Em in H.
  - intros Hc [p [l k]] Hp%elem_of_map_to_list. cbn. unfold blocked_ancestor. apply existsb_false. intros a Ha.
    destruct (m !! a) as [[l' k']|] eqn:Ea; [|done]. apply Hk in Hp as (e & He & <- & <-), Ea as (e' & He' & <- & <-).
    apply (Hc e' e); [..|done]; apply list_elem_of_fmap; by eexists (_, _).
Qed.

(** ** Theorems *)

(** C25. The two sides agree on manifests: inserting the entries one by one into
    the receiver's permissions succeeds exactly when the sender's preflight
    accepts them, every destination is within the path limit, and the listed
    destinations with their ancestors and the root are no more than the signed
    limit. *)
Theorem receiver_accepts_what_preflight_accepts (es : list (Z * ManifestEntry)) max :
  Forall (fun e => m_dst e <> []) es.*2 -> es <> [] ->
  (exists p, insert_all max es.*2 Permissions_new = (p, Ok tt)) <->
  validate_destinations (numbered es) = Ok tt /\
  Forall (fun e => Z.of_nat (length (m_dst e)) <= MAX_PATH_BYTES) es.*2 /\
  Z.of_nat (size (reach es.*2)) <= max.
Proof.
  intros Hne Hes. rewrite validate_destinations_Ok. destruct (insert_all_Ok max es.*2 Hne) as [H1 H2].
  assert (Hes' : es.*2 <> []) by (by destruct es). split.
  - intros [p [[Hl Hn Hc Hm] _]%H1]. auto.
  - intros ([Hn Hc] & Hl & Hm). apply H2. by split.
Qed.

Lemma elem_of_implied path es : path ∈ implied es <-> path = [] \/ exists e, e ∈ es /\ path ∈ ancestors (m_dst e).
Proof.
  unfold implied. rewrite elem_of_union, elem_of_singleton, elem_of_list_to_set, list_elem_of_bind. naive_solver.
Qed.

Lemma granted_allows es p path directory : granted es p ->
  allows p path directory = true <->
  path ∈ dsts es \/ directory <> Some false /\ path ∈ implied es.
Proof.
  intros G. unfold allows. rewrite orb_true_iff, andb_true_iff, negb_true_iff, bool_decide_eq_false, !bool_decide_eq_true.
  rewrite <- not_eq_None_Some, (gr_entries_None _ _ _ G), (gr_parents _ _ G), elem_of_difference, elem_of_list_to_set.
  destruct (decide (path ∈ dsts es)); tauto.
Qed.

(** What the accepted manifest permits: a path is allowed exactly when it is
    listed, or, for a directory, when it is the root or a strict ancestor of a
    listed path; the expected hash and attributes recorded for a path are those
    of its entry. *)
Theorem mapping_grants_exactly es max p path directory :
  Forall (fun e => m_dst e <> []) es -> insert_all max es Permissions_new = (p, Ok tt) ->
  (allows p path directory = true <->
     path ∈ dsts es \/ directory <> Some false /\
                     (path = [] \/ exists e rest, e ∈ es /\ m_dst e = path ++ slash :: rest)) /\
  (implicit_directory p path = true <-> allows p path None = true /\ path ∉ dsts es) /\
  (forall h, pe_expected_hashes p !! path = Some h <-> exists e, e ∈ es /\ m_dst e = path /\ m_expected_hash e = Some h) /\
  (forall m, permissions_metadata p path = Some m <-> exists e, e ∈ es /\ m_dst e = path /\ m_metadata e = Some m).
Proof.
  intros Hne [_ G]%(proj1 (insert_all_Ok max es Hne)).
  assert (Himp : path ∈ implied es <-> path = [] \/ exists e rest, e ∈ es /\ m_dst e = path ++ slash :: rest).
  { rewrite elem_of_implied. setoid_rewrite elem_of_ancestors. naive_solver. }
  split_and!.
  - rewrite (granted_allows _ _ _ _ G), Himp. done.
  - rewrite (granted_allows _ _ _ _ G). unfold implicit_directory.
    rewrite bool_decide_eq_true, (gr_parents _ _ G), elem_of_difference, elem_of_list_to_set.
    split; [|tauto]. intros [? ?]. split; [|done]. by right.
  - apply G.
  - apply G.
Qed.

(** ** Witnesses *)
Definition two_entries : list (Z * ManifestEntry) :=
  [ (1, mkManifest (bs "s") (bs "a/b") (Some DFile) (Some (mkDigest Md5 (bs "00"))) None);
    (2, mkManifest (bs "t") (bs "a") (Some DDir) None None) ].

Lemma two_entries_nonempty : Forall (fun e => m_dst e <> []) two_entries.*2.
Proof. repeat constructor; done. Qed.

Lemma receiver_accepts_what_preflight_accepts_witness :
  (exists p, insert_all 10 two_entries.*2 Permissions_new = (p, Ok tt)) <->
  validate_destinations (numbered two_entries) = Ok tt /\
  Forall (fun e => Z.of_nat (length (m_dst e)) <= MAX_PATH_BYTES) two_entries.*2 /\
  Z.of_nat (size (reach two_entries.*2)) <= 10.
Proof. apply receiver_accepts_what_preflight_accepts; [apply two_entries_nonempty|done]. Defined.

Lemma mapping_grants_exactly_witness :
  exists p, insert_all 3 two_entries.*2 Permissions_new = (p, Ok tt) /\
  (allows p (bs "a/b") None = true <->
     bs "a/b" ∈ dsts two_entries.*2 \/ @None bool <> Some false /\
       (bs "a/b" = [] \/ exists e rest, e ∈ two_entries.*2 /\ m_dst e = bs "a/b" ++ slash :: rest)).
Proof.
  eexists. split; [vm_compute; reflexivity|].
  eapply (mapping_grants_exactly two_entries.*2 3); [apply two_entries_nonempty|vm_compute; reflexivity].
Defined.
