(* ===== verification/MappingAdmit.v ===== *)
(** * Admitting a signed mapping

    The receiver of a restricted copy knows the length and digest of a manifest
    and receives it in chunks cut anywhere.  Its line-by-line processing is
    related to reading the whole manifest: nothing is permitted before the
    signed contents have arrived, and what is permitted then is what those
    contents list. *)

From stdpp Require Import strings.
From S2P Require Import Prelude Text Proto Hashing Mapping MappingGrant.
Local Open Scope Z_scope.

(** ** Lines *)
Lemma concat_split_inclusive l : concat (split_inclusive l) = l.
Proof.
  induction l as [|b l IH]; [done|]. cbn [split_inclusive]. case_decide; [cbn; by rewrite IH|].
  destruct (split_inclusive l) as [|c cs]; cbn in *; by rewrite <- IH.
Qed.

(** A part has a newline at most as its last byte. *)
Definition part_ok (part : list Z) : Prop := exists pre x, part = pre ++ [x] /\ newline ∉ pre.

Lemma split_inclusive_parts l : Forall part_ok (split_inclusive l).
Proof.
  induction l as [|b l IH]; [constructor|]. cbn [split_inclusive]. case_decide as Hb.
  { constructor; [|done]. exists [], b. split; [done|]. set_solver. }
  destruct (split_inclusive l) as [|c cs]; inversion_clear IH as [|? ? (pre & x & -> & Hx) Hcs];
    (constructor; [|done || constructor]).
  - exists [], b. split; [done|]. set_solver.
  - exists (b :: pre), x. split; [done|]. set_solver.
Qed.

(** Every line but the last is terminated. *)
Fixpoint terminated (ls : list (list Z)) : Prop :=
  match ls with
  | [] | [_] => True
  | l :: ls => ends_with_newline l = true /\ terminated ls
  end.

Lemma split_inclusive_terminated l : terminated (split_inclusive l).
Proof.
  induction l as [|b l IH]; [done|]. cbn [split_inclusive]. case_decide as Hb.
  { destruct (split_inclusive l); [done|]. split; [|done]. by subst. }
  destruct (split_inclusive l) as [|c [|c' cs]] eqn:E; [done|done|]. destruct IH as [H IH]. split; [|done].
  pose proof (split_inclusive_parts l) as Hp. rewrite E in Hp. apply Forall_cons in Hp as [(pre & x & -> & _) _].
  unfold ends_with_newline in H |- *. rewrite last_snoc in H. by rewrite app_comm_cons, last_snoc.
Qed.

Section Admit.
Context (from_json : list Z -> option WireEntry) (base64 : list Z -> option (list Z)).
Abbreviation parse := (parse_manifest_entry from_json base64).

(** ** The line being assembled and the permissions being built *)
Abbreviation core := (list Z * option Permissions)%type.

(** What a complete line does to the permissions. *)
Definition line_done (max : Z) (line : list Z) (pending : option Permissions) : option (option Permissions) :=
  if negb (utf8_valid line) then None else
    let text := trim_line line in
    if decide (text = []) then Some pending else
      match parse text, pending with
      | Ok entry, Some p => match insert_entry entry max p with (p, Ok _) => Some (Some p) | _ => None end
      | _, _ => None
      end.

Definition core_part (max : Z) (c : core) (part : list Z) : option core :=
  if decide (CHUNK_BYTES < Z.of_nat (length c.1 + length part)) then None
  else if ends_with_newline part then p ← line_done max (c.1 ++ part) c.2; Some ([], p)
  else Some (c.1 ++ part, c.2).

Fixpoint feed (max : Z) (parts : list (list Z)) (c : core) : option core :=
  match parts with [] => Some c | part :: parts => c ← core_part max c part; feed max parts c end.

Definition feed_bytes (max : Z) (bytes : list Z) : core -> option core := feed max ((fun b => [b]) <$> bytes).

Lemma feed_app max a b c : feed max (a ++ b) c = (c ← feed max a c; feed max b c).
Proof. revert c. induction a as [|x a IH]; intros c; [done|]. cbn. destruct (core_part max c x); [apply IH|done]. Qed.

Lemma feed_bytes_app max a b c : feed_bytes max (a ++ b) c = (c ← feed_bytes max a c; feed_bytes max b c).
Proof. unfold feed_bytes. by rewrite fmap_app, feed_app. Qed.

(** A part may be cut into bytes. *)
Lemma core_part_bytes max part c : part_ok part -> core_part max c part = feed_bytes max part c.
Proof.
  intros (pre & x & -> & Hx). revert c. induction pre as [|b pre IH]; intros c.
  { cbn. by destruct (core_part max c [x]). }
  apply not_elem_of_cons in Hx as [Hb Hx]. unfold feed_bytes. cbn [app fmap list_fmap feed].
  assert (Eb : core_part max c [b] = if decide (CHUNK_BYTES < Z.of_nat (length c.1 + 1)) then None
                                     else Some (c.1 ++ [b], c.2)).
  { unfold core_part. cbn [length]. case_decide; [done|]. unfold ends_with_newline. cbn.
    rewrite bool_decide_eq_false_2; [done|congruence]. }
  rewrite Eb. case_decide as Hlen; cbn [mbind option_bind].
  { unfold core_part. rewrite decide_True; [done|]. cbn. lia. }
  specialize (IH Hx (c.1 ++ [b], c.2)). unfold feed_bytes in IH. rewrite <- IH.
  unfold core_part. cbn [fst snd]. rewrite <- app_assoc. cbn [app].
  replace (length c.1 + length (b :: pre ++ [x]))%nat with (length (c.1 ++ [b]) + length (pre ++ [x]))%nat
    by (rewrite !length_app; cbn; rewrite length_app; cbn; lia).
  unfold ends_with_newline. by rewrite app_comm_cons, !last_snoc.
Qed.

Lemma feed_parts_bytes max parts c : Forall part_ok parts -> feed max parts c = feed_bytes max (concat parts) c.
Proof.
  intros H. revert c. induction H as [|part parts Hp _ IH]; intros c; [done|]. cbn [feed concat].
  rewrite feed_bytes_app, (core_part_bytes _ _ _ Hp). destruct (feed_bytes max part c); [apply IH|done].
Qed.

Lemma feed_data max data c : feed max (split_inclusive data) c = feed_bytes max data c.
Proof. rewrite feed_parts_bytes by apply split_inclusive_parts. by rewrite concat_split_inclusive. Qed.

(** ** Whole lines *)
Definition admit_line (max : Z) (pending : option Permissions) (line : list Z) : option (option Permissions) :=
  if decide (CHUNK_BYTES < Z.of_nat (length line)) then None else line_done max line pending.

Fixpoint admit_lines (max : Z) (lines : list (list Z)) (pending : option Permissions) : option (option Permissions) :=
  match lines with [] => Some pending | l :: lines => p ← admit_line max pending l; admit_lines max lines p end.

Lemma line_done_empty max p : line_done max [] p = Some p.
Proof. done. Qed.

Lemma feed_lines max lines p : terminated lines ->
  (c ← feed max lines ([], p); line_done max c.1 c.2) = admit_lines max lines p.
Proof.
  revert p. induction lines as [|l lines IH]; intros p Ht; [done|].
  cbn [feed admit_lines]. unfold core_part, admit_line. cbn [fst snd app length]. rewrite Nat.add_0_l.
  case_decide; [done|]. destruct (ends_with_newline l) eqn:El.
  - destruct (line_done max l p) as [p'|]; cbn [mbind option_bind]; [|done]. apply IH. by destruct lines; [|destruct Ht].
  - destruct lines; [|by destruct Ht; congruence]. cbn. by destruct (line_done max l p).
Qed.

(** The entries of the lines, when every line is within bounds and parses. *)
Fixpoint parse_lines (lines : list (list Z)) : option (list ManifestEntry) :=
  match lines with
  | [] => Some []
  | line :: lines =>
      if decide (CHUNK_BYTES < Z.of_nat (length line)) then None
      else if negb (utf8_valid line) then None
      else if decide (trim_line line = []) then parse_lines lines
      else match parse (trim_line line) with
           | Ok e => es ← parse_lines lines; Some (e :: es)
           | Err _ => None
           end
  end.

Lemma insert_all_cons max e es p q : insert_all max (e :: es) p = (q, Ok tt) <->
  exists p1, insert_entry e max p = (p1, Ok tt) /\ insert_all max es p1 = (q, Ok tt).
Proof. apply (for_each_cons (fun e => insert_entry e max)). Qed.

Lemma admit_lines_spec max lines p p' : admit_lines max lines (Some p) = Some p' <->
  exists es q, parse_lines lines = Some es /\ insert_all max es p = (q, Ok tt) /\ p' = Some q.
Proof.
  revert p. induction lines as [|line lines IH]; intros p; cbn [admit_lines parse_lines].
  { split; [intros [= <-]; by exists [], p|]. by intros (es & q & [= <-] & [= <-] & ->). }
  unfold admit_line, line_done. case_decide; [split; [done|by intros (? & ? & ? & _)]|].
  destruct (utf8_valid line); cbn [negb]; [|split; [done|by intros (? & ? & ? & _)]].
  case_decide; [apply IH|].
  destruct (parse (trim_line line)) as [e|err]; [|split; [done|by intros (? & ? & ? & _)]].
  destruct (insert_entry e max p) as [p1 [[]|err]] eqn:Ei; cbn [mbind option_bind].
  - rewrite IH. split.
    + intros (es & q & -> & Hq & ->). exists (e :: es), q. split_and!; [done| |done].
      apply insert_all_cons. by exists p1.
    + intros (es & q & Hes & Hq & ->). destruct (parse_lines lines) as [es'|]; [|done]. injection Hes as <-.
      apply insert_all_cons in Hq as (p2 & Hp2 & Hq). assert (p2 = p1) as -> by congruence. by exists es', q.
  - split; [done|]. intros (es & q & Hes & Hq & ->). destruct (parse_lines lines) as [es'|]; [|done].
    injection Hes as <-. apply insert_all_cons in Hq as (p2 & Hp2 & Hq). congruence.
Qed.

(** ** The sending side reads the same entries *)
Abbreviation read := (read_lines from_json base64).

Lemma read_lines_error lines n err acc entries : read lines n (Some err) acc <> Ok (entries, None).
Proof.
  revert n acc. induction lines as [|line lines IH]; intros n acc; cbn [read_lines]; [done|].
  destruct (negb _); [done|]. rewrite (bool_decide_eq_false_2 (Some err = None)), andb_false_r by done.
  case_decide; [apply IH|]. destruct (parse _) as [e|]; cbn [mbind result_bind]; [|done].
  rewrite andb_false_r. apply IH.
Qed.

Lemma read_lines_bounded lines n acc entries : read lines n None acc = Ok (entries, None) ->
  exists es, parse_lines lines = Some es /\ entries.*2 = acc.*2 ++ es /\
    Forall (fun e => Z.of_nat (length (m_dst e)) <= MAX_PATH_BYTES) es.
Proof.
  revert n acc. induction lines as [|line lines IH]; intros n acc; cbn [read_lines parse_lines].
  { intros [= <-]. exists []. by rewrite app_nil_r. }
  destruct (utf8_valid line); cbn [negb]; [|done]. rewrite (bool_decide_eq_true_2 (@None string = None)), andb_true_r by done.
  destruct (decide (CHUNK_BYTES < Z.of_nat (length line))) as [Hl|Hl].
  { rewrite bool_decide_eq_true_2 by done. case_decide; [by intros ?%read_lines_error|].
    destruct (parse _) as [e|]; cbn [mbind result_bind]; [|done].
    rewrite (bool_decide_eq_false_2 (Some _ = None)), andb_false_r by done. by intros ?%read_lines_error. }
  rewrite bool_decide_eq_false_2 by done. case_decide; [apply IH|].
  destruct (parse _) as [e|]; cbn [mbind result_bind]; [|done].
  rewrite (bool_decide_eq_true_2 (@None string = None)), andb_true_r by done.
  case_bool_decide as He; [by intros ?%read_lines_error|].
  intros (es & -> & Ee & Hf)%IH. exists (e :: es). split_and!; [done| |constructor; [lia|done]].
  by rewrite Ee, fmap_app, <- app_assoc.
Qed.

Lemma read_lines_complete lines n acc es : parse_lines lines = Some es ->
  Forall (fun e => Z.of_nat (length (m_dst e)) <= MAX_PATH_BYTES) es ->
  exists entries, read lines n None acc = Ok (entries, None) /\ entries.*2 = acc.*2 ++ es.
Proof.
  revert n acc es. induction lines as [|line lines IH]; intros n acc es; cbn [read_lines parse_lines].
  { intros [= <-] _. exists acc. by rewrite app_nil_r. }
  case_decide as Hl; [done|]. destruct (utf8_valid line); cbn [negb]; [|done].
  rewrite bool_decide_eq_false_2 by done. cbn [andb]. case_decide; [apply IH|].
  destruct (parse _) as [e|]; cbn [mbind result_bind]; [|done].
  destruct (parse_lines lines) as [es'|] eqn:Ep; [|done]. intros [= <-] [He Hf]%Forall_cons.
  rewrite bool_decide_eq_false_2 by lia. cbn [andb].
  destruct (IH (n + 1) (acc ++ [(n + 1, e)]) es' eq_refl Hf) as (entries & Hr & Ee). exists entries. split; [done|].
  by rewrite Ee, fmap_app, <- app_assoc.
Qed.

(** Parsed destinations are not empty. *)
Lemma parse_dst_nonempty text e : parse text = Ok e -> m_dst e <> [].
Proof.
  unfold parse_manifest_entry. destruct (from_json text) as [w|]; [|done].
  intros (kind & _ & H)%result_bind_Ok. apply result_bind_Ok in H as (src & _ & H).
  apply result_bind_Ok in H as (dst & Hd & [= <-]). cbn. unfold wire_decode in Hd.
  apply result_bind_Ok in Hd as (bytes & _ & Hd). apply result_bind_Ok in Hd as (u & Hv & [= <-]).
  by destruct bytes.
Qed.

Lemma parse_lines_nonempty lines es : parse_lines lines = Some es -> Forall (fun e => m_dst e <> []) es.
Proof.
  revert es. induction lines as [|line lines IH]; intros es; cbn [parse_lines]; [intros [= <-]; constructor|].
  case_decide; [done|]. destruct (negb _); [done|]. case_decide; [apply IH|].
  destruct (parse _) as [e|] eqn:Ee; [|done]. destruct (parse_lines lines); [|done]. intros [= <-].
  constructor; [by eapply parse_dst_nonempty|by apply IH].
Qed.

(** The manifest as both sides understand it: the entries of its lines, within
    the bounds of restricted copies and accepted by the preflight. *)
Definition restricted_manifest (contents : list Z) (es : list ManifestEntry) : Prop :=
  exists pm, read_mapping_manifest from_json base64 contents = Ok pm /\
    validate_restricted_bounds (pm_input pm) = Ok tt /\ (pm_entries pm).*2 = es /\
    in_contents (pm_input pm) = contents.

Lemma restricted_manifest_spec contents es : restricted_manifest contents es <->
  parse_lines (split_inclusive contents) = Some es /\
  Forall (fun e => Z.of_nat (length (m_dst e)) <= MAX_PATH_BYTES) es /\ NoDup (dsts es) /\ compatible es.
Proof.
  unfold restricted_manifest, read_mapping_manifest, parsed_manifest. split.
  - intros (pm & H & Hb & <- & _). apply result_bind_Ok in H as ([entries err] & Hr & H).
    apply result_bind_Ok in H as ([] & Hv & [= <-]). cbn in *. destruct err; [done|].
    apply read_lines_bounded in Hr as (es & Hp & Ee & Hf). cbn in Ee. rewrite Ee.
    apply validate_destinations_Ok in Hv. by rewrite Ee in Hv.
  - intros (Hp & Hf & Hn & Hc). destruct (read_lines_complete _ 0 [] es Hp Hf) as (entries & Hr & Ee). cbn in Ee.
    exists (mkParsed (mkInput contents None) entries). split_and!; [|done|done|done]. apply result_bind_Ok.
    exists (entries, None). split; [done|]. apply result_bind_Ok. exists tt. split; [|done].
    apply validate_destinations_Ok. by rewrite Ee.
Qed.

Lemma admit_all_spec max contents p :
  admit_lines max (split_inclusive contents) (Some Permissions_new) = Some (Some p) <->
  exists es, restricted_manifest contents es /\ insert_all max es Permissions_new = (p, Ok tt).
Proof.
  rewrite admit_lines_spec. setoid_rewrite restricted_manifest_spec. split.
  - intros (es & q & Hp & Hi & [= <-]). exists es. split; [|done].
    destruct (proj1 (insert_all_Ok max es (parse_lines_nonempty _ _ Hp)) p Hi) as [[? ? ? ?] _]. done.
  - intros (es & (Hp & _) & Hi). by exists es, p.
Qed.

(** ** The admission machine *)
Section Machine.
Context `{HashLib}.
Abbreviation finish_line' := (finish_line from_json base64).
Abbreviation append_part' := (append_part from_json base64).
Abbreviation append' := (append from_json base64).

Definition core_of (a : Admission) : core := (ad_line a, ad_pending a).
Definition with_core (c : core) (a : Admission) : Admission := set_pending c.2 (set_line c.1 a).

Lemma with_core_id a : with_core (core_of a) a = a.
Proof. by destruct a. Qed.

Lemma insert_pending_Ok entry (a a' : Admission) : insert_pending entry a = (a', Ok tt) <->
  exists p q, ad_pending a = Some p /\ insert_entry entry (ad_max_entries a) p = (q, Ok tt) /\ a' = set_pending (Some q) a.
Proof.
  unfold insert_pending. destruct (ad_pending a) as [p|]; [|split; [done|by intros (? & ? & ? & _)]].
  destruct (insert_entry entry (ad_max_entries a) p) as [q r] eqn:E. split.
  - intros [= <- ->]. by exists p, q.
  - intros (? & ? & [= <-] & Hi & ->). congruence.
Qed.

Lemma finish_line_Ok (a a' : Admission) : finish_line' a = (a', Ok tt) <->
  exists p, line_done (ad_max_entries a) (ad_line a) (ad_pending a) = Some p /\ a' = with_core ([], p) a.
Proof.
  unfold finish_line, line_done. rewrite method_bind_Ok. split.
  - intros (? & ? & [= <- <-] & H1). apply method_bind_Ok in H1 as (? & [] & [Hu ->]%m_ensure_Ok & H1).
    rewrite Hu. cbn [negb]. apply method_bind_Ok in H1 as (a1 & [] & H1 & [= <-]).
    case_decide as Et; [injection H1 as <-; exists (ad_pending a); by destruct a|].
    apply method_bind_Ok in H1 as (? & e & H2 & H1). unfold m_lift in H2.
    destruct (parse (trim_line (ad_line a))) as [e'|] eqn:Ep; [|done]. injection H2 as <- <-.
    apply insert_pending_Ok in H1 as (p & q & -> & -> & ->). exists (Some q). by destruct a.
  - intros (p & Hp & ->). exists a, a. split; [done|]. apply method_bind_Ok. exists a, tt.
    destruct (utf8_valid (ad_line a)); cbn [negb] in Hp; [|done]. split; [by apply m_ensure_Ok|].
    apply method_bind_Ok. case_decide as Et.
    + injection Hp as <-. exists a, tt. split; [done|]. by destruct a.
    + destruct (parse (trim_line (ad_line a))) as [e|] eqn:Ep; [|done].
      destruct (ad_pending a) as [p0|] eqn:Ea; [|done].
      destruct (insert_entry e (ad_max_entries a) p0) as [q [[]|]] eqn:Ei; [|done]. injection Hp as <-.
      exists (set_pending (Some q) a), tt. split; [|by destruct a].
      apply method_bind_Ok. exists a, e. split; [done|]. apply insert_pending_Ok. eauto.
Qed.

Lemma append_part_Ok part (a a' : Admission) : append_part' part a = (a', Ok tt) <->
  exists c, core_part (ad_max_entries a) (core_of a) part = Some c /\ a' = with_core c a.
Proof.
  unfold append_part, core_part. rewrite method_bind_Ok. cbn [core_of fst snd]. split.
  - intros (? & ? & [= <- <-] & H1). apply method_bind_Ok in H1 as (? & [] & [Hl%negb_true_iff ->]%m_ensure_Ok & H1).
    apply bool_decide_eq_false in Hl. rewrite decide_False by done.
    apply method_bind_Ok in H1 as (? & [] & [= <-] & H1). destruct (ends_with_newline part).
    + apply finish_line_Ok in H1 as (p & Hp & ->). cbn in Hp. rewrite Hp. exists ([], p). by destruct a.
    + injection H1 as <-. exists (ad_line a ++ part, ad_pending a). by destruct a.
  - intros (c & Hc & ->). case_decide as Hl; [done|]. exists a, a. split; [done|]. apply method_bind_Ok. exists a, tt.
    split; [apply m_ensure_Ok; split; [by apply negb_true_iff, bool_decide_eq_false|done]|].
    apply method_bind_Ok. eexists _, tt. split; [reflexivity|]. destruct (ends_with_newline part).
    + apply finish_line_Ok. destruct (line_done _ _ _) as [p|] eqn:Ep; [|done]. injection Hc as <-.
      exists p. split; [done|]. by destruct a.
    + injection Hc as <-. by destruct a.
Qed.

Lemma append_parts_Ok parts (a a' : Admission) : for_each append_part' parts a = (a', Ok tt) <->
  exists c, feed (ad_max_entries a) parts (core_of a) = Some c /\ a' = with_core c a.
Proof.
  revert a. induction parts as [|part parts IH]; intros a.
  { cbn. split; [intros [= <-]; exists (core_of a); by rewrite with_core_id|]. intros (c & [= <-] & ->). by rewrite with_core_id. }
  rewrite for_each_cons. cbn [feed]. split.
  - intros (a1 & (c & Hc & ->)%append_part_Ok & (c' & Hc' & ->)%IH). exists c'. rewrite Hc. split; [|by destruct a].
    cbn [mbind option_bind]. by destruct c.
  - intros (c' & Hc & ->). destruct (core_part _ _ part) as [c|] eqn:Ec; [|done].
    exists (with_core c a). split; [apply append_part_Ok; eauto|]. apply IH. exists c'. split; [by destruct c|by destruct a].
Qed.

(** The state after a chunk that was not the last, and after the last one. *)
Definition chunk_state (end_ : Z) (data : list Z) (c : core) (a : Admission) : Admission :=
  set_progress end_ (h_update blake3 (ad_hasher a) data) (with_core c a).
Definition final_state (end_ : Z) (data : list Z) (p : option Permissions) (a : Admission) : Admission :=
  set_permissions p (chunk_state end_ data ([], None) a).

Definition chunk_fits (offset : Z) (data : list Z) (a : Admission) : Prop :=
  offset = ad_received a /\ Z.of_nat (length data) <= CHUNK_BYTES /\
  offset + Z.of_nat (length data) <= u64_max /\ offset + Z.of_nat (length data) <= au_bytes (ad_authorization a).

Lemma append_body_Ok offset data finish (a a' : Admission) :
  append_body from_json base64 offset data finish a = (a', Ok tt) <->
  chunk_fits offset data a /\
  let end_ := offset + Z.of_nat (length data) in
  exists c, feed_bytes (ad_max_entries a) data (core_of a) = Some c /\
    if finish then
      end_ = au_bytes (ad_authorization a) /\
      h_finalize blake3 (h_update blake3 (ad_hasher a) data) = au_digest (ad_authorization a) /\
      exists p, line_done (ad_max_entries a) c.1 c.2 = Some p /\ a' = final_state end_ data p a
    else a' = chunk_state end_ data c a.
Proof.
  unfold append_body, chunk_fits. rewrite method_bind_Ok. split.
  - intros (? & ? & [= <- <-] & H1). apply method_bind_Ok in H1 as (? & [] & [H2%bool_decide_eq_true ->]%m_ensure_Ok & H1).
    apply method_bind_Ok in H1 as (? & [] & [H3%negb_true_iff%bool_decide_eq_false ->]%m_ensure_Ok & H1).
    apply method_bind_Ok in H1 as (? & [] & [H4%bool_decide_eq_true ->]%m_ensure_Ok & H1).
    apply method_bind_Ok in H1 as (? & [] & [H5%negb_true_iff%bool_decide_eq_false ->]%m_ensure_Ok & H1).
    split; [lia|]. cbv zeta. apply method_bind_Ok in H1 as (? & [] & (c & Hc & ->)%append_parts_Ok & H1).
    rewrite feed_data in Hc. apply method_bind_Ok in H1 as (? & [] & [= <-] & H1).
    exists c. split; [done|]. destruct finish; [|by injection H1 as <-].
    apply method_bind_Ok in H1 as (? & ? & [= <- <-] & H1).
    apply method_bind_Ok in H1 as (? & [] & [[H6%bool_decide_eq_true H7%bool_decide_eq_true]%andb_true_iff ->]%m_ensure_Ok & H1).
    apply method_bind_Ok in H1 as (? & [] & (p & Hp & ->)%finish_line_Ok & H1).
    apply method_bind_Ok in H1 as (? & [] & [= <-] & [= <-]). cbn in *. split_and!; [done..|].
    exists p. split; [done|]. by destruct a.
  - intros ((H2 & H3 & H4 & H5) & c & Hc & Hfin). exists a, a. split; [done|].
    apply method_bind_Ok. exists a, tt. split; [by apply m_ensure_Ok; rewrite bool_decide_eq_true_2|].
    apply method_bind_Ok. exists a, tt. split; [by apply m_ensure_Ok; rewrite bool_decide_eq_false_2 by lia|].
    apply method_bind_Ok. exists a, tt. split; [by apply m_ensure_Ok; rewrite bool_decide_eq_true_2|].
    apply method_bind_Ok. exists a, tt. split; [by apply m_ensure_Ok; rewrite bool_decide_eq_false_2 by lia|].
    apply method_bind_Ok. exists (with_core c a), tt.
    split; [apply append_parts_Ok; exists c; by rewrite feed_data|].
    apply method_bind_Ok. eexists _, tt. split; [reflexivity|]. destruct finish; [|by subst a'].
    destruct Hfin as (H6 & H7 & p & Hp & ->). apply method_bind_Ok. eexists _, _. split; [reflexivity|].
    apply method_bind_Ok. eexists _, tt. split.
    { apply m_ensure_Ok. cbn. rewrite !bool_decide_eq_true_2 by done. done. }
    apply method_bind_Ok. eexists _, tt. split; [apply finish_line_Ok; exists p; split; [exact Hp|reflexivity]|].
    apply method_bind_Ok. eexists _, tt. split; [reflexivity|]. by destruct a.
Qed.

(** ** Reachable admissions *)
Context (auth : Authorization) (max : Z).

(** Any sequence of [append] calls, whatever they answer. *)
Inductive reachable : Admission -> Prop :=
| reach_new : reachable (Admission_new auth max)
| reach_append a offset data finish : reachable a -> reachable (append' offset data finish a).1.

(** An admission that has received [contents] and waits for more. *)
Record opened (contents : list Z) (a : Admission) : Prop := {
  op_auth : ad_authorization a = auth;
  op_max : ad_max_entries a = max;
  op_permissions : ad_permissions a = None;
  op_received : ad_received a = Z.of_nat (length contents);
  op_hasher : exists pieces, concat pieces = contents /\ ad_hasher a = foldl (h_update blake3) (h_new blake3) pieces;
  op_core : feed_bytes max contents ([], Some Permissions_new) = Some (core_of a);
  op_pending : is_Some (ad_pending a)
}.

(** Permissions granted from the signed contents. *)
Definition signed (p : Permissions) : Prop :=
  exists contents es, from_contents contents = auth /\ restricted_manifest contents es /\
    insert_all max es Permissions_new = (p, Ok tt).

Record closed (a : Admission) : Prop := {
  cl_pending : ad_pending a = None;
  cl_permissions p : ad_permissions a = Some p -> signed p
}.

(** What an error inside [append] cannot have changed. *)
Definition fixed (a : Admission) := (ad_authorization a, ad_max_entries a, ad_permissions a).

Definition keeps {A} (m : method Admission string A) : Prop := forall a, fixed (m a).1 = fixed a.
Definition keeps_on_error {A} (m : method Admission string A) : Prop :=
  forall a a' e, m a = (a', Err e) -> fixed a' = fixed a.

Lemma keeps_bind {A B} (m : method Admission string A) (k : A -> method Admission string B) :
  keeps m -> (forall x, keeps (k x)) -> keeps (m ≫= k).
Proof.
  intros Hm Hk a. unfold mbind, method_bind. specialize (Hm a). destruct (m a) as [a1 [x|e]]; cbn in *; [|done].
  by rewrite Hk.
Qed.

Lemma keeps_error_bind {A B} (m : method Admission string A) (k : A -> method Admission string B) :
  keeps m -> (forall x, keeps_on_error (k x)) -> keeps_on_error (m ≫= k).
Proof.
  intros Hm Hk a a' e. unfold mbind, method_bind. specialize (Hm a). destruct (m a) as [a1 [x|e']]; cbn in *.
  - intros He%Hk. congruence.
  - intros [= <- <-]. done.
Qed.

Lemma keeps_weaken {A} (m : method Admission string A) : keeps m -> keeps_on_error m.
Proof. intros Hk a a' e E. specialize (Hk a). by rewrite E in Hk. Qed.

Lemma keeps_ensure b (e : string) : keeps (m_ensure b e).
Proof. by destruct b. Qed.

Lemma keeps_modify f : (forall a, fixed (f a) = fixed a) -> keeps (m_modify f).
Proof. intros Hf a. apply Hf. Qed.

Lemma keeps_insert_pending e : keeps (insert_pending e).
Proof.
  intros a. unfold insert_pending. destruct (ad_pending a) as [p|]; [|done].
  by destruct (insert_entry e (ad_max_entries a) p).
Qed.

Lemma keeps_finish_line : keeps finish_line'.
Proof.
  unfold finish_line. apply keeps_bind; [done|]. intros a. apply keeps_bind; [apply keeps_ensure|]. intros _.
  apply keeps_bind; [|intros _; by apply keeps_modify]. case_decide; [done|].
  apply keeps_bind; [done|]. intros e. apply keeps_insert_pending.
Qed.

Lemma keeps_parts parts : keeps (for_each append_part' parts).
Proof.
  induction parts as [|part parts IH]; [done|]. cbn [for_each]. apply keeps_bind; [|intros _; exact IH].
  unfold append_part. apply keeps_bind; [done|]. intros a. apply keeps_bind; [apply keeps_ensure|]. intros _.
  apply keeps_bind; [by apply keeps_modify|]. intros _. destruct (ends_with_newline part); [apply keeps_finish_line|done].
Qed.

Lemma append_body_error offset data finish : keeps_on_error (append_body from_json base64 offset data finish).
Proof.
  unfold append_body. apply keeps_error_bind; [done|]. intros a.
  do 4 (apply keeps_error_bind; [apply keeps_ensure|]; intros _).
  apply keeps_error_bind; [apply keeps_parts|]. intros _.
  apply keeps_error_bind; [by apply keeps_modify|]. intros _. destruct finish; [|by apply keeps_weaken].
  apply keeps_error_bind; [done|]. intros a'. apply keeps_error_bind; [apply keeps_ensure|]. intros _.
  apply keeps_error_bind; [apply keeps_finish_line|]. intros _ ? ? ? E. cbn in E. done.
Qed.

Context (blake3_streams : streams blake3).

Lemma opened_extend contents data (a : Admission) c p : opened contents a -> chunk_fits (ad_received a) data a ->
  feed_bytes max data (core_of a) = Some c -> c.2 = Some p ->
  opened (contents ++ data) (chunk_state (ad_received a + Z.of_nat (length data)) data c a).
Proof.
  intros [Ha Hm Hp Hr (pieces & Hc & Hh) Hf Hpe] Hfit Hd Hs. split; cbn; try done.
  - rewrite length_app. lia.
  - exists (pieces ++ [data]). rewrite concat_app, foldl_snoc, Hh, Hc. cbn. by rewrite app_nil_r.
  - rewrite feed_bytes_app, Hf. cbn [mbind option_bind]. rewrite Hd. by destruct c.
Qed.

Lemma opened_digest contents data (a : Admission) : opened contents a ->
  h_finalize blake3 (h_update blake3 (ad_hasher a) data) = h_hash blake3 (contents ++ data).
Proof using blake3_streams.
  intros [_ _ _ _ (pieces & <- & ->) _ _]. rewrite <- foldl_snoc, blake3_streams, concat_app. cbn. by rewrite app_nil_r.
Qed.

(** The pending permissions survive a line. *)
Lemma line_done_pending line p q : line_done max line (Some p) = Some q -> is_Some q.
Proof.
  unfold line_done. destruct (negb _); [done|]. case_decide; [intros [= <-]; eauto|].
  destruct (parse _); [|done]. destruct (insert_entry _ _ _) as [? [|]]; [|done]. intros [= <-]. eauto.
Qed.

Lemma core_part_pending part c c' : is_Some c.2 -> core_part max c part = Some c' -> is_Some c'.2.
Proof.
  destruct c as [line [p|]]; [|intros [? ?]; done]. intros _. unfold core_part. case_decide; [done|].
  destruct (ends_with_newline part); [|intros [= <-]; cbn; eauto].
  cbn. destruct (line_done _ _ _) as [q|] eqn:E; [|done]. intros [= <-]. by apply line_done_pending in E.
Qed.

Lemma feed_pending parts c c' : is_Some c.2 -> feed max parts c = Some c' -> is_Some c'.2.
Proof.
  revert c. induction parts as [|part parts IH]; intros c Hc; cbn [feed]; [by intros [= <-]|].
  destruct (core_part max c part) as [c1|] eqn:E; cbn; [|done]. apply IH. by eapply core_part_pending.
Qed.

(** Everything received and verified: the lines of the contents were admitted. *)
Lemma opened_finished contents data (a : Admission) c p : opened contents a ->
  feed_bytes max data (core_of a) = Some c -> line_done max c.1 c.2 = Some (Some p) ->
  exists es, restricted_manifest (contents ++ data) es /\ insert_all max es Permissions_new = (p, Ok tt).
Proof.
  intros O Hd Hl. apply admit_all_spec. rewrite <- feed_lines by apply split_inclusive_terminated.
  rewrite feed_data, feed_bytes_app, (op_core _ _ O). cbn [mbind option_bind]. rewrite Hd. exact Hl.
Qed.

Definition admission_inv (a : Admission) : Prop := (exists contents, opened contents a) \/ closed a.

Lemma append_inv offset data finish (a : Admission) : admission_inv a -> admission_inv (append' offset data finish a).1.
Proof using blake3_streams.
  intros [[contents O]|C]; unfold append; cycle 1.
  { rewrite (cl_pending _ C). by right. }
  destruct (op_pending _ _ O) as [P EP]. rewrite EP.
  destruct (append_body from_json base64 offset data finish a) as [a' [[]|e]] eqn:Eb; cbn [fst]; cycle 1.
  { right. apply append_body_error in Eb. unfold fixed in Eb. injection Eb as _ _ E. split; [done|].
    cbn. rewrite E, (op_permissions _ _ O). done. }
  apply append_body_Ok in Eb as (Hfit & c & Hc & Hfin). rewrite (op_max _ _ O) in *.
  assert (offset = ad_received a) as -> by apply Hfit.
  assert (Hcp : is_Some c.2) by (eapply feed_pending; [|exact Hc]; cbn; by rewrite EP).
  destruct finish.
  - destruct Hfin as (Hend & Hdig & q & Hq & ->). right. split; [done|]. cbn. intros p ->.
    destruct (opened_finished _ _ _ _ _ O Hc Hq) as (es & Hes & Hi). exists (contents ++ data), es. split_and!; [|done..].
    rewrite (opened_digest _ _ _ O) in Hdig. rewrite (op_auth _ _ O), (op_received _ _ O) in *.
    unfold from_contents. rewrite Hdig, length_app, Nat2Z.inj_add, Hend. by destruct auth.
  - subst a'. left. destruct Hcp as [q Hq]. exists (contents ++ data). by eapply opened_extend.
Qed.

Lemma opened_new : opened [] (Admission_new auth max).
Proof. split; try done. by exists []. Qed.

Lemma reachable_admission_inv a : reachable a -> admission_inv a.
Proof using blake3_streams. induction 1; [left; exists []; apply opened_new|by apply append_inv]. Qed.

(** C9. Nothing is permitted before the signed manifest has been verified: in
    any admission reached by any calls to [append], in or out of order and
    failing or not, permissions exist only if contents of the signed length and
    digest were received in full, those contents are a manifest the sending
    side accepts within the restricted bounds, and the permissions are exactly
    its entries'. *)
Theorem permissions_require_signed_manifest a p : reachable a -> permissions a = Ok p ->
  exists contents es, from_contents contents = auth /\ restricted_manifest contents es /\ granted es p.
Proof using blake3_streams.
  intros [[c O]|C]%reachable_admission_inv; unfold permissions.
  - by rewrite (op_permissions _ _ O).
  - destruct (ad_permissions a) as [q|] eqn:E; [|done]. intros [= <-].
    destruct (cl_permissions _ C q E) as (contents & es & Ha & Hr & Hi). exists contents, es. split_and!; [done..|].
    pose proof (proj1 (proj1 (restricted_manifest_spec _ _) Hr)) as Hp.
    by apply (insert_all_Ok max es (parse_lines_nonempty _ _ Hp)).
Qed.

(** ** Sending *)
Section Sending.
Context (contents : list Z) (Hauth : auth = from_contents contents) (Hlen : Z.of_nat (length contents) <= u64_max).
Context (cf : core) (p : Permissions).
Context (Hfeed : feed_bytes max contents ([], Some Permissions_new) = Some cf).
Context (Hdone : line_done max cf.1 cf.2 = Some (Some p)).

Lemma feed_suffix pre rest a : contents = pre ++ rest -> opened pre a -> feed_bytes max rest (core_of a) = Some cf.
Proof using Hfeed.
  intros E O. rewrite E, feed_bytes_app, (op_core _ _ O) in Hfeed. exact Hfeed.
Qed.

Lemma append_chunk pre data rest a finish : contents = pre ++ data ++ rest -> opened pre a ->
  Z.of_nat (length data) <= CHUNK_BYTES -> (finish = true <-> rest = []) ->
  exists a', append' (Z.of_nat (length pre)) data finish a = (a', Ok tt) /\
    (finish = true -> permissions a' = Ok p) /\ (finish = false -> opened (pre ++ data) a').
Proof using blake3_streams Hauth Hlen Hfeed Hdone.
  intros E O Hd Hf. pose proof (feed_suffix _ _ _ E O) as Hs. rewrite feed_bytes_app in Hs.
  destruct (feed_bytes max data (core_of a)) as [c|] eqn:Hc; [|done]. cbn in Hs.
  assert (El : Z.of_nat (length contents) = Z.of_nat (length pre) + Z.of_nat (length data) + Z.of_nat (length rest))
    by (rewrite E, !length_app; lia).
  assert (Hfit : chunk_fits (Z.of_nat (length pre)) data a).
  { split; [by rewrite (op_received _ _ O)|]. rewrite (op_auth _ _ O), Hauth. cbn. lia. }
  assert (Hcp : is_Some c.2).
  { eapply feed_pending; [|exact Hc]. cbn. apply (op_pending _ _ O). }
  destruct (op_pending _ _ O) as [P EP]. unfold append. rewrite EP.
  destruct finish.
  - assert (rest = []) as -> by (by apply Hf). cbn in Hs. injection Hs as ->.
    assert (Hb : append_body from_json base64 (Z.of_nat (length pre)) data true a =
      (final_state (Z.of_nat (length pre) + Z.of_nat (length data)) data (Some p) a, Ok tt)).
    { apply append_body_Ok. split; [done|]. exists cf. rewrite (op_max _ _ O). split; [done|].
      rewrite (opened_digest _ _ _ O), (op_auth _ _ O), Hauth, <- (app_nil_r data), <- E, app_nil_r. cbn in *.
      split_and!; [lia|done|]. by exists (Some p). }
    rewrite Hb. eexists. split; [reflexivity|]. split; [done|done].
  - assert (Hb : append_body from_json base64 (Z.of_nat (length pre)) data false a =
      (chunk_state (Z.of_nat (length pre) + Z.of_nat (length data)) data c a, Ok tt)).
    { apply append_body_Ok. split; [done|]. exists c. by rewrite (op_max _ _ O). }
    rewrite Hb. eexists. split; [reflexivity|]. split; [done|]. intros _. destruct Hcp as [q Hq].
    rewrite <- (op_received _ _ O) in *. by eapply opened_extend.
Qed.

Lemma send_loop_admits fuel pre rest a : contents = pre ++ rest -> opened pre a -> (length rest < fuel)%nat ->
  exists a', send_loop append' fuel contents (Z.of_nat (length pre)) a = (a', Ok tt) /\ permissions a' = Ok p.
Proof using blake3_streams Hauth Hlen Hfeed Hdone.
  revert pre rest a. induction fuel as [|fuel IH]; intros pre rest a E O Hfuel; [lia|]. cbn [send_loop].
  set (end_ := Z.min _ _). assert (El : length contents = (length pre + length rest)%nat) by (by rewrite E, length_app).
  set (n := Z.to_nat (end_ - Z.of_nat (length pre))).
  assert (Hn : (n = length rest /\ end_ = Z.of_nat (length contents)) \/
               (0 < n < length rest)%nat /\ Z.of_nat n = CHUNK_BYTES /\ end_ <> Z.of_nat (length contents) /\
               end_ = Z.of_nat (length pre + n)%nat).
  { subst n end_. unfold CHUNK_BYTES. lia. }
  assert (Hdrop : drop (Z.to_nat (Z.of_nat (length pre))) contents = rest)
    by (by rewrite Nat2Z.id, E, drop_app_length).
  rewrite Hdrop. destruct Hn as [[Hn He]|(Hn & HnC & He & He')].
  - rewrite (bool_decide_eq_true_2 _ He), Hn, take_ge by lia.
    destruct (append_chunk pre rest [] a true) as (a' & Ha & Hp & _); [by rewrite app_nil_r|done| |done|].
    { subst n end_. unfold CHUNK_BYTES in *. lia. }
    exists a'. split; [|auto]. apply method_bind_Ok. by exists a', tt.
  - rewrite (bool_decide_eq_false_2 _ He).
    destruct (append_chunk pre (take n rest) (drop n rest) a false) as (a1 & Ha & _ & O1).
    + by rewrite take_drop.
    + done.
    + rewrite length_take. lia.
    + split; [done|]. intros Hr%(f_equal length). rewrite length_drop in Hr. cbn in Hr. lia.
    + destruct (IH (pre ++ take n rest) (drop n rest) a1) as (a' & Hs & Hp).
      * by rewrite <- app_assoc, take_drop.
      * auto.
      * rewrite length_drop. lia.
      * exists a'. split; [|done]. apply method_bind_Ok. exists a1, tt. split; [done|].
        rewrite length_app, length_take, Nat.min_l in Hs by lia. by rewrite He'.
Qed.
End Sending.
End Machine.
End Admit.

(** C24. A manifest the sender accepted is admitted: sending it in chunks to a
    receiver that was granted its length and digest succeeds, in finitely many
    chunks, whenever it is within the restricted bounds and the signed entry
    limit, and the receiver then permits exactly its entries. *)
Theorem sent_manifest_is_admitted from_json base64 `{HashLib} (blake3_streams : streams blake3) contents es max :
  restricted_manifest from_json base64 contents es -> Z.of_nat (length contents) <= u64_max ->
  (es <> [] -> Z.of_nat (size (reach es)) <= max) ->
  exists a p, send (append from_json base64) contents (Admission_new (from_contents contents) max) = (a, Ok tt) /\
    permissions a = Ok p /\ granted es p.
Proof.
  intros Hr Hlen Hmax. pose proof (proj1 (restricted_manifest_spec _ _ _ _) Hr) as (Hp & Hl & Hn & Hc).
  destruct (insert_all_Ok max es (parse_lines_nonempty _ _ _ _ Hp)) as [Hg Hacc].
  destruct (Hacc ltac:(by split)) as [p Hi]. destruct (Hg _ Hi) as [_ G].
  assert (Ha : admit_lines from_json base64 max (split_inclusive contents) (Some Permissions_new) = Some (Some p))
    by (apply admit_all_spec; eauto).
  rewrite <- feed_lines, feed_data in Ha by apply split_inclusive_terminated.
  destruct (feed_bytes from_json base64 max contents _) as [cf|] eqn:Ef; [|done]. cbn in Ha.
  destruct (send_loop_admits from_json base64 (from_contents contents) max blake3_streams contents eq_refl Hlen cf p Ef Ha
    (S (length contents)) [] contents (Admission_new (from_contents contents) max)) as (a & Hs & Hpa);
    [done|apply opened_new|lia|]. exists a, p. done.
Qed.

(** ** Witnesses: every line is the path of an entry, copied onto itself. *)
Definition path_json (text : list Z) : option WireEntry :=
  let path := mkWirePath (bs "utf-8") text None in
  Some (mkWireEntry path path None None None None None None).
Definition no_base64 (_ : list Z) : option (list Z) := None.
Definition sample_contents : list Z := bs "a/b" ++ [10; 10] ++ bs "c".
Definition sample_entries : list ManifestEntry :=
  [mkManifest (bs "a/b") (bs "a/b") None None None; mkManifest (bs "c") (bs "c") None None None].

Lemma sample_restricted : restricted_manifest path_json no_base64 sample_contents sample_entries.
Proof. eexists. split; [vm_compute; reflexivity|]. split_and!; reflexivity. Qed.

Lemma sent_manifest_is_admitted_witness :
  exists a p, send (append (H := sum_lib) path_json no_base64) sample_contents
      (Admission_new (H := sum_lib) (from_contents (H := sum_lib) sample_contents) 4) = (a, Ok tt) /\
    permissions a = Ok p /\ granted sample_entries p.
Proof.
  apply (sent_manifest_is_admitted path_json no_base64 (H := sum_lib) (Hashing.blake3_streams (HashLaws := sum_laws))).
  - apply sample_restricted.
  - vm_compute. done.
  - intros _. vm_compute. done.
Defined.

Lemma permissions_require_signed_manifest_witness :
  let auth := from_contents (H := sum_lib) sample_contents in
  exists a p, reachable (H := sum_lib) path_json no_base64 auth 4 a /\ permissions a = Ok p /\
  exists contents es, from_contents (H := sum_lib) contents = auth /\
    restricted_manifest path_json no_base64 contents es /\ granted es p.
Proof.
  intros auth.
  set (a := (append (H := sum_lib) path_json no_base64 2 (drop 2 sample_contents) true
     (append (H := sum_lib) path_json no_base64 0 (take 2 sample_contents) false
       (Admission_new (H := sum_lib) auth 4)).1).1).
  assert (Ha : reachable (H := sum_lib) path_json no_base64 auth 4 a) by (do 2 apply reach_append; apply reach_new).
  eassert (Hp : permissions a = Ok _) by (vm_compute; reflexivity).
  eexists a, _. split; [exact Ha|]. split; [exact Hp|].
  exact (permissions_require_signed_manifest path_json no_base64 (H := sum_lib) auth 4
    (Hashing.blake3_streams (HashLaws := sum_laws)) a _ Ha Hp).
Defined.

(** ** Entries *)
Lemma validate_manifest_path_Ok path : validate_manifest_path path = Ok tt <-> path <> [] /\ path_safe path.
Proof.
  rewrite <- (validate_relative_path_Ok path tt). unfold validate_manifest_path, validate_relative_path.
  destruct path as [|b path]; [naive_solver|]. cbn [head].
  destruct (decide (b = slash)) as [->|Hb]; [rewrite bool_decide_eq_true_2 by done; naive_solver|].
  rewrite bool_decide_eq_false_2 by congruence. case_decide; [rewrite bool_decide_eq_true_2 by done; naive_solver|].
  rewrite !bool_decide_eq_false_2 by done. destruct (existsb _ _); naive_solver.
Qed.

Lemma wire_decode_Ok base64 w path : wire_decode base64 w = Ok path -> path <> [] /\ path_safe path.
Proof.
  intros (bytes & _ & ([] & Hv & [= <-])%result_bind_Ok)%result_bind_Ok. by apply validate_manifest_path_Ok.
Qed.

Lemma metadata_validate_Ok m : metadata_validate m = Ok tt ->
  (forall mode, md_mode m = Some mode -> mode <= 4095) /\
  md_uid m <> Some 4294967295 /\ md_gid m <> Some 4294967295 /\
  (forall ns, md_mtime_nsec m = Some ns -> ns <= 999999999 /\ is_Some (md_mtime m)).
Proof.
  intros ([] & Hm%require_Ok & ([] & Hu%require_Ok & ([] & Hg%require_Ok & ([] & Hn%require_Ok & Ht%require_Ok)
    %result_bind_Ok)%result_bind_Ok)%result_bind_Ok)%result_bind_Ok.
  apply bool_decide_eq_true in Hu, Hg. split_and!; [|done..|].
  - intros mode E. rewrite E in Hm. by apply bool_decide_eq_true in Hm.
  - intros ns E. rewrite E in Hn, Ht. apply bool_decide_eq_true in Hn. cbn in Ht. apply bool_decide_eq_true in Ht.
    split; [lia|done].
Qed.

(** The number of hexadecimal characters of a digest, and which they are. *)
Definition hex_length (a : HashAlgorithm) : nat := match a with Blake3 | Sha256 => 64 | Md5 | Xxh3 => 32 end.
Definition hex_character (b : Z) : Prop := 48 <= b <= 57 \/ 97 <= b <= 102 \/ 65 <= b <= 70.

Lemma Digest_validate_Ok h : Digest_validate h = Ok tt ->
  length (d_value h) = hex_length (d_algorithm h) /\ Forall hex_character (d_value h).
Proof.
  intros (d & Hd & _)%result_bind_Ok. unfold Digest_new in Hd.
  destruct (_ || _) eqn:E; [done|]. apply orb_false_iff in E as [El Ev].
  apply negb_false_iff in El, Ev. apply bool_decide_eq_true in El. split; [rewrite El; by destruct (d_algorithm h)|].
  apply Forall_forall. intros b Hb. rewrite forallb_forall in Ev.
  specialize (Ev b (proj1 (list_elem_of_In _ _) Hb)). unfold is_hexdigit, is_digit in Ev.
  rewrite !orb_true_iff, !bool_decide_eq_true in Ev. unfold hex_character. tauto.
Qed.

(** C40. Parsed entries are valid. Source and destination stay below their roots
    (relative, no empty, [.] or [..] component, no NUL). An explicit mode has
    permission bits only (at most 4095) and is not given for a symlink, an
    explicit owner or group is not the reserved id 4294967295, and
    nanoseconds are at most 999999999 and come with a time. An expected hash
    has exactly the hexadecimal characters of its algorithm and is only on
    what may be a regular file. *)
Theorem parsed_entry_valid from_json base64 text e : parse_manifest_entry from_json base64 text = Ok e ->
  (m_src e <> [] /\ path_safe (m_src e)) /\ (m_dst e <> [] /\ path_safe (m_dst e)) /\
  (forall m, m_metadata e = Some m ->
    (forall mode, md_mode m = Some mode -> mode <= 4095 /\ m_kind e <> Some DSymlink) /\
    md_uid m <> Some 4294967295 /\ md_gid m <> Some 4294967295 /\
    (forall ns, md_mtime_nsec m = Some ns -> ns <= 999999999 /\ is_Some (md_mtime m))) /\
  (forall h, m_expected_hash e = Some h ->
    length (d_value h) = hex_length (d_algorithm h) /\ Forall hex_character (d_value h) /\
    (m_kind e = None \/ m_kind e = Some DFile)).
Proof.
  unfold parse_manifest_entry. destruct (from_json text) as [w|]; [|done].
  intros (kind & Hk & (src & Hs & (dst & Hd & [= <-])%result_bind_Ok)%result_bind_Ok)%result_bind_Ok. cbn.
  apply wire_decode_Ok in Hs, Hd. split; [done|]. split; [done|].
  unfold wire_validate in Hk. apply result_bind_Ok in Hk as (k & _ & Hk).
  apply result_bind_Ok in Hk as ([] & Hm & Hk). apply result_bind_Ok in Hk as ([] & Hh & [= <-]). split.
  - intros m Em. rewrite Em in Hm. apply result_bind_Ok in Hm as ([] & (H1 & H2)%metadata_validate_Ok & Hm).
    split; [|done]. intros mode Emode. split; [by apply H1|]. intros ->.
    rewrite decide_True in Hm by done. apply require_Ok, bool_decide_eq_true in Hm. congruence.
  - intros h Eh. rewrite Eh in Hh. apply result_bind_Ok in Hh as ([] & [H1 H2]%Digest_validate_Ok & Hh).
    split_and!; [done..|]. apply require_Ok, negb_true_iff in Hh. destruct k as [[]|]; auto; done.
Qed.

(** A line that names a file with explicit attributes and an MD5. *)
Definition explicit_json (text : list Z) : option WireEntry :=
  let path := mkWirePath (bs "utf-8") text None in
  Some (mkWireEntry path path (Some (bs "file")) (Some (mkDigest Md5 (bs "d41d8cd98f00b204e9800998ecf8427e")))
    (Some (mkMetadata (Some 420) (Some 1000) None (Some 5) (Some 7))) None None None).

Lemma parsed_entry_valid_witness :
  exists e m h, parse_manifest_entry explicit_json no_base64 (bs "a/b") = Ok e /\ path_safe (m_dst e) /\
    m_metadata e = Some m /\ md_uid m <> Some 4294967295 /\
    m_expected_hash e = Some h /\ length (d_value h) = 32%nat /\ Forall hex_character (d_value h).
Proof.
  eassert (E : parse_manifest_entry explicit_json no_base64 (bs "a/b") = Ok _) by (vm_compute; reflexivity).
  destruct (parsed_entry_valid _ _ _ _ E) as (_ & Hd & Hm & Hh).
  eexists _, _, _. split; [exact E|]. split; [apply Hd|].
  split; [reflexivity|]. split; [by apply Hm|]. split; [reflexivity|].
  split; [by rewrite (proj1 (Hh _ eq_refl))|by apply Hh].
Defined.
