(* ===== verification/Grant.v ===== *)
(** * Grants (src/src/delegation.rs, paths of src/src/restricted/authority.rs)

    What an approved copy may do at its destination: the rules derived from its
    command, their validation, and how they speak about paths: the signed
    mutation scopes, the filter roots and the receiver's own protected paths.
    - Paths are absolute byte strings; [split_on slash] gives their components.
    - Gitignore matching is the [ignore] crate's: building a matcher and asking
      it are parameters. *)

From stdpp Require Import strings.
From S2P Require Import Prelude Text Proto Hashing Mapping.
Local Open Scope Z_scope.

Definition MAX_ENTRIES : Z := 1000000000000.
Definition MAX_COPY_BYTES : Z := i64_max.
Definition MAX_CONNECTIONS : Z := 128.
Definition MAX_FILTER_RULES : Z := 4096.
Definition MAX_FILTER_RULE_BYTES : Z := 4096.
Definition MAX_FILTER_ROOTS : Z := 1024.
Definition MAX_SOURCE_ROOTS : Z := 1024.
Definition MAX_MUTATION_SCOPES : Z := MAX_SOURCE_ROOTS + 1.
Definition MAX_LOGIN_BYTES : Z := 256.
Definition DEFAULT_MAX_RECORDS : Z := 4000000.
Definition DEFAULT_MAX_PLAINTEXT_BYTES : Z := 512 * 1024 * 1024.

(** ** The copy operation *)
Record MutationScope := mkScope { ms_path : PathBytes; ms_descendants : bool }.

Inductive DestinationPlacement := ExactPath | DirectoryContents | DirectoryAsChild.
Inductive ExistingDestinationPolicy := Replace | Skip | MustExist.
Inductive DeletionPolicy := Forbid | DeleteDestinationOnly.
Inductive PublicationPolicy := AtomicStaged | InPlaceNew | InPlaceUpdate.
Inductive RootExistence := RootAny | RootNew | RootExisting.
Inductive DirectoryWidening := WidenNone | WidenRsync | WidenAll.

#[export] Instance DestinationPlacement_eq_dec : EqDecision DestinationPlacement.
Proof. solve_decision. Defined.
#[export] Instance ExistingDestinationPolicy_eq_dec : EqDecision ExistingDestinationPolicy.
Proof. solve_decision. Defined.
#[export] Instance DeletionPolicy_eq_dec : EqDecision DeletionPolicy.
Proof. solve_decision. Defined.
#[export] Instance PublicationPolicy_eq_dec : EqDecision PublicationPolicy.
Proof. solve_decision. Defined.
#[export] Instance RootExistence_eq_dec : EqDecision RootExistence.
Proof. solve_decision. Defined.
#[export] Instance DirectoryWidening_eq_dec : EqDecision DirectoryWidening.
Proof. solve_decision. Defined.

Definition writes_new_files_in_place (p : PublicationPolicy) : bool := negb (bool_decide (p = AtomicStaged)).
Definition updates_existing_files_in_place (p : PublicationPolicy) : bool := bool_decide (p = InPlaceUpdate).

Record CopyPolicy := mkPolicy {
  cp_placement : DestinationPlacement;
  cp_existing : ExistingDestinationPolicy;
  cp_deletion : DeletionPolicy;
  cp_publication : PublicationPolicy
}.

Record CopyOptions := mkOptions {
  co_recursive : bool;
  co_preserve_symlinks : bool;
  co_preserve_permissions : bool;
  co_receiver_managed_modes : bool;
  co_preserve_times : bool;
  co_preserve_owner : bool;
  co_preserve_group : bool;
  co_preserve_devices : bool;
  co_compare_existing_by_content : bool;
  co_dry_run : bool;
  co_compressed_transport : bool;
  co_tcp_port_lo : Z;
  co_tcp_port_hi : Z
}.

Record CopyLimits := mkLimits {
  cl_max_entries : Z;
  cl_max_total_bytes : Z;
  cl_max_file_bytes : Z;
  cl_hash_block_bytes : Z;
  cl_max_connections : Z;
  cl_max_deletions : Z
}.

Record CopyOperation := mkCopy {
  c_destination : PathBytes;
  c_mutation_scopes : list MutationScope;
  c_policy : CopyPolicy;
  c_options : CopyOptions;
  c_limits : CopyLimits
}.

(** [b.starts_with(a) && b.get(a.len()) == Some(&b'/')]. *)
Definition strictly_below (path prefix : PathBytes) : bool :=
  match strip_prefix prefix path with Some (b :: _) => bool_decide (b = slash) | _ => false end.

Definition ends_with_slash (path : PathBytes) : bool := bool_decide (last path = Some slash).

Definition validate_absolute_path (path : PathBytes) : mres unit :=
  _ ← require (negb (bool_decide (path = []) || bool_decide (MAX_PATH_BYTES < Z.of_nat (length path)) ||
               negb (bool_decide (head path = Some slash)))) "destination must be a bounded absolute path"%string;
  _ ← require (negb (bool_decide (0 ∈ path))) "destination contains NUL"%string;
  if decide (path = [slash]) then Ok tt else
    _ ← require (negb (ends_with_slash path)) "destination has a noncanonical trailing slash"%string;
    require (negb (existsb unsafe_component (split_on slash (drop 1 path))))
      "destination has a noncanonical path component"%string.

Fixpoint validate_each {A} (f : A -> mres unit) (l : list A) : mres unit :=
  match l with [] => Ok tt | x :: l => _ ← f x; validate_each f l end.

Definition validate_scope (c : CopyOperation) (s : MutationScope) : mres unit :=
  _ ← validate_absolute_path (ms_path s);
  _ ← require (negb (ms_descendants s && negb (co_recursive (c_options c))))
        "nonrecursive copy cannot authorize descendant mutations"%string;
  require (bool_decide (ms_path s = c_destination c) || strictly_below (ms_path s) (c_destination c))
    "copy mutation scope is outside the requested destination"%string.

Definition CopyOperation_validate (c : CopyOperation) : mres unit :=
  let limits := c_limits c in
  let options := c_options c in
  _ ← validate_absolute_path (c_destination c);
  _ ← require (negb (bool_decide (c_mutation_scopes c = []) ||
                     bool_decide (MAX_MUTATION_SCOPES < Z.of_nat (length (c_mutation_scopes c)))))
        "copy mutation-scope count is outside the supported range"%string;
  _ ← validate_each (validate_scope c) (c_mutation_scopes c);
  _ ← require (negb (bool_decide (cl_max_entries limits = 0) || bool_decide (MAX_ENTRIES < cl_max_entries limits)))
        "copy max-entries is outside the supported range"%string;
  _ ← require (negb (bool_decide (cl_max_total_bytes limits = 0) || bool_decide (MAX_COPY_BYTES < cl_max_total_bytes limits)))
        "copy byte limits are outside the supported range"%string;
  _ ← require (negb (bool_decide (cl_max_total_bytes limits < cl_max_file_bytes limits)))
        "copy max-file-bytes exceeds max-total-bytes"%string;
  _ ← require (negb (eqb (co_preserve_permissions options) (co_receiver_managed_modes options)))
        "copy must authorize exactly one of source-mode preservation or receiver-managed modes"%string;
  _ ← require (hash_response_fits (cl_hash_block_bytes limits) 0) "copy hash block size is outside protocol limits"%string;
  _ ← require (negb (bool_decide (cl_max_connections limits = 0) || bool_decide (MAX_CONNECTIONS < cl_max_connections limits)))
        "copy max-connections is outside the supported range"%string;
  _ ← require (negb (bool_decide (co_tcp_port_hi options < co_tcp_port_lo options))) "copy TCP port range is reversed"%string;
  match cp_deletion (c_policy c) with
  | Forbid => require (bool_decide (cl_max_deletions limits = 0)) "copy forbids deletion but has a nonzero deletion limit"%string
  | DeleteDestinationOnly =>
      require (negb (bool_decide (cl_max_deletions limits = 0) || bool_decide (cl_max_entries limits < cl_max_deletions limits)))
        "copy deletion limit is outside the supported range"%string
  end.

(** [validate_identity]; control characters of account names are ASCII or the
    two-byte C1 range. *)
Fixpoint has_control (l : list Z) : bool :=
  match l with
  | [] => false
  | 194 :: b :: l' => within 128 159 b || has_control l'
  | b :: l' => bool_decide (b < 32) || bool_decide (b = 127) || has_control l'
  end.

Definition validate_identity (value : list Z) : mres unit :=
  _ ← require (negb (bool_decide (value = []) || bool_decide (MAX_LOGIN_BYTES < Z.of_nat (length value))))
        "name's length is outside the supported range"%string;
  require (negb (has_control value || bool_decide (slash ∈ value))) "name contains a forbidden character"%string.

(** ** Inode metadata *)
Record Selection := mkSelection {
  sel_acls : bool; sel_xattrs : bool; sel_atimes : bool; sel_crtimes : bool; sel_open_noatime : bool
}.

Record ExtraCopyOptions := mkExtra {
  eo_hardlinks : bool;
  eo_acls : bool;
  eo_xattrs : bool;
  eo_atimes : bool;
  eo_crtimes : bool;
  eo_sparse : bool;
  eo_open_noatime : bool;
  eo_widen_dirs : DirectoryWidening;
  eo_keep_files : bool;
  eo_follow_dst : bool
}.

Definition extra_allows (o : ExtraCopyOptions) (s : Selection) : bool :=
  (negb (sel_acls s) || eo_acls o) && (negb (sel_xattrs s) || eo_xattrs o) &&
  (negb (sel_atimes s) || eo_atimes o) && (negb (sel_crtimes s) || eo_crtimes o) &&
  (negb (sel_open_noatime s) || eo_open_noatime o).

(** ** Filters *)
Record FilterPolicy := mkFilter { fp_ignore : list (list Z); fp_destination_roots : list PathBytes; fp_delete_excluded : bool }.

(** Byte strings in order. *)
Fixpoint bytes_lt (a b : list Z) : bool :=
  match a, b with
  | [], [] => false
  | [], _ :: _ => true
  | _ :: _, [] => false
  | x :: a, y :: b => bool_decide (x < y) || (bool_decide (x = y) && bytes_lt a b)
  end.

Fixpoint insert_root (r : PathBytes) (l : list PathBytes) : list PathBytes :=
  match l with [] => [r] | x :: l' => if bytes_lt x r then x :: insert_root r l' else r :: l end.
Definition sort_roots (l : list PathBytes) : list PathBytes := foldr insert_root [] l.

Fixpoint dedup_roots (l : list PathBytes) : list PathBytes :=
  match l with
  | [] => []
  | x :: l' => match l' with
               | y :: _ => if decide (x = y) then dedup_roots l' else x :: dedup_roots l'
               | [] => [x]
               end
  end.

Definition FilterPolicy_normalize (f : FilterPolicy) : FilterPolicy :=
  match fp_ignore f with
  | [] => mkFilter [] [] false
  | _ => mkFilter (fp_ignore f) (dedup_roots (sort_roots (fp_destination_roots f))) (fp_delete_excluded f)
  end.

Fixpoint strictly_sorted (l : list PathBytes) : bool :=
  match l with
  | x :: ((y :: _) as l') => bytes_lt x y && strictly_sorted l'
  | _ => true
  end.

(** [str::trim().is_empty()]: only Unicode white space. *)
Fixpoint blank (l : list Z) : bool :=
  match l with
  | [] => true
  | 194 :: b :: l' => (bool_decide (b = 133) || bool_decide (b = 160)) && blank l'
  | 225 :: 154 :: 128 :: l' => blank l'
  | 226 :: 128 :: b :: l' => (within 128 138 b || within 168 169 b || bool_decide (b = 175)) && blank l'
  | 226 :: 129 :: 159 :: l' => blank l'
  | 227 :: 128 :: 128 :: l' => blank l'
  | b :: l' => (within 9 13 b || bool_decide (b = 32)) && blank l'
  end.

Section Ignore.
Context {Gitignore : Type} (gitignore_build : list (list Z) -> option Gitignore).

Definition build_ignore (lines : list (list Z)) : mres (option Gitignore) :=
  if forallb blank lines then Ok None
  else m ← from_option_err "bad ignore pattern"%string (gitignore_build lines); Ok (Some m).

(** Whether a scope covers a path: [RestrictedAuthority::scope_allows]. *)
Definition scope_allows (s : MutationScope) (path : PathBytes) : bool :=
  bool_decide (path = ms_path s) || (ms_descendants s && strictly_below path (ms_path s)).

Definition FilterPolicy_validate (f : FilterPolicy) (c : CopyOperation) : mres unit :=
  _ ← require (negb (bool_decide (MAX_FILTER_RULES < Z.of_nat (length (fp_ignore f)))))
        "filter-rule count exceeds the supported range"%string;
  _ ← validate_each (fun rule => require (negb (bool_decide (MAX_FILTER_RULE_BYTES < Z.of_nat (length rule)) || bool_decide (0 ∈ rule)))
                                   "filter rule is outside the supported range"%string) (fp_ignore f);
  _ ← build_ignore (fp_ignore f);
  match fp_ignore f with
  | [] => require (bool_decide (fp_destination_roots f = [])) "filter roots require filter rules"%string
  | _ =>
      _ ← require (negb (bool_decide (fp_destination_roots f = []) ||
                         bool_decide (MAX_FILTER_ROOTS < Z.of_nat (length (fp_destination_roots f)))))
            "filter-root count is outside the supported range"%string;
      _ ← validate_each (fun root =>
            _ ← validate_absolute_path root;
            require (existsb (fun s => scope_allows s root) (c_mutation_scopes c))
              "filter root is outside the destination mutation scopes"%string) (fp_destination_roots f);
      require (strictly_sorted (fp_destination_roots f)) "filter roots must be sorted and unique"%string
  end.

(** ** Constraints *)
Inductive ReceiptDelivery := AttachedEncrypted (recipient_public_key : list Z) | DetachedSignedPlaintext.
Record ReceiptPolicy := mkReceipt {
  rp_required : bool; rp_hashed : bool; rp_max_records : Z; rp_max_plaintext_bytes : Z; rp_delivery : ReceiptDelivery
}.

Definition ReceiptPolicy_validate (p : ReceiptPolicy) : mres unit :=
  _ ← require (rp_required p) "receipt policy must require a receipt"%string;
  _ ← require (negb (bool_decide (rp_max_records p = 0) || bool_decide (DEFAULT_MAX_RECORDS < rp_max_records p)))
        "receipt record limit is outside the supported range"%string;
  _ ← require (negb (bool_decide (rp_max_plaintext_bytes p = 0) ||
                     bool_decide (DEFAULT_MAX_PLAINTEXT_BYTES < rp_max_plaintext_bytes p)))
        "receipt byte limit is outside the supported range"%string;
  match rp_delivery p with
  | AttachedEncrypted key => require (negb (forallb (fun b => bool_decide (b = 0)) key)) "receipt recipient public key must be nonzero"%string
  | DetachedSignedPlaintext => Ok tt
  end.

Definition parse_tcp_congestion (value : list Z) : mres (list Z) :=
  _ ← require (negb (bool_decide (value = []))) "congestion-control algorithm cannot be empty"%string;
  _ ← require (negb (bool_decide (16 <= Z.of_nat (length value)))) "congestion-control algorithm must be at most 15 bytes"%string;
  Ok value.

Record CopyHashing := mkCopyHashing { ch_policy : HashPolicy; ch_expected_hash : option Digest }.

Record GrantConstraints := mkConstraints {
  gc_max_file_data_bytes_per_second : Z;
  gc_filters : FilterPolicy;
  gc_root_existence : RootExistence;
  gc_receipt_policy : ReceiptPolicy;
  gc_tcp_congestion : option (list Z);
  gc_mapping : option Authorization;
  gc_hashing : option CopyHashing;
  gc_extra_options : ExtraCopyOptions
}.

Definition set_filters (f : FilterPolicy) (g : GrantConstraints) : GrantConstraints :=
  mkConstraints (gc_max_file_data_bytes_per_second g) f (gc_root_existence g) (gc_receipt_policy g) (gc_tcp_congestion g)
    (gc_mapping g) (gc_hashing g) (gc_extra_options g).

(** The constraints with their filters normalized, or an error. *)
Definition validate_rules (c : CopyOperation) (g : GrantConstraints) : mres GrantConstraints :=
  _ ← CopyOperation_validate c;
  let g := set_filters (FilterPolicy_normalize (gc_filters g)) g in
  _ ← FilterPolicy_validate (gc_filters g) c;
  _ ← ReceiptPolicy_validate (gc_receipt_policy g);
  _ ← match gc_tcp_congestion g with Some a => _ ← parse_tcp_congestion a; Ok tt | None => Ok tt end;
  _ ← match gc_hashing g ≫= ch_expected_hash with Some d => Digest_validate d | None => Ok tt end;
  _ ← require (negb (bool_decide (is_Some (gc_mapping g)) && negb (bool_decide (cp_deletion (c_policy c) = Forbid))))
        "mapping authorization does not permit pruning"%string;
  _ ← require (negb (eo_acls (gc_extra_options g) && negb (co_preserve_permissions (c_options c))))
        "ACL preservation requires permission preservation"%string;
  Ok g.
End Ignore.

(** ** The receiver's protected paths *)
Record ReceiverControlPath := mkControl { rc_path : PathBytes; rc_label : list Z }.

Definition path_is_at_or_below (path prefix : PathBytes) : bool :=
  bool_decide (path = prefix) ||
  match strip_prefix prefix path with
  | Some rest => bool_decide (prefix = [slash]) || bool_decide (head rest = Some slash)
  | None => false
  end.

Definition reject_control_plane_path (path : PathBytes) (protected : list ReceiverControlPath) : mres unit :=
  validate_each (fun control =>
    _ ← require (negb (path_is_at_or_below path (rc_path control)))
          "restricted destination is the receiver's protected path or lies inside it; choose another destination"%string;
    require (negb (path_is_at_or_below (rc_path control) path))
      "restricted destination holds the receiver's protected path, which this copy could change"%string) protected.

Definition reject_control_plane_scope (path : PathBytes) (descendants : bool) (protected : list ReceiverControlPath)
  : mres unit :=
  if descendants then reject_control_plane_path path protected
  else require (negb (existsb (fun control => path_is_at_or_below path (rc_path control)) protected))
         "restricted destination is the receiver's protected path or lies inside it; choose another destination"%string.

Definition reject_control_plane_scopes (c : CopyOperation) (protected : list ReceiverControlPath) : mres unit :=
  validate_each (fun s => reject_control_plane_scope (ms_path s) (ms_descendants s) protected) (c_mutation_scopes c).

Definition destination_has_descendants (c : CopyOperation) : bool :=
  existsb (fun s => bool_decide (ms_path s = c_destination c) && ms_descendants s) (c_mutation_scopes c).
