(* ===== verification/Lookups.v ===== *)
(** * What a restricted receiver found for its planner (src/src/fsops/lookups.rs)

    The names a receiver looked up, kept so that a publication can be held to
    the grant without looking again.
    - The process's random hash of a name is a parameter.
    - Looking a name up on the filesystem is not modelled; what the lookup
      records is. *)

From S2P Require Import Prelude Text Proto Hashing Mapping.
Local Open Scope Z_scope.

Definition MAX_NAMES : Z := 2 ^ 22 / 8 * 7.

Inductive Looked := LkAbsent | LkPresent (file_mode : option Z) | LkEmpty | LkClaimed.
Inductive Recording := RecKeep | RecExisting.
Inductive Claim := ClaimAbsent | ClaimPresent | ClaimUnknown.

Record PlanningLookups := mkLookups { lo_recording : Recording; lo_limit : Z; lo_names : gmap Z Looked }.

Definition Lookups_with_limit (r : Recording) (limit : Z) : PlanningLookups := mkLookups r limit ∅.

Definition set_names (m : gmap Z Looked) (l : PlanningLookups) : PlanningLookups :=
  mkLookups (lo_recording l) (lo_limit l) m.

(** What [look_up] records of what it found, [None] for a lookup that failed. *)
Definition looked_of (r : Recording) (found : option (option (Kind * Z))) : option Looked :=
  match found, r with
  | Some None, RecKeep => Some LkAbsent
  | Some (Some (kind, mode)), RecKeep => Some (LkPresent (if decide (kind = File) then Some (Z.land mode 4095) else None))
  | Some (Some (kind, mode)), RecExisting => if decide (kind = File) then Some (LkPresent (Some (Z.land mode 4095))) else None
  | _, _ => None
  end.

Section Names.
Context (key : PathBytes -> Z).

Definition full (l : PlanningLookups) : bool := bool_decide (lo_limit l <= Z.of_nat (size (lo_names l))).

Definition lookups_record (relative : PathBytes) (looked : Looked) (l : PlanningLookups) : PlanningLookups :=
  match lo_names l !! key relative with
  | Some LkClaimed | Some LkEmpty => l
  | Some _ => set_names (<[key relative := looked]> (lo_names l)) l
  | None => if full l then l else set_names (<[key relative := looked]> (lo_names l)) l
  end.

Definition lookups_get (relative : PathBytes) (l : PlanningLookups) : option Looked := lo_names l !! key relative.

(** The loop over the directories above, nearest first, the root last. *)
Fixpoint claim_above (k : Z) (above : list PathBytes) (l : PlanningLookups) : Claim * PlanningLookups :=
  match above with
  | [] => (ClaimUnknown, l)
  | a :: above =>
      match lo_names l !! key a with
      | Some LkAbsent | Some LkEmpty =>
          if full l then (ClaimUnknown, l) else (ClaimAbsent, set_names (<[k := LkClaimed]> (lo_names l)) l)
      | Some _ => (ClaimUnknown, l)
      | None => claim_above k above l
      end
  end.

Definition lookups_claim (relative : PathBytes) (l : PlanningLookups) : Claim * PlanningLookups :=
  let k := key relative in
  match lo_names l !! k with
  | Some LkAbsent => (ClaimAbsent, set_names (<[k := LkClaimed]> (lo_names l)) l)
  | Some (LkPresent _) => (ClaimPresent, l)
  | Some LkClaimed | Some LkEmpty => (ClaimUnknown, l)
  | None =>
      if decide (lo_names l = ∅) then (ClaimUnknown, l)
      else claim_above k (reverse (ancestors relative) ++ [[]]) l
  end.

Definition lookups_forget (relative : PathBytes) (l : PlanningLookups) : PlanningLookups :=
  set_names (delete (key relative) (lo_names l)) l.
End Names.

(** ** Claims *)
Inductive LookupOp := LoRecord (relative : PathBytes) (looked : Looked) | LoClaim (relative : PathBytes) | LoForget (relative : PathBytes).

Section Claims.
Context (key : PathBytes -> Z).

Definition lookup_step (l : PlanningLookups) (op : LookupOp) : PlanningLookups :=
  match op with
  | LoRecord relative looked => lookups_record key relative looked l
  | LoClaim relative => (lookups_claim key relative l).2
  | LoForget relative => lookups_forget key relative l
  end.

Definition forgets (k : Z) (op : LookupOp) : bool := match op with LoForget relative => bool_decide (key relative = k) | _ => false end.

(** What a claim does: nothing, or marks the name. *)
Lemma claim_above_spec k above l : claim_above key k above l = (ClaimUnknown, l) \/
  claim_above key k above l = (ClaimAbsent, set_names (<[k := LkClaimed]> (lo_names l)) l) /\ full l = false.
Proof.
  induction above as [|a above IH]; cbn; [by left|]. destruct (lo_names l !! key a) as [[]|]; auto; destruct (full l); auto.
Qed.

Lemma lookups_claim_spec relative l :
  let names := <[key relative := LkClaimed]> (lo_names l) in
  (exists c, c <> ClaimAbsent /\ lookups_claim key relative l = (c, l)) \/
  lookups_claim key relative l = (ClaimAbsent, set_names names l) /\ lo_names l !! key relative <> Some LkClaimed /\
    (is_Some (lo_names l !! key relative) \/ full l = false).
Proof.
  cbn zeta. unfold lookups_claim. destruct (lo_names l !! key relative) as [[]|] eqn:E; cbn zeta.
  - right. split; [done|]. split; [done|by left].
  - left. eexists. by split; [|reflexivity].
  - left. eexists. by split; [|reflexivity].
  - left. eexists. by split; [|reflexivity].
  - case_decide; [left; eexists; by split; [|reflexivity]|].
    destruct (claim_above_spec (key relative) (reverse (ancestors relative) ++ [[]]) l) as [->|[-> Hf]]; [left; eexists; by split; [|reflexivity]|]. right. auto.
Qed.

Lemma claimed_stays op k l : forgets k op = false -> lo_names l !! k = Some LkClaimed -> lo_names (lookup_step l op) !! k = Some LkClaimed.
Proof.
  intros Hf Hk. destruct op as [relative looked|relative|relative]; cbn.
  - unfold lookups_record. destruct (decide (key relative = k)) as [<-|Hn]; [by rewrite Hk|].
    repeat case_match; cbn; rewrite ?lookup_insert_ne by done; done.
  - destruct (lookups_claim_spec relative l) as [(c & _ & ->)|[-> _]]; [done|]. cbn.
    destruct (decide (key relative = k)) as [<-|Hn]; [by rewrite lookup_insert_eq|by rewrite lookup_insert_ne].
  - cbn in Hf. apply bool_decide_eq_false in Hf. by rewrite lookup_delete_ne.
Qed.

(** A name is given to one publication at most: once a claim found it absent,
    no other claim does, whatever is looked up and claimed in between, until it is
    forgotten. *)
Theorem a_name_is_claimed_once relative relative' ops l l' :
  lookups_claim key relative l = (ClaimAbsent, l') -> key relative' = key relative ->
  Forall (fun op => forgets (key relative) op = false) ops ->
  lookups_claim key relative' (foldl lookup_step l' ops) = (ClaimUnknown, foldl lookup_step l' ops).
Proof.
  intros Hc Hk Hops. assert (Hl' : lo_names l' !! key relative = Some LkClaimed).
  { destruct (lookups_claim_spec relative l) as [(c & Hn & E)|[E _]]; rewrite Hc in E; [congruence|]. injection E as ->. apply lookup_insert_eq. }
  assert (Hend : lo_names (foldl lookup_step l' ops) !! key relative = Some LkClaimed).
  { clear Hc. revert l' Hl'. induction Hops as [|op ops Hop _ IH]; intros l' Hl'; [done|]. by apply IH, claimed_stays. }
  unfold lookups_claim. by rewrite Hk, Hend.
Qed.

(** No more names are kept than the limit, whatever is done. *)
Theorem lookups_within_limit r limit ops : 0 <= limit ->
  Z.of_nat (size (lo_names (foldl lookup_step (Lookups_with_limit r limit) ops))) <= limit.
Proof.
  intros Hl. change limit with (lo_limit (Lookups_with_limit r limit)) at 2.
  assert (H0 : Z.of_nat (size (lo_names (Lookups_with_limit r limit))) <= lo_limit (Lookups_with_limit r limit)) by (cbn; rewrite map_size_empty; lia).
  clear Hl. revert H0. generalize (Lookups_with_limit r limit) as l. induction ops as [|op ops IH]; intros l Hl; [done|]. cbn.
  assert (Hlim : lo_limit (lookup_step l op) = lo_limit l /\ Z.of_nat (size (lo_names (lookup_step l op))) <= lo_limit l).
  { destruct op as [relative looked|relative|relative]; cbn.
    - unfold lookups_record, full. destruct (lo_names l !! key relative) as [[]|] eqn:E; cbn; try done;
        try (rewrite map_size_insert_Some by done; done). case_bool_decide; cbn; [done|]. rewrite map_size_insert_None by done. lia.
    - destruct (lookups_claim_spec relative l) as [(c & _ & ->)|(-> & _ & Hin)]; [done|]. cbn. split; [done|].
      destruct (lo_names l !! key relative) eqn:E; [by rewrite map_size_insert_Some by done|]. rewrite map_size_insert_None by done.
      destruct Hin as [[? ?]|Hf]; [congruence|]. unfold full in Hf. apply bool_decide_eq_false in Hf. lia.
    - split; [done|]. destruct (lo_names l !! key relative) eqn:E; [|by rewrite delete_id].
      rewrite map_size_delete_Some by eauto. lia. }
  destruct Hlim as [E Hle]. rewrite <- E. apply IH. by rewrite E.
Qed.
End Claims.

(** ** On a directory found empty *)
Definition sample_lookups : PlanningLookups := mkLookups RecKeep 10 {[0 := LkAbsent]}.
Definition byte_key (path : PathBytes) : Z := foldl (fun h b => h * 257 + b) 0 path.

Lemma a_name_is_claimed_once_witness :
  exists l', lookups_claim byte_key [97] sample_lookups = (ClaimAbsent, l') /\
    lookups_claim byte_key [97] (foldl (lookup_step byte_key) l' [LoRecord [97] LkAbsent; LoClaim [98]]) =
    (ClaimUnknown, foldl (lookup_step byte_key) l' [LoRecord [97] LkAbsent; LoClaim [98]]).
Proof.
  destruct (lookups_claim byte_key [97] sample_lookups) as [c l'] eqn:E. assert (Ec : (lookups_claim byte_key [97] sample_lookups).1 = ClaimAbsent)
    by (vm_compute; reflexivity). rewrite E in Ec. cbn in Ec. subst c. exists l'. split; [reflexivity|].
  apply (a_name_is_claimed_once byte_key [97] [97] [LoRecord [97] LkAbsent; LoClaim [98]] sample_lookups l' E eq_refl).
  repeat constructor.
Defined.

Lemma lookups_within_limit_witness :
  Z.of_nat (size (lo_names (foldl (lookup_step byte_key) (Lookups_with_limit RecKeep 1) [LoRecord [97] LkAbsent; LoRecord [98] LkAbsent]))) <= 1.
Proof. apply (lookups_within_limit byte_key RecKeep 1 [LoRecord [97] LkAbsent; LoRecord [98] LkAbsent]). lia. Defined.
