(* ===== verification/AuthData.v ===== *)
(** * The data of a restricted receiver's authority

    (src/src/restricted/authority.rs, and the requests and replies it reads from
    src/src/proto.rs)

    - A request or reply keeps the fields that authorization and settlement read
      or rewrite; replies they treat alike are one constructor.
    - Byte payloads that only matter by their length are byte lists; digests of
      payloads and other carried values are left out.
    - [CopyId] is an opaque number. *)

From stdpp Require Import strings.
From S2P Require Import Prelude Text Diagnostic Proto Hashing Mapping Grant Lookups.
Local Open Scope Z_scope.

#[export] Instance TargetCondition_eq_dec : EqDecision TargetCondition.
Proof. solve_decision. Defined.
#[export] Instance HashPolicy_eq_dec : EqDecision HashPolicy.
Proof. solve_decision. Defined.

Abbreviation CopyId := Z.
Abbreviation FileKey := (PathBytes * CopyId)%type.

(** ** Metadata found beneath the root *)
Record RootMetadata := mkRootMetadata { rm_dev : Z; rm_ino : Z; rm_mode : Z; rm_ctime : Z; rm_ctime_nsec : Z }.

Definition S_IFMT : Z := 61440.
Definition S_IFDIR : Z := 16384.
Definition S_IFREG : Z := 32768.
Definition S_IFLNK : Z := 40960.
Definition S_IFIFO : Z := 4096.
Definition S_IFSOCK : Z := 49152.
Definition S_IFCHR : Z := 8192.
Definition S_IFBLK : Z := 24576.

Definition rm_is_dir (m : RootMetadata) : bool := bool_decide (Z.land (rm_mode m) S_IFMT = S_IFDIR).

Definition kind_from_mode (mode : Z) : Kind :=
  let kind := Z.land mode S_IFMT in
  if decide (kind = S_IFDIR) then Dir else if decide (kind = S_IFREG) then File
  else if decide (kind = S_IFLNK) then Symlink else if decide (kind = S_IFIFO) then Fifo
  else if decide (kind = S_IFSOCK) then Socket else if decide (kind = S_IFCHR) then CharDev
  else if decide (kind = S_IFBLK) then BlockDev else Other.

(** [flags::RECEIVER_MODE] and the masks made of it. *)
Definition RECEIVER_MODE : Z := 16.
Definition MODE_MASK : Z := Z.lor MODE RECEIVER_MODE.
Definition REPORT_IDENTITY : Z := 128.

(** ** Operations and requests *)
Inductive Op :=
| OpMkdir (path : PathBytes) (mode : Z) (condition : TargetCondition)
| OpSymlink (path target : PathBytes) (condition : TargetCondition) (meta : Meta) (flags : Z)
| OpMknod (path : PathBytes) (mode rdev : Z) (condition : TargetCondition) (meta : Meta) (flags : Z)
| OpSetMeta (path : PathBytes) (meta : Meta) (flags : Z) (condition : TargetCondition) (directory : bool)
| OpSetFileMetaIfSame (path : PathBytes) (condition : TargetCondition) (meta : Meta) (flags : Z)
| OpHardlink (path source : PathBytes) (dev ino : Z) (condition : TargetCondition)
| OpRemove (path : PathBytes)
| OpRmdir (path : PathBytes)
| OpUnlink (path : PathBytes).

Definition op_path (op : Op) : PathBytes :=
  match op with
  | OpMkdir p _ _ | OpSymlink p _ _ _ _ | OpMknod p _ _ _ _ _ | OpSetMeta p _ _ _ _ | OpSetFileMetaIfSame p _ _ _
  | OpHardlink p _ _ _ _ | OpRemove p | OpRmdir p | OpUnlink p => p
  end.

Record SmallPut := mkSmallPut {
  sp_path : PathBytes; sp_copy_id : CopyId; sp_data : list Z; sp_meta : Meta; sp_flags : Z; sp_inplace : bool;
  sp_condition : TargetCondition; sp_scanned : ScannedDestination
}.

(** [pa_reuse]: whether each block is reused. *)
Record SmallPatch := mkSmallPatch {
  pa_path : PathBytes; pa_copy_id : CopyId; pa_len : Z; pa_block : Z; pa_reuse : list bool; pa_data : list Z;
  pa_meta : Meta; pa_flags : Z; pa_unchanged_flags : Z; pa_condition : TargetCondition; pa_update_in_place : bool
}.

Definition new_bytes (p : SmallPatch) : Z :=
  foldl saturating_add 0
    (imap (fun i reuse => if reuse : bool then 0
             else Z.min (pa_block p) (saturating_sub (pa_len p) (saturating_mul (Z.of_nat i) (pa_block p)))) (pa_reuse p)).

Record SmallCopyFile := mkSmallCopyFile { sc_path : PathBytes; sc_size : Z; sc_meta : Meta }.
Record SmallCopyRequest := mkSmallCopy {
  sr_matching_flags : Z; sr_hash_policy : HashPolicy; sr_directory : PathBytes; sr_flags : Z; sr_files : list SmallCopyFile
}.
Record SmallCopyPayload := mkPayload { sy_index : nat; sy_data : list Z }.

Inductive OperatorSymlinkPolicy := SymlinkRefuse | SymlinkFollow.

Inductive Request :=
| RqHello
| RqTcpListen (key : option (list Z)) (token : list Z) (port_lo port_hi : Z) (congestion_control : option (list Z)) (send_rate : option Z)
| RqScan (root : PathBytes) (source follow_root : bool) (ignore : list (list Z))
| RqListDir | RqListDirDetails | RqListDirNoFollowFinal
| RqNativeRemove
| RqStatMany (paths : list PathBytes) (sources follow : bool)
| RqCheckOperatorDirectory | RqCheckOperatorDirectoryAncestry | RqCheckOperatorDirectoryAncestryWithAccess
| RqCheckSearchableOperatorDirectory | RqRegisterSourceRoots | RqCreateOperatorDirectory | RqAnchorDestination
| RqDestinationFilesystemInfo (check_empty : bool) (target : option (PathBytes * Z * Z))
| RqPartialPaths (paths : list PathBytes)
| RqApply (ops : list Op)
| RqPlanBatch (partial_paths directories others : list PathBytes)
| RqProbePartial (path : PathBytes)
| RqPrepare (path : PathBytes) (size : Z) (inplace : bool) (copy_id : CopyId) (mode flags : Z) (scanned : ScannedDestination)
            (create_if_missing : bool) (update : option (Meta * Z))
| RqHashAndHold (path : PathBytes) (block len : Z)
| RqFinishBasis (expected_hash : option ExpectedHashes) (path : PathBytes) (meta : Meta) (flags : Z) (condition : TargetCondition)
| RqSeedBasis (path : PathBytes) (copy_id : CopyId) (len block : Z)
| RqCopyLocal
| RqHashBlocks (path : PathBytes) (source : bool) (block len : Z)
| RqReadRange | RqReadComparedRange | RqReadStream | RqShrinkReadStream | RqStopReadStream | RqReadSmallBatch | RqReadDifferingBatch
| RqWriteRange (path : PathBytes) (inplace : bool) (copy_id : CopyId) (off : Z) (data : list Z)
| RqFinalize (expected_hash : option ExpectedHashes) (path : PathBytes) (inplace : bool) (copy_id : CopyId) (meta : Meta) (flags : Z)
             (scanned : ScannedDestination) (condition : TargetCondition)
| RqPutSmallBatch (puts : list SmallPut)
| RqFileHash (path : PathBytes) (source : bool)
| RqCanonicalize (path : PathBytes)
| RqTransportStats
| RqDestinationResults (records : bool)
| RqFinishDestinationResults
| RqShutdown
| RqCopySmallFiles (payloads : list SmallCopyPayload)
| RqWriteStreamFence
| RqMappingChunk (offset : Z) (data : list Z) (finish : bool)
| RqPruneLookup (paths : list PathBytes)
| RqConfigureHashing (policy : HashPolicy)
| RqValidateDigest (path : PathBytes) (expected : ExpectedHashes)
| RqDescriptorCopy | RqBindStream
| RqConfigurePreservation (selection : Selection) (sparse narrow_new_directories unchecked_keep : bool)
| RqNativeMap
| RqPrepareSmallFiles (request : SmallCopyRequest)
| RqStageBasis (path : PathBytes) (copy_id : CopyId) (len block : Z)
| RqHashWindow (path : PathBytes) (off len block : Z)
| RqReuseComparedRange (path : PathBytes) (copy_id : CopyId) (off len : Z)
| RqCreateSendBudget
| RqHashExistingBatch (block : Z) (files : list (PathBytes * Z))
| RqPatchSmallBatch (patches : list SmallPatch)
| RqPatchBegin (patch : SmallPatch) (data_len : Z)
| RqPatchData (data : list Z)
| RqPatchEnd
| RqWidenDirectories (directories : list (PathBytes * TargetCondition)) (remember : bool) (access : Z)
| RqReceiverUser
| RqPrepareDestinationPath (path : PathBytes) (symlink_policy : OperatorSymlinkPolicy)
| RqRestoreDestinationPath
| RqNewFileOwner (path : PathBytes) (probe : bool).

(** ** Replies *)
Inductive WireIoKind :=
| WkNotFound | WkPermissionDenied | WkAlreadyExists | WkInvalidInput | WkNoSpace | WkQuotaExceeded | WkReadOnly | WkOther
| WkOwnedDirectoryPermissions | WkReplaceRequired (reason : ReplaceReason) | WkCorruptedInTransit.

Record WireError := mkWireError {
  we_message : list Z;
  we_io_kind : option WireIoKind;
  we_raw_os_error : option Z;
  we_condition_not_met : bool;
  we_unchanged : bool
}.

(** [From<String>]. *)
Definition WireError_from (message : list Z) : WireError := mkWireError message None None false false.

Definition is_condition_not_met_wire (e : WireError) : bool := we_condition_not_met e.
Definition is_unchanged_wire (e : WireError) : bool := we_unchanged e || we_condition_not_met e.
Definition replace_reason_wire (e : WireError) : option ReplaceReason :=
  match we_io_kind e with Some (WkReplaceRequired reason) => Some reason | _ => None end.
Definition is_replace_required_wire (e : WireError) : bool := bool_decide (is_Some (replace_reason_wire e)).
Definition failure_class (e : WireError) : list Z :=
  match we_io_kind e with Some WkCorruptedInTransit => bs "integrity" | _ => bs "io" end.

Record SmallPatchError := mkPatchError { pe_error : WireError; pe_matched : bool; pe_stale_condition : bool; pe_written : bool }.
Definition retried (e : SmallPatchError) : bool := negb (pe_matched e) && negb (pe_written e).

Inductive SmallCopyDisposition := Copied | QuickChecked | ContentMatched | Excluded.
Record SmallCopyFileResult := mkFileResult { fr_disposition : SmallCopyDisposition; fr_error : option WireError; fr_repaired : bool }.
Inductive SmallCopyOutcome :=
| ScPublished (results : list SmallCopyFileResult)
| ScUnsupportedTarget | ScCapacityShort | ScStagingFailed (e : WireError) | ScNeedsBlockReuse.

(** [RsPatchedBatch]: a success says whether the file was kept. *)
Inductive Response :=
| RsErr (message : list Z)
| RsEndpointError (e : WireError)
| RsWidenedDirectories (results : list (result WireError unit))
| RsApplied (results : list (option WireError))
| RsPatchedBatch (results : list (result SmallPatchError bool))
| RsPublishedBatch (results : list (result WireError unit))
| RsSmallFilesCopied (outcome : SmallCopyOutcome)
| RsSmallFilesPrepared (needed : list bool)
| RsPrepared (partial_size : option Z) (has_candidates : bool)
| RsOther.

(** ** Results for the invoking machine *)
Inductive Change :=
| PublishFile (size : Z) | LinkFile | EnsureDirectory | CreateSymlink | CreateSpecial | SetMetadata (kind : Kind) | KeepFile
| DeleteNonDirectory | DeleteDirectory.

#[export] Instance Change_eq_dec : EqDecision Change.
Proof. solve_decision. Defined.

(** A failure the executor reported. *)
Definition Failure_of (e : WireError) : Failure := mkFailure (we_message e) (failure_class e).

(** What the authority tells the results stream. *)
Inductive ResultEvent :=
| EvRecord (c : Change) (dst : option PathBytes) (error : option Failure)
| EvRetried (c : Change) (dst : option PathBytes) (error : Failure)
| EvRefused (error : string) (changes : list (option PathBytes * Change))
| EvFinish (transferred_bytes : Z).

(** ** Reservations *)
Record EntryCharge := mkEntryCharge { ec_holders : Z; ec_made : bool }.

Record ByteReservation := mkReservation {
  br_retained : option Z;
  br_observations : gmap Z Z;
  br_entry : option EntryCharge;
  br_instance : Z
}.

Definition opt_max (a b : option Z) : option Z :=
  match a, b with Some x, Some y => Some (Z.max x y) | Some x, None => Some x | None, o => o end.

Definition effective_size (r : ByteReservation) : option Z :=
  foldr (fun kv acc => opt_max (Some kv.2) acc) (br_retained r) (map_to_list (br_observations r)).

(** ** Settlements *)
Inductive FileStage := StagePrepare | StageWrite | StageFinalize.
#[export] Instance FileStage_eq_dec : EqDecision FileStage.
Proof. solve_decision. Defined.

Inductive PendingOutcome :=
| PoLogical (index : nat) (path : PathBytes) (change : Change)
| PoMetadata (index : nat) (path : PathBytes) (kind : option Kind)
| PoLogicalIfFailed (index : nat) (path : PathBytes) (change : Change)
| PoFileStage (index : nat) (path : PathBytes) (copy_id : CopyId) (size : option Z) (stage : FileStage) (skip_if_absent : bool)
              (observation_hold : option Z)
| PoSmallCopy (index : nat) (path : PathBytes) (size : Z)
| PoPatch (index : nat) (path : PathBytes) (copy_id : CopyId) (size : Z) (hold : option Z).

Record PendingCreation := mkCreation { pc_index : nat; pc_path : PathBytes; pc_persist : bool; pc_link : bool }.

(** The file's reservation and which one of its key. *)
Abbreviation FileShare := (FileKey * Z)%type.
Record Charged := mkCharged { ch_changes : Z; ch_deleting : list nat; ch_file : option FileShare }.
Definition Charged_default : Charged := mkCharged 0 [] None.

Inductive Settlement :=
| mkSettlement (creations : list PendingCreation) (outcomes : list PendingOutcome) (charged : Charged) (tracked : bool)
               (stream : StreamStep)
with StreamStep :=
| StepNone
| StepBegin (path : PathBytes) (declared : Z)
| StepEnd
| StepPrepareSmallCopy (sizes : list Z)
| StepCopySmallCopy (prepared : Settlement).

Definition st_creations (s : Settlement) := let '(mkSettlement c _ _ _ _) := s in c.
Definition st_outcomes (s : Settlement) := let '(mkSettlement _ o _ _ _) := s in o.
Definition st_charged (s : Settlement) := let '(mkSettlement _ _ c _ _) := s in c.
Definition st_tracked (s : Settlement) := let '(mkSettlement _ _ _ t _) := s in t.
Definition st_stream (s : Settlement) := let '(mkSettlement _ _ _ _ t) := s in t.
Definition with_charged (c : Charged) (s : Settlement) : Settlement :=
  mkSettlement (st_creations s) (st_outcomes s) c (st_tracked s) (st_stream s).
Definition with_stream (t : StreamStep) (s : Settlement) : Settlement :=
  mkSettlement (st_creations s) (st_outcomes s) (st_charged s) (st_tracked s) t.

Record FileLifecycle := mkLifecycle { fl_size : Z; fl_last_error : option (list Z); fl_last_class : list Z; fl_listed : bool }.

(** ** One connection's streamed patch and prepared small copy *)
Record OpenPatchStream := mkOpenPatch { op_file : PathBytes; op_declared : Z; op_received : Z; op_settlement : Settlement }.
Record PreparedSmallCopy := mkPrepared { ps_sizes : list Z; ps_needed : list bool; ps_settlement : Settlement }.
Record PatchStreamGate := mkGate { g_open : option OpenPatchStream; g_small_copy : option PreparedSmallCopy }.
Definition Gate_new : PatchStreamGate := mkGate None None.

(** ** The authority *)
Section Authority.
Context `{HashLib} {Gitignore : Type}.

(** What does not change during a copy. *)
Record Config := mkConfig {
  cf_root_path : PathBytes;
  cf_copy : CopyOperation;
  cf_filters : FilterPolicy;
  cf_filter_matcher : option Gitignore;
  cf_root_existence : RootExistence;
  cf_file_data_rate : option Z;
  cf_deadline : Z;
  cf_tcp_congestion : option (list Z);
  cf_hashing : option CopyHashing;
  cf_extra_options : ExtraCopyOptions
}.

Definition cf_destination (c : Config) : PathBytes := c_destination (cf_copy c).
Definition cf_filter_roots (c : Config) : list PathBytes := fp_destination_roots (cf_filters c).

(** What does: [AuthorityState], the atomics beside it, the mapping's admission,
    the recorded lookups, and how often the outside world was asked. *)
Record AuthState := mkAuth {
  s_created : gset PathBytes;
  s_provisional : gset PathBytes;
  s_reserved : gmap FileKey ByteReservation;
  s_reserved_bytes : Z;
  s_next_hold : Z;
  s_next_instance : Z;
  s_live_connections : Z;
  s_tcp_listener_started : bool;
  s_lifecycles : gmap FileKey FileLifecycle;
  s_in_flight : Z;
  s_results_closing : bool;
  s_recorded_any : bool;
  s_results_started : bool;
  s_results : option (list ResultEvent);
  s_control_open : bool;
  s_changes : Z;
  s_transferred_bytes : Z;
  s_deletions : Z;
  s_mapping : option Admission;
  s_lookups : option PlanningLookups;
  s_asked : nat
}.

Definition set_s_created (v : gset PathBytes) (s : AuthState) : AuthState :=
  mkAuth v (s_provisional s) (s_reserved s) (s_reserved_bytes s) (s_next_hold s) (s_next_instance s) (s_live_connections s) (s_tcp_listener_started s) (s_lifecycles s) (s_in_flight s) (s_results_closing s) (s_recorded_any s) (s_results_started s) (s_results s) (s_control_open s) (s_changes s) (s_transferred_bytes s) (s_deletions s) (s_mapping s) (s_lookups s) (s_asked s).
Definition set_s_provisional (v : gset PathBytes) (s : AuthState) : AuthState :=
  mkAuth (s_created s) v (s_reserved s) (s_reserved_bytes s) (s_next_hold s) (s_next_instance s) (s_live_connections s) (s_tcp_listener_started s) (s_lifecycles s) (s_in_flight s) (s_results_closing s) (s_recorded_any s) (s_results_started s) (s_results s) (s_control_open s) (s_changes s) (s_transferred_bytes s) (s_deletions s) (s_mapping s) (s_lookups s) (s_asked s).
Definition set_s_reserved (v : gmap FileKey ByteReservation) (s : AuthState) : AuthState :=
  mkAuth (s_created s) (s_provisional s) v (s_reserved_bytes s) (s_next_hold s) (s_next_instance s) (s_live_connections s) (s_tcp_listener_started s) (s_lifecycles s) (s_in_flight s) (s_results_closing s) (s_recorded_any s) (s_results_started s) (s_results s) (s_control_open s) (s_changes s) (s_transferred_bytes s) (s_deletions s) (s_mapping s) (s_lookups s) (s_asked s).
Definition set_s_reserved_bytes (v : Z) (s : AuthState) : AuthState :=
  mkAuth (s_created s) (s_provisional s) (s_reserved s) v (s_next_hold s) (s_next_instance s) (s_live_connections s) (s_tcp_listener_started s) (s_lifecycles s) (s_in_flight s) (s_results_closing s) (s_recorded_any s) (s_results_started s) (s_results s) (s_control_open s) (s_changes s) (s_transferred_bytes s) (s_deletions s) (s_mapping s) (s_lookups s) (s_asked s).
Definition set_s_next_hold (v : Z) (s : AuthState) : AuthState :=
  mkAuth (s_created s) (s_provisional s) (s_reserved s) (s_reserved_bytes s) v (s_next_instance s) (s_live_connections s) (s_tcp_listener_started s) (s_lifecycles s) (s_in_flight s) (s_results_closing s) (s_recorded_any s) (s_results_started s) (s_results s) (s_control_open s) (s_changes s) (s_transferred_bytes s) (s_deletions s) (s_mapping s) (s_lookups s) (s_asked s).
Definition set_s_next_instance (v : Z) (s : AuthState) : AuthState :=
  mkAuth (s_created s) (s_provisional s) (s_reserved s) (s_reserved_bytes s) (s_next_hold s) v (s_live_connections s) (s_tcp_listener_started s) (s_lifecycles s) (s_in_flight s) (s_results_closing s) (s_recorded_any s) (s_results_started s) (s_results s) (s_control_open s) (s_changes s) (s_transferred_bytes s) (s_deletions s) (s_mapping s) (s_lookups s) (s_asked s).
Definition set_s_live_connections (v : Z) (s : AuthState) : AuthState :=
  mkAuth (s_created s) (s_provisional s) (s_reserved s) (s_reserved_bytes s) (s_next_hold s) (s_next_instance s) v (s_tcp_listener_started s) (s_lifecycles s) (s_in_flight s) (s_results_closing s) (s_recorded_any s) (s_results_started s) (s_results s) (s_control_open s) (s_changes s) (s_transferred_bytes s) (s_deletions s) (s_mapping s) (s_lookups s) (s_asked s).
Definition set_s_tcp_listener_started (v : bool) (s : AuthState) : AuthState :=
  mkAuth (s_created s) (s_provisional s) (s_reserved s) (s_reserved_bytes s) (s_next_hold s) (s_next_instance s) (s_live_connections s) v (s_lifecycles s) (s_in_flight s) (s_results_closing s) (s_recorded_any s) (s_results_started s) (s_results s) (s_control_open s) (s_changes s) (s_transferred_bytes s) (s_deletions s) (s_mapping s) (s_lookups s) (s_asked s).
Definition set_s_lifecycles (v : gmap FileKey FileLifecycle) (s : AuthState) : AuthState :=
  mkAuth (s_created s) (s_provisional s) (s_reserved s) (s_reserved_bytes s) (s_next_hold s) (s_next_instance s) (s_live_connections s) (s_tcp_listener_started s) v (s_in_flight s) (s_results_closing s) (s_recorded_any s) (s_results_started s) (s_results s) (s_control_open s) (s_changes s) (s_transferred_bytes s) (s_deletions s) (s_mapping s) (s_lookups s) (s_asked s).
Definition set_s_in_flight (v : Z) (s : AuthState) : AuthState :=
  mkAuth (s_created s) (s_provisional s) (s_reserved s) (s_reserved_bytes s) (s_next_hold s) (s_next_instance s) (s_live_connections s) (s_tcp_listener_started s) (s_lifecycles s) v (s_results_closing s) (s_recorded_any s) (s_results_started s) (s_results s) (s_control_open s) (s_changes s) (s_transferred_bytes s) (s_deletions s) (s_mapping s) (s_lookups s) (s_asked s).
Definition set_s_results_closing (v : bool) (s : AuthState) : AuthState :=
  mkAuth (s_created s) (s_provisional s) (s_reserved s) (s_reserved_bytes s) (s_next_hold s) (s_next_instance s) (s_live_connections s) (s_tcp_listener_started s) (s_lifecycles s) (s_in_flight s) v (s_recorded_any s) (s_results_started s) (s_results s) (s_control_open s) (s_changes s) (s_transferred_bytes s) (s_deletions s) (s_mapping s) (s_lookups s) (s_asked s).
Definition set_s_recorded_any (v : bool) (s : AuthState) : AuthState :=
  mkAuth (s_created s) (s_provisional s) (s_reserved s) (s_reserved_bytes s) (s_next_hold s) (s_next_instance s) (s_live_connections s) (s_tcp_listener_started s) (s_lifecycles s) (s_in_flight s) (s_results_closing s) v (s_results_started s) (s_results s) (s_control_open s) (s_changes s) (s_transferred_bytes s) (s_deletions s) (s_mapping s) (s_lookups s) (s_asked s).
Definition set_s_results_started (v : bool) (s : AuthState) : AuthState :=
  mkAuth (s_created s) (s_provisional s) (s_reserved s) (s_reserved_bytes s) (s_next_hold s) (s_next_instance s) (s_live_connections s) (s_tcp_listener_started s) (s_lifecycles s) (s_in_flight s) (s_results_closing s) (s_recorded_any s) v (s_results s) (s_control_open s) (s_changes s) (s_transferred_bytes s) (s_deletions s) (s_mapping s) (s_lookups s) (s_asked s).
Definition set_s_results (v : option (list ResultEvent)) (s : AuthState) : AuthState :=
  mkAuth (s_created s) (s_provisional s) (s_reserved s) (s_reserved_bytes s) (s_next_hold s) (s_next_instance s) (s_live_connections s) (s_tcp_listener_started s) (s_lifecycles s) (s_in_flight s) (s_results_closing s) (s_recorded_any s) (s_results_started s) v (s_control_open s) (s_changes s) (s_transferred_bytes s) (s_deletions s) (s_mapping s) (s_lookups s) (s_asked s).
Definition set_s_control_open (v : bool) (s : AuthState) : AuthState :=
  mkAuth (s_created s) (s_provisional s) (s_reserved s) (s_reserved_bytes s) (s_next_hold s) (s_next_instance s) (s_live_connections s) (s_tcp_listener_started s) (s_lifecycles s) (s_in_flight s) (s_results_closing s) (s_recorded_any s) (s_results_started s) (s_results s) v (s_changes s) (s_transferred_bytes s) (s_deletions s) (s_mapping s) (s_lookups s) (s_asked s).
Definition set_s_changes (v : Z) (s : AuthState) : AuthState :=
  mkAuth (s_created s) (s_provisional s) (s_reserved s) (s_reserved_bytes s) (s_next_hold s) (s_next_instance s) (s_live_connections s) (s_tcp_listener_started s) (s_lifecycles s) (s_in_flight s) (s_results_closing s) (s_recorded_any s) (s_results_started s) (s_results s) (s_control_open s) v (s_transferred_bytes s) (s_deletions s) (s_mapping s) (s_lookups s) (s_asked s).
Definition set_s_transferred_bytes (v : Z) (s : AuthState) : AuthState :=
  mkAuth (s_created s) (s_provisional s) (s_reserved s) (s_reserved_bytes s) (s_next_hold s) (s_next_instance s) (s_live_connections s) (s_tcp_listener_started s) (s_lifecycles s) (s_in_flight s) (s_results_closing s) (s_recorded_any s) (s_results_started s) (s_results s) (s_control_open s) (s_changes s) v (s_deletions s) (s_mapping s) (s_lookups s) (s_asked s).
Definition set_s_deletions (v : Z) (s : AuthState) : AuthState :=
  mkAuth (s_created s) (s_provisional s) (s_reserved s) (s_reserved_bytes s) (s_next_hold s) (s_next_instance s) (s_live_connections s) (s_tcp_listener_started s) (s_lifecycles s) (s_in_flight s) (s_results_closing s) (s_recorded_any s) (s_results_started s) (s_results s) (s_control_open s) (s_changes s) (s_transferred_bytes s) v (s_mapping s) (s_lookups s) (s_asked s).
Definition set_s_mapping (v : option Admission) (s : AuthState) : AuthState :=
  mkAuth (s_created s) (s_provisional s) (s_reserved s) (s_reserved_bytes s) (s_next_hold s) (s_next_instance s) (s_live_connections s) (s_tcp_listener_started s) (s_lifecycles s) (s_in_flight s) (s_results_closing s) (s_recorded_any s) (s_results_started s) (s_results s) (s_control_open s) (s_changes s) (s_transferred_bytes s) (s_deletions s) v (s_lookups s) (s_asked s).
Definition set_s_lookups (v : option PlanningLookups) (s : AuthState) : AuthState :=
  mkAuth (s_created s) (s_provisional s) (s_reserved s) (s_reserved_bytes s) (s_next_hold s) (s_next_instance s) (s_live_connections s) (s_tcp_listener_started s) (s_lifecycles s) (s_in_flight s) (s_results_closing s) (s_recorded_any s) (s_results_started s) (s_results s) (s_control_open s) (s_changes s) (s_transferred_bytes s) (s_deletions s) (s_mapping s) v (s_asked s).
Definition set_s_asked (v : nat) (s : AuthState) : AuthState :=
  mkAuth (s_created s) (s_provisional s) (s_reserved s) (s_reserved_bytes s) (s_next_hold s) (s_next_instance s) (s_live_connections s) (s_tcp_listener_started s) (s_lifecycles s) (s_in_flight s) (s_results_closing s) (s_recorded_any s) (s_results_started s) (s_results s) (s_control_open s) (s_changes s) (s_transferred_bytes s) (s_deletions s) (s_mapping s) (s_lookups s) v.

(** One call in progress: the authority, the connection's stream state, and what
    the call has collected, which survives an error. *)
Record Call := mkCall {
  ca_state : AuthState;
  ca_gate : PatchStreamGate;
  ca_pending : list PendingCreation;
  ca_outcomes : list PendingOutcome;
  ca_step : StreamStep
}.

Definition set_ca_state (v : AuthState) (c : Call) : Call :=
  mkCall v (ca_gate c) (ca_pending c) (ca_outcomes c) (ca_step c).
Definition set_ca_gate (v : PatchStreamGate) (c : Call) : Call :=
  mkCall (ca_state c) v (ca_pending c) (ca_outcomes c) (ca_step c).
Definition set_ca_pending (v : list PendingCreation) (c : Call) : Call :=
  mkCall (ca_state c) (ca_gate c) v (ca_outcomes c) (ca_step c).
Definition set_ca_outcomes (v : list PendingOutcome) (c : Call) : Call :=
  mkCall (ca_state c) (ca_gate c) (ca_pending c) v (ca_step c).
Definition set_ca_step (v : StreamStep) (c : Call) : Call :=
  mkCall (ca_state c) (ca_gate c) (ca_pending c) (ca_outcomes c) v.

(** What may go wrong: a refusal, a refusal that only keeps what exists, or a
    panic. *)
Inductive AuthError := Refused (m : string) | Kept (m : string) | Panicked.

(** The world outside: what a lookup finds beneath the root ([None]: an error),
    the time, and whether inode numbers on a device can be trusted.  Each answer
    may differ from the one before. *)
Record World := mkWorld {
  w_look : nat -> PathBytes -> option (option RootMetadata);
  w_now : nat -> Z;
  w_trusted : nat -> Z -> bool
}.
End Authority.
