(* ===== verification/Authority.v ===== *)
(** * A restricted receiver's checks (src/src/restricted/authority.rs)

    What a request may name and change under a signed grant: the path, flag,
    size and deadline checks, the byte reservations, and how the conditions of
    creations, publications and updates are bound to the existing-object policy.
    - A check is a method on the call in progress; an error leaves what the call
      changed before it.
    - What the destination holds, the clock and whether a filesystem's inode
      numbers can be trusted come from the [World], each time it is asked.
    - Conditions a Rust function rewrites through [&mut] are returned.
    - Requests and connections are counted without a bound of 2^64. *)

From stdpp Require Import strings.
From S2P Require Import Prelude Text Diagnostic Proto Hashing Mapping Grant Lookups AuthData.
Local Open Scope Z_scope.

(** ** Paths *)

(** [path[..rposition('/')]]. *)
Definition before_last_slash (path : PathBytes) : option PathBytes := last (ancestors path).

Definition path_parent (path : PathBytes) : option PathBytes :=
  match before_last_slash path with Some [] => Some [slash] | o => o end.

Definition destination_relative_to (prefix path : PathBytes) : mres PathBytes :=
  let outside := "destination path is outside the retained root"%string in
  relative ← (if decide (prefix = [dot]) then
                if decide (path = [dot]) then Ok []
                else if decide (head path = Some slash) then Err outside
                else Ok (default path (strip_prefix [dot; slash] path))
              else if decide (path = prefix) then Ok []
              else if decide (prefix = [slash]) then from_option_err outside (strip_prefix [slash] path)
              else from_option_err outside (strip_prefix prefix path ≫= strip_prefix [slash]));
  _ ← require (negb (bool_decide (head relative = Some slash) || bool_decide (0 ∈ relative) ||
                     existsb (fun c => negb (bool_decide (relative = [])) && unsafe_component c) (split_on slash relative)))
        "destination path contains an unsafe relative component"%string;
  Ok relative.

(** [RelativePath::new]: the path's components. *)
Definition RelativePath_new (path : PathBytes) : mres (list (list Z)) :=
  _ ← require (negb (bool_decide (head path = Some slash))) "confined path must be relative"%string;
  _ ← require (negb (bool_decide (0 ∈ path))) "confined path contains NUL"%string;
  if decide (path = []) then Ok [] else
    _ ← require (negb (existsb unsafe_component (split_on slash path))) "confined path contains a forbidden component"%string;
    Ok (split_on slash path).

Definition validate_request_path (path : PathBytes) : mres unit :=
  require (negb (bool_decide (0 ∈ path) || negb (bool_decide (head path = Some slash)) ||
                 existsb unsafe_component (drop 1 (split_on slash path))))
    "signed receiver request contains a noncanonical path"%string.

(** [BandwidthLimit::burst_bytes]. *)
Definition burst_bytes (bytes_per_sec : Z) : Z := Z.max (Z.min (bytes_per_sec * 125 / 1000) u64_max) 512.

(** [AtomicU64::fetch_sub]. *)
Definition fetch_sub (counter amount : Z) : Z := (counter - amount) mod 2 ^ 64.

Section Checks.
Context `{HashLib} {Gitignore : Type} (is_ignore : Gitignore -> PathBytes -> bool -> bool).
Context (key : PathBytes -> Z) (cf : Config (Gitignore := Gitignore)) (W : World).

Abbreviation auth := (method Call AuthError).

Definition get_s : auth AuthState := fun c => (c, Ok (ca_state c)).
Definition mod_s (f : AuthState -> AuthState) : auth unit := fun c => (set_ca_state (f (ca_state c)) c, Ok tt).
Definition bail {A} (m : string) : auth A := m_fail (Refused m).
Definition kept {A} (m : string) : auth A := m_fail (Kept m).
Definition ensure (b : bool) (m : string) : auth unit := m_ensure b (Refused m).
Definition lift {A} (r : mres A) : auth A := fun c => (c, match r with Ok a => Ok a | Err m => Err (Refused m) end).
Definition context {A} (o : option A) (m : string) : auth A := lift (from_option_err m o).
(** [.expect(..)]. *)
Definition expect {A} (o : option A) : auth A := fun c => (c, match o with Some a => Ok a | None => Err Panicked end).

Definition push_creation (p : PendingCreation) : auth unit := m_modify (fun c => set_ca_pending (ca_pending c ++ [p]) c).
Definition push_outcome (o : PendingOutcome) : auth unit := m_modify (fun c => set_ca_outcomes (ca_outcomes c ++ [o]) c).

Definition ask {A} (f : nat -> A) : auth A :=
  s ← get_s; _ ← mod_s (set_s_asked (S (s_asked s))); mret (f (s_asked s)).
Definition now : auth Z := ask (w_now W).

Definition policy : CopyPolicy := c_policy (cf_copy cf).
Definition options : CopyOptions := c_options (cf_copy cf).
Definition limits : CopyLimits := c_limits (cf_copy cf).
Definition scopes : list MutationScope := c_mutation_scopes (cf_copy cf).
Definition destination : PathBytes := cf_destination cf.

(** ** What is at a path *)
Definition root_relative (path : PathBytes) : mres (list (list Z)) :=
  relative ← destination_relative_to (cf_root_path cf) path; RelativePath_new relative.

Definition rooted_metadata (path : PathBytes) : auth (option RootMetadata) :=
  _ ← lift (root_relative path);
  found ← ask (fun n => w_look W n path);
  context found "cannot look beneath the root"%string.

(** [rooted_metadata(path).ok().flatten().map_or(File, ..)]. *)
Definition kind_there (path : PathBytes) : auth Kind := fun c =>
  match rooted_metadata path c with
  | (c, Ok (Some m)) => (c, Ok (kind_from_mode (rm_mode m)))
  | (c, _) => (c, Ok File)
  end.

(** ** Deadline, control and connections *)
Definition check_deadline : auth unit :=
  t ← now; ensure (negb (bool_decide (cf_deadline cf < t))) "signed transfer execution deadline has expired"%string.

Definition control_is_open : auth bool :=
  s ← get_s; if s_control_open s then t ← now; mret (bool_decide (t <= cf_deadline cf)) else mret false.

Definition check_control : auth unit :=
  b ← control_is_open; ensure b "transfer control is closed or expired"%string.

Definition validate_hello (compressed : bool) : auth unit :=
  _ ← check_control;
  _ ← check_deadline;
  ensure (eqb compressed (co_compressed_transport options)) "transport compression does not match the signed grant"%string.

Definition close_control : auth unit := mod_s (set_s_control_open false).

Definition acquire_connection : auth unit :=
  _ ← check_deadline;
  _ ← check_control;
  s ← get_s;
  _ ← ensure (negb (bool_decide (cl_max_connections limits <= s_live_connections s))) "signed grant connection limit exceeded"%string;
  mod_s (set_s_live_connections (s_live_connections s + 1)).

Definition release_connection : auth unit :=
  mod_s (fun s => set_s_live_connections (saturating_sub (s_live_connections s) 1) s).

Definition check_root_existence : auth unit :=
  if decide (cf_root_existence cf = RootAny) then mret tt else
    observed ← rooted_metadata destination;
    match cf_root_existence cf, observed with
    | RootAny, _ => mret tt
    | RootNew, Some _ => bail "signed destination already exists, but the grant requires a new path"
    | RootNew, None => mret tt
    | RootExisting, None => bail "signed destination does not exist, but the grant requires an existing path"
    | RootExisting, Some m =>
        ensure (bool_decide (cp_placement policy = ExactPath) || rm_is_dir m)
          "signed destination is not a directory, but the grant places names inside it"%string
    end.

(** ** Hashing *)
Definition hash_policy : HashPolicy :=
  match cf_hashing cf with Some h => ch_policy h | None => mkHashPolicy Blake3 true None end.

Definition mapping_relative (path : PathBytes) : mres PathBytes :=
  if decide (path = destination) then Ok []
  else from_option_err "mapping path is outside the destination"%string (strip_prefix destination path ≫= strip_prefix [slash]).

Definition expected_hash (path : PathBytes) : auth (option Digest) :=
  s ← get_s;
  match s_mapping s with
  | Some a => relative ← lift (mapping_relative path); lift (Mapping.expected_hash a relative)
  | None =>
      let selected := match cp_placement policy with
                      | ExactPath => bool_decide (path = destination)
                      | _ => negb (bool_decide (path = destination)) && existsb (fun s => bool_decide (ms_path s = path)) scopes
                      end in
      mret (if selected : bool then cf_hashing cf ≫= ch_expected_hash else None)
  end.

(** ** Filters and the mapping *)
Definition filter_applies (path : PathBytes) : bool :=
  existsb (fun root => bool_decide (path = root) || strictly_below path root) (cf_filter_roots cf).

(** Whether one source-relative spelling is ignored. *)
Definition ignored_below (matcher : Gitignore) (root path : PathBytes) (is_dir : bool) : bool :=
  let relative := drop (S (length root)) path in
  existsb (fun a => negb (bool_decide (a = [])) && is_ignore matcher a true) (ancestors relative) ||
  is_ignore matcher relative is_dir.

Fixpoint ignored_by (matcher : Gitignore) (roots : list PathBytes) (path : PathBytes) (is_dir under_root : bool) : bool :=
  match roots with
  | [] => under_root
  | root :: roots =>
      if decide (path = root) then false
      else if negb (strictly_below path root) then ignored_by matcher roots path is_dir under_root
      else if negb (ignored_below matcher root path is_dir) then false
      else ignored_by matcher roots path is_dir true
  end.

Definition path_is_ignored (path : PathBytes) (is_dir : bool) : bool :=
  match cf_filter_matcher cf with
  | None => false
  | Some matcher => ignored_by matcher (cf_filter_roots cf) path is_dir false
  end.

Definition check_mapping_path (path : PathBytes) (directory : option bool) : auth unit :=
  s ← get_s;
  match s_mapping s with
  | Some a =>
      p ← lift (permissions a);
      relative ← lift (mapping_relative path);
      ensure (allows p relative directory) "path is not authorized by the signed mapping"%string
  | None => mret tt
  end.

Definition mapping_parent (path : PathBytes) : auth bool :=
  s ← get_s;
  match s_mapping s with
  | Some a => p ← lift (permissions a); relative ← lift (mapping_relative path); mret (implicit_directory p relative)
  | None => mret false
  end.

(** ** Paths a request may look at or change *)
Definition check_observation_path (path : PathBytes) : auth unit :=
  _ ← lift (validate_request_path path);
  _ ← ensure (bool_decide (path = destination) || existsb (fun s => scope_allows s path) scopes)
        "receiver observation is outside the signed destination scopes"%string;
  check_mapping_path path None.

Definition outer_directory : option PathBytes :=
  match cp_placement policy with
  | DirectoryAsChild => Some destination
  | ExactPath => path_parent destination
  | DirectoryContents => None
  end.

(** [(self.extra_options.widen_dirs == All).then(|| self.outer_directory()).flatten()]. *)
Definition widened_outer : option PathBytes :=
  if decide (eo_widen_dirs (cf_extra_options cf) = WidenAll) then outer_directory else None.

Definition same_object (dev ino : Z) (m : RootMetadata) : bool := bool_decide (dev = rm_dev m) && bool_decide (ino = rm_ino m).
Definition same_fingerprint (dev ino ctime ctime_nsec : Z) (m : RootMetadata) : bool :=
  same_object dev ino m && bool_decide (ctime = rm_ctime m) && bool_decide (ctime_nsec = rm_ctime_nsec m).
Definition matches_of (m : RootMetadata) : TargetCondition := Matches (rm_dev m) (rm_ino m).

Definition outer_directory_condition (path : PathBytes) (condition : TargetCondition) : auth TargetCondition :=
  found ← rooted_metadata path;
  m ← context found "the directory the copy goes into does not exist"%string;
  _ ← ensure (rm_is_dir m) "the directory the copy goes into is not a directory"%string;
  _ ← match condition with
      | Any => mret tt
      | Matches dev ino | MatchesFingerprint dev ino _ _ =>
          ensure (same_object dev ino m) "the directory the copy goes into changed"%string
      | Absent => bail "temporary directory access requires an existing directory"
      end;
  mret (matches_of m).

Definition check_mutation_allowed : auth unit :=
  _ ← ensure (negb (co_dry_run options)) "signed read-only transfer forbids destination mutations"%string;
  s ← get_s;
  ensure (negb (s_results_closing s)) "the signed grant is closed: its results have ended"%string.

Definition check_mutation_authority (path : PathBytes) : auth unit :=
  _ ← check_mutation_allowed;
  _ ← lift (validate_request_path path);
  ensure (existsb (fun s => scope_allows s path) scopes) "receiver mutation is outside the signed destination scopes"%string.

Definition check_mutation_path (path : PathBytes) (is_dir : bool) : auth unit :=
  _ ← check_mutation_authority path;
  _ ← check_mapping_path path (Some is_dir);
  ensure (negb (path_is_ignored path is_dir)) "receiver mutation targets a path excluded by the signed filter policy"%string.

Definition check_deletion (path : PathBytes) (is_dir : bool) : auth unit :=
  _ ← ensure (negb (bool_decide (path = destination))) "the signed destination root itself may not be deleted"%string;
  _ ← (if fp_delete_excluded (cf_filters cf) then check_mutation_authority path else check_mutation_path path is_dir);
  ensure (negb (bool_decide (cp_deletion policy = Forbid))) "deletion is not authorized by the signed grant"%string.

(** ** Metadata *)
Definition has_flag (flags flag : Z) : bool := negb (bool_decide (Z.land flags flag = 0)).

Definition known_flags : Z :=
  let known := Z.lor (Z.lor (Z.lor (Z.lor (Z.lor MODE_MASK OWNER) GROUP) TIMES) REQUIRE_OWNER) REQUIRE_GROUP in
  if eo_hardlinks (cf_extra_options cf) then Z.lor known REPORT_IDENTITY else known.

Definition check_flags (flags mapped : Z) : mres unit :=
  _ ← require (bool_decide (Z.ldiff flags known_flags = 0)) "request contains unknown metadata flags"%string;
  _ ← require (negb (has_flag flags REQUIRE_OWNER && negb (has_flag flags OWNER) ||
                     has_flag flags REQUIRE_GROUP && negb (has_flag flags GROUP)))
        "required ownership flags need the corresponding ownership request"%string;
  _ ← require (negb (bool_decide (Z.land flags MODE_MASK = MODE_MASK)))
        "request cannot mix source and receiver-managed mode flags"%string;
  _ ← require (negb (has_flag flags MODE && negb (co_preserve_permissions options) && negb (has_flag mapped MODE)))
        "request tries to preserve permissions not authorized by the grant"%string;
  _ ← require (negb (has_flag flags RECEIVER_MODE && negb (co_receiver_managed_modes options)))
        "request tries to apply receiver-managed modes not authorized by the grant"%string;
  _ ← require (negb (has_flag flags OWNER && negb (co_preserve_owner options) && negb (has_flag mapped OWNER)))
        "request tries to preserve ownership not authorized by the grant"%string;
  _ ← require (negb (has_flag flags GROUP && negb (co_preserve_group options) && negb (has_flag mapped GROUP)))
        "request tries to preserve group not authorized by the grant"%string;
  require (negb (has_flag flags TIMES && negb (co_preserve_times options) && negb (has_flag mapped TIMES)))
    "request tries to preserve timestamps not authorized by the grant"%string.

Definition mapped_grants (path : PathBytes) (grants : Metadata -> Z) : auth Z :=
  s ← get_s;
  match s_mapping s with
  | None => mret 0
  | Some a =>
      p ← lift (permissions a);
      relative ← lift (mapping_relative path);
      mret (match permissions_metadata p relative with Some m => grants m | None => 0 end)
  end.

Definition flag_when (b : bool) (flag : Z) : Z := if b then flag else 0.

Definition metadata_grants (meta : Meta) (m : Metadata) : Z :=
  Z.lor (Z.lor (Z.lor
    (flag_when (bool_decide (md_mode m = Some (Z.land (me_mode meta) 4095))) MODE)
    (flag_when (bool_decide (md_uid m = Some (me_uid meta))) OWNER))
    (flag_when (bool_decide (md_gid m = Some (me_gid meta))) GROUP))
    (flag_when (bool_decide (md_mtime m = Some (me_mtime meta)) && bool_decide (default 0 (md_mtime_nsec m) = me_mtime_nsec meta)) TIMES).

Definition is_some {A} (o : option A) : bool := match o with Some _ => true | None => false end.

Definition inode_selection (m : InodeMetadata) : Selection :=
  mkSelection (is_some (im_acls m) || is_some (im_macos_acl m)) (is_some (im_xattrs m)) (is_some (im_atime m))
    (is_some (im_crtime m)) false.

Definition check_metadata (path : PathBytes) (meta : Meta) (flags : Z) : auth unit :=
  mapped ← mapped_grants path (metadata_grants meta);
  _ ← lift (check_flags flags mapped);
  match me_inode_metadata meta with
  | Some m => ensure (extra_allows (cf_extra_options cf) (inode_selection m))
                "request applies inode metadata not authorized by the signed grant"%string
  | None => mret tt
  end.

Definition check_preparation_flags (path : PathBytes) (mode flags : Z) : auth unit :=
  mapped ← mapped_grants path (fun m =>
    Z.lor (Z.ldiff (metadata_flags m) MODE) (flag_when (bool_decide (md_mode m = Some (Z.land mode 4095))) MODE));
  lift (check_flags flags mapped).

(** ** Sizes *)
Definition check_hash_request (block len : Z) : mres unit :=
  _ ← require (bool_decide (block = cl_hash_block_bytes limits)) "hash block size does not match the signed grant"%string;
  _ ← require (negb (bool_decide (cl_max_file_bytes limits < len))) "signed grant per-file byte limit exceeded"%string;
  require (hash_response_fits block len) "hash response would exceed protocol limits"%string.

Definition check_comparison_request (block len : Z) : mres unit :=
  _ ← require (hash_block_ok block) "comparison block size is outside protocol limits"%string;
  _ ← require (negb (bool_decide (cl_max_file_bytes limits < len))) "signed grant per-file byte limit exceeded"%string;
  require (hash_response_fits block len) "hash response would exceed protocol limits"%string.

(** [limit.wait] only lets time pass. *)
Definition check_file_bytes (path : PathBytes) (offset bytes : Z) : auth unit :=
  _ ← check_mutation_path path false;
  _ ← ensure (negb (match cf_file_data_rate cf with Some r => bool_decide (burst_bytes r < bytes) | None => false end))
        "request exceeds the signed file-data rate-limit burst"%string;
  end_ ← context (u64_add offset bytes) "file offset overflow"%string;
  _ ← ensure (negb (bool_decide (cl_max_file_bytes limits < end_))) "signed grant per-file byte limit exceeded"%string;
  match cf_file_data_rate cf with Some _ => check_deadline | None => mret tt end.

(** A batch's bytes within one burst, where the grant limits the rate. *)
Definition batch_within_burst (sizes : list Z) (overflow exceeds : string) : auth unit :=
  match cf_file_data_rate cf with
  | None => mret tt
  | Some r =>
      bytes ← context (foldl (fun total n => t ← total; u64_add t n) (Some 0) sizes) overflow;
      ensure (negb (bool_decide (burst_bytes r < bytes))) exceeds
  end.
End Checks.
