(* ===== verification/AuthPolicy.v ===== *)
(** * Reservations and the existing-object policy (src/src/restricted/authority.rs)

    The bytes a grant's files may occupy, the names it made itself, and how the
    conditions of creations, publications and updates are rewritten so that the
    executor can only do what the signed policy for existing objects allows. *)

From stdpp Require Import strings.
From S2P Require Import Prelude Text Diagnostic Proto Hashing Mapping Grant Lookups AuthData Authority.
Local Open Scope Z_scope.

Definition ByteReservation_default (instance : Z) : ByteReservation := mkReservation None ∅ None instance.
Definition with_retained (r : option Z) (b : ByteReservation) : ByteReservation :=
  mkReservation r (br_observations b) (br_entry b) (br_instance b).
Definition with_observations (o : gmap Z Z) (b : ByteReservation) : ByteReservation :=
  mkReservation (br_retained b) o (br_entry b) (br_instance b).
Definition with_entry (e : option EntryCharge) (b : ByteReservation) : ByteReservation :=
  mkReservation (br_retained b) (br_observations b) e (br_instance b).

(** [retained.map_or(size, |retained| retained.max(size))]. *)
Definition retain_size (size : Z) (b : ByteReservation) : ByteReservation :=
  with_retained (Some (match br_retained b with Some r => Z.max r size | None => size end)) b.

(** ** Settling a hold, under the state's lock

    [None] where an [expect] fails. *)
Section Reservations.
Context `{HashLib}.

Definition settle_observation_reservation (k : FileKey) (hold : Z) (retain : bool) (s : AuthState) : option AuthState :=
  match s_reserved s !! k with
  | None => Some s
  | Some reservation =>
      before ← effective_size reservation;
      match br_observations reservation !! hold with
      | None => Some s
      | Some size =>
          let reservation := with_observations (delete hold (br_observations reservation)) reservation in
          let reservation := if retain then retain_size size reservation else reservation in
          let after := effective_size reservation in
          let released := before - default 0 after in
          bytes ← u64_sub (s_reserved_bytes s) released;
          let s := set_s_reserved_bytes bytes s in
          Some (match after with
                | None => set_s_reserved (delete k (s_reserved s)) s
                | Some _ => set_s_reserved (<[k := reservation]> (s_reserved s)) s
                end)
      end
  end.
End Reservations.

Section Constrain.
Context `{HashLib} {Gitignore : Type} (key : PathBytes -> Z) (cf : Config (Gitignore := Gitignore)) (W : World).
Abbreviation auth := (method Call AuthError).
Abbreviation rooted_metadata := (rooted_metadata cf W).
Abbreviation destination := (destination cf).
Abbreviation policy := (policy cf).

Definition reserve_bytes (path : PathBytes) (copy_id : CopyId) (size : Z) (observation_only : bool) : auth (option Z) :=
  s ← get_s;
  let k := (path, copy_id) in
  let previous := s_reserved s !! k ≫= effective_size in
  let effective := match previous with Some p => Z.max p size | None => size end in
  total ← context (u64_add (s_reserved_bytes s) (effective - default 0 previous)) "signed reservation byte counter overflow"%string;
  _ ← ensure (negb (bool_decide (cl_max_total_bytes (limits cf) < total)))
        "signed grant total-byte limit exceeded by file preparation"%string;
  hold ← (if observation_only then
            let hold := s_next_hold s in
            next ← context (u64_add hold 1) "reservation hold counter overflow"%string;
            _ ← mod_s (set_s_next_hold next);
            mret (Some hold)
          else mret None);
  s ← get_s;
  let '(s, reservation) := match s_reserved s !! k with
    | Some r => (s, r)
    | None => let n := s_next_instance s + 1 in (set_s_next_instance n s, ByteReservation_default n)
    end in
  let reservation := match hold with
    | Some h => with_observations (<[h := size]> (br_observations reservation)) reservation
    | None => retain_size size reservation
    end in
  _ ← mod_s (fun _ => set_s_reserved_bytes total (set_s_reserved (<[k := reservation]> (s_reserved s)) s));
  mret hold.

(** ** Names this grant made *)
Definition created_by_this_grant (path : PathBytes) : auth bool :=
  s ← get_s; mret (bool_decide (path ∈ s_created s)).

Definition forget_provisional (pending : list PendingCreation) : auth unit :=
  mod_s (fun s => set_s_provisional (s_provisional s ∖ list_to_set (pc_path <$> pending)) s).

Definition root_must_be_new (path : PathBytes) : bool :=
  bool_decide (cf_root_existence cf = RootNew) && bool_decide (path = destination).

Definition creation_policy (directory : bool) : ExistingDestinationPolicy :=
  match cp_existing policy with
  | Replace => if eo_keep_files (cf_extra_options cf) && negb directory then Skip else Replace
  | p => p
  end.

Definition kept_by_policy (s : AuthState) (path : PathBytes) (directory : bool) (error : option WireError) : bool :=
  match error with Some e => is_condition_not_met_wire e | None => false end &&
  negb (bool_decide (creation_policy directory = Replace)) &&
  negb (root_must_be_new path) &&
  negb (bool_decide (path ∈ s_created s)).

Definition existence_only_where_numbers_mislead (observed : RootMetadata) (condition : TargetCondition) : auth TargetCondition :=
  trusted ← ask (fun n => w_trusted W n (rm_dev observed));
  mret (match condition with Matches _ _ => if trusted : bool then condition else Any | _ => condition end).

(** An identity the sender names, against the object observed. *)
Definition pin_condition (metadata : RootMetadata) (condition : TargetCondition) (absent : string) : auth TargetCondition :=
  condition ← existence_only_where_numbers_mislead metadata condition;
  let other := "requested identity does not match the object the receiver observed"%string in
  match condition with
  | Any => mret (matches_of metadata)
  | Absent => bail absent
  | Matches dev ino => if same_object dev ino metadata then mret condition else kept other
  | MatchesFingerprint dev ino ctime ctime_nsec =>
      if same_fingerprint dev ino ctime ctime_nsec metadata then mret condition else kept other
  end.

(** A creation the grant will own once confirmed. *)
Definition provide (index : nat) (path : PathBytes) : auth unit :=
  _ ← mod_s (fun s => set_s_provisional ({[path]} ∪ s_provisional s) s);
  push_creation (mkCreation index path true false).

Definition retains_existing : string := "signed grant retains existing objects: already exists".
Definition contradicts_replacement : string := "replacement contradicts the signed existing-object policy".
Definition contradicts_creation : string := "no-replace creation contradicts the signed existing-object policy".

Definition constrain_observed_creation (path : PathBytes) (condition : TargetCondition) (directory : bool) (index : nat)
    (pol : ExistingDestinationPolicy) (observed : option RootMetadata) : auth TargetCondition :=
  match pol with
  | MustExist =>
      metadata ← match observed with
                 | Some m => if negb directory || rm_is_dir m then mret m
                             else kept "signed grant creates nothing: exists but is not a directory"
                 | None => kept "signed grant creates nothing: does not exist"
                 end;
      condition ← pin_condition metadata condition contradicts_creation;
      _ ← (if directory then mret tt else push_creation (mkCreation index path false false));
      mret condition
  | _ =>
      _ ← (if match observed with
              | Some m => negb (directory && rm_is_dir m && bool_decide (pol = Skip))
              | None => false
              end
           then if decide (pol = Skip) then kept retains_existing else bail retains_existing
           else mret tt);
      _ ← match condition with
          | Any | Absent => mret tt
          | Matches _ _ | MatchesFingerprint _ _ _ _ => bail contradicts_replacement
          end;
      _ ← provide index path;
      mret Absent
  end.

Definition constrain_creation (path : PathBytes) (condition : TargetCondition) (directory refuses_existing : bool) (index : nat)
    : auth TargetCondition :=
  let pol := creation_policy directory in
  _ ← ensure (negb (root_must_be_new path && negb directory && negb (bool_decide (cp_placement policy = ExactPath))))
        "signed placement puts names inside it, so it must be created as a directory"%string;
  created ← created_by_this_grant path;
  if created || (bool_decide (pol = Replace) && negb (root_must_be_new path)) then mret condition else
    observed ← (if bool_decide (pol = Skip) && refuses_existing && negb directory then mret None else rooted_metadata path);
    constrain_observed_creation path condition directory index pol observed.

(** What the receiver recorded for a name, where a publication may use it. *)
Definition recorded_lookup (path : PathBytes) (in_place : bool) : auth (option (PlanningLookups * PathBytes)) :=
  s ← get_s;
  mret (match s_lookups s with
        | Some l =>
            if in_place || root_must_be_new path || bool_decide (path ∈ s_created s) then None
            else match destination_relative_to (cf_root_path cf) path with Ok relative => Some (l, relative) | Err _ => None end
        | None => None
        end).

Definition publish_held (path : PathBytes) (condition : TargetCondition) (index : nat)
    : auth (TargetCondition * ScannedDestination) :=
  condition ← constrain_creation path condition false true index;
  mret (condition, if decide (condition = Absent) then ScAbsent else ScUnknown).

Definition constrain_publication (path : PathBytes) (condition : TargetCondition) (in_place : bool) (index : nat)
    : auth (TargetCondition * ScannedDestination) :=
  recorded ← recorded_lookup path in_place;
  match recorded, creation_policy false with
  | Some (l, relative), Skip =>
      let '(claim, l) := lookups_claim key relative l in
      _ ← mod_s (set_s_lookups (Some l));
      match claim with
      | ClaimAbsent =>
          _ ← match condition with
              | Any | Absent => mret tt
              | Matches _ _ | MatchesFingerprint _ _ _ _ => bail contradicts_replacement
              end;
          _ ← provide index path;
          mret (Any, ScAbsent)
      | ClaimPresent => kept retains_existing
      | ClaimUnknown => publish_held path condition index
      end
  | Some (l, relative), MustExist =>
      match lookups_get key relative l with
      | Some (LkPresent file_mode) =>
          _ ← ensure (negb (bool_decide (condition = Absent))) contradicts_creation;
          _ ← push_creation (mkCreation index path false false);
          mret (condition, match file_mode with Some m => ScFile m | None => ScUnknown end)
      | _ => publish_held path condition index
      end
  | _, _ => publish_held path condition index
  end.

Definition looked_up_present (path : PathBytes) : auth bool :=
  s ← get_s;
  mret (match s_lookups s, destination_relative_to (cf_root_path cf) path with
        | Some l, Ok relative => match lookups_get key relative l with Some (LkPresent _) => true | _ => false end
        | _, _ => false
        end).

Definition forget_lookup (path : PathBytes) : auth unit :=
  mod_s (fun s => match s_lookups s, destination_relative_to (cf_root_path cf) path with
                  | Some l, Ok relative => set_s_lookups (Some (lookups_forget key relative l)) s
                  | _, _ => s
                  end).

Definition pin_update (path : PathBytes) (condition : TargetCondition) : auth TargetCondition :=
  found ← rooted_metadata path;
  match found with
  | None => kept "signed grant creates nothing: does not exist"
  | Some metadata => pin_condition metadata condition "no-replace update contradicts the signed existing-object policy"
  end.

Definition constrain_update (path : PathBytes) (condition : TargetCondition) (directory : bool) : auth TargetCondition :=
  created_before ← created_by_this_grant path;
  c ← m_get;
  let created_here := existsb (fun p => bool_decide (pc_path p = path) && negb (pc_link p)) (ca_pending c) in
  match creation_policy directory with
  | Skip => if created_before || created_here then mret condition
            else kept "signed grant retains existing objects: may not be modified"
  | MustExist => if created_before || created_here then mret condition else pin_update path condition
  | Replace => mret condition
  end.

Definition constrain_inplace (path : PathBytes) (creates : bool) : auth unit :=
  let pol := creation_policy false in
  let updates_only := negb creates && bool_decide (pol = MustExist) in
  _ ← ensure (negb (negb (bool_decide (pol = Replace)) && negb updates_only))
        "signed grant does not let it be created or replaced freely: it is not written in place"%string;
  created ← created_by_this_grant path;
  ensure (negb (root_must_be_new path && negb created))
    "signed grant only creates it: it is staged and published without replacing anything, not written in place"%string.

Definition require_publication_mode (inplace : bool) (what : string) : auth unit :=
  ensure (negb (inplace && negb (writes_new_files_in_place (cp_publication policy)))) what.

Definition constrain_prepare (path : PathBytes) : auth unit :=
  created ← created_by_this_grant path;
  if created : bool then mret tt else
    match creation_policy false with
    | MustExist =>
        present ← looked_up_present path;
        if present : bool then mret tt else
          found ← rooted_metadata path;
          if is_some found then mret tt else kept "signed grant creates nothing: does not exist"
    | _ => mret tt
    end.
End Constrain.
