(* ===== verification/AuthSettle.v ===== *)
(** * Charging and settling requests (src/src/restricted/authority.rs)

    What an authorized request counts against the signed limits, what comes back
    when the executor reports that it changed nothing, and how an executed
    request is settled: its creations confirmed or forgotten, its reservations
    kept or released, its changes told to the results. *)

From stdpp Require Import strings.
From S2P Require Import Prelude Text Diagnostic Proto Hashing Mapping Grant Lookups AuthData Authority AuthPolicy.
Local Open Scope Z_scope.

Definition lenZ {A} (l : list A) : Z := Z.of_nat (length l).

(** The indices of the elements that satisfy a test, in order. *)
Definition indices {A} (f : A -> bool) (l : list A) : list nat :=
  omap (fun p => if f p.2 then Some p.1 else None) (imap (fun i x => (i, x)) l).

Definition file_key (r : Request) : option FileKey :=
  match r with
  | RqPrepare path _ _ copy_id _ _ _ _ _ | RqStageBasis path copy_id _ _ | RqSeedBasis path copy_id _ _
  | RqWriteRange path _ copy_id _ _ | RqReuseComparedRange path copy_id _ _
  | RqFinalize _ path _ copy_id _ _ _ _ => Some (path, copy_id)
  | _ => None
  end.

(** The file a request's change to the entry limit is shared through. *)
Definition charged_file (r : Request) : option FileKey :=
  match r with
  | RqPrepare path _ _ copy_id _ _ _ create_if_missing update =>
      if create_if_missing || is_some update then Some (path, copy_id) else None
  | RqStageBasis path copy_id _ _ | RqSeedBasis path copy_id _ _ | RqFinalize _ path _ copy_id _ _ _ _ => Some (path, copy_id)
  | _ => None
  end.

Definition is_delete (op : Op) : bool := match op with OpRmdir _ | OpUnlink _ => true | _ => false end.

(** What the executor says happened to one operation. *)
Definition missing_outcome : Failure := Failure_io (bs "receiver returned no outcome for this file").

Definition err_of {E A} (r : option (result E A)) : option E := match r with Some (Err e) => Some e | _ => None end.

Definition outcome_error (response : Response) (index : nat) : option Failure :=
  match response with
  | RsErr m => Some (Failure_io m)
  | RsEndpointError e => Some (Failure_of e)
  | RsWidenedDirectories results => Failure_of <$> err_of (results !! index)
  | RsApplied results => Failure_of <$> mjoin (results !! index)
  | RsPatchedBatch results =>
      match results !! index with Some (Ok _) => None | Some (Err e) => Some (Failure_of (pe_error e)) | None => Some missing_outcome end
  | RsPublishedBatch results =>
      match results !! index with Some (Ok _) => None | Some (Err e) => Some (Failure_of e) | None => Some missing_outcome end
  | _ => None
  end.

Definition outcome_wire (response : Response) (index : nat) : option WireError :=
  match response with
  | RsEndpointError e => Some e
  | RsApplied results => mjoin (results !! index)
  | RsPatchedBatch results => pe_error <$> err_of (results !! index)
  | RsPublishedBatch results => err_of (results !! index)
  | _ => None
  end.

Definition declined (response : Response) (index : nat) : bool :=
  match response with
  | RsEndpointError e => is_replace_required_wire e
  | RsApplied results => match mjoin (results !! index) with Some e => is_replace_required_wire e | None => false end
  | RsPatchedBatch results => match err_of (results !! index) with Some e => is_replace_required_wire (pe_error e) | None => false end
  | _ => false
  end.

(** The changes a reply says were not made. *)
Definition unmade (changes : Z) (response : Response) : list nat :=
  let all := seq 0 (Z.to_nat changes) in
  match response with
  | RsEndpointError e => if is_unchanged_wire e then all else []
  | RsApplied results => indices (fun r => match r with Some e => is_unchanged_wire e | None => false end) results
  | RsPatchedBatch results =>
      indices (fun r => match r with Err e => pe_stale_condition e || is_unchanged_wire (pe_error e) | Ok _ => false end) results
  | RsPublishedBatch results => indices (fun r => match r with Err e => is_unchanged_wire e | Ok _ => false end) results
  | RsSmallFilesCopied (ScPublished results) =>
      indices (fun r => match fr_error r with
                        | Some e => is_unchanged_wire e
                        | None => match fr_disposition r with
                                  | Copied => false
                                  | QuickChecked | ContentMatched => negb (fr_repaired r)
                                  | Excluded => true
                                  end
                        end) results
  | RsSmallFilesCopied (ScStagingFailed e) => if is_unchanged_wire e then all else []
  | RsSmallFilesCopied _ => all
  | _ => []
  end.

(** [while unmade.next_if(|u| u < index)]. *)
Fixpoint skip_below (index : nat) (unmade : list nat) : list nat :=
  match unmade with
  | u :: rest => if decide (u < index)%nat then skip_below index rest else unmade
  | [] => []
  end.

(** The deletions among the changes not made; both lists are in order. *)
Fixpoint undeleted (deleting unmade : list nat) : Z :=
  match deleting with
  | [] => 0
  | index :: deleting =>
      let unmade := skip_below index unmade in
      (if decide (head unmade = Some index) then 1 else 0) + undeleted deleting unmade
  end.

Section Settle.
Context `{HashLib} {Gitignore : Type} (is_ignore : Gitignore -> PathBytes -> bool -> bool).
Context (key : PathBytes -> Z) (cf : Config (Gitignore := Gitignore)) (W : World).
Abbreviation auth := (method Call AuthError).
Abbreviation destination := (destination cf).

(** ** Results *)
Definition result_path (path : PathBytes) (directory : bool) : option PathBytes :=
  if decide (path = destination) then if directory then None else Some []
  else strip_prefix destination path ≫= strip_prefix [slash].

Definition emit (e : ResultEvent) (s : AuthState) : AuthState :=
  match s_results s with Some events => set_s_results (Some (events ++ [e])) s | None => s end.

Definition is_ensure_or_delete_dir (c : Change) : bool := match c with EnsureDirectory | DeleteDirectory => true | _ => false end.

Definition record_change (path : PathBytes) (c : Change) (error : option Failure) (s : AuthState) : AuthState :=
  if negb (s_results_started s) then s
  else if bool_decide (c = EnsureDirectory) && negb (is_some error) && bool_decide (path = destination) &&
          negb (bool_decide (cp_placement (policy cf) = ExactPath)) then s
  else emit (EvRecord c (result_path path (negb (is_some error) && is_ensure_or_delete_dir c)) error) s.

Definition record_retried (path : PathBytes) (c : Change) (error : Failure) (s : AuthState) : AuthState :=
  if negb (s_results_started s) then s else emit (EvRetried c (result_path path false) error) s.

Definition set_listed (l : FileLifecycle) : FileLifecycle := mkLifecycle (fl_size l) (fl_last_error l) (fl_last_class l) true.

Definition end_refused_lifecycles (r : Request) (s : AuthState) : AuthState :=
  match file_key r with Some k => set_s_lifecycles (alter set_listed k (s_lifecycles s)) s | None => s end.

Definition file_change (path : PathBytes) (size : Z) : option PathBytes * Change := (result_path path false, PublishFile size).

Fixpoint op_changes (ops : list Op) : auth (list (option PathBytes * Change)) :=
  match ops with
  | [] => mret []
  | op :: ops =>
      c ← match op with
          | OpMkdir _ _ _ => mret EnsureDirectory
          | OpSymlink _ _ _ _ _ => mret CreateSymlink
          | OpMknod _ _ _ _ _ _ => mret CreateSpecial
          | OpHardlink _ _ _ _ _ => mret LinkFile
          | OpRmdir _ => mret DeleteDirectory
          | OpUnlink _ | OpRemove _ => mret DeleteNonDirectory
          | OpSetMeta path _ _ _ _ => kind ← kind_there cf W path; mret (SetMetadata kind)
          | OpSetFileMetaIfSame _ _ _ _ => mret (SetMetadata File)
          end;
      rest ← op_changes ops;
      mret ((result_path (op_path op) false, c) :: rest)
  end.

Definition requested_changes (r : Request) : auth (list (option PathBytes * Change)) :=
  match r with
  | RqApply ops => op_changes ops
  | RqPutSmallBatch puts => mret ((fun p => file_change (sp_path p) (lenZ (sp_data p))) <$> puts)
  | RqPrepareSmallFiles request => mret ((fun f => file_change (sc_path f) (sc_size f)) <$> sr_files request)
  | RqPatchSmallBatch patches => mret ((fun p => file_change (pa_path p) (pa_len p)) <$> patches)
  | RqPatchBegin patch _ => mret [file_change (pa_path patch) (pa_len patch)]
  | RqPrepare path size _ _ _ _ _ _ _ => mret [file_change path size]
  | RqStageBasis path _ len _ | RqSeedBasis path _ len _ => mret [file_change path len]
  | RqWriteRange path _ _ _ _ | RqReuseComparedRange path _ _ _ | RqFinalize _ path _ _ _ _ _ _ => mret [file_change path 0]
  | RqFinishBasis _ path _ _ _ => mret [(result_path path false, KeepFile)]
  | _ => mret []
  end.

(** ** Charges *)

(** [fetch_update]: nothing changes when the limit would be exceeded. *)
Definition charge_counter (counter amount limit : Z) : option Z :=
  if decide (amount = 0) then Some counter
  else total ← u64_add counter amount; if decide (total <= limit) then Some total else None.

(** The changes and bytes a request counts; [own_file_change] is a file without
    a reservation. *)
Definition request_counts (r : Request) (own_file_change : bool) : Z * Z :=
  match r with
  | RqApply ops => (lenZ ops, 0)
  | RqPutSmallBatch puts => (lenZ puts, sumZ ((fun p => lenZ (sp_data p)) <$> puts))
  | RqPatchSmallBatch patches => (lenZ patches, sumZ ((fun p => lenZ (pa_data p)) <$> patches))
  | RqPatchBegin _ _ | RqFinishBasis _ _ _ _ _ => (1, 0)
  | RqPrepare _ _ _ _ _ _ _ _ _ | RqStageBasis _ _ _ _ | RqSeedBasis _ _ _ _ | RqFinalize _ _ _ _ _ _ _ _ =>
      (if own_file_change then 1 else 0, 0)
  | RqPrepareSmallFiles request => (lenZ (sr_files request), 0)
  | RqCopySmallFiles payloads => (0, sumZ ((fun p => lenZ (sy_data p)) <$> payloads))
  | RqWriteRange _ _ _ _ data | RqPatchData data => (0, lenZ data)
  | _ => (0, 0)
  end.

Definition deleted_indices (r : Request) : list nat := match r with RqApply ops => indices is_delete ops | _ => [] end.

Definition hold_entry (e : option EntryCharge) : EntryCharge :=
  let e := default (mkEntryCharge 0 false) e in mkEntryCharge (ec_holders e + 1) (ec_made e).

Definition charge_request (r : Request) : auth Charged :=
  let deleting := deleted_indices r in
  s ← get_s;
  let '(file, file_charge, own_file_change) :=
    match charged_file r with
    | Some k => match s_reserved s !! k with
                | Some b => (Some (k, br_instance b), negb (is_some (br_entry b)), false)
                | None => (None, false, true)
                end
    | None => (None, false, false)
    end in
  let '(changes, bytes) := request_counts r own_file_change in
  let counted := changes + (if file_charge : bool then 1 else 0) in
  total ← context (charge_counter (s_changes s) counted (cl_max_entries (limits cf))) "signed grant entry limit exceeded"%string;
  _ ← mod_s (set_s_changes total);
  _ ← match charge_counter (s_deletions s) (lenZ deleting) (cl_max_deletions (limits cf)) with
      | Some d => mod_s (set_s_deletions d)
      | None => _ ← mod_s (fun s => set_s_changes (fetch_sub (s_changes s) counted) s);
                bail "signed grant deletion limit exceeded"
      end;
  _ ← match charge_counter (s_transferred_bytes s) bytes (cl_max_total_bytes (limits cf)) with
      | Some t => mod_s (set_s_transferred_bytes t)
      | None => _ ← mod_s (fun s => set_s_changes (fetch_sub (s_changes s) counted) s);
                _ ← mod_s (fun s => set_s_deletions (fetch_sub (s_deletions s) (lenZ deleting)) s);
                bail "signed grant total-byte limit exceeded"
      end;
  _ ← match file with
      | Some (k, _) =>
          b ← expect (s_reserved s !! k);
          mod_s (fun s => set_s_reserved (<[k := with_entry (Some (hold_entry (br_entry b))) b]> (s_reserved s)) s)
      | None => mret tt
      end;
  mret (mkCharged changes deleting file).

(** ** Refunds *)
Definition release_file (file : option FileShare) (made : bool) (s : AuthState) : AuthState :=
  match file with
  | None => s
  | Some (k, instance) =>
      match s_reserved s !! k with
      | None => s
      | Some b =>
          if negb (bool_decide (br_instance b = instance)) then s else
            match br_entry b with
            | None => s
            | Some e =>
                let e := mkEntryCharge (saturating_sub (ec_holders e) 1) (ec_made e || made) in
                if bool_decide (ec_holders e = 0) && negb (ec_made e) then
                  set_s_changes (fetch_sub (s_changes s) 1)
                    (set_s_reserved (<[k := with_entry None b]> (s_reserved s)) s)
                else set_s_reserved (<[k := with_entry (Some e) b]> (s_reserved s)) s
            end
      end
  end.

Definition refund_unmade (charged : Charged) (response : Response) (s : AuthState) : AuthState :=
  let unmade := unmade (ch_changes charged) response in
  let refunded := Z.min (lenZ unmade) (ch_changes charged) in
  let s := if decide (0 < refunded) then set_s_changes (fetch_sub (s_changes s) refunded) s else s in
  let file_unmade := match response with RsEndpointError e => is_unchanged_wire e | _ => false end in
  let s := release_file (ch_file charged) (negb file_unmade) s in
  let u := undeleted (ch_deleting charged) unmade in
  if decide (0 < u) then set_s_deletions (fetch_sub (s_deletions s) u) s else s.

(** ** Settling *)
Definition settle_hold (k : FileKey) (hold : option Z) (retain : bool) : auth unit :=
  match hold with
  | None => mret tt
  | Some h => s ← get_s; s ← expect (settle_observation_reservation k h retain s); mod_s (fun _ => s)
  end.

Definition release_patch_holds (outcomes : list PendingOutcome) : auth unit :=
  for_each (fun o => match o with PoPatch _ path copy_id _ hold => settle_hold (path, copy_id) hold false | _ => mret tt end) outcomes.

Definition settle_creation (response : Response) (p : PendingCreation) (s : AuthState) : AuthState :=
  let s := set_s_provisional (s_provisional s ∖ {[pc_path p]}) s in
  if pc_persist p && negb (is_some (outcome_error response (pc_index p)))
  then set_s_created ({[pc_path p]} ∪ s_created s) s else s.

Definition drop_reservation (k : FileKey) (s : AuthState) : AuthState := set_s_reserved (delete k (s_reserved s)) s.

Definition settle_patch (response : Response) (index : nat) (path : PathBytes) (copy_id : CopyId) (size : Z) (hold : option Z)
    : auth unit :=
  let reply := match response with RsPatchedBatch results => results !! index | _ => None end in
  let kept := match reply with Some (Ok k) => k | Some (Err e) => pe_matched e | None => false end in
  let stale := match reply with Some (Err e) => pe_stale_condition e | _ => false end in
  let published := negb kept && negb stale && negb (is_some (outcome_error response index)) in
  _ ← settle_hold (path, copy_id) hold (negb kept && negb stale);
  _ ← (if is_some hold && published then mod_s (drop_reservation (path, copy_id)) else mret tt);
  let change := if kept then KeepFile else PublishFile size in
  let again := match reply with Some (Err e) => retried e | Some (Ok _) => false | None => true end || declined response index in
  match outcome_error response index with
  | Some e => if again then mod_s (record_retried path change e) else mod_s (record_change path change (Some e))
  | None => mod_s (record_change path change None)
  end.

Definition settle_small_copy (response : Response) (index : nat) (path : PathBytes) (size : Z) (s : AuthState) : AuthState :=
  match response with
  | RsSmallFilesCopied (ScPublished results) =>
      match results !! index with
      | None => s
      | Some r =>
          let error := Failure_of <$> fr_error r in
          match fr_disposition r with
          | Copied => record_change path (PublishFile size) error s
          | QuickChecked | ContentMatched => if fr_repaired r then record_change path (SetMetadata File) error s else s
          | Excluded => s
          end
      end
  | _ => s
  end.

Definition is_creation (c : Change) : bool :=
  match c with PublishFile _ | CreateSymlink | CreateSpecial | LinkFile => true | _ => false end.

(** What a stage leaves of a file's lifecycle, once the results run. *)
Definition settle_lifecycle (response : Response) (index : nat) (path : PathBytes) (k : FileKey) (size : option Z) (stage : FileStage)
    (s : AuthState) : AuthState :=
  let declared := match size with Some z => Some z | None => s_reserved s !! k ≫= effective_size end in
  match stage, outcome_error response index with
  | StageFinalize, None =>
      match s_lifecycles s !! k with
      | Some l => record_change path (PublishFile (fl_size l)) None (set_s_lifecycles (delete k (s_lifecycles s)) s)
      | None => s
      end
  | _, error =>
      let l := default (mkLifecycle (default 0 declared) None (bs "io") false) (s_lifecycles s !! k) in
      let l := mkLifecycle (default (fl_size l) declared) (fl_last_error l) (fl_last_class l) (fl_listed l) in
      let l := match error with
               | Some e => mkLifecycle (fl_size l) (bounded_diagnostic (lf_message e)) (lf_class e) (fl_listed l)
               | None => l
               end in
      set_s_lifecycles (<[k := l]> (s_lifecycles s)) s
  end.

Definition settle_file_stage (response : Response) (streaming : bool) (index : nat) (path : PathBytes) (copy_id : CopyId)
    (size : option Z) (stage : FileStage) (skip_if_absent : bool) (hold : option Z) : auth unit :=
  let k := (path, copy_id) in
  let absent := match response with
                | RsPrepared partial_size has_candidates => has_candidates || (skip_if_absent && negb (is_some partial_size))
                | _ => false end in
  _ ← settle_hold k hold (negb absent);
  s ← get_s;
  let refused := bool_decide (stage = StagePrepare) &&
                 match response with RsEndpointError e => is_replace_required_wire e | _ => false end in
  let failed := is_some (outcome_error response index) in
  let over := bool_decide (stage = StageFinalize) &&
              (negb failed || kept_by_policy cf s path false (outcome_wire response index)) in
  _ ← (if over then mod_s (drop_reservation k) else mret tt);
  if over && failed then mod_s (fun s => set_s_lifecycles (delete k (s_lifecycles s)) s)
  else if absent || refused || negb streaming then mret tt
  else mod_s (settle_lifecycle response index path k size stage).

Definition settle_outcome (response : Response) (streaming : bool) (o : PendingOutcome) : auth unit :=
  match o with
  | PoPatch index path copy_id size hold => settle_patch response index path copy_id size hold
  | PoMetadata index path kind =>
      match outcome_error response index with
      | Some e =>
          if declined response index then mret tt else
            kind ← match kind with Some k => mret k | None => kind_there cf W path end;
            mod_s (record_change path (SetMetadata kind) (Some e))
      | None => mret tt
      end
  | PoLogicalIfFailed index path change =>
      match outcome_error response index with
      | Some e => if declined response index then mret tt else mod_s (record_change path change (Some e))
      | None => mret tt
      end
  | PoSmallCopy index path size => mod_s (settle_small_copy response index path size)
  | PoLogical index path change =>
      s ← get_s;
      if declined response index || (is_creation change && kept_by_policy cf s path false (outcome_wire response index)) then mret tt
      else mod_s (record_change path change (outcome_error response index))
  | PoFileStage index path copy_id size stage skip_if_absent hold =>
      settle_file_stage response streaming index path copy_id size stage skip_if_absent hold
  end.

Definition settle (st : Settlement) (response : Response) : auth unit :=
  let 'mkSettlement creations outcomes charged tracked _ := st in
  _ ← mod_s (refund_unmade charged response);
  if bool_decide (creations = []) && bool_decide (outcomes = []) && negb tracked then mret tt else
    _ ← (if tracked then mod_s (fun s => set_s_in_flight (saturating_sub (s_in_flight s) 1) s) else mret tt);
    _ ← mod_s (fun s => foldl (fun s p => settle_creation response p s) s creations);
    _ ← (if decide (outcomes = []) then mret tt else mod_s (set_s_recorded_any true));
    s ← get_s;
    for_each (settle_outcome response (s_results_started s)) outcomes.

Definition settle_unexecuted (st : Settlement) (reason : list Z) : auth unit :=
  let charged := st_charged st in
  _ ← mod_s (fun s => set_s_changes (fetch_sub (s_changes s) (ch_changes charged)) s);
  _ ← mod_s (fun s => set_s_deletions (fetch_sub (s_deletions s) (lenZ (ch_deleting charged))) s);
  _ ← mod_s (release_file (ch_file charged) false);
  settle (with_charged Charged_default st) (RsErr reason).

(** ** Starting and ending the results *)
Definition start_results : auth unit :=
  s ← get_s;
  _ ← ensure (negb (s_recorded_any s) && negb (s_results_closing s)) "destination results must start before any change"%string;
  _ ← ensure (negb (is_some (s_results s))) "destination results have already started"%string;
  _ ← mod_s (set_s_results (Some []));
  mod_s (set_s_results_started true).

(** [finish_results] closes the grant to changes, waits, and ends. *)
Definition finish_results_begin : auth unit :=
  s ← get_s;
  _ ← ensure (s_results_started s) "destination results were not started"%string;
  _ ← ensure (negb (s_results_closing s)) "destination results have already ended"%string;
  mod_s (set_s_results_closing true).

Definition report_unfinished (kv : FileKey * FileLifecycle) (s : AuthState) : AuthState :=
  let '((path, _), l) := kv in
  if fl_listed l then s
  else emit (EvRecord (PublishFile (fl_size l)) (result_path path false)
               (Some (mkFailure (default (bs "the file was not finished") (fl_last_error l)) (fl_last_class l)))) s.

(** Once nothing is in flight. *)
Definition finish_results_end : auth unit :=
  s ← get_s;
  let unfinished := s_lifecycles s in
  _ ← mod_s (set_s_lifecycles ∅);
  _ ← context (s_results s) "destination results are unavailable"%string;
  _ ← mod_s (fun s => foldl (fun s kv => report_unfinished kv s) s (map_to_list unfinished));
  mod_s (emit (EvFinish (s_transferred_bytes s))).
End Settle.
