(* ===== verification/AuthRefund.v ===== *)
(** * What a settled request gets back

    The deletions among the changes a reply says were not made: the source counts
    them in one pass over two lists, each in the order of the operations. *)

From stdpp Require Import strings sorting.
From S2P Require Import Prelude Text Diagnostic Proto Hashing Mapping Grant Lookups AuthData Authority AuthPolicy AuthSettle.
Local Open Scope Z_scope.

Lemma omap_sublist {A B} (g : A -> bool) (h : A -> B) l : omap (fun p => if g p then Some (h p) else None) l `sublist_of` (h <$> l).
Proof. induction l as [|x l IH]; cbn; [done|]. destruct (g x); by constructor. Qed.

(** Strictly increasing: each number is below all that follow. *)
Lemma sublist_increasing (l k : list nat) : l `sublist_of` k -> StronglySorted lt k -> StronglySorted lt l.
Proof.
  induction 1 as [|x l k Hs IH|x l k Hs IH]; intros Hk; [done| |]; apply StronglySorted_inv in Hk as [Hk Hx]; [|by apply IH].
  constructor; [by apply IH|]. rewrite Forall_forall in *. intros y Hy. by eapply Hx, elem_of_sublist.
Qed.

Lemma seq_increasing i n : StronglySorted lt (seq i n).
Proof.
  revert i. induction n as [|n IH]; intros i; cbn; constructor; [done|]. apply Forall_forall. intros x Hx%elem_of_seq. lia.
Qed.

Lemma indices_increasing {A} (f : A -> bool) l : StronglySorted lt (indices f l).
Proof.
  eapply sublist_increasing; [apply (omap_sublist (fun p : nat * A => f p.2) fst)|]. rewrite fmap_imap.
  pose proof (imap_seq_0 l (fun i => i)) as E. rewrite list_fmap_id in E. cbn in *. unfold compose. cbn. rewrite E. apply seq_increasing.
Qed.

Lemma unmade_increasing n rs : StronglySorted lt (unmade n rs).
Proof. unfold unmade. repeat case_match; first [apply seq_increasing|apply indices_increasing|constructor]. Qed.

Lemma skip_below_spec i u x : StronglySorted lt u -> (i <= x)%nat -> x ∈ skip_below i u <-> x ∈ u.
Proof.
  induction u as [|y u IH]; intros Hu Hx; cbn; [done|]. apply StronglySorted_inv in Hu as [Hu _]. case_decide; [|done].
  rewrite IH, elem_of_cons by done. split; [auto|]. intros [->|?]; [lia|done].
Qed.

Lemma skip_below_increasing i u : StronglySorted lt u -> StronglySorted lt (skip_below i u) /\ Forall (fun x => i <= x)%nat (skip_below i u).
Proof.
  induction u as [|y u IH]; intros Hu; cbn; [done|]. pose proof Hu as [Hu' Hy]%StronglySorted_inv. case_decide; [by apply IH|].
  split; [done|]. constructor; [lia|]. eapply Forall_impl; [exact Hy|]. cbn. lia.
Qed.

Lemma head_skip_below i u : StronglySorted lt u -> head (skip_below i u) = Some i <-> i ∈ u.
Proof.
  intros Hu. rewrite <- (skip_below_spec i u i Hu) by lia. destruct (skip_below_increasing i u Hu) as [Hs Hi].
  destruct (skip_below i u) as [|y v]; cbn; [by rewrite elem_of_nil|]. split; [intros [= ->]; left|].
  intros [->|Hv]%elem_of_cons; [done|]. apply StronglySorted_inv in Hs as [_ Hy]. rewrite Forall_forall in Hy. specialize (Hy _ Hv).
  apply Forall_cons in Hi as [? _]. lia.
Qed.

Lemma undeleted_filter d u : StronglySorted lt d -> StronglySorted lt u -> undeleted d u = lenZ (filter (fun i => i ∈ u) d).
Proof.
  revert u. induction d as [|i d IH]; intros u Hd Hu; [done|]. apply StronglySorted_inv in Hd as [Hd Hi]. cbn [undeleted].
  destruct (skip_below_increasing i u Hu) as [Hs _]. rewrite IH by done. rewrite filter_cons.
  assert (E : filter (fun x => x ∈ skip_below i u) d = filter (fun x => x ∈ u) d).
  { clear -Hi Hu. induction Hi as [|x d Hx _ IHd]; [done|]. rewrite !filter_cons, IHd. pose proof (skip_below_spec i u x Hu ltac:(lia)). repeat case_decide; tauto. }
  rewrite E. unfold lenZ. destruct (decide (head _ = _)) as [Hh|Hh]; rewrite head_skip_below in Hh by done; case_decide; cbn; done || lia.
Qed.

(** The deletions a settled request gets back are exactly those of its
    operations that the reply says were not made: the single pass counts what
    looking each one up would. *)
Theorem refunded_deletions_are_those_unmade r n rs :
  undeleted (deleted_indices r) (unmade n rs) = lenZ (filter (fun i => i ∈ unmade n rs) (deleted_indices r)).
Proof.
  apply undeleted_filter; [|apply unmade_increasing]. destruct r; try constructor. apply indices_increasing.
Qed.
