(* ===== verification/AuthRequest.v ===== *)
(** * Authorizing requests (src/src/restricted/authority.rs)

    Every request of the protocol, checked and rewritten against the signed
    grant: operations, preparations, publications, patches, small copies and
    observations, the stream state of a connection, and the settlement of what
    was authorized.
    - An authorization is two steps, as the source takes the state's lock for the
      first: [admit_request] counts the request as in flight or refuses it; the rest
      follows.  The rest is one step here; the source releases the lock between
      its parts.
    - The request that comes back is the one the executor gets. *)

From stdpp Require Import strings.
From S2P Require Import Prelude Text Diagnostic Proto Hashing Mapping Grant Lookups AuthData Authority AuthPolicy AuthSettle.
Local Open Scope Z_scope.

(** [iter_mut().enumerate()] with an early return. *)
Definition for_each_mut {S E A} (f : nat -> A -> method S E A) : nat -> list A -> method S E (list A) :=
  fix go i l := match l with [] => mret [] | x :: l => y ← f i x; ys ← go (Datatypes.S i) l; mret (y :: ys) end.

Definition not_file_condition (c : TargetCondition) : bool :=
  match c with MatchesFingerprint _ _ _ _ => false | _ => true end.
Definition names_identity (c : TargetCondition) : bool :=
  match c with Matches _ _ | MatchesFingerprint _ _ _ _ => true | _ => false end.
Definition special_kind (k : Kind) : bool := match k with Fifo | Socket | CharDev | BlockDev => true | _ => false end.

(** Requests the server executes and then settles. *)
Definition is_tracked (r : Request) : bool :=
  match r with
  | RqHello | RqScan _ _ _ _ | RqTcpListen _ _ _ _ _ _ | RqTransportStats | RqWriteStreamFence | RqDestinationResults _
  | RqFinishDestinationResults | RqShutdown | RqRestoreDestinationPath => false
  | _ => true
  end.

(** Requests that do not end a prepared small copy. *)
Definition keeps_small_copy (r : Request) : bool := match r with RqCopySmallFiles _ | RqTransportStats => true | _ => false end.

Definition KEY_LEN : nat := 32.

Section Requests.
Context `{HashLib} {Gitignore : Type} (is_ignore : Gitignore -> PathBytes -> bool -> bool).
Context (from_json : list Z -> option WireEntry) (base64 : list Z -> option (list Z)).
Context (key : PathBytes -> Z) (cf : Config (Gitignore := Gitignore)) (W : World).
Abbreviation auth := (method Call AuthError).
Abbreviation destination := (destination cf).
Abbreviation policy := (policy cf).
Abbreviation options := (options cf).
Abbreviation limits := (limits cf).
Abbreviation rooted_metadata := (rooted_metadata cf W).
Abbreviation check_mutation_path := (check_mutation_path is_ignore cf).
Abbreviation check_file_bytes := (check_file_bytes is_ignore cf W).
Abbreviation expected_hash := (Authority.expected_hash cf).
Abbreviation constrain_creation := (constrain_creation cf W).
Abbreviation constrain_publication := (constrain_publication key cf W).
Abbreviation constrain_update := (constrain_update cf W).
Abbreviation check_metadata := (check_metadata cf).
Abbreviation require_publication_mode := (require_publication_mode cf).

(** ** Operations *)
Definition is_new_object (op : Op) : bool :=
  match op with OpMkdir _ _ _ | OpSymlink _ _ _ _ _ | OpMknod _ _ _ _ _ _ => true | _ => false end.

Definition authorize_hardlink (path source : PathBytes) (dev ino : Z) (condition : TargetCondition) (index : nat)
    : auth TargetCondition :=
  _ ← ensure (eo_hardlinks (cf_extra_options cf)) "hardlink creation is not authorized by the signed grant"%string;
  h ← expected_hash path;
  hs ← (if is_some h then mret None else expected_hash source);
  _ ← ensure (negb (is_some h || is_some hs)) "expected hashes require their own file publications, not hard links"%string;
  _ ← check_mutation_path source false;
  _ ← check_mutation_path path false;
  _ ← ensure (not_file_condition condition) "hardlink publication accepts no fingerprint condition"%string;
  condition ← constrain_creation path condition false true index;
  let keep := bool_decide (creation_policy cf false = Skip) in
  let condition := if keep then Absent else condition in
  _ ← m_modify (fun c => set_ca_pending
        ((fun p => if decide (pc_path p = path) then mkCreation (pc_index p) (pc_path p) false true else p) <$> ca_pending c) c);
  _ ← mod_s (fun s => set_s_created (s_created s ∖ {[path]}) s);
  found ← rooted_metadata path;
  let linked := match found with Some m => same_object dev ino m | None => false end in
  let condition := if linked && negb keep then Matches dev ino else condition in
  _ ← push_outcome (if linked then PoLogicalIfFailed index path LinkFile else PoLogical index path LinkFile);
  mret condition.

(** A directory that a mapping only implies. *)
Definition constrain_parent (path : PathBytes) (condition : TargetCondition) (index : nat) : auth TargetCondition :=
  observed ← (if decide (condition = Absent) then mret None else rooted_metadata path);
  let pol := match cp_existing policy with
             | Replace => if is_some observed && negb (root_must_be_new cf path) then MustExist else Skip
             | p => p
             end in
  constrain_observed_creation W path condition true index pol observed.

Definition authorize_mkdir (path : PathBytes) (mode : Z) (condition : TargetCondition) (index : nat) : auth Op :=
  implicit ← mapping_parent cf path;
  condition ← (if implicit : bool then constrain_parent path condition index
               else constrain_creation path condition true false index);
  let mode := if co_preserve_permissions options then mode else Z.land mode 511 in
  _ ← push_outcome (PoLogical index path EnsureDirectory);
  mret (OpMkdir path mode condition).

Definition authorize_set_meta (path : PathBytes) (meta : Meta) (flags : Z) (condition : TargetCondition) (directory : bool)
    (metadata_kind : option Kind) (index : nat) : auth Op :=
  implicit ← mapping_parent cf path;
  _ ← ensure (negb (implicit && negb (bool_decide (Z.ldiff flags (Z.lor MODE RECEIVER_MODE) = 0))))
        "mapping cannot change metadata of an existing implicit parent"%string;
  let flags := if implicit && negb (bool_decide (flags = 0)) then RECEIVER_MODE else flags in
  condition ← constrain_update path condition directory;
  _ ← (if implicit : bool
       then ensure (negb (is_some (me_inode_metadata meta))) "signed grants do not authorize additional inode metadata"%string
       else check_metadata path meta flags);
  _ ← push_outcome (PoMetadata index path metadata_kind);
  mret (OpSetMeta path meta flags condition directory).

(** The kind a metadata change applies to, where it is known. *)
Definition metadata_kind (op : Op) : auth (option Kind) :=
  match op with
  | OpSetMeta _ _ _ _ true => mret (Some Dir)
  | OpSetMeta path _ _ _ false =>
      s ← get_s;
      if is_some (cf_filter_matcher cf) || is_some (s_mapping s) then
        found ← rooted_metadata path;
        mret (Some (match found with Some m => kind_from_mode (rm_mode m) | None => File end))
      else mret None
  | _ => mret None
  end.

Definition op_is_dir (op : Op) (kind : option Kind) : bool :=
  match op with OpMkdir _ _ _ => true | OpSetMeta _ _ _ _ _ => bool_decide (kind = Some Dir) | _ => false end.

Definition authorize_delete (path : PathBytes) (is_dir : bool) (index : nat) : auth unit :=
  _ ← check_deletion is_ignore cf path is_dir;
  _ ← forget_lookup key cf path;
  push_outcome (PoLogical index path (if is_dir then DeleteDirectory else DeleteNonDirectory)).

(** The checks every other operation passes first. *)
Definition check_op (op : Op) : auth (option Kind) :=
  _ ← match op with
      | OpSymlink _ _ _ _ _ => ensure (co_preserve_symlinks options) "symlink creation is not authorized by the signed grant"%string
      | OpMknod _ _ _ _ _ _ => ensure (co_preserve_devices options) "special-file creation is not authorized by the signed grant"%string
      | _ => mret tt
      end;
  kind ← metadata_kind op;
  _ ← check_mutation_path (op_path op) (op_is_dir op kind);
  h ← expected_hash (op_path op);
  _ ← ensure (negb (is_some h && is_new_object op)) "expected hash requires a regular file"%string;
  mret kind.

Definition authorize_op (index : nat) (op : Op) : auth Op :=
  match op with
  | OpHardlink path source dev ino condition =>
      condition ← authorize_hardlink path source dev ino condition index; mret (OpHardlink path source dev ino condition)
  | OpRemove _ => bail "recursive remove is not supported by the root-confined receiver"
  | OpRmdir path => _ ← authorize_delete path true index; mret op
  | OpUnlink path => _ ← authorize_delete path false index; mret op
  | OpMkdir path mode condition => _ ← check_op op; authorize_mkdir path mode condition index
  | OpSymlink path target condition meta flags =>
      _ ← check_op op;
      condition ← constrain_creation path condition false true index;
      _ ← check_metadata path meta flags;
      _ ← push_outcome (PoLogical index path CreateSymlink);
      mret (OpSymlink path target condition meta flags)
  | OpMknod path mode rdev condition meta flags =>
      _ ← check_op op;
      _ ← ensure (special_kind (kind_from_mode mode)) "special-file creation requires a FIFO, socket, or device mode"%string;
      let permitted := if co_preserve_permissions options then 4095 else 511 in
      let mode := Z.lor (Z.land mode S_IFMT) (Z.land mode permitted) in
      condition ← constrain_creation path condition false true index;
      _ ← check_metadata path meta flags;
      _ ← push_outcome (PoLogical index path CreateSpecial);
      mret (OpMknod path mode rdev condition meta flags)
  | OpSetMeta path meta flags condition directory =>
      kind ← check_op op; authorize_set_meta path meta flags condition directory kind index
  | OpSetFileMetaIfSame path condition meta flags =>
      _ ← check_op op;
      condition ← constrain_update path condition false;
      _ ← check_metadata path meta flags;
      _ ← push_outcome (PoLogical index path (SetMetadata File));
      mret (OpSetFileMetaIfSame path condition meta flags)
  end.

(** One operation of an [Apply]: the metadata of the directory the copy goes
    into is only the receiver's choice. *)
Definition authorize_apply_op (index : nat) (op : Op) : auth Op :=
  match op with
  | OpSetMeta path meta flags condition directory =>
      if bool_decide (widened_outer cf = Some path) then mret (OpSetMeta path meta RECEIVER_MODE condition directory)
      else authorize_op index op
  | _ => authorize_op index op
  end.

(** ** Small files *)
Definition authorize_put (index : nat) (put : SmallPut) : auth SmallPut :=
  h ← expected_hash (sp_path put);
  _ ← ensure (negb (is_some h)) "expected-hash files require checked finalization"%string;
  _ ← check_file_bytes (sp_path put) 0 (lenZ (sp_data put));
  _ ← (if sp_inplace put then constrain_inplace cf (sp_path put) true else mret tt);
  '(condition, scanned) ← constrain_publication (sp_path put) (sp_condition put) (sp_inplace put) index;
  _ ← push_outcome (PoLogical index (sp_path put) (PublishFile (lenZ (sp_data put))));
  _ ← check_metadata (sp_path put) (sp_meta put) (sp_flags put);
  mret (mkSmallPut (sp_path put) (sp_copy_id put) (sp_data put) (sp_meta put) (sp_flags put) (sp_inplace put) condition scanned).

Definition authorize_puts (puts : list SmallPut) : auth (list SmallPut) :=
  _ ← (if existsb sp_inplace puts then require_publication_mode true "small-file publication does not match the signed publication policy"%string
       else mret tt);
  _ ← batch_within_burst cf ((fun p => lenZ (sp_data p)) <$> puts) "small-file batch byte count overflow"
        "small-file batch exceeds the signed file-data rate-limit burst";
  for_each_mut authorize_put 0 puts.

Definition with_condition (c : TargetCondition) (p : SmallPatch) : SmallPatch :=
  mkSmallPatch (pa_path p) (pa_copy_id p) (pa_len p) (pa_block p) (pa_reuse p) (pa_data p) (pa_meta p) (pa_flags p)
    (pa_unchanged_flags p) c (pa_update_in_place p).

Definition authorize_patch (index : nat) (p : SmallPatch) : auth SmallPatch :=
  let path := pa_path p in
  h ← expected_hash path;
  _ ← ensure (negb (is_some h)) "expected-hash files require checked finalization"%string;
  _ ← lift (check_comparison_request cf (pa_block p) (pa_len p));
  _ ← ensure (bool_decide (Z.ldiff (Z.lxor (pa_flags p) (pa_unchanged_flags p)) TIMES = 0))
        "kept and published metadata flags differ beyond times"%string;
  _ ← check_metadata path (pa_meta p) (pa_unchanged_flags p);
  _ ← (if pa_update_in_place p then
         _ ← ensure (updates_existing_files_in_place (cp_publication policy))
               "small-file patch does not match the signed publication policy"%string;
         constrain_inplace cf path false
       else mret tt);
  _ ← check_file_bytes path 0 (lenZ (pa_data p));
  condition ← constrain_creation path (pa_condition p) false false index;
  condition ← constrain_update path condition false;
  _ ← check_metadata path (pa_meta p) (pa_flags p);
  hold ← reserve_bytes cf path (pa_copy_id p) (pa_len p) true;
  _ ← push_outcome (PoPatch index path (pa_copy_id p) (pa_len p) hold);
  mret (with_condition condition p).

Definition authorize_patches (patches : list SmallPatch) : auth (list SmallPatch) :=
  _ ← ensure (patch_batch_fits (pa_len <$> patches)) "small-file patch batch describes more file bytes than the protocol allows"%string;
  _ ← batch_within_burst cf ((fun p => lenZ (pa_data p)) <$> patches) "small-file batch byte count overflow"
        "small-file batch exceeds the signed file-data rate-limit burst";
  for_each_mut authorize_patch 0 patches.

(** A refused batch releases what its patches already hold: the outcomes from
    [first] on leave the call. *)
Definition rollback_patches (first : nat) : auth unit :=
  c ← m_get;
  _ ← m_modify (set_ca_outcomes (take first (ca_outcomes c)));
  release_patch_holds (drop first (ca_outcomes c)).

Definition authorize_patch_batch (patches : list SmallPatch) : auth (list SmallPatch) := fun c =>
  let first := length (ca_outcomes c) in
  match authorize_patches patches c with
  | (c, Ok ps) => (c, Ok ps)
  | (c, Err e) => match rollback_patches first c with
                  | (c, Ok _) => (c, Err e)
                  | (c, Err e') => (c, Err e')
                  end
  end.

Definition authorize_small_file (request : SmallCopyRequest) (flags : Z) (index : nat) (f : SmallCopyFile) : auth SmallCopyFile :=
  _ ← ensure (bool_decide (path_parent (sc_path f) = Some (sr_directory request)))
        "small copy names a file outside the directory it writes into"%string;
  h ← expected_hash (sc_path f);
  _ ← ensure (negb (is_some h)) "expected-hash files require checked finalization"%string;
  _ ← check_file_bytes (sc_path f) 0 (sc_size f);
  _ ← check_metadata (sc_path f) (sc_meta f) flags;
  _ ← push_outcome (PoSmallCopy index (sc_path f) (sc_size f));
  mret f.

Definition authorize_small_copy (request : SmallCopyRequest) : auth unit :=
  _ ← ensure (bool_decide (creation_policy cf false = Replace) && bool_decide (cf_root_existence cf = RootAny))
        "the small-copy shortcut replaces existing files, which this grant does not"%string;
  _ ← require_publication_mode false "small-copy publication does not match the signed publication policy"%string;
  _ ← ensure (bool_decide (sr_hash_policy request = hash_policy cf)) "hash policy differs from the authorized copy"%string;
  let exact := bool_decide (cp_placement policy = ExactPath) in
  let in_destination := bool_decide (sr_directory request = destination) && negb exact in
  let at_destination := exact && bool_decide (path_parent destination = Some (sr_directory request)) in
  _ ← ensure (in_destination || at_destination) "small copy writes into a directory other than the signed destination"%string;
  _ ← batch_within_burst cf (sc_size <$> sr_files request) "small copy byte count overflow"
        "small copy exceeds the signed file-data rate-limit burst";
  let flags := Z.lor (sr_flags request) (Z.land (sr_matching_flags request) TIMES) in
  _ ← for_each_mut (authorize_small_file request flags) 0 (sr_files request);
  mret tt.

(** ** Widening directories *)
Definition widen_directory (index : nat) (d : PathBytes * TargetCondition) : auth (PathBytes * TargetCondition) :=
  let '(path, condition) := d in
  if bool_decide (widened_outer cf = Some path) then
    condition ← outer_directory_condition cf W path condition; mret (path, condition)
  else
    _ ← ensure (names_identity condition) "temporary directory access requires an existing identity"%string;
    op ← authorize_op index (OpMkdir path 448 condition);
    match op with OpMkdir _ _ condition => mret (path, condition) | _ => m_fail Panicked end.

Definition check_widening (access : Z) : auth unit :=
  match eo_widen_dirs (cf_extra_options cf) with
  | WidenNone => bail "the approved copy does not widen read-only directories"
  | WidenRsync =>
      ensure (bool_decide (Z.ldiff access 192 = 0) ||
              (bool_decide (access = 448) && bool_decide (cp_deletion policy = DeleteDestinationOnly)))
        "the approved copy widens only directories it includes, as rsync does"%string
  | WidenAll => mret tt
  end.

(** The directory whose filesystem the copy asks about. *)
Definition filesystem_target (check_empty : bool) : auth (bool * option (PathBytes * Z * Z)) :=
  found ← rooted_metadata destination;
  let target path (m : RootMetadata) : option (PathBytes * Z * Z) :=
    if decide (path = cf_root_path cf) then None
    else Some (match root_relative cf path with Ok components => mjoin (imap (fun i c => if i then c else slash :: c) components) | Err _ => [] end,
               rm_dev m, rm_ino m) in
  let root_target : auth (bool * option (PathBytes * Z * Z)) :=
    found ← rooted_metadata (cf_root_path cf);
    m ← context found "the directory the destination is in is missing"%string;
    mret (false, target (cf_root_path cf) m) in
  let parent := match before_last_slash destination with
                | Some p => if decide (length (cf_root_path cf) < length p)%nat then p else cf_root_path cf
                | None => cf_root_path cf
                end in
  let outside : auth (bool * option (PathBytes * Z * Z)) :=
    found ← rooted_metadata parent;
    match found with
    | Some m => if rm_is_dir m then mret (false, target parent m) else root_target
    | None => root_target
    end in
  match found with
  | Some m => if rm_is_dir m then mret (check_empty, target destination m) else outside
  | None => outside
  end.

(** ** Files *)
Definition too_large : string := "signed grant per-file byte limit exceeded".

Definition authorize_basis (bounded : bool) (path : PathBytes) (copy_id : CopyId) (len block : Z) : auth unit :=
  _ ← lift (check_hash_request cf block (if bounded then 0 else len));
  _ ← require_publication_mode false "staged basis creation does not match the signed publication policy"%string;
  _ ← ensure (negb (bool_decide (cl_max_file_bytes limits < len))) too_large;
  _ ← check_mutation_path path false;
  _ ← constrain_prepare key cf W path;
  _ ← reserve_bytes cf path copy_id len false;
  push_outcome (PoFileStage 0 path copy_id (Some len) StagePrepare false None).

Definition authorize_prepare (path : PathBytes) (size : Z) (inplace : bool) (copy_id : CopyId) (mode flags : Z)
    (create_if_missing : bool) (update : option (Meta * Z)) : auth unit :=
  _ ← require_publication_mode inplace "file preparation does not match the signed publication policy"%string;
  _ ← match update with
      | Some (meta, uflags) =>
          _ ← ensure (inplace && updates_existing_files_in_place (cp_publication policy))
                "file preparation does not match the signed publication policy"%string;
          check_metadata path meta uflags
      | None => mret tt
      end;
  _ ← check_preparation_flags cf path mode flags;
  _ ← ensure (negb (bool_decide (cl_max_file_bytes limits < size))) too_large;
  _ ← check_mutation_path path false;
  _ ← (if inplace then constrain_inplace cf path create_if_missing else mret tt);
  _ ← constrain_prepare key cf W path;
  hold ← reserve_bytes cf path copy_id size (negb create_if_missing);
  push_outcome (PoFileStage 0 path copy_id (Some size) StagePrepare (negb create_if_missing) hold).

Definition check_stream_begin (patch : SmallPatch) (data_len : Z) : auth unit :=
  _ ← ensure (bool_decide (pa_data patch = [])) "a streamed patch carries its data in pieces"%string;
  _ ← ensure (negb (pa_update_in_place patch)) "a streamed patch is staged, not written in place"%string;
  _ ← lift (check_comparison_request cf (pa_block patch) (pa_len patch));
  _ ← ensure (bool_decide (lenZ (pa_reuse patch) = div_ceil (pa_len patch) (pa_block patch))) "streamed patch lists another number of blocks"%string;
  ensure (negb (bool_decide (data_len = 0)) && bool_decide (data_len = new_bytes patch))
    "streamed patch declares other new bytes than its blocks have"%string.

Definition authorize_finish_basis (path : PathBytes) (meta : Meta) (flags : Z) (condition : TargetCondition) : auth Request :=
  h ← expected_hash path;
  _ ← check_mutation_path path false;
  condition ← constrain_update path condition false;
  _ ← check_metadata path meta flags;
  _ ← push_outcome (PoLogical 0 path KeepFile);
  mret (RqFinishBasis (Single <$> h) path meta flags condition).

Definition authorize_finalize (path : PathBytes) (inplace : bool) (copy_id : CopyId) (meta : Meta) (flags : Z)
    (condition : TargetCondition) : auth Request :=
  h ← expected_hash path;
  _ ← require_publication_mode inplace "file finalization does not match the signed publication policy"%string;
  _ ← check_mutation_path path false;
  '(condition, scanned) ← constrain_publication path condition inplace 0;
  _ ← push_outcome (PoFileStage 0 path copy_id None StageFinalize false None);
  _ ← check_metadata path meta flags;
  mret (RqFinalize (Single <$> h) path inplace copy_id meta flags scanned condition).

Definition authorize_listen (over_ssh : bool) (key token : list Z) (has_key : bool) (port_lo port_hi : Z)
    (congestion_control : option (list Z)) (send_rate : option Z) : auth unit :=
  _ ← ensure (negb (is_some send_rate)) "signed copies retain their authorized bandwidth policy"%string;
  _ ← ensure over_ssh "TCP listener request is allowed only on the signed control connection"%string;
  _ ← ensure (has_key && bool_decide (length key = KEY_LEN) && bool_decide (length token = 16%nat))
        "signed transfers require encrypted TCP data connections"%string;
  _ ← ensure (bool_decide (port_lo = co_tcp_port_lo options) && bool_decide (port_hi = co_tcp_port_hi options))
        "TCP listener range does not match the signed grant"%string;
  _ ← ensure (bool_decide (congestion_control = cf_tcp_congestion cf))
        "TCP congestion override is not authorized by the signed grant"%string;
  s ← get_s;
  _ ← ensure (negb (s_tcp_listener_started s)) "signed grant permits only one TCP listener"%string;
  mod_s (set_s_tcp_listener_started true).

Definition append_mapping (over_ssh : bool) (offset : Z) (data : list Z) (finish : bool) : auth unit :=
  _ ← ensure over_ssh "mapping admission requires the signed control connection"%string;
  s ← get_s;
  a ← context (s_mapping s) "this grant does not authorize a mapping"%string;
  let '(a, r) := append from_json base64 offset data finish a in
  _ ← mod_s (set_s_mapping (Some a));
  lift r.

(** ** One request *)
Definition no_source (source : bool) : auth unit :=
  ensure (negb source) "source references are not valid on a restricted destination"%string.
Definition observe_all (paths : list PathBytes) : auth unit := for_each (check_observation_path cf) paths.

Definition authorize_scan (root : PathBytes) (source follow_root : bool) (ignore : list (list Z)) : auth unit :=
  _ ← no_source source;
  s ← get_s;
  _ ← ensure (negb (is_some (s_mapping s))) "mapping grants do not authorize recursive destination scans"%string;
  _ ← ensure (negb follow_root) "signed destination scans cannot follow a root symlink"%string;
  _ ← check_observation_path cf root;
  let expected := if fp_delete_excluded (cf_filters cf) then [] else fp_ignore (cf_filters cf) in
  ensure (negb (filter_applies cf root && negb (bool_decide (ignore = expected))))
    "destination scan filters do not match the signed filter policy"%string.

Definition allow_probe (probe : bool) : auth bool := fun c =>
  match check_mutation_allowed cf c with (c, Ok _) => (c, Ok probe) | (c, Err _) => (c, Ok false) end.

Definition authorize_inner (over_ssh : bool) (r : Request) : auth Request :=
  _ ← check_deadline cf W;
  match r with
  | RqCreateSendBudget => bail "signed copies retain their authorized bandwidth policy"
  | RqConfigureHashing p => _ ← ensure (bool_decide (p = hash_policy cf)) "hash policy differs from the authorized copy"%string; mret r
  | RqValidateDigest path expected =>
      _ ← check_observation_path cf path;
      authorized ← expected_hash path;
      _ ← match authorized with
          | Some d => ensure (match expected with Single e => bool_decide (e = d) | Multiple _ => false end)
                        "expected hash differs from the authorized copy"%string
          | None => mret tt
          end;
      mret r
  | RqMappingChunk offset data finish => _ ← append_mapping over_ssh offset data finish; mret r
  | RqTcpListen key token port_lo port_hi congestion_control send_rate =>
      _ ← authorize_listen over_ssh (default [] key) token (is_some key) port_lo port_hi congestion_control send_rate; mret r
  | RqScan root source follow_root ignore => _ ← authorize_scan root source follow_root ignore; mret r
  | RqStatMany paths sources follow =>
      _ ← no_source sources;
      _ ← ensure (negb follow) "signed destination stat cannot follow symlinks"%string;
      _ ← observe_all paths;
      mret r
  | RqDestinationFilesystemInfo check_empty _ =>
      '(check_empty, target) ← filesystem_target check_empty; mret (RqDestinationFilesystemInfo check_empty target)
  | RqPartialPaths paths | RqPruneLookup paths => _ ← observe_all paths; mret r
  | RqPlanBatch partial_paths directories others => _ ← observe_all (partial_paths ++ directories ++ others); mret r
  | RqWidenDirectories directories _ access =>
      _ ← check_widening access;
      directories ← for_each_mut widen_directory 0 directories;
      mret (RqWidenDirectories directories true access)
  | RqPrepareDestinationPath path _ =>
      _ ← ensure (bool_decide (eo_widen_dirs (cf_extra_options cf) = WidenAll))
            "the approved copy does not widen the directories on the way to its destination"%string;
      _ ← check_mutation_allowed cf;
      _ ← ensure (negb (bool_decide (head path = Some slash)) ||
                  (negb (bool_decide (path = cf_root_path cf)) && path_is_at_or_below path (cf_root_path cf)))
            "nothing above the directory the destination is in is widened"%string;
      mret (RqPrepareDestinationPath destination SymlinkRefuse)
  | RqRestoreDestinationPath => mret r
  | RqApply ops => ops ← for_each_mut authorize_apply_op 0 ops; mret (RqApply ops)
  | RqProbePartial path | RqCanonicalize path => _ ← check_observation_path cf path; mret r
  | RqFileHash path source => _ ← no_source source; _ ← check_observation_path cf path; mret r
  | RqHashBlocks path source block len =>
      _ ← no_source source; _ ← lift (check_hash_request cf block len); _ ← check_observation_path cf path; mret r
  | RqHashWindow path off len block =>
      _ ← ensure (hash_window_fits off len block) "invalid hash window"%string; _ ← check_observation_path cf path; mret r
  | RqHashAndHold path block len => _ ← lift (check_hash_request cf block len); _ ← check_observation_path cf path; mret r
  | RqHashExistingBatch block files =>
      _ ← lift (validate_each (fun f => check_comparison_request cf block f.2) files);
      _ ← ensure (existing_hashes_fit block files.*2) "hash response would exceed protocol limits"%string;
      _ ← observe_all files.*1;
      mret r
  | RqStageBasis path copy_id len block => _ ← authorize_basis true path copy_id len block; mret r
  | RqSeedBasis path copy_id len block => _ ← authorize_basis false path copy_id len block; mret r
  | RqFinishBasis _ path meta flags condition => authorize_finish_basis path meta flags condition
  | RqPrepare path size inplace copy_id mode flags _ create_if_missing update =>
      _ ← authorize_prepare path size inplace copy_id mode flags create_if_missing update;
      mret (RqPrepare path size inplace copy_id mode flags ScUnknown create_if_missing update)
  | RqReuseComparedRange path copy_id off len =>
      _ ← require_publication_mode false "staged block reuse does not match the signed publication policy"%string;
      _ ← check_mutation_path path false;
      _ ← ensure (bool_decide (0 < len) && is_some (u64_add off len)) "invalid reused block"%string;
      _ ← push_outcome (PoFileStage 0 path copy_id None StageWrite false None);
      mret r
  | RqWriteRange path inplace copy_id off data =>
      _ ← require_publication_mode inplace "file write does not match the signed publication policy"%string;
      _ ← push_outcome (PoFileStage 0 path copy_id None StageWrite false None);
      _ ← check_file_bytes path off (lenZ data);
      mret r
  | RqFinalize _ path inplace copy_id meta flags _ condition => authorize_finalize path inplace copy_id meta flags condition
  | RqPutSmallBatch puts => puts ← authorize_puts puts; mret (RqPutSmallBatch puts)
  | RqPatchSmallBatch patches => patches ← authorize_patch_batch patches; mret (RqPatchSmallBatch patches)
  | RqPatchBegin patch data_len =>
      _ ← check_stream_begin patch data_len;
      patches ← authorize_patch_batch [patch];
      match patches with [patch] => mret (RqPatchBegin patch data_len) | _ => m_fail Panicked end
  | RqPatchData _ | RqPatchEnd => mret r
  | RqCopyLocal | RqReadRange | RqReadComparedRange | RqReadStream | RqShrinkReadStream | RqStopReadStream | RqReadSmallBatch
  | RqReadDifferingBatch => bail "request is not valid on a restricted destination"
  | RqPrepareSmallFiles request => _ ← authorize_small_copy request; mret r
  | RqCopySmallFiles _ => mret r
  | RqListDir | RqListDirDetails | RqListDirNoFollowFinal => bail "directory completion is not valid on a restricted destination"
  | RqCheckOperatorDirectory | RqCheckOperatorDirectoryAncestry | RqCheckOperatorDirectoryAncestryWithAccess
  | RqCheckSearchableOperatorDirectory | RqRegisterSourceRoots | RqCreateOperatorDirectory | RqAnchorDestination =>
      bail "destination-anchor management is not valid on a root-confined receiver"
  | RqNativeMap => bail "mapping generation is not valid on a restricted destination"
  | RqNativeRemove => bail "native removal is not valid on a restricted destination"
  | RqConfigurePreservation selection sparse narrow_new_directories unchecked_keep =>
      _ ← ensure (negb unchecked_keep) "a restricted receiver keeps existing files atomically"%string;
      _ ← ensure (negb (narrow_new_directories || (sparse && negb (eo_sparse (cf_extra_options cf))) ||
                        negb (extra_allows (cf_extra_options cf) selection)))
            "inode metadata or read policy is not authorized by the signed grant"%string;
      mret r
  | RqDescriptorCopy | RqBindStream => bail "descriptor copies are not valid on a restricted receiver"
  | RqHello => bail "unexpected second receiver handshake"
  | RqDestinationResults _ | RqFinishDestinationResults =>
      _ ← ensure over_ssh "destination results run only on the signed control connection"%string; mret r
  | RqNewFileOwner path probe =>
      _ ← check_observation_path cf path; probe ← allow_probe probe; mret (RqNewFileOwner path probe)
  | RqTransportStats | RqReceiverUser | RqShutdown | RqWriteStreamFence => mret r
  end.

(** ** The connection's stream state *)
Definition get_g : auth PatchStreamGate := fun c => (c, Ok (ca_gate c)).
Definition set_open (o : option OpenPatchStream) : auth unit := m_modify (fun c => set_ca_gate (mkGate o (g_small_copy (ca_gate c))) c).
Definition set_small_copy (o : option PreparedSmallCopy) : auth unit := m_modify (fun c => set_ca_gate (mkGate (g_open (ca_gate c)) o) c).

(** Whether some payload was not asked for, is sent twice or has another size;
    [sent]: the indices already sent. *)
Fixpoint payloads_mismatched (needed : list bool) (sizes : list Z) (sent : list nat) (payloads : list SmallCopyPayload) : bool :=
  match payloads with
  | [] => false
  | p :: payloads =>
      let index := sy_index p in
      negb (default false (needed !! index)) || bool_decide (index ∈ sent) ||
      negb (bool_decide (sizes !! index = Some (lenZ (sy_data p)))) ||
      payloads_mismatched needed sizes (index :: sent) payloads
  end.

Definition authorize_stream (r : Request) : auth unit :=
  g ← get_g;
  match r with
  | RqPrepareSmallFiles request => m_modify (set_ca_step (StepPrepareSmallCopy (sc_size <$> sr_files request)))
  | RqCopySmallFiles payloads =>
      _ ← set_small_copy None;
      prepared ← context (g_small_copy g) "no small copy is prepared on this connection"%string;
      _ ← m_modify (set_ca_step (StepCopySmallCopy (ps_settlement prepared)));
      ensure (negb (payloads_mismatched (ps_needed prepared) (ps_sizes prepared) [] payloads))
        "small copy payloads differ from what its preparation asked for"%string
  | RqPatchBegin patch data_len =>
      _ ← ensure (negb (is_some (g_open g))) "a streamed patch is already open on this connection"%string;
      m_modify (set_ca_step (StepBegin (pa_path patch) data_len))
  | RqPatchData data =>
      open ← context (g_open g) "no streamed patch is open on this connection"%string;
      received ← context (r ← u64_add (op_received open) (lenZ data); if decide (r <= op_declared open) then Some r else None)
        "streamed patch data runs past the length its begin declared"%string;
      _ ← check_file_bytes (op_file open) (op_received open) (lenZ data);
      set_open (Some (mkOpenPatch (op_file open) (op_declared open) received (op_settlement open)))
  | RqPatchEnd =>
      _ ← ensure (is_some (g_open g)) "no streamed patch is open on this connection"%string;
      m_modify (set_ca_step StepEnd)
  | _ => mret tt
  end.

(** ** Authorization *)
Definition small_copy_ended : list Z := bs "the small copy ended without its payloads".

(** Before admission: a prepared small copy ends. *)
Definition end_small_copy (r : Request) : auth unit :=
  g ← get_g;
  match g_small_copy g with
  | Some prepared => if keeps_small_copy r then mret tt else
                       _ ← set_small_copy None; settle_unexecuted cf W (ps_settlement prepared) small_copy_ended
  | None => mret tt
  end.

Definition admit_request (r : Request) : auth unit :=
  _ ← check_control cf W;
  if is_tracked r then
    s ← get_s;
    _ ← ensure (negb (s_results_closing s)) "the signed grant is closed: its results have ended"%string;
    mod_s (set_s_in_flight (s_in_flight s + 1))
  else mret tt.

(** The check and the charge, once admitted. *)
Definition authorize_checked (over_ssh : bool) (r : Request) : auth (Request * Charged) :=
  r ← authorize_inner over_ssh r;
  _ ← authorize_stream r;
  charged ← charge_request cf r;
  mret (r, charged).

Definition error_text (e : AuthError) : string := match e with Refused m | Kept m => m | Panicked => "panic" end.

(** What a refused request leaves: nothing of it executes. *)
Definition refuse (r : Request) (e : AuthError) : auth unit :=
  c ← m_get;
  _ ← match ca_step c with
      | StepCopySmallCopy prepared => settle_unexecuted cf W prepared (bs (error_text e))
      | _ => mret tt
      end;
  _ ← forget_provisional (ca_pending c);
  _ ← release_patch_holds (ca_outcomes c);
  s ← get_s;
  let is_kept := match e with Kept _ => true | _ => false end in
  changes ← (if s_results_started s && negb is_kept then requested_changes cf W r else mret []);
  _ ← (if is_kept then mod_s (fun s => match file_key r with
                                      | Some k => set_s_lifecycles (delete k (s_lifecycles s)) s | None => s end)
       else
         _ ← mod_s (set_s_recorded_any true);
         if s_results_started s then
           _ ← mod_s (emit (EvRefused (error_text e) changes)); mod_s (end_refused_lifecycles r)
         else mret tt);
  if is_tracked r then mod_s (fun s => set_s_in_flight (saturating_sub (s_in_flight s) 1) s) else mret tt.

(** A call starts with nothing collected. *)
Definition begin_call (s : AuthState) (g : PatchStreamGate) : Call := mkCall s g [] [] StepNone.

(** The rest of [authorize_streaming], for an admitted request. *)
Definition authorize_admitted (over_ssh : bool) (r : Request) : auth (Request * Settlement) := fun c =>
  match authorize_checked over_ssh r c with
  | (c, Ok (r', charged)) => (c, Ok (r', mkSettlement (ca_pending c) (ca_outcomes c) charged (is_tracked r) (ca_step c)))
  | (c, Err Panicked) => (c, Err Panicked)
  | (c, Err e) => match refuse r e c with
                  | (c, Ok _) => (c, Err e)
                  | (c, Err e') => (c, Err e')
                  end
  end.

Definition authorize_streaming (over_ssh : bool) (r : Request) : auth (Request * Settlement) :=
  _ ← end_small_copy r; _ ← admit_request r; authorize_admitted over_ssh r.

(** ** [PatchStreamGate] *)
Definition gate_settle (st : Settlement) (response : Response) (opened : bool) : auth unit :=
  let held := with_stream StepNone st in
  match st_stream st with
  | StepBegin path declared =>
      if opened then set_open (Some (mkOpenPatch path declared 0 held)) else settle cf W held response
  | StepEnd =>
      _ ← settle cf W held response;
      g ← get_g;
      match g_open g with Some open => _ ← set_open None; settle cf W (op_settlement open) response | None => mret tt end
  | StepPrepareSmallCopy sizes =>
      match response with
      | RsSmallFilesPrepared needed =>
          if decide (length needed = length sizes) then set_small_copy (Some (mkPrepared sizes needed held))
          else settle cf W held response
      | _ => settle cf W held response
      end
  | StepCopySmallCopy prepared => _ ← settle cf W held response; settle cf W prepared response
  | StepNone => settle cf W held response
  end.

Definition abandon (error : list Z) : auth unit :=
  g ← get_g;
  match g_open g with
  | Some open =>
      _ ← set_open None;
      settle cf W (op_settlement open)
        (RsPatchedBatch [Err (mkPatchError (WireError_from error) false false false)])
  | None => mret tt
  end.

Definition gate_drop : auth unit :=
  _ ← abandon (bs "the connection closed before its streamed patch ended");
  g ← get_g;
  match g_small_copy g with
  | Some prepared =>
      _ ← set_small_copy None;
      settle_unexecuted cf W (ps_settlement prepared) (bs "the connection closed before the small copy's payloads")
  | None => mret tt
  end.
End Requests.
