(* ===== verification/AuthFrame.v ===== *)
(** * What the checks leave alone

    Sums over maps, the part of the state that only admission, charging and
    settling touch, and the tame methods: they keep that part, keep the
    reservations well formed, and do not panic. *)

From stdpp Require Import strings.
From S2P Require Import Prelude Text Diagnostic Proto Hashing Mapping MappingGrant Grant Lookups AuthData Authority AuthPolicy AuthSettle AuthRequest.
Local Open Scope Z_scope.

Create HintDb auth.

(** ** Sums over maps *)
Section Sums.
Context {K : Type} `{Countable K} {B : Type} (f : B -> Z).

Definition msum (m : gmap K B) : Z := sumZ (f <$> (map_to_list m).*2).

Lemma msum_empty : msum ∅ = 0.
Proof. unfold msum. by rewrite map_to_list_empty. Qed.

Lemma msum_insert_new m k x : m !! k = None -> msum (<[k := x]> m) = f x + msum m.
Proof. intros E. unfold msum. by rewrite (map_to_list_insert _ _ _ E). Qed.

Lemma msum_delete m k x : m !! k = Some x -> msum m = f x + msum (delete k m).
Proof. intros E. unfold msum. by rewrite <- (map_to_list_delete _ _ _ E). Qed.

Lemma msum_insert m k x y : m !! k = Some x -> msum (<[k := y]> m) = msum m - f x + f y.
Proof.
  intros E. rewrite <- insert_delete_eq, msum_insert_new by apply lookup_delete_eq. rewrite (msum_delete m k x E). lia.
Qed.

Lemma msum_nonneg m : (forall k x, m !! k = Some x -> 0 <= f x) -> 0 <= msum m.
Proof.
  intros Hf. apply sumZ_nonneg. intros z (x & -> & Hx)%list_elem_of_fmap.
  apply list_elem_of_fmap in Hx as ([k y] & -> & Hk). apply elem_of_map_to_list in Hk. eauto.
Qed.
End Sums.

(** ** Reservations *)
Definition size_of (b : ByteReservation) : Z := default 0 (effective_size b).
Definition counts_entry (b : ByteReservation) : Z := if br_entry b then 1 else 0.

Definition sizes_nonneg (b : ByteReservation) : Prop :=
  (forall z, br_retained b = Some z -> 0 <= z) /\ (forall h z, br_observations b !! h = Some z -> 0 <= z).

(** The greatest of the sizes held. *)
Lemma effective_size_Some b z : effective_size b = Some z <->
  (br_retained b = Some z \/ exists h, br_observations b !! h = Some z) /\
  (forall y, br_retained b = Some y -> y <= z) /\ (forall h y, br_observations b !! h = Some y -> y <= z).
Proof.
  unfold effective_size. setoid_rewrite <- (elem_of_map_to_list (br_observations b)).
  generalize (map_to_list (br_observations b)) as l, (br_retained b) as o. clear b.
  intros l o. revert z. induction l as [|[h y] l IH]; intros z; cbn.
  - split; [|naive_solver set_solver]. intros ->. split_and!; [by left| |set_solver]. intros ? [= ->]. lia.
  - destruct (foldr _ o l) as [w|] eqn:E; cbn.
    + destruct (proj1 (IH w) eq_refl) as (Hw & Ho & Hl). clear IH E. split.
      * intros [= <-]. split_and!.
        -- destruct (Z.max_spec y w) as [[? ->]|[? ->]]; [|right; exists h; by left].
           destruct Hw as [?|[h' ?]]; [by left|]. right. exists h'. by right.
        -- intros x Hx%Ho. lia.
        -- intros h' x [Hx|Hx%Hl]%elem_of_cons; [simplify_eq; lia|lia].
      * intros (Hz & Hoz & Hlz). f_equal.
        assert (y <= z) by (apply (Hlz h); by left).
        assert (w <= z).
        { destruct Hw as [?|[h' ?]]; [by apply Hoz|]. apply (Hlz h'). by right. }
        destruct Hz as [Hz|[h' [Hz|Hz]%elem_of_cons]]; [apply Ho in Hz; lia|simplify_eq; lia|apply Hl in Hz; lia].
    + assert (o = None /\ l = []) as [-> ->].
      { destruct l as [|[]]; cbn in E; [by subst|]. by destruct (foldr _ o l). }
      split.
      * intros [= <-]. split_and!; [right; exists h; by left|done|]. intros h' x [?|Hx]%elem_of_cons; [by simplify_eq|].
        by apply elem_of_nil in Hx.
      * intros ([|[h' [?|Hx]%elem_of_cons]] & _ & _); [done|by simplify_eq|by apply elem_of_nil in Hx].
Qed.

Lemma effective_size_None b : effective_size b = None <-> br_retained b = None /\ br_observations b = ∅.
Proof.
  split.
  - intros E. destruct (br_retained b) as [z|] eqn:Er.
    + exfalso. revert E. unfold effective_size. rewrite Er. generalize (map_to_list (br_observations b)).
      intros l. induction l as [|[h y] l IH]; cbn; [done|]. by destruct (foldr _ (Some z) l).
    + split; [done|]. apply map_empty. intros h. destruct (br_observations b !! h) as [y|] eqn:Eh; [|done].
      apply elem_of_map_to_list in Eh. exfalso. revert E Eh. unfold effective_size. rewrite Er.
      generalize (map_to_list (br_observations b)). intros [|[h' y'] l]; cbn; [set_solver|]. by destruct (foldr _ _ l).
  - intros [Er Eo]. unfold effective_size. by rewrite Er, Eo, map_to_list_empty.
Qed.

Lemma effective_size_nonneg b z : sizes_nonneg b -> effective_size b = Some z -> 0 <= z.
Proof. intros [Hr Ho] (Hz & _)%effective_size_Some. destruct Hz as [?%Hr|[h ?%Ho]]; lia. Qed.

Lemma size_of_nonneg b : sizes_nonneg b -> 0 <= size_of b.
Proof.
  intros Hb. unfold size_of. destruct (effective_size b) eqn:E; cbn; [|lia]. eauto using effective_size_nonneg.
Qed.

(** Adding a size grows the effective size to it. *)
Lemma size_retain size b : sizes_nonneg b -> 0 <= size ->
  sizes_nonneg (retain_size size b) /\
  effective_size (retain_size size b) = Some (match effective_size b with Some p => Z.max p size | None => size end).
Proof.
  intros [Hr Ho] Hs. split.
  - split; [|done]. cbn. destruct (br_retained b) as [r|] eqn:E; intros z [= <-]; [specialize (Hr r eq_refl)|]; lia.
  - apply effective_size_Some. cbn. destruct (effective_size b) as [p|] eqn:E.
    + apply effective_size_Some in E as (Hp & Hpr & Hpo). split_and!.
      * destruct (Z.max_spec p size) as [[? ->]|[? ->]].
        -- left. f_equal. destruct (br_retained b) as [r|]; [|done]. specialize (Hpr r eq_refl). lia.
        -- destruct Hp as [Hp|?]; [left|by right]. rewrite Hp. f_equal. lia.
      * intros y [= <-]. destruct (br_retained b) as [r|]; [specialize (Hpr r eq_refl)|]; lia.
      * intros h y Hy%Hpo. lia.
    + apply effective_size_None in E as [-> ->]. split_and!; [by left|intros ? [= <-]; lia|]. intros h y. by rewrite lookup_empty.
Qed.

Lemma size_observe hold size b : sizes_nonneg b -> 0 <= size -> br_observations b !! hold = None ->
  let b' := with_observations (<[hold := size]> (br_observations b)) b in
  sizes_nonneg b' /\ effective_size b' = Some (match effective_size b with Some p => Z.max p size | None => size end).
Proof.
  intros [Hr Ho] Hs Hh. cbn. split.
  - split; [done|]. cbn. intros h z [[<- <-]|[? Hz]]%lookup_insert_Some; [done|eauto].
  - apply effective_size_Some. cbn. destruct (effective_size b) as [p|] eqn:E.
    + apply effective_size_Some in E as (Hp & Hpr & Hpo). split_and!.
      * destruct (Z.max_spec p size) as [[? ->]|[? ->]].
        -- right. exists hold. apply lookup_insert_eq.
        -- destruct Hp as [?|[h Hp]]; [by left|]. right. exists h. rewrite lookup_insert_ne; [done|]. intros ->. congruence.
      * intros y Hy%Hpr. lia.
      * intros h y [[<- <-]|[? Hy%Hpo]]%lookup_insert_Some; lia.
    + apply effective_size_None in E as [-> ->]. split_and!; [right; exists hold; apply lookup_insert_eq|done|].
      intros h y [[<- <-]|[? Hy]]%lookup_insert_Some; [lia|]. by rewrite lookup_empty in Hy.
Qed.

(** Dropping a hold leaves a size that is no greater. *)
Lemma size_unobserve hold b z : sizes_nonneg b -> effective_size b = Some z ->
  let b' := with_observations (delete hold (br_observations b)) b in
  sizes_nonneg b' /\ size_of b' <= z.
Proof.
  intros Hb E. pose proof (effective_size_nonneg b z Hb E) as Hz. destruct Hb as [Hr Ho]. cbn. split.
  - split; [done|]. cbn. intros h y [? ?]%lookup_delete_Some. eauto.
  - unfold size_of. destruct (effective_size (with_observations _ b)) as [w|] eqn:E'; cbn; [|done].
    apply effective_size_Some in E as (_ & Hpr & Hpo). apply effective_size_Some in E' as (Hw & _). cbn in Hw.
    destruct Hw as [?%Hpr|[h [? ?%Hpo]%lookup_delete_Some]]; lia.
Qed.

(** Whatever the hold's name, the size stays below the greater of the two. *)
Lemma size_observe_le hold size b : sizes_nonneg b -> 0 <= size ->
  let b' := with_observations (<[hold := size]> (br_observations b)) b in
  sizes_nonneg b' /\ is_Some (effective_size b') /\ size_of b' <= match effective_size b with Some p => Z.max p size | None => size end.
Proof.
  intros [Hr Ho] Hs. cbn.
  assert (Hsome : is_Some (effective_size (with_observations (<[hold:=size]> (br_observations b)) b))).
  { destruct (effective_size _) eqn:E; [eauto|]. apply effective_size_None in E as [_ E]. cbn in E. by apply insert_non_empty in E. }
  split_and!; [split; [done|]; cbn; intros h z [[<- <-]|[? Hz]]%lookup_insert_Some; eauto|done|].
  destruct Hsome as [w E]. unfold size_of. rewrite E. cbn. apply effective_size_Some in E as (Hw & _ & _). cbn in Hw.
  destruct (effective_size b) as [p|] eqn:Eb.
  - apply effective_size_Some in Eb as (_ & Hpr & Hpo).
    destruct Hw as [?%Hpr|[h [[_ <-]|[_ ?%Hpo]]%lookup_insert_Some]]; lia.
  - apply effective_size_None in Eb as [Er Eo]. rewrite Er, Eo in Hw.
    destruct Hw as [?|[h [[_ <-]|[_ Hx]]%lookup_insert_Some]]; [done|lia|]. by rewrite lookup_empty in Hx.
Qed.
