(* ===== verification/AuthTame.v ===== *)
(** * Tame methods

    The checks of a request and the settling of outcomes keep the counters, the
    flags that close the grant and the connection's stream state; they keep the
    reservations well formed and within the signed bytes; and they do not panic. *)

From stdpp Require Import strings.
From S2P Require Import Prelude Text Diagnostic Proto Hashing Mapping MappingGrant Grant Lookups AuthData Authority AuthPolicy AuthSettle AuthRequest AuthFrame.
Local Open Scope Z_scope.

Section Tame.
Context `{HashLib}.
Abbreviation auth := (method Call AuthError).

(** Whether the results were told to end. *)
Definition is_finish (e : ResultEvent) : bool := match e with EvFinish _ => true | _ => false end.
Definition finished (s : AuthState) : bool := match s_results s with Some events => existsb is_finish events | None => false end.

(** What only admission, charging, settling and closing touch. *)
Definition core (s : AuthState) :=
  (s_live_connections s, s_in_flight s, s_changes s, s_transferred_bytes s, s_deletions s, s_results_closing s,
   s_results_started s, s_control_open s, finished s).
Definition framed (c c' : Call) : Prop :=
  core (ca_state c') = core (ca_state c) /\ ca_gate c' = ca_gate c /\ ca_step c' = ca_step c.
Definition resv (s : AuthState) := (s_reserved s, s_reserved_bytes s, s_next_instance s).

Definition entries (s : AuthState) : Z := msum counts_entry (s_reserved s).

(** The reservations within the signed bytes. *)
Record res_ok (max : Z) (s : AuthState) : Prop := {
  ro_each k b : s_reserved s !! k = Some b -> sizes_nonneg b /\ is_Some (effective_size b);
  ro_sum : msum size_of (s_reserved s) <= s_reserved_bytes s;
  ro_max : s_reserved_bytes s <= max;
  ro_u64 : s_reserved_bytes s <= u64_max;
  ro_instance k b : s_reserved s !! k = Some b -> br_instance b <= s_next_instance s
}.

(** Reservations come, go and change size, but keep their count and which one of
    their key they are. *)
Record res_step (s s' : AuthState) : Prop := {
  rs_next : s_next_instance s <= s_next_instance s';
  rs_entries : entries s' <= entries s;
  rs_kept k b' : s_reserved s' !! k = Some b' ->
    (exists b, s_reserved s !! k = Some b /\ br_entry b = br_entry b' /\ br_instance b = br_instance b') \/
    (br_entry b' = None /\ s_next_instance s < br_instance b')
}.

Lemma res_step_refl s : res_step s s.
Proof. split; [done|done|eauto]. Qed.

Lemma res_step_trans s1 s2 s3 : res_step s1 s2 -> res_step s2 s3 -> res_step s1 s3.
Proof.
  intros [N1 E1 K1] [N2 E2 K2]. split; [lia|lia|]. intros k b3 H3.
  destruct (K2 _ _ H3) as [(b2 & H2 & He & Hi)|[He Hi]]; [|right; split; [done|lia]].
  rewrite <- He, <- Hi. destruct (K1 _ _ H2) as [?|?]; [left|right]; done.
Qed.

Lemma res_ok_resv max s s' : resv s' = resv s -> res_ok max s -> res_ok max s'.
Proof. unfold resv. intros [= E1 E2 E3] [H1 H2 H3 H4 H5]. split; rewrite ?E1, ?E2, ?E3; done. Qed.

Lemma res_step_resv s s' : resv s' = resv s -> res_step s s'.
Proof. unfold resv. intros [= E1 E2 E3]. split; unfold entries; rewrite ?E1, ?E3; [done|done|eauto]. Qed.

Definition tame {A} (max : Z) (m : auth A) : Prop := forall c, res_ok max (ca_state c) ->
  (m c).2 <> Err Panicked /\ framed c (m c).1 /\ res_ok max (ca_state (m c).1) /\ res_step (ca_state c) (ca_state (m c).1).

Lemma framed_refl c : framed c c.
Proof. done. Qed.
Lemma framed_trans a b c : framed a b -> framed b c -> framed a c.
Proof. unfold framed. intros (? & ? & ?) (? & ? & ?). split_and!; congruence. Qed.

Section Rules.
Context (max : Z).

Lemma tame_ret {A} (a : A) : tame max (mret a).
Proof. intros c Hc. split_and!; [done|done|done|apply res_step_refl]. Qed.

Lemma tame_bind {A B} (m : auth A) (k : A -> auth B) : tame max m -> (forall a, tame max (k a)) -> tame max (m ≫= k).
Proof.
  intros Hm Hk c Hc. destruct (Hm c Hc) as (Hp & Hf & Ho & Hs). unfold mbind, method_bind. destruct (m c) as [c' [a|e]]; cbn in *.
  - destruct (Hk a c' Ho) as (? & ? & ? & ?). split_and!; eauto using framed_trans, res_step_trans.
  - split_and!; [|done|done|done]. congruence.
Qed.

Lemma tame_modify (f : Call -> Call) : (forall c, framed c (f c) /\ resv (ca_state (f c)) = resv (ca_state c)) -> tame max (m_modify f).
Proof.
  intros Hf c Hc. destruct (Hf c) as [? ?]. cbn. split_and!; [done|done|eauto using res_ok_resv|eauto using res_step_resv].
Qed.

Lemma tame_mod_s (f : AuthState -> AuthState) : (forall s, core (f s) = core s /\ resv (f s) = resv s) -> tame max (mod_s f).
Proof.
  intros Hf c Hc. destruct (Hf (ca_state c)) as [Hcore Hresv]. cbn.
  split_and!; [done|split_and!; done|eauto using res_ok_resv|eauto using res_step_resv].
Qed.

Lemma tame_get_s : tame max get_s.
Proof. intros c Hc. split_and!; [done|done|done|apply res_step_refl]. Qed.

Lemma tame_get_g : tame max get_g.
Proof. intros c Hc. split_and!; [done|done|done|apply res_step_refl]. Qed.

Lemma tame_get : tame max m_get.
Proof. intros c Hc. split_and!; [done|done|done|apply res_step_refl]. Qed.

Lemma tame_lift {A} (r : mres A) : tame max (lift r).
Proof. intros c Hc. split_and!; [by destruct r|done|done|apply res_step_refl]. Qed.

Lemma tame_bail {A} m : tame (A := A) max (bail m).
Proof. intros c Hc. split_and!; [done|done|done|apply res_step_refl]. Qed.

Lemma tame_kept {A} m : tame (A := A) max (kept m).
Proof. intros c Hc. split_and!; [done|done|done|apply res_step_refl]. Qed.

Lemma tame_ensure b m : tame max (ensure b m).
Proof. intros c Hc. split_and!; [by destruct b|done|done|apply res_step_refl]. Qed.

Lemma tame_ask {A} (f : nat -> A) : tame max (ask f).
Proof. apply tame_bind; [apply tame_get_s|intros s]. apply tame_bind; [by apply tame_mod_s|intros _]. apply tame_ret. Qed.

Lemma bind_get_s {A} (k : AuthState -> auth A) c : (get_s ≫= k) c = k (ca_state c) c.
Proof. done. Qed.

Lemma bind_context {A B} (a : A) m (k : A -> auth B) c : (context (Some a) m ≫= k) c = k a c.
Proof. done. Qed.

Lemma bind_ensure {B} m (k : unit -> auth B) c : (ensure true m ≫= k) c = k tt c.
Proof. done. Qed.

Lemma tame_for_each {A} (f : A -> auth unit) l : (forall x, x ∈ l -> tame max (f x)) -> tame max (for_each f l).
Proof.
  induction l as [|x l IH]; intros Hf; [apply tame_ret|].
  apply tame_bind; [apply Hf; by left|intros _]. apply IH. intros y Hy. apply Hf. by right.
Qed.

Lemma tame_for_each_mut {A} (f : nat -> A -> auth A) l i : (forall i x, x ∈ l -> tame max (f i x)) -> tame max (for_each_mut f i l).
Proof.
  revert i. induction l as [|x l IH]; intros i Hf; [apply tame_ret|].
  apply tame_bind; [apply Hf; by left|intros y]. apply tame_bind; [|intros; apply tame_ret].
  apply IH. intros j z Hz. apply Hf. by right.
Qed.
End Rules.
End Tame.

#[export] Hint Resolve tame_ret tame_get_s tame_get_g tame_get tame_lift tame_bail tame_kept tame_ensure tame_ask : auth.

(** Decomposes a method into its calls. *)
Ltac tame_go :=
  repeat match goal with
  | |- tame _ (mbind _ _) => apply tame_bind; [|intros ?]
  | |- tame _ (context _ _) => apply tame_lift
  | |- tame _ (mod_s _) => apply tame_mod_s; intros ?; repeat case_match; done
  | |- tame _ (m_modify _) => apply tame_modify; intros ?; done
  | |- tame _ (push_creation _) => apply tame_modify; intros ?; done
  | |- tame _ (push_outcome _) => apply tame_modify; intros ?; done
  | |- tame _ (for_each _ _) => apply tame_for_each; intros ??
  | |- tame _ (for_each_mut _ _ _) => apply tame_for_each_mut; intros ???
  | |- tame _ (let '(_, _) := ?x in _) => destruct x
  | |- tame _ (if ?b then _ else _) => destruct b
  | |- tame _ (match ?x with _ => _ end) => destruct x
  | |- tame _ _ => solve [eauto with auth]
  end.

Section Checks.
Context `{HashLib} {Gitignore : Type} (is_ignore : Gitignore -> PathBytes -> bool -> bool).
Context (key : PathBytes -> Z) (cf : Config (Gitignore := Gitignore)) (W : World) (max : Z).

Lemma tame_now : tame max (now W).
Proof. apply tame_ask. Qed.
Hint Resolve tame_now : auth.
Lemma tame_rooted_metadata path : tame max (rooted_metadata cf W path).
Proof. unfold rooted_metadata. tame_go. Qed.
Hint Resolve tame_rooted_metadata : auth.
Lemma tame_kind_there path : tame max (kind_there cf W path).
Proof.
  intros c Hc. destruct (tame_rooted_metadata path c Hc) as (Hp & ? & ? & ?). unfold kind_there.
  destruct (rooted_metadata cf W path c) as [c' [[m|]|e]]; cbn in *; split_and!; done.
Qed.
Lemma tame_check_deadline : tame max (check_deadline cf W).
Proof. unfold check_deadline. tame_go. Qed.
Lemma tame_control_is_open : tame max (control_is_open cf W).
Proof. unfold control_is_open. tame_go. Qed.
Hint Resolve tame_control_is_open tame_check_deadline : auth.
Lemma tame_check_control : tame max (check_control cf W).
Proof. unfold check_control. tame_go. Qed.
Lemma tame_expected_hash path : tame max (Authority.expected_hash cf path).
Proof. unfold Authority.expected_hash. tame_go. Qed.
Lemma tame_check_mapping_path path d : tame max (check_mapping_path cf path d).
Proof. unfold check_mapping_path. tame_go. Qed.
Lemma tame_mapping_parent path : tame max (mapping_parent cf path).
Proof. unfold mapping_parent. tame_go. Qed.
Hint Resolve tame_check_mapping_path : auth.
Lemma tame_check_observation_path path : tame max (check_observation_path cf path).
Proof. unfold check_observation_path. tame_go. Qed.
Lemma tame_outer_directory_condition path c : tame max (outer_directory_condition cf W path c).
Proof. unfold outer_directory_condition. tame_go. Qed.
Lemma tame_check_mutation_allowed : tame max (check_mutation_allowed cf).
Proof. unfold check_mutation_allowed. tame_go. Qed.
Hint Resolve tame_check_mutation_allowed : auth.
Lemma tame_check_mutation_authority path : tame max (check_mutation_authority cf path).
Proof. unfold check_mutation_authority. tame_go. Qed.
Hint Resolve tame_check_mutation_authority : auth.
Lemma tame_check_mutation_path path d : tame max (check_mutation_path is_ignore cf path d).
Proof. unfold check_mutation_path. tame_go. Qed.
Hint Resolve tame_check_mutation_path : auth.
Lemma tame_check_deletion path d : tame max (check_deletion is_ignore cf path d).
Proof. unfold check_deletion. tame_go. Qed.
Lemma tame_mapped_grants path g : tame max (mapped_grants cf path g).
Proof. unfold mapped_grants. tame_go. Qed.
Hint Resolve tame_mapped_grants : auth.
Lemma tame_check_metadata path meta flags : tame max (check_metadata cf path meta flags).
Proof. unfold check_metadata. tame_go. Qed.
Lemma tame_check_preparation_flags path mode flags : tame max (check_preparation_flags cf path mode flags).
Proof. unfold check_preparation_flags. tame_go. Qed.
Lemma tame_check_file_bytes path off n : tame max (check_file_bytes is_ignore cf W path off n).
Proof. unfold check_file_bytes. tame_go. Qed.
Lemma tame_batch_within_burst sizes m m' : tame max (batch_within_burst cf sizes m m').
Proof. unfold batch_within_burst. tame_go. Qed.
End Checks.

#[export] Hint Resolve tame_now tame_rooted_metadata tame_kind_there tame_check_deadline tame_check_control tame_expected_hash
  tame_check_mapping_path tame_mapping_parent tame_check_observation_path tame_outer_directory_condition
  tame_check_mutation_allowed tame_check_mutation_authority tame_check_mutation_path tame_check_deletion tame_check_metadata
  tame_check_preparation_flags tame_check_file_bytes tame_batch_within_burst : auth.

(** ** Reservations *)
Section Reservations.
Context `{HashLib}.
Context (max : Z).

Lemma counts_entry_nonneg b : 0 <= counts_entry b.
Proof. unfold counts_entry. case_match; lia. Qed.

(** One reservation's sizes change, nothing else. *)
Lemma res_put s k b b' bytes : res_ok max s -> s_reserved s !! k = Some b ->
  sizes_nonneg b' -> is_Some (effective_size b') -> br_entry b' = br_entry b -> br_instance b' = br_instance b ->
  size_of b' - size_of b <= bytes - s_reserved_bytes s -> bytes <= max -> bytes <= u64_max ->
  let s' := set_s_reserved_bytes bytes (set_s_reserved (<[k := b']> (s_reserved s)) s) in res_ok max s' /\ res_step s s'.
Proof.
  intros [H1 H2 H3 H4 H5] Hk Hn Hs He Hi Hsz Hm Hu. cbn. split.
  - split; cbn; [|rewrite (msum_insert _ _ _ _ _ Hk); lia|done|done|].
    + intros k' b0 [[<- <-]|[? ?]]%lookup_insert_Some; eauto.
    + intros k' b0 [[<- <-]|[? ?]]%lookup_insert_Some; [rewrite Hi|]; eauto.
  - split; cbn; [done| |].
    + unfold entries. cbn. rewrite (msum_insert _ _ _ _ _ Hk). unfold counts_entry. rewrite He. lia.
    + intros k' b0 [[<- <-]|[? ?]]%lookup_insert_Some; left; eauto.
Qed.

(** A reservation goes, and gives back at most its size. *)
Lemma res_drop s k b bytes : res_ok max s -> s_reserved s !! k = Some b -> bytes <= s_reserved_bytes s ->
  s_reserved_bytes s - bytes <= size_of b ->
  let s' := set_s_reserved_bytes bytes (set_s_reserved (delete k (s_reserved s)) s) in res_ok max s' /\ res_step s s'.
Proof.
  intros [H1 H2 H3 H4 H5] Hk Hle Hsz. cbn. pose proof (msum_delete size_of _ _ _ Hk).
  pose proof (msum_delete counts_entry _ _ _ Hk). pose proof (counts_entry_nonneg b). split.
  - split; cbn; [|lia|lia|lia|]; intros k' b0 [? ?]%lookup_delete_Some; eauto.
  - split; cbn; [done|unfold entries; cbn; lia|]. intros k' b0 [? ?]%lookup_delete_Some. left. eauto.
Qed.

Lemma drop_reservation_ok k s : res_ok max s ->
  core (drop_reservation k s) = core s /\ res_ok max (drop_reservation k s) /\ res_step s (drop_reservation k s).
Proof.
  intros Hs. split; [done|]. unfold drop_reservation. destruct (s_reserved s !! k) as [b|] eqn:E.
  - assert (Hsz : 0 <= size_of b) by (apply size_of_nonneg; eapply (ro_each _ _ Hs); done).
    apply (res_drop s k b (s_reserved_bytes s)) in E as [Ho Hst]; [|done|lia|lia]. by destruct s.
  - rewrite (delete_id _ _ E). split; [eapply res_ok_resv; [|done]|apply res_step_resv]; by destruct s.
Qed.

Lemma settle_observation_ok k hold retain s : res_ok max s ->
  exists s', settle_observation_reservation k hold retain s = Some s' /\ core s' = core s /\ res_ok max s' /\ res_step s s'.
Proof.
  intros Hs. unfold settle_observation_reservation. destruct (s_reserved s !! k) as [b|] eqn:Ek; [|eauto using res_step_refl].
  destruct (ro_each _ _ Hs _ _ Ek) as [Hn [z Ez]]. rewrite Ez. cbn.
  destruct (br_observations b !! hold) as [size|] eqn:Eh; [|eauto using res_step_refl].
  set (b1 := with_observations _ b).
  set (b2 := if retain then retain_size size b1 else b1).
  assert (Hb2 : sizes_nonneg b2 /\ size_of b2 <= z /\ br_entry b2 = br_entry b /\ br_instance b2 = br_instance b).
  { destruct (size_unobserve hold b z Hn Ez) as [Hn1 Hsz1]. fold b1 in Hn1, Hsz1. unfold b2. destruct retain; [|done].
    assert (0 <= size) by (eapply Hn; done). destruct (size_retain size b1 Hn1) as [? Es]; [done|].
    split_and!; [done| |done|done]. unfold size_of in *. rewrite Es. cbn.
    apply effective_size_Some in Ez as (_ & _ & Hobs). apply Hobs in Eh. destruct (effective_size b1); cbn in Hsz1; lia. }
  destruct Hb2 as (Hn2 & Hsz2 & He2 & Hi2).
  assert (Hz : size_of b = z) by (unfold size_of; by rewrite Ez).
  pose proof (size_of_nonneg b2 Hn2) as Hnn.
  assert (Hrel : z <= s_reserved_bytes s).
  { rewrite <- (ro_sum _ _ Hs), (msum_delete _ _ _ _ Ek), Hz.
    enough (0 <= msum size_of (delete k (s_reserved s))) by lia. apply msum_nonneg. intros k' b' [_ Hk']%lookup_delete_Some.
    apply size_of_nonneg. by eapply (ro_each _ _ Hs). }
  fold (size_of b2). unfold u64_sub. rewrite decide_True by lia. cbn.
  pose proof (ro_max _ _ Hs). pose proof (ro_u64 _ _ Hs).
  destruct (effective_size b2) as [w|] eqn:Ew.
  - eexists. split; [done|]. split; [done|]. eapply (res_put s k b b2); try done; eauto; cbn; lia.
  - eexists. split; [done|]. split; [done|]. assert (size_of b2 = 0) by (unfold size_of; by rewrite Ew).
    eapply (res_drop s k b); [done|done|cbn; lia|cbn; lia].
Qed.

Lemma tame_state (f : AuthState -> AuthState) :
  (forall s, res_ok max s -> core (f s) = core s /\ res_ok max (f s) /\ res_step s (f s)) -> tame max (mod_s f).
Proof. intros Hf c Hc. destruct (Hf _ Hc) as (? & ? & ?). cbn. split_and!; [done|split_and!; done|done|done]. Qed.

Lemma tame_settle_hold k hold retain : tame max (settle_hold k hold retain).
Proof.
  destruct hold as [h|]; [|apply tame_ret]. intros c Hc. destruct (settle_observation_ok k h retain _ Hc) as (s' & E & ? & ? & ?).
  cbn. unfold settle_hold, mbind, method_bind, get_s, expect, mod_s. rewrite E. cbn. split_and!; [done|split_and!; done|done|done].
Qed.

Lemma tame_drop_reservation k : tame max (mod_s (drop_reservation k)).
Proof. apply tame_state. intros s. apply drop_reservation_ok. Qed.
End Reservations.

#[export] Hint Resolve tame_settle_hold tame_drop_reservation : auth.

(** ** The policy for existing objects *)
Section Reserve.
Context `{HashLib} {Gitignore : Type} (cf : Config (Gitignore := Gitignore)).
Abbreviation max := (cl_max_total_bytes (limits cf)).

(** The state [reserve_bytes] leaves when it succeeds. *)
Definition reserved_state (s : AuthState) (k : FileKey) (size : Z) (hold : option Z) (total next_hold : Z) : AuthState :=
  let '(s, b) := match s_reserved s !! k with
    | Some b => (s, b)
    | None => (set_s_next_instance (s_next_instance s + 1) s, ByteReservation_default (s_next_instance s + 1))
    end in
  let b := match hold with Some h => with_observations (<[h := size]> (br_observations b)) b | None => retain_size size b end in
  set_s_reserved_bytes total (set_s_reserved (<[k := b]> (s_reserved s)) (set_s_next_hold next_hold s)).

Lemma reserve_end path copy_id size hold total next c :
  ((_ ← mod_s (set_s_next_hold next); mret hold) ≫= (fun hold : option Z => s ← get_s;
    let '(s, reservation) := match s_reserved s !! (path, copy_id) with
      | Some r => (s, r)
      | None => (set_s_next_instance (s_next_instance s + 1) s, ByteReservation_default (s_next_instance s + 1))
      end in
    _ ← mod_s (fun _ => set_s_reserved_bytes total (set_s_reserved (<[(path, copy_id) :=
          match hold with
          | Some h => with_observations (<[h := size]> (br_observations reservation)) reservation
          | None => retain_size size reservation
          end]> (s_reserved s)) s));
    mret hold)) c =
  (set_ca_state (reserved_state (ca_state c) (path, copy_id) size hold total next) c, Ok (E := AuthError) hold).
Proof.
  unfold reserved_state, mbind, method_bind, mod_s, get_s. cbn.
  by destruct (s_reserved (ca_state c) !! (path, copy_id)) as [b|] eqn:E; destruct c as [[] ? ? ? ?]; cbn in *; rewrite ?E.
Qed.

Lemma reserve_bytes_spec path copy_id size obs c :
  let s := ca_state c in
  let k := (path, copy_id) in
  let previous := s_reserved s !! k ≫= effective_size in
  let total := s_reserved_bytes s + (match previous with Some p => Z.max p size | None => size end - default 0 previous) in
  (exists m, reserve_bytes cf path copy_id size obs c = (c, Err (Refused m))) \/
  (total <= max /\ total <= u64_max /\ exists next,
   next = (if obs : bool then s_next_hold s + 1 else s_next_hold s) /\
   let hold := if obs : bool then Some (s_next_hold s) else None in
   reserve_bytes cf path copy_id size obs c = (set_ca_state (reserved_state s k size hold total next) c, Ok hold)).
Proof.
  cbn zeta. unfold reserve_bytes. rewrite bind_get_s. cbn beta zeta.
  set (previous := s_reserved (ca_state c) !! (path, copy_id) ≫= effective_size).
  set (total := s_reserved_bytes (ca_state c) + _).
  destruct (u64_add (s_reserved_bytes (ca_state c)) _) as [t|] eqn:Et; [|left; cbn; eauto].
  assert (t = total /\ total <= u64_max) as [-> Hu] by (unfold u64_add in Et; case_decide; naive_solver).
  rewrite !bind_context. case_bool_decide as Em; [left; cbn; eauto|]. cbn [negb]. rewrite !bind_ensure.
  assert (Hok : total <= max /\ total <= u64_max) by lia.
  destruct obs.
  - destruct (u64_add (s_next_hold (ca_state c)) 1) as [next|] eqn:En; [|left; cbn; eauto].
    unfold u64_add in En. case_decide; simplify_eq. right. split; [lia|]. split; [lia|]. eexists. split; [done|].
    apply reserve_end.
  - right. split; [lia|]. split; [lia|]. eexists. split; [done|].
    rewrite <- (reserve_end path copy_id size None total (s_next_hold (ca_state c)) c). clearbody total previous. by destruct c as [[] ? ? ? ?].
Qed.

(** A fresh reservation. *)
Lemma res_new s k b bytes : res_ok max s -> s_reserved s !! k = None ->
  sizes_nonneg b -> is_Some (effective_size b) -> br_entry b = None -> br_instance b = s_next_instance s + 1 ->
  size_of b <= bytes - s_reserved_bytes s -> bytes <= max -> bytes <= u64_max ->
  let s' := set_s_reserved_bytes bytes (set_s_reserved (<[k := b]> (s_reserved s)) (set_s_next_instance (s_next_instance s + 1) s)) in
  res_ok max s' /\ res_step s s'.
Proof.
  intros [H1 H2 H3 H4 H5] Hk Hn Hs He Hi Hsz Hm Hu. cbn. split.
  - split; cbn; [|rewrite msum_insert_new by done; lia|done|done|].
    + intros k' b0 [[<- <-]|[? ?]]%lookup_insert_Some; eauto.
    + intros k' b0 [[<- <-]|[? Hb]]%lookup_insert_Some; [lia|]. apply H5 in Hb. lia.
  - split; cbn; [lia| |].
    + unfold entries. cbn. rewrite msum_insert_new by done. unfold counts_entry at 1. rewrite He. lia.
    + intros k' b0 [[<- <-]|[? ?]]%lookup_insert_Some; [right; split; [done|lia]|left; eauto].
Qed.

(** The new or grown reservation itself. *)
Lemma reserve_grows (b : ByteReservation) size (hold : option Z) : sizes_nonneg b -> 0 <= size ->
  let b' := match hold with Some h => with_observations (<[h := size]> (br_observations b)) b | None => retain_size size b end in
  sizes_nonneg b' /\ is_Some (effective_size b') /\ br_entry b' = br_entry b /\ br_instance b' = br_instance b /\
  size_of b' <= match effective_size b with Some p => Z.max p size | None => size end.
Proof.
  intros Hn Hs. destruct hold as [h|]; cbn.
  - destruct (size_observe_le h size b Hn Hs) as (? & ? & ?). done.
  - destruct (size_retain size b Hn Hs) as [? E]. split_and!; [done|by rewrite E|done|done|].
    unfold size_of. rewrite E. cbn. lia.
Qed.

Lemma tame_reserve_bytes path copy_id size obs : 0 <= size -> tame max (reserve_bytes cf path copy_id size obs).
Proof.
  intros Hs c Hc. destruct (reserve_bytes_spec path copy_id size obs c) as [[m ->]|(Ht & Hu & next & _ & ->)].
  { split_and!; [done|done|done|apply res_step_refl]. }
  cbn [fst snd]. set (hold := if obs then _ else _). set (k := (path, copy_id)) in *.
  assert (framed c (set_ca_state (reserved_state (ca_state c) k size hold
    (s_reserved_bytes (ca_state c) + (match s_reserved (ca_state c) !! k ≫= effective_size with Some p => Z.max p size | None => size end -
       default 0 (s_reserved (ca_state c) !! k ≫= effective_size))) next) c)) as Hf.
  { unfold reserved_state. destruct (s_reserved (ca_state c) !! k); done. }
  split; [done|]. split; [exact Hf|]. clear Hf. cbn [ca_state set_ca_state].
  unfold reserved_state. destruct (s_reserved (ca_state c) !! k) as [b|] eqn:Ek; cbn in *.
  - destruct (ro_each _ _ Hc _ _ Ek) as [Hn [z Ez]]. rewrite Ez in *. cbn in *.
    destruct (reserve_grows b size hold Hn Hs) as (? & ? & ? & ? & Hsz). rewrite Ez in Hsz.
    assert (size_of b = z) by (unfold size_of; by rewrite Ez).
    eapply (res_put _ _ k b _ (s_reserved_bytes (ca_state c) + (Z.max z size - z))) in Hc as [Ho Hst]; try done; [|lia].
    split; [eapply res_ok_resv; [|exact Ho]|eapply res_step_trans; [exact Hst|apply res_step_resv]]; done.
  - destruct (reserve_grows (ByteReservation_default (s_next_instance (ca_state c) + 1)) size hold) as (? & ? & ? & ? & Hsz); [|done|].
    { split; cbn; [done|]. intros h z. by rewrite lookup_empty. }
    rewrite (proj2 (effective_size_None (ByteReservation_default _)) ltac:(done)) in Hsz.
    eapply (res_new _ k _ (s_reserved_bytes (ca_state c) + (size - 0))) in Hc as [Ho Hst]; try done; [|lia].
    split; [eapply res_ok_resv; [|exact Ho]|eapply res_step_trans; [exact Hst|apply res_step_resv]]; done.
Qed.

End Reserve.

#[export] Hint Resolve tame_reserve_bytes : auth.

Section Policy.
Context `{HashLib} {Gitignore : Type} (key : PathBytes -> Z) (cf : Config (Gitignore := Gitignore)) (W : World).
Abbreviation max := (cl_max_total_bytes (limits cf)).

Lemma tame_created path : tame max (created_by_this_grant path).
Proof. unfold created_by_this_grant. tame_go. Qed.
Lemma tame_forget_provisional p : tame max (forget_provisional p).
Proof. unfold forget_provisional. tame_go. Qed.
Lemma tame_pin_condition m cond a : tame max (pin_condition W m cond a).
Proof. unfold pin_condition, existence_only_where_numbers_mislead. tame_go. Qed.
Lemma tame_provide i path : tame max (provide i path).
Proof. unfold provide. tame_go. Qed.
Hint Resolve tame_created tame_pin_condition tame_provide : auth.
Lemma tame_constrain_observed_creation path cond d i pol o : tame max (constrain_observed_creation W path cond d i pol o).
Proof. unfold constrain_observed_creation. tame_go. Qed.
Hint Resolve tame_constrain_observed_creation : auth.
Lemma tame_constrain_creation path cond d r i : tame max (constrain_creation cf W path cond d r i).
Proof. unfold constrain_creation. tame_go. Qed.
Hint Resolve tame_constrain_creation : auth.
Lemma tame_publish_held path cond i : tame max (publish_held cf W path cond i).
Proof. unfold publish_held. tame_go. Qed.
Lemma tame_recorded_lookup path p : tame max (recorded_lookup cf path p).
Proof. unfold recorded_lookup. tame_go. Qed.
Hint Resolve tame_publish_held tame_recorded_lookup : auth.
Lemma tame_constrain_publication path cond p i : tame max (constrain_publication key cf W path cond p i).
Proof. unfold constrain_publication. tame_go. Qed.
Lemma tame_looked_up_present path : tame max (looked_up_present key cf path).
Proof. unfold looked_up_present. tame_go. Qed.
Lemma tame_forget_lookup path : tame max (forget_lookup key cf path).
Proof. unfold forget_lookup. tame_go. Qed.
Lemma tame_pin_update path cond : tame max (pin_update cf W path cond).
Proof. unfold pin_update. tame_go. Qed.
Hint Resolve tame_looked_up_present tame_pin_update : auth.
Lemma tame_constrain_update path cond d : tame max (constrain_update cf W path cond d).
Proof. unfold constrain_update. tame_go. Qed.
Lemma tame_constrain_inplace path b : tame max (constrain_inplace cf path b).
Proof. unfold constrain_inplace. tame_go. Qed.
Lemma tame_require_publication_mode b m : tame max (require_publication_mode cf b m).
Proof. unfold require_publication_mode. tame_go. Qed.
Lemma tame_constrain_prepare path : tame max (constrain_prepare key cf W path).
Proof. unfold constrain_prepare. tame_go. Qed.
End Policy.

#[export] Hint Resolve tame_created tame_forget_provisional tame_constrain_observed_creation tame_constrain_creation
  tame_constrain_publication tame_forget_lookup tame_constrain_update tame_constrain_inplace tame_require_publication_mode
  tame_constrain_prepare : auth.
