(* ===== verification/AuthInner.v ===== *)
(** * Every request's checks are tame

    Whatever a request asks, checking it keeps the counters and the stream
    state, keeps the reservations well formed, and does not panic; so does
    settling the outcomes of one that was executed. *)

From stdpp Require Import strings.
From S2P Require Import Prelude Text Diagnostic Proto Hashing Mapping MappingGrant Grant Lookups AuthData Authority AuthPolicy AuthSettle AuthRequest AuthFrame AuthTame.
Local Open Scope Z_scope.

(** The sizes a request declares are [u64]s. *)
Definition declared_sizes (r : Request) : list Z :=
  match r with
  | RqPrepare _ size _ _ _ _ _ _ _ => [size]
  | RqStageBasis _ _ len _ | RqSeedBasis _ _ len _ => [len]
  | RqPatchSmallBatch patches => pa_len <$> patches
  | RqPatchBegin patch _ => [pa_len patch]
  | _ => []
  end.
Definition request_u64 (r : Request) : Prop := Forall (fun n => 0 <= n) (declared_sizes r).

Section Inner.
Context `{HashLib} {Gitignore : Type} (is_ignore : Gitignore -> PathBytes -> bool -> bool).
Context (from_json : list Z -> option WireEntry) (base64 : list Z -> option (list Z)).
Context (key : PathBytes -> Z) (cf : Config (Gitignore := Gitignore)) (W : World).
Abbreviation max := (cl_max_total_bytes (limits cf)).

Lemma tame_authorize_hardlink path source dev ino cond i : tame max (authorize_hardlink is_ignore cf W path source dev ino cond i).
Proof. unfold authorize_hardlink. tame_go. Qed.
Lemma tame_constrain_parent path cond i : tame max (constrain_parent cf W path cond i).
Proof. unfold constrain_parent. tame_go. Qed.
Hint Resolve tame_constrain_parent : auth.
Lemma tame_authorize_mkdir path mode cond i : tame max (authorize_mkdir cf W path mode cond i).
Proof. unfold authorize_mkdir. tame_go. Qed.
Lemma tame_authorize_set_meta path meta flags cond d kind i : tame max (authorize_set_meta cf W path meta flags cond d kind i).
Proof. unfold authorize_set_meta. tame_go. Qed.
Lemma tame_metadata_kind op : tame max (metadata_kind cf W op).
Proof. unfold metadata_kind. tame_go. Qed.
Lemma tame_authorize_delete path d i : tame max (authorize_delete is_ignore key cf path d i).
Proof. unfold authorize_delete. tame_go. Qed.
Hint Resolve tame_metadata_kind : auth.
Lemma tame_check_op op : tame max (check_op is_ignore cf W op).
Proof. unfold check_op. tame_go. Qed.
Hint Resolve tame_authorize_hardlink tame_authorize_mkdir tame_authorize_set_meta tame_authorize_delete tame_check_op : auth.
Lemma tame_authorize_op i op : tame max (authorize_op is_ignore key cf W i op).
Proof. unfold authorize_op. tame_go. Qed.
Hint Resolve tame_authorize_op : auth.
Lemma tame_authorize_apply_op i op : tame max (authorize_apply_op is_ignore key cf W i op).
Proof. unfold authorize_apply_op. tame_go. Qed.

Lemma tame_authorize_put i put : tame max (authorize_put is_ignore key cf W i put).
Proof. unfold authorize_put. tame_go. Qed.
Hint Resolve tame_authorize_put tame_authorize_apply_op : auth.
Lemma tame_authorize_puts puts : tame max (authorize_puts is_ignore key cf W puts).
Proof. unfold authorize_puts. tame_go. Qed.

Lemma tame_authorize_patch i p : 0 <= pa_len p -> tame max (authorize_patch is_ignore cf W i p).
Proof. intros. unfold authorize_patch. tame_go. Qed.

Lemma tame_release_patch_holds outcomes : tame max (release_patch_holds outcomes).
Proof. unfold release_patch_holds. tame_go. Qed.
Hint Resolve tame_release_patch_holds : auth.

Lemma tame_rollback_patches first : tame max (rollback_patches first).
Proof. unfold rollback_patches. tame_go. Qed.

Lemma tame_authorize_patches patches : Forall (fun p => 0 <= pa_len p) patches -> tame max (authorize_patches is_ignore cf W patches).
Proof. intros Hp. unfold authorize_patches. tame_go. apply tame_authorize_patch. by eapply Forall_forall in Hp. Qed.

Lemma tame_authorize_patch_batch patches : Forall (fun p => 0 <= pa_len p) patches ->
  tame max (authorize_patch_batch is_ignore cf W patches).
Proof.
  intros Hp c Hc. destruct (tame_authorize_patches patches Hp c Hc) as (Hn & Hf & Ho & Hs). unfold authorize_patch_batch.
  destruct (authorize_patches is_ignore cf W patches c) as [c' [ps|e]]; cbn in *; [done|].
  destruct (tame_rollback_patches (length (ca_outcomes c)) c' Ho) as (Hn' & Hf' & Ho' & Hs').
  destruct (rollback_patches _ c') as [c2 [u|e2]]; cbn in *; split_and!; eauto using framed_trans, res_step_trans; congruence.
Qed.

Lemma authorize_patch_batch_length patches c c' ps : authorize_patch_batch is_ignore cf W patches c = (c', Ok ps) ->
  length ps = length patches.
Proof.
  unfold authorize_patch_batch. destruct (authorize_patches _ _ _ patches c) as [c1 [ps1|e]] eqn:E.
  2:{ destruct (rollback_patches _ c1) as [? [?|?]]; congruence. }
  intros [= -> ->]. unfold authorize_patches in E. apply method_bind_Ok in E as (? & ? & _ & E).
  apply method_bind_Ok in E as (? & ? & _ & E). revert E. generalize 0%nat. generalize c'. clear.
  intros c'. revert ps c' x1. induction patches as [|p patches IH]; intros ps c' c i; cbn [for_each_mut]; [by intros [= _ <-]|].
  intros (q & c1 & _ & E)%method_bind_Ok. apply method_bind_Ok in E as (qs & c2 & E & [= _ <-]). cbn. f_equal. by eapply IH.
Qed.

Lemma tame_authorize_small_file request flags i f : tame max (authorize_small_file is_ignore cf W request flags i f).
Proof. unfold authorize_small_file. tame_go. Qed.
Hint Resolve tame_authorize_small_file : auth.
Lemma tame_authorize_small_copy request : tame max (authorize_small_copy is_ignore cf W request).
Proof. unfold authorize_small_copy. tame_go. Qed.

Lemma authorize_op_mkdir i path mode cond c c' op : authorize_op is_ignore key cf W i (OpMkdir path mode cond) c = (c', Ok op) ->
  exists mode' cond', op = OpMkdir path mode' cond'.
Proof.
  cbn [authorize_op]. intros (k & c1 & _ & E)%method_bind_Ok. unfold authorize_mkdir in E.
  apply method_bind_Ok in E as (b & c2 & _ & E). apply method_bind_Ok in E as (cond' & c3 & _ & E).
  apply method_bind_Ok in E as ([] & c4 & _ & [= _ <-]). eauto.
Qed.

Lemma tame_widen_directory i d : tame max (widen_directory is_ignore key cf W i d).
Proof.
  destruct d as [path cond]. unfold widen_directory. destruct (bool_decide _); [tame_go|]. apply tame_bind; [auto with auth|intros _].
  intros c Hc. destruct (tame_authorize_op i (OpMkdir path 448 cond) c Hc) as (Hn & Hf & Ho & Hs).
  unfold mbind, method_bind. destruct (authorize_op is_ignore key cf W i (OpMkdir path 448 cond) c) as [c' [op|e]] eqn:E; cbn in *.
  - apply authorize_op_mkdir in E as (m & cond' & ->). done.
  - split_and!; [congruence|done|done|done].
Qed.

Lemma tame_filesystem_target b : tame max (filesystem_target cf W b).
Proof. unfold filesystem_target. tame_go. Qed.
Lemma tame_check_widening access : tame max (check_widening cf access).
Proof. unfold check_widening. tame_go. Qed.
Lemma tame_authorize_basis b path copy_id len block : 0 <= len -> tame max (authorize_basis is_ignore key cf W b path copy_id len block).
Proof. intros. unfold authorize_basis. tame_go. Qed.
Lemma tame_authorize_prepare path size inplace copy_id mode flags create update : 0 <= size ->
  tame max (authorize_prepare is_ignore key cf W path size inplace copy_id mode flags create update).
Proof. intros. unfold authorize_prepare. tame_go. Qed.
Lemma tame_check_stream_begin p n : tame max (check_stream_begin cf p n).
Proof. unfold check_stream_begin. tame_go. Qed.
Lemma tame_authorize_finish_basis path meta flags cond : tame max (authorize_finish_basis is_ignore cf W path meta flags cond).
Proof. unfold authorize_finish_basis. tame_go. Qed.
Lemma tame_authorize_finalize path inplace copy_id meta flags cond :
  tame max (authorize_finalize is_ignore key cf W path inplace copy_id meta flags cond).
Proof. unfold authorize_finalize. tame_go. Qed.
Lemma tame_authorize_listen o k t h lo hi cc sr : tame max (authorize_listen cf o k t h lo hi cc sr).
Proof. unfold authorize_listen. tame_go. Qed.
Lemma tame_append_mapping o off data fin : tame max (append_mapping from_json base64 o off data fin).
Proof. unfold append_mapping. tame_go. Qed.
Lemma tame_observe_all paths : tame max (observe_all cf paths).
Proof. unfold observe_all. tame_go. Qed.
Lemma tame_no_source b : tame max (no_source b).
Proof. unfold no_source. tame_go. Qed.
Hint Resolve tame_no_source : auth.
Lemma tame_authorize_scan root s f ig : tame max (authorize_scan cf root s f ig).
Proof. unfold authorize_scan. tame_go. Qed.
Lemma tame_allow_probe b : tame max (allow_probe cf b).
Proof.
  intros c Hc. destruct (tame_check_mutation_allowed cf max c Hc) as (Hn & ? & ? & ?). unfold allow_probe.
  destruct (check_mutation_allowed cf c) as [c' [u|e]]; cbn in *; split_and!; done.
Qed.
Hint Resolve tame_authorize_puts tame_authorize_small_copy tame_widen_directory tame_filesystem_target tame_check_widening
  tame_check_stream_begin tame_authorize_finish_basis tame_authorize_finalize tame_authorize_listen tame_append_mapping
  tame_observe_all tame_authorize_scan tame_allow_probe : auth.

Lemma tame_patch_begin patch data_len : 0 <= pa_len patch ->
  tame max (patches ← authorize_patch_batch is_ignore cf W [patch];
            match patches with [patch] => mret (RqPatchBegin patch data_len) | _ => m_fail Panicked end).
Proof.
  intros Hp c Hc. destruct (tame_authorize_patch_batch [patch] ltac:(by repeat constructor) c Hc) as (Hn & Hf & Ho & Hs).
  unfold mbind, method_bind. destruct (authorize_patch_batch is_ignore cf W [patch] c) as [c' [ps|e]] eqn:E; cbn in *.
  - apply authorize_patch_batch_length in E. destruct ps as [|p [|? ?]]; done.
  - split_and!; [congruence|done|done|done].
Qed.

Lemma tame_authorize_inner over_ssh r : request_u64 r -> tame max (authorize_inner is_ignore from_json base64 key cf W over_ssh r).
Proof.
  intros Hr. unfold authorize_inner. apply tame_bind; [auto with auth|intros _].
  unfold request_u64 in Hr. destruct r; cbn in Hr; rewrite ?Forall_cons, ?Forall_fmap in Hr; try (tame_go; fail).
  - tame_go. apply tame_authorize_prepare. tauto.
  - tame_go. apply tame_authorize_basis. tauto.
  - tame_go. apply tame_authorize_basis. tauto.
  - tame_go. by apply tame_authorize_patch_batch.
  - apply tame_bind; [auto with auth|intros _]. apply tame_patch_begin. tauto.
Qed.

(** ** Settling outcomes *)
Lemma core_emit e s : is_finish e = false -> core (emit e s) = core s /\ resv (emit e s) = resv s.
Proof.
  intros He. unfold emit. destruct (s_results s) as [events|] eqn:E; [|done]. split; [|done]. unfold core, finished. cbn.
  by rewrite E, existsb_app, (orb_comm _ (existsb _ [e])); cbn; rewrite He.
Qed.
Lemma core_record_change path c e s : core (record_change cf path c e s) = core s /\ resv (record_change cf path c e s) = resv s.
Proof. unfold record_change. repeat case_match; done || by apply core_emit. Qed.
Lemma core_record_retried path c e s : core (record_retried cf path c e s) = core s /\ resv (record_retried cf path c e s) = resv s.
Proof. unfold record_retried. repeat case_match; done || by apply core_emit. Qed.
Lemma core_small_copy rs i path size s : core (settle_small_copy cf rs i path size s) = core s /\ resv (settle_small_copy cf rs i path size s) = resv s.
Proof. unfold settle_small_copy. repeat case_match; done || apply core_record_change. Qed.
Lemma core_lifecycle rs i path k size stage s :
  core (settle_lifecycle cf rs i path k size stage s) = core s /\ resv (settle_lifecycle cf rs i path k size stage s) = resv s.
Proof.
  unfold settle_lifecycle. repeat case_match; try done.
  match goal with |- core (record_change _ ?p ?c ?e ?s') = _ /\ _ => destruct (core_record_change p c e s') as [-> ->] end. done.
Qed.
Lemma core_settle_creation rs p s : core (settle_creation rs p s) = core s /\ resv (settle_creation rs p s) = resv s.
Proof. unfold settle_creation. by case_match. Qed.
Lemma core_settle_creations rs ps s :
  core (foldl (fun s p => settle_creation rs p s) s ps) = core s /\ resv (foldl (fun s p => settle_creation rs p s) s ps) = resv s.
Proof.
  revert s. induction ps as [|p ps IH]; intros s; [done|]. cbn. destruct (IH (settle_creation rs p s)) as [-> ->]. apply core_settle_creation.
Qed.

Lemma tame_settle_outcome rs streaming o : tame max (settle_outcome cf W rs streaming o).
Proof.
  destruct o; cbn [settle_outcome]; unfold settle_patch, settle_file_stage; tame_go;
    try (apply tame_mod_s; intros; apply core_record_change || apply core_record_retried || apply core_small_copy || apply core_lifecycle).
Qed.
End Inner.
