(* ===== verification/AuthInv.v ===== *)
(** * The accounting of outstanding requests

    [Inv s owed adm]: the authority's counters against the requests not yet
    settled, [owed], and the [adm] tracked requests admitted but not yet
    authorized.
    - Every tracked one is counted as in flight, exactly.
    - What may still be refunded is covered by the counters, so no refund can
      wrap, and the counters stay within the signed limits.
    - A file's share count is the number of outstanding requests that share it.  *)

From stdpp Require Import strings.
From S2P Require Import Prelude Text Diagnostic Proto Hashing Mapping MappingGrant Grant Lookups AuthData Authority AuthPolicy AuthSettle AuthRequest AuthFrame AuthTame AuthInner.
Local Open Scope Z_scope.

Definition owed_changes (st : Settlement) : Z := ch_changes (st_charged st).
Definition owed_deletions (st : Settlement) : Z := lenZ (ch_deleting (st_charged st)).
Definition shares (k : FileKey) (i : Z) (st : Settlement) : bool := bool_decide (ch_file (st_charged st) = Some (k, i)).
Definition holders (b : ByteReservation) : Z := match br_entry b with Some e => ec_holders e | None => 0 end.

(** [u64] limits. *)
Record limits_u64 (l : CopyLimits) : Prop := {
  lu_entries : 0 <= cl_max_entries l; lu_bytes : 0 <= cl_max_total_bytes l; lu_conn : 0 <= cl_max_connections l;
  lu_del : 0 <= cl_max_deletions l
}.

Lemma lenZ_nonneg {A} (l : list A) : 0 <= lenZ l.
Proof. unfold lenZ. lia. Qed.

Lemma fetch_sub_exact a n : 0 <= n -> n <= a -> a <= u64_max -> fetch_sub a n = a - n.
Proof. unfold fetch_sub, u64_max. intros. apply Z.mod_small. lia. Qed.

Lemma undeleted_bounds deleting unmade : 0 <= undeleted deleting unmade <= lenZ deleting.
Proof.
  unfold lenZ. revert unmade. induction deleting as [|i d IH]; intros u; cbn; [lia|]. specialize (IH (skip_below i u)). case_decide; lia.
Qed.

Section Invariant.
Context `{HashLib} (l : CopyLimits).

Record Inv (s : AuthState) (owed : list Settlement) (adm : Z) : Prop := {
  iv_res : res_ok (cl_max_total_bytes l) s;
  iv_in_flight : s_in_flight s = Z.of_nat (countb st_tracked owed) + adm;
  iv_adm : 0 <= adm;
  iv_changes : sumZ (owed_changes <$> owed) + entries s <= s_changes s;
  iv_changes_max : s_changes s <= cl_max_entries l /\ s_changes s <= u64_max;
  iv_deletions : sumZ (owed_deletions <$> owed) <= s_deletions s;
  iv_deletions_max : s_deletions s <= cl_max_deletions l /\ s_deletions s <= u64_max;
  iv_bytes : 0 <= s_transferred_bytes s <= cl_max_total_bytes l /\ s_transferred_bytes s <= u64_max;
  iv_conn : 0 <= s_live_connections s <= cl_max_connections l;
  iv_nonneg : Forall (fun st => 0 <= owed_changes st) owed;
  iv_shares k b : s_reserved s !! k = Some b -> holders b = Z.of_nat (countb (shares k (br_instance b)) owed);
  iv_fresh : Forall (fun st => forall k i, ch_file (st_charged st) = Some (k, i) -> i <= s_next_instance s) owed
}.

#[export] Instance Inv_proper s : Proper ((≡ₚ) ==> (=) ==> iff) (Inv s).
Proof.
  intros o o' Ho a a' ->. split; intros []; split; rewrite ?Ho in *; try done;
    try (intros; rewrite ?Ho; by auto); try (intros k b Hk; rewrite <- ?Ho; by auto); by rewrite <- ?Ho.
Qed.

Lemma entries_nonneg s : 0 <= entries s.
Proof. apply msum_nonneg. intros. apply counts_entry_nonneg. Qed.

Lemma owed_changes_sum s owed adm : Inv s owed adm -> 0 <= sumZ (owed_changes <$> owed).
Proof.
  intros Hi. apply sumZ_nonneg. intros x (st & -> & Hst)%list_elem_of_fmap. by apply (proj1 (Forall_forall _ _) (iv_nonneg _ _ _ Hi)).
Qed.

Lemma owed_deletions_sum (owed : list Settlement) : 0 <= sumZ (owed_deletions <$> owed).
Proof. apply sumZ_nonneg. intros x (st & -> & Hst)%list_elem_of_fmap. apply lenZ_nonneg. Qed.

(** Tame steps keep the accounts. *)
Lemma step_inv s s' owed adm : core s' = core s -> res_ok (cl_max_total_bytes l) s' -> res_step s s' ->
  Inv s owed adm -> Inv s' owed adm.
Proof.
  unfold core. intros [= E1 E2 E3 E4 E5 E6 E7 E8 E9] Ho [Hnext Hent Hkept] Hi. destruct Hi.
  split; rewrite ?E1, ?E2, ?E3, ?E4, ?E5; try done; [lia| |].
  - intros k b' Hk. destruct (Hkept _ _ Hk) as [(b & Hb & He & Hin)|[He Hin]].
    + rewrite <- Hin, <- (iv_shares0 _ _ Hb). unfold holders. by rewrite He.
    + unfold holders. rewrite He. enough (countb (shares k (br_instance b')) owed = 0%nat) by lia. apply countb_zero. intros st Hst. apply bool_decide_eq_false.
      intros Hf. apply (proj1 (Forall_forall _ _) iv_fresh0 _ Hst) in Hf. lia.
  - eapply Forall_impl; [exact iv_fresh0|]. cbn. intros st Hf k i Hk. apply Hf in Hk. lia.
Qed.

Lemma tame_inv {A} (m : method Call AuthError A) c owed adm : tame (cl_max_total_bytes l) m -> Inv (ca_state c) owed adm ->
  (m c).2 <> Err Panicked /\ framed c (m c).1 /\ Inv (ca_state (m c).1) owed adm.
Proof.
  intros Hm Hi. destruct (Hm c (iv_res _ _ _ Hi)) as (? & (? & ? & ?) & ? & ?). split_and!; [done|done|]. by eapply step_inv.
Qed.

(** ** Refunds *)
(** One outstanding request's charge goes down, and the counters by no more. *)
Lemma recharge s s' st c owed adm : Inv s (st :: owed) adm ->
  (s_live_connections s', s_in_flight s', s_transferred_bytes s', s_next_instance s') =
  (s_live_connections s, s_in_flight s, s_transferred_bytes s, s_next_instance s) ->
  res_ok (cl_max_total_bytes l) s' -> 0 <= ch_changes c ->
  s_changes s - (owed_changes st - ch_changes c) + (entries s' - entries s) <= s_changes s' <= s_changes s ->
  s_deletions s - (owed_deletions st - lenZ (ch_deleting c)) <= s_deletions s' <= s_deletions s ->
  (forall k b, s_reserved s' !! k = Some b -> holders b = Z.of_nat (countb (shares k (br_instance b)) (with_charged c st :: owed))) ->
  (forall k i, ch_file c = Some (k, i) -> ch_file (st_charged st) = Some (k, i)) ->
  Inv s' (with_charged c st :: owed) adm.
Proof.
  intros [] [= E1 E2 E3 E4] Hres Hc Hch Hdel Hsh Hfile.
  apply Forall_cons in iv_nonneg0 as [Hn1 Hn2]. apply Forall_cons in iv_fresh0 as [Hf1 Hf2].
  cbn [fmap list_fmap] in *. rewrite sumZ_cons in *.
  assert (Hd : owed_deletions (with_charged c st) = lenZ (ch_deleting c)) by done.
  assert (Ha : owed_changes (with_charged c st) = ch_changes c) by done.
  assert (Ht : countb st_tracked (with_charged c st :: owed) = countb st_tracked (st :: owed)) by by rewrite !countb_cons.
  split; cbn [fmap list_fmap]; rewrite ?sumZ_cons, ?E1, ?E2, ?E3, ?Hd, ?Ha, ?Ht; try done; try lia.
  - constructor; [by rewrite Ha|done].
  - constructor; rewrite E4; [|done]. intros k i Hk. by eapply Hf1, Hfile.
Qed.

Lemma head_counted s st owed adm : Inv s (st :: owed) adm ->
  0 <= owed_changes st /\ owed_changes st + entries s <= s_changes s /\ s_changes s <= u64_max /\
  owed_deletions st <= s_deletions s /\ s_deletions s <= u64_max /\ 0 <= entries s.
Proof.
  intros []. apply Forall_cons in iv_nonneg0 as [Hn1 Hn2]. cbn [fmap list_fmap] in *. rewrite sumZ_cons in *.
  pose proof (owed_deletions_sum owed). pose proof (entries_nonneg s).
  assert (0 <= sumZ (owed_changes <$> owed)).
  { apply sumZ_nonneg. intros x (st' & -> & Hst)%list_elem_of_fmap. by apply (proj1 (Forall_forall _ _) Hn2). }
  lia.
Qed.

Lemma shares_charged k i c st owed : ch_file c = ch_file (st_charged st) ->
  countb (shares k i) (with_charged c st :: owed) = countb (shares k i) (st :: owed).
Proof. intros E. rewrite !countb_cons. unfold shares at 1 3. cbn. by rewrite E. Qed.

Lemma refund_changes_inv s st owed adm n c : Inv s (st :: owed) adm -> 0 <= n <= owed_changes st ->
  c = mkCharged 0 (ch_deleting (st_charged st)) (ch_file (st_charged st)) ->
  Inv (set_s_changes (fetch_sub (s_changes s) n) s) (with_charged c st :: owed) adm.
Proof.
  intros Hi Hn ->. destruct (head_counted _ _ _ _ Hi) as (? & ? & ? & ? & ? & ?).
  rewrite fetch_sub_exact by lia. apply (recharge s); cbn -[countb with_charged entries]; try done; try lia.
  - by apply (res_ok_resv _ s), (iv_res _ _ _ Hi).
  - change (entries (set_s_changes (s_changes s - n) s)) with (entries s). lia.
  - unfold owed_deletions. lia.
  - intros k b Hk. rewrite shares_charged by done. by apply (iv_shares _ _ _ Hi).
Qed.

Lemma refund_deletions_inv s st owed adm n c : Inv s (st :: owed) adm -> 0 <= n <= owed_deletions st ->
  c = mkCharged (ch_changes (st_charged st)) [] (ch_file (st_charged st)) ->
  Inv (set_s_deletions (fetch_sub (s_deletions s) n) s) (with_charged c st :: owed) adm.
Proof.
  intros Hi Hn ->. destruct (head_counted _ _ _ _ Hi) as (? & ? & ? & ? & ? & ?).
  rewrite fetch_sub_exact by lia. apply (recharge s); cbn -[countb with_charged entries]; try done; try lia.
  - by apply (res_ok_resv _ s), (iv_res _ _ _ Hi).
  - change (entries (set_s_deletions (s_deletions s - n) s)) with (entries s). unfold owed_changes. lia.
  - change (lenZ []) with 0. lia.
  - intros k b Hk. rewrite shares_charged by done. by apply (iv_shares _ _ _ Hi).
Qed.

(** A reservation whose entry alone changes. *)
Lemma res_ok_entry s k b e : res_ok (cl_max_total_bytes l) s -> s_reserved s !! k = Some b ->
  res_ok (cl_max_total_bytes l) (set_s_reserved (<[k := with_entry e b]> (s_reserved s)) s).
Proof.
  intros [H1 H2 H3 H4 H5] Hk. split; cbn; [|rewrite (msum_insert _ _ _ _ _ Hk); change (size_of (with_entry e b)) with (size_of b); lia|done|done|];
    intros k' b' [[<- <-]|[? ?]]%lookup_insert_Some; [apply (H1 k b Hk)|eauto|apply (H5 k b Hk)|eauto].
Qed.

Lemma entries_put s k b e : s_reserved s !! k = Some b ->
  entries (set_s_reserved (<[k := with_entry e b]> (s_reserved s)) s) = entries s - counts_entry b + (if e then 1 else 0).
Proof. intros Hk. unfold entries. cbn. by rewrite (msum_insert _ _ _ _ _ Hk). Qed.

(** Dropping a share of a reservation that is not there any more. *)
Lemma drop_share_inv s st owed adm c : Inv s (st :: owed) adm ->
  c = mkCharged (ch_changes (st_charged st)) (ch_deleting (st_charged st)) None ->
  (forall k i b, ch_file (st_charged st) = Some (k, i) -> s_reserved s !! k = Some b -> br_instance b <> i) ->
  Inv s (with_charged c st :: owed) adm.
Proof.
  intros Hi -> Hno. destruct (head_counted _ _ _ _ Hi) as (? & ? & ? & ? & ? & ?).
  apply (recharge s); cbn -[countb with_charged entries]; try done.
  - apply (iv_res _ _ _ Hi).
  - unfold owed_changes. lia.
  - unfold owed_deletions. lia.
  - intros k b Hk. rewrite (iv_shares _ _ _ Hi k b Hk), !countb_cons. unfold shares at 1 3. cbn.
    rewrite bool_decide_eq_false_2; [done|]. intros E. by eapply Hno.
Qed.

Lemma release_file_inv s st owed adm made c : Inv s (st :: owed) adm ->
  c = mkCharged (ch_changes (st_charged st)) (ch_deleting (st_charged st)) None ->
  Inv (release_file (ch_file (st_charged st)) made s) (with_charged c st :: owed) adm.
Proof.
  intros Hi Hc. unfold release_file. destruct (ch_file (st_charged st)) as [[k i]|] eqn:Ef.
  2:{ apply drop_share_inv; [done|done|]. intros. congruence. }
  destruct (s_reserved s !! k) as [b|] eqn:Ek.
  2:{ apply drop_share_inv; [done|done|]. intros. congruence. }
  case_bool_decide as Hin; cbn [negb].
  2:{ apply drop_share_inv; [done|done|]. intros. congruence. }
  assert (Hsh : holders b = 1 + Z.of_nat (countb (shares k i) owed)).
  { rewrite (iv_shares _ _ _ Hi k b Ek), Hin, countb_cons. unfold shares at 1. rewrite Ef, bool_decide_eq_true_2 by done. lia. }
  unfold holders in Hsh. destruct (br_entry b) as [e|] eqn:Ee; [|lia].
  assert (Hsub : saturating_sub (ec_holders e) 1 = Z.of_nat (countb (shares k i) owed)) by (unfold saturating_sub; lia).
  assert (Hshares : forall e' k' b', <[k := with_entry e' b]> (s_reserved s) !! k' = Some b' ->
            (match e' with Some e' => ec_holders e' | None => 0 end) = Z.of_nat (countb (shares k i) owed) ->
            holders b' = Z.of_nat (countb (shares k' (br_instance b')) (with_charged c st :: owed))).
  { intros e' k' b' Hk' He'. rewrite countb_cons. subst c. unfold shares at 1. cbn -[countb].
    rewrite bool_decide_eq_false_2 by done.
    apply lookup_insert_Some in Hk' as [[<- <-]|[Hne Hk']]; [unfold holders; cbn -[countb]; rewrite Hin, He'; lia|].
    rewrite (iv_shares _ _ _ Hi k' b' Hk'), countb_cons. unfold shares at 1. rewrite Ef, bool_decide_eq_false_2; [lia|congruence]. }
  destruct (head_counted _ _ _ _ Hi) as (? & ? & ? & ? & ? & ?).
  assert (Hce : counts_entry b = 1) by (unfold counts_entry; by rewrite Ee).
  assert (Hent : 1 <= entries s).
  { unfold entries. rewrite (msum_delete counts_entry _ _ _ Ek), Hce.
    enough (0 <= msum counts_entry (delete k (s_reserved s))) by lia. apply msum_nonneg. intros; apply counts_entry_nonneg. }
  pose proof (res_ok_entry s k b) as Hro. pose proof (entries_put s k b) as Hep.
  cbn [ec_holders ec_made]. destruct (bool_decide _ && negb _) eqn:Eb.
  - apply andb_true_iff in Eb as [Eb%bool_decide_eq_true _]. rewrite Hsub in Eb.
    rewrite fetch_sub_exact by lia. subst c. apply (recharge s); cbn -[entries countb with_charged]; try done.
    + eapply (res_ok_resv _ (set_s_reserved (<[k:=with_entry None b]> (s_reserved s)) s)); [done|]. apply Hro; [apply (iv_res _ _ _ Hi)|done].
    + match goal with |- context [entries (set_s_changes ?n ?s')] => change (entries (set_s_changes n s')) with (entries s') end.
      rewrite (Hep None Ek), Hce. unfold owed_changes. lia.
    + unfold owed_deletions. lia.
    + intros k' b' Hk'. eapply (Hshares None); [done|]. lia.
  - subst c. apply (recharge s); cbn -[entries countb with_charged]; try done.
    + apply Hro; [apply (iv_res _ _ _ Hi)|done].
    + rewrite (Hep _ Ek), Hce. unfold owed_changes. lia.
    + unfold owed_deletions. lia.
    + intros k' b' Hk'. eapply Hshares; [done|]. cbn. lia.
Qed.
End Invariant.
