(* ===== verification/AuthAccounts.v ===== *)
(** * Charging, settling and refusing keep the accounts

    Each operation that starts or ends an outstanding request, as a step of the
    invariant: charging adds one, settling takes it away, a refusal leaves
    nothing behind. *)

From stdpp Require Import strings.
From S2P Require Import Prelude Text Diagnostic Proto Hashing Mapping MappingGrant Grant Lookups AuthData Authority AuthPolicy AuthSettle AuthRequest AuthFrame AuthTame AuthInner AuthInv.
Local Open Scope Z_scope.

(** A method whose only error is a panic. *)
Definition never_refuses {S A} (m : method S AuthError A) : Prop := forall c, match (m c).2 with Ok _ => True | Err e => e = Panicked end.

Section NeverRefuses.
Context {S : Type}.

Lemma nr_ret {A} (a : A) : never_refuses (S := S) (mret a).
Proof. done. Qed.
Lemma nr_bind {A B} (m : method S AuthError A) (k : A -> method S AuthError B) :
  never_refuses m -> (forall a, never_refuses (k a)) -> never_refuses (m ≫= k).
Proof.
  intros Hm Hk c. specialize (Hm c). unfold mbind, method_bind. destruct (m c) as [c' [a|e]]; cbn in *; [apply Hk|done].
Qed.
Lemma nr_for_each {A} (f : A -> method S AuthError unit) l : (forall x, never_refuses (f x)) -> never_refuses (for_each f l).
Proof. intros Hf. induction l as [|x l IH]; [apply nr_ret|]. by apply nr_bind; [|intros _]. Qed.
End NeverRefuses.

Ltac nr_go :=
  repeat match goal with
  | |- never_refuses (mbind _ _) => apply nr_bind; [|intros ?]
  | |- never_refuses (for_each _ _) => apply nr_for_each; intros ?
  | |- never_refuses (let '(_, _) := ?x in _) => destruct x
  | |- never_refuses (if ?b then _ else _) => destruct b
  | |- never_refuses (match ?x with _ => _ end) => destruct x
  | |- never_refuses (mod_s _) => done
  | |- never_refuses (mret _) => done
  | |- never_refuses get_s => done
  | |- never_refuses m_get => done
  | |- never_refuses (expect ?o) => intros ?; destruct o; done
  end.

(** The flags that close the grant, the stream state and its step. *)
Section Flags.
Context `{HashLib}.
Definition flags (s : AuthState) := (s_results_closing s, s_results_started s, s_control_open s, finished s, s_live_connections s).
Definition same_flags (c c' : Call) : Prop :=
  flags (ca_state c') = flags (ca_state c) /\ ca_gate c' = ca_gate c /\ ca_step c' = ca_step c.

Lemma same_flags_refl c : same_flags c c.
Proof. done. Qed.
Lemma same_flags_trans a b c : same_flags a b -> same_flags b c -> same_flags a c.
Proof. unfold same_flags. intros (? & ? & ?) (? & ? & ?). split_and!; congruence. Qed.
Lemma framed_flags c c' : framed c c' -> same_flags c c'.
Proof. unfold framed, same_flags, core, flags. intros ([= ? _ _ _ _ ? ? ? ?] & ? & ?). split_and!; congruence. Qed.
End Flags.

Section Accounts.
Context `{HashLib} {Gitignore : Type} (is_ignore : Gitignore -> PathBytes -> bool -> bool).
Context (from_json : list Z -> option WireEntry) (base64 : list Z -> option (list Z)).
Context (key : PathBytes -> Z) (cf : Config (Gitignore := Gitignore)) (W : World).
Abbreviation Inv := (Inv (limits cf)).

(** ** Settling *)
Lemma nr_kind_there path : never_refuses (kind_there cf W path).
Proof. intros c. unfold kind_there. destruct (rooted_metadata cf W path c) as [c' [[m|]|e]]; done. Qed.

Lemma nr_settle_hold k h r : never_refuses (settle_hold k h r).
Proof. unfold settle_hold. nr_go. Qed.

Lemma nr_release_patch_holds outcomes : never_refuses (release_patch_holds outcomes).
Proof. unfold release_patch_holds. nr_go; apply nr_settle_hold. Qed.

Lemma nr_settle_outcome rs streaming o : never_refuses (settle_outcome cf W rs streaming o).
Proof.
  destruct o; cbn [settle_outcome]; unfold settle_patch, settle_file_stage; nr_go; apply nr_kind_there || apply nr_settle_hold.
Qed.

Lemma unmade_nonneg n rs : 0 <= lenZ (unmade n rs).
Proof. apply lenZ_nonneg. Qed.

(** Refunds empty a settled request's charge. *)
Lemma refund_unmade_inv s st owed adm rs : Inv s (st :: owed) adm ->
  Inv (refund_unmade (st_charged st) rs s) (with_charged Charged_default st :: owed) adm.
Proof.
  intros Hi. destruct (head_counted _ _ _ _ _ Hi) as (Hnn & _). unfold refund_unmade.
  set (u := unmade _ rs). set (refunded := Z.min _ _). set (s1 := if decide (0 < refunded) then _ else s).
  assert (H1 : Inv s1 (with_charged (mkCharged 0 (ch_deleting (st_charged st)) (ch_file (st_charged st))) st :: owed) adm).
  { pose proof (lenZ_nonneg u). unfold s1. case_decide.
    - apply refund_changes_inv; [done| |done]. unfold refunded, owed_changes in *. lia.
    - replace s with (set_s_changes (fetch_sub (s_changes s) 0) s).
      + apply refund_changes_inv; [done| |done]. lia.
      + destruct (head_counted _ _ _ _ _ Hi) as (? & ? & ? & ? & ? & ?). rewrite fetch_sub_exact by lia. rewrite Z.sub_0_r. by destruct s. }
  set (made := negb _).
  apply (release_file_inv _ _ _ _ _ made (mkCharged 0 (ch_deleting (st_charged st)) None)) in H1; [|done].
  cbn [ch_file st_charged with_charged] in H1. set (s2 := release_file _ made s1) in *.
  pose proof (undeleted_bounds (ch_deleting (st_charged st)) u) as Hu. set (d := undeleted _ u) in *.
  destruct (head_counted _ _ _ _ _ H1) as (_ & _ & _ & ? & ? & _).
  assert (owed_deletions (with_charged (mkCharged 0 (ch_deleting (st_charged st)) None)
    (with_charged (mkCharged 0 (ch_deleting (st_charged st)) (ch_file (st_charged st))) st)) = lenZ (ch_deleting (st_charged st))) as Hd by done.
  case_decide.
  - apply (refund_deletions_inv _ _ _ _ _ d Charged_default) in H1; [done|lia|done].
  - replace s2 with (set_s_deletions (fetch_sub (s_deletions s2) 0) s2).
    + apply (refund_deletions_inv _ _ _ _ _ 0 Charged_default) in H1; [done|rewrite Hd; pose proof (lenZ_nonneg (ch_deleting (st_charged st))); lia|done].
    + rewrite fetch_sub_exact by lia. rewrite Z.sub_0_r. by destruct s2.
Qed.

(** A request with nothing charged and, when tracked, no longer counted. *)
Lemma discharge_inv s st owed adm : Inv s (with_charged Charged_default st :: owed) adm ->
  Inv (if st_tracked st then set_s_in_flight (saturating_sub (s_in_flight s) 1) s else s) owed adm.
Proof.
  intros Hi. destruct Hi. apply Forall_cons in iv_nonneg as [_ ?]. apply Forall_cons in iv_fresh as [_ ?].
  assert (Hc : countb st_tracked (with_charged Charged_default st :: owed) = ((if st_tracked st then 1 else 0) + countb st_tracked owed)%nat)
    by by rewrite countb_cons.
  assert (Hsh : forall k i, countb (shares k i) (with_charged Charged_default st :: owed) = countb (shares k i) owed).
  { intros k i. rewrite countb_cons. unfold shares at 1. cbn. by rewrite bool_decide_eq_false_2. }
  cbn [fmap list_fmap] in *. rewrite sumZ_cons in *. change (owed_changes (with_charged _ st)) with 0 in *.
  change (owed_deletions (with_charged _ st)) with 0 in *. rewrite Hc in iv_in_flight.
  destruct (st_tracked st); split; cbn; try done; try lia; try (intros k b Hk; rewrite <- Hsh; by auto).
  - by apply (res_ok_resv _ s).
  - unfold saturating_sub. lia.
Qed.

(** Settling after the counters. *)
Definition settle_rest (creations : list PendingCreation) (outcomes : list PendingOutcome) (rs : Response) : method Call AuthError unit :=
  _ ← mod_s (fun s => foldl (fun s p => settle_creation rs p s) s creations);
  _ ← (if decide (outcomes = []) then mret tt else mod_s (set_s_recorded_any true));
  s ← get_s;
  for_each (settle_outcome cf W rs (s_results_started s)) outcomes.

Lemma settle_rest_ok creations outcomes rs : tame (cl_max_total_bytes (limits cf)) (settle_rest creations outcomes rs) /\
  never_refuses (settle_rest creations outcomes rs).
Proof.
  unfold settle_rest. split.
  - apply tame_bind; [apply tame_mod_s; intros; apply core_settle_creations|intros _]. apply tame_bind; [tame_go|intros _].
    tame_go. apply tame_settle_outcome.
  - nr_go. apply nr_settle_outcome.
Qed.

Lemma settle_inv st rs c owed adm : Inv (ca_state c) (st :: owed) adm ->
  exists c', settle cf W st rs c = (c', Ok tt) /\ Inv (ca_state c') owed adm /\ same_flags c c'.
Proof.
  intros Hi. apply (refund_unmade_inv _ _ _ _ rs), discharge_inv in Hi.
  assert (Hfl : flags (refund_unmade (st_charged st) rs (ca_state c)) = flags (ca_state c)).
  { unfold refund_unmade, release_file. repeat case_match; done. }
  destruct st as [creations outcomes charged tracked stream]. cbn [st_charged st_tracked settle] in *.
  set (s1 := refund_unmade charged rs (ca_state c)) in *.
  destruct (bool_decide _ && bool_decide _ && negb tracked) eqn:Eb.
  { destruct tracked; [by rewrite andb_false_r in Eb|]. eexists. split_and!; [done|done|split_and!; done]. }
  set (s2 := if tracked then _ else s1) in *. set (c2 := set_ca_state s2 c).
  destruct (settle_rest_ok creations outcomes rs) as [Ht Hn]. set (rest := settle_rest creations outcomes rs) in *.
  destruct (tame_inv _ rest c2 owed adm Ht Hi) as (Hp & Hf & Hi2). specialize (Hn c2).
  destruct (rest c2) as [c3 [[]|e]] eqn:Er; cbn in *; [|congruence].
  exists c3. split_and!; [|done|].
  - rewrite <- Er. subst rest c2 s2. by destruct tracked.
  - eapply same_flags_trans; [|by apply framed_flags]. subst c2 s2. split_and!; [|done|done]. by destruct tracked.
Qed.

Lemma settle_unexecuted_inv st reason c owed adm : Inv (ca_state c) (st :: owed) adm ->
  exists c', settle_unexecuted cf W st reason c = (c', Ok tt) /\ Inv (ca_state c') owed adm /\ same_flags c c'.
Proof.
  intros Hi. unfold settle_unexecuted.
  set (s1 := set_s_changes (fetch_sub (s_changes (ca_state c)) (ch_changes (st_charged st))) (ca_state c)).
  set (s2 := set_s_deletions (fetch_sub (s_deletions s1) (lenZ (ch_deleting (st_charged st)))) s1).
  set (s3 := release_file (ch_file (st_charged st)) false s2).
  destruct (head_counted _ _ _ _ _ Hi) as (Hnn & _).
  assert (H3 : Inv s3 (with_charged Charged_default st :: owed) adm).
  { apply (refund_changes_inv _ _ _ _ _ (ch_changes (st_charged st))
      (mkCharged 0 (ch_deleting (st_charged st)) (ch_file (st_charged st)))) in Hi; [|unfold owed_changes in *; lia|done].
    apply (refund_deletions_inv _ _ _ _ _ (lenZ (ch_deleting (st_charged st))) (mkCharged 0 [] (ch_file (st_charged st)))) in Hi;
      [|pose proof (lenZ_nonneg (ch_deleting (st_charged st))); unfold owed_deletions; cbn; lia|done].
    by apply (release_file_inv _ _ _ _ _ false Charged_default) in Hi. }
  destruct (settle_inv (with_charged Charged_default st) (RsErr reason) (set_ca_state s3 c) owed adm H3) as (c' & E & Hi' & Hf).
  exists c'. split_and!; [by rewrite <- E|done|]. eapply same_flags_trans; [|exact Hf]. split_and!; [|done|done].
  cbn. subst s3. unfold release_file. repeat case_match; done.
Qed.

(** ** Charging *)
Lemma charge_counter_Some counter amount limit t : 0 <= amount -> counter <= limit -> counter <= u64_max ->
  charge_counter counter amount limit = Some t -> t = counter + amount /\ t <= limit /\ t <= u64_max.
Proof.
  unfold charge_counter, u64_add. intros ???. case_decide; [intros [= <-]; lia|]. case_decide; cbn; [|done].
  case_decide; [|done]. intros [= <-]. lia.
Qed.

Lemma sum_lengths_nonneg {A} (f : A -> Z) (xs : list A) : (forall x, 0 <= f x) -> 0 <= sumZ (f <$> xs).
Proof. intros Hf. apply sumZ_nonneg. intros x (a & -> & _)%list_elem_of_fmap. apply Hf. Qed.

Lemma request_counts_nonneg r b : 0 <= (request_counts r b).1 /\ 0 <= (request_counts r b).2.
Proof.
  destruct r; cbn; split; try lia; try apply lenZ_nonneg; try (apply sum_lengths_nonneg; intros; apply lenZ_nonneg);
    destruct b; lia.
Qed.

(** The state a charge leaves. *)
Definition charged_state (s : AuthState) (changes deletions bytes : Z) (file : option FileKey) : AuthState :=
  let s := set_s_transferred_bytes bytes (set_s_deletions deletions (set_s_changes changes s)) in
  match file with
  | Some k => match s_reserved s !! k with
              | Some b => set_s_reserved (<[k := with_entry (Some (hold_entry (br_entry b))) b]> (s_reserved s)) s
              | None => s
              end
  | None => s
  end.

(** The reservation a request shares, and what the share adds to the count. *)
Definition file_share (s : AuthState) (r : Request) : option FileShare * bool * bool :=
  match charged_file r with
  | Some k => match s_reserved s !! k with
              | Some b => (Some (k, br_instance b), negb (is_some (br_entry b)), false)
              | None => (None, false, true)
              end
  | None => (None, false, false)
  end.

Lemma charge_request_spec r c owed adm : Inv (ca_state c) owed adm ->
  let s := ca_state c in
  let '(file, fresh, own) := file_share s r in
  let '(changes, bytes) := request_counts r own in
  let counted := changes + (if fresh then 1 else 0) in
  let d := lenZ (deleted_indices r) in
  (exists c' m, charge_request cf r c = (c', Err (Refused m)) /\ Inv (ca_state c') owed adm /\ same_flags c c') \/
  (s_changes s + counted <= cl_max_entries (limits cf) /\ s_changes s + counted <= u64_max /\
   s_deletions s + d <= cl_max_deletions (limits cf) /\ s_deletions s + d <= u64_max /\
   s_transferred_bytes s + bytes <= cl_max_total_bytes (limits cf) /\ s_transferred_bytes s + bytes <= u64_max /\
   charge_request cf r c =
     (set_ca_state (charged_state s (s_changes s + counted) (s_deletions s + d) (s_transferred_bytes s + bytes) (fst <$> file)) c,
      Ok (mkCharged changes (deleted_indices r) file))).
Proof.
  intros Hi. cbn zeta. unfold charge_request. rewrite bind_get_s. fold (file_share (ca_state c) r).
  destruct (file_share (ca_state c) r) as [[file fresh] own] eqn:Ef.
  destruct (request_counts r own) as [changes bytes] eqn:Er. pose proof (request_counts_nonneg r own) as [Hc Hb]. rewrite Er in Hc, Hb. cbn in Hc, Hb.
  set (s := ca_state c) in *. set (counted := changes + _). assert (0 <= counted) by (subst counted; destruct fresh; lia).
  pose proof (lenZ_nonneg (deleted_indices r)) as Hd. set (d := lenZ (deleted_indices r)) in *.
  pose proof (iv_changes_max _ _ _ _ Hi) as [Hm1 Hm2]. pose proof (iv_deletions_max _ _ _ _ Hi) as [Hm3 Hm4].
  pose proof (iv_bytes _ _ _ _ Hi) as [Hm5 Hm6]. pose proof (owed_changes_sum _ _ _ _ Hi) as Hs1. pose proof (entries_nonneg s) as Hs2.
  pose proof (iv_changes _ _ _ _ Hi) as Hs3. pose proof (iv_deletions _ _ _ _ Hi) as Hs4. pose proof (owed_deletions_sum owed) as Hs5.
  destruct (charge_counter (s_changes s) counted _) as [t1|] eqn:E1.
  2:{ left. exists c. eexists. split_and!; [done|done|done]. }
  apply charge_counter_Some in E1 as (-> & Ht1 & Hu1); try lia. rewrite bind_context.
  assert (Hundo1 : fetch_sub (s_changes s + counted) counted = s_changes s) by (rewrite fetch_sub_exact; lia).
  destruct (charge_counter (s_deletions s) d _) as [t2|] eqn:E2.
  2:{ left. eexists. eexists. split_and!; [done| |split_and!; done]. cbn. rewrite Hundo1.
      eapply step_inv; [|eapply res_ok_resv, (iv_res _ _ _ _ Hi)|apply res_step_resv|exact Hi]; done. }
  apply charge_counter_Some in E2 as (-> & Ht2 & Hu2); try lia.
  assert (Hundo2 : fetch_sub (s_deletions s + d) d = s_deletions s) by (rewrite fetch_sub_exact; lia).
  destruct (charge_counter (s_transferred_bytes s) bytes _) as [t3|] eqn:E3.
  2:{ left. eexists. eexists. split_and!; [done| |split_and!; done]. cbn. rewrite Hundo1, Hundo2.
      eapply step_inv; [|eapply res_ok_resv, (iv_res _ _ _ _ Hi)|apply res_step_resv|exact Hi]; done. }
  apply charge_counter_Some in E3 as (-> & Ht3 & Hu3); try lia.
  right. split_and!; try lia. unfold file_share in Ef. destruct (charged_file r) as [k|]; [|by simplify_eq].
  destruct (s_reserved s !! k) as [b|] eqn:Ek; [|by simplify_eq]. simplify_eq. unfold charged_state. cbn.
  unfold mbind, method_bind, mod_s, expect. cbn. by rewrite !Ek.
Qed.

(** The shared reservation counts the file, and the request holds a share. *)
Lemma charged_reservations s r file fresh own n d t : res_ok (cl_max_total_bytes (limits cf)) s ->
  file_share s r = (file, fresh, own) ->
  let s' := charged_state s n d t (fst <$> file) in
  res_ok (cl_max_total_bytes (limits cf)) s' /\ entries s' = entries s + (if fresh then 1 else 0) /\
  s_next_instance s' = s_next_instance s /\
  (forall k i, file = Some (k, i) -> i <= s_next_instance s) /\
  (forall k b', s_reserved s' !! k = Some b' -> exists b, s_reserved s !! k = Some b /\ br_instance b' = br_instance b /\
     holders b' = holders b + (if bool_decide (file = Some (k, br_instance b)) then 1 else 0)).
Proof.
  intros Hro Hf. unfold file_share in Hf. destruct (charged_file r) as [k|].
  2:{ simplify_eq. cbn. split_and!; [by apply (res_ok_resv _ s)|unfold entries; cbn; lia|done|done|].
      intros k b Hk. exists b. split_and!; [done|done|]. rewrite bool_decide_eq_false_2 by done. lia. }
  destruct (s_reserved s !! k) as [b|] eqn:Ek.
  2:{ simplify_eq. cbn. split_and!; [by apply (res_ok_resv _ s)|unfold entries; cbn; lia|done|done|].
      intros k' b Hk. exists b. split_and!; [done|done|]. rewrite bool_decide_eq_false_2 by done. lia. }
  simplify_eq. unfold charged_state. cbn. rewrite Ek. split_and!.
  - eapply (res_ok_resv _ (set_s_reserved (<[k:=with_entry (Some (hold_entry (br_entry b))) b]> (s_reserved s)) s)); [done|].
    by apply res_ok_entry.
  - pose proof (entries_put s k b (Some (hold_entry (br_entry b))) Ek) as He. unfold entries in *. cbn in *. rewrite He.
    unfold counts_entry. destruct (br_entry b); cbn; lia.
  - done.
  - intros k' i [= <- <-]. by eapply (ro_instance _ _ Hro).
  - cbn. intros k' b' [[<- <-]|[Hne Hk']]%lookup_insert_Some.
    + exists b. split_and!; [done|done|]. rewrite bool_decide_eq_true_2 by done. unfold holders. cbn. destruct (br_entry b); cbn; lia.
    + exists b'. split_and!; [done|done|]. rewrite bool_decide_eq_false_2 by congruence. lia.
Qed.

Lemma charged_inv s r owed adm file fresh own changes bytes n d t (tr : bool) p o stp :
  Inv s owed (adm + (if tr then 1 else 0)) -> 0 <= adm -> file_share s r = (file, fresh, own) -> 0 <= changes -> 0 <= bytes ->
  n = s_changes s + (changes + (if fresh then 1 else 0)) -> d = s_deletions s + lenZ (deleted_indices r) ->
  t = s_transferred_bytes s + bytes ->
  n <= cl_max_entries (limits cf) -> n <= u64_max -> d <= cl_max_deletions (limits cf) -> d <= u64_max ->
  t <= cl_max_total_bytes (limits cf) -> t <= u64_max ->
  Inv (charged_state s n d t (fst <$> file)) (mkSettlement p o (mkCharged changes (deleted_indices r) file) tr stp :: owed) adm.
Proof.
  intros Hi Hadm Hf Hc Hb Hn Hd Ht. intros. destruct (charged_reservations s r file fresh own n d t (iv_res _ _ _ _ Hi) Hf) as (Hro & Hent & Hnx & Hfr & Hk).
  set (s' := charged_state s n d t (fst <$> file)) in *.
  assert (Hcore : core s' = (s_live_connections s, s_in_flight s, n, t, d, s_results_closing s, s_results_started s, s_control_open s, finished s)).
  { subst s'. unfold charged_state. repeat case_match; done. }
  unfold core in Hcore. injection Hcore as E1 E2 E3 E4 E5 E6 E7 E8 E9. pose proof (lenZ_nonneg (deleted_indices r)).
  destruct Hi. split; cbn [fmap list_fmap]; rewrite ?sumZ_cons, ?E1, ?E2, ?E3, ?E4, ?E5, ?Hent; try done; try lia.
  - rewrite countb_cons. cbn [st_tracked]. destruct tr; lia.
  - unfold owed_changes at 1. cbn [st_charged ch_changes]. lia.
  - unfold owed_deletions at 1. cbn [st_charged ch_deleting]. lia.
  - constructor; [done|done].
  - intros k b' Hk'. destruct (Hk _ _ Hk') as (b & Hb' & Hin & Hh). rewrite Hh, Hin, (iv_shares _ _ Hb'), countb_cons.
    unfold shares at 2. cbn [st_charged ch_file]. case_bool_decide; lia.
  - rewrite Hnx. constructor; [|done]. cbn. eauto.
Qed.

(** Charging an admitted request makes it one more outstanding, or changes nothing. *)
Lemma charge_inv r c owed adm (tr : bool) : Inv (ca_state c) owed (adm + (if tr then 1 else 0)) -> 0 <= adm ->
  match charge_request cf r c with
  | (c', Ok ch) => same_flags c c' /\ ca_pending c' = ca_pending c /\ ca_outcomes c' = ca_outcomes c /\
                   forall p o stp, Inv (ca_state c') (mkSettlement p o ch tr stp :: owed) adm
  | (c', Err e) => e <> Panicked /\ same_flags c c' /\ Inv (ca_state c') owed (adm + (if tr then 1 else 0))
  end.
Proof.
  intros Hi Hadm. pose proof (charge_request_spec r c _ _ Hi) as Hspec. cbn zeta in Hspec.
  destruct (file_share (ca_state c) r) as [[file fresh] own] eqn:Ef. pose proof (request_counts_nonneg r own) as [Hc Hb].
  destruct (request_counts r own) as [changes bytes]. cbn in Hc, Hb.
  destruct Hspec as [(c' & m & -> & ? & ?)|(? & ? & ? & ? & ? & ? & ->)]; [done|].
  split_and!; [|done|done|].
  - split_and!; [|done|done]. cbn. unfold charged_state. repeat case_match; done.
  - intros p o stp. cbn. eapply charged_inv; eauto.
Qed.

(** ** Refusing *)
Lemma framed_op_changes ops : tame (cl_max_total_bytes (limits cf)) (op_changes cf W ops) /\ never_refuses (op_changes cf W ops).
Proof.
  induction ops as [|op ops [IH1 IH2]]; cbn [op_changes]; [by split; [apply tame_ret|]|]. split.
  - apply tame_bind; [tame_go|intros ch]. apply tame_bind; [done|intros rest]. apply tame_ret.
  - apply nr_bind; [nr_go; apply nr_kind_there|intros ch]. by apply nr_bind.
Qed.

Lemma requested_changes_ok r : tame (cl_max_total_bytes (limits cf)) (requested_changes cf W r) /\ never_refuses (requested_changes cf W r).
Proof. destruct r; cbn [requested_changes]; try (split; [apply tame_ret|done]). apply framed_op_changes. Qed.

(** What a refusal tells the results. *)
Definition note_refusal (r : Request) (e : AuthError) : method Call AuthError unit :=
  s ← get_s;
  let is_kept := match e with Kept _ => true | _ => false end in
  changes ← (if s_results_started s && negb is_kept then requested_changes cf W r else mret []);
  if is_kept then mod_s (fun s => match file_key r with
                                 | Some k => set_s_lifecycles (delete k (s_lifecycles s)) s | None => s end)
  else
    _ ← mod_s (set_s_recorded_any true);
    if s_results_started s then
      _ ← mod_s (emit (EvRefused (error_text e) changes)); mod_s (end_refused_lifecycles r)
    else mret tt.

Lemma note_refusal_ok r e : tame (cl_max_total_bytes (limits cf)) (note_refusal r e) /\ never_refuses (note_refusal r e).
Proof.
  destruct (requested_changes_ok r) as [Ht Hn]. unfold note_refusal. split.
  - apply tame_bind; [apply tame_get_s|intros s]. cbn zeta. apply tame_bind; [destruct (_ && _); [done|apply tame_ret]|intros ch].
    destruct e; tame_go; apply tame_mod_s; intros; (by apply core_emit) || (unfold end_refused_lifecycles; by case_match).
  - apply nr_bind; [done|intros s]. cbn zeta. apply nr_bind; [destruct (_ && _); done|intros ch]. nr_go.
Qed.

Lemma tame_total {A} (m : method Call AuthError A) c owed adm :
  tame (cl_max_total_bytes (limits cf)) m /\ never_refuses m -> Inv (ca_state c) owed adm ->
  exists c' a, m c = (c', Ok a) /\ framed c c' /\ Inv (ca_state c') owed adm.
Proof.
  intros [Ht Hn] Hi. destruct (tame_inv _ m c owed adm Ht Hi) as (Hp & Hf & Hi'). specialize (Hn c).
  destruct (m c) as [c' [a|e]]; cbn in *; [eauto|congruence].
Qed.

(** What remains of a refused request: at most the small copy it took, settled. *)
Definition step_owed (stp : StreamStep) : list Settlement := match stp with StepCopySmallCopy p => [p] | _ => [] end.

Lemma in_flight_down s owed adm : Inv s owed (adm + 1) -> 0 <= adm ->
  Inv (set_s_in_flight (saturating_sub (s_in_flight s) 1) s) owed adm.
Proof.
  intros Hi Hadm. destruct Hi. split; cbn; try done.
  - by apply (res_ok_resv _ s).
  - unfold saturating_sub. lia.
Qed.

Lemma refuse_inv r e c owed adm : Inv (ca_state c) (step_owed (ca_step c) ++ owed) (adm + (if is_tracked r then 1 else 0)) -> 0 <= adm ->
  exists c', refuse cf W r e c = (c', Ok tt) /\ same_flags c c' /\ Inv (ca_state c') owed adm.
Proof.
  intros Hi Hadm. set (t := if is_tracked r then 1 else 0) in *.
  assert (exists c1, (match ca_step c with StepCopySmallCopy p => settle_unexecuted cf W p (bs (error_text e)) | _ => mret tt end) c = (c1, Ok tt)
    /\ same_flags c c1 /\ Inv (ca_state c1) owed (adm + t)) as (c1 & E1 & F1 & I1).
  { destruct (ca_step c); cbn in Hi; try (exists c; done).
    destruct (settle_unexecuted_inv prepared (bs (error_text e)) c owed (adm + t) Hi) as (c1 & ? & ? & ?). eauto. }
  destruct (tame_total (forget_provisional (ca_pending c)) c1 owed (adm + t)) as (c2 & [] & E2 & F2 & I2); [split; [auto with auth|done]|done|].
  destruct (tame_total (release_patch_holds (ca_outcomes c)) c2 owed (adm + t)) as (c3 & [] & E3 & F3 & I3);
    [split; [apply tame_release_patch_holds|apply nr_release_patch_holds]|done|].
  destruct (tame_total (note_refusal r e) c3 owed (adm + t)) as (c4 & [] & E4 & F4 & I4); [apply note_refusal_ok|done|].
  assert (Hsf : same_flags c c4) by eauto 7 using same_flags_trans, framed_flags.
  assert (Er : refuse cf W r e c = (if is_tracked r then mod_s (fun s => set_s_in_flight (saturating_sub (s_in_flight s) 1) s) else mret tt) c4).
  { unfold refuse. unfold mbind at 1, method_bind at 1. cbn [m_get]. unfold mbind at 1, method_bind at 1. rewrite E1.
    unfold mbind at 1, method_bind at 1. rewrite E2. unfold mbind at 1, method_bind at 1. rewrite E3. rewrite bind_get_s.
    unfold note_refusal in E4. rewrite bind_get_s in E4. cbn zeta in E4 |- *. revert E4. unfold mbind, method_bind.
    destruct (_ c3) as [c3' [ch|e']]; [|done]. by intros ->. }
  rewrite Er. destruct (is_tracked r); subst t.
  - eexists. split; [done|]. split; [exact Hsf|]. by apply in_flight_down.
  - exists c4. rewrite Z.add_0_r in I4. done.
Qed.
End Accounts.
