(* ===== verification/AuthSystem.v ===== *)
(** * The authority with its connections

    (src/src/restricted/authority.rs, src/src/server.rs)

    A connection reads one request at a time: it is admitted, authorized,
    executed and settled before the next.  Any number of connections do this at
    once, in any order, while the results are started and ended and control may
    be closed.
    - An event that a connection is not ready for does nothing.
    - [None]: some step panicked. *)

From stdpp Require Import strings.
From S2P Require Import Prelude Text Diagnostic Proto Hashing Mapping MappingGrant Grant Lookups AuthData Authority AuthPolicy AuthSettle AuthRequest AuthFrame AuthTame AuthInner AuthInv AuthAccounts.
Local Open Scope Z_scope.

(** ** Connections *)
Inductive Phase := Idle | PhAdmitted (r : Request) | Executing (r : Request) (st : Settlement).
(** [cn_ssh]: the signed control connection, which takes no share of the
    connection allowance. *)
Record Conn := mkConn { cn_gate : PatchStreamGate; cn_phase : Phase; cn_ssh : bool }.

Inductive Event :=
| EvWorker | EvControl
| EvArrive (i : nat) (r : Request)
| EvAuthorize (i : nat)
| EvSettle (i : nat) (response : Response) (opened : bool)
| EvAbandon (i : nat) (error : list Z)
| EvClose (i : nat)
| EvLooked (relative : PathBytes) (looked : Looked)
| EvStartResults | EvFinishBegin | EvFinishEnd | EvCloseControl.

Section System.
Context `{HashLib} {Gitignore : Type} (is_ignore : Gitignore -> PathBytes -> bool -> bool).
Context (from_json : list Z -> option WireEntry) (base64 : list Z -> option (list Z)).
Context (key : PathBytes -> Z) (cf : Config (Gitignore := Gitignore)) (W : World).

Record Sys := mkSys { sy_state : AuthState; sy_conns : list Conn }.

(** The state [RestrictedAuthority::new] starts with. *)
Definition Authority_new (mapping : option Authorization) : AuthState :=
  mkAuth ∅ ∅ ∅ 0 0 0 0 false ∅ 0 false false false None true 0 0 0
    ((fun a => Admission_new a (cl_max_entries (limits cf))) <$> mapping)
    match creation_policy cf false with
    | Skip => Some (Lookups_with_limit RecKeep MAX_NAMES)
    | MustExist => Some (Lookups_with_limit RecExisting MAX_NAMES)
    | Replace => None
    end 0.

Definition arrive (r : Request) : method Call AuthError unit := _ ← end_small_copy cf W r; admit_request cf W r.

(** A method on the state alone; a refusal is only an answer. *)
Definition on_state {A} (m : method Call AuthError A) (σ : Sys) : option Sys :=
  match m (begin_call (sy_state σ) Gate_new) with
  | (_, Err Panicked) => None
  | (c, _) => Some (mkSys (ca_state c) (sy_conns σ))
  end.

(** A method of a connection, and what becomes of it. *)
Definition on_conn {A} (i : nat) (conn : Conn) (m : method Call AuthError A) (k : result AuthError A -> Phase) (σ : Sys) : option Sys :=
  match m (begin_call (sy_state σ) (cn_gate conn)) with
  | (_, Err Panicked) => None
  | (c, res) => Some (mkSys (ca_state c) (<[i := mkConn (ca_gate c) (k res) (cn_ssh conn)]> (sy_conns σ)))
  end.

Definition sys_step (e : Event) (σ : Sys) : option Sys :=
  match e with
  | EvWorker =>
      match acquire_connection cf W (begin_call (sy_state σ) Gate_new) with
      | (_, Err Panicked) => None
      | (c, Err _) => Some (mkSys (ca_state c) (sy_conns σ))
      | (c, Ok _) => Some (mkSys (ca_state c) (sy_conns σ ++ [mkConn Gate_new Idle false]))
      end
  | EvControl => Some (mkSys (sy_state σ) (sy_conns σ ++ [mkConn Gate_new Idle true]))
  | EvArrive i r =>
      match sy_conns σ !! i with
      | Some (mkConn _ Idle _ as conn) =>
          on_conn i conn (arrive r) (fun res => match res with Ok _ => PhAdmitted r | Err _ => Idle end) σ
      | _ => Some σ
      end
  | EvAuthorize i =>
      match sy_conns σ !! i with
      | Some (mkConn _ (PhAdmitted r) ssh as conn) =>
          on_conn i conn (authorize_admitted is_ignore from_json base64 key cf W ssh r)
            (fun res => match res with Ok (r', st) => if is_tracked r then Executing r' st else Idle | Err _ => Idle end) σ
      | _ => Some σ
      end
  | EvSettle i response opened =>
      match sy_conns σ !! i with
      | Some (mkConn _ (Executing _ st) _ as conn) => on_conn i conn (gate_settle cf W st response opened) (fun _ => Idle) σ
      | _ => Some σ
      end
  | EvAbandon i error =>
      match sy_conns σ !! i with
      | Some (mkConn _ Idle _ as conn) => on_conn i conn (abandon cf W error) (fun _ => Idle) σ
      | _ => Some σ
      end
  | EvClose i =>
      match sy_conns σ !! i with
      | Some (mkConn g Idle ssh) =>
          match gate_drop cf W (begin_call (sy_state σ) g) with
          | (_, Err Panicked) => None
          | (c, _) =>
              let s := ca_state c in
              let s := if ssh then s else ca_state (release_connection (begin_call s Gate_new)).1 in
              Some (mkSys s (delete i (sy_conns σ)))
          end
      | _ => Some σ
      end
  | EvLooked relative looked =>
      Some (mkSys (set_s_lookups (lookups_record key relative looked <$> s_lookups (sy_state σ)) (sy_state σ)) (sy_conns σ))
  | EvStartResults => on_state start_results σ
  | EvFinishBegin => on_state finish_results_begin σ
  | EvFinishEnd =>
      if s_results_closing (sy_state σ) && bool_decide (s_in_flight (sy_state σ) = 0) && negb (finished (sy_state σ))
      then on_state (finish_results_end cf) σ else Some σ
  | EvCloseControl => on_state close_control σ
  end.

Definition sys_run (events : list Event) (σ : Sys) : option Sys := foldl (fun o e => σ ← o; sys_step e σ) (Some σ) events.

(** ** What is outstanding *)
Definition gate_owed (g : PatchStreamGate) : list Settlement :=
  match g_open g with Some o => [op_settlement o] | None => [] end ++
  match g_small_copy g with Some p => [ps_settlement p] | None => [] end.

Definition phase_owed (p : Phase) : list Settlement := match p with Executing _ st => st :: step_owed (st_stream st) | _ => [] end.
Definition phase_admitted (p : Phase) : Z := match p with PhAdmitted r => if is_tracked r then 1 else 0 | _ => 0 end.

Definition conn_owed (c : Conn) : list Settlement := gate_owed (cn_gate c) ++ phase_owed (cn_phase c).

Definition owed (σ : Sys) : list Settlement := mjoin (conn_owed <$> sy_conns σ).
Definition admitted (σ : Sys) : Z := sumZ ((fun c => phase_admitted (cn_phase c)) <$> sy_conns σ).
Definition workers (σ : Sys) : Z := Z.of_nat (countb (fun c => negb (cn_ssh c)) (sy_conns σ)).

(** The stream state an executed request finds when it is settled. *)
Definition gate_ready (stp : StreamStep) (g : PatchStreamGate) : Prop :=
  match stp with
  | StepBegin _ _ => g_open g = None
  | StepPrepareSmallCopy _ => g_small_copy g = None
  | _ => True
  end.

Definition conn_ok (c : Conn) : Prop :=
  match cn_phase c with
  | Idle => True
  | PhAdmitted r => request_u64 r /\ (keeps_small_copy r = false -> g_small_copy (cn_gate c) = None)
  | Executing r st => st_tracked st = true /\ gate_ready (st_stream st) (cn_gate c)
  end.

Record SysInv (σ : Sys) : Prop := {
  si_inv : Inv (limits cf) (sy_state σ) (owed σ) (admitted σ);
  si_conns : Forall conn_ok (sy_conns σ);
  si_workers : s_live_connections (sy_state σ) = workers σ;
  si_finished : finished (sy_state σ) = true -> s_results_closing (sy_state σ) = true /\ s_in_flight (sy_state σ) = 0
}.
End System.
