(* ===== verification/AuthSample.v ===== *)
(** * A sample grant

    A copy into [/d/t], its files and one connection that writes them: the inputs
    on which the receiver's theorems are exercised. *)

From stdpp Require Import strings.
From S2P Require Import Prelude Text Diagnostic Proto Hashing Mapping Grant Lookups AuthData Authority AuthPolicy AuthSettle AuthRequest AuthSystem.
Local Open Scope Z_scope.

#[local] Existing Instance sum_lib.

Definition sample_destination : PathBytes := bs "/d/t".
Definition sample_file : PathBytes := bs "/d/t/f".

Definition sample_options (dry_run : bool) : CopyOptions :=
  mkOptions true true true false true false false false false dry_run false 0 0.
Definition sample_limits : CopyLimits := mkLimits 10 1000 500 131072 2 3.
Definition sample_copy (placement : DestinationPlacement) (existing : ExistingDestinationPolicy) (dry_run : bool) : CopyOperation :=
  mkCopy sample_destination [mkScope sample_destination true] (mkPolicy placement existing DeleteDestinationOnly AtomicStaged)
    (sample_options dry_run) sample_limits.
Definition sample_config (placement : DestinationPlacement) (existing : ExistingDestinationPolicy) (dry_run : bool)
    (widen : DirectoryWidening) : Config (Gitignore := unit) :=
  mkConfig (bs "/d") (sample_copy placement existing dry_run) (mkFilter [] [] false) None RootAny None 100 None None
    (mkExtra true false false false false false false widen false false).

Definition no_ignore (_ : unit) (_ : PathBytes) (_ : bool) : bool := false.
Definition no_entry (_ : list Z) : option WireEntry := None.
Definition no_text (_ : list Z) : option (list Z) := None.
Definition sum_key (path : PathBytes) : Z := foldl (fun h b => (h * 257 + b) mod 2 ^ 32) 0 path.

(** Everything looked up is a directory. *)
Definition sample_dir : RootMetadata := mkRootMetadata 7 42 16877 5 0.
Definition sample_world : World := mkWorld (fun _ _ => Some (Some sample_dir)) (fun _ => 1) (fun _ _ => true).

Definition sample_meta : Meta := mkMeta 420 0 0 0 0 None.
Definition sample_put : SmallPut := mkSmallPut sample_file 1 [104; 105] sample_meta MODE false Any ScUnknown.
Definition sample_patch : SmallPatch := mkSmallPatch sample_file 2 4 131072 [false] [] sample_meta MODE MODE Any false.

Definition sample_copying : Config := sample_config DirectoryContents Replace false WidenNone.

(** A worker publishes a file, streams a patch of it and deletes another file
    that turns out not to be there, while the results are listed. *)
Definition sample_events : list Event :=
  [EvControl; EvWorker; EvStartResults;
   EvArrive 1 (RqPutSmallBatch [sample_put]); EvAuthorize 1; EvSettle 1 (RsPublishedBatch [Ok tt]) false;
   EvArrive 1 (RqPatchBegin sample_patch 4); EvAuthorize 1; EvSettle 1 RsOther true;
   EvArrive 1 (RqPatchData [1; 2; 3; 4]); EvAuthorize 1; EvSettle 1 RsOther false;
   EvArrive 0 (RqApply [OpUnlink (bs "/d/t/g")]); EvAuthorize 0].

Definition sample_start : Sys := mkSys (Authority_new sample_copying None) [].
Abbreviation sample_run events :=
  (sys_run no_ignore no_entry no_text sum_key sample_copying sample_world events (mkSys (Authority_new sample_copying None) [])).

(** The request is still executing, and the patch open. *)
Definition sample_midway : Sys := default sample_start (sample_run sample_events).

Definition sample_ending : list Event :=
  sample_events ++ [EvSettle 0 (RsApplied [Some (mkWireError (bs "no such file") (Some WkNotFound) (Some 2) true true)]) false;
                    EvArrive 1 RqPatchEnd; EvAuthorize 1; EvSettle 1 (RsPatchedBatch [Ok false]) false; EvFinishBegin; EvFinishEnd].
Definition sample_ended : Sys := default sample_midway (sample_run sample_ending).

(** What the receiver counted, and what it reported. *)
Example sample_midway_counts : let s := sy_state sample_midway in
  (s_changes s, s_deletions s, s_transferred_bytes s, s_reserved_bytes s, s_in_flight s) = (3, 1, 6, 4, 2).
Proof. vm_compute. reflexivity. Qed.
