(* ===== verification/AuthStream.v ===== *)
(** * Streams and connections keep the accounts

    Each operation of a connection as a step of the invariant, with the
    settlements its stream state holds. *)

From stdpp Require Import strings.
From S2P Require Import Prelude Text Diagnostic Proto Hashing Mapping MappingGrant Grant Lookups AuthData Authority AuthPolicy AuthSettle AuthRequest AuthFrame AuthTame AuthInner AuthInv AuthAccounts AuthSystem.
Local Open Scope Z_scope.

(** What a method returns when it succeeds. *)
Definition returns {S A} (P : A -> Prop) (m : method S AuthError A) : Prop := forall c c' a, m c = (c', Ok a) -> P a.

Section Returns.
Context {S : Type}.
Lemma returns_ret {A} (P : A -> Prop) a : P a -> returns (S := S) P (mret a).
Proof. by intros Ha c c' a' [= _ <-]. Qed.
Lemma returns_bind {A B} (P : B -> Prop) (m : method S AuthError A) (k : A -> method S AuthError B) :
  (forall a, returns P (k a)) -> returns P (m ≫= k).
Proof. intros Hk c c' b (a & c1 & _ & E)%method_bind_Ok. by eapply Hk. Qed.
Lemma returns_fail {A} (P : A -> Prop) e : returns (S := S) P (m_fail e).
Proof. by intros c c' a. Qed.
End Returns.

Ltac returns_go :=
  repeat match goal with
  | |- returns _ (mbind _ _) => apply returns_bind; intros ?
  | |- returns _ (mret _) => apply returns_ret; done
  | |- returns _ (bail _) => apply returns_fail
  | |- returns _ (m_fail _) => apply returns_fail
  | |- returns _ (let '(_, _) := ?x in _) => destruct x
  | |- returns _ (match ?x with _ => _ end) => destruct x
  end.

Section Stream.
Context `{HashLib} {Gitignore : Type} (is_ignore : Gitignore -> PathBytes -> bool -> bool).
Context (from_json : list Z -> option WireEntry) (base64 : list Z -> option (list Z)).
Context (key : PathBytes -> Z) (cf : Config (Gitignore := Gitignore)) (W : World).
Abbreviation Inv := (Inv (limits cf)).

(** A rewritten request keeps its kind. *)
Definition same_kind (r r' : Request) : Prop := is_tracked r' = is_tracked r /\ keeps_small_copy r' = keeps_small_copy r.

Lemma authorize_inner_kind over_ssh r : returns (same_kind r) (authorize_inner is_ignore from_json base64 key cf W over_ssh r).
Proof.
  unfold authorize_inner. apply returns_bind. intros _. destruct r; unfold authorize_finish_basis, authorize_finalize; returns_go.
Qed.

(** Where the stream moves does not change what is owed. *)
Lemma Inv_view s st st' owed adm : st_charged st' = st_charged st -> st_tracked st' = st_tracked st ->
  Inv s (st :: owed) adm -> Inv s (st' :: owed) adm.
Proof.
  intros Ec Et []. apply Forall_cons in iv_nonneg as [? ?]. apply Forall_cons in iv_fresh as [? ?].
  cbn [fmap list_fmap] in *. rewrite sumZ_cons in *.
  split; cbn [fmap list_fmap]; rewrite ?sumZ_cons; unfold owed_changes, owed_deletions in *; rewrite ?Ec; try done.
  - rewrite countb_cons, Et. by rewrite countb_cons in iv_in_flight.
  - constructor; [by rewrite Ec|done].
  - intros k b Hk. rewrite (iv_shares k b Hk), !countb_cons. unfold shares at 1 3. by rewrite Ec.
  - constructor; [by rewrite Ec|done].
Qed.

Lemma Inv_stream s st t owed adm : Inv s (with_stream t st :: owed) adm <-> Inv s (st :: owed) adm.
Proof. split; apply Inv_view; by destruct st. Qed.

Lemma count_le_head f (st : Settlement) owed : (countb f owed <= countb f (st :: owed))%nat.
Proof. rewrite countb_cons. lia. Qed.

(** An operation that leaves [owed'] of [owed]. *)
Lemma settle_step st rs c owed adm : Inv (ca_state c) (st :: owed) adm ->
  exists c', settle cf W st rs c = (c', Ok tt) /\ Inv (ca_state c') owed adm /\ same_flags c c' /\
             s_in_flight (ca_state c') <= s_in_flight (ca_state c).
Proof.
  intros Hi. destruct (settle_inv cf W st rs c owed adm Hi) as (c' & ? & Hi' & ?). exists c'. split_and!; [done..|].
  rewrite (iv_in_flight _ _ _ _ Hi), (iv_in_flight _ _ _ _ Hi'). pose proof (count_le_head st_tracked st owed). lia.
Qed.

Lemma settle_unexecuted_step st reason c owed adm : Inv (ca_state c) (st :: owed) adm ->
  exists c', settle_unexecuted cf W st reason c = (c', Ok tt) /\ Inv (ca_state c') owed adm /\ same_flags c c' /\
             s_in_flight (ca_state c') <= s_in_flight (ca_state c).
Proof.
  intros Hi. destruct (settle_unexecuted_inv cf W st reason c owed adm Hi) as (c' & ? & Hi' & ?). exists c'. split_and!; [done..|].
  rewrite (iv_in_flight _ _ _ _ Hi), (iv_in_flight _ _ _ _ Hi'). pose proof (count_le_head st_tracked st owed). lia.
Qed.

(** The end of every operation of a connection. *)
Definition settled (c : Call) (owed : list Settlement) (adm : Z) (m : method Call AuthError unit) : Prop :=
  exists c', m c = (c', Ok tt) /\ Inv (ca_state c') (gate_owed (ca_gate c') ++ owed) adm /\
    flags (ca_state c') = flags (ca_state c) /\ s_in_flight (ca_state c') <= s_in_flight (ca_state c).

Lemma abandon_inv error c owed adm : Inv (ca_state c) (gate_owed (ca_gate c) ++ owed) adm ->
  settled c owed adm (abandon cf W error) /\ g_small_copy (ca_gate (abandon cf W error c).1) = g_small_copy (ca_gate c) /\
  g_open (ca_gate (abandon cf W error c).1) = None.
Proof.
  intros Hi. unfold settled, abandon, get_g. unfold mbind, method_bind. cbn -[settle]. destruct (g_open (ca_gate c)) as [o|] eqn:Eo; cbn -[settle].
  - unfold gate_owed in Hi. rewrite Eo in Hi. cbn in Hi.
    destruct (settle_step (op_settlement o) (RsPatchedBatch [Err (mkPatchError (WireError_from error) false false false)])
      (set_ca_gate (mkGate None (g_small_copy (ca_gate c))) c) _ _ Hi) as (c' & E & Hi' & (Hf & Hg & _) & Hle).
    rewrite E. cbn in *. rewrite Hg. cbn. split_and!; [|done|done]. exists c'. by rewrite Hg.
  - split_and!; [|done|done]. by exists c.
Qed.

Lemma drop_small_copy_inv reason c owed adm : Inv (ca_state c) (gate_owed (ca_gate c) ++ owed) adm ->
  forall p, g_small_copy (ca_gate c) = Some p ->
  exists c', settle_unexecuted cf W (ps_settlement p) reason (set_ca_gate (mkGate (g_open (ca_gate c)) None) c) = (c', Ok tt) /\
    ca_gate c' = mkGate (g_open (ca_gate c)) None /\ Inv (ca_state c') (gate_owed (ca_gate c') ++ owed) adm /\
    flags (ca_state c') = flags (ca_state c) /\ ca_step c' = ca_step c /\ s_in_flight (ca_state c') <= s_in_flight (ca_state c).
Proof.
  intros Hi p Ep. unfold gate_owed in Hi. rewrite Ep in Hi.
  rewrite <- app_assoc, (Permutation_app_swap_app _ [ps_settlement p]) in Hi. cbn [app] in Hi.
  destruct (settle_unexecuted_step (ps_settlement p) reason (set_ca_gate (mkGate (g_open (ca_gate c)) None) c) _ _ Hi)
    as (c' & E & Hi' & (Hf & Hg & Hs) & Hle). exists c'. split_and!; try done. rewrite Hg. unfold gate_owed. cbn. by rewrite app_nil_r.
Qed.

Lemma end_small_copy_inv r c owed adm : Inv (ca_state c) (gate_owed (ca_gate c) ++ owed) adm ->
  exists c', end_small_copy cf W r c = (c', Ok tt) /\ Inv (ca_state c') (gate_owed (ca_gate c') ++ owed) adm /\
    flags (ca_state c') = flags (ca_state c) /\ ca_step c' = ca_step c /\ s_in_flight (ca_state c') <= s_in_flight (ca_state c) /\
    (keeps_small_copy r = false -> g_small_copy (ca_gate c') = None).
Proof.
  intros Hi. unfold end_small_copy, get_g. unfold mbind, method_bind. cbn -[settle_unexecuted].
  destruct (g_small_copy (ca_gate c)) as [p|] eqn:Ep; [|exists c; done].
  destruct (keeps_small_copy r); [exists c; done|]. cbn -[settle_unexecuted].
  destruct (drop_small_copy_inv small_copy_ended c owed adm Hi p Ep) as (c' & E & Hg & Hi' & ? & ? & ?).
  exists c'. split_and!; [exact E|exact Hi'|done|done|done|by rewrite Hg].
Qed.

Lemma gate_drop_inv c owed adm : Inv (ca_state c) (gate_owed (ca_gate c) ++ owed) adm ->
  exists c', gate_drop cf W c = (c', Ok tt) /\ Inv (ca_state c') owed adm /\
    flags (ca_state c') = flags (ca_state c) /\ s_in_flight (ca_state c') <= s_in_flight (ca_state c).
Proof.
  intros Hi. unfold gate_drop. unfold mbind at 1, method_bind at 1.
  destruct (abandon_inv (bs "the connection closed before its streamed patch ended") c owed adm Hi) as ((c1 & E1 & I1 & F1 & L1) & Hs & Ho).
  rewrite E1 in Hs, Ho |- *. cbn [fst] in Hs, Ho. unfold get_g. unfold mbind, method_bind. cbn -[settle_unexecuted].
  destruct (g_small_copy (ca_gate c1)) as [p|] eqn:Ep; cbn -[settle_unexecuted].
  - destruct (drop_small_copy_inv (bs "the connection closed before the small copy's payloads") c1 owed adm I1 p Ep)
      as (c2 & E2 & Hg & I2 & F2 & _ & L2). exists c2. split_and!; [done| |congruence|lia].
    rewrite Hg, Ho in I2. done.
  - exists c1. split_and!; [done| |done|done]. unfold gate_owed in I1. by rewrite Ep, Ho in I1.
Qed.

(** Settling an executed request. *)
Lemma gate_settle_inv st rs opened c owed adm :
  Inv (ca_state c) (st :: step_owed (st_stream st) ++ gate_owed (ca_gate c) ++ owed) adm -> gate_ready (st_stream st) (ca_gate c) ->
  settled c owed adm (gate_settle cf W st rs opened).
Proof.
  intros Hi Hg. apply (Inv_stream _ _ StepNone) in Hi. unfold settled, gate_settle. cbn zeta.
  set (held := with_stream StepNone st) in *.
  assert (Hplain : step_owed (st_stream st) = [] -> settled c owed adm (settle cf W held rs)).
  { intros E. rewrite E in Hi. destruct (settle_step held rs c _ _ Hi) as (c' & ? & Hi' & (? & Hgc & _) & ?).
    exists c'. rewrite Hgc. done. }
  destruct (st_stream st) as [|path declared| |sizes|prepared]; cbn in Hi, Hg.
  - by apply Hplain.
  - destruct opened; [|by apply Hplain]. eexists. split; [done|]. cbn. split_and!; [|done|done].
    unfold gate_owed in Hi |- *. rewrite Hg in Hi. done.
  - destruct (settle_step held rs c _ _ Hi) as (c1 & E1 & I1 & (F1 & G1 & _) & L1). unfold mbind, method_bind. rewrite E1.
    cbn -[settle]. rewrite G1. unfold gate_owed in I1. destruct (g_open (ca_gate c)) as [o|] eqn:Eo; cbn -[settle].
    + destruct (settle_step (op_settlement o) rs (set_ca_gate (mkGate None (g_small_copy (ca_gate c))) c1) _ _ I1) as (c2 & E2 & I2 & (F2 & G2 & _) & L2).
      cbn in *. rewrite G1. exists c2. rewrite G2. unfold gate_owed. cbn. split_and!; [done|done|congruence|lia].
    + exists c1. rewrite G1. unfold gate_owed. rewrite Eo. done.
  - destruct rs; try by apply Hplain. case_decide; [|by apply Hplain]. eexists. split; [done|]. cbn. split_and!; [|done|done].
    unfold gate_owed in Hi |- *. rewrite Hg in Hi. cbn. rewrite app_nil_r in Hi.
    rewrite <- app_assoc. cbn. by rewrite <- Permutation_middle.
  - destruct (settle_step held rs c _ _ Hi) as (c1 & E1 & I1 & (F1 & G1 & _) & L1). unfold mbind, method_bind. rewrite E1.
    destruct (settle_step prepared rs c1 _ _ I1) as (c2 & E2 & I2 & (F2 & G2 & _) & L2).
    exists c2. rewrite E2, G2, G1. split_and!; [done|done|congruence|lia].
Qed.

(** ** Authorizing *)
Lemma authorize_stream_inv r c owed adm : ca_step c = StepNone -> Inv (ca_state c) (gate_owed (ca_gate c) ++ owed) adm ->
  (keeps_small_copy r = false -> g_small_copy (ca_gate c) = None) ->
  let '(c', res) := authorize_stream is_ignore cf W r c in
  res <> Err Panicked /\ flags (ca_state c') = flags (ca_state c) /\ s_in_flight (ca_state c') = s_in_flight (ca_state c) /\
  Inv (ca_state c') (step_owed (ca_step c') ++ gate_owed (ca_gate c') ++ owed) adm /\
  (res = Ok tt -> gate_ready (ca_step c') (ca_gate c')).
Proof.
  intros Hstep Hi Hk. destruct c as [s g pending outcomes stp]. cbn in *. subst stp.
  assert (Hnone : forall c, c = mkCall s g pending outcomes StepNone ->
    Inv (ca_state c) (step_owed (ca_step c) ++ gate_owed (ca_gate c) ++ owed) adm) by (by intros ? ->).
  destruct r; try (split_and!; done); unfold authorize_stream, get_g, mbind, method_bind.
  - (* CopySmallFiles *)
    cbn. destruct (g_small_copy g) as [p|] eqn:Ep; cbn.
    + assert (Hi' : Inv s (ps_settlement p :: gate_owed (mkGate (g_open g) None) ++ owed) adm).
      { unfold gate_owed in Hi |- *. rewrite Ep in Hi. cbn. rewrite app_nil_r. revert Hi.
        by rewrite <- app_assoc, (Permutation_app_swap_app _ [ps_settlement p]). }
      destruct (payloads_mismatched (ps_needed p) (ps_sizes p) [] payloads); cbn; split_and!; done.
    + unfold gate_owed in Hi |- *. rewrite Ep in Hi. cbn. split_and!; done.
  - (* PrepareSmallFiles *) cbn. split_and!; try done. intros _. by apply Hk.
  - (* PatchBegin *) cbn. destruct (g_open g) eqn:Eo; cbn; split_and!; done.
  - (* PatchData *)
    cbn -[check_file_bytes option_bind].
    destruct (g_open g) as [o|] eqn:Eo; cbn -[check_file_bytes option_bind]; [|split_and!; done].
    destruct (option_bind _ _ _ _) as [received|]; cbn -[check_file_bytes]; [|split_and!; done].
    destruct (tame_inv (limits cf) (check_file_bytes is_ignore cf W (op_file o) (op_received o) (lenZ data))
      (mkCall s g pending outcomes StepNone) _ adm (tame_check_file_bytes _ _ _ _ _ _ _) Hi) as (Hp & (Hc & Hg & Hs) & Hi').
    assert (Hfl : forall s', core s' = core s -> flags s' = flags s /\ s_in_flight s' = s_in_flight s)
      by (unfold core, flags; intros s' [= -> -> _ _ _ -> -> -> ->]; done).
    apply Hfl in Hc as [? ?]. clear Hfl.
    destruct (check_file_bytes is_ignore cf W (op_file o) (op_received o) (lenZ data) (mkCall s g pending outcomes StepNone)) as [c1 [[]|e]];
      cbn in *; unfold gate_owed in *; rewrite ?Hg, ?Hs, ?Eo in *; cbn in *.
    + split_and!; done.
    + split_and!; done.
  - (* PatchEnd *) cbn. destruct (g_open g) eqn:Eo; cbn; split_and!; done.
Qed.

Lemma admit_inv r c owed adm : Inv (ca_state c) owed adm -> 0 <= adm ->
  let '(c', res) := admit_request cf W r c in
  res <> Err Panicked /\ same_flags c c' /\
  match res with
  | Ok _ => Inv (ca_state c') owed (adm + (if is_tracked r then 1 else 0)) /\
            (s_results_closing (ca_state c) = true -> is_tracked r = false) /\
            s_in_flight (ca_state c') = s_in_flight (ca_state c) + (if is_tracked r then 1 else 0)
  | Err _ => Inv (ca_state c') owed adm /\ s_in_flight (ca_state c') = s_in_flight (ca_state c)
  end.
Proof.
  intros Hi Hadm. unfold admit_request. unfold mbind, method_bind.
  destruct (tame_inv (limits cf) (check_control cf W) c owed adm (tame_check_control _ _ _) Hi) as (Hp & Hf & Hi1).
  pose proof (framed_flags _ _ Hf) as Hsf. destruct Hf as (Hcore & _).
  assert (Hfl : s_in_flight (ca_state (check_control cf W c).1) = s_in_flight (ca_state c)) by (unfold core in Hcore; injection Hcore; done).
  assert (Hcl : s_results_closing (ca_state (check_control cf W c).1) = s_results_closing (ca_state c)) by (unfold core in Hcore; injection Hcore; done).
  destruct (check_control cf W c) as [c1 [[]|e]]; cbn in *; [|split_and!; [congruence|done|done|done]].
  destruct (is_tracked r); cbn; [|rewrite Z.add_0_r; split_and!; done || lia].
  destruct (s_results_closing (ca_state c1)) eqn:Ec; cbn; [split_and!; done|]. split_and!; try done; [|congruence|lia].
  destruct Hi1. split; cbn; try done; [by apply (res_ok_resv _ (ca_state c1))|lia|lia].
Qed.

(** What an authorization ends with. *)
Definition authorized (r : Request) (c : Call) (owed : list Settlement) (adm : Z) (out : Call * result AuthError (Request * Settlement)) : Prop :=
  let '(c', res) := out in
  res <> Err Panicked /\ flags (ca_state c') = flags (ca_state c) /\ s_in_flight (ca_state c') <= s_in_flight (ca_state c) /\
  match res with
  | Ok (r', st) => st_tracked st = is_tracked r /\ gate_ready (st_stream st) (ca_gate c') /\
                   Inv (ca_state c') (st :: step_owed (st_stream st) ++ gate_owed (ca_gate c') ++ owed) adm
  | Err _ => Inv (ca_state c') (gate_owed (ca_gate c') ++ owed) adm
  end.

(** A request refused after [c1]. *)
Lemma refused_authorized r e c c1 owed adm : e <> Panicked -> flags (ca_state c1) = flags (ca_state c) ->
  s_in_flight (ca_state c1) = s_in_flight (ca_state c) -> 0 <= adm ->
  Inv (ca_state c1) (step_owed (ca_step c1) ++ gate_owed (ca_gate c1) ++ owed) (adm + (if is_tracked r then 1 else 0)) ->
  authorized r c owed adm (match refuse cf W r e c1 with (c, Ok _) => (c, Err e) | (c, Err e') => (c, Err e') end).
Proof.
  intros He Hf1 Hn1 Hadm Hi1. destruct (refuse_inv cf W r e c1 _ _ Hi1 Hadm) as (c2 & E2 & (F2 & G2 & _) & I2).
  rewrite E2. cbn. rewrite G2. split_and!; [congruence|congruence| |done].
  rewrite <- Hn1, (iv_in_flight _ _ _ _ Hi1), (iv_in_flight _ _ _ _ I2), !countb_app. destruct (is_tracked r); lia.
Qed.

Lemma authorize_admitted_inv over_ssh r c owed adm :
  ca_step c = StepNone -> request_u64 r -> (keeps_small_copy r = false -> g_small_copy (ca_gate c) = None) -> 0 <= adm ->
  Inv (ca_state c) (gate_owed (ca_gate c) ++ owed) (adm + (if is_tracked r then 1 else 0)) ->
  authorized r c owed adm (authorize_admitted is_ignore from_json base64 key cf W over_ssh r c).
Proof.
  intros Hstep Hu Hk Hadm Hi. unfold authorize_admitted, authorize_checked. unfold mbind at 1, method_bind at 1.
  destruct (tame_inv (limits cf) _ c _ _ (tame_authorize_inner is_ignore from_json base64 key cf W over_ssh r Hu) Hi) as (P1 & F1 & I1).
  pose proof (framed_flags _ _ F1) as (Fl1 & G1 & S1).
  destruct (authorize_inner is_ignore from_json base64 key cf W over_ssh r c) as [c1 [r'|e]] eqn:E1; cbn [fst snd] in *.
  all: assert (N1 : s_in_flight (ca_state c1) = s_in_flight (ca_state c)) by
    (rewrite (iv_in_flight _ _ _ _ I1), (iv_in_flight _ _ _ _ Hi); done).
  2:{ pose proof (refused_authorized r e c c1 owed adm) as Hend. rewrite S1, Hstep, G1 in Hend.
      destruct e; [| |done]; by apply Hend. }
  apply authorize_inner_kind in E1 as [Htr Hks].
  unfold mbind at 1, method_bind at 1.
  pose proof (authorize_stream_inv r' c1 owed (adm + (if is_tracked r then 1 else 0))) as Hs.
  rewrite S1, G1, Hks in Hs. specialize (Hs Hstep I1 Hk).
  destruct (authorize_stream is_ignore cf W r' c1) as [c2 [[]|e]]; destruct Hs as (P2 & Fl2 & N2 & I2 & R2).
  2:{ pose proof (refused_authorized r e c c2 owed adm) as Hend. destruct e; [| |done]; apply Hend; done || congruence. }
  unfold mbind, method_bind.
  pose proof (charge_inv cf r' c2 _ adm (is_tracked r) I2 Hadm) as Hch.
  destruct (charge_request cf r' c2) as [c3 [ch|e]]; cbn.
  - destruct Hch as ((Fl3 & G3 & S3) & _ & _ & I3). rewrite S3, G3. split_and!; [done|congruence| |done|by apply R2|apply I3].
    rewrite <- N1, <- N2, (iv_in_flight _ _ _ _ I2), (iv_in_flight _ _ _ _ (I3 [] [] StepNone)), countb_cons. cbn [st_tracked].
    destruct (is_tracked r); lia.
  - destruct Hch as (He & (Fl3 & G3 & S3) & I3). pose proof (refused_authorized r e c c3 owed adm He) as Hend. rewrite S3, G3 in Hend.
    assert (s_in_flight (ca_state c3) = s_in_flight (ca_state c)) by
      (rewrite (iv_in_flight _ _ _ _ I3), <- N1, <- N2, (iv_in_flight _ _ _ _ I2); done).
    destruct e; [| |done]; apply Hend; done || congruence.
Qed.
End Stream.
