(* ===== verification/AuthSysInv.v ===== *)
(** * Any interleaving keeps the accounts

    The invariant of the whole receiver under every sequence of events, and what
    it gives: no step panics, the counters stay within the signed limits, in
    flight is exactly what is outstanding, and the results end only when
    nothing is. *)

From stdpp Require Import strings.
From S2P Require Import Prelude Text Diagnostic Proto Hashing Mapping MappingGrant Grant Lookups AuthData Authority AuthPolicy AuthSettle AuthRequest AuthFrame AuthTame AuthInner AuthInv AuthAccounts AuthSystem AuthStream.
Local Open Scope Z_scope.

(** The requests of a sequence of events carry [u64] sizes. *)
Definition event_u64 (e : Event) : Prop := match e with EvArrive _ r => request_u64 r | _ => True end.

Section SysInv.
Context `{HashLib} {Gitignore : Type} (is_ignore : Gitignore -> PathBytes -> bool -> bool).
Context (from_json : list Z -> option WireEntry) (base64 : list Z -> option (list Z)).
Context (key : PathBytes -> Z) (cf : Config (Gitignore := Gitignore)) (W : World).
Abbreviation Inv := (Inv (limits cf)).
Abbreviation SysInv := (SysInv cf).
Abbreviation step := (sys_step is_ignore from_json base64 key cf W).

(** One connection among the others. *)
Definition others_owed (l1 l2 : list Conn) : list Settlement := mjoin (conn_owed <$> l1) ++ mjoin (conn_owed <$> l2).
Definition conns_admitted (l : list Conn) : Z := sumZ ((fun c => phase_admitted (cn_phase c)) <$> l).

Lemma owed_middle s l1 c l2 : owed (mkSys s (l1 ++ c :: l2)) ≡ₚ conn_owed c ++ others_owed l1 l2.
Proof.
  unfold owed, others_owed. cbn. rewrite fmap_app, join_app. cbn. by rewrite Permutation_app_swap_app.
Qed.

Lemma owed_rest s l1 l2 : owed (mkSys s (l1 ++ l2)) = others_owed l1 l2.
Proof. unfold owed, others_owed. cbn. by rewrite fmap_app, join_app. Qed.

Lemma admitted_middle s l1 c l2 :
  admitted (mkSys s (l1 ++ c :: l2)) = phase_admitted (cn_phase c) + (conns_admitted l1 + conns_admitted l2).
Proof. unfold admitted, conns_admitted. cbn. rewrite fmap_app, sumZ_app. cbn [fmap list_fmap]. rewrite sumZ_cons. lia. Qed.

Lemma admitted_rest s l1 l2 : admitted (mkSys s (l1 ++ l2)) = conns_admitted l1 + conns_admitted l2.
Proof. unfold admitted, conns_admitted. cbn. by rewrite fmap_app, sumZ_app. Qed.

Lemma conns_admitted_nonneg l : 0 <= conns_admitted l.
Proof.
  apply sumZ_nonneg. intros x (c & -> & _)%list_elem_of_fmap. destruct (cn_phase c); cbn; try lia. destruct (is_tracked r); lia.
Qed.

Lemma workers_middle s l1 c l2 : workers (mkSys s (l1 ++ c :: l2)) = (if cn_ssh c then 0 else 1) + workers (mkSys s (l1 ++ l2)).
Proof. unfold workers. cbn [sy_conns]. rewrite !countb_app, countb_cons. destruct (cn_ssh c); cbn -[countb]; lia. Qed.

(** The accounts as one connection sees them. *)
Lemma SysInv_open s l1 c l2 : SysInv (mkSys s (l1 ++ c :: l2)) ->
  Inv s (gate_owed (cn_gate c) ++ phase_owed (cn_phase c) ++ others_owed l1 l2)
    (conns_admitted l1 + conns_admitted l2 + phase_admitted (cn_phase c)) /\ conn_ok c /\ 0 <= conns_admitted l1 + conns_admitted l2.
Proof.
  intros [Hi Hc _ _]. split_and!.
  - cbn [sy_state] in Hi. rewrite owed_middle, admitted_middle in Hi. unfold conn_owed in Hi. rewrite <- app_assoc in Hi.
    by rewrite Z.add_comm in Hi.
  - cbn in Hc. apply Forall_app in Hc as [_ Hc]. by apply Forall_cons in Hc as [? _].
  - pose proof (conns_admitted_nonneg l1). pose proof (conns_admitted_nonneg l2). lia.
Qed.

(** A connection's step closes the accounts again. *)
Lemma SysInv_close s s' l1 c c' l2 : SysInv (mkSys s (l1 ++ c :: l2)) ->
  Inv s' (gate_owed (cn_gate c') ++ phase_owed (cn_phase c') ++ others_owed l1 l2)
    (conns_admitted l1 + conns_admitted l2 + phase_admitted (cn_phase c')) ->
  conn_ok c' -> cn_ssh c' = cn_ssh c -> flags s' = flags s ->
  (s_results_closing s = true -> s_in_flight s' <= s_in_flight s) ->
  SysInv (mkSys s' (l1 ++ c' :: l2)).
Proof.
  intros [Hi Hc Hw Hf] Hi' Hc' Hssh Hfl Hle. unfold flags in Hfl. injection Hfl as E1 E2 E3 E4 Hlive. cbn [sy_state sy_conns] in *. split; cbn [sy_state sy_conns].
  - rewrite owed_middle, admitted_middle. unfold conn_owed. rewrite <- app_assoc. by rewrite Z.add_comm.
  - apply Forall_app in Hc as [? Hc]. apply Forall_cons in Hc as [_ ?]. apply Forall_app. split; [done|]. by constructor.
  - rewrite workers_middle, Hssh, Hlive, Hw, workers_middle. done.
  - rewrite E1, E4. intros Hfin. destruct (Hf Hfin) as [Hcl Hz]. split; [done|]. specialize (Hle Hcl).
    pose proof (iv_in_flight _ _ _ _ Hi') as Hin. pose proof (iv_adm _ _ _ _ Hi'). lia.
Qed.

(** An operation that is tame in the state alone. *)
Lemma SysInv_state σ s' : SysInv σ -> Inv s' (owed σ) (admitted σ) -> s_live_connections s' = s_live_connections (sy_state σ) ->
  (finished s' = true -> s_results_closing s' = true /\ s_in_flight s' = 0) -> SysInv (mkSys s' (sy_conns σ)).
Proof. intros [Hi Hc Hw Hf] Hi' Hl Hf'. split; cbn [sy_state sy_conns]; [done|done|by rewrite Hl, Hw|done]. Qed.

Lemma live_of s s' : core s' = core s -> s_live_connections s' = s_live_connections s.
Proof. unfold core. by intros [= ?]. Qed.

Lemma SysInv_core σ s' : SysInv σ -> Inv s' (owed σ) (admitted σ) -> core s' = core (sy_state σ) -> SysInv (mkSys s' (sy_conns σ)).
Proof.
  intros Hs Hi Hc. apply SysInv_state; [done|done|by apply live_of|]. unfold core in Hc. injection Hc as _ E2 _ _ _ E6 _ _ E9.
  rewrite E2, E6, E9. apply (si_finished _ _ Hs).
Qed.

Lemma insert_middle_conn (l1 l2 : list Conn) c c' : <[length l1 := c']> (l1 ++ c :: l2) = l1 ++ c' :: l2.
Proof. rewrite insert_app_r_alt by lia. by rewrite Nat.sub_diag. Qed.

(** A connection's operation, run from an idle or busy connection. *)
Lemma on_conn_inv {A} i conn (m : method Call AuthError A) k σ : SysInv σ -> sy_conns σ !! i = Some conn ->
  (forall l1 l2 c' res, m (begin_call (sy_state σ) (cn_gate conn)) = (c', res) ->
     let adm := conns_admitted l1 + conns_admitted l2 in 0 <= adm ->
     Inv (sy_state σ) (gate_owed (cn_gate conn) ++ phase_owed (cn_phase conn) ++ others_owed l1 l2) (adm + phase_admitted (cn_phase conn)) ->
     res <> Err Panicked /\ flags (ca_state c') = flags (sy_state σ) /\
     (s_results_closing (sy_state σ) = true -> s_in_flight (ca_state c') <= s_in_flight (sy_state σ)) /\
     conn_ok (mkConn (ca_gate c') (k res) (cn_ssh conn)) /\
     Inv (ca_state c') (gate_owed (ca_gate c') ++ phase_owed (k res) ++ others_owed l1 l2) (adm + phase_admitted (k res))) ->
  exists σ', on_conn i conn m k σ = Some σ' /\ SysInv σ'.
Proof.
  intros Hs Hl Hm. destruct σ as [s conns]. cbn in Hl. apply list_elem_of_split_length in Hl as (l1 & l2 & -> & ->).
  destruct (SysInv_open _ _ _ _ Hs) as (Hi & Hok & Hadm). unfold on_conn. cbn [sy_state sy_conns] in *.
  destruct (m (begin_call s (cn_gate conn))) as [c' res] eqn:E. specialize (Hm l1 l2 c' res eq_refl Hadm Hi) as (Hp & Hf & Hle & Hc & Hi').
  rewrite insert_middle_conn.
  destruct res as [a|[m1|m1|]]; [| | |done]; (eexists; split; [done|]; by eapply SysInv_close).
Qed.

Lemma step_arrive i r σ : request_u64 r -> SysInv σ -> exists σ', step (EvArrive i r) σ = Some σ' /\ SysInv σ'.
Proof.
  intros Hu Hs. cbn [sys_step]. destruct (sy_conns σ !! i) as [conn|] eqn:El; [|by exists σ].
  destruct conn as [g [|r0|r0 st] ssh] eqn:Ec; try by exists σ. apply on_conn_inv; [done|by subst|]. cbn [cn_gate cn_phase cn_ssh phase_owed phase_admitted app].
  intros l1 l2 c' res E Hadm Hi. set (adm := conns_admitted l1 + conns_admitted l2) in *. rewrite Z.add_0_r in Hi. unfold arrive in E. unfold mbind, method_bind in E.
  destruct (end_small_copy_inv cf W r (begin_call (sy_state σ) g) _ _ Hi) as (c1 & E1 & I1 & F1 & _ & L1 & K1). rewrite E1 in E. cbn in F1, L1.
  pose proof (admit_inv cf W r c1 _ _ I1 Hadm) as Ha. rewrite E in Ha. destruct Ha as (Hp & (F2 & G2 & _) & Ha).
  assert (Hcl : s_results_closing (ca_state c1) = s_results_closing (sy_state σ)) by (unfold flags in F1; by injection F1).
  destruct res as [[]|e]; cbn -[is_tracked].
  - destruct Ha as (I2 & T2 & N2). rewrite G2. split; [done|]. split; [congruence|]. split; [|done].
    rewrite Hcl in T2. intros Hc. rewrite (T2 Hc) in N2. lia.
  - destruct Ha as (I2 & N2). rewrite G2, Z.add_0_r. split_and!; try done; [congruence|lia].
Qed.

(** A request answered inline is charged nothing. *)
Lemma untracked_charge r : is_tracked r = false -> returns (eq Charged_default) (charge_request cf r).
Proof. intros Hr. unfold charge_request. apply returns_bind. intros s. destruct r; try done; cbn; returns_go. Qed.

Lemma untracked_stream r c : is_tracked r = false -> authorize_stream is_ignore cf W r c = (c, Ok tt).
Proof. by destruct r. Qed.

Lemma untracked_free over_ssh r c c' r' st owed adm : is_tracked r = false -> request_u64 r -> ca_step c = StepNone ->
  Inv (ca_state c) owed adm ->
  authorize_admitted is_ignore from_json base64 key cf W over_ssh r c = (c', Ok (r', st)) ->
  st_charged st = Charged_default /\ st_stream st = StepNone.
Proof.
  intros Hr Hu Hs Hi. unfold authorize_admitted. destruct (authorize_checked _ _ _ _ _ _ _ r c) as [c1 [[r1 ch]|e]] eqn:E.
  2:{ destruct e; try destruct (refuse _ _ _ _ _) as [? [?|?]]; done. }
  intros [= <- <- <-]. cbn. unfold authorize_checked in E. apply method_bind_Ok in E as (c2 & r2 & E2 & E).
  destruct (tame_inv (limits cf) _ c _ _ (tame_authorize_inner is_ignore from_json base64 key cf W over_ssh r Hu) Hi) as (_ & (_ & _ & S1) & I1).
  rewrite E2 in S1, I1. cbn in S1, I1.
  pose proof (authorize_inner_kind _ _ _ _ _ _ _ _ _ _ _ E2) as [Htr _]. rewrite Hr in Htr.
  apply method_bind_Ok in E as (c3 & [] & E3 & E). rewrite (untracked_stream r2 c2 Htr) in E3. injection E3 as <-.
  apply method_bind_Ok in E as (c4 & ch' & E4 & [= <- <- <-]). split; [by rewrite <- (untracked_charge _ Htr _ _ _ E4)|].
  pose proof (charge_inv cf r2 c2 owed adm false) as Hch. rewrite E4, Z.add_0_r in Hch.
  destruct (Hch I1 (iv_adm _ _ _ _ Hi)) as ((_ & _ & S4) & _). congruence.
Qed.

Lemma step_authorize i σ : SysInv σ -> exists σ', step (EvAuthorize i) σ = Some σ' /\ SysInv σ'.
Proof.
  intros Hs. cbn [sys_step]. destruct (sy_conns σ !! i) as [conn|] eqn:El; [|by exists σ].
  destruct conn as [g [|r|r st] ssh] eqn:Ec; try by exists σ.
  assert (Hok : conn_ok (mkConn g (PhAdmitted r) ssh)) by by eapply (Forall_lookup_1 _ _ _ _ (si_conns _ _ Hs)).
  destruct Hok as [Hu Hk]. cbn in Hk. apply on_conn_inv; [done|by subst|].
  cbn [cn_gate cn_phase cn_ssh phase_owed phase_admitted app].
  intros l1 l2 c' res E Hadm Hi. set (adm := conns_admitted l1 + conns_admitted l2) in *.
  pose proof (authorize_admitted_inv is_ignore from_json base64 key cf W ssh r (begin_call (sy_state σ) g) _ _ eq_refl Hu Hk Hadm Hi) as Ha.
  rewrite E in Ha. destruct Ha as (Hp & Hf & Hle & Ha). split; [done|]. split; [done|]. split; [done|].
  destruct res as [[r' st]|e]; [destruct Ha as (Ht & Hg & I2); destruct (is_tracked r) eqn:Er|];
    cbn [phase_owed phase_admitted app] in *; rewrite ?Z.add_0_r.
  - split; [done|].
    assert (HP : gate_owed (ca_gate c') ++ st :: step_owed (st_stream st) ++ others_owed l1 l2 ≡ₚ
                 st :: step_owed (st_stream st) ++ gate_owed (ca_gate c') ++ others_owed l1 l2) by solve_Permutation.
    by rewrite HP.
  - split; [done|]. eapply untracked_free in E as [Ech Est]; [|done|done|done|exact Hi]. rewrite Est in I2. cbn in I2.
    pose proof (discharge_inv cf (ca_state c') st (gate_owed (ca_gate c') ++ others_owed l1 l2) adm) as Hd. rewrite Ht in Hd. apply Hd.
    by destruct st; cbn in *; subst.
  - done.
Qed.

Lemma step_settle i rs opened σ : SysInv σ -> exists σ', step (EvSettle i rs opened) σ = Some σ' /\ SysInv σ'.
Proof.
  intros Hs. cbn [sys_step]. destruct (sy_conns σ !! i) as [conn|] eqn:El; [|by exists σ].
  destruct conn as [g [|r|r st] ssh] eqn:Ec; try by exists σ.
  assert (Hok : conn_ok (mkConn g (Executing r st) ssh)) by by eapply (Forall_lookup_1 _ _ _ _ (si_conns _ _ Hs)).
  destruct Hok as [Ht Hg]. cbn in Hg. apply on_conn_inv; [done|by subst|].
  cbn [cn_gate cn_phase cn_ssh phase_owed phase_admitted app].
  intros l1 l2 c' res E Hadm Hi. set (adm := conns_admitted l1 + conns_admitted l2) in *.
  assert (HP : gate_owed g ++ st :: step_owed (st_stream st) ++ others_owed l1 l2 ≡ₚ
               st :: step_owed (st_stream st) ++ gate_owed g ++ others_owed l1 l2) by solve_Permutation.
  rewrite HP in Hi.
  destruct (gate_settle_inv cf W st rs opened (begin_call (sy_state σ) g) _ _ Hi Hg) as (c2 & E2 & I2 & F2 & L2).
  rewrite E in E2. injection E2 as -> ->. split; [done|]. split; [exact F2|]. split; [intros _; exact L2|]. split; [done|exact I2].
Qed.

Lemma step_abandon i error σ : SysInv σ -> exists σ', step (EvAbandon i error) σ = Some σ' /\ SysInv σ'.
Proof.
  intros Hs. cbn [sys_step]. destruct (sy_conns σ !! i) as [conn|] eqn:El; [|by exists σ].
  destruct conn as [g [|r|r st] ssh] eqn:Ec; try by exists σ. apply on_conn_inv; [done|by subst|].
  cbn [cn_gate cn_phase cn_ssh phase_owed phase_admitted app].
  intros l1 l2 c' res E Hadm Hi.
  destruct (abandon_inv cf W error (begin_call (sy_state σ) g) _ _ Hi) as ((c2 & E2 & I2 & F2 & L2) & _).
  rewrite E in E2. injection E2 as -> ->. split; [done|]. split; [exact F2|]. split; [intros _; exact L2|]. split; [done|exact I2].
Qed.

Lemma step_close i σ : SysInv σ -> exists σ', step (EvClose i) σ = Some σ' /\ SysInv σ'.
Proof.
  intros Hs. cbn [sys_step]. destruct σ as [s conns]. cbn [sy_conns sy_state]. destruct (conns !! i) as [conn|] eqn:El; [|eauto].
  destruct conn as [g [|r|r st] ssh] eqn:Ec; try eauto.
  apply list_elem_of_split_length in El as (l1 & l2 & -> & ->). rewrite delete_middle.
  destruct (SysInv_open _ _ _ _ Hs) as (Hi & _ & Hadm). cbn [cn_gate cn_phase phase_owed phase_admitted app] in Hi. rewrite Z.add_0_r in Hi.
  destruct (gate_drop_inv cf W (begin_call s g) _ _ Hi) as (c2 & E2 & I2 & F2 & L2). rewrite E2. eexists. split; [done|].
  destruct Hs as [Hi0 Hc Hw Hf]. cbn [sy_state sy_conns ca_state begin_call] in *. rewrite workers_middle in Hw. cbn [cn_ssh] in Hw.
  unfold flags in F2. injection F2 as Fc _ _ Ff Fl. set (s' := if ssh then _ else _).
  assert (Hcnt : 0 <= workers (mkSys s (l1 ++ l2))) by (unfold workers; lia).
  assert (Hs' : Inv s' (others_owed l1 l2) (conns_admitted l1 + conns_admitted l2) /\ s_live_connections s' = workers (mkSys s (l1 ++ l2)) /\
    finished s' = finished (ca_state c2) /\ s_results_closing s' = s_results_closing (ca_state c2) /\ s_in_flight s' = s_in_flight (ca_state c2)).
  { subst s'. destruct ssh; cbn.
    - split_and!; [done|lia|done|done|done].
    - split_and!; [|unfold saturating_sub; lia|done|done|done]. destruct I2. split; cbn; try done; [by apply (res_ok_resv _ (ca_state c2))|].
      unfold saturating_sub. lia. }
  destruct Hs' as (I3 & L3 & F3 & C3 & N3). split; cbn [sy_state sy_conns].
  - by rewrite owed_rest, admitted_rest.
  - apply Forall_app in Hc as [? Hc]. apply Forall_cons in Hc as [_ ?]. by apply Forall_app.
  - done.
  - rewrite F3, Ff, C3, Fc, N3. intros Hfin. destruct (Hf Hfin) as [Hcl Hz]. split; [done|].
    pose proof (iv_in_flight _ _ _ _ I2). lia.
Qed.

Lemma step_worker σ : SysInv σ -> exists σ', step EvWorker σ = Some σ' /\ SysInv σ'.
Proof.
  intros Hs. destruct (Hs) as [Hi Hc Hw Hf]. cbn [sys_step]. set (c0 := begin_call (sy_state σ) Gate_new).
  unfold acquire_connection. unfold mbind at 1, method_bind at 1.
  destruct (tame_inv (limits cf) (check_deadline cf W) c0 _ _ (tame_check_deadline _ _ _) Hi) as (P1 & F1 & I1).
  destruct (check_deadline cf W c0) as [c1 [[]|e]]; cbn [fst snd] in *; destruct F1 as [F1 _]; cbn in F1.
  2:{ assert (SysInv (mkSys (ca_state c1) (sy_conns σ))) by by apply SysInv_core.
      destruct e; [eauto..|done]. }
  unfold mbind at 1, method_bind at 1.
  destruct (tame_inv (limits cf) (check_control cf W) c1 _ _ (tame_check_control _ _ _) I1) as (P2 & F2 & I2).
  destruct (check_control cf W c1) as [c2 [[]|e]]; cbn [fst snd] in *; destruct F2 as [F2 _]; rewrite F1 in F2.
  2:{ assert (SysInv (mkSys (ca_state c2) (sy_conns σ))) by by apply SysInv_core.
      destruct e; [eauto..|done]. }
  rewrite bind_get_s. case_bool_decide as Hm; cbn [negb].
  - assert (SysInv (mkSys (ca_state c2) (sy_conns σ))) by by apply SysInv_core.
    eexists. split; [done|]. done.
  - rewrite bind_ensure. eexists. split; [done|]. pose proof (live_of _ _ F2) as Hl. unfold core in F2. injection F2 as E1 E2 E3 E4 E5 E6 E7 E8 E9.
    split; cbn [sy_state sy_conns ca_state set_ca_state mod_s].
    + unfold owed, admitted. cbn. rewrite !fmap_app, join_app, sumZ_app. cbn. rewrite app_nil_r, Z.add_0_r.
      destruct I2. split; cbn; try done; [by apply (res_ok_resv _ (ca_state c2))|]. lia.
    + apply Forall_app. split; [done|]. by repeat constructor.
    + cbn. rewrite Hl, Hw. unfold workers. cbn [sy_conns]. rewrite countb_app, countb_cons. cbn. lia.
    + unfold finished in *. cbn. rewrite E6, E9, E2. done.
Qed.

Lemma step_control σ : SysInv σ -> exists σ', step EvControl σ = Some σ' /\ SysInv σ'.
Proof.
  intros [Hi Hc Hw Hf]. eexists. split; [done|]. split; cbn [sy_state sy_conns]; [| | |done].
  - unfold owed, admitted. cbn. rewrite !fmap_app, join_app, sumZ_app. cbn. by rewrite app_nil_r, Z.add_0_r.
  - apply Forall_app. split; [done|]. by repeat constructor.
  - rewrite Hw. unfold workers. cbn [sy_conns]. rewrite countb_app, countb_cons. cbn. lia.
Qed.

(** A change of fields the accounts do not read. *)
Lemma Inv_quiet s s' owed adm : resv s' = resv s ->
  (s_live_connections s', s_in_flight s', s_changes s', s_transferred_bytes s', s_deletions s') =
  (s_live_connections s, s_in_flight s, s_changes s, s_transferred_bytes s, s_deletions s) -> Inv s owed adm -> Inv s' owed adm.
Proof.
  intros Hr [= E1 E2 E3 E4 E5] []. pose proof (res_ok_resv _ _ _ Hr iv_res). unfold resv in Hr. injection Hr as R1 R2 R3.
  split; rewrite ?E1, ?E2, ?E3, ?E4, ?E5, ?R1, ?R3; try done. unfold entries. by rewrite R1.
Qed.

Lemma finish_end_state s : let s' := ca_state (finish_results_end cf (begin_call s Gate_new)).1 in
  (finish_results_end cf (begin_call s Gate_new)).2 <> Err Panicked /\ resv s' = resv s /\
  (s_live_connections s', s_in_flight s', s_changes s', s_transferred_bytes s', s_deletions s', s_results_closing s') =
  (s_live_connections s, s_in_flight s, s_changes s, s_transferred_bytes s, s_deletions s, s_results_closing s).
Proof.
  unfold finish_results_end. rewrite bind_get_s. cbn [ca_state begin_call]. unfold mbind, method_bind, mod_s, context, lift. cbn.
  destruct (s_results s) as [events|]; cbn; [|done].
  set (s1 := set_s_lifecycles ∅ s). assert (Hfold : forall l s, core (foldl (fun s kv => report_unfinished cf kv s) s l) = core s /\
    resv (foldl (fun s kv => report_unfinished cf kv s) s l) = resv s).
  { induction l as [|[[path id] lc] l IH]; intros s0; [done|]. cbn [foldl].
    destruct (IH (report_unfinished cf (path, id, lc) s0)) as [-> ->]. unfold report_unfinished. case_match; [done|]. by apply core_emit. }
  destruct (Hfold (map_to_list (s_lifecycles s)) s1) as [Hc Hr]. set (s2 := foldl _ s1 _) in *. split; [done|].
  unfold core in Hc. injection Hc as E1 E2 E3 E4 E5 E6 _ _ _. unfold emit.
  destruct (s_results s2); cbn; rewrite E1, E2, E3, E4, E5, E6; (split; [exact Hr|done]).
Qed.

Lemma step_finish_end σ : SysInv σ -> exists σ', step EvFinishEnd σ = Some σ' /\ SysInv σ'.
Proof.
  intros Hs. cbn [sys_step]. destruct (s_results_closing (sy_state σ) && bool_decide _ && _) eqn:E; [|eauto].
  apply andb_true_iff in E as [[Ec Ef%bool_decide_eq_true]%andb_true_iff _].
  destruct (finish_end_state (sy_state σ)) as (Hp & Hr & Hq). unfold on_state.
  destruct (finish_results_end cf (begin_call (sy_state σ) Gate_new)) as [c res]. cbn [fst snd] in *.
  assert (SysInv (mkSys (ca_state c) (sy_conns σ))) as Hs'.
  { injection Hq as E1 E2 E3 E4 E5 E6. apply SysInv_state; [done| |done|by rewrite E2, E6].
    eapply Inv_quiet; [exact Hr| |apply (si_inv _ _ Hs)]. congruence. }
  destruct res as [u|[m|m|]]; [eauto..|done].
Qed.

Lemma step_sys e σ : event_u64 e -> SysInv σ -> exists σ', step e σ = Some σ' /\ SysInv σ'.
Proof.
  intros He Hs.
  assert (Hq : forall s', resv s' = resv (sy_state σ) ->
    (s_live_connections s', s_in_flight s', s_changes s', s_transferred_bytes s', s_deletions s') =
    (s_live_connections (sy_state σ), s_in_flight (sy_state σ), s_changes (sy_state σ), s_transferred_bytes (sy_state σ), s_deletions (sy_state σ)) ->
    (finished s' = true -> finished (sy_state σ) = true) -> (s_results_closing (sy_state σ) = true -> s_results_closing s' = true) ->
    SysInv (mkSys s' (sy_conns σ))).
  { intros s' Hr He' Hf Hc. apply SysInv_state; [done| | |].
    - eapply Inv_quiet; [exact Hr|exact He'|apply (si_inv _ _ Hs)].
    - injection He' as E1 _ _ _ _. exact E1.
    - intros Hfin%Hf. destruct (si_finished _ _ Hs Hfin). injection He' as _ E2 _ _ _. rewrite E2. auto. }
  destruct e; eauto using step_worker, step_control, step_arrive, step_authorize, step_settle, step_abandon, step_close, step_finish_end.
  - cbn [sys_step]. unfold on_state, start_results. rewrite bind_get_s. unfold mbind, method_bind. cbn.
    destruct (_ && _); cbn; [|eexists; split; [done|]; by apply Hq].
    destruct (s_results (sy_state σ)) eqn:Er; cbn; eexists; (split; [done|]; apply Hq; try done).
  - cbn [sys_step]. unfold on_state, finish_results_begin. rewrite bind_get_s. unfold mbind, method_bind. cbn.
    destruct (s_results_started _); cbn; [|eexists; split; [done|]; by apply Hq].
    destruct (s_results_closing _) eqn:Er; cbn; eexists; (split; [done|]; apply Hq; try done).
Qed.

Lemma SysInv_new mapping : limits_u64 (limits cf) -> SysInv (mkSys (Authority_new cf mapping) []).
Proof.
  intros []. split; cbn; [|done|done|done]. unfold Authority_new. split; cbn; unfold u64_max, entries; cbn; rewrite ?msum_empty; try done; try lia.
Qed.

Lemma SysInv_run events σ : Forall event_u64 events -> SysInv σ ->
  exists σ', sys_run is_ignore from_json base64 key cf W events σ = Some σ' /\ SysInv σ'.
Proof.
  unfold sys_run. intros He. revert σ. induction He as [|e events He _ IH]; intros σ Hs; [by exists σ|]. cbn.
  destruct (step_sys e σ He Hs) as (σ1 & -> & Hs1). by apply IH.
Qed.
End SysInv.
