(* ===== verification/AuthSysProps.v ===== *)
(** * What a restricted receiver keeps

    For every sequence of events on any number of connections, from the state a
    grant starts with. *)

From stdpp Require Import strings.
From S2P Require Import Prelude Text Diagnostic Proto Hashing Mapping MappingGrant Grant Lookups AuthData Authority AuthPolicy AuthSettle AuthRequest AuthFrame AuthTame AuthInner AuthInv AuthAccounts AuthSystem AuthSample AuthStream AuthSysInv.
Local Open Scope Z_scope.

Section Receiver.
Context `{HashLib} {Gitignore : Type} (is_ignore : Gitignore -> PathBytes -> bool -> bool).
Context (from_json : list Z -> option WireEntry) (base64 : list Z -> option (list Z)).
Context (key : PathBytes -> Z) (cf : Config (Gitignore := Gitignore)) (W : World) (mapping : option Authorization).
Abbreviation run := (sys_run is_ignore from_json base64 key cf W).
Abbreviation start := (mkSys (Authority_new cf mapping) []).

(** C2. Whatever the connections do, in whatever order, no step of the receiver
    panics (no failed [expect], no counter wrapping), and its counters stay
    within the signed limits: entries, deletions, bytes received, bytes reserved
    for files, connections. *)
Theorem receiver_stays_within_limits events :
  limits_u64 (limits cf) -> Forall event_u64 events ->
  exists σ, run events start = Some σ /\
    let s := sy_state σ in
    0 <= s_changes s <= cl_max_entries (limits cf) /\
    0 <= s_deletions s <= cl_max_deletions (limits cf) /\
    0 <= s_transferred_bytes s <= cl_max_total_bytes (limits cf) /\
    0 <= s_reserved_bytes s <= cl_max_total_bytes (limits cf) /\
    0 <= s_live_connections s <= cl_max_connections (limits cf).
Proof.
  intros Hl He. destruct (SysInv_run is_ignore from_json base64 key cf W events _ He (SysInv_new cf mapping Hl)) as (σ & -> & [Hi _ _ _]).
  exists σ. split; [done|]. cbn zeta.
  pose proof (owed_changes_sum _ _ _ _ Hi). pose proof (owed_deletions_sum (owed σ)). pose proof (entries_nonneg (sy_state σ)).
  destruct Hi. destruct iv_res. assert (0 <= msum size_of (s_reserved (sy_state σ))).
  { apply msum_nonneg. intros k b Hk. by apply size_of_nonneg, (ro_each k). }
  split_and!; lia.
Qed.

(** C21. The number of requests in flight is exactly the number of tracked
    requests admitted, executing, or held by an open streamed patch or a prepared
    small copy; the live connections are exactly the worker connections. *)
Theorem in_flight_is_exact events σ :
  limits_u64 (limits cf) -> Forall event_u64 events -> run events start = Some σ ->
  s_in_flight (sy_state σ) = Z.of_nat (countb st_tracked (owed σ)) + admitted σ /\
  s_live_connections (sy_state σ) = workers σ.
Proof.
  intros Hl He E. destruct (SysInv_run is_ignore from_json base64 key cf W events _ He (SysInv_new cf mapping Hl)) as (σ' & E' & [Hi _ Hw _]).
  rewrite E in E'. injection E' as <-. split; [apply (iv_in_flight _ _ _ _ Hi)|done].
Qed.

(** C27. Every change an unsettled request may still get back is counted, and so
    is every file that counts once for all requests that write it; a file's
    share count is the number of unsettled requests that share it, so its count
    is given back only when the last of them settles. *)
Theorem outstanding_charges_are_counted events σ :
  limits_u64 (limits cf) -> Forall event_u64 events -> run events start = Some σ ->
  sumZ (owed_changes <$> owed σ) + entries (sy_state σ) <= s_changes (sy_state σ) /\
  sumZ (owed_deletions <$> owed σ) <= s_deletions (sy_state σ) /\
  forall k b, s_reserved (sy_state σ) !! k = Some b -> holders b = Z.of_nat (countb (shares k (br_instance b)) (owed σ)).
Proof.
  intros Hl He E. destruct (SysInv_run is_ignore from_json base64 key cf W events _ He (SysInv_new cf mapping Hl)) as (σ' & E' & [Hi _ _ _]).
  rewrite E in E'. injection E' as <-. destruct Hi. auto.
Qed.

(** C28. Once the results have ended, no tracked request is outstanding or
    admitted, and the grant is closed to new ones. *)
Theorem results_end_when_all_settled events σ :
  limits_u64 (limits cf) -> Forall event_u64 events -> run events start = Some σ -> finished (sy_state σ) = true ->
  s_results_closing (sy_state σ) = true /\
  (forall st, st ∈ owed σ -> st_tracked st = false) /\
  (forall conn r, conn ∈ sy_conns σ -> cn_phase conn = PhAdmitted r -> is_tracked r = false).
Proof.
  intros Hl He E Hf. destruct (SysInv_run is_ignore from_json base64 key cf W events _ He (SysInv_new cf mapping Hl)) as (σ' & E' & [Hi _ _ Hfin]).
  rewrite E in E'. injection E' as <-. destruct (Hfin Hf) as [Hc Hz]. pose proof (iv_in_flight _ _ _ _ Hi) as Hn.
  pose proof (iv_adm _ _ _ _ Hi). split; [done|]. split.
  - apply countb_zero. lia.
  - intros conn r Hconn Hr. assert (Ha : admitted σ = 0) by lia. apply list_elem_of_split in Hconn as (l1 & l2 & Hl12).
    destruct σ as [s conns]. cbn in Hl12. subst conns. rewrite admitted_middle, Hr in Ha. cbn in Ha.
    pose proof (conns_admitted_nonneg l1). pose proof (conns_admitted_nonneg l2). destruct (is_tracked r); [lia|done].
Qed.
End Receiver.

(** ** On the sample *)
#[local] Existing Instance sum_lib.

Lemma sample_limits_u64 : limits_u64 (limits sample_copying).
Proof. by constructor; cbn. Qed.

Lemma sample_events_u64 : Forall event_u64 sample_events.
Proof. repeat constructor; cbn; unfold request_u64; cbn; repeat constructor; lia. Qed.

Lemma sample_ending_u64 : Forall event_u64 sample_ending.
Proof. apply Forall_app. split; [apply sample_events_u64|]. repeat constructor; cbn; unfold request_u64; cbn; repeat constructor; lia. Qed.

Lemma some_default {A} (o : option A) (d : A) : match o with Some _ => true | None => false end = true -> o = Some (default d o).
Proof. by destruct o. Qed.

Lemma sample_midway_run : sample_run sample_events = Some sample_midway.
Proof. apply some_default. vm_compute. reflexivity. Qed.
Lemma sample_ended_run : sample_run sample_ending = Some sample_ended.
Proof. apply some_default. vm_compute. reflexivity. Qed.

Lemma sample_ending_counts σ : sample_run sample_ending = Some σ -> s_changes (sy_state σ) = 2 /\ s_deletions (sy_state σ) = 0.
Proof.
  intros E. assert (Hσ : (fun σ => (s_changes (sy_state σ), s_deletions (sy_state σ))) <$> sample_run sample_ending = Some (2, 0))
    by (vm_compute; reflexivity).
  rewrite E in Hσ. clear E. injection Hσ as H1 H2. split; assumption.
Qed.

Lemma receiver_stays_within_limits_witness : exists σ, sample_run sample_ending = Some σ /\
  s_changes (sy_state σ) = 2 /\ s_deletions (sy_state σ) = 0 /\ s_changes (sy_state σ) <= 10.
Proof.
  destruct (receiver_stays_within_limits no_ignore no_entry no_text sum_key sample_copying sample_world None sample_ending
    sample_limits_u64 sample_ending_u64) as (σ & E & Hc & _). exists σ. split; [exact E|].
  destruct (sample_ending_counts σ E) as [H1 H2]. split; [exact H1|]. split; [exact H2|]. apply Hc.
Defined.

Lemma in_flight_is_exact_witness :
  s_in_flight (sy_state sample_midway) = 2 /\ countb st_tracked (owed sample_midway) = 2%nat /\ workers sample_midway = 1.
Proof.
  destruct (in_flight_is_exact no_ignore no_entry no_text sum_key sample_copying sample_world None sample_events sample_midway
    sample_limits_u64 sample_events_u64 sample_midway_run) as [Hf Hw].
  split; [rewrite Hf; vm_compute; reflexivity|]. split; [vm_compute; reflexivity|]. rewrite <- Hw. vm_compute. reflexivity.
Defined.

Lemma outstanding_charges_are_counted_witness :
  sumZ (owed_changes <$> owed sample_midway) + entries (sy_state sample_midway) <= 3 /\
  exists b, s_reserved (sy_state sample_midway) !! (sample_file, 2) = Some b /\
    holders b = Z.of_nat (countb (shares (sample_file, 2) (br_instance b)) (owed sample_midway)).
Proof.
  destruct (outstanding_charges_are_counted no_ignore no_entry no_text sum_key sample_copying sample_world None sample_events sample_midway
    sample_limits_u64 sample_events_u64 sample_midway_run) as (Hc & _ & Hh).
  split; [exact Hc|]. destruct (s_reserved (sy_state sample_midway) !! (sample_file, 2)) as [b|] eqn:E.
  - exists b. split; [reflexivity|]. exact (Hh _ _ E).
  - vm_compute in E. discriminate E.
Defined.

Lemma results_end_when_all_settled_witness :
  finished (sy_state sample_ended) = true /\ s_results_closing (sy_state sample_ended) = true /\
  forall st, st ∈ owed sample_ended -> st_tracked st = false.
Proof.
  assert (Hf : finished (sy_state sample_ended) = true) by (vm_compute; reflexivity).
  destruct (results_end_when_all_settled no_ignore no_entry no_text sum_key sample_copying sample_world None sample_ending sample_ended
    sample_limits_u64 sample_ending_u64 sample_ended_run Hf) as (Hc & Ho & _).
  split; [exact Hf|]. split; [exact Hc|exact Ho].
Defined.
