(* ===== verification/AuthConfined.v ===== *)
(** * Authorized changes stay where the grant allows them

    What an authorized request names for changing: paths in the signed mutation
    scopes that the admitted mapping lists and the filters do not exclude, never
    in a read-only grant.  Only under an approved widening may the directory the
    copy goes into change, and then only as the receiver chooses. *)

From stdpp Require Import strings.
From S2P Require Import Prelude Text Diagnostic Proto Hashing Mapping MappingGrant Grant Lookups AuthData Authority AuthPolicy AuthSettle AuthRequest AuthFrame AuthTame AuthInner.
Local Open Scope Z_scope.

(** ** Methods and the parts of the state they leave alone

    Authorization itself changes neither the admitted mapping nor, but for links
    forgetting a name, the names this grant made.  In the record of what was
    looked up it claims names, and where it deletes, forgets some. *)
Definition claimed (l l' : PlanningLookups) : Prop :=
  forall k, lo_names l' !! k = lo_names l !! k \/ lo_names l' !! k = Some LkClaimed.

Class StateFrame `{HashLib} (R : AuthState -> AuthState -> Prop) := {
  frame_preorder :: PreOrder R;
  frame_of s s' : s_mapping s' = s_mapping s -> s_created s' ⊆ s_created s -> s_lookups s' = s_lookups s -> R s s';
  frame_claim s l l' : s_lookups s = Some l -> claimed l l' -> R s (set_s_lookups (Some l') s)
}.

(** A part that does not depend on that record. *)
Class ForgetFrame `{HashLib} (R : AuthState -> AuthState -> Prop) :=
  frame_forget s l : R s (set_s_lookups l s).

Section Keeps.
Context `{HashLib} (R : AuthState -> AuthState -> Prop) `{!StateFrame R}.
Abbreviation auth := (method Call AuthError).

Definition keeps {A} (m : auth A) : Prop := forall c, R (ca_state c) (ca_state (m c).1).

Lemma keeps_same {A} (m : auth A) : (forall c, ca_state (m c).1 = ca_state c) -> keeps m.
Proof. intros Hm c. by rewrite Hm. Qed.
Lemma keeps_ret {A} (a : A) : keeps (mret a).
Proof. by apply keeps_same. Qed.
Lemma keeps_seq {A B} (m : auth A) (k : A -> auth B) : keeps m -> (forall a, keeps (k a)) -> keeps (m ≫= k).
Proof.
  intros Hm Hk c. specialize (Hm c). unfold mbind, method_bind. destruct (m c) as [c' [a|e]]; cbn in *; [|done].
  etransitivity; [exact Hm|apply Hk].
Qed.
Lemma keeps_mod_s f : (forall s, R s (f s)) -> keeps (mod_s f).
Proof. intros Hf c. apply Hf. Qed.
Lemma keeps_ask {A} (f : nat -> A) : keeps (ask f).
Proof.
  apply keeps_seq; [by apply keeps_same|intros s]. apply keeps_seq; [|intros; apply keeps_ret]. apply keeps_mod_s. intros ?. by apply frame_of.
Qed.
Lemma keeps_for_each_mut {A} (f : nat -> A -> auth A) l i : (forall i x, keeps (f i x)) -> keeps (for_each_mut f i l).
Proof.
  intros Hf. revert i. induction l as [|x l IH]; intros i; [apply keeps_ret|]. apply keeps_seq; [apply Hf|intros y].
  apply keeps_seq; [apply IH|intros; apply keeps_ret].
Qed.
Lemma keeps_for_each {A} (f : A -> auth unit) l : (forall x, keeps (f x)) -> keeps (for_each f l).
Proof. intros Hf. induction l as [|x l IH]; [apply keeps_ret|]. by apply keeps_seq. Qed.

Lemma bind_kept {A B} (m : auth A) (k : A -> auth B) c c' b : keeps m -> (m ≫= k) c = (c', Ok b) ->
  exists c1 a, R (ca_state c) (ca_state c1) /\ m c = (c1, Ok a) /\ k a c1 = (c', Ok b).
Proof. intros Hm (c1 & a & E & E')%method_bind_Ok. exists c1, a. specialize (Hm c). rewrite E in Hm. done. Qed.
End Keeps.

Lemma lookups_claim_claimed key relative l : claimed l (lookups_claim key relative l).2.
Proof.
  intros k. destruct (lookups_claim_spec key relative l) as [(c & _ & ->)|[-> _]]; cbn; [by left|].
  destruct (decide (key relative = k)) as [<-|Hk]; [right; apply lookup_insert_eq|left; by apply lookup_insert_ne].
Qed.

Section Instances.
Context `{HashLib}.

Definition same_mapping (s s' : AuthState) : Prop := s_mapping s' = s_mapping s.
#[export] Instance same_mapping_frame : StateFrame same_mapping.
Proof. unfold same_mapping. split; [split|..]; [by intros ?|intros ???| |done]; congruence. Qed.
#[export] Instance same_mapping_forget : ForgetFrame same_mapping.
Proof. by intros s l. Qed.

Definition creates_none (s s' : AuthState) : Prop := s_created s' ⊆ s_created s.
#[export] Instance creates_none_frame : StateFrame creates_none.
Proof. unfold creates_none. split; [split|..]; [by intros ?|intros ???; set_solver|done|done]. Qed.
#[export] Instance creates_none_forget : ForgetFrame creates_none.
Proof. intros s l. unfold creates_none. done. Qed.

(** Names forgotten, and in the record nothing but claims. *)
Definition claims_only (s s' : AuthState) : Prop :=
  s_created s' ⊆ s_created s /\ forall l', s_lookups s' = Some l' -> exists l, s_lookups s = Some l /\ claimed l l'.
#[export] Instance claims_only_frame : StateFrame claims_only.
Proof.
  split; [split|..].
  - intros s. split; [done|]. intros l El. exists l. split; [done|]. by left.
  - intros s1 s2 s3 [Hc1 Hl1] [Hc2 Hl2]. split; [set_solver|]. intros l3 (l2 & (l1 & E1 & H1)%Hl1 & H2)%Hl2. exists l1. split; [done|].
    intros k. destruct (H2 k) as [->|?]; [apply H1|by right].
  - intros s s' _ Hc El. split; [done|]. intros l' E. exists l'. rewrite <- El. split; [done|]. by left.
  - intros s l l' El Hl. split; [done|]. intros l'' [= <-]. by exists l.
Qed.
End Instances.

Section Confines.
Context `{HashLib}.
Abbreviation auth := (method Call AuthError).
Abbreviation keeps := (keeps same_mapping).

(** What holds when a method succeeds, of the mapping it started with. *)
Definition confines {A} (Q : option Admission -> A -> Prop) (m : auth A) : Prop :=
  forall c c' a, m c = (c', Ok a) -> Q (s_mapping (ca_state c)) a.

Lemma conf_ret {A} (Q : option Admission -> A -> Prop) a : (forall mp, Q mp a) -> confines Q (mret a).
Proof. intros Ha c c' a' [= _ <-]. apply Ha. Qed.
Lemma conf_skip {A B} Q (m : auth A) (k : A -> auth B) : keeps m -> (forall a, confines Q (k a)) -> confines Q (m ≫= k).
Proof. intros Hm Hk c c' b (c1 & a & E & E')%method_bind_Ok. specialize (Hm c). rewrite E in Hm. cbn in Hm. rewrite <- Hm. by eapply Hk. Qed.
Lemma conf_use {A B} R Q (m : auth A) (k : A -> auth B) : confines R m -> keeps m ->
  (forall a, confines (fun mp b => R mp a -> Q mp b) (k a)) -> confines Q (m ≫= k).
Proof.
  intros Hr Hm Hk c c' b (c1 & a & E & E')%method_bind_Ok. specialize (Hm c). rewrite E in Hm. cbn in Hm.
  apply Hr in E. rewrite <- Hm in E |- *. by eapply Hk in E'; apply E'.
Qed.
Lemma conf_fail {A} (Q : option Admission -> A -> Prop) e : confines Q (m_fail e).
Proof. done. Qed.
Lemma conf_weaken {A} (R Q : option Admission -> A -> Prop) m : confines R m -> (forall mp a, R mp a -> Q mp a) -> confines Q m.
Proof. intros Hr Hw c c' a E. by apply Hw, Hr with c'. Qed.
Lemma conf_ensure b m : confines (fun _ _ => b = true) (ensure b m).
Proof. intros c c' a [Hb _]%m_ensure_Ok. done. Qed.
Lemma conf_lift {A} (r : mres A) : confines (fun _ a => r = Ok a) (lift r).
Proof. intros c c' a. unfold lift. destruct r; congruence. Qed.
Lemma conf_get_s : confines (fun mp s => s_mapping s = mp) get_s.
Proof. by intros c c' a [= _ <-]. Qed.

(** Each element of a rewritten list, under what the original satisfied. *)
Lemma conf_for_each_mut {A} (Q : option Admission -> A -> Prop) (f : nat -> A -> auth A) l i :
  (forall i x, keeps (f i x)) -> (forall i x, confines Q (f i x)) -> confines (fun mp ys => Forall (Q mp) ys) (for_each_mut f i l).
Proof.
  intros Hk Hf. revert i. induction l as [|x l IH]; intros i; [by apply conf_ret|].
  eapply conf_use; [apply Hf|apply Hk|intros y]. eapply conf_use; [apply IH|apply keeps_for_each_mut; [exact _|exact Hk]|intros ys].
  apply conf_ret. auto.
Qed.
End Confines.

Create HintDb keeps.
#[export] Hint Resolve keeps_ret keeps_ask : keeps.
#[export] Hint Resolve same_mapping_frame creates_none_frame claims_only_frame same_mapping_forget creates_none_forget : keeps.

Ltac frame_go := intros; repeat case_match; first [reflexivity|apply frame_of; cbn; [reflexivity|set_solver|reflexivity]].

Ltac keeps_go :=
  repeat match goal with
  | |- keeps _ (mbind _ _) => apply keeps_seq; [exact _|..|intros ?]
  | |- keeps _ (mod_s _) => apply keeps_mod_s; frame_go
  | |- keeps _ (for_each_mut _ _ _) => apply keeps_for_each_mut; [exact _|intros ??]
  | |- keeps _ (for_each _ _) => apply keeps_for_each; [exact _|intros ?]
  | |- keeps _ (let '(_, _) := ?x in _) => destruct x
  | |- keeps _ (if ?b then _ else _) => destruct b
  | |- keeps _ (match ?x with _ => _ end) => destruct x
  | |- keeps _ _ => apply keeps_same; [exact _|intros; done]
  | |- keeps _ _ => solve [eauto with keeps]
  end.

Section Frames.
Context `{HashLib} {Gitignore : Type} (is_ignore : Gitignore -> PathBytes -> bool -> bool).
Context (key : PathBytes -> Z) (cf : Config (Gitignore := Gitignore)) (W : World).
Context (R : AuthState -> AuthState -> Prop) `{!StateFrame R}.
Abbreviation keeps := (keeps R).

Lemma keeps_rooted_metadata path : keeps (rooted_metadata cf W path).
Proof. unfold rooted_metadata. keeps_go. Qed.
Lemma keeps_check_deadline : keeps (check_deadline cf W).
Proof. unfold check_deadline, now. keeps_go. Qed.
Hint Resolve keeps_rooted_metadata keeps_check_deadline : keeps.
Lemma keeps_expected_hash path : keeps (Authority.expected_hash cf path).
Proof. unfold Authority.expected_hash. keeps_go. Qed.
Lemma keeps_mapping_parent path : keeps (mapping_parent cf path).
Proof. unfold mapping_parent. keeps_go. Qed.
Lemma keeps_check_observation_path path : keeps (check_observation_path cf path).
Proof. unfold check_observation_path, check_mapping_path. keeps_go. Qed.
Lemma keeps_outer_directory_condition path c : keeps (outer_directory_condition cf W path c).
Proof. unfold outer_directory_condition. keeps_go. Qed.
Lemma keeps_check_mutation_allowed : keeps (check_mutation_allowed cf).
Proof. unfold check_mutation_allowed. keeps_go. Qed.
Hint Resolve keeps_check_mutation_allowed : keeps.
Lemma keeps_check_mutation_authority path : keeps (check_mutation_authority cf path).
Proof. unfold check_mutation_authority. keeps_go. Qed.
Hint Resolve keeps_check_mutation_authority : keeps.
Lemma keeps_check_mapping_path path d : keeps (check_mapping_path cf path d).
Proof. unfold check_mapping_path. keeps_go. Qed.
Hint Resolve keeps_check_mapping_path : keeps.
Lemma keeps_check_mutation_path path d : keeps (check_mutation_path is_ignore cf path d).
Proof. unfold check_mutation_path. keeps_go. Qed.
Hint Resolve keeps_check_mutation_path : keeps.
Lemma keeps_check_deletion path d : keeps (check_deletion is_ignore cf path d).
Proof. unfold check_deletion. keeps_go. Qed.
Lemma keeps_mapped_grants path g : keeps (mapped_grants cf path g).
Proof. unfold mapped_grants. keeps_go. Qed.
Hint Resolve keeps_mapped_grants : keeps.
Lemma keeps_check_metadata path meta flags : keeps (check_metadata cf path meta flags).
Proof. unfold check_metadata. keeps_go. Qed.
Lemma keeps_check_preparation_flags path mode flags : keeps (check_preparation_flags cf path mode flags).
Proof. unfold check_preparation_flags. keeps_go. Qed.
Lemma keeps_check_file_bytes path off n : keeps (check_file_bytes is_ignore cf W path off n).
Proof. unfold check_file_bytes. keeps_go. Qed.
Lemma keeps_batch_within_burst sizes m m' : keeps (batch_within_burst cf sizes m m').
Proof. unfold batch_within_burst. keeps_go. Qed.
Lemma keeps_reserve_bytes path id size obs : keeps (reserve_bytes cf path id size obs).
Proof.
  intros c. destruct (reserve_bytes_spec cf path id size obs c) as [[m ->]|(_ & _ & next & _ & ->)]; [reflexivity|].
  apply frame_of; cbn; unfold reserved_state; by destruct (s_reserved (ca_state c) !! (path, id)).
Qed.
Lemma keeps_pin_condition m cond a : keeps (pin_condition W m cond a).
Proof. unfold pin_condition, existence_only_where_numbers_mislead. keeps_go. Qed.
Hint Resolve keeps_pin_condition : keeps.
Lemma keeps_constrain_observed_creation path cond d i pol o : keeps (constrain_observed_creation W path cond d i pol o).
Proof. unfold constrain_observed_creation, provide. keeps_go. Qed.
Hint Resolve keeps_constrain_observed_creation : keeps.
Lemma keeps_constrain_creation path cond d r i : keeps (constrain_creation cf W path cond d r i).
Proof. unfold constrain_creation, created_by_this_grant. keeps_go. Qed.
Hint Resolve keeps_constrain_creation : keeps.
Lemma keeps_constrain_publication path cond p i : keeps (constrain_publication key cf W path cond p i).
Proof.
  assert (Hp : forall c, keeps (publish_held cf W path c i)) by (intros; unfold publish_held; keeps_go).
  intros c. unfold constrain_publication. unfold mbind at 1, method_bind at 1.
  destruct (recorded_lookup cf path p c) as [c1 [o|e]] eqn:E; unfold recorded_lookup in E; injection E as <- Eo; [|done].
  destruct o as [[l relative]|]; [|apply Hp].
  assert (El : s_lookups (ca_state c) = Some l) by (destruct (s_lookups (ca_state c)); [|done]; repeat case_match; congruence).
  destruct (creation_policy cf false); [apply Hp| |destruct (lookups_get key relative l) as [[]|]; try apply Hp; refine ((_ : keeps _) c); keeps_go].
  assert (Hl : R (ca_state c) (set_s_lookups (Some (lookups_claim key relative l).2) (ca_state c))).
  { apply (frame_claim _ l); [done|]. apply lookups_claim_claimed. }
  destruct (lookups_claim key relative l) as [claim l']. unfold mbind at 1, method_bind at 1. cbn [mod_s].
  etransitivity; [exact Hl|]. refine ((_ : keeps _) (set_ca_state _ c)). destruct claim; [|keeps_go|apply Hp]. unfold provide. keeps_go.
Qed.
Lemma keeps_constrain_update path cond d : keeps (constrain_update cf W path cond d).
Proof. unfold constrain_update, created_by_this_grant, pin_update. keeps_go. Qed.
Lemma keeps_constrain_inplace path b : keeps (constrain_inplace cf path b).
Proof. unfold constrain_inplace, created_by_this_grant. keeps_go. Qed.
Lemma keeps_require_publication_mode b m : keeps (require_publication_mode cf b m).
Proof. unfold require_publication_mode. keeps_go. Qed.
Lemma keeps_constrain_prepare path : keeps (constrain_prepare key cf W path).
Proof. unfold constrain_prepare, created_by_this_grant, looked_up_present. keeps_go. Qed.
Lemma keeps_forget_lookup path `{!ForgetFrame R} : keeps (forget_lookup key cf path).
Proof. unfold forget_lookup. apply keeps_mod_s. intros s. repeat case_match; [apply frame_forget|reflexivity..]. Qed.
End Frames.

#[export] Hint Resolve keeps_rooted_metadata keeps_check_deadline keeps_expected_hash keeps_mapping_parent keeps_check_observation_path
  keeps_outer_directory_condition keeps_check_mutation_allowed keeps_check_mutation_authority keeps_check_mapping_path
  keeps_check_mutation_path keeps_check_deletion keeps_check_metadata keeps_check_preparation_flags keeps_check_file_bytes
  keeps_batch_within_burst keeps_reserve_bytes keeps_constrain_observed_creation keeps_constrain_creation keeps_constrain_publication
  keeps_forget_lookup keeps_constrain_update keeps_constrain_inplace keeps_require_publication_mode keeps_constrain_prepare : keeps.

(** ** Operations and small files *)
Section Operations.
Context `{HashLib} {Gitignore : Type} (is_ignore : Gitignore -> PathBytes -> bool -> bool).
Context (key : PathBytes -> Z) (cf : Config (Gitignore := Gitignore)) (W : World).
Context (R : AuthState -> AuthState -> Prop) `{!StateFrame R}.
Abbreviation keeps := (keeps R).

Lemma keeps_metadata_kind op : keeps (metadata_kind cf W op).
Proof. unfold metadata_kind. keeps_go. Qed.
Hint Resolve keeps_metadata_kind : keeps.
Lemma keeps_check_op op : keeps (check_op is_ignore cf W op).
Proof. unfold check_op. keeps_go. Qed.
Hint Resolve keeps_check_op : keeps.
Lemma keeps_constrain_parent path c i : keeps (constrain_parent cf W path c i).
Proof. unfold constrain_parent. keeps_go. Qed.
Hint Resolve keeps_constrain_parent : keeps.
Lemma keeps_authorize_op i op `{!ForgetFrame R} : keeps (authorize_op is_ignore key cf W i op).
Proof.
  unfold authorize_op, authorize_hardlink, authorize_mkdir, authorize_set_meta, authorize_delete. keeps_go.
Qed.
Hint Resolve keeps_authorize_op : keeps.
Lemma keeps_authorize_hardlink path source dev ino cond i : keeps (authorize_hardlink is_ignore cf W path source dev ino cond i).
Proof. unfold authorize_hardlink. keeps_go. Qed.
Hint Resolve keeps_authorize_hardlink : keeps.
Lemma keeps_authorize_delete path d i `{!ForgetFrame R} : keeps (authorize_delete is_ignore key cf path d i).
Proof. unfold authorize_delete. keeps_go. Qed.
Hint Resolve keeps_authorize_delete : keeps.
Lemma keeps_authorize_apply_op i op `{!ForgetFrame R} : keeps (authorize_apply_op is_ignore key cf W i op).
Proof. unfold authorize_apply_op. keeps_go. Qed.
Hint Resolve keeps_authorize_apply_op : keeps.
Lemma keeps_authorize_put i put : keeps (authorize_put is_ignore key cf W i put).
Proof. unfold authorize_put. keeps_go. Qed.
Hint Resolve keeps_authorize_put : keeps.
Lemma keeps_authorize_patch i p : keeps (authorize_patch is_ignore cf W i p).
Proof. unfold authorize_patch. keeps_go. Qed.
Hint Resolve keeps_authorize_patch : keeps.
Lemma keeps_settle_hold k h r : keeps (settle_hold k h r).
Proof.
  intros c. unfold settle_hold. destruct h as [h|]; [|reflexivity]. unfold mbind, method_bind, get_s, expect, mod_s. cbn.
  destruct (settle_observation_reservation k h r (ca_state c)) as [s'|] eqn:E; cbn; [|reflexivity].
  apply frame_of; unfold settle_observation_reservation in E; repeat (case_match; simplify_option_eq; try done).
Qed.
Hint Resolve keeps_settle_hold : keeps.
Lemma keeps_release_patch_holds os : keeps (release_patch_holds os).
Proof. unfold release_patch_holds. keeps_go. Qed.
Hint Resolve keeps_release_patch_holds : keeps.
Lemma keeps_authorize_patch_batch patches : keeps (authorize_patch_batch is_ignore cf W patches).
Proof.
  intros c. unfold authorize_patch_batch.
  assert (Hk : keeps (authorize_patches is_ignore cf W patches)) by (unfold authorize_patches; keeps_go).
  specialize (Hk c). destruct (authorize_patches is_ignore cf W patches c) as [c1 [ps1|e]]; cbn in *; [done|].
  assert (Hr : keeps (rollback_patches (length (ca_outcomes c)))) by (unfold rollback_patches; keeps_go).
  specialize (Hr c1). etransitivity; [exact Hk|]. by destruct (rollback_patches _ c1) as [? [?|?]].
Qed.
Hint Resolve keeps_authorize_patch_batch : keeps.
Lemma keeps_authorize_small_file request flags i f : keeps (authorize_small_file is_ignore cf W request flags i f).
Proof. unfold authorize_small_file. keeps_go. Qed.
Hint Resolve keeps_authorize_small_file : keeps.
Lemma keeps_widen_directory i d `{!ForgetFrame R} : keeps (widen_directory is_ignore key cf W i d).
Proof. destruct d. cbn [widen_directory]. keeps_go. Qed.
Hint Resolve keeps_widen_directory : keeps.
End Operations.

#[export] Hint Resolve keeps_metadata_kind keeps_check_op keeps_constrain_parent keeps_authorize_op keeps_authorize_hardlink
  keeps_authorize_delete keeps_authorize_apply_op keeps_authorize_put keeps_authorize_patch keeps_settle_hold
  keeps_release_patch_holds keeps_authorize_patch_batch keeps_authorize_small_file keeps_widen_directory : keeps.
