(* ===== verification/AuthScopes.v ===== *)
(** * Where authorized requests may write

    The specification of each rewritten request's targets, that authorization
    meets it, and that targets in the signed scopes never reach the receiver's
    protected paths. *)

From stdpp Require Import strings.
From S2P Require Import Prelude Text Diagnostic Proto Hashing Mapping MappingGrant Grant Lookups AuthData Authority AuthPolicy AuthSettle AuthRequest AuthFrame AuthTame AuthInner AuthInv AuthAccounts AuthSystem AuthStream AuthConfined.
Local Open Scope Z_scope.

Section Scopes.
Context `{HashLib} {Gitignore : Type} (is_ignore : Gitignore -> PathBytes -> bool -> bool).
Context (from_json : list Z -> option WireEntry) (base64 : list Z -> option (list Z)).
Context (key : PathBytes -> Z) (cf : Config (Gitignore := Gitignore)) (W : World).

(** ** The specification *)

(** A canonical path inside a signed scope, in a grant that is not read-only. *)
Definition in_scope (path : PathBytes) : Prop :=
  co_dry_run (options cf) = false /\ validate_request_path path = Ok tt /\
  exists sc, sc ∈ scopes cf /\ scope_allows sc path = true.

(** Listed by the admitted mapping, where there is one, and not filtered out. *)
Definition listed (m : option Admission) (path : PathBytes) (is_dir : bool) : Prop :=
  match m with
  | Some a => exists p relative, permissions a = Ok p /\ mapping_relative cf path = Ok relative /\ allows p relative (Some is_dir) = true
  | None => True
  end /\ path_is_ignored is_ignore cf path is_dir = false.

Definition file_confined (m : option Admission) (path : PathBytes) : Prop := in_scope path /\ listed m path false.

(** Deletions need a grant that deletes and never take the destination itself. *)
Definition deletion_confined (m : option Admission) (path : PathBytes) (is_dir : bool) : Prop :=
  in_scope path /\ path <> destination cf /\ cp_deletion (policy cf) <> Forbid /\
  (fp_delete_excluded (cf_filters cf) = false -> listed m path is_dir).

Definition op_confined (m : option Admission) (op : Op) : Prop :=
  match op with
  | OpMkdir path _ _ => in_scope path /\ listed m path true
  | OpSymlink path _ _ _ _ => file_confined m path /\ co_preserve_symlinks (options cf) = true
  | OpMknod path _ _ _ _ _ => file_confined m path /\ co_preserve_devices (options cf) = true
  | OpSetFileMetaIfSame path _ _ _ => file_confined m path
  | OpSetMeta path _ flags _ _ =>
      (in_scope path /\ exists d, listed m path d) \/ (widened_outer cf = Some path /\ flags = RECEIVER_MODE)
  | OpHardlink path source _ _ _ => file_confined m path /\ file_confined m source /\ eo_hardlinks (cf_extra_options cf) = true
  | OpRemove _ => False
  | OpRmdir path => deletion_confined m path true
  | OpUnlink path => deletion_confined m path false
  end.

Definition request_confined (m : option Admission) (r : Request) : Prop :=
  match r with
  | RqApply ops => Forall (op_confined m) ops
  | RqPutSmallBatch puts => Forall (fun p => file_confined m (sp_path p)) puts
  | RqPatchSmallBatch patches => Forall (fun p => file_confined m (pa_path p)) patches
  | RqPatchBegin patch _ => file_confined m (pa_path patch)
  | RqPrepareSmallFiles request => Forall (fun f => file_confined m (sc_path f)) (sr_files request)
  | RqPrepare path _ _ _ _ _ _ _ _ | RqStageBasis path _ _ _ | RqSeedBasis path _ _ _ | RqFinishBasis _ path _ _ _
  | RqReuseComparedRange path _ _ _ | RqWriteRange path _ _ _ _ | RqFinalize _ path _ _ _ _ _ _ => file_confined m path
  | RqWidenDirectories directories _ _ =>
      Forall (fun d => in_scope d.1 /\ listed m d.1 true \/ widened_outer cf = Some d.1) directories
  | RqPrepareDestinationPath path links =>
      path = destination cf /\ links = SymlinkRefuse /\ eo_widen_dirs (cf_extra_options cf) = WidenAll /\ co_dry_run (options cf) = false
  | RqNewFileOwner _ probe => probe = true -> co_dry_run (options cf) = false
  | RqCopyLocal | RqNativeRemove | RqCreateOperatorDirectory | RqAnchorDestination | RqDescriptorCopy | RqBindStream => False
  | _ => True
  end.

(** ** The checks meet it *)
Lemma conf_check_mutation_allowed : confines (fun _ _ => co_dry_run (options cf) = false) (check_mutation_allowed cf).
Proof.
  unfold check_mutation_allowed. eapply conf_use; [apply conf_ensure|done|intros ?]. apply conf_skip; [done|intros s].
  eapply conf_weaken; [apply conf_ensure|]. intros ? ? _ E. by apply negb_true_iff in E.
Qed.

Lemma conf_check_mutation_authority path : confines (fun _ _ => in_scope path) (check_mutation_authority cf path).
Proof.
  unfold check_mutation_authority. eapply conf_use; [apply conf_check_mutation_allowed|auto with keeps|intros ?].
  eapply conf_use; [apply conf_lift|done|intros []]. eapply conf_weaken; [apply conf_ensure|].
  intros ? ? Hs Hv Hd. split; [done|]. split; [done|]. apply existsb_exists in Hs as (sc & Hsc & Ha). exists sc.
  split; [by apply list_elem_of_In|done].
Qed.

Lemma conf_check_mapping_path path d : confines (fun m _ => match m with
  | Some a => exists p relative, permissions a = Ok p /\ mapping_relative cf path = Ok relative /\ allows p relative (Some d) = true
  | None => True end) (check_mapping_path cf path (Some d)).
Proof.
  unfold check_mapping_path. eapply conf_use; [apply conf_get_s|done|intros s]. cbn beta. destruct (s_mapping s) as [a|].
  - eapply conf_use; [apply conf_lift|done|intros p]. eapply conf_use; [apply conf_lift|done|intros relative].
    eapply conf_weaken; [apply conf_ensure|]. intros m ? Ha Hr Hp Hm. cbn in *. subst m. by exists p, relative.
  - apply conf_ret. by intros m <-.
Qed.

Lemma conf_check_mutation_path path d : confines (fun m _ => in_scope path /\ listed m path d) (check_mutation_path is_ignore cf path d).
Proof.
  unfold check_mutation_path. eapply conf_use; [apply conf_check_mutation_authority|auto with keeps|intros ?].
  eapply conf_use; [apply conf_check_mapping_path|auto with keeps|intros ?]. eapply conf_weaken; [apply conf_ensure|].
  intros m ? Hi%negb_true_iff Hm Hs. by split.
Qed.

Lemma conf_check_file_bytes path off n : confines (fun m _ => file_confined m path) (check_file_bytes is_ignore cf W path off n).
Proof.
  unfold check_file_bytes. eapply conf_use; [apply conf_check_mutation_path|auto with keeps|intros ?].
  repeat (apply conf_skip; [done|intros ?]). intros c c' [] _. done.
Qed.

Lemma conf_check_deletion path d : confines (fun m _ => deletion_confined m path d) (check_deletion is_ignore cf path d).
Proof.
  unfold check_deletion. eapply conf_use; [apply conf_ensure|done|intros ?].
  apply (conf_use (fun m _ => in_scope path /\ (fp_delete_excluded (cf_filters cf) = false -> listed m path d))).
  - destruct (fp_delete_excluded (cf_filters cf)).
    + eapply conf_weaken; [apply conf_check_mutation_authority|]. by intros.
    + eapply conf_weaken; [apply conf_check_mutation_path|]. by intros ?? [? ?].
  - keeps_go.
  - intros []. eapply conf_weaken; [apply conf_ensure|]. intros m ? Hf%negb_true_iff%bool_decide_eq_false [Hs Hl] Hd%negb_true_iff%bool_decide_eq_false.
    by split_and!.
Qed.

End Scopes.

(** Skips the calls that only keep the mapping. *)
Ltac conf_go :=
  repeat match goal with
  | |- confines _ (mbind _ (check_mutation_path _ _ _ _)) => eapply conf_use; [apply conf_check_mutation_path|auto with keeps|intros ?]
  | |- confines _ (mbind _ (check_file_bytes _ _ _ _ _ _)) => eapply conf_use; [apply conf_check_file_bytes|auto with keeps|intros ?]
  | |- confines _ (mbind _ (ensure _ _)) => eapply conf_use; [apply conf_ensure|done|intros ?]
  | |- confines _ (mbind _ _) => apply conf_skip; [solve [keeps_go]|intros ?]
  | |- confines _ (mret _) => apply conf_ret; intros ?; cbn; try tauto
  | |- confines _ (bail _) => done
  | |- confines _ (m_fail _) => done
  | |- confines _ (let '(_, _) := ?x in _) => destruct x
  | |- confines _ (match ?x with _ => _ end) => destruct x
  end.

Section Confined.
Context `{HashLib} {Gitignore : Type} (is_ignore : Gitignore -> PathBytes -> bool -> bool).
Context (from_json : list Z -> option WireEntry) (base64 : list Z -> option (list Z)).
Context (key : PathBytes -> Z) (cf : Config (Gitignore := Gitignore)) (W : World).
Abbreviation in_scope := (in_scope cf).
Abbreviation listed := (listed is_ignore cf).
Abbreviation file_confined := (file_confined is_ignore cf).
Abbreviation op_confined := (op_confined is_ignore cf).
Abbreviation request_confined := (request_confined is_ignore cf).

Lemma conf_check_op op : confines (fun m kind => in_scope (op_path op) /\ listed m (op_path op) (op_is_dir op kind) /\
    match op with
    | OpSymlink _ _ _ _ _ => co_preserve_symlinks (options cf) = true
    | OpMknod _ _ _ _ _ _ => co_preserve_devices (options cf) = true
    | _ => True
    end) (check_op is_ignore cf W op).
Proof.
  unfold check_op. apply (conf_use (fun _ _ => match op with
    | OpSymlink _ _ _ _ _ => co_preserve_symlinks (options cf) = true
    | OpMknod _ _ _ _ _ _ => co_preserve_devices (options cf) = true
    | _ => True end)).
  - destruct op; try (by apply conf_ret); apply conf_ensure.
  - keeps_go.
  - intros ?. conf_go.
Qed.

Lemma conf_authorize_hardlink path source dev ino cond i :
  confines (fun m _ => file_confined m path /\ file_confined m source /\ eo_hardlinks (cf_extra_options cf) = true)
    (authorize_hardlink is_ignore cf W path source dev ino cond i).
Proof. unfold authorize_hardlink. conf_go; unfold AuthScopes.file_confined; tauto. Qed.

Lemma conf_authorize_delete path d i : confines (fun m _ => deletion_confined is_ignore cf m path d)
  (authorize_delete is_ignore key cf path d i).
Proof.
  unfold authorize_delete. eapply conf_use; [apply conf_check_deletion|auto with keeps|intros ?]. apply conf_skip; [auto with keeps|intros ?].
  by intros c c' ? _.
Qed.

(** Under what [check_op] established, an operation's rewriting keeps its path. *)
Lemma conf_authorize_op i op : confines (fun m op' => op_confined m op') (authorize_op is_ignore key cf W i op).
Proof.
  destruct op; cbn [authorize_op]; unfold authorize_mkdir, authorize_set_meta;
    try (eapply conf_use; [apply conf_check_op|auto with keeps|intros kind]; cbn [op_path op_is_dir]; unfold constrain_parent);
    try (conf_go; unfold AuthScopes.file_confined; tauto || naive_solver); try done.
  - eapply conf_use; [apply conf_authorize_hardlink|auto with keeps|intros ?]. by apply conf_ret.
  - eapply conf_use; [apply conf_authorize_delete|auto with keeps|intros ?]. by apply conf_ret.
  - eapply conf_use; [apply conf_authorize_delete|auto with keeps|intros ?]. by apply conf_ret.
Qed.

Lemma conf_authorize_apply_op i op : confines (fun m op' => op_confined m op') (authorize_apply_op is_ignore key cf W i op).
Proof.
  destruct op; cbn [authorize_apply_op]; try apply conf_authorize_op.
  destruct (bool_decide _) eqn:E; [|apply conf_authorize_op]. apply bool_decide_eq_true in E. apply conf_ret. intros m. by right.
Qed.

(** ** Whole requests *)

Lemma conf_authorize_put i put : confines (fun m p => file_confined m (sp_path p)) (authorize_put is_ignore key cf W i put).
Proof. unfold authorize_put. conf_go. Qed.

Lemma conf_authorize_puts puts : confines (fun m ps => Forall (fun p => file_confined m (sp_path p)) ps) (authorize_puts is_ignore key cf W puts).
Proof.
  unfold authorize_puts. apply conf_skip; [keeps_go|intros ?]. apply conf_skip; [auto with keeps|intros ?].
  apply (conf_for_each_mut (fun m p => file_confined m (sp_path p))); [solve [intros; auto with keeps]|apply conf_authorize_put].
Qed.

Lemma conf_authorize_patch i p : confines (fun m p => file_confined m (pa_path p)) (authorize_patch is_ignore cf W i p).
Proof. unfold authorize_patch. conf_go. Qed.

Lemma conf_authorize_patch_batch patches :
  confines (fun m ps => Forall (fun p => file_confined m (pa_path p)) ps) (authorize_patch_batch is_ignore cf W patches).
Proof.
  intros c c' ps. unfold authorize_patch_batch. destruct (authorize_patches is_ignore cf W patches c) as [c1 [ps1|e]] eqn:E.
  2:{ destruct (rollback_patches _ c1) as [? [?|?]]; congruence. }
  intros [= <- <-]. revert E.
  assert (Hc : confines (fun m ps => Forall (fun p => file_confined m (pa_path p)) ps) (authorize_patches is_ignore cf W patches)); [|apply Hc].
  unfold authorize_patches. apply conf_skip; [done|intros ?]. apply conf_skip; [auto with keeps|intros ?].
  apply (conf_for_each_mut (fun m p => file_confined m (pa_path p))); [solve [intros; auto with keeps]|apply conf_authorize_patch].
Qed.

Lemma conf_authorize_small_file request flags i f : confines (fun m f' => f' = f /\ file_confined m (sc_path f'))
  (authorize_small_file is_ignore cf W request flags i f).
Proof. unfold authorize_small_file. conf_go. Qed.

Lemma conf_small_files request flags files i : confines (fun m _ => Forall (fun f => file_confined m (sc_path f)) files)
  (for_each_mut (authorize_small_file is_ignore cf W request flags) i files).
Proof.
  revert i. induction files as [|f files IH]; intros i; [by apply conf_ret|]. cbn [for_each_mut].
  eapply conf_use; [apply conf_authorize_small_file|solve [intros; auto with keeps]|intros f'].
  eapply conf_use; [apply IH|solve [keeps_go]|intros fs].
  apply conf_ret. intros m Hfs [-> Hf]. by constructor.
Qed.

Lemma conf_widen_directory i d :
  confines (fun m d' => in_scope d'.1 /\ listed m d'.1 true \/ widened_outer cf = Some d'.1) (widen_directory is_ignore key cf W i d).
Proof.
  destruct d as [path cond]. cbn [widen_directory]. destruct (bool_decide _) eqn:E.
  - apply bool_decide_eq_true in E. apply conf_skip; [auto with keeps|intros c]. apply conf_ret. intros m. by right.
  - apply conf_skip; [done|intros ?]. intros c c' d (c1 & op & E1 & E2)%method_bind_Ok.
    pose proof (authorize_op_mkdir _ _ _ _ _ _ _ _ _ _ _ E1) as (m' & cond' & ->). apply conf_authorize_op in E1. cbn in E1.
    injection E2 as <- <-. by left.
Qed.

Lemma conf_always {A} (Q : option Admission -> A -> Prop) (m : method Call AuthError A) : returns (fun a => forall mp, Q mp a) m -> confines Q m.
Proof. intros Hr c c' a E. by eapply Hr. Qed.

Lemma conf_allow_probe b : confines (fun _ b' => b' = true -> co_dry_run (options cf) = false) (allow_probe cf b).
Proof.
  intros c c' b'. unfold allow_probe. destruct (check_mutation_allowed cf c) as [c1 [u|e]] eqn:E; intros [= <- <-] Hb; [|done].
  by apply conf_check_mutation_allowed in E.
Qed.

Lemma conf_bind_files {A B} (P : option Admission -> A -> Prop) (m : method Call AuthError A) (k : A -> method Call AuthError B) Q :
  confines P m -> (forall a c c' b, k a c = (c', Ok b) -> forall mp, P mp a -> Q mp b) -> confines Q (m ≫= k).
Proof. intros Hm Hk c c' b (c1 & a & E & E')%method_bind_Ok. eapply Hk; [exact E'|]. by apply Hm in E. Qed.

Lemma authorize_inner_confined over_ssh r :
  confines (fun m r' => request_confined m r') (authorize_inner is_ignore from_json base64 key cf W over_ssh r).
Proof.
  unfold authorize_inner. apply conf_skip; [auto with keeps|intros ?].
  destruct r; try (apply conf_always; returns_go; fail).
  - (* Apply *) eapply conf_bind_files; [apply conf_for_each_mut; [solve [intros; auto with keeps]|apply conf_authorize_apply_op]|].
    by intros ops' c c' r' [= _ <-].
  - (* Prepare *) apply (conf_bind_files (fun m _ => file_confined m path)); [|by intros ? c c' r' [= _ <-]].
    unfold authorize_prepare. conf_go. by intros c c' ? _.
  - (* FinishBasis *) unfold authorize_finish_basis. conf_go; unfold AuthScopes.file_confined; tauto.
  - (* SeedBasis *) apply (conf_bind_files (fun m _ => file_confined m path)); [|by intros ? c c' r' [= _ <-]].
    unfold authorize_basis. conf_go. by intros c c' ? _.
  - (* WriteRange *) conf_go.
  - (* Finalize *) unfold authorize_finalize. conf_go; unfold AuthScopes.file_confined; tauto.
  - (* PutSmallBatch *) eapply conf_bind_files; [apply conf_authorize_puts|]. by intros ps c c' r' [= _ <-].
  - (* PrepareSmallFiles *) unfold authorize_small_copy.
    apply (conf_bind_files (fun m _ => Forall (fun f => file_confined m (sc_path f)) (sr_files request))); [|by intros ? c c' r' [= _ <-]].
    do 5 (apply conf_skip; [solve [keeps_go]|intros ?]). eapply conf_bind_files; [apply conf_small_files|]. by intros ? c c' r' [= _ <-].
  - (* StageBasis *) apply (conf_bind_files (fun m _ => file_confined m path)); [|by intros ? c c' r' [= _ <-]].
    unfold authorize_basis. conf_go. by intros c c' ? _.
  - (* ReuseComparedRange *) conf_go; unfold AuthScopes.file_confined; tauto.
  - (* PatchSmallBatch *) eapply conf_bind_files; [apply conf_authorize_patch_batch|]. by intros ps c c' r' [= _ <-].
  - (* PatchBegin *) apply conf_skip; [unfold check_stream_begin; keeps_go|intros ?].
    eapply conf_bind_files; [apply conf_authorize_patch_batch|]. intros ps c c' r' E mp Hp.
    destruct ps as [|p [|? ?]]; try done. injection E as _ <-. by apply Forall_cons in Hp as [? _].
  - (* WidenDirectories *) apply conf_skip; [unfold check_widening; keeps_go|intros ?].
    eapply conf_bind_files; [apply conf_for_each_mut; [solve [intros; auto with keeps]|apply conf_widen_directory]|]. by intros ds c c' r' [= _ <-].
  - (* PrepareDestinationPath *) eapply conf_use; [apply conf_ensure|done|intros ?].
    eapply conf_use; [apply conf_check_mutation_allowed|auto with keeps|intros ?]. apply conf_skip; [done|intros ?].
    apply conf_ret. intros m Hd Hw%bool_decide_eq_true. done.
  - (* NewFileOwner *) apply conf_skip; [auto with keeps|intros ?]. eapply conf_bind_files; [apply conf_allow_probe|].
    by intros b c c' r' [= _ <-].
Qed.
End Confined.
