(* ===== verification/AuthProps.v ===== *)
(** * What a restricted receiver lets a sender change

    Whole requests, from [authorize_streaming]: targets stay in the signed scopes
    and out of the receiver's own paths, a read-only grant changes nothing but
    what an approved widening names, and a streamed patch stays within its
    declaration. *)

From stdpp Require Import strings.
From S2P Require Import Prelude Text Diagnostic Proto Hashing Mapping MappingGrant Grant Lookups AuthData Authority AuthPolicy AuthSettle AuthRequest AuthFrame AuthTame AuthInner AuthInv AuthAccounts AuthSystem AuthSample AuthStream AuthConfined AuthScopes.
Local Open Scope Z_scope.

(** The paths a request asks the executor to change. *)
Definition op_written (op : Op) : list PathBytes :=
  match op with OpHardlink path source _ _ _ => [path; source] | _ => [op_path op] end.

(** [PrepareDestinationPath] is not among them: it opens up the directories on
    the way to the destination, which lie outside the scopes by design.  That its
    path is the signed destination, under an approved [all] widening of a grant
    that is not read-only, is part of [request_confined]. *)
Definition written_paths (r : Request) : list PathBytes :=
  match r with
  | RqApply ops => mjoin (op_written <$> ops)
  | RqPutSmallBatch puts => sp_path <$> puts
  | RqPatchSmallBatch patches => pa_path <$> patches
  | RqPatchBegin patch _ => [pa_path patch]
  | RqPrepareSmallFiles request => sc_path <$> sr_files request
  | RqPrepare path _ _ _ _ _ _ _ _ | RqStageBasis path _ _ _ | RqSeedBasis path _ _ _ | RqFinishBasis _ path _ _ _
  | RqReuseComparedRange path _ _ _ | RqWriteRange path _ _ _ _ | RqFinalize _ path _ _ _ _ _ _ => [path]
  | RqWidenDirectories directories _ _ => directories.*1
  | _ => []
  end.

(** The grant with another choice of being read-only. *)
Definition with_dry_run {Gitignore} (dry_run : bool) (cf : Config (Gitignore := Gitignore)) : Config (Gitignore := Gitignore) :=
  let c := cf_copy cf in
  let o := c_options c in
  let o := mkOptions (co_recursive o) (co_preserve_symlinks o) (co_preserve_permissions o) (co_receiver_managed_modes o)
             (co_preserve_times o) (co_preserve_owner o) (co_preserve_group o) (co_preserve_devices o)
             (co_compare_existing_by_content o) dry_run (co_compressed_transport o) (co_tcp_port_lo o) (co_tcp_port_hi o) in
  mkConfig (cf_root_path cf) (mkCopy (c_destination c) (c_mutation_scopes c) (c_policy c) o (c_limits c)) (cf_filters cf)
    (cf_filter_matcher cf) (cf_root_existence cf) (cf_file_data_rate cf) (cf_deadline cf) (cf_tcp_congestion cf) (cf_hashing cf)
    (cf_extra_options cf).

(** ** Paths *)
Lemma strip_prefix_iff p l rest : strip_prefix p l = Some rest <-> l = p ++ rest.
Proof.
  revert l. induction p as [|x p IH]; intros l; cbn; [naive_solver|]. destruct l as [|y l]; [naive_solver|].
  case_decide; subst; [rewrite IH|]; naive_solver.
Qed.

Lemma strictly_below_spec path prefix : strictly_below path prefix = true <-> exists rest, path = prefix ++ slash :: rest.
Proof.
  unfold strictly_below. destruct (strip_prefix prefix path) as [rest|] eqn:E.
  - apply strip_prefix_iff in E as ->. destruct rest as [|b rest].
    + split; [done|]. intros (r & E). rewrite app_nil_r in E. apply (f_equal length) in E. rewrite length_app in E. cbn in E. lia.
    + rewrite bool_decide_eq_true. split; [intros ->; eauto|]. intros (r & E%app_inv_head). naive_solver.
  - split; [done|]. intros (r & Hr). apply strip_prefix_iff in Hr. congruence.
Qed.

Lemma at_or_below_spec path prefix : path_is_at_or_below path prefix = true <->
  path = prefix \/ strictly_below path prefix = true \/ (prefix = [slash] /\ exists rest, path = slash :: rest).
Proof.
  unfold path_is_at_or_below. rewrite strictly_below_spec, orb_true_iff, bool_decide_eq_true.
  destruct (strip_prefix prefix path) as [rest|] eqn:E.
  - apply strip_prefix_iff in E as ->. rewrite orb_true_iff, !bool_decide_eq_true. split.
    + intros [?|[->|Hh]]; [by left|by right; right; eauto|]. right; left. destruct rest; cbn in Hh; naive_solver.
    + intros [?|[[r Hr%app_inv_head]|[-> _]]]; [by left| |by right; left]. subst. by right; right.
  - split; [intros [?|?]; [by left|done]|]. intros [?|[[r Hr]|[-> [r Hr]]]]; [by left| |]; exfalso.
    + apply strip_prefix_iff in Hr. congruence.
    + assert (Hs : strip_prefix [slash] path = Some r) by by apply strip_prefix_iff. congruence.
Qed.

(** Two prefixes of one path are above one another. *)
Lemma prefixes_comparable (a b x y : list Z) : a ++ slash :: x = b ++ slash :: y ->
  a = b \/ (exists r, a = b ++ slash :: r) \/ (exists r, b = a ++ slash :: r).
Proof.
  revert b. induction a as [|c a IH]; intros [|d b] E; cbn in E; [by left|injection E as <- E..].
  - right; right. by exists b.
  - right; left. by exists a.
  - destruct (IH b E) as [->|[[r ->]|[r ->]]]; [by left|right; left; by exists r|right; right; by exists r].
Qed.

(** A path a signed scope covers is not at or below a protected one, once the
    scope was not refused. *)
Lemma scope_spares_control sc protected control path :
  reject_control_plane_scope (ms_path sc) (ms_descendants sc) protected = Ok tt -> control ∈ protected ->
  scope_allows sc path = true -> path_is_at_or_below path (rc_path control) = false.
Proof.
  unfold reject_control_plane_scope, scope_allows. intros Hr Hin Ha. apply not_true_iff_false. intros Hb.
  destruct (ms_descendants sc); cbn in Ha.
  - assert (Hone : path_is_at_or_below (ms_path sc) (rc_path control) = false /\ path_is_at_or_below (rc_path control) (ms_path sc) = false).
    { unfold reject_control_plane_path in Hr. revert Hr. induction Hin as [x l|x y l Hin IH]; cbn;
        intros (u & Hx & Hrest)%result_bind_Ok; [|by apply IH].
      apply result_bind_Ok in Hx as (v & H1%require_Ok & H2%require_Ok). by rewrite <- negb_true_iff, <- (negb_true_iff (path_is_at_or_below _ (ms_path sc))). }
    destruct Hone as [N1 N2]. rewrite orb_true_iff, bool_decide_eq_true, strictly_below_spec in Ha.
    destruct Ha as [->|[x Hx]]; [congruence|]. apply at_or_below_spec in Hb. rewrite strictly_below_spec in Hb.
    apply not_true_iff_false in N1, N2. rewrite at_or_below_spec, strictly_below_spec in N1, N2. destruct Hb as [Hb|[[y Hy]|[Hc [y Hy]]]].
    + apply N2. right; left. exists x. congruence.
    + destruct (prefixes_comparable (ms_path sc) (rc_path control) x y) as [E|[[r E]|[r E]]]; [congruence|apply N1; by left|apply N1|apply N2]; eauto.
    + rewrite Hc in *. destruct (ms_path sc) as [|b p] eqn:Ep; [apply N2; right; left; by exists []|].
      rewrite Hx in Hy. cbn in Hy. injection Hy as -> _. apply N1. right; right. eauto.
  - apply require_Ok, negb_true_iff in Hr. rewrite orb_false_r in Ha. apply bool_decide_eq_true in Ha as ->.
    apply not_true_iff_false in Hr. apply Hr, existsb_exists. exists control. split; [by apply list_elem_of_In|done].
Qed.

Lemma validate_each_Ok {A} (f : A -> mres unit) l : validate_each f l = Ok tt -> forall x, x ∈ l -> f x = Ok tt.
Proof.
  induction l as [|x l IH]; cbn; [set_solver|]. intros ([] & Hx & Hl)%result_bind_Ok y [->|Hy]%elem_of_cons; auto.
Qed.

Section Props.
Context `{HashLib} {Gitignore : Type} (is_ignore : Gitignore -> PathBytes -> bool -> bool).
Context (from_json : list Z -> option WireEntry) (base64 : list Z -> option (list Z)).
Context (key : PathBytes -> Z) (cf : Config (Gitignore := Gitignore)) (W : World).
Abbreviation authorize := (authorize_streaming is_ignore from_json base64 key cf W).

(** ** Settling keeps the mapping *)
Lemma mapping_record_change path ch e s : s_mapping (record_change cf path ch e s) = s_mapping s.
Proof. unfold record_change, emit. repeat case_match; done. Qed.
Lemma mapping_record_retried path ch e s : s_mapping (record_retried cf path ch e s) = s_mapping s.
Proof. unfold record_retried, emit. repeat case_match; done. Qed.

Abbreviation keeps := (keeps same_mapping).

Lemma keeps_kind_there path : keeps (kind_there cf W path).
Proof.
  intros c. pose proof (keeps_rooted_metadata cf W same_mapping path c) as Hk. unfold kind_there.
  by destruct (rooted_metadata cf W path c) as [c' [[m|]|e]].
Qed.
Hint Resolve keeps_kind_there : keeps.

Lemma keeps_settle_outcome rs b o : keeps (settle_outcome cf W rs b o).
Proof.
  destruct o; cbn [settle_outcome]; unfold settle_patch, settle_file_stage; keeps_go;
    try (apply keeps_mod_s; intros s; first [apply mapping_record_change|apply mapping_record_retried]).
  all: apply keeps_mod_s; intros s; red.
  - unfold settle_lifecycle. repeat case_match; try done. by rewrite mapping_record_change.
  - unfold settle_small_copy. repeat case_match; done || apply mapping_record_change.
Qed.

Lemma mapping_refund ch rs s : s_mapping (refund_unmade ch rs s) = s_mapping s.
Proof. unfold refund_unmade, release_file. repeat case_match; done. Qed.

Lemma mapping_creations rs l s : s_mapping (foldl (fun s p => settle_creation rs p s) s l) = s_mapping s.
Proof.
  revert s. induction l as [|p l IH]; intros s; [done|]. cbn. rewrite IH. unfold settle_creation. by case_match.
Qed.

Lemma keeps_settle st rs : keeps (settle cf W st rs).
Proof.
  destruct st. unfold settle. apply keeps_seq; [exact _|apply keeps_mod_s; intros; apply mapping_refund|intros _].
  keeps_go; [apply keeps_mod_s; intros; apply mapping_creations|apply keeps_settle_outcome].
Qed.

Lemma keeps_settle_unexecuted st m : keeps (settle_unexecuted cf W st m).
Proof.
  unfold settle_unexecuted. keeps_go; [|apply keeps_settle]. apply keeps_mod_s. intros s. unfold release_file. repeat case_match; done.
Qed.

Lemma keeps_before r : keeps (_ ← end_small_copy cf W r; admit_request cf W r).
Proof.
  unfold end_small_copy, admit_request, check_control, control_is_open, now, get_g, set_small_copy. keeps_go; try done. apply keeps_settle_unexecuted.
Qed.

(** ** Up to the check, no streamed patch is opened, closed or advanced *)
Definition steady {A} (m : method Call AuthError A) : Prop := forall c, g_open (ca_gate (m c).1) = g_open (ca_gate c).

Lemma steady_seq {A B} (m : method Call AuthError A) (k : A -> method Call AuthError B) :
  steady m -> (forall a, steady (k a)) -> steady (m ≫= k).
Proof.
  intros Hm Hk c. specialize (Hm c). unfold mbind, method_bind. destruct (m c) as [c' [a|e]]; cbn in *; [|done]. by rewrite Hk.
Qed.
Lemma steady_for_each {A} (f : A -> method Call AuthError unit) l : (forall x, steady (f x)) -> steady (for_each f l).
Proof. intros Hf. induction l as [|x l IH]; [done|]. by apply steady_seq. Qed.

Ltac steady_go :=
  repeat match goal with
  | |- steady (mbind _ _) => apply steady_seq; [|intros ?]
  | |- steady (for_each _ _) => apply steady_for_each; intros ?
  | |- steady (if ?b then _ else _) => destruct b
  | |- steady (match ?x with _ => _ end) => destruct x
  | |- steady _ => by intros ?
  end.

Lemma steady_rooted_metadata path : steady (rooted_metadata cf W path).
Proof. unfold rooted_metadata, ask. steady_go. Qed.

Lemma steady_kind_there path : steady (kind_there cf W path).
Proof.
  intros c. pose proof (steady_rooted_metadata path c) as Hk. unfold kind_there.
  by destruct (rooted_metadata cf W path c) as [c' [[m|]|e]].
Qed.

Lemma steady_settle_outcome rs b o : steady (settle_outcome cf W rs b o).
Proof.
  destruct o; cbn [settle_outcome]; unfold settle_patch, settle_file_stage, settle_hold; steady_go; try apply steady_kind_there.
  all: intros c; unfold expect; by case_match.
Qed.

Lemma steady_settle_unexecuted st m : steady (settle_unexecuted cf W st m).
Proof.
  unfold settle_unexecuted. steady_go. destruct st. unfold settle. cbn zeta. steady_go. apply steady_settle_outcome.
Qed.

Lemma steady_before r : steady (_ ← end_small_copy cf W r; admit_request cf W r).
Proof.
  unfold end_small_copy, admit_request, check_control, control_is_open, now, ask. steady_go; try apply steady_settle_unexecuted.
Qed.

Lemma steady_check_deadline : steady (check_deadline cf W).
Proof. unfold check_deadline, now, ask. steady_go. Qed.

(** The request that was checked. *)
Lemma admitted_inv over_ssh r c c' r' st : authorize_admitted is_ignore from_json base64 key cf W over_ssh r c = (c', Ok (r', st)) ->
  exists c2, authorize_inner is_ignore from_json base64 key cf W over_ssh r c = (c2, Ok r') /\
    exists c3, authorize_stream is_ignore cf W r' c2 = (c3, Ok tt) /\ ca_gate c' = ca_gate c3.
Proof.
  unfold authorize_admitted. intros E. destruct (authorize_checked _ _ _ _ _ _ _ _ c) as [c5 [[r5 ch]|e]] eqn:Ea.
  2:{ destruct e; try destruct (refuse _ _ _ _ _) as [? [?|?]]; done. }
  injection E as <- <- <-. unfold authorize_checked in Ea. apply method_bind_Ok in Ea as (c2 & r2 & E2 & Ea).
  apply method_bind_Ok in Ea as (c3 & [] & E3 & Ea). apply method_bind_Ok in Ea as (c4 & ch' & E4 & [= <- <- <-]).
  exists c2. split; [done|]. exists c3. split; [done|].
  revert E4. unfold charge_request. rewrite bind_get_s. destruct (match charged_file r2 with Some _ => _ | None => _ end) as [[file fresh] own].
  destruct (request_counts r2 own) as [n b]. cbn zeta. unfold mbind, method_bind, context, lift, mod_s, expect.
  destruct (charge_counter (s_changes _) _ _); cbn; [|done]. destruct (charge_counter (s_deletions _) _ _); cbn; [|done].
  destruct (charge_counter (s_transferred_bytes _) _ _); cbn; [|done].
  destruct file as [[k i]|]; cbn; [|by intros [= <- _]]. destruct (s_reserved _ !! k); cbn; [|done]. by intros [= <- _].
Qed.

(** And the mapping and the open patch it was checked against. *)
Lemma authorize_inv over_ssh r c c' r' st : authorize over_ssh r c = (c', Ok (r', st)) ->
  exists c1 c2, (s_mapping (ca_state c1) = s_mapping (ca_state c) /\ g_open (ca_gate c1) = g_open (ca_gate c)) /\
    authorize_inner is_ignore from_json base64 key cf W over_ssh r c1 = (c2, Ok r') /\
    (exists c3, authorize_stream is_ignore cf W r' c2 = (c3, Ok tt) /\ ca_gate c' = ca_gate c3).
Proof.
  unfold authorize_streaming. intros (c0 & [] & E0 & E)%method_bind_Ok. apply method_bind_Ok in E as (c1 & [] & E1 & E).
  apply admitted_inv in E as (c2 & E & Hs). exists c1, c2. split; [|done].
  pose proof (keeps_before r c) as Hk. pose proof (steady_before r c) as Hg. unfold mbind, method_bind in Hk, Hg.
  by rewrite E0, E1 in Hk, Hg.
Qed.

(** C3. What an authorized request may change lies in the signed scopes, is
    listed by the admitted mapping and not filtered out; deletions need a grant
    that deletes and spare the destination; links and special files need their
    options; the directory the copy goes into changes only under an approved
    widening, and its metadata only as the receiver chooses; nothing is copied
    locally, created or removed outside these. *)
Theorem authorized_changes_are_confined over_ssh r c c' r' st :
  authorize over_ssh r c = (c', Ok (r', st)) -> request_confined is_ignore cf (s_mapping (ca_state c)) r'.
Proof.
  intros (c1 & c2 & [Hm _] & E & _)%authorize_inv. apply authorize_inner_confined in E. by rewrite Hm in E.
Qed.

(** Each written path is in scope or the widened directory. *)
Lemma written_in_scope m r path : request_confined is_ignore cf m r -> path ∈ written_paths r ->
  in_scope cf path \/ widened_outer cf = Some path.
Proof.
  unfold file_confined. destruct r; cbn; try (by intros _ ?%elem_of_nil); unfold file_confined.
  all: try (intros [Hs _] ->%list_elem_of_singleton; by left).
  all: try (intros Hall Hp; apply list_elem_of_fmap in Hp as (x & -> & Hx); eapply Forall_forall in Hall; [|exact Hx]; cbn in Hall; tauto).
  intros Hall Hp. apply list_elem_of_join in Hp as (l & Hp & Hl). apply list_elem_of_fmap in Hl as (op & -> & Hop).
  eapply Forall_forall in Hall; [|exact Hop].
  destruct op; cbn in Hp; rewrite ?elem_of_cons in Hp;
    repeat match goal with X : _ \/ _ |- _ => destruct X | X : _ ∈ [] |- _ => by apply elem_of_nil in X end; subst;
    unfold op_confined, deletion_confined, file_confined in Hall; tauto.
Qed.

(** C22. A grant whose scopes were not refused at the receiver's protected paths
    never leads to a change at or below one of them, but for the directory an
    approved widening names. *)
Theorem authorized_changes_spare_protected_paths over_ssh r c c' r' st protected path control :
  reject_control_plane_scopes (cf_copy cf) protected = Ok tt ->
  authorize over_ssh r c = (c', Ok (r', st)) -> path ∈ written_paths r' -> widened_outer cf <> Some path ->
  control ∈ protected -> path_is_at_or_below path (rc_path control) = false.
Proof.
  intros Hr (c1 & c2 & _ & E & _)%authorize_inv Hp Hw Hc. apply authorize_inner_confined in E.
  destruct (written_in_scope _ _ _ E Hp) as [(_ & _ & sc & Hsc & Ha)|?]; [|done].
  eapply scope_spares_control; [|exact Hc|exact Ha]. by apply (validate_each_Ok _ _ Hr).
Qed.

(** C29. Under a read-only grant an authorized request writes to no path, but for
    the directory an approved widening names, prepares no path to the destination
    and probes nothing. *)
Theorem read_only_grants_change_nothing over_ssh r c c' r' st path :
  co_dry_run (options cf) = true -> authorize over_ssh r c = (c', Ok (r', st)) ->
  (path ∈ written_paths r' -> widened_outer cf = Some path) /\
  (forall p links, r' <> RqPrepareDestinationPath p links) /\ (forall p, r' <> RqNewFileOwner p true).
Proof.
  intros Hd (c1 & c2 & _ & E & _)%authorize_inv. apply authorize_inner_confined in E. split_and!.
  - intros Hp. destruct (written_in_scope _ _ _ E Hp) as [(Hd' & _)|?]; [congruence|done].
  - intros p links ->. cbn in E. destruct E as (_ & _ & _ & Hd'). congruence.
  - intros p ->. specialize (E eq_refl). congruence.
Qed.

(** C35. A piece of a streamed patch is authorized only while a patch is open on
    the connection, and leaves that same patch open, for the same file, with
    the length it declared and what settles it, and with exactly the piece's
    length added to what was received; the file is one the grant lets it write,
    and what was received stays within what the patch declared and the signed
    bound on a file. *)
Theorem streamed_data_within_declaration over_ssh data c c' r' st :
  authorize over_ssh (RqPatchData data) c = (c', Ok (r', st)) ->
  exists o o', g_open (ca_gate c) = Some o /\ g_open (ca_gate c') = Some o' /\ file_confined is_ignore cf (s_mapping (ca_state c)) (op_file o) /\
    op_file o' = op_file o /\ op_declared o' = op_declared o /\ op_settlement o' = op_settlement o /\
    op_received o' = op_received o + lenZ data /\ op_received o' <= op_declared o' /\
    op_received o' <= cl_max_file_bytes (limits cf).
Proof.
  intros (c1 & c2 & [Hm Ho1] & E & c3 & E3 & Hg)%authorize_inv. rewrite Hg.
  assert (r' = RqPatchData data /\ s_mapping (ca_state c2) = s_mapping (ca_state c1) /\ g_open (ca_gate c2) = g_open (ca_gate c1))
    as (-> & Hm2 & Ho2).
  { unfold authorize_inner in E. pose proof (keeps_check_deadline cf W same_mapping c1) as Hk.
    pose proof (steady_check_deadline c1) as Hs. unfold mbind, method_bind in E.
    destruct (check_deadline cf W c1) as [c4 [[]|e]]; [|done]. injection E as <- <-. done. }
  unfold authorize_stream in E3. apply method_bind_Ok in E3 as (c4 & g & [= <- <-] & E3).
  apply method_bind_Ok in E3 as (c5 & o & Eo & E3). unfold context, lift in Eo. injection Eo as <- Eo.
  destruct (g_open (ca_gate c2)) as [o2|] eqn:Eo2; [|done]. injection Eo as ->. rewrite Ho1 in Ho2.
  apply method_bind_Ok in E3 as (c6 & received & Er & E3). unfold context, lift in Er. injection Er as <- Er.
  apply method_bind_Ok in E3 as (c7 & [] & Ec & E3). injection E3 as <-.
  destruct (u64_add (op_received o) (lenZ data)) as [n|] eqn:En; [|done]. cbn in Er. case_decide as Hd; [|done]. injection Er as ->.
  pose proof (conf_check_file_bytes is_ignore cf W (op_file o) (op_received o) (lenZ data) _ _ _ Ec) as Hf. cbn in Hf. rewrite Hm2, Hm in Hf.
  unfold u64_add in En. case_decide; [|done]. injection En as <-.
  exists o, (mkOpenPatch (op_file o) (op_declared o) (op_received o + lenZ data) (op_settlement o)). cbn. split_and!; try done.
  unfold check_file_bytes in Ec. apply method_bind_Ok in Ec as (? & ? & _ & Ec). apply method_bind_Ok in Ec as (? & ? & _ & Ec).
  apply method_bind_Ok in Ec as (? & end_ & Ee & Ec). apply method_bind_Ok in Ec as (? & ? & Em & _).
  apply m_ensure_Ok in Em as [Em _]. unfold context, lift, u64_add in Ee. rewrite decide_True in Ee by done. injection Ee as _ <-.
  apply negb_true_iff, bool_decide_eq_false in Em. lia.
Qed.

(** Under an approved [all] widening, whether the grant is read-only makes no
    difference to the directory the copy goes into: a request to widen it, or to
    set its metadata, is authorized alike. *)
Theorem outer_widening_ignores_read_only over_ssh dry_run path condition remember access meta flags directory c :
  widened_outer cf = Some path ->
  let cf' := with_dry_run dry_run cf in
  let inner := authorize_inner is_ignore from_json base64 key in
  inner cf' W over_ssh (RqWidenDirectories [(path, condition)] remember access) c =
    inner cf W over_ssh (RqWidenDirectories [(path, condition)] remember access) c /\
  inner cf' W over_ssh (RqApply [OpSetMeta path meta flags condition directory]) c =
    inner cf W over_ssh (RqApply [OpSetMeta path meta flags condition directory]) c.
Proof.
  intros Hw. assert (Hw' : widened_outer (with_dry_run dry_run cf) = Some path) by exact Hw. cbn zeta. unfold authorize_inner.
  assert (E1 : for_each_mut (widen_directory is_ignore key (with_dry_run dry_run cf) W) 0 [(path, condition)] =
               for_each_mut (widen_directory is_ignore key cf W) 0 [(path, condition)]).
  { cbn. by rewrite Hw, Hw', !bool_decide_eq_true_2 by done. }
  assert (E2 : for_each_mut (authorize_apply_op is_ignore key (with_dry_run dry_run cf) W) 0 [OpSetMeta path meta flags condition directory] =
               for_each_mut (authorize_apply_op is_ignore key cf W) 0 [OpSetMeta path meta flags condition directory]).
  { cbn. by rewrite Hw, Hw', !bool_decide_eq_true_2 by done. }
  rewrite E1, E2. done.
Qed.
End Props.

(** ** On the sample *)
#[local] Existing Instance sum_lib.

Abbreviation sample_authorize cf g r :=
  (authorize_streaming no_ignore no_entry no_text sum_key cf sample_world false r (begin_call (Authority_new cf None) g)).
Definition sample_authorized (cf : Config) (g : PatchStreamGate) (r : Request) : option Request :=
  match sample_authorize cf g r with (_, Ok (r', _)) => Some r' | _ => None end.

Lemma sample_authorized_inv cf g r r' : sample_authorized cf g r = Some r' -> exists c' st, sample_authorize cf g r = (c', Ok (r', st)).
Proof.
  unfold sample_authorized. destruct (sample_authorize cf g r) as [c' [[r1 st]|e]]; [|done]. intros [= <-]. by exists c', st.
Qed.

Lemma authorized_changes_are_confined_witness :
  request_confined no_ignore sample_copying None (RqApply [OpUnlink (bs "/d/t/g"); OpSymlink (bs "/d/t/l") (bs "g") Any sample_meta MODE]).
Proof.
  destruct (sample_authorized_inv sample_copying Gate_new (RqApply [OpUnlink (bs "/d/t/g"); OpSymlink (bs "/d/t/l") (bs "g") Any sample_meta MODE])
    (RqApply [OpUnlink (bs "/d/t/g"); OpSymlink (bs "/d/t/l") (bs "g") Any sample_meta MODE]) ltac:(vm_compute; reflexivity)) as (c' & st & E).
  exact (authorized_changes_are_confined no_ignore no_entry no_text sum_key sample_copying sample_world _ _ _ _ _ _ E).
Defined.

(** The receiver keeps its own files in [/d/syq]. *)
Definition sample_protected : list ReceiverControlPath := [mkControl (bs "/d/syq") (bs "the receiver's state")].

Lemma authorized_changes_spare_protected_paths_witness :
  reject_control_plane_scopes (cf_copy sample_copying) sample_protected = Ok tt /\ path_is_at_or_below sample_file (bs "/d/syq") = false.
Proof.
  split; [vm_compute; reflexivity|].
  destruct (sample_authorized_inv sample_copying Gate_new (RqPutSmallBatch [sample_put]) (RqPutSmallBatch [sample_put])
    ltac:(vm_compute; reflexivity)) as (c' & st & E).
  apply (authorized_changes_spare_protected_paths no_ignore no_entry no_text sum_key sample_copying sample_world _ _ _ _ _ _ sample_protected
    sample_file (mkControl (bs "/d/syq") (bs "the receiver's state"))) with (2 := E); [vm_compute; reflexivity|left|discriminate|left].
Defined.

(** A dry run that looks and may not touch. *)
Definition sample_preview : Config := sample_config ExactPath Replace true WidenAll.

Lemma read_only_grants_change_nothing_witness :
  sample_authorized sample_preview Gate_new (RqNewFileOwner sample_destination true) = Some (RqNewFileOwner sample_destination false) /\
  sample_file ∉ written_paths (RqNewFileOwner sample_destination false).
Proof.
  assert (Ea : sample_authorized sample_preview Gate_new (RqNewFileOwner sample_destination true) = Some (RqNewFileOwner sample_destination false))
    by (vm_compute; reflexivity).
  split; [exact Ea|]. destruct (sample_authorized_inv _ _ _ _ Ea) as (c' & st & E).
  destruct (read_only_grants_change_nothing no_ignore no_entry no_text sum_key sample_preview sample_world _ _ _ _ _ _ sample_file eq_refl E)
    as (Hw & _ & _). intros Hin. specialize (Hw Hin). discriminate Hw.
Defined.

Definition sample_open : PatchStreamGate :=
  mkGate (Some (mkOpenPatch sample_file 4 1 (mkSettlement [] [] Charged_default true StepNone))) None.

Lemma streamed_data_within_declaration_witness :
  exists o o', g_open sample_open = Some o /\ op_received o = 1 /\ op_received o' = op_received o + lenZ [1; 2; 3] /\
    op_received o' <= op_declared o'.
Proof.
  destruct (sample_authorized_inv sample_copying sample_open (RqPatchData [1; 2; 3]) (RqPatchData [1; 2; 3]) ltac:(vm_compute; reflexivity))
    as (c' & st & E).
  destruct (streamed_data_within_declaration no_ignore no_entry no_text sum_key sample_copying sample_world _ _ _ _ _ _ E)
    as (o & o' & Hb & Ho & _ & _ & _ & _ & Hr & Hd & _). exists o, o'. cbn in Hb. split; [exact Hb|].
  split; [injection Hb as <-; reflexivity|]. split; [exact Hr|exact Hd].
Defined.

(** A preview may still widen the directory the copy goes into. *)
Lemma outer_widening_ignores_read_only_witness :
  co_dry_run (options sample_preview) = true /\ widened_outer sample_preview = Some (bs "/d") /\
  sample_authorized sample_preview Gate_new (RqWidenDirectories [(bs "/d", Any)] false 448) =
    Some (RqWidenDirectories [(bs "/d", Matches 7 42)] true 448) /\
  (authorize_inner no_ignore no_entry no_text sum_key (with_dry_run true sample_preview) sample_world false
     (RqWidenDirectories [(bs "/d", Any)] false 448) (begin_call (Authority_new sample_preview None) Gate_new) =
   authorize_inner no_ignore no_entry no_text sum_key sample_preview sample_world false
     (RqWidenDirectories [(bs "/d", Any)] false 448) (begin_call (Authority_new sample_preview None) Gate_new)).
Proof.
  split; [reflexivity|]. split; [reflexivity|]. split; [vm_compute; reflexivity|].
  exact (proj1 (outer_widening_ignores_read_only no_ignore no_entry no_text sum_key sample_preview sample_world false true (bs "/d") Any false 448
    sample_meta 0 true (begin_call (Authority_new sample_preview None) Gate_new) eq_refl)).
Defined.
