(* ===== verification/AuthExisting.v ===== *)
(** * The signed policy for existing objects

    Under a grant that keeps what exists, an authorized publication can only
    create; under one that creates nothing, it can only replace an object whose
    identity the receiver saw.  A publication is left unchecked only where the
    receiver itself had recorded, before the request, that the name was absent
    (or present), and only names the grant made itself are exempt. *)

From stdpp Require Import strings.
From S2P Require Import Prelude Text Diagnostic Proto Hashing Mapping MappingGrant Grant Lookups AuthData Authority AuthPolicy AuthSettle AuthRequest AuthFrame AuthTame AuthInner AuthInv AuthAccounts AuthSystem AuthSample AuthStream AuthConfined AuthScopes AuthProps.
Local Open Scope Z_scope.

(** The condition an object is put under, for a name not in [created]. *)
Definition held_exact (pol : ExistingDestinationPolicy) (created : gset PathBytes) (path : PathBytes) (c : TargetCondition) : Prop :=
  match pol with
  | Skip => path ∈ created \/ c = Absent
  | MustExist => path ∈ created \/ names_identity c = true
  | Replace => True
  end.

(** What a record of lookups says of a name: it was found absent itself, or
    nothing was recorded of it and the nearest directory above it that was
    looked up, up to the root, was found missing or empty. *)
Definition found_absent (key : PathBytes -> Z) (l : PlanningLookups) (relative : PathBytes) : Prop :=
  lo_names l !! key relative = Some LkAbsent \/
  lo_names l !! key relative = None /\
    exists nearer above farther, reverse (ancestors relative) ++ [[]] = nearer ++ above :: farther /\
      Forall (fun a => lo_names l !! key a = None) nearer /\
      (lo_names l !! key above = Some LkAbsent \/ lo_names l !! key above = Some LkEmpty).

Definition found_present (key : PathBytes -> Z) (file_mode : option Z) (l : PlanningLookups) (relative : PathBytes) : Prop :=
  lo_names l !! key relative = Some (LkPresent file_mode).

Section Held.
Context `{HashLib} {Gitignore : Type} (key : PathBytes -> Z) (cf : Config (Gitignore := Gitignore)).

(** The receiver recorded that of [path]; a root that must be new is never
    left to the record. *)
Definition recorded (s : AuthState) (path : PathBytes) (found : PlanningLookups -> PathBytes -> Prop) : Prop :=
  root_must_be_new cf path = false /\
  exists l relative, s_lookups s = Some l /\ destination_relative_to (cf_root_path cf) path = Ok relative /\ found l relative.

(** The condition a publication is put under, and what its destination is said
    to be.  Either the condition is exact, or it rests on what the receiver had
    recorded of the name. *)
Definition held (pol : ExistingDestinationPolicy) (s : AuthState) (path : PathBytes) (c : TargetCondition)
    (scanned : ScannedDestination) : Prop :=
  held_exact pol (s_created s) path c \/
  match pol with
  | Skip => c = Any /\ scanned = ScAbsent /\ recorded s path (found_absent key)
  | MustExist =>
      c <> Absent /\ exists file_mode, recorded s path (found_present key file_mode) /\
        scanned = match file_mode with Some m => ScFile m | None => ScUnknown end
  | Replace => False
  end.

Definition op_held (pol : ExistingDestinationPolicy) (created : gset PathBytes) (op : Op) : Prop :=
  match op with
  | OpSymlink path _ c _ _ | OpMknod path _ _ c _ _ | OpHardlink path _ _ _ c => held_exact pol created path c
  | _ => True
  end.

Definition put_held (pol : ExistingDestinationPolicy) (s : AuthState) (p : SmallPut) : Prop :=
  held pol s (sp_path p) (sp_condition p) (sp_scanned p) /\ (sp_inplace p = true -> pol = Replace).

Definition request_held (pol : ExistingDestinationPolicy) (s : AuthState) (r : Request) : Prop :=
  let created := s_created s in
  match r with
  | RqApply ops => Forall (op_held pol created) ops
  | RqPutSmallBatch puts => Forall (put_held pol s) puts
  | RqPatchSmallBatch patches => Forall (fun p => held_exact pol created (pa_path p) (pa_condition p)) patches
  | RqPatchBegin p _ => held_exact pol created (pa_path p) (pa_condition p)
  | RqFinalize _ path _ _ _ _ scanned c => held pol s path c scanned
  | RqFinishBasis _ path _ _ c => match pol with Skip => path ∈ created | _ => held_exact pol created path c end
  | RqPrepare _ _ inplace _ _ _ _ create _ => inplace = true -> pol = Replace \/ (pol = MustExist /\ create = false)
  | RqPrepareSmallFiles _ => pol = Replace
  | _ => True
  end.

End Held.

(** Peels the first call off [E]; [Hc] says what became of the state so far. *)
Lemma bind_from `{HashLib} R `{!StateFrame R} s0 {A B} (m : method Call AuthError A) (k : A -> method Call AuthError B) c c' b :
  R s0 (ca_state c) -> keeps R m -> (m ≫= k) c = (c', Ok b) ->
  exists c1 a, R s0 (ca_state c1) /\ m c = (c1, Ok a) /\ k a c1 = (c', Ok b).
Proof. intros Hc Hm (c1 & a & Hk & E)%(bind_kept R); [|done]. exists c1, a. split; [|done]. by transitivity (ca_state c). Qed.

Tactic Notation "kept_step" hyp(Hc) hyp(E) "as" ident(E1) :=
  let c := fresh "c" in let a := fresh "a" in let Hb := fresh "Hb" in
  pose proof Hc as Hb; lazymatch type of Hc with ?R _ _ => eapply (bind_from R) in E end; [|exact Hc|solve [keeps_go]]; clear Hc; destruct E as (c & a & Hc & E1 & E).
Tactic Notation "kept_step" hyp(Hc) hyp(E) :=
  let E1 := fresh "Eb" in
  let c := fresh "c" in let a := fresh "a" in
  lazymatch type of Hc with ?R _ _ => eapply (bind_from R) in E end; [|exact Hc|solve [keeps_go]]; clear Hc; destruct E as (c & a & Hc & E1 & E); clear E1.

(** Methods that only read. *)
Definition reads `{HashLib} {A} (m : method Call AuthError A) : Prop := forall c, (m c).1 = c.

Lemma reads_bind `{HashLib} {A B} (m : method Call AuthError A) (k : A -> method Call AuthError B) :
  reads m -> (forall a, reads (k a)) -> reads (m ≫= k).
Proof. intros Hm Hk c. specialize (Hm c). unfold mbind, method_bind. destruct (m c) as [c' [a|e]]; cbn in *; subst; [apply Hk|done]. Qed.

Ltac reads_go :=
  repeat match goal with
  | |- reads (mbind _ _) => apply reads_bind; [|intros ?]
  | |- reads (match ?x with _ => _ end) => destruct x
  | |- reads _ => done
  end.

Lemma reads_Ok `{HashLib} {A} (m : method Call AuthError A) c c' a : reads m -> m c = (c', Ok a) -> c' = c.
Proof. intros Hm E. specialize (Hm c). by rewrite E in Hm. Qed.

Section Existing.
Context `{HashLib} {Gitignore : Type} (is_ignore : Gitignore -> PathBytes -> bool -> bool).
Context (from_json : list Z -> option WireEntry) (base64 : list Z -> option (list Z)).
Context (key : PathBytes -> Z) (cf : Config (Gitignore := Gitignore)) (W : World).
Abbreviation pol := (creation_policy cf false).
Abbreviation created c := (s_created (ca_state c)).
Abbreviation held := (held key cf pol).
Abbreviation put_held := (put_held key cf pol).

(** ** Names may only be forgotten meanwhile *)
Lemma held_exact_mono S S' path c : S' ⊆ S -> held_exact pol S' path c -> held_exact pol S path c.
Proof. unfold held_exact. intros HS. destruct pol; set_solver. Qed.
Lemma held_exact_from s s' path c : creates_none s s' -> held_exact pol (s_created s') path c -> held_exact pol (s_created s) path c.
Proof. apply held_exact_mono. Qed.

(** ** What the record says after some claims, it said before *)
Lemma found_absent_claimed l l' relative : claimed l l' -> found_absent key l' relative -> found_absent key l relative.
Proof.
  intros Hl. assert (Hb : forall k o, lo_names l' !! k = o -> o <> Some LkClaimed -> lo_names l !! k = o) by (intros k o <- Hn; destruct (Hl k); congruence).
  intros [E|(E & nearer & above & farther & El & Hn & Ha)]; [left; by apply Hb|right]. split; [by apply Hb|].
  exists nearer, above, farther. split; [done|]. split; [|destruct Ha; [left|right]; by apply Hb].
  eapply Forall_impl; [exact Hn|]. intros a Ea. by apply Hb.
Qed.

Lemma recorded_mono s s' path (found found' : PlanningLookups -> PathBytes -> Prop) : claims_only s s' ->
  (forall l l' relative, claimed l l' -> found l' relative -> found' l relative) -> recorded cf s' path found -> recorded cf s path found'.
Proof.
  intros [_ Hl] Hf (Hr & l' & relative & (l & El & Hc)%Hl & Ed & Hl'). split; [done|]. exists l, relative. split_and!; [done..|by eapply Hf].
Qed.

Lemma held_mono s s' path c sc : claims_only s s' -> held s' path c sc -> held s path c sc.
Proof.
  intros Hs [Hh|Hh]; [left; by eapply held_exact_mono, Hh; apply Hs|right]. destruct pol; [done|..].
  - destruct Hh as (? & ? & Hr). split_and!; [done..|]. by eapply recorded_mono, Hr; [|apply found_absent_claimed].
  - destruct Hh as (? & m & Hr & ?). split; [done|]. exists m. split; [|done]. eapply recorded_mono, Hr; [done|].
    intros l l' relative Hc E. unfold found_present in *. destruct (Hc (key relative)); congruence.
Qed.

Lemma put_held_mono s s' p : claims_only s s' -> put_held s' p -> put_held s p.
Proof. intros Hs [? ?]. split; [by eapply held_mono|done]. Qed.

(** A claim succeeds only on a name found absent. *)
Lemma claim_found_absent l l' relative : lookups_claim key relative l = (ClaimAbsent, l') -> found_absent key l relative.
Proof.
  unfold lookups_claim, found_absent. destruct (lo_names l !! key relative) as [[]|] eqn:E; try done; [by left|].
  case_decide; [done|]. intros Hc. right. split; [done|]. clear E. revert Hc. generalize (reverse (ancestors relative) ++ [[]]) as up.
  induction up as [|a up IH]; cbn; [done|]. destruct (lo_names l !! key a) as [[]|] eqn:E; try done.
  - intros _. exists [], a, up. auto.
  - intros _. exists [], a, up. auto.
  - intros (nearer & above & farther & -> & Hn & Ha)%IH. exists (a :: nearer), above, farther. split; [done|]. split; [by constructor|done].
Qed.

(** ** The constraints *)
Lemma pin_condition_names m c a ca ca' c' : pin_condition W m c a ca = (ca', Ok c') -> names_identity c' = true.
Proof.
  unfold pin_condition. intros (c1 & c2 & _ & E)%method_bind_Ok. destruct c2; try (by injection E as _ <-); try done.
  - by destruct (same_object dev ino m); [injection E as _ <-|].
  - by destruct (same_fingerprint _ _ _ _ m); [injection E as _ <-|].
Qed.

Lemma observed_creation_held path c i p o ca ca' c' : constrain_observed_creation W path c false i p o ca = (ca', Ok c') ->
  match p with MustExist => names_identity c' = true | _ => c' = Absent end.
Proof.
  unfold constrain_observed_creation. destruct p; intros (c1 & m & E1 & E)%method_bind_Ok.
  1, 2: apply method_bind_Ok in E as (c2 & [] & _ & E); apply method_bind_Ok in E as (c3 & [] & _ & [= _ <-]); done.
  apply method_bind_Ok in E as (c2 & c3 & E2 & E). apply method_bind_Ok in E as (c4 & [] & _ & [= _ <-]).
  by eapply pin_condition_names.
Qed.

Lemma constrain_creation_held path c refuses i ca ca' c' : constrain_creation cf W path c false refuses i ca = (ca', Ok c') ->
  held_exact pol (created ca) path c'.
Proof.
  unfold constrain_creation. intros (c1 & [] & E1 & E)%method_bind_Ok. apply m_ensure_Ok in E1 as [_ ->].
  apply method_bind_Ok in E as (c2 & b & E2 & E). injection E2 as <- <-. unfold held_exact. destruct (_ || _) eqn:Eb.
  - apply orb_true_iff in Eb as [Hc%bool_decide_eq_true|Hb]; [destruct pol; auto|].
    apply andb_true_iff in Hb as [->%bool_decide_eq_true _]. done.
  - apply method_bind_Ok in E as (c3 & o & E3 & E). apply observed_creation_held in E. by destruct pol; auto.
Qed.

Lemma publish_held_held path c i ca ca' c' sc : publish_held cf W path c i ca = (ca', Ok (c', sc)) -> held (ca_state ca) path c' sc.
Proof.
  unfold publish_held. intros (c1 & c2 & E1 & [= _ <- <-])%method_bind_Ok. left. by eapply constrain_creation_held.
Qed.

Lemma constrain_publication_held path c inplace i ca ca' c' sc :
  constrain_publication key cf W path c inplace i ca = (ca', Ok (c', sc)) -> held (ca_state ca) path c' sc.
Proof.
  unfold constrain_publication. intros (c1 & o & E1 & E)%method_bind_Ok. injection E1 as <- Eo.
  destruct o as [[l relative]|]; [|by eapply publish_held_held].
  assert (Hrec : forall found, found l relative -> recorded cf (ca_state ca) path found).
  { intros found Hf. destruct (s_lookups (ca_state ca)) as [l0|] eqn:El; [|done].
    destruct (inplace || root_must_be_new cf path || bool_decide (path ∈ created ca)) eqn:Eb; [done|].
    apply orb_false_iff in Eb as [[_ Er]%orb_false_iff _].
    destruct (destination_relative_to (cf_root_path cf) path) as [r|] eqn:Ed; [|done]. injection Eo as -> ->.
    split; [done|]. by exists l, relative. }
  destruct pol eqn:Ep; [by left| |].
  - destruct (lookups_claim key relative l) as [claim l'] eqn:Ec. apply method_bind_Ok in E as (c2 & [] & [= <-] & E).
    destruct claim; [|done|rewrite <- Ep; eapply publish_held_held in E].
    + apply method_bind_Ok in E as (c3 & [] & _ & E). apply method_bind_Ok in E as (c4 & [] & _ & [= _ <- <-]). right.
      split_and!; [done..|]. by eapply Hrec, claim_found_absent.
    + eapply held_mono, E. apply frame_claim with l; [|].
      * destruct (s_lookups (ca_state ca)); [|done]. repeat case_match; congruence.
      * pose proof (lookups_claim_claimed key relative l) as Hc. by rewrite Ec in Hc.
  - destruct (lookups_get key relative l) as [[|file_mode| |]|] eqn:El; try (rewrite <- Ep; by eapply publish_held_held).
    apply method_bind_Ok in E as (c3 & [] & E3 & E). apply method_bind_Ok in E as (c4 & [] & _ & [= _ <- <-]).
    apply m_ensure_Ok in E3 as [Hn%negb_true_iff%bool_decide_eq_false _]. right. split; [done|]. exists file_mode. split; [by apply Hrec|done].
Qed.

Lemma constrain_update_held path c ca ca' c' : constrain_update cf W path c false ca = (ca', Ok c') ->
  (forall S, held_exact pol S path c -> held_exact pol S path c') /\
  (ca_pending ca = [] -> match pol with Skip => path ∈ created ca | _ => held_exact pol (created ca) path c' end).
Proof.
  unfold constrain_update. intros (c1 & b & E1 & E)%method_bind_Ok. injection E1 as <- <-.
  apply method_bind_Ok in E as (c2 & c3 & [= <- <-] & E). cbn zeta in E. unfold held_exact. destruct pol.
  - done.
  - destruct (_ || _) eqn:Eb; [|done]. injection E as _ <-. split; [done|]. intros Hp. rewrite Hp in Eb. cbn in Eb.
    rewrite orb_false_r in Eb. by apply bool_decide_eq_true in Eb.
  - destruct (_ || _) eqn:Eb.
    + injection E as _ <-. split; [done|]. intros Hp. rewrite Hp in Eb. cbn in Eb. rewrite orb_false_r in Eb. apply bool_decide_eq_true in Eb. by left.
    + unfold pin_update in E. apply method_bind_Ok in E as (c4 & [m|] & _ & E); [|done]. apply pin_condition_names in E. auto.
Qed.

(** ** Operations and small files *)
Lemma authorize_hardlink_held path source dev ino c i ca ca' c' :
  authorize_hardlink is_ignore cf W path source dev ino c i ca = (ca', Ok c') -> held_exact pol (created ca) path c'.
Proof.
  assert (Hc : creates_none (ca_state ca) (ca_state ca)) by done. unfold authorize_hardlink. intros E.
  do 7 kept_step Hc E. kept_step Hc E as E1. apply constrain_creation_held, (held_exact_mono _ _ _ _ Hb) in E1.
  do 4 kept_step Hc E. injection E as _ <-. unfold held_exact in *. destruct pol; [done| |].
  - right. rewrite bool_decide_eq_true_2 by done. by rewrite andb_false_r.
  - rewrite bool_decide_eq_false_2 by done. rewrite andb_true_r. by destruct (match _ with Some _ => _ | None => _ end); [right|].
Qed.

Lemma authorize_op_held i op ca ca' op' : authorize_op is_ignore key cf W i op ca = (ca', Ok op') -> op_held pol (created ca) op'.
Proof.
  assert (Hc : creates_none (ca_state ca) (ca_state ca)) by done.
  destruct op; cbn [authorize_op]; intros E.
  - kept_step Hc E. unfold authorize_mkdir in E. do 3 kept_step Hc E. by injection E as _ <-.
  - kept_step Hc E. kept_step Hc E as E1. do 2 kept_step Hc E. injection E as _ <-. exact (held_exact_mono _ _ _ _ Hb (constrain_creation_held _ _ _ _ _ _ _ E1)).
  - do 2 kept_step Hc E. kept_step Hc E as E1. do 2 kept_step Hc E. injection E as _ <-. exact (held_exact_mono _ _ _ _ Hb (constrain_creation_held _ _ _ _ _ _ _ E1)).
  - kept_step Hc E. unfold authorize_set_meta in E. do 5 kept_step Hc E. by injection E as _ <-.
  - do 4 kept_step Hc E. by injection E as _ <-.
  - kept_step Hc E as E1. injection E as _ <-. by eapply authorize_hardlink_held.
  - done.
  - kept_step Hc E. by injection E as _ <-.
  - kept_step Hc E. by injection E as _ <-.
Qed.

Lemma authorize_apply_op_held i op ca ca' op' :
  authorize_apply_op is_ignore key cf W i op ca = (ca', Ok op') -> op_held pol (created ca) op'.
Proof.
  destruct op; cbn [authorize_apply_op]; try apply authorize_op_held. case_bool_decide; [|apply authorize_op_held]. by intros [= _ <-].
Qed.

Lemma constrain_inplace_policy path creates ca ca' u : constrain_inplace cf path creates ca = (ca', Ok u) ->
  pol = Replace \/ (pol = MustExist /\ creates = false).
Proof.
  unfold constrain_inplace. intros (c1 & [] & E1 & _)%method_bind_Ok. apply m_ensure_Ok in E1 as [E1 _]. destruct pol, creates; auto; done.
Qed.

Lemma authorize_put_held i put ca ca' p : authorize_put is_ignore key cf W i put ca = (ca', Ok p) -> put_held (ca_state ca) p.
Proof.
  assert (Hc : claims_only (ca_state ca) (ca_state ca)) by done. unfold authorize_put. intros E.
  do 3 kept_step Hc E. kept_step Hc E as E1. kept_step Hc E as E2. destruct a3 as [c' sc]. do 2 kept_step Hc E. injection E as _ <-.
  split; [exact (held_mono _ _ _ _ _ Hb0 (constrain_publication_held _ _ _ _ _ _ _ _ E2))|]. cbn. intros Hi. rewrite Hi in E1.
  apply constrain_inplace_policy in E1 as [?|[_ ?]]; done.
Qed.

Lemma authorize_patch_held i p ca ca' p' : authorize_patch is_ignore cf W i p ca = (ca', Ok p') ->
  held_exact pol (created ca) (pa_path p') (pa_condition p').
Proof.
  assert (Hc : creates_none (ca_state ca) (ca_state ca)) by done. unfold authorize_patch. cbn zeta. intros E.
  do 7 kept_step Hc E. kept_step Hc E as E1. kept_step Hc E as E2. do 3 kept_step Hc E. injection E as _ <-. cbn.
  apply constrain_creation_held in E1. apply constrain_update_held in E2 as [E2 _]. exact (held_exact_mono _ _ _ _ Hb (E2 _ E1)).
Qed.

(** ** Whole requests *)
Lemma reads_expected_hash path : reads (Authority.expected_hash cf path).
Proof. unfold Authority.expected_hash. reads_go. Qed.
Lemma reads_check_mutation_path path d : reads (check_mutation_path is_ignore cf path d).
Proof. unfold check_mutation_path, check_mutation_authority, check_mutation_allowed, check_mapping_path. reads_go. Qed.

Lemma for_each_mut_held R `{!StateFrame R} {A} (Q : AuthState -> A -> Prop) (f : nat -> A -> method Call AuthError A) l i ca ca' ys :
  (forall s s' y, R s s' -> Q s' y -> Q s y) -> (forall i x, keeps R (f i x)) ->
  (forall i x c c' y, f i x c = (c', Ok y) -> Q (ca_state c) y) -> for_each_mut f i l ca = (ca', Ok ys) -> Forall (Q (ca_state ca)) ys.
Proof.
  intros Hm Hk Hf. revert i ca ca' ys. induction l as [|x l IH]; intros i ca ca' ys E; [by injection E as _ <-|].
  apply (bind_kept R) in E as (c1 & y & H1 & E1 & E); [|apply Hk]. apply method_bind_Ok in E as (c2 & zs & E2 & [= _ <-]).
  constructor; [by eapply Hf|]. eapply Forall_impl; [exact (IH _ _ _ _ E2)|]. intros z. by apply Hm.
Qed.

Lemma op_held_mono s s' op : creates_none s s' -> op_held pol (s_created s') op -> op_held pol (s_created s) op.
Proof. intros HS. destruct op; try done; by apply held_exact_mono. Qed.

Lemma authorize_puts_held puts ca ca' ps : authorize_puts is_ignore key cf W puts ca = (ca', Ok ps) -> Forall (put_held (ca_state ca)) ps.
Proof.
  assert (Hc : claims_only (ca_state ca) (ca_state ca)) by done. unfold authorize_puts. intros E. do 2 kept_step Hc E.
  eapply (for_each_mut_held claims_only put_held) in E.
  - eapply Forall_impl; [exact E|]. intros p. by apply put_held_mono.
  - apply put_held_mono.
  - auto with keeps.
  - intros ?????. apply authorize_put_held.
Qed.

Lemma authorize_patch_batch_held patches ca ca' ps : authorize_patch_batch is_ignore cf W patches ca = (ca', Ok ps) ->
  Forall (fun p => held_exact pol (created ca) (pa_path p) (pa_condition p)) ps.
Proof.
  unfold authorize_patch_batch. destruct (authorize_patches is_ignore cf W patches ca) as [c1 [ps1|e]] eqn:E.
  2:{ destruct (rollback_patches _ c1) as [? [?|?]]; congruence. }
  intros [= <- <-]. assert (Hc : creates_none (ca_state ca) (ca_state ca)) by done. unfold authorize_patches in E. do 2 kept_step Hc E.
  eapply (for_each_mut_held creates_none (fun s p => held_exact pol (s_created s) (pa_path p) (pa_condition p))) in E.
  - eapply Forall_impl; [exact E|]. intros p. by apply held_exact_mono.
  - intros s s' y. apply held_exact_from.
  - auto with keeps.
  - intros ?????. apply authorize_patch_held.
Qed.

Lemma authorize_inner_held over_ssh r ca ca' r' : ca_pending ca = [] ->
  authorize_inner is_ignore from_json base64 key cf W over_ssh r ca = (ca', Ok r') -> request_held key cf pol (ca_state ca) r'.
Proof.
  intros Hp. assert (Hc : creates_none (ca_state ca) (ca_state ca)) by done. unfold authorize_inner. intros E. kept_step Hc E as E0.
  assert (Hcl : claims_only (ca_state ca) (ca_state c)) by (pose proof (keeps_check_deadline cf W claims_only ca) as Hk; by rewrite E0 in Hk).
  assert (Hp' : ca_pending c = []).
  { revert E0. unfold check_deadline, now, ask. intros (c1 & t & E1 & E0)%method_bind_Ok. apply m_ensure_Ok in E0 as [_ <-].
    apply method_bind_Ok in E1 as (c2 & s & [= <- <-] & E1). apply method_bind_Ok in E1 as (c3 & [] & [= <-] & [= <- _]). done. }
  destruct r; try (refine ((_ : returns (request_held key cf pol (ca_state ca)) _) _ _ _ E); returns_go; fail).
  - (* Apply *) kept_step Hc E as E1. injection E as _ <-. eapply Forall_impl.
    + eapply (for_each_mut_held creates_none (fun s op => op_held pol (s_created s) op)), E1; [apply op_held_mono|auto with keeps|intros ?????; apply authorize_apply_op_held].
    + intros op. by apply op_held_mono.
  - (* Prepare *) apply method_bind_Ok in E as (c1 & [] & E & [= _ <-]). intros ->. unfold authorize_prepare in E. do 5 kept_step Hc E.
    kept_step Hc E as E1. by eapply constrain_inplace_policy.
  - (* FinishBasis *) unfold authorize_finish_basis in E. apply method_bind_Ok in E as (c1 & h & E1 & E). apply reads_Ok in E1 as ->; [|apply reads_expected_hash].
    apply method_bind_Ok in E as (c2 & [] & E2 & E). apply reads_Ok in E2 as ->; [|apply reads_check_mutation_path]. kept_step Hc E as E3. do 2 kept_step Hc E.
    injection E as _ <-. cbn. apply constrain_update_held in E3 as [_ E3]. specialize (E3 Hp').
    pose proof (held_exact_mono _ _ path a0 Hb0) as Hm. destruct pol; [done|by apply Hb0|by apply Hm].
  - (* Finalize *) unfold authorize_finalize in E. do 3 kept_step Hcl E. kept_step Hcl E as E1. destruct a3 as [c' sc]. do 2 kept_step Hcl E.
    injection E as _ <-. exact (held_mono _ _ _ _ _ Hb0 (constrain_publication_held _ _ _ _ _ _ _ _ E1)).
  - (* PutSmallBatch *) apply method_bind_Ok in E as (c1 & ps & E & [= _ <-]). apply authorize_puts_held in E.
    eapply Forall_impl; [exact E|]. intros p. by apply put_held_mono.
  - (* PrepareSmallFiles *) apply method_bind_Ok in E as (c1 & [] & E & [= _ <-]). unfold authorize_small_copy in E.
    apply method_bind_Ok in E as (c2 & [] & E & _). apply m_ensure_Ok in E as [[E%bool_decide_eq_true _]%andb_true_iff _]. done.
  - (* PatchSmallBatch *) apply method_bind_Ok in E as (c1 & ps & E & [= _ <-]). apply authorize_patch_batch_held in E.
    eapply Forall_impl; [exact E|]. intros p. by apply held_exact_mono.
  - (* PatchBegin *) eapply (bind_from creates_none) in E as (c1 & [] & Hc1 & E1 & E); [|exact Hc|unfold check_stream_begin; keeps_go]. apply method_bind_Ok in E as (c2 & ps & E & E').
    apply authorize_patch_batch_held in E. destruct ps as [|p [|? ?]]; try done. injection E' as _ <-. apply Forall_cons in E as [E _].
    exact (held_exact_mono _ _ _ _ Hc1 E).
Qed.

End Existing.

(** ** On the sample *)
#[local] Existing Instance sum_lib.

(** A grant that keeps what exists, in a place that has nothing yet. *)
Definition sample_keeping : Config := sample_config DirectoryContents Skip false WidenNone.
Definition empty_world : World := mkWorld (fun _ _ => Some None) (fun _ => 1) (fun _ _ => true).

(** The receiver found nothing at its root. *)
Definition sample_recording : AuthState :=
  set_s_lookups (Some (mkLookups RecKeep 10 {[sum_key [] := LkAbsent]})) (Authority_new sample_keeping None).

Abbreviation keeping_put s :=
  (authorize_admitted no_ignore no_entry no_text sum_key sample_keeping empty_world false (RqPutSmallBatch [sample_put]) (begin_call s Gate_new)).
Definition put_result (s : AuthState) : option Request := match keeping_put s with (_, Ok (r', _)) => Some r' | _ => None end.

