(* ===== verification/AuthMetadata.v ===== *)
(** * Metadata a sender may set

    Every permission, owner, group, time and attribute an authorized request
    carries is one the grant preserves or the signed mapping names for that very
    path.  The one exception is the directory the copy goes into under an
    approved [all] widening: there the receiver fixes which of mode, owner,
    group and times apply (its own mode alone) and leaves the access lists,
    extended attributes and inode attributes carried unchecked. *)

From stdpp Require Import strings.
From S2P Require Import Prelude Text Diagnostic Proto Hashing Mapping MappingGrant Grant Lookups AuthData Authority AuthPolicy AuthSettle AuthRequest AuthFrame AuthTame AuthInner AuthInv AuthAccounts AuthSystem AuthSample AuthStream AuthConfined AuthScopes AuthProps.
Local Open Scope Z_scope.

Section Metadata.
Context `{HashLib} {Gitignore : Type} (is_ignore : Gitignore -> PathBytes -> bool -> bool).
Context (from_json : list Z -> option WireEntry) (base64 : list Z -> option (list Z)).
Context (key : PathBytes -> Z) (cf : Config (Gitignore := Gitignore)) (W : World).

(** What the admitted mapping says of a path's metadata. *)
Definition mapped_entry (m : option Admission) (path : PathBytes) (e : option Metadata) : Prop :=
  match m with
  | None => e = None
  | Some a => exists p relative, permissions a = Ok p /\ mapping_relative cf path = Ok relative /\ permissions_metadata p relative = e
  end.

(** [value]: whether a mapping entry names exactly the value set. *)
Definition permits (flags flag : Z) (preserved : bool) (e : option Metadata) (value : Metadata -> Prop) : Prop :=
  has_flag flags flag = true -> preserved = true \/ exists md, e = Some md /\ value md.

Definition granted (m : option Admission) (path : PathBytes) (meta : Meta) (flags : Z) : Prop :=
  exists e, mapped_entry m path e /\
    permits flags MODE (co_preserve_permissions (options cf)) e (fun md => md_mode md = Some (Z.land (me_mode meta) 4095)) /\
    permits flags RECEIVER_MODE (co_receiver_managed_modes (options cf)) e (fun _ => False) /\
    permits flags OWNER (co_preserve_owner (options cf)) e (fun md => md_uid md = Some (me_uid meta)) /\
    permits flags GROUP (co_preserve_group (options cf)) e (fun md => md_gid md = Some (me_gid meta)) /\
    permits flags TIMES (co_preserve_times (options cf)) e
      (fun md => md_mtime md = Some (me_mtime meta) /\ default 0 (md_mtime_nsec md) = me_mtime_nsec meta) /\
    (forall i, me_inode_metadata meta = Some i -> extra_allows (cf_extra_options cf) (inode_selection i) = true).

(** A directory the mapping only implies takes only a mode the receiver chooses,
    and no further attributes.  So does the directory the copy goes into under an
    approved widening as far as the flags say; what else its metadata carries is
    not looked at there. *)
Definition op_granted (m : option Admission) (op : Op) : Prop :=
  match op with
  | OpSymlink path _ _ meta flags | OpMknod path _ _ _ meta flags | OpSetFileMetaIfSame path _ meta flags => granted m path meta flags
  | OpSetMeta path meta flags _ _ =>
      if decide (widened_outer cf = Some path) then flags = RECEIVER_MODE
      else granted m path meta flags \/ (is_Some m /\ (flags = 0 \/ flags = RECEIVER_MODE) /\ me_inode_metadata meta = None)
  | _ => True
  end.

Definition patch_granted (m : option Admission) (p : SmallPatch) : Prop :=
  granted m (pa_path p) (pa_meta p) (pa_flags p) /\ granted m (pa_path p) (pa_meta p) (pa_unchanged_flags p).

Definition metadata_granted (m : option Admission) (r : Request) : Prop :=
  match r with
  | RqApply ops => Forall (op_granted m) ops
  | RqPutSmallBatch puts => Forall (fun p => granted m (sp_path p) (sp_meta p) (sp_flags p)) puts
  | RqPatchSmallBatch patches => Forall (patch_granted m) patches
  | RqPatchBegin patch _ => patch_granted m patch
  | RqPrepareSmallFiles request =>
      Forall (fun f => granted m (sc_path f) (sc_meta f) (Z.lor (sr_flags request) (Z.land (sr_matching_flags request) TIMES))) (sr_files request)
  | RqPrepare path _ _ _ _ _ _ _ (Some (meta, flags)) => granted m path meta flags
  | RqFinishBasis _ path meta flags _ | RqFinalize _ path _ _ meta flags _ _ => granted m path meta flags
  | _ => True
  end.

(** ** The check *)
Lemma conf_mapped_grants path g :
  confines (fun m mapped => exists e, mapped_entry m path e /\ mapped = match e with Some md => g md | None => 0 end) (mapped_grants cf path g).
Proof.
  unfold mapped_grants. eapply conf_use; [apply conf_get_s|done|intros s]. cbn beta. destruct (s_mapping s) as [a|].
  - eapply conf_use; [apply conf_lift|done|intros p]. eapply conf_use; [apply conf_lift|done|intros relative].
    apply conf_ret. intros m Hr Hp <-. exists (permissions_metadata p relative). split; [|done]. by exists p, relative.
  - apply conf_ret. intros m <-. by exists None.
Qed.

(** A flag the grant takes from a mapping entry means the entry has the value. *)
Lemma metadata_grants_flag meta md :
  (has_flag (metadata_grants meta md) MODE = true -> md_mode md = Some (Z.land (me_mode meta) 4095)) /\
  (has_flag (metadata_grants meta md) OWNER = true -> md_uid md = Some (me_uid meta)) /\
  (has_flag (metadata_grants meta md) GROUP = true -> md_gid md = Some (me_gid meta)) /\
  (has_flag (metadata_grants meta md) TIMES = true -> md_mtime md = Some (me_mtime meta) /\ default 0 (md_mtime_nsec md) = me_mtime_nsec meta).
Proof.
  unfold metadata_grants.
  destruct (bool_decide (md_mode md = _)) eqn:E1, (bool_decide (md_uid md = _)) eqn:E2, (bool_decide (md_gid md = _)) eqn:E3,
    (bool_decide (md_mtime md = _) && _) eqn:E4; rewrite ?bool_decide_eq_true, ?andb_true_iff, ?bool_decide_eq_true in *; split_and!; done || by vm_compute.
Qed.

Lemma permits_of flags flag preserved e (value : Metadata -> Prop) g :
  negb (has_flag flags flag && negb preserved && negb (has_flag (match e with Some md => g md | None => 0 end) flag)) = true ->
  (forall md, e = Some md -> has_flag (g md) flag = true -> value md) -> permits flags flag preserved e value.
Proof.
  intros Hn Hv Hf. rewrite Hf in Hn. destruct preserved; [by left|right]. cbn in Hn. rewrite negb_involutive in Hn.
  destruct e as [md|]; [|done]. eauto.
Qed.

Lemma conf_check_metadata path meta flags : confines (fun m _ => granted m path meta flags) (check_metadata cf path meta flags).
Proof.
  unfold check_metadata. eapply conf_use; [apply conf_mapped_grants|unfold mapped_grants; keeps_go|intros mapped].
  eapply conf_use; [apply conf_lift|done|intros []].
  apply (conf_weaken (fun _ _ => forall i, me_inode_metadata meta = Some i -> extra_allows (cf_extra_options cf) (inode_selection i) = true)).
  { destruct (me_inode_metadata meta) as [i|]; [|by apply conf_ret]. eapply conf_weaken; [apply conf_ensure|]. by intros ? ? Hi ? [= <-]. }
  intros m _ Hi Hf (e & He & ->). exists e. split; [done|]. unfold check_flags in Hf.
  repeat (apply result_bind_Ok in Hf as ([] & ?%require_Ok & Hf)). apply require_Ok in Hf.
  pose proof (fun md => metadata_grants_flag meta md) as Hg.
  split_and!; try done; try (eapply (permits_of _ _ _ _ _ (metadata_grants meta)); [done|]; intros md _; apply Hg).
  intros Hr. left. destruct (co_receiver_managed_modes (options cf)); [done|]. by rewrite Hr in *.
Qed.
End Metadata.

(** Uses the metadata checks, skips the other calls. *)
Ltac meta_go :=
  repeat match goal with
  | |- confines _ (mbind _ (check_metadata _ _ _ _)) => eapply conf_use; [apply conf_check_metadata|auto with keeps|intros ?]
  | |- confines _ (mbind _ _) => apply conf_skip; [solve [keeps_go]|intros ?]
  | |- confines _ (mret _) => apply conf_ret; intros ?; cbn; try tauto
  | |- confines _ (bail _) => done
  | |- confines _ (m_fail _) => done
  | |- confines _ (let '(_, _) := ?x in _) => destruct x
  end.

Section Granted.
Context `{HashLib} {Gitignore : Type} (is_ignore : Gitignore -> PathBytes -> bool -> bool).
Context (from_json : list Z -> option WireEntry) (base64 : list Z -> option (list Z)).
Context (key : PathBytes -> Z) (cf : Config (Gitignore := Gitignore)) (W : World).
Abbreviation op_granted := (op_granted cf).
Abbreviation granted := (granted cf).
Abbreviation metadata_granted := (metadata_granted cf).

(** ** Operations and small files *)
Lemma conf_authorize_set_meta path meta flags c d kind i : widened_outer cf <> Some path ->
  confines op_granted (authorize_set_meta cf W path meta flags c d kind i).
Proof.
  intros Hw.
  unfold authorize_set_meta. apply (conf_use (fun m implicit => implicit = true -> is_Some m)).
  { unfold mapping_parent. eapply conf_use; [apply conf_get_s|done|intros s]. cbn beta. destruct (s_mapping s) as [a|]; meta_go; by intros <-. }
  { auto with keeps. }
  intros [|]; cbn [andb].
  - do 2 (apply conf_skip; [solve [keeps_go]|intros ?]). eapply conf_use; [apply conf_ensure|done|intros ?]. meta_go. intros Hn Hm. rewrite decide_False by done. right.
    split; [by apply Hm|]. split; [case_bool_decide; cbn; auto|]. by destruct (me_inode_metadata meta).
  - meta_go. rewrite decide_False by done. by left.
Qed.

Lemma conf_op_granted i op : (forall path meta flags c d, op = OpSetMeta path meta flags c d -> widened_outer cf <> Some path) ->
  confines op_granted (authorize_op is_ignore key cf W i op).
Proof.
  intros Hw. destruct op; cbn [authorize_op]; try (meta_go; done).
  - meta_go. unfold authorize_mkdir. meta_go.
  - apply conf_skip; [auto with keeps|intros kind]. apply conf_authorize_set_meta. by eapply Hw.
Qed.

Lemma conf_apply_op_granted i op : confines op_granted (authorize_apply_op is_ignore key cf W i op).
Proof.
  destruct op; cbn [authorize_apply_op]; try (by apply conf_op_granted).
  case_bool_decide as E; [|apply conf_op_granted; congruence]. apply conf_ret. intros m. cbn. by rewrite decide_True.
Qed.

Lemma conf_put_granted i put : confines (fun m p => granted m (sp_path p) (sp_meta p) (sp_flags p)) (authorize_put is_ignore key cf W i put).
Proof. unfold authorize_put. meta_go. Qed.

Lemma conf_patch_granted i p : confines (patch_granted cf) (authorize_patch is_ignore cf W i p).
Proof. unfold authorize_patch, patch_granted. meta_go. Qed.

Lemma conf_patches_granted patches : confines (fun m ps => Forall (patch_granted cf m) ps) (authorize_patch_batch is_ignore cf W patches).
Proof.
  intros c c' ps. unfold authorize_patch_batch. destruct (authorize_patches is_ignore cf W patches c) as [c1 [ps1|e]] eqn:E.
  2:{ destruct (rollback_patches _ c1) as [? [?|?]]; congruence. }
  intros [= <- <-]. revert E.
  assert (Hc : confines (fun m ps => Forall (patch_granted cf m) ps) (authorize_patches is_ignore cf W patches)); [|apply Hc].
  unfold authorize_patches. meta_go. apply conf_for_each_mut; [intros; auto with keeps|apply conf_patch_granted].
Qed.

Lemma conf_small_granted request flags files i :
  confines (fun m _ => Forall (fun f => granted m (sc_path f) (sc_meta f) flags) files)
    (for_each_mut (authorize_small_file is_ignore cf W request flags) i files).
Proof.
  revert i. induction files as [|f files IH]; intros i; [by apply conf_ret|]. cbn [for_each_mut].
  apply (conf_use (fun m f' => granted m (sc_path f) (sc_meta f) flags)).
  { unfold authorize_small_file. meta_go. }
  { auto with keeps. }
  intros f'. eapply conf_use; [apply IH|solve [keeps_go]|intros fs]. apply conf_ret. intros m Hfs Hf. by constructor.
Qed.

(** ** Whole requests *)
Lemma authorize_inner_granted over_ssh r :
  confines metadata_granted (authorize_inner is_ignore from_json base64 key cf W over_ssh r).
Proof.
  unfold authorize_inner. apply conf_skip; [auto with keeps|intros ?].
  destruct r; try (apply conf_always; returns_go; fail).
  - (* Apply *) eapply conf_bind_files; [apply conf_for_each_mut; [intros; auto with keeps|apply conf_apply_op_granted]|].
    by intros ops' c c' r' [= _ <-].
  - (* Prepare *) apply (conf_bind_files (fun m _ => match update with Some (meta, flags) => granted m path meta flags | None => True end));
      [|by intros ? c c' r' [= _ <-]].
    unfold authorize_prepare. apply conf_skip; [auto with keeps|intros ?]. destruct update as [[meta uflags]|]; [|by intros ? ? ? _].
    eapply conf_bind_files; [meta_go; apply conf_check_metadata|]. by intros.
  - (* FinishBasis *) unfold authorize_finish_basis. meta_go.
  - (* Finalize *) unfold authorize_finalize. meta_go.
  - (* PutSmallBatch *) apply (conf_bind_files (fun m ps => Forall (fun p => granted m (sp_path p) (sp_meta p) (sp_flags p)) ps));
      [|by intros ps c c' r' [= _ <-]].
    unfold authorize_puts. meta_go.
    apply (conf_for_each_mut (fun m p => granted m (sp_path p) (sp_meta p) (sp_flags p))); [intros; auto with keeps|apply conf_put_granted].
  - (* PrepareSmallFiles *) unfold authorize_small_copy.
    eapply conf_bind_files; [|by intros ? c c' r' [= _ <-] mp Hp; exact Hp]. cbn beta.
    do 5 (apply conf_skip; [solve [keeps_go]|intros ?]). eapply conf_bind_files; [apply conf_small_granted|]. by intros.
  - (* PatchSmallBatch *) eapply conf_bind_files; [apply conf_patches_granted|]. by intros ps c c' r' [= _ <-].
  - (* PatchBegin *) apply conf_skip; [unfold check_stream_begin; keeps_go|intros ?].
    eapply conf_bind_files; [apply conf_patches_granted|]. intros ps c c' r' E mp Hp.
    destruct ps as [|p [|? ?]]; try done. injection E as _ <-. by apply Forall_cons in Hp as [? _].
Qed.


(** Under an approved [all] widening, nothing but the deadline is checked of a
    metadata change to the directory the copy goes into, and all it carries but
    the flags reaches the executor: attributes no option of the grant allows and
    any condition included. *)
Theorem outer_metadata_is_unchecked over_ssh path meta flags condition directory c :
  widened_outer cf = Some path ->
  authorize_inner is_ignore from_json base64 key cf W over_ssh (RqApply [OpSetMeta path meta flags condition directory]) c =
  (_ ← check_deadline cf W; mret (RqApply [OpSetMeta path meta RECEIVER_MODE condition directory])) c.
Proof.
  intros Hw. unfold authorize_inner, mbind, method_bind. destruct (check_deadline cf W c) as [c1 [[]|e]]; [|done].
  cbn. by rewrite Hw, bool_decide_eq_true_2.
Qed.
End Granted.

(** ** On the sample *)
#[local] Existing Instance sum_lib.


(** Extended attributes, which the sample grant does not preserve. *)
Definition sample_attributes : InodeMetadata := mkInode None None (Some 1) None None.
Definition sample_outer_meta : Meta := mkMeta 420 0 0 0 0 (Some sample_attributes).

Lemma outer_metadata_is_unchecked_witness :
  extra_allows (cf_extra_options sample_preview) (inode_selection sample_attributes) = false /\
  sample_authorized sample_preview Gate_new (RqApply [OpSetMeta (bs "/d") sample_outer_meta 0 Any true]) =
    Some (RqApply [OpSetMeta (bs "/d") sample_outer_meta RECEIVER_MODE Any true]) /\
  (authorize_inner no_ignore no_entry no_text sum_key sample_preview sample_world false
     (RqApply [OpSetMeta (bs "/d") sample_outer_meta 0 Any true]) (begin_call (Authority_new sample_preview None) Gate_new) =
   (_ ← check_deadline sample_preview sample_world; mret (RqApply [OpSetMeta (bs "/d") sample_outer_meta RECEIVER_MODE Any true]))
     (begin_call (Authority_new sample_preview None) Gate_new)).
Proof.
  split; [reflexivity|]. split; [vm_compute; reflexivity|].
  exact (outer_metadata_is_unchecked no_ignore no_entry no_text sum_key sample_preview sample_world false (bs "/d") sample_outer_meta 0 Any true
    (begin_call (Authority_new sample_preview None) Gate_new) eq_refl).
Defined.
