(* ===== verification/TcpRecords.v ===== *)
(** * TCP data records (src/src/tcp_records.rs)

    The record layer of data connections: [u32 length | body], the body being
    ciphertext and tag when the connection is encrypted.
    - AES-256-GCM is library code: [seal] and [open] are parameters, with the
      laws of an authenticated cipher's happy path (what was sealed opens, and
      sealing adds a 16-byte tag).
    - The socket under the writer may accept part of a write, be interrupted or
      fail; a script says what each call does.  The socket under the reader is
      the bytes that will still arrive.
    - Arithmetic that would overflow is a panic, [None]. *)

From S2P Require Import Prelude Text Hashing.
Local Open Scope Z_scope.

Definition RECORD_MAX : Z := 256 * 1024.
Definition KEY_LEN : Z := 32.
Definition CONNECTION_ID_MAX : Z := 16777215.
Definition TAG_LEN : nat := 16.

(** Little-endian counterpart of [to_be_bytes]. *)
Definition to_le_bytes (width : nat) (n : Z) : list Z := reverse (to_be_bytes width n).
Definition from_le_bytes (l : list Z) : Z := foldr (fun b acc => b + 256 * acc) 0 l.

Inductive IoError := WriteZero | WriteFailed | UnexpectedEof | InvalidData (m : nat).
Definition bad_record_length : IoError := InvalidData 0.
Definition authentication_failed : IoError := InvalidData 1.

(** One answer of the socket to [write_vectored]. *)
Inductive WriteAnswer := Accept (n : nat) | Interrupted | Broken.

Section Records.
Context {Key : Type} (key_ok : list Z -> option Key).
Context (seal : Key -> list Z -> list Z -> list Z) (open : Key -> list Z -> list Z -> option (list Z)).

(** ** [Cipher] *)
Record Cipher := mkCipher { ci_key : Key; ci_conn_id : Z; ci_dir : Z; ci_counter : Z }.

Definition Cipher_new (key : list Z) (conn_id dir : Z) : option Cipher :=
  if decide (CONNECTION_ID_MAX < conn_id) then None
  else k ← key_ok key; Some (mkCipher k conn_id dir 0).

Definition nonce_bytes (c : Cipher) : list Z :=
  ci_dir c :: drop 1 (to_be_bytes 4 (ci_conn_id c)) ++ to_be_bytes 8 (ci_counter c).

Definition nonce (c : Cipher) : option (list Z * Cipher) :=
  counter ← u64_add (ci_counter c) 1;
  Some (nonce_bytes c, mkCipher (ci_key c) (ci_conn_id c) (ci_dir c) counter).

Definition seal_in_place (c : Cipher) (buffer : list Z) : option (list Z * Cipher) :=
  '(n, c) ← nonce c; Some (seal (ci_key c) n buffer, c).

(** The buffer afterwards, and the plain length or an error. *)
Definition open_buffer (c : Cipher) (buffer : list Z) : option (result IoError nat * list Z * Cipher) :=
  '(n, c) ← nonce c;
  Some match open (ci_key c) n buffer with
       | Some plain => (Ok (length plain), plain ++ drop (length plain) buffer, c)
       | None => (Err authentication_failed, replicate (length buffer) 0, c)
       end.

Definition open_in_place (c : Cipher) (buffer : list Z) : option (result IoError unit * list Z * Cipher) :=
  '(r, buffer, c) ← open_buffer c buffer;
  Some match r with
       | Ok len => (Ok tt, take len buffer, c)
       | Err e => (Err e, [], c)
       end.

(** ** [RecordWriter] *)
Record RecordWriter := mkWriter {
  w_sent : list Z;
  w_script : list WriteAnswer;
  w_cipher : option Cipher;
  w_buf : list Z
}.

Definition RecordWriter_new (script : list WriteAnswer) (cipher : option Cipher) : RecordWriter :=
  mkWriter [] script cipher [].

(** The write loop over what is left of header and body; a socket at the end of
    its script accepts everything. *)
Fixpoint write_vectored_all (script : list WriteAnswer) (sent remaining : list Z)
  : result IoError unit * list Z * list WriteAnswer :=
  match remaining with
  | [] => (Ok tt, sent, script)
  | _ =>
      match script with
      | [] => (Ok tt, sent ++ remaining, [])
      | Accept O :: script => (Err WriteZero, sent, script)
      | Accept n :: script => write_vectored_all script (sent ++ take n remaining) (drop n remaining)
      | Interrupted :: script => write_vectored_all script sent remaining
      | Broken :: script => (Err WriteFailed, sent, script)
      end
  end.

Definition emit (w : RecordWriter) : option (result IoError unit * RecordWriter) :=
  match w_buf w with
  | [] => Some (Ok tt, w)
  | _ =>
      '(body, cipher) ← match w_cipher w with
                        | Some c => '(body, c) ← seal_in_place c (w_buf w); Some (body, Some c)
                        | None => Some (w_buf w, None)
                        end;
      let header := to_le_bytes 4 (Z.of_nat (length body) mod 2 ^ 32) in
      let '(result, sent, script) := write_vectored_all (w_script w) (w_sent w) (header ++ body) in
      Some (result, mkWriter sent script cipher [])
  end.

Definition write (data : list Z) (w : RecordWriter) : option (result IoError nat * RecordWriter) :=
  room ← u64_sub RECORD_MAX (Z.of_nat (length (w_buf w)));
  let n := Nat.min (length data) (Z.to_nat room) in
  let w := mkWriter (w_sent w) (w_script w) (w_cipher w) (w_buf w ++ take n data) in
  if decide (Z.of_nat (length (w_buf w)) = RECORD_MAX) then
    '(r, w) ← emit w;
    Some (match r with Ok _ => Ok n | Err e => Err e end, w)
  else Some (Ok n, w).

(** [flush]; flushing the socket itself sends nothing. *)
Definition flush (w : RecordWriter) : option (result IoError unit * RecordWriter) := emit w.

(** [Write::write_all] on the writer: write what is left until nothing is. *)
Fixpoint write_all (fuel : nat) (data : list Z) (w : RecordWriter) : option (result IoError unit * RecordWriter) :=
  match data with
  | [] => Some (Ok tt, w)
  | _ =>
      match fuel with
      | O => None
      | S fuel =>
          '(r, w) ← write data w;
          match r with
          | Ok O => Some (Err WriteZero, w)
          | Ok n => write_all fuel (drop n data) w
          | Err e => Some (Err e, w)
          end
      end
  end.

(** ** [RecordReader] *)
Record RecordReader := mkReader {
  r_input : list Z;
  r_cipher : option Cipher;
  r_buf : list Z;
  r_pos_ : nat
}.

Definition RecordReader_new (input : list Z) (cipher : option Cipher) : RecordReader :=
  mkReader input cipher [] 0.

(** [read_exact] into a buffer: the buffer afterwards, and what still arrives.
    At the end of the stream the part that arrived has overwritten a prefix. *)
Definition read_exact (buffer input : list Z) : result IoError unit * list Z * list Z :=
  if decide (length buffer <= length input)%nat
  then (Ok tt, take (length buffer) input, drop (length buffer) input)
  else (Err UnexpectedEof, input ++ drop (length input) buffer, []).

Definition read_length (r : RecordReader) : result IoError nat * RecordReader :=
  let '(res, hdr, input) := read_exact (replicate 4 0) (r_input r) in
  let r := mkReader input (r_cipher r) (r_buf r) (r_pos_ r) in
  match res with
  | Err e => (Err e, r)
  | Ok _ =>
      let len := from_le_bytes hdr in
      if decide (len = 0 \/ RECORD_MAX + 64 < len) then (Err bad_record_length, r) else (Ok (Z.to_nat len), r)
  end.

(** [Vec::resize(len, 0)]. *)
Definition resize (len : nat) (l : list Z) : list Z := take len l ++ replicate (len - length l) 0.

Definition fill (len : nat) (r : RecordReader) : option (result IoError unit * RecordReader) :=
  let '(res, buf, input) := read_exact (resize len (r_buf r)) (r_input r) in
  match res with
  | Err e => Some (Err e, mkReader input (r_cipher r) buf len)
  | Ok _ =>
      match r_cipher r with
      | Some c =>
          '(opened, buf, c) ← open_in_place c buf;
          Some match opened with
               | Ok _ => (Ok tt, mkReader input (Some c) buf 0)
               | Err e => (Err e, mkReader input (Some c) buf len)
               end
      | None => Some (Ok tt, mkReader input None buf 0)
      end
  end.

(** The record read and authenticated in the caller's storage. *)
Definition read_direct (len : nat) (out : list Z) (r : RecordReader)
  : option (result IoError nat * list Z * RecordReader) :=
  let tag_len := match r_cipher r with Some _ => Nat.min TAG_LEN len | None => 0%nat end in
  let end_ := (len - tag_len)%nat in
  let tail := take tag_len (drop end_ out) in
  let '(res, head, input) := read_exact (take len out) (r_input r) in
  '(result, head, cipher) ←
    match res with
    | Err e => Some (Err e, head, r_cipher r)
    | Ok _ =>
        match r_cipher r with
        | Some c => '(opened, head, c) ← open_buffer c head; Some (opened, head, Some c)
        | None => Some (Ok len, head, None)
        end
    end;
  let head := match result with Ok _ => head | Err _ => replicate len 0 end in
  Some (result, take end_ head ++ tail ++ drop len out, mkReader input cipher (r_buf r) (r_pos_ r)).

(** [Read::read]: the result, the caller's buffer afterwards, and the reader. *)
Definition read (out : list Z) (r : RecordReader) : option (result IoError nat * list Z * RecordReader) :=
  match out with
  | [] => Some (Ok 0%nat, [], r)
  | _ =>
      let copy r :=
        let n := Nat.min (length out) (length (r_buf r) - r_pos_ r) in
        Some (Ok n, take n (drop (r_pos_ r) (r_buf r)) ++ drop n out,
              mkReader (r_input r) (r_cipher r) (r_buf r) (r_pos_ r + n)) in
      if decide (length (r_buf r) <= r_pos_ r)%nat then
        let '(res, r) := read_length r in
        match res with
        | Err e => Some (Err e, out, r)
        | Ok len =>
            if decide (len <= length out)%nat then read_direct len out r
            else
              '(filled, r) ← fill len r;
              match filled with Err e => Some (Err e, out, r) | Ok _ => copy r end
        end
      else copy r
  end.
End Records.
