(* ===== verification/TcpProps.v ===== *)
(** * TCP records carry the byte stream

    What a writer sends is a sequence of records whose bodies concatenate to
    the data written; a reader delivers those bytes in order into buffers of
    any size; nonces never repeat; a record that fails authentication exposes
    nothing. *)

From S2P Require Import Prelude Text Hashing TcpRecords.
Local Open Scope Z_scope.

(** ** Byte order *)
Lemma to_be_bytes_S w n : to_be_bytes (S w) n = Z.shiftr n (8 * Z.of_nat w) mod 256 :: to_be_bytes w n.
Proof.
  unfold to_be_bytes. cbn [seq fmap list_fmap]. f_equal; [do 2 f_equal; lia|].
  rewrite <- fmap_S_seq, <- list_fmap_compose. apply list_fmap_ext. intros i x _. cbn. do 2 f_equal. lia.
Qed.

Lemma to_be_bytes_length w n : length (to_be_bytes w n) = w.
Proof. apply to_be_bytes_width. Qed.

Definition be_value (l : list Z) : Z := foldl (fun acc b => acc * 256 + b) 0 l.

Lemma be_value_acc l acc : foldl (fun acc b => acc * 256 + b) acc l = acc * 256 ^ Z.of_nat (length l) + be_value l.
Proof.
  unfold be_value. revert acc. induction l as [|b l IH]; intros acc; cbn [foldl length]; [lia|].
  rewrite IH, (IH (0 * 256 + b)), Nat2Z.inj_succ, Z.pow_succ_r by lia. lia.
Qed.

Lemma be_value_to_be_bytes w n : be_value (to_be_bytes w n) = n mod 256 ^ Z.of_nat w.
Proof.
  induction w as [|w IH]; [by rewrite Z.mod_1_r|]. rewrite to_be_bytes_S. unfold be_value at 1. cbn [foldl].
  rewrite be_value_acc, IH, to_be_bytes_length. rewrite Z.shiftr_div_pow2 by lia.
  replace (2 ^ (8 * Z.of_nat w)) with (256 ^ Z.of_nat w) by (rewrite Z.pow_mul_r by lia; done).
  rewrite Nat2Z.inj_succ, Z.pow_succ_r by lia. rewrite (Z.mul_comm 256).
  rewrite Z.rem_mul_r by lia. lia.
Qed.

Lemma to_be_bytes_inj w n m : 0 <= n < 256 ^ Z.of_nat w -> 0 <= m < 256 ^ Z.of_nat w ->
  to_be_bytes w n = to_be_bytes w m -> n = m.
Proof.
  intros Hn Hm E. apply (f_equal be_value) in E. rewrite !be_value_to_be_bytes in E.
  by rewrite !Z.mod_small in E.
Qed.

Lemma from_le_reverse l : from_le_bytes (reverse l) = be_value l.
Proof.
  induction l as [|b l IH] using rev_ind; [done|]. unfold from_le_bytes, be_value in *.
  rewrite reverse_snoc, foldl_snoc. cbn [foldr]. rewrite IH. lia.
Qed.

Lemma from_le_to_le n : 0 <= n < 2 ^ 32 -> from_le_bytes (to_le_bytes 4 n) = n.
Proof.
  intros Hn. unfold to_le_bytes. rewrite from_le_reverse, be_value_to_be_bytes. apply Z.mod_small.
  change (256 ^ Z.of_nat 4) with (2 ^ 32). lia.
Qed.

Lemma to_le_length n : length (to_le_bytes 4 n) = 4%nat.
Proof. unfold to_le_bytes. rewrite length_reverse. apply to_be_bytes_length. Qed.

(** ** Nonces *)
Section Nonces.
Context {Key : Type}.
Abbreviation cipher := (Cipher (Key := Key)).

(** The cipher after its nonce was taken [n] times. *)
Fixpoint nonces (n : nat) (c : cipher) : option cipher :=
  match n with O => Some c | S n => '(_, c) ← nonce c; nonces n c end.

Lemma nonces_Some n c c' : nonces n c = Some c' ->
  c' = mkCipher (ci_key c) (ci_conn_id c) (ci_dir c) (ci_counter c + Z.of_nat n) /\
  (n <> 0%nat -> ci_counter c + Z.of_nat n <= u64_max).
Proof.
  revert c. induction n as [|n IH]; intros c; cbn [nonces].
  - intros [= <-]. split; [destruct c; cbn; f_equal; lia|lia].
  - unfold nonce, u64_add. case_decide; cbn; [|done]. intros [-> Hm]%IH. cbn in *. split; [f_equal; lia|].
    intros _. destruct n; [lia|]. specialize (Hm ltac:(lia)). lia.
Qed.

Lemma nonce_Some (c c' : cipher) n : nonce c = Some (n, c') -> n = nonce_bytes c /\ ci_counter c + 1 <= u64_max.
Proof. unfold nonce, u64_add. case_decide; cbn; [|done]. by intros [= <- _]. Qed.

(** C33. A nonce is never used twice under one key: the nonces of two ciphers,
    after any numbers of records, are equal only if direction, connection and
    record number are; a counter that would wrap panics instead. *)
Theorem nonces_never_repeat key_ok k1 k2 conn1 conn2 dir1 dir2 (c1 c2 d1 d2 e1 e2 : cipher) i j n :
  0 <= conn1 -> 0 <= conn2 ->
  Cipher_new key_ok k1 conn1 dir1 = Some c1 -> Cipher_new key_ok k2 conn2 dir2 = Some c2 ->
  nonces i c1 = Some d1 -> nonces j c2 = Some d2 ->
  nonce d1 = Some (n, e1) -> nonce d2 = Some (n, e2) ->
  dir1 = dir2 /\ conn1 = conn2 /\ i = j.
Proof.
  intros H1 H2 N1 N2 [-> _]%nonces_Some [-> _]%nonces_Some [-> B1]%nonce_Some [E B2]%nonce_Some.
  unfold Cipher_new in N1, N2. repeat case_decide; try done.
  destruct (key_ok k1), (key_ok k2); try done. injection N1 as <-. injection N2 as <-.
  cbn [ci_key ci_conn_id ci_dir ci_counter] in *. unfold nonce_bytes in E. cbn [ci_conn_id ci_dir ci_counter] in E.
  rewrite !to_be_bytes_S with (w := 3%nat) in E. cbn [drop] in E. unfold CONNECTION_ID_MAX, u64_max in *.
  pose proof (f_equal head E) as Ed. apply (f_equal tail) in E. cbn [head tail] in Ed, E. injection Ed as ->.
  assert (El : length (to_be_bytes 3 conn1) = length (to_be_bytes 3 conn2)) by (by rewrite !to_be_bytes_length).
  destruct (app_inj_1 _ _ _ _ El E) as [Ec En].
  apply to_be_bytes_inj in Ec; [|cbn; lia..]. apply to_be_bytes_inj in En; [|cbn; lia..]. split_and!; [done|done|lia].
Qed.
End Nonces.

Lemma nonces_never_repeat_witness :
  let key_ok (_ : list Z) := Some tt in
  exists c d e : Cipher, Cipher_new key_ok [] 7 1 = Some c /\ nonces 2 c = Some d /\ nonce d = Some (nonce_bytes d, e) /\
  (1 = 1 /\ 7 = 7 /\ 2%nat = 2%nat).
Proof.
  intros key_ok. eexists _, _, _. split; [reflexivity|]. split; [reflexivity|]. split; [reflexivity|].
  eapply (nonces_never_repeat key_ok [] [] 7 7 1 1); try reflexivity; done.
Defined.

(** ** Encoded streams *)
Section Stream.
Context {Key : Type} (seal : Key -> list Z -> list Z -> list Z) (open : Key -> list Z -> list Z -> option (list Z)).
Abbreviation cipher := (Cipher (Key := Key)).
(** What the library documents: sealing appends the tag, and what was sealed
    under a nonce opens under it. *)
Context (seal_length : forall k n p, length (seal k n p) = (length p + TAG_LEN)%nat).
Context (open_seal : forall k n p, open k n (seal k n p) = Some p).

Definition body (c : option cipher) (p : list Z) : list Z :=
  match c with Some c => seal (ci_key c) (nonce_bytes c) p | None => p end.
Definition advance (n : nat) (c : option cipher) : option cipher :=
  (fun c => mkCipher (ci_key c) (ci_conn_id c) (ci_dir c) (ci_counter c + Z.of_nat n)) <$> c.

Fixpoint encode (c : option cipher) (ps : list (list Z)) : list Z :=
  match ps with
  | [] => []
  | p :: ps => to_le_bytes 4 (Z.of_nat (length (body c p))) ++ body c p ++ encode (advance 1 c) ps
  end.

Definition counter_room (n : nat) (c : option cipher) : Prop :=
  match c with Some c => ci_counter c + Z.of_nat n <= u64_max | None => True end.

Lemma advance_0 c : advance 0 c = c.
Proof. destruct c as [[]|]; cbn; [|done]. do 2 f_equal. lia. Qed.

Lemma advance_advance n m c : advance n (advance m c) = advance (m + n) c.
Proof. destruct c; cbn; [|done]. do 2 f_equal. lia. Qed.

Lemma encode_snoc c ps p : encode c (ps ++ [p]) =
  encode c ps ++ to_le_bytes 4 (Z.of_nat (length (body (advance (length ps) c) p))) ++ body (advance (length ps) c) p.
Proof.
  revert c. induction ps as [|q ps IH]; intros c; cbn [app encode length].
  - rewrite advance_0, app_nil_r. done.
  - rewrite IH, advance_advance, <- !app_assoc. done.
Qed.

(** A record's payload: not empty and at most [RECORD_MAX]. *)
Definition payload (p : list Z) : Prop := p <> [] /\ Z.of_nat (length p) <= RECORD_MAX.

Lemma body_length c p : payload p -> (1 <= Z.of_nat (length (body c p)) <= RECORD_MAX + 16) /\
  length (body c p) = (length p + match c with Some _ => TAG_LEN | None => 0 end)%nat.
Proof using seal_length.
  intros [Hp Hl]. assert (length p <> 0%nat) by (by destruct p). destruct c; cbn; rewrite ?seal_length; unfold TAG_LEN; lia.
Qed.

(** ** The writer *)
Definition healthy (script : list WriteAnswer) : Prop := Forall (fun a => a <> Broken /\ a <> Accept 0) script.

Lemma write_vectored_all_ok script sent remaining : healthy script ->
  exists script', write_vectored_all script sent remaining = (Ok tt, sent ++ remaining, script') /\ healthy script'.
Proof.
  intros H. revert sent remaining. induction H as [|a script [Hb Hz] Hs IH]; intros sent [|b remaining];
    cbn [write_vectored_all]; try (by rewrite app_nil_r; eexists; split; [reflexivity|constructor]).
  - eexists. split; [reflexivity|constructor].
  - destruct a as [[|n]| |]; [done| |apply IH|done].
    destruct (IH (sent ++ take (S n) (b :: remaining)) (drop (S n) (b :: remaining))) as (script' & E & Hh).
    exists script'. split; [|done]. rewrite E, <- app_assoc, take_drop. done.
Qed.

(** The writer has sent the records of [ps] and holds the rest of [data]. *)
Record sending (c0 : option cipher) (data : list Z) (w : RecordWriter (Key := Key)) : Prop := {
  se_ps : exists ps, Forall payload ps /\ w_sent w = encode c0 ps /\ w_cipher w = advance (length ps) c0 /\
            concat ps ++ w_buf w = data;
  se_buf : Z.of_nat (length (w_buf w)) < RECORD_MAX;
  se_healthy : healthy (w_script w)
}.

Lemma payloads_length ps : Forall payload ps -> (length ps <= length (concat ps))%nat.
Proof.
  induction 1 as [|p ps [Hp _] _ IH]; [done|]. cbn. rewrite length_app. assert (length p <> 0%nat) by (by destruct p). lia.
Qed.

Lemma emit_sends c0 ps w : Forall payload ps -> w_sent w = encode c0 ps -> w_cipher w = advance (length ps) c0 ->
  healthy (w_script w) -> Z.of_nat (length (w_buf w)) <= RECORD_MAX ->
  counter_room (S (length ps)) c0 ->
  exists w', emit seal w = Some (Ok tt, w') /\ sending c0 (concat ps ++ w_buf w) w' /\ w_buf w' = [].
Proof using seal_length.
  intros Hps Hs Hc Hh Hb Hroom. unfold emit. destruct (w_buf w) as [|b buf] eqn:Eb.
  { exists w. split_and!; [done| |done]. split; [|rewrite Eb; cbn; unfold RECORD_MAX; lia|done].
    exists ps. by rewrite Eb. }
  set (p := b :: buf) in *. assert (Hp : payload p) by (by split).
  destruct (body_length (w_cipher w) p Hp) as [Hbl _].
  assert (Ebody : (match w_cipher w with
     | Some c => '(body, c) ← seal_in_place seal c p; Some (body, Some c) | None => Some (p, None) end)
     = Some (body (w_cipher w) p, advance 1 (w_cipher w))).
  { rewrite Hc. destruct c0 as [c|]; [|done]. cbn. unfold seal_in_place, nonce, u64_add. cbn in Hroom |- *.
    rewrite decide_True by lia. done. }
  rewrite Ebody. cbn [mbind option_bind].
  rewrite Z.mod_small by (unfold RECORD_MAX in *; lia).
  destruct (write_vectored_all_ok (w_script w) (w_sent w)
    (to_le_bytes 4 (Z.of_nat (length (body (w_cipher w) p))) ++ body (w_cipher w) p) Hh) as (script' & E & Hh').
  rewrite E. eexists. split; [reflexivity|]. split; [|done]. split; cbn; [|unfold RECORD_MAX; lia|done].
  exists (ps ++ [p]). split_and!.
  - apply Forall_app. by split; [|apply Forall_singleton].
  - rewrite encode_snoc, <- Hc, Hs. done.
  - rewrite Hc, advance_advance, length_app. done.
  - rewrite concat_app. cbn. by rewrite !app_nil_r.
Qed.

Lemma sending_room c0 data w : sending c0 data w ->
  counter_room (length data) c0 -> (w_buf w <> [] -> exists ps, Forall payload ps /\ w_sent w = encode c0 ps /\
    w_cipher w = advance (length ps) c0 /\ concat ps ++ w_buf w = data /\ counter_room (S (length ps)) c0).
Proof.
  intros [(ps & Hps & Hs & Hc & Hd) _ _] Hroom Hne. exists ps. split_and!; [done..|].
  pose proof (payloads_length ps Hps). rewrite <- Hd, length_app in Hroom.
  assert (length (w_buf w) <> 0%nat) by (by destruct (w_buf w)). destruct c0; cbn in *; [lia|done].
Qed.

Lemma counter_room_le n m c : (n <= m)%nat -> counter_room m c -> counter_room n c.
Proof. destruct c; cbn; [lia|done]. Qed.

Lemma write_sends c0 data d w : sending c0 data w -> d <> [] -> counter_room (length data + length d) c0 ->
  exists n w', write seal d w = Some (Ok n, w') /\ (0 < n <= length d)%nat /\ sending c0 (data ++ take n d) w'.
Proof using seal_length.
  intros [(ps & Hps & Hs & Hc & Hd) Hb Hh] Hne Hroom. unfold write, u64_sub. rewrite decide_True by lia.
  cbn [mbind option_bind]. set (n := Nat.min _ _). cbn [w_buf].
  assert (Hn : (0 < n <= length d)%nat /\ Z.of_nat (length (w_buf w) + n) <= RECORD_MAX).
  { assert (length d <> 0%nat) by (by destruct d). subst n. lia. }
  assert (Hlen : length (w_buf w ++ take n d) = (length (w_buf w) + n)%nat) by (rewrite length_app, length_take; lia).
  exists n. case_decide as Efull.
  - destruct (emit_sends c0 ps (mkWriter (w_sent w) (w_script w) (w_cipher w) (w_buf w ++ take n d)))
      as (w' & E & Hw' & _); cbn; [done..|lia| |].
    { eapply counter_room_le; [|exact Hroom]. pose proof (payloads_length ps Hps). rewrite <- Hd, length_app. lia. }
    rewrite E. exists w'. split_and!; [done|lia..|]. by rewrite <- Hd, <- app_assoc.
  - eexists. split; [reflexivity|]. split; [lia|]. split; cbn; [|lia|done].
    exists ps. split_and!; [done..|]. by rewrite app_assoc, Hd.
Qed.

Lemma write_all_sends c0 fuel data d w : sending c0 data w -> (length d <= fuel)%nat ->
  counter_room (length data + length d) c0 ->
  exists w', write_all seal fuel d w = Some (Ok tt, w') /\ sending c0 (data ++ d) w'.
Proof using seal_length.
  revert data d w. induction fuel as [|fuel IH]; intros data d w Hw Hf Hroom.
  { destruct d; [|cbn in Hf; lia]. exists w. by rewrite app_nil_r. }
  destruct d as [|b d]; [exists w; by rewrite app_nil_r|]. cbn [write_all].
  destruct (write_sends c0 data (b :: d) w Hw) as (n & w1 & E & Hn & Hw1); [done|done|].
  rewrite E. cbn [mbind option_bind]. destruct n as [|n]; [lia|].
  destruct (IH (data ++ take (S n) (b :: d)) (drop (S n) (b :: d)) w1) as (w' & E' & Hw').
  - done.
  - rewrite length_drop. lia.
  - rewrite length_app, length_take, length_drop. eapply counter_room_le; [|exact Hroom]. lia.
  - exists w'. split; [exact E'|]. by rewrite <- app_assoc, take_drop in Hw'.
Qed.

Lemma flush_sends c0 data w : sending c0 data w -> counter_room (length data) c0 ->
  exists w', flush seal w = Some (Ok tt, w') /\ sending c0 data w' /\ w_buf w' = [].
Proof using seal_length.
  intros Hw Hroom. destruct (decide (w_buf w = [])) as [E|E].
  - exists w. unfold flush, emit. by rewrite E.
  - destruct (sending_room c0 data w Hw Hroom E) as (ps & Hps & Hs & Hc & Hd & Hr). rewrite <- Hd.
    apply emit_sends; [done..|apply Hw| |done]. pose proof (se_buf _ _ _ Hw). lia.
Qed.

(** A use of the writer. *)
Inductive WriteOp := WData (d : list Z) | WFlush.

Fixpoint run_writes (ops : list WriteOp) (w : RecordWriter (Key := Key)) : option (result IoError unit * RecordWriter) :=
  match ops with
  | [] => Some (Ok tt, w)
  | op :: ops =>
      '(r, w) ← match op with WData d => write_all seal (length d) d w | WFlush => flush seal w end;
      match r with Ok _ => run_writes ops w | Err e => Some (Err e, w) end
  end.

Definition written (ops : list WriteOp) : list Z := ops ≫= fun op => match op with WData d => d | WFlush => [] end.

Lemma run_writes_sends c0 ops data w : sending c0 data w -> counter_room (length data + length (written ops)) c0 ->
  exists w', run_writes ops w = Some (Ok tt, w') /\ sending c0 (data ++ written ops) w'.
Proof using seal_length.
  revert data w. induction ops as [|op ops IH]; intros data w Hw Hroom.
  { exists w. by rewrite app_nil_r. }
  change (written (op :: ops)) with ((match op with WData d => d | WFlush => [] end) ++ written ops) in *.
  rewrite length_app in Hroom. cbn [run_writes]. destruct op as [d|].
  - destruct (write_all_sends c0 (length d) data d w Hw) as (w1 & -> & Hw1); [done|eapply counter_room_le; [|exact Hroom]; lia|].
    cbn [mbind option_bind]. rewrite app_assoc. apply IH; [done|]. rewrite length_app.
    eapply counter_room_le; [|exact Hroom]. lia.
  - destruct (flush_sends c0 data w Hw) as (w1 & -> & Hw1 & _); [eapply counter_room_le; [|exact Hroom]; lia|].
    cbn [mbind option_bind app]. by apply IH.
Qed.

(** ** The reader *)

(** The reader will deliver [rest]. *)
Record reading (rest : list Z) (r : RecordReader (Key := Key)) : Prop := {
  re_ps : exists ps, Forall payload ps /\ r_input r = encode (r_cipher r) ps /\
    drop (r_pos_ r) (r_buf r) ++ concat ps = rest /\ counter_room (length ps) (r_cipher r)
}.

Lemma read_exact_prefix buffer a b : length buffer = length a -> read_exact buffer (a ++ b) = (Ok tt, a, b).
Proof.
  intros E. unfold read_exact. rewrite decide_True by (rewrite length_app; lia).
  by rewrite E, take_app_length, drop_app_length.
Qed.

Lemma read_length_record r p ps : payload p -> r_input r = encode (r_cipher r) (p :: ps) ->
  read_length r = (Ok (length (body (r_cipher r) p)),
    mkReader (body (r_cipher r) p ++ encode (advance 1 (r_cipher r)) ps) (r_cipher r) (r_buf r) (r_pos_ r)).
Proof using seal_length.
  intros Hp E. unfold read_length. rewrite E. cbn [encode].
  rewrite read_exact_prefix by (by rewrite length_replicate, to_le_length).
  destruct (body_length (r_cipher r) p Hp) as [Hl _]. unfold RECORD_MAX in *.
  rewrite from_le_to_le by lia. rewrite decide_False by lia. by rewrite Nat2Z.id.
Qed.

Lemma open_record (c : cipher) p : ci_counter c + 1 <= u64_max ->
  open_buffer open c (seal (ci_key c) (nonce_bytes c) p) =
  Some (Ok (length p), p ++ drop (length p) (seal (ci_key c) (nonce_bytes c) p),
        mkCipher (ci_key c) (ci_conn_id c) (ci_dir c) (ci_counter c + 1)).
Proof using open_seal.
  intros Hc. unfold open_buffer, nonce, u64_add. rewrite decide_True by done. cbn [mbind option_bind ci_key].
  by rewrite open_seal.
Qed.

Lemma read_direct_record r p rest out : payload p -> counter_room 1 (r_cipher r) ->
  r_input r = body (r_cipher r) p ++ rest -> (length (body (r_cipher r) p) <= length out)%nat ->
  read_direct open (length (body (r_cipher r) p)) out r =
  Some (Ok (length p), p ++ drop (length p) out, mkReader rest (advance 1 (r_cipher r)) (r_buf r) (r_pos_ r)).
Proof using seal_length open_seal.
  intros Hp Hroom E Hout. destruct (body_length (r_cipher r) p Hp) as [_ Hbl]. unfold read_direct.
  rewrite E, read_exact_prefix by (rewrite length_take; lia). destruct (r_cipher r) as [c|]; cbn [body] in *.
  - rewrite open_record by (cbn in Hroom; lia). cbn [mbind option_bind advance fmap option_fmap option_map].
    replace (Nat.min TAG_LEN _) with TAG_LEN by lia. rewrite Hbl, Nat.add_sub, take_app_length.
    do 3 f_equal. by rewrite <- drop_drop, take_drop.
  - cbn [mbind option_bind]. rewrite Nat.sub_0_r, take_ge by lia. done.
Qed.

Lemma fill_record r p rest : payload p -> counter_room 1 (r_cipher r) -> r_input r = body (r_cipher r) p ++ rest ->
  fill open (length (body (r_cipher r) p)) r = Some (Ok tt, mkReader rest (advance 1 (r_cipher r)) p 0).
Proof using seal_length open_seal.
  intros Hp Hroom E. unfold fill. rewrite E.
  rewrite read_exact_prefix by (unfold resize; rewrite length_app, length_take, length_replicate; lia).
  destruct (r_cipher r) as [c|]; [|done]. cbn [body]. unfold open_in_place.
  rewrite open_record by (cbn in Hroom; lia). cbn [mbind option_bind]. by rewrite take_app_length.
Qed.

Lemma copy_step (out rest : list Z) (r : RecordReader (Key := Key)) ps :
  (r_pos_ r < length (r_buf r))%nat -> out <> [] -> Forall payload ps -> r_input r = encode (r_cipher r) ps ->
  drop (r_pos_ r) (r_buf r) ++ concat ps = rest -> counter_room (length ps) (r_cipher r) ->
  let n := Nat.min (length out) (length (r_buf r) - r_pos_ r) in
  (0 < n <= length out /\ n <= length rest)%nat /\ take n (drop (r_pos_ r) (r_buf r)) = take n rest /\
  reading (drop n rest) (mkReader (r_input r) (r_cipher r) (r_buf r) (r_pos_ r + n)).
Proof.
  intros Hpos Hout Hps Hi Hr Hroom n. assert (length out <> 0%nat) by (by destruct out).
  assert (Hn : (n <= length (drop (r_pos_ r) (r_buf r)))%nat) by (rewrite length_drop; lia).
  split; [rewrite <- Hr, length_app; lia|]. rewrite <- Hr. rewrite take_app_le by done. split; [done|]. split. exists ps. cbn.
  split_and!; [done..| |done]. by rewrite drop_app_le, drop_drop.
Qed.

Lemma read_step out rest r : reading rest r -> out <> [] -> rest <> [] ->
  exists n r', read open out r = Some (Ok n, take n rest ++ drop n out, r') /\ (0 < n <= length out /\ n <= length rest)%nat /\
    reading (drop n rest) r'.
Proof using seal_length open_seal.
  intros [(ps & Hps & Hi & Hr & Hroom)] Hout Hrest. unfold read. destruct out as [|b out']; [done|].
  set (out := b :: out') in *. case_decide as Hpos; cycle 1.
  { destruct (copy_step out rest r ps) as (Hn & Ht & Hre); [lia|done..|].
    eexists _, _. split; [|split; [exact Hn|exact Hre]]. by rewrite Ht. }
  rewrite drop_ge in Hr by done. cbn [app] in Hr. destruct ps as [|p ps]; [by subst rest|].
  apply Forall_cons in Hps as [Hp Hps]. rewrite (read_length_record r p ps Hp Hi).
  destruct (body_length (r_cipher r) p Hp) as [_ Hbl].
  assert (Hp0 : (0 < length p)%nat) by (destruct Hp as [Hp _]; destruct p; [done|cbn; lia]).
  assert (Hr1 : counter_room 1 (r_cipher r)) by (eapply counter_room_le; [|exact Hroom]; cbn; lia).
  assert (Hr2 : counter_room (length ps) (advance 1 (r_cipher r))).
  { destruct (r_cipher r); cbn in *; [lia|done]. }
  case_decide as Hlen.
  - rewrite (read_direct_record (mkReader _ (r_cipher r) _ _) p (encode (advance 1 (r_cipher r)) ps)) by done.
    eexists _, _. split; [|split].
    + rewrite <- Hr. cbn [concat]. by rewrite take_app_length.
    + rewrite <- Hr. cbn [concat]. rewrite length_app. lia.
    + split. exists ps. cbn. split_and!; [done..| |done]. rewrite <- Hr. cbn. rewrite drop_app_length.
      by rewrite drop_ge.
  - rewrite (fill_record (mkReader _ (r_cipher r) _ _) p (encode (advance 1 (r_cipher r)) ps)) by done.
    cbn [mbind option_bind].
    destruct (copy_step out rest (mkReader (encode (advance 1 (r_cipher r)) ps) (advance 1 (r_cipher r)) p 0) ps)
      as (Hn & Ht & Hre); cbn; [lia|done..|].
    eexists _, _. split; [|split; [exact Hn|exact Hre]]. cbn in Ht. by rewrite Ht.
Qed.

(** Reads into buffers of the given sizes, up to the first error. *)
Fixpoint read_many (sizes : list nat) (r : RecordReader (Key := Key)) : option (list Z) :=
  match sizes with
  | [] => Some []
  | size :: sizes =>
      '(res, out, r) ← read open (replicate size 0) r;
      match res with
      | Ok n => more ← read_many sizes r; Some (take n out ++ more)
      | Err _ => Some []
      end
  end.

Lemma read_many_delivers sizes rest r : reading rest r -> Forall (fun n => n <> 0%nat) sizes ->
  exists bytes rest', read_many sizes r = Some bytes /\ rest = bytes ++ rest' /\
    ((length rest <= length sizes)%nat -> rest' = []).
Proof using seal_length open_seal.
  intros Hr Hs. revert rest r Hr. induction Hs as [|size sizes Hsz _ IH]; intros rest r Hr; cbn [read_many].
  { exists [], rest. split_and!; [done..|]. intros H. destruct rest; [done|cbn in H; lia]. }
  destruct (decide (rest = [])) as [->|Hne].
  - assert (Hend : exists res out r', read open (replicate size 0) r = Some (Err res, out, r')).
    { destruct Hr as [(ps & Hps & Hi & Hc & _)]. apply app_eq_nil in Hc as [Hb Hc].
      assert (ps = []) as -> by (destruct ps as [|p ps]; [done|]; apply Forall_cons in Hps as [[Hp _] _]; by destruct p).
      apply (f_equal length) in Hb. rewrite length_drop in Hb. cbn in Hb.
      unfold read. destruct size as [|size]; [done|]. cbn [replicate].
      rewrite decide_True by lia. unfold read_length. rewrite Hi. cbn. eauto. }
    destruct Hend as (res & out & r' & ->). exists [], []. done.
  - destruct (read_step (replicate size 0) rest r Hr) as (n & r' & -> & Hn & Hr'); [by destruct size|done|].
    cbn [mbind option_bind]. destruct (IH _ _ Hr') as (bytes & rest' & -> & E & Hdone). cbn [mbind option_bind].
    rewrite length_replicate in Hn.
    exists (take n rest ++ bytes), rest'. split_and!.
    + do 2 f_equal. rewrite take_app_le, take_take, Nat.min_id; [done|]. rewrite length_take. lia.
    + by rewrite <- app_assoc, <- E, take_drop.
    + intros H. apply Hdone. rewrite length_drop. cbn in H. lia.
Qed.

(** C23. The record layer is a faithful byte stream: whatever sequence of writes
    and flushes a writer performs, over a socket that accepts writes in pieces
    and is interrupted, with or without encryption, a reader with the matching
    cipher delivers exactly the bytes written, in order, into buffers of any
    sizes, and every read makes progress. *)
Theorem records_carry_stream c0 script ops sizes :
  counter_room (length (written ops)) c0 -> healthy script -> Forall (fun n => n <> 0%nat) sizes ->
  exists w bytes rest,
    run_writes (ops ++ [WFlush]) (RecordWriter_new script c0) = Some (Ok tt, w) /\
    read_many sizes (RecordReader_new (w_sent w) c0) = Some bytes /\
    written ops = bytes ++ rest /\ ((length (written ops) <= length sizes)%nat -> rest = []).
Proof using seal_length open_seal.
  intros Hroom Hh Hs.
  assert (Hw0 : sending c0 [] (RecordWriter_new script c0)).
  { split; [|cbn; unfold RECORD_MAX; lia|done]. exists []. cbn. by rewrite advance_0. }
  assert (Ew : written (ops ++ [WFlush]) = written ops) by (unfold written; by rewrite bind_app, app_nil_r).
  destruct (run_writes_sends c0 ops [] _ Hw0) as (w1 & E1 & Hw1); [done|].
  destruct (flush_sends c0 (written ops) w1 Hw1 Hroom) as (w & E2 & Hw & Hbuf).
  assert (E : run_writes (ops ++ [WFlush]) (RecordWriter_new script c0) = Some (Ok tt, w)).
  { revert E1. generalize (RecordWriter_new script c0). clear -E2. induction ops as [|op ops IH]; intros w0.
    - intros [= ->]. cbn. by rewrite E2.
    - cbn [app run_writes]. destruct (match op with WData d => _ | WFlush => _ end) as [[[[]|] w']|]; cbn; [apply IH|done..]. }
  destruct (se_ps _ _ _ Hw) as (ps & Hps & Hsent & _ & Hd). rewrite Hbuf, app_nil_r in Hd.
  destruct (read_many_delivers sizes (written ops) (RecordReader_new (w_sent w) c0)) as (bytes & rest & Hr & Hb & Hdone).
  - split. exists ps. cbn. split_and!; [done..|]. eapply counter_room_le; [|exact Hroom].
    rewrite <- Hd. by apply payloads_length.
  - done.
  - exists w, bytes, rest. done.
Qed.

(** C36. A failed read exposes nothing: whether the connection ended, the length
    was bad or authentication failed, the caller's buffer holds its old bytes
    or zeros, and nothing is left in the reader for a later read to return. *)
Theorem failed_read_exposes_nothing out r e out' r' : read open out r = Some (Err e, out', r') ->
  (exists m, (m <= length out)%nat /\ out' = replicate m 0 ++ drop m out) /\ (length (r_buf r') <= r_pos_ r')%nat.
Proof.
  unfold read. destruct out as [|b out0]; [done|]. set (out := b :: out0).
  case_decide as Hpos; [|done]. destruct (read_length r) as [[len|e1] r1] eqn:El.
  - case_decide as Hlen.
    + unfold read_direct. set (tag := match r_cipher r1 with Some _ => _ | None => _ end).
      destruct (read_exact (take len out) (r_input r1)) as [[res head] input].
      destruct (match res with Ok _ => _ | Err _ => _ end) as [[[result head'] cipher']|] eqn:Em; [|done].
      cbn [mbind option_bind]. intros [= -> <- <-]. split; cycle 1.
      { cbn. apply (f_equal snd) in El. cbn in El. unfold read_length in El.
        destruct (read_exact _ _) as [[[]]]; [case_decide|]; cbn in El; by subst r1. }
      exists (len - tag)%nat. split; [lia|]. rewrite take_replicate, Nat.min_l by lia. f_equal.
      assert (Htag : (tag <= len)%nat) by (subst tag; destruct (r_cipher r1); lia).
      transitivity (take tag (drop (len - tag) out) ++ drop tag (drop (len - tag) out)); [|by rewrite take_drop].
      rewrite drop_drop. do 2 f_equal. lia.
    + destruct (fill open len r1) as [[[[]|e2] r2]|] eqn:Ef; [done| |done]. cbn [mbind option_bind]. intros [= <- <- <-].
      split; [exists 0%nat; split; [lia|done]|]. unfold fill in Ef.
      destruct (read_exact _ _) as [[res buf] input] eqn:Ere. destruct res as [u|e3].
      * destruct (r_cipher r1) as [c|]; [|done]. unfold open_in_place in Ef.
        destruct (open_buffer open c buf) as [[[[n|e4] buf'] c']|]; cbn in Ef; [done| |done].
        injection Ef as _ <-. cbn. lia.
      * injection Ef as _ <-. cbn. unfold read_exact in Ere. case_decide; [done|]. injection Ere as _ <- _.
        rewrite length_app, length_drop. unfold resize in *. rewrite length_app, length_take, length_replicate in *. lia.
  - intros [= <- <- <-]. split; [exists 0%nat; split; [lia|done]|]. unfold read_length in El.
    destruct (read_exact _ _) as [[[]]]; [case_decide|]; injection El; intros; subst; done.
Qed.
End Stream.

(** ** Witnesses: a toy cipher that appends sixteen bytes of its nonce *)
Definition toy_seal (k : Z) (n p : list Z) : list Z := p ++ take 16 (n ++ [k; k; k; k; k; k; k; k; k; k; k; k; k; k; k; k]).
Definition toy_open (k : Z) (n b : list Z) : option (list Z) :=
  let p := take (length b - 16) b in if decide (toy_seal k n p = b) then Some p else None.

Lemma toy_seal_length k n p : length (toy_seal k n p) = (length p + TAG_LEN)%nat.
Proof. unfold toy_seal, TAG_LEN. rewrite length_app, length_take, length_app. cbn [length]. lia. Qed.

Lemma toy_open_seal k n p : toy_open k n (toy_seal k n p) = Some p.
Proof.
  unfold toy_open. rewrite toy_seal_length. unfold TAG_LEN. rewrite Nat.add_sub.
  assert (E : take (length p) (toy_seal k n p) = p) by (unfold toy_seal; by rewrite take_app_length).
  rewrite E. by rewrite decide_True.
Qed.

Definition toy_cipher : option Cipher := Some (mkCipher 9 7 1 0).

Lemma records_carry_stream_witness :
  exists w bytes rest,
    run_writes toy_seal [WData [1; 2]; WFlush; WData [3]; WFlush] (RecordWriter_new [Accept 3; Interrupted; Accept 1] toy_cipher) =
      Some (Ok tt, w) /\
    read_many toy_open [1; 30; 2]%nat (RecordReader_new (w_sent w) toy_cipher) = Some bytes /\
    [1; 2; 3] = bytes ++ rest /\ ((3 <= 3)%nat -> rest = []).
Proof.
  apply (records_carry_stream toy_seal toy_open toy_seal_length toy_open_seal toy_cipher
    [Accept 3; Interrupted; Accept 1] [WData [1; 2]; WFlush; WData [3]] [1; 30; 2]%nat).
  - cbn. unfold u64_max. lia.
  - repeat constructor; done.
  - repeat constructor; done.
Defined.

Lemma failed_read_exposes_nothing_witness :
  exists out' r', read toy_open (replicate 20 5) (RecordReader_new ([17; 0; 0; 0] ++ replicate 17 8) toy_cipher) =
    Some (Err authentication_failed, out', r') /\
  (exists m, (m <= 20)%nat /\ out' = replicate m 0 ++ drop m (replicate 20 5)) /\ (length (r_buf r') <= r_pos_ r')%nat.
Proof.
  eexists _, _. split; [vm_compute; reflexivity|].
  eapply (failed_read_exposes_nothing toy_open (replicate 20 5) (RecordReader_new ([17; 0; 0; 0] ++ replicate 17 8) toy_cipher)).
  vm_compute. reflexivity.
Defined.
