(* ===== verification/Directive.v ===== *)
(** * Directives (src/src/directive.rs, src/src/delegation.rs)

    The signed command of one copy: its bounds, its encoding, the armor of its
    signature, and what a receiver checks of it before it is used.
    - [postcard], [base64], the hash functions and the SSH key library are
      parameters.
    - [Instant] is a count of nanoseconds. *)

From stdpp Require Import strings.
From S2P Require Import Prelude Text Proto Hashing Mapping Grant AuthData AuthSettle TcpProps.
Local Open Scope Z_scope.

Definition MAX_SIGNATURE_BYTES : Z := 16 * 1024.
Definition MAX_CLOCK_SKEW_SECS : Z := 5 * 60.
Definition MAX_UNIX_TIMESTAMP : Z := 253402300799.
Definition NAMESPACE : list Z := bs "syq-directive@greaber.github".
Definition MAGIC : list Z := bs "SYQDIR1" ++ [0].
Definition HEADER_LEN : Z := 16.
Definition MAX_BODY_BYTES : Z := 512 * 1024.
Definition MAX_SIGNED_BYTES : Z := HEADER_LEN + MAX_BODY_BYTES + MAX_SIGNATURE_BYTES.
Definition MAX_BUILD_BYTES : Z := 256.
Definition MAX_CWD_BYTES : Z := 4096.
Definition MAX_IGNORE_RULES : Z := 4096.
Definition MAX_IGNORE_RULE_BYTES : Z := 4096.
Definition VALIDITY_SECONDS : Z := 24 * 60 * 60.
Definition FINISH_WINDOW_SECONDS : Z := 7 * 24 * 60 * 60.
Definition CLOCK_SKEW_SECONDS : Z := 60.
Definition MAX_COMMAND_BYTES : Z := 256 * 1024.

(** ** Data *)
Inductive Role := RoleDestination.

Record Binding := mkBinding { bi_enrollment : list Z; bi_generation : Z; bi_account : list Z; bi_role : Role }.
Record Inputs := mkInputs { in_ignore : list (list Z); in_mapping : option Authorization }.
Record Caps := mkCaps { ca_max_bytes : Z; ca_max_entries : Z; ca_max_delete : Z }.

Record Directive := mkDirective {
  di_build : list Z;
  di_request_id : list Z;
  di_issued_at : Z;
  di_not_before : Z;
  di_start_by : Z;
  di_finish_by : Z;
  di_binding : Binding;
  di_command : list (list Z);
  di_cwd : list Z;
  di_inputs : Inputs;
  di_caps : option Caps;
  di_results_key : list Z
}.

Definition deletion_ceiling (c : Caps) (copy : CopyOperation) : Z := Z.min (ca_max_delete c) (cl_max_entries (c_limits copy)).

Definition caps_apply (c : Caps) (copy : CopyOperation) (dry_run_prunes : bool) : mres CopyOperation :=
  let l := c_limits copy in
  let l := mkLimits (Z.min (cl_max_entries l) (ca_max_entries c)) (Z.min (cl_max_total_bytes l) (ca_max_bytes c))
             (Z.min (cl_max_file_bytes l) (ca_max_bytes c)) (cl_hash_block_bytes l) (cl_max_connections l) (cl_max_deletions l) in
  let copy := mkCopy (c_destination copy) (c_mutation_scopes copy) (c_policy copy) (c_options copy) l in
  let ceiling := deletion_ceiling c copy in
  let l := mkLimits (cl_max_entries l) (cl_max_total_bytes l) (cl_max_file_bytes l) (cl_hash_block_bytes l) (cl_max_connections l)
             (Z.min (cl_max_deletions l) ceiling) in
  let copy := mkCopy (c_destination copy) (c_mutation_scopes copy) (c_policy copy) (c_options copy) l in
  let prunes := dry_run_prunes || bool_decide (cp_deletion (c_policy copy) = DeleteDestinationOnly) in
  _ ← require (negb (prunes && bool_decide (ceiling = 0))) "pruning needs a positive --max-delete on the approving machine"%string;
  Ok copy.

(** ** Validation *)
Definition RequestId_validate (id : list Z) : mres unit :=
  require (negb (forallb (fun b => bool_decide (b = 0)) id)) "request ID must be random and nonzero"%string.

Definition EnrollmentId_validate (id : list Z) : mres unit :=
  let version := Z.shiftr (nth 6 id 0) 4 in
  require (bool_decide (Z.land (nth 8 id 0) 192 = 128) && within 1 8 version) "enrollment ID must be an RFC 4122 UUID"%string.

Definition in_time (t : Z) : bool := within 0 MAX_UNIX_TIMESTAMP t.

Definition Directive_validate (d : Directive) : mres unit :=
  _ ← require (negb (bool_decide (di_build d = []) || bool_decide (MAX_BUILD_BYTES < lenZ (di_build d))))
        "directive build is outside the supported range"%string;
  _ ← RequestId_validate (di_request_id d);
  _ ← EnrollmentId_validate (bi_enrollment (di_binding d));
  _ ← validate_identity (bi_account (di_binding d));
  _ ← validate_each (fun t => require (in_time t) "directive time is out of range"%string)
        [di_issued_at d; di_not_before d; di_start_by d; di_finish_by d];
  _ ← require (negb (bool_decide (di_issued_at d < di_not_before d) || bool_decide (di_start_by d < di_issued_at d) ||
                     bool_decide (di_finish_by d < di_start_by d)))
        "directive times must satisfy not-before <= issued <= start-by <= finish-by"%string;
  let validity := di_start_by d - di_not_before d in
  _ ← require (negb (bool_decide (validity = 0) || bool_decide (VALIDITY_SECONDS < validity)))
        "a directive must be usable for between 1 second and 24 hours"%string;
  _ ← require (negb (bool_decide (FINISH_WINDOW_SECONDS < di_finish_by d - di_issued_at d)))
        "a directive's copy must finish within 7 days of its issue"%string;
  _ ← require (negb (bool_decide (di_command d = []) ||
                     bool_decide (MAX_COMMAND_BYTES < sumZ ((fun a => lenZ a + 1) <$> di_command d))))
        "directive command is outside the supported range"%string;
  _ ← require (negb (bool_decide (MAX_CWD_BYTES < lenZ (di_cwd d)))) "directive working directory is too long"%string;
  let ignore := in_ignore (di_inputs d) in
  require (negb (bool_decide (MAX_IGNORE_RULES < lenZ ignore) ||
                 existsb (fun r => bool_decide (MAX_IGNORE_RULE_BYTES < lenZ r) || bool_decide (0 ∈ r)) ignore))
    "directive ignore rules are outside the supported range"%string.

(** [issue], at the given time and with the given nonce. *)
Definition i64_add (a b : Z) : option Z := if decide (- 2 ^ 63 <= a + b < 2 ^ 63) then Some (a + b) else None.
Definition i64_saturating_sub (a b : Z) : Z := Z.max (- 2 ^ 63) (Z.min (a - b) (2 ^ 63 - 1)).

(** [RequestId::fresh]: the issue time, then [random]. *)
Definition RequestId_fresh (issued_at : Z) (random : list Z) : mres (list Z) :=
  _ ← require (bool_decide (0 <= issued_at)) "request ID issue time before epoch"%string;
  Ok (to_be_bytes 8 issued_at ++ random).

Definition issue (build : list Z) (issued_at : Z) (random : list Z) (binding : Binding) (command : list (list Z)) (cwd : list Z)
    (inputs : Inputs) (caps : option Caps) (results_key : list Z) : mres Directive :=
  id ← RequestId_fresh issued_at random;
  start_by ← from_option_err "directive start-by overflow"%string (i64_add issued_at (VALIDITY_SECONDS - CLOCK_SKEW_SECONDS));
  finish_by ← from_option_err "directive finish-by overflow"%string (i64_add issued_at FINISH_WINDOW_SECONDS);
  let d := mkDirective build id issued_at (i64_saturating_sub issued_at CLOCK_SKEW_SECONDS) start_by finish_by binding command cwd inputs
             caps results_key in
  _ ← Directive_validate d;
  Ok d.

(** ** The signature's armor *)
Definition newline : Z := 10.
Definition BEGIN_LINE : list Z := bs "-----BEGIN SSH SIGNATURE-----".
Definition END_LINE : list Z := bs "-----END SSH SIGNATURE-----".

(** [str::lines], of a text without carriage returns. *)
Definition text_lines (t : list Z) : list (list Z) :=
  let l := split_on newline t in
  match last l with Some [] => removelast l | _ => l end.

(** [chunks(n)]; [fuel]: at most one chunk for each byte. *)
Fixpoint chunks_loop (n fuel : nat) (l : list Z) : list (list Z) :=
  match fuel, l with
  | _, [] => []
  | O, _ => []
  | S fuel, _ => take n l :: chunks_loop n fuel (drop n l)
  end.
Definition chunks (n : nat) (l : list Z) : list (list Z) := chunks_loop n (length l) l.

Section Encoding.
Context `{HashLib} (b64_encode : list Z -> list Z) (b64_decode : list Z -> option (list Z)).
Context (to_stdvec : Directive -> option (list Z)) (take_from_bytes : list Z -> option (Directive * list Z)).

Definition canonical_sshsig_armor (raw : list Z) : list Z :=
  BEGIN_LINE ++ [newline] ++ mjoin ((fun c => c ++ [newline]) <$> chunks 70 (b64_encode raw)) ++ END_LINE ++ [newline].

(** Every line but the last has 70 characters. *)
Fixpoint wrapped (l : list (list Z)) : bool :=
  match l with
  | [] => true
  | [x] => bool_decide (lenZ x <= 70)
  | x :: l => bool_decide (lenZ x = 70) && wrapped l
  end.

Definition validate_canonical_sshsig (signature : list Z) : mres unit :=
  _ ← require (negb (bool_decide (signature = []) || bool_decide (MAX_SIGNATURE_BYTES < lenZ signature)))
        "SSHSIG length is outside the supported range"%string;
  _ ← require (utf8_valid signature) "SSHSIG armor is not UTF-8"%string;
  _ ← require (negb (bool_decide (13 ∈ signature) || negb (bool_decide (last signature = Some newline)))) "SSHSIG armor is noncanonical"%string;
  let l := text_lines signature in
  _ ← require (negb (bool_decide (length l < 3)%nat || negb (bool_decide (head l = Some BEGIN_LINE)) ||
                     negb (bool_decide (last l = Some END_LINE)))) "malformed SSHSIG armor"%string;
  let encoded := removelast (tail l) in
  _ ← require (negb (existsb (fun x => bool_decide (x = [])) encoded)) "SSHSIG armor contains an empty data line"%string;
  _ ← require (wrapped encoded) "SSHSIG armor has noncanonical line wrapping"%string;
  raw ← from_option_err "malformed SSHSIG base64"%string (b64_decode (mjoin encoded));
  _ ← require (negb (bool_decide (lenZ raw < 10) || negb (bool_decide (take 6 raw = bs "SSHSIG")) ||
                     negb (bool_decide (be_value (take 4 (drop 6 raw)) = 1)))) "malformed or unsupported SSHSIG payload"%string;
  require (bool_decide (canonical_sshsig_armor raw = signature)) "SSHSIG armor is noncanonical"%string.

(** ** The encoding *)
Definition payload (body : list Z) : list Z := MAGIC ++ body.

Definition sign (d : Directive) (signer : list Z -> mres (list Z)) : mres (list Z) :=
  _ ← Directive_validate d;
  body ← from_option_err "encode the directive"%string (to_stdvec d);
  _ ← require (negb (bool_decide (MAX_BODY_BYTES < lenZ body))) "the directive exceeds its size limit"%string;
  signature ← signer (payload body);
  _ ← validate_canonical_sshsig signature;
  Ok (MAGIC ++ to_be_bytes 4 (lenZ body) ++ to_be_bytes 4 (lenZ signature) ++ body ++ signature).

Record Signed := mkSigned { sg_directive : Directive; sg_payload : list Z; sg_signature : list Z }.

Definition Signed_decode (bytes : list Z) : mres Signed :=
  _ ← require (negb (bool_decide (MAX_SIGNED_BYTES < lenZ bytes))) "the directive exceeds its size limit"%string;
  _ ← require (negb (bool_decide (lenZ bytes < HEADER_LEN) || negb (bool_decide (take (length MAGIC) bytes = MAGIC)))) "not a syq directive"%string;
  let body_len := be_value (take 4 (drop 8 bytes)) in
  let signature_len := be_value (take 4 (drop 12 bytes)) in
  _ ← require (negb (bool_decide (body_len = 0) || bool_decide (MAX_BODY_BYTES < body_len) || bool_decide (signature_len = 0) ||
                     bool_decide (MAX_SIGNATURE_BYTES < signature_len) ||
                     negb (bool_decide (lenZ bytes = HEADER_LEN + body_len + signature_len))))
        "the directive's lengths are noncanonical"%string;
  let body := take (Z.to_nat body_len) (drop 16 bytes) in
  '(directive, rest) ← from_option_err "decode the directive"%string (take_from_bytes body);
  encoded ← (if decide (rest = []) then from_option_err "encode the directive"%string (to_stdvec directive)
             else Err "the directive uses a noncanonical encoding"%string);
  _ ← require (bool_decide (encoded = body)) "the directive uses a noncanonical encoding"%string;
  _ ← Directive_validate directive;
  let signature := drop (16 + Z.to_nat body_len) bytes in
  _ ← validate_canonical_sshsig signature;
  Ok (mkSigned directive (payload body) signature).

Definition Signed_digest (s : Signed) : list Z :=
  let h := h_new blake3 in
  let h := h_update blake3 h (bs "syq-directive-transcript@greaber.github" ++ [0]) in
  let h := h_update blake3 h (to_be_bytes 8 (lenZ (sg_payload s))) in
  h_finalize blake3 (h_update blake3 h (sg_payload s)).
End Encoding.

(** ** The receiver's clock and binding *)
Record ReceiverContext := mkContext {
  rx_enrollment_id : list Z;
  rx_generation : Z;
  rx_target_login : list Z;
  rx_build : list Z;
  rx_unix_seconds : Z;
  rx_monotonic : Z;
  rx_clock_skew_seconds : Z
}.

Definition NANOS : Z := 10 ^ 9.
Definition to_i64 (n : Z) : option Z := if decide (n < 2 ^ 63) then Some n else None.

Definition wall_time_bounds_at (c : ReceiverContext) (observed_at : Z) : mres (Z * Z) :=
  _ ← require (bool_decide (rx_monotonic c <= observed_at)) "receiver monotonic clock moved backwards"%string;
  let elapsed := observed_at - rx_monotonic c in
  let out_of_range := "receiver observation duration is out of range"%string in
  let overflow := "receiver time overflow"%string in
  floor ← from_option_err out_of_range (to_i64 (elapsed / NANOS));
  ceil ← from_option_err "receiver observation duration overflow"%string
           (u64_add (elapsed / NANOS) (if decide (elapsed mod NANOS = 0) then 0 else 1));
  ceil ← from_option_err out_of_range (to_i64 ceil);
  earliest ← from_option_err overflow (i64_add (rx_unix_seconds c) floor);
  latest ← from_option_err overflow (i64_add (rx_unix_seconds c) ceil);
  Ok (earliest, latest).

Definition validate_at (c : ReceiverContext) (d : Directive) (observed_at : Z) : mres Z :=
  '(earliest_now, latest_now) ← wall_time_bounds_at c observed_at;
  _ ← EnrollmentId_validate (rx_enrollment_id c);
  _ ← validate_identity (rx_target_login c);
  _ ← require (in_time earliest_now && in_time latest_now) "receiver clock is outside the supported range"%string;
  let skew := rx_clock_skew_seconds c in
  _ ← require (within 0 MAX_CLOCK_SKEW_SECS skew) "receiver clock skew allowance is outside the supported range"%string;
  let binding := di_binding d in
  _ ← require (bool_decide (di_build d = rx_build c)) "the copy was approved for a receiver of another build"%string;
  _ ← require (bool_decide (bi_enrollment binding = rx_enrollment_id c)) "the directive is for a different enrollment"%string;
  _ ← require (bool_decide (bi_generation binding = rx_generation c)) "the directive is for another generation of the enrollment"%string;
  _ ← require (bool_decide (bi_account binding = rx_target_login c)) "the directive is for a different account"%string;
  let overflow := "receiver time overflow"%string in
  latest_acceptable_issue ← from_option_err overflow (i64_add earliest_now skew);
  _ ← require (negb (bool_decide (latest_acceptable_issue < di_issued_at d))) "the directive was issued too far in the future"%string;
  latest_for_start ← from_option_err overflow (i64_add earliest_now skew);
  _ ← require (negb (bool_decide (latest_for_start < di_not_before d))) "the directive is not yet valid"%string;
  earliest_for_expiry ← from_option_err overflow (i64_add latest_now (- skew));
  _ ← require (negb (bool_decide (di_start_by d < earliest_for_expiry))) "the directive's start-by time has passed"%string;
  Ok latest_now.

(** [limit]: the largest [Instant] the platform has. *)
Definition execution_deadline (limit finish_by clock_skew_seconds current_wall_time verified_at : Z) : mres Z :=
  finish_by ← from_option_err "directive finish-by overflow"%string (i64_add finish_by clock_skew_seconds);
  remaining ← from_option_err "directive remaining finish window overflow"%string (i64_add finish_by (- current_wall_time));
  _ ← require (negb (bool_decide (remaining <= 0))) "the directive's finish-by time passed while it was being verified"%string;
  from_option_err "monotonic execution deadline overflow"%string
    (if decide (verified_at + remaining * NANOS <= limit) then Some (verified_at + remaining * NANOS) else None).
