(* ===== verification/DirectiveProps.v ===== *)
(** * What a directive's encoding and times mean

    Signing and reading are inverse, there is one spelling of each directive, and
    no copy is allowed to run past its directive's time. *)

From stdpp Require Import strings.
From S2P Require Import Prelude Text Proto Hashing Mapping Grant AuthData AuthSettle TcpProps Directive.
Local Open Scope Z_scope.

(** ** Numbers in a header *)
Lemma be_value_cons b l : be_value (b :: l) = b * 256 ^ Z.of_nat (length l) + be_value l.
Proof. unfold be_value at 1. cbn [foldl]. rewrite be_value_acc. lia. Qed.

Lemma be_value_range l : Forall is_byte l -> 0 <= be_value l < 256 ^ Z.of_nat (length l).
Proof.
  induction 1 as [|b l Hb _ IH]; [done|]. rewrite be_value_cons. cbn [length]. rewrite Nat2Z.inj_succ, Z.pow_succ_r by lia.
  unfold is_byte in Hb. nia.
Qed.

Lemma be_value_inj l l' : Forall is_byte l -> Forall is_byte l' -> length l = length l' -> be_value l = be_value l' -> l = l'.
Proof.
  intros Hl. revert l'. induction Hl as [|b l Hb Hl IH]; intros [|b' l'] Hl' Hn E; try done. apply Forall_cons in Hl' as [Hb' Hl'].
  injection Hn as Hn. rewrite !be_value_cons, Hn in E. pose proof (be_value_range l Hl) as R. pose proof (be_value_range l' Hl') as R'.
  rewrite Hn in R. unfold is_byte in *. assert (b = b') as -> by nia. f_equal. apply IH; [done..|]. lia.
Qed.

Lemma to_be_bytes_be_value l : Forall is_byte l -> to_be_bytes (length l) (be_value l) = l.
Proof.
  intros Hl. destruct (to_be_bytes_width (length l) (be_value l)) as [Hn Hb].
  apply be_value_inj; [done..|]. rewrite be_value_to_be_bytes. apply Z.mod_small. by apply be_value_range.
Qed.

(** ** Time *)
Lemma i64_add_Some a b c : i64_add a b = Some c -> c = a + b.
Proof. unfold i64_add. case_decide; congruence. Qed.

Lemma to_i64_Some a b : to_i64 a = Some b -> b = a.
Proof. unfold to_i64. case_decide; congruence. Qed.

Lemma from_option_Ok {E A} (e : E) (o : option A) a : from_option_err e o = Ok a -> o = Some a.
Proof. destruct o; cbn; congruence. Qed.

Lemma wall_time_bounds_spec c t e l : wall_time_bounds_at c t = Ok (e, l) ->
  rx_monotonic c <= t /\ e * NANOS <= rx_unix_seconds c * NANOS + (t - rx_monotonic c) <= l * NANOS.
Proof.
  unfold wall_time_bounds_at. intros ([] & H1%require_Ok%bool_decide_eq_true & E)%result_bind_Ok.
  apply result_bind_Ok in E as (fl & Hf%from_option_Ok & E). apply result_bind_Ok in E as (ce & Hc%from_option_Ok & E).
  apply result_bind_Ok in E as (ce' & Hc'%from_option_Ok & E). apply result_bind_Ok in E as (e' & He%from_option_Ok%i64_add_Some & E).
  apply result_bind_Ok in E as (l' & Hl%from_option_Ok%i64_add_Some & E). injection E as <- <-. split; [done|].
  apply to_i64_Some in Hf, Hc'. unfold u64_add in Hc. destruct (decide (_ <= u64_max)); [|done]. injection Hc as Hc.
  pose proof (Z.div_mod (t - rx_monotonic c) NANOS ltac:(done)). pose proof (Z.mod_pos_bound (t - rx_monotonic c) NANOS ltac:(done)).
  subst. case_decide; nia.
Qed.

(** The deadline a receiver runs a copy under is, by the second it observed,
    never later than the directive's finish-by time and the allowed skew. *)
Lemma deadline_in_time c d verified_at limit wall deadline :
  validate_at c d verified_at = Ok wall ->
  execution_deadline limit (di_finish_by d) (rx_clock_skew_seconds c) wall verified_at = Ok deadline ->
  verified_at < deadline <= limit /\
  rx_unix_seconds c * NANOS + (deadline - rx_monotonic c) <= (di_finish_by d + rx_clock_skew_seconds c) * NANOS.
Proof.
  intros Hv Hd. unfold validate_at in Hv. apply result_bind_Ok in Hv as ([e l] & Hb & Hv).
  do 14 (apply result_bind_Ok in Hv as (? & _ & Hv)). injection Hv as <-.
  apply wall_time_bounds_spec in Hb as [Hm Hb]. unfold execution_deadline in Hd.
  apply result_bind_Ok in Hd as (f & Hf%from_option_Ok%i64_add_Some & Hd).
  apply result_bind_Ok in Hd as (r & Hr%from_option_Ok%i64_add_Some & Hd).
  apply result_bind_Ok in Hd as ([] & Hp%require_Ok%negb_true_iff%bool_decide_eq_false & Hd). apply from_option_Ok in Hd.
  case_decide; [|done]. injection Hd as <-. subst. unfold NANOS in *. lia.
Qed.

(** ** The encoding *)
Lemma Ok_inj {E A} (a b : A) : @Ok E A a = Ok b -> a = b.
Proof. congruence. Qed.

Section Encoding.
Context (b64_encode : list Z -> list Z) (b64_decode : list Z -> option (list Z)).
Context (to_stdvec : Directive -> option (list Z)) (take_from_bytes : list Z -> option (Directive * list Z)).
Abbreviation validate_armor := (validate_canonical_sshsig b64_encode b64_decode).
Abbreviation decode := (Signed_decode b64_encode b64_decode to_stdvec take_from_bytes).

(** What [postcard] promises: a value reads back, whatever follows it, and a
    directive, which has fixed-size parts, is never encoded as nothing. *)
Definition postcard_laws : Prop :=
  (forall d body rest, to_stdvec d = Some body -> take_from_bytes (body ++ rest) = Some (d, rest)) /\
  (forall d body, to_stdvec d = Some body -> body <> []).

Lemma validate_armor_spec signature : validate_armor signature = Ok tt ->
  signature <> [] /\ lenZ signature <= MAX_SIGNATURE_BYTES /\ exists raw, signature = canonical_sshsig_armor b64_encode raw.
Proof.
  unfold validate_canonical_sshsig. intros ([] & H1%require_Ok & E)%result_bind_Ok.
  do 5 (apply result_bind_Ok in E as (? & _ & E)). apply result_bind_Ok in E as (raw & _ & E). apply result_bind_Ok in E as (? & _ & E).
  apply require_Ok, bool_decide_eq_true in E. rewrite negb_true_iff, orb_false_iff, !bool_decide_eq_false in H1.
  split; [tauto|]. split; [lia|]. by exists raw.
Qed.

Lemma decode_parts body signature :
  0 < lenZ body <= MAX_BODY_BYTES -> 0 < lenZ signature <= MAX_SIGNATURE_BYTES ->
  decode (MAGIC ++ to_be_bytes 4 (lenZ body) ++ to_be_bytes 4 (lenZ signature) ++ body ++ signature) =
  ('(directive, rest) ← from_option_err "decode the directive"%string (take_from_bytes body);
   encoded ← (if decide (rest = []) then from_option_err "encode the directive"%string (to_stdvec directive)
              else Err "the directive uses a noncanonical encoding"%string);
   _ ← require (bool_decide (encoded = body)) "the directive uses a noncanonical encoding"%string;
   _ ← Directive_validate directive;
   _ ← validate_armor signature;
   Ok (mkSigned directive (payload body) signature)).
Proof.
  intros Hb Hs. set (bytes := MAGIC ++ _).
  assert (Hn : lenZ bytes = HEADER_LEN + lenZ body + lenZ signature).
  { unfold bytes, lenZ, HEADER_LEN. rewrite !length_app, !to_be_bytes_length. cbn [length MAGIC bs app]. lia. }
  assert (Ebl : be_value (take 4 (drop 8 bytes)) = lenZ body).
  { unfold bytes. change 8%nat with (length MAGIC). rewrite drop_app_length, take_app_length' by (symmetry; apply to_be_bytes_length).
    rewrite be_value_to_be_bytes. apply Z.mod_small. change (256 ^ Z.of_nat 4) with 4294967296. unfold MAX_BODY_BYTES in Hb. lia. }
  assert (Esl : be_value (take 4 (drop 12 bytes)) = lenZ signature).
  { unfold bytes. rewrite app_assoc. rewrite drop_app_length' by (rewrite length_app, to_be_bytes_length; reflexivity).
    rewrite take_app_length' by (symmetry; apply to_be_bytes_length). rewrite be_value_to_be_bytes. apply Z.mod_small.
    change (256 ^ Z.of_nat 4) with 4294967296. unfold MAX_SIGNATURE_BYTES in Hs. lia. }
  assert (E16 : drop 16 bytes = body ++ signature).
  { unfold bytes. rewrite !app_assoc, <- (app_assoc _ body). apply drop_app_length'. rewrite !length_app, !to_be_bytes_length. done. }
  assert (Eb : take (Z.to_nat (lenZ body)) (drop 16 bytes) = body).
  { rewrite E16. apply take_app_length'. unfold lenZ. lia. }
  assert (Es : drop (16 + Z.to_nat (lenZ body)) bytes = signature).
  { rewrite <- drop_drop, E16. apply drop_app_length'. unfold lenZ. lia. }
  unfold Signed_decode. rewrite Ebl, Esl, Eb, Es, Hn. unfold MAX_SIGNED_BYTES, HEADER_LEN, MAX_BODY_BYTES, MAX_SIGNATURE_BYTES in *.
  rewrite !(bool_decide_eq_false_2 (_ < _)) by lia. rewrite !(bool_decide_eq_false_2 (lenZ _ = 0)) by lia. rewrite !bool_decide_eq_true_2 by done.
  reflexivity.
Qed.

(** A signed directive reads back: decoding what was signed gives the
    directive, the bytes the signature covers and the signature. *)
Lemma signed_reads_back d signer out : postcard_laws -> sign b64_encode b64_decode to_stdvec d signer = Ok out ->
  exists body signature, to_stdvec d = Some body /\ signer (payload body) = Ok signature /\
    decode out = Ok (mkSigned d (payload body) signature).
Proof.
  intros [Hrt Hne] Hs. unfold sign in Hs. apply result_bind_Ok in Hs as ([] & Hv & Hs).
  apply result_bind_Ok in Hs as (body & Hb%from_option_Ok & Hs). apply result_bind_Ok in Hs as ([] & Hl%require_Ok & Hs).
  apply result_bind_Ok in Hs as (signature & Hg & Hs). apply result_bind_Ok in Hs as ([] & Ha & Hs).
  rewrite negb_true_iff, bool_decide_eq_false in Hl. destruct (validate_armor_spec _ Ha) as (Hn & Hm & _).
  exists body, signature. split; [done|]. split; [done|].
  assert (Hpos : forall l : list Z, l <> [] -> 0 < lenZ l) by (intros [|x l] ?; unfold lenZ; cbn; [done|lia]).
  apply Ok_inj in Hs as <-. rewrite decode_parts; [|split; [eauto|lia]|split; [auto|done]].
  assert (Ht : take_from_bytes body = Some (d, [])) by (rewrite <- (app_nil_r body) at 1; by apply Hrt).
  unfold mbind, result_bind, from_option_err, require. rewrite Ht, decide_True, Hb, bool_decide_eq_true_2, Hv, Ha by done. done.
Qed.

(** C20. There is one spelling of each directive: what a receiver accepts is
    exactly the encoding of the directive and the signature it reads from it, the
    signature's armor included. *)
Theorem directives_have_one_spelling bytes s : Forall is_byte bytes -> decode bytes = Ok s ->
  exists body raw, to_stdvec (sg_directive s) = Some body /\ Directive_validate (sg_directive s) = Ok tt /\
    sg_payload s = payload body /\ sg_signature s = canonical_sshsig_armor b64_encode raw /\
    bytes = MAGIC ++ to_be_bytes 4 (lenZ body) ++ to_be_bytes 4 (lenZ (sg_signature s)) ++ body ++ sg_signature s.
Proof.
  intros Hby E. unfold Signed_decode in E. apply result_bind_Ok in E as ([] & _ & E). apply result_bind_Ok in E as ([] & Hh%require_Ok & E).
  apply result_bind_Ok in E as ([] & Hl%require_Ok & E). apply result_bind_Ok in E as ([d rest] & _ & E).
  apply result_bind_Ok in E as (encoded & He & E). apply result_bind_Ok in E as ([] & Hc%require_Ok%bool_decide_eq_true & E).
  apply result_bind_Ok in E as ([] & Hv & E). apply result_bind_Ok in E as ([] & Ha & E). apply Ok_inj in E as <-. cbn [sg_directive sg_payload sg_signature].
  destruct (validate_armor_spec _ Ha) as (_ & _ & raw & Hraw). case_decide; [|done]. apply from_option_Ok in He. subst encoded.
  set (bl := be_value (take 4 (drop 8 bytes))) in *. set (sl := be_value (take 4 (drop 12 bytes))) in *.
  rewrite negb_true_iff, !orb_false_iff, negb_false_iff, !bool_decide_eq_false, bool_decide_eq_true in Hl.
  rewrite negb_true_iff, orb_false_iff, negb_false_iff, bool_decide_eq_false, bool_decide_eq_true in Hh.
  destruct Hh as [Hh1 Hh2], Hl as [[[[Hb0 Hb1] Hs0] Hs1] Hn]. unfold HEADER_LEN in *.
  assert (Hpos : 0 <= bl /\ 0 <= sl).
  { split; apply be_value_range, Forall_take, Forall_drop; done. }
  exists (take (Z.to_nat bl) (drop 16 bytes)), raw. split_and!; [done|done|done|done|].
  assert (L1 : lenZ (take (Z.to_nat bl) (drop 16 bytes)) = bl) by (unfold lenZ in *; rewrite length_take, length_drop; lia).
  assert (L2 : lenZ (drop (16 + Z.to_nat bl) bytes) = sl) by (unfold lenZ in *; rewrite length_drop; lia).
  rewrite L1, L2. rewrite <- drop_drop, take_drop.
  assert (T : forall k, (k + 4 <= 16)%nat -> to_be_bytes 4 (be_value (take 4 (drop k bytes))) = take 4 (drop k bytes)).
  { intros k Hk. rewrite <- (to_be_bytes_be_value (take 4 (drop k bytes))) at 2 by by apply Forall_take, Forall_drop.
    f_equal. rewrite length_take, length_drop. unfold lenZ in *. lia. }
  unfold bl, sl. rewrite !T by lia. rewrite <- Hh2 at 1. change (length MAGIC) with 8%nat.
  rewrite <- (take_drop 8 bytes) at 1. f_equal. rewrite <- (take_drop 4 (drop 8 bytes)) at 1. f_equal. rewrite drop_drop.
  rewrite <- (take_drop 4 (drop (8 + 4) bytes)) at 1. f_equal. by rewrite drop_drop.
Qed.
End Encoding.

(** ** On a sample directive *)
#[export] Instance Authorization_eq_dec : EqDecision Authorization.
Proof. solve_decision. Defined.
#[export] Instance Role_eq_dec : EqDecision Role.
Proof. solve_decision. Defined.
#[export] Instance Binding_eq_dec : EqDecision Binding.
Proof. solve_decision. Defined.
#[export] Instance Inputs_eq_dec : EqDecision Inputs.
Proof. solve_decision. Defined.
#[export] Instance Caps_eq_dec : EqDecision Caps.
Proof. solve_decision. Defined.
#[export] Instance Directive_eq_dec : EqDecision Directive.
Proof. solve_decision. Defined.

Definition sample_enrollment : list Z := replicate 6 1 ++ [64; 0; 128] ++ replicate 7 1.
Definition sample_directive : Directive :=
  mkDirective (bs "1.0") (replicate 32 7) 1000 940 87340 605800 (mkBinding sample_enrollment 3 (bs "ann") RoleDestination)
    [bs "cp"; bs "a"; bs "host:b"] (bs "/home/ann") (mkInputs [] None) None (replicate 32 9).

(** A toy serializer, which knows only the sample, and a toy base64. *)
Definition toy_encode (d : Directive) : option (list Z) := if decide (d = sample_directive) then Some [42; 43] else None.
Definition toy_take (l : list Z) : option (Directive * list Z) :=
  match l with 42 :: 43 :: rest => Some (sample_directive, rest) | _ => None end.
Definition toy_signature : list Z := canonical_sshsig_armor (fun l => l) (bs "SSHSIG" ++ [0; 0; 0; 1] ++ bs "signature").
Definition sample_signed : list Z :=
  MAGIC ++ to_be_bytes 4 2 ++ to_be_bytes 4 (lenZ toy_signature) ++ [42; 43] ++ toy_signature.

Lemma toy_laws : postcard_laws toy_encode toy_take.
Proof. split; intros d body; [intros rest|]; unfold toy_encode; case_decide; [intros [= <-]|done|intros [= <-]|done]; [by subst|done]. Qed.

Lemma directives_have_one_spelling_witness :
  exists raw, toy_signature = canonical_sshsig_armor (fun l => l) raw /\ Directive_validate sample_directive = Ok tt.
Proof.
  destruct (directives_have_one_spelling (fun l => l) Some toy_encode toy_take sample_signed
    (mkSigned sample_directive (payload [42; 43]) toy_signature)) as (body & raw & _ & Hv & _ & Hs & _).
  - apply (bool_decide_unpack (Forall is_byte sample_signed)). vm_compute. exact I.
  - vm_compute. reflexivity.
  - exists raw. split; [exact Hs|exact Hv].
Defined.

Definition sample_context : ReceiverContext := mkContext sample_enrollment 3 (bs "ann") (bs "1.0") 1000 5 60.

(** [wall]: the time at the observation, in nanoseconds, of which the context
    keeps the whole seconds. *)
Definition observed_second (c : ReceiverContext) (wall : Z) : Prop := wall / NANOS = rx_unix_seconds c.

(** The time a receiver takes for the latest it can be may be in the past:
    the fraction of the second it observed is lost. *)
Theorem latest_time_can_be_early : exists c wall observed_at earliest latest, observed_second c wall /\
  wall_time_bounds_at c observed_at = Ok (earliest, latest) /\ latest * NANOS < wall + (observed_at - rx_monotonic c).
Proof. exists sample_context, (1000 * NANOS + 900000000), 500000005, 1000, 1001. split_and!; by vm_compute. Qed.
