(* ===== verification/Signer.v ===== *)
(** * The trusted signer (src/src/delegation.rs)

    The login key a receiver trusts: which keys it can check, what a signature
    must show, and the armored signature a signer writes.
    - [ssh_key] and [rsa] are libraries: [SshKeys] holds what is used of them.
    - Public keys and signatures are the libraries' own values; [sig_bytes] is
      the signature with the flags byte and counter of a FIDO key at its end. *)

From stdpp Require Import strings.
From S2P Require Import Prelude Text Proto Hashing Mapping Grant AuthSettle TcpProps Directive.
Local Open Scope Z_scope.

Inductive HashAlg := HashSha256 | HashSha512.
Inductive Algorithm :=
| Ed25519 | Ecdsa (curve : list Z) | Rsa (hash : option HashAlg) | SkEd25519 | SkEcdsaSha2NistP256
| OtherAlgorithm (name : list Z).

Class SshKeys := {
  KeyData : Type;
  Signature : Type;
  SshSig : Type;
  key_eq_dec :: EqDecision KeyData;
  from_openssh : list Z -> option KeyData;
  to_openssh : KeyData -> option (list Z);
  key_algorithm : KeyData -> Algorithm;
  (** [KeyData::rsa]: the modulus and the exponent, each with its
      [as_positive_bytes]. *)
  key_rsa : KeyData -> option (option (list Z) * option (list Z));
  key_verify : KeyData -> list Z -> Signature -> bool;
  (** [RsaPublicKey::new_with_max_size] accepts the modulus and exponent. *)
  rsa_accepts : list Z -> list Z -> Z -> bool;
  rsa_signature_parses : list Z -> bool;
  rsa_verify : HashAlg -> list Z -> list Z -> list Z -> list Z -> bool;
  from_pem : list Z -> option SshSig;
  ss_namespace : SshSig -> list Z;
  ss_reserved : SshSig -> list Z;
  ss_public_key : SshSig -> KeyData;
  ss_hash_alg : SshSig -> HashAlg;
  ss_signature : SshSig -> Signature;
  sig_algorithm : Signature -> Algorithm;
  sig_bytes : Signature -> list Z;
  signed_data : list Z -> HashAlg -> list Z -> option (list Z);
  (** [Encode] of a byte string. *)
  ssh_string : list Z -> option (list Z);
  (** [encode_prefixed]: the key with its length before it. *)
  key_prefixed : KeyData -> option (list Z);
  algorithm_name : Algorithm -> list Z;
  hash_name : HashAlg -> list Z
}.

Definition SK_USER_PRESENCE : Z := 1.
Definition SK_USER_VERIFICATION : Z := 4.
Definition MAX_RSA_BITS : Z := 16384.
Definition MIN_RSA_BITS : Z := 2048.

Definition leading_zeros (b : Z) : Z := if decide (b = 0) then 8 else 7 - Z.log2 b.

Definition security_key (a : Algorithm) : bool := match a with SkEd25519 | SkEcdsaSha2NistP256 => true | _ => false end.

Section Signer.
Context `{SshKeys}.

Record TrustedSigner := mkSigner {
  ts_public_key : list Z;
  ts_security_key_flags : option Z;
  ts_valid_before : option Z
}.

Definition signer_key (s : TrustedSigner) : mres KeyData :=
  from_option_err "parse the trusted login key"%string (from_openssh (ts_public_key s)).

Definition rsa_bits (key : KeyData) : option Z :=
  '(n, _) ← key_rsa key;
  modulus ← n;
  Some match modulus with [] => 0 | first :: _ => lenZ modulus * 8 - leading_zeros first end.

Definition signer_validate (s : TrustedSigner) : mres unit :=
  key ← signer_key s;
  let a := key_algorithm key in
  _ ← match a with
      | OtherAlgorithm _ => Err "syq cannot check signatures made with this login key"%string
      | _ => Ok tt
      end;
  _ ← match security_key a, ts_security_key_flags s with
      | true, Some flags =>
          require (bool_decide (Z.ldiff flags (Z.lor SK_USER_PRESENCE SK_USER_VERIFICATION) = 0))
            "unsupported FIDO touch and PIN policy"%string
      | true, None => Err "a FIDO login key needs a touch and PIN policy"%string
      | false, Some _ => Err "a touch and PIN policy applies only to a FIDO login key"%string
      | false, None => Ok tt
      end;
  match rsa_bits key with
  | Some bits =>
      _ ← require (negb (bool_decide (bits < MIN_RSA_BITS))) "RSA login keys need at least 2048 bits"%string;
      require (negb (bool_decide (MAX_RSA_BITS < bits))) "syq checks RSA login keys of up to 16384 bits"%string
  | None => Ok tt
  end.

(** The comment of [key] is dropped: it is no part of [KeyData]. *)
Definition signer_new (key : KeyData) (flags valid_before : option Z) : mres TrustedSigner :=
  public_key ← from_option_err "encode the trusted login key"%string (to_openssh key);
  let signer := mkSigner public_key flags valid_before in
  _ ← signer_validate signer;
  Ok signer.

Definition verify_signature (key : KeyData) (data : list Z) (signature : Signature) : mres unit :=
  match key_rsa key with
  | None => require (key_verify key data signature) "the signature does not verify"%string
  | Some (n, e) =>
      n ← from_option_err "RSA modulus"%string n;
      e ← from_option_err "RSA exponent"%string e;
      _ ← require (rsa_accepts n e MAX_RSA_BITS) "unsupported RSA key"%string;
      _ ← require (rsa_signature_parses (sig_bytes signature)) "malformed RSA signature"%string;
      match sig_algorithm signature with
      | Rsa (Some h) => require (rsa_verify h n e data (sig_bytes signature)) "the signature does not verify"%string
      | _ => Err "an RSA key cannot have made this signature"%string
      end
  end.

Definition security_key_flags (signature : SshSig) : mres Z :=
  _ ← require (security_key (sig_algorithm (ss_signature signature))) "the signature was not made by a FIDO key"%string;
  let bytes := sig_bytes (ss_signature signature) in
  index ← from_option_err "truncated FIDO signature"%string (if decide (length bytes < 5)%nat then None else Some (length bytes - 5)%nat);
  Ok (nth index bytes 0).

Definition signer_verify (s : TrustedSigner) (namespace payload armored : list Z) (now : Z) : mres unit :=
  _ ← signer_validate s;
  _ ← match ts_valid_before s with
      | Some valid_before =>
          require (negb (bool_decide (now < 0) || bool_decide (valid_before <= now)))
            "the login certificate this receiver trusts has expired"%string
      | None => Ok tt
      end;
  key ← signer_key s;
  signature ← from_option_err "parse the SSH signature"%string (from_pem armored);
  _ ← require (bool_decide (ss_namespace signature = namespace)) "the signature was made for another purpose"%string;
  _ ← require (bool_decide (ss_reserved signature = [])) "the signature carries reserved data"%string;
  _ ← require (bool_decide (ss_public_key signature = key)) "the signature was made by a key this receiver does not trust"%string;
  signed ← from_option_err "the signed data"%string (signed_data namespace (ss_hash_alg signature) payload);
  _ ← match verify_signature key signed (ss_signature signature) with
      | Ok _ => Ok tt
      | Err _ => Err "the signature does not verify with the trusted login key"%string
      end;
  match ts_security_key_flags s with
  | Some required =>
      flags ← security_key_flags signature;
      require (bool_decide (Z.land flags required = required)) "the signature lacks the FIDO flags this receiver requires"%string
  | None => Ok tt
  end.

(** ** The armored signature a signer writes *)
Definition ssh_encode (s : list Z) : mres (list Z) := from_option_err "length invalid"%string (ssh_string s).

Definition encoded_signature (signature : Signature) : mres (list Z) :=
  name ← ssh_encode (algorithm_name (sig_algorithm signature));
  let bytes := sig_bytes signature in
  if security_key (sig_algorithm signature) then
    split ← from_option_err "truncated FIDO signature"%string (if decide (length bytes < 5)%nat then None else Some (length bytes - 5)%nat);
    start ← ssh_encode (take split bytes);
    Ok (name ++ start ++ drop split bytes)
  else all ← ssh_encode bytes; Ok (name ++ all).

Definition armored_sshsig (b64_encode : list Z -> list Z) (key : KeyData) (namespace : list Z) (hash : HashAlg) (signature : Signature) : mres (list Z) :=
  encoded ← encoded_signature signature;
  prefixed ← from_option_err "encode the key"%string (key_prefixed key);
  namespace ← ssh_encode namespace;
  reserved ← ssh_encode [];
  hash ← ssh_encode (hash_name hash);
  encoded ← ssh_encode encoded;
  Ok (canonical_sshsig_armor b64_encode (bs "SSHSIG" ++ to_be_bytes 4 1 ++ prefixed ++ namespace ++ reserved ++ hash ++ encoded)).
End Signer.
