(* ===== verification/SignerProps.v ===== *)
(** * What a trusted signer's signatures mean

    The size of an RSA key, what an accepted signature shows, and that the armor
    a signer writes is the armor a receiver accepts. *)

From stdpp Require Import strings.
From S2P Require Import Prelude Text Proto Hashing Mapping Grant AuthSettle TcpProps Directive DirectiveProps Signer.
Local Open Scope Z_scope.

(** ** Lines of seventy characters *)
Section Chunks.
Context (n : nat).
Hypothesis Hn : (0 < n)%nat.

Lemma chunks_loop_join fuel l : (length l <= fuel)%nat -> mjoin (chunks_loop n fuel l) = l.
Proof.
  revert l. induction fuel as [|fuel IH]; intros [|x l] Hl; try done; cbn [length] in Hl; [lia|]. cbn [chunks_loop].
  change (mjoin (?a :: ?b)) with (a ++ mjoin b). rewrite IH; [apply take_drop|]. rewrite length_drop. cbn. lia.
Qed.

Lemma chunks_loop_part fuel l c : c ∈ chunks_loop n fuel l -> c <> [] /\ forall x, x ∈ c -> x ∈ l.
Proof.
  revert l. induction fuel as [|fuel IH]; intros [|x l]; try (cbn; set_solver). cbn [chunks_loop]. intros [->|Hc]%elem_of_cons.
  - split; [destruct n; [lia|done]|]. intros y (i & Hi & _)%elem_of_take. by eapply list_elem_of_lookup_2.
  - destruct (IH _ Hc) as [Hne Hs]. split; [done|]. intros y Hy%Hs. rewrite <- (take_drop n (x :: l)). set_solver.
Qed.
End Chunks.

Lemma wrapped_chunks fuel l : wrapped (chunks_loop 70 fuel l) = true.
Proof.
  revert l. induction fuel as [|fuel IH]; intros [|x l]; try done. cbn [chunks_loop]. specialize (IH (drop 70 (x :: l))).
  destruct (chunks_loop 70 fuel (drop 70 (x :: l))) as [|c cs] eqn:E; cbn [wrapped].
  - apply bool_decide_eq_true. unfold lenZ. pose proof (length_take_le (x :: l) 70). rewrite length_take. lia.
  - rewrite andb_true_iff. split; [|done]. apply bool_decide_eq_true. unfold lenZ. rewrite length_take.
    destruct (decide (70 <= length (x :: l))%nat) as [|Hlt]; [lia|]. rewrite drop_ge in E by lia. by destruct fuel.
Qed.

(** Lines, each with its newline, read back. *)
Lemma split_on_lines ls : (forall c, c ∈ ls -> newline ∉ c) -> split_on newline (mjoin ((fun c => c ++ [newline]) <$> ls)) = ls ++ [[]].
Proof.
  intros Hls. induction ls as [|c ls IH]; [done|]. cbn [fmap list_fmap]. change (mjoin (?a :: ?b)) with (a ++ mjoin b). rewrite <- app_assoc. cbn [app].
  rewrite split_on_app, split_on_no_sep by (apply Hls; left). rewrite IH; [done|]. intros c' Hc'. apply Hls. by right.
Qed.

Lemma text_lines_join ls : (forall c, c ∈ ls -> newline ∉ c) -> text_lines (mjoin ((fun c => c ++ [newline]) <$> ls)) = ls.
Proof. intros Hls. unfold text_lines. rewrite split_on_lines, last_snoc by done. apply removelast_last. Qed.

Lemma utf8_ascii l : Forall (fun b => 0 <= b <= 127) l -> utf8_valid l = true.
Proof. induction 1 as [|b l Hb _ IH]; [done|]. cbn. unfold within. by rewrite bool_decide_eq_true_2. Qed.

(** ** The armor *)
(** What [base64] promises: it reads back, and writes printable ASCII. *)
Definition base64_laws (b64_encode : list Z -> list Z) (b64_decode : list Z -> option (list Z)) : Prop :=
  (forall l, Forall is_byte l -> b64_decode (b64_encode l) = Some l) /\
  (forall l, Forall (fun b => 33 <= b <= 126) (b64_encode l)) /\
  (forall l, l <> [] -> b64_encode l <> []).

Section Armor.
Context (b64_encode : list Z -> list Z) (b64_decode : list Z -> option (list Z)).
Hypothesis laws : base64_laws b64_encode b64_decode.

(** A blob as [armored_sshsig] makes it. *)
Definition sshsig_blob (raw : list Z) : Prop := Forall is_byte raw /\ exists rest, raw = bs "SSHSIG" ++ to_be_bytes 4 1 ++ rest.

Lemma armor_lines raw : canonical_sshsig_armor b64_encode raw =
  mjoin ((fun c => c ++ [newline]) <$> BEGIN_LINE :: chunks 70 (b64_encode raw) ++ [END_LINE]).
Proof.
  unfold canonical_sshsig_armor. cbn [fmap list_fmap]. rewrite fmap_app. change (mjoin (?a :: ?b)) with (a ++ mjoin b).
  rewrite join_app, <- !app_assoc. done.
Qed.

Lemma chunk_printable raw c b : c ∈ chunks 70 (b64_encode raw) -> b ∈ c -> 33 <= b <= 126.
Proof.
  intros Hc Hb. destruct laws as (_ & Hp & _). specialize (Hp raw). rewrite Forall_forall in Hp. apply Hp.
  by eapply (chunks_loop_part 70 ltac:(lia)); [|exact Hb].
Qed.

(** Every line of the armor, its ends included, is printable. *)
Lemma line_printable raw c b : c ∈ BEGIN_LINE :: chunks 70 (b64_encode raw) ++ [END_LINE] -> b ∈ c -> 32 <= b <= 126.
Proof.
  intros [->|[Hc| ->%list_elem_of_singleton]%elem_of_app]%elem_of_cons Hb.
  - revert b Hb. apply (proj1 (Forall_forall (fun b => 32 <= b <= 126) BEGIN_LINE)). by apply (bool_decide_unpack _).
  - pose proof (chunk_printable _ _ _ Hc Hb). lia.
  - revert b Hb. apply (proj1 (Forall_forall (fun b => 32 <= b <= 126) END_LINE)). by apply (bool_decide_unpack _).
Qed.

Lemma armor_bytes raw : Forall (fun b => b = newline \/ 32 <= b <= 126) (canonical_sshsig_armor b64_encode raw).
Proof.
  rewrite armor_lines. apply Forall_forall. intros b Hb. apply list_elem_of_join in Hb as (l & Hb & Hl).
  apply list_elem_of_fmap in Hl as (c & -> & Hc). apply elem_of_app in Hb as [Hb|Hb%list_elem_of_singleton]; [|by left]. right. by eapply line_printable.
Qed.

Lemma armor_text_lines raw : text_lines (canonical_sshsig_armor b64_encode raw) = BEGIN_LINE :: chunks 70 (b64_encode raw) ++ [END_LINE].
Proof. rewrite armor_lines. apply text_lines_join. intros c Hc Hb. pose proof (line_printable raw c newline Hc Hb). unfold newline in *. lia. Qed.

Lemma armor_ends raw : last (canonical_sshsig_armor b64_encode raw) = Some newline.
Proof. unfold canonical_sshsig_armor. by rewrite !app_assoc, last_snoc. Qed.

(** The armor of a signature is accepted, unless it is too long. *)
Lemma canonical_armor_accepted raw : sshsig_blob raw -> lenZ (canonical_sshsig_armor b64_encode raw) <= MAX_SIGNATURE_BYTES ->
  validate_canonical_sshsig b64_encode b64_decode (canonical_sshsig_armor b64_encode raw) = Ok tt.
Proof.
  intros [Hby (rest & Hraw)] Hlen. pose proof (armor_text_lines raw) as Hl. pose proof (armor_bytes raw) as Hb. pose proof (armor_ends raw) as He.
  pose proof laws as (Hrt & _ & Hne).
  set (armor := canonical_sshsig_armor b64_encode raw) in *. set (cs := chunks 70 (b64_encode raw)) in *.
  assert (Hcs : mjoin cs = b64_encode raw) by (by apply chunks_loop_join; lia).
  assert (Hcne : cs <> []). { intros E. rewrite E in Hcs. cbn in Hcs. apply (Hne raw); [by rewrite Hraw|done]. }
  assert (Henc : removelast (tail (BEGIN_LINE :: cs ++ [END_LINE])) = cs) by apply removelast_last.
  assert (H3 : existsb (fun x => bool_decide (x = [])) cs = false).
  { apply not_true_iff_false. rewrite existsb_exists. intros (c & Hc%list_elem_of_In & Hx%bool_decide_eq_true).
    by eapply (chunks_loop_part 70 ltac:(lia)) in Hc as [Hc _]. }
  assert (Hd : b64_decode (b64_encode raw) = Some raw) by auto.
  assert (Hu : utf8_valid armor = true) by (apply utf8_ascii; eapply Forall_impl; [exact Hb|]; unfold newline; cbn; lia).
  assert (Hcr : 13 ∉ armor). { intros Hin. rewrite Forall_forall in Hb. apply Hb in Hin. unfold newline in Hin. lia. }
  assert (Hnil : armor <> []) by by intros ->.
  unfold validate_canonical_sshsig. rewrite Hl, Hu, He, Henc, H3, Hcs, Hd.
  rewrite (bool_decide_eq_false_2 _ Hnil), (bool_decide_eq_false_2 _ Hcr), (bool_decide_eq_false_2 (MAX_SIGNATURE_BYTES < _)) by lia.
  rewrite (bool_decide_eq_true_2 (Some newline = _)) by done. cbn [negb orb require mbind result_bind].
  rewrite (bool_decide_eq_false_2 (length _ < 3)%nat) by (cbn; rewrite length_app; destruct cs; cbn; [done|lia]).
  rewrite app_comm_cons, last_snoc, (bool_decide_eq_true_2 (Some END_LINE = _)), (bool_decide_eq_true_2 (head _ = _)) by done.
  assert (Hw : wrapped cs = true) by apply wrapped_chunks. rewrite Hw.
  assert (H6 : take 6 raw = bs "SSHSIG") by by rewrite Hraw. assert (H4 : be_value (take 4 (drop 6 raw)) = 1) by by rewrite Hraw.
  assert (H10 : 10 <= lenZ raw) by (rewrite Hraw; unfold lenZ; rewrite !length_app; cbn; lia).
  cbn [negb orb require mbind result_bind from_option_err]. rewrite H6, H4, (bool_decide_eq_false_2 (_ < 10)) by lia.
  rewrite !bool_decide_eq_true_2 by done. done.
Qed.
End Armor.

(** ** Directives signed by an SSH key *)
Class SshBytes `{SshKeys} : Prop := {
  ssh_string_bytes l s : Forall is_byte l -> ssh_string l = Some s -> Forall is_byte s;
  key_prefixed_bytes k s : key_prefixed k = Some s -> Forall is_byte s;
  algorithm_name_bytes a : Forall is_byte (algorithm_name a);
  hash_name_bytes h : Forall is_byte (hash_name h);
  sig_bytes_bytes s : Forall is_byte (sig_bytes s)
}.

Section Signing.
Context `{SshBytes} (b64_encode : list Z -> list Z) (b64_decode : list Z -> option (list Z)).
Context (to_stdvec : Directive -> option (list Z)) (take_from_bytes : list Z -> option (Directive * list Z)).

Lemma ssh_encode_bytes l s : Forall is_byte l -> ssh_encode l = Ok s -> Forall is_byte s.
Proof. intros Hl E%from_option_Ok. by eapply ssh_string_bytes. Qed.

Lemma encoded_signature_bytes signature s : encoded_signature signature = Ok s -> Forall is_byte s.
Proof.
  unfold encoded_signature. intros (name & Hn & E)%result_bind_Ok. apply ssh_encode_bytes in Hn; [|apply algorithm_name_bytes].
  pose proof (sig_bytes_bytes signature) as Hb. destruct (security_key _).
  - apply result_bind_Ok in E as (k & _ & E). apply result_bind_Ok in E as (start & Hs%ssh_encode_bytes & E); [|by apply Forall_take]. apply Ok_inj in E as <-.
    rewrite !Forall_app. split_and!; [done..|by apply Forall_drop].
  - apply result_bind_Ok in E as (all & Ha%ssh_encode_bytes & E); [|done]. apply Ok_inj in E as <-. by apply Forall_app.
Qed.

Lemma NAMESPACE_bytes : Forall is_byte NAMESPACE.
Proof. apply (bool_decide_unpack _). vm_compute. exact I. Qed.

Lemma armored_sshsig_blob key namespace hash signature armored : Forall is_byte namespace ->
  armored_sshsig b64_encode key namespace hash signature = Ok armored ->
  exists raw, armored = canonical_sshsig_armor b64_encode raw /\ sshsig_blob raw.
Proof.
  intros Hns. unfold armored_sshsig. intros (e & He%encoded_signature_bytes & E)%result_bind_Ok.
  apply result_bind_Ok in E as (k & Hk%from_option_Ok%key_prefixed_bytes & E). apply result_bind_Ok in E as (n & Hn%ssh_encode_bytes & E); [|done].
  apply result_bind_Ok in E as (r & Hr%ssh_encode_bytes & E); [|done]. apply result_bind_Ok in E as (h & Hh%ssh_encode_bytes & E); [|apply hash_name_bytes].
  apply result_bind_Ok in E as (s & Hs%ssh_encode_bytes & E); [|done]. apply Ok_inj in E as <-. eexists. split; [done|]. split; [|eauto].
  rewrite !Forall_app. split_and!; try done; apply (bool_decide_unpack _); vm_compute; exact I.
Qed.

(** C18. A valid directive signed with a login key, if it is within the size
    limits, is encoded, and reads back as the directive, the bytes the key signed
    and its signature. *)
Theorem key_signed_directives_read_back d key hash make body signature :
  base64_laws b64_encode b64_decode -> postcard_laws to_stdvec take_from_bytes ->
  Directive_validate d = Ok tt -> to_stdvec d = Some body -> lenZ body <= MAX_BODY_BYTES ->
  armored_sshsig b64_encode key NAMESPACE hash (make (payload body)) = Ok signature -> lenZ signature <= MAX_SIGNATURE_BYTES ->
  exists out, sign b64_encode b64_decode to_stdvec d (fun p => armored_sshsig b64_encode key NAMESPACE hash (make p)) = Ok out /\
    Signed_decode b64_encode b64_decode to_stdvec take_from_bytes out = Ok (mkSigned d (payload body) signature).
Proof.
  intros Hb64 Hpc Hv Hbody Hblen Hsig Hslen.
  destruct (armored_sshsig_blob _ _ _ _ _ NAMESPACE_bytes Hsig) as (raw & Hs & Hraw).
  assert (Ha : validate_canonical_sshsig b64_encode b64_decode signature = Ok tt) by (subst signature; by apply canonical_armor_accepted).
  assert (Hsign : sign b64_encode b64_decode to_stdvec d (fun p => armored_sshsig b64_encode key NAMESPACE hash (make p)) =
    Ok (MAGIC ++ to_be_bytes 4 (lenZ body) ++ to_be_bytes 4 (lenZ signature) ++ body ++ signature)).
  { unfold sign. rewrite Hv, Hbody. cbn [mbind result_bind from_option_err]. rewrite bool_decide_eq_false_2 by lia. cbn [negb require]. rewrite Hsig. cbn [mbind result_bind]. by rewrite Ha. }
  eexists. split; [exact Hsign|]. destruct (signed_reads_back _ _ _ _ _ _ _ Hpc Hsign) as (b & s & Eb & Es & Hd).
  assert (b = body) as -> by congruence. assert (s = signature) as -> by congruence. exact Hd.
Qed.
End Signing.

(** ** What an accepted signature shows *)
Lemma leading_zeros_log2 b : 0 < b < 256 -> leading_zeros b = 7 - Z.log2 b.
Proof. intros Hb. unfold leading_zeros. by rewrite decide_False by lia. Qed.

Lemma log2_be_value b l : 0 < b < 256 -> Forall is_byte l -> Z.log2 (be_value (b :: l)) = Z.log2 b + 8 * lenZ l.
Proof.
  intros Hb Hl. rewrite be_value_cons. pose proof (be_value_range l Hl) as Hr. unfold lenZ. change 256 with (2 ^ 8) in *. rewrite <- Z.pow_mul_r in * by lia.
  set (k := 8 * Z.of_nat (length l)) in *. assert (0 <= k) by lia. apply Z.log2_unique; [pose proof (Z.log2_nonneg b); lia|].
  pose proof (Z.log2_spec b ltac:(lia)) as [H1 H2]. rewrite <- Z.add_succ_l, !Z.pow_add_r by (pose proof (Z.log2_nonneg b); lia). nia.
Qed.

Section Accepted.
Context `{SshKeys}.

(** [rsa_bits] is the length of the modulus as a number. *)
Lemma rsa_bits_value key n e b l : key_rsa key = Some (Some n, e) -> n = b :: l -> 0 < b < 256 -> Forall is_byte l ->
  rsa_bits key = Some (Z.log2 (be_value n) + 1).
Proof.
  intros Hk -> Hb Hl. unfold rsa_bits. rewrite Hk. cbn [mbind option_bind]. rewrite leading_zeros_log2, log2_be_value by done.
  f_equal. unfold lenZ. cbn [length]. lia.
Qed.

(** A key whose signatures can be checked, with the policy its kind needs. *)
Definition trusted_key (s : TrustedSigner) (key : KeyData) : Prop :=
  (forall name, key_algorithm key <> OtherAlgorithm name) /\
  (security_key (key_algorithm key) = true <-> is_Some (ts_security_key_flags s)) /\
  (forall bits, rsa_bits key = Some bits -> MIN_RSA_BITS <= bits <= MAX_RSA_BITS).

Lemma signer_validate_spec s : signer_validate s = Ok tt -> exists key, signer_key s = Ok key /\ trusted_key s key.
Proof.
  unfold signer_validate. intros (key & Hk & E)%result_bind_Ok. apply result_bind_Ok in E as ([] & Ha & E). apply result_bind_Ok in E as ([] & Hf & E).
  exists key. split; [done|]. split_and!.
  - intros name En. by rewrite En in Ha.
  - clear Ha E. destruct (security_key _), (ts_security_key_flags s); try done; split; eauto; by intros [? ?].
  - intros bits Hb. rewrite Hb in E. apply result_bind_Ok in E as ([] & H1%require_Ok & H2%require_Ok).
    rewrite negb_true_iff, bool_decide_eq_false in H1, H2. lia.
Qed.

(** C19. A signature is accepted only from the trusted key, of a kind and size it
    may have, over the payload in the namespace it was made for, before a
    certificate expires and with every touch and PIN flag the receiver asks. *)
Theorem accepted_signatures_are_trusted s namespace payload armored now : signer_verify s namespace payload armored now = Ok tt ->
  exists key signature data, signer_key s = Ok key /\ trusted_key s key /\ from_pem armored = Some signature /\
    ss_public_key signature = key /\ ss_namespace signature = namespace /\ ss_reserved signature = [] /\
    signed_data namespace (ss_hash_alg signature) payload = Some data /\ verify_signature key data (ss_signature signature) = Ok tt /\
    (forall valid_before, ts_valid_before s = Some valid_before -> 0 <= now < valid_before) /\
    (forall required, ts_security_key_flags s = Some required -> exists flags, security_key_flags signature = Ok flags /\
       forall i, Z.testbit required i = true -> Z.testbit flags i = true).
Proof.
  unfold signer_verify. intros ([] & (key & Hk & Hv)%signer_validate_spec & E)%result_bind_Ok. apply result_bind_Ok in E as ([] & He & E).
  rewrite Hk in E. cbn [mbind result_bind] in E. apply result_bind_Ok in E as (sig & Hs%from_option_Ok & E).
  apply result_bind_Ok in E as ([] & H1%require_Ok%bool_decide_eq_true & E). apply result_bind_Ok in E as ([] & H2%require_Ok%bool_decide_eq_true & E).
  apply result_bind_Ok in E as ([] & H3%require_Ok%bool_decide_eq_true & E). apply result_bind_Ok in E as (data & Hd%from_option_Ok & E).
  apply result_bind_Ok in E as ([] & Hg & E). destruct (verify_signature key data (ss_signature sig)) as [[]|] eqn:Eg; [|done].
  exists key, sig, data. split_and!; try done.
  - intros vb Hvb. rewrite Hvb in He. apply require_Ok in He. rewrite negb_true_iff, orb_false_iff, !bool_decide_eq_false in He. lia.
  - intros required Hr. rewrite Hr in E. apply result_bind_Ok in E as (flags & Hf & Hl%require_Ok%bool_decide_eq_true). exists flags. split; [done|].
    intros i Hi. rewrite <- Hl, Z.land_spec in Hi. by apply andb_true_iff in Hi as [? _].
Qed.
End Accepted.
