(* ===== verification/Redeem.v ===== *)
(** * Redeeming a directive (src/src/delegation.rs, src/src/restricted/receiver.rs)

    The receiver's programs that verify a directive and record it as used, over
    the system calls they make.
    - A program is the tree of its calls and of what it does with each answer,
      so that it can be run beside others, step by step ([RedeemSystem]).
    - Errors of [anyhow] are their messages; an [io::Error] is its kind.
    - A call the source repeats while it is interrupted ([openat_os_file],
      [flock_exclusive]) is one call, whose answer is the first other one.
    - A descriptor of a file is the file's inode. *)

From stdpp Require Import strings.
From S2P Require Import Prelude Text Proto Hashing Mapping Grant AuthSettle TcpProps Directive Signer.
Local Open Scope Z_scope.

(** ** System calls *)
Inductive ErrorKind := NotFound | AlreadyExists | OtherError.
#[export] Instance ErrorKind_eq_dec : EqDecision ErrorKind.
Proof. solve_decision. Defined.

Abbreviation ires := (result ErrorKind).

Record Stat := mkStat { st_is_file : bool; st_is_dir : bool; st_uid : Z; st_mode : Z }.

Inductive SysCall : Set -> Type :=
| InstantNow : SysCall Z
| UnixNow : SysCall Z                                          (* [SystemTime::now], in seconds *)
| GetRandom (n : nat) : SysCall (ires (list Z))
| Sleep : SysCall unit
| OpenDirectory : SysCall (ires unit)
| StatDirectory : SysCall (ires Stat)
| OpenRead (name : list Z) : SysCall (ires nat)                (* [O_RDONLY] *)
| OpenCreate (name : list Z) : SysCall (ires nat)              (* [O_RDWR | O_CREAT] *)
| OpenExclusive (name : list Z) : SysCall (ires nat)           (* [O_WRONLY | O_CREAT | O_EXCL] *)
| StatFile (fd : nat) : SysCall (ires Stat)
| ReadUpTo (fd : nat) (n : nat) : SysCall (ires (list Z))      (* [take(n).read_to_end] *)
| WriteAll (fd : nat) (bytes : list Z) : SysCall (ires unit)
| SyncFile (fd : nat) : SysCall (ires unit)
| SyncDirectory : SysCall (ires unit)
| LinkAt (old new : list Z) : SysCall (ires unit)
| UnlinkAt (name : list Z) : SysCall (ires unit)
| Flock (fd : nat) : SysCall (ires unit)
| Close (fd : nat) : SysCall unit.

(** ** Programs *)
Inductive prog (E A : Type) : Type :=
| Return (r : result E A)
| Ask {X : Set} (c : SysCall X) (k : X -> prog E A).
Arguments Return {E A} r.
Arguments Ask {E A X} c k.

(** Run [p] and go on with what it returns. *)
Fixpoint handle {E A E' B} (p : prog E A) (f : result E A -> prog E' B) : prog E' B :=
  match p with
  | Return r => f r
  | Ask c k => Ask c (fun x => handle (k x) f)
  end.

#[export] Instance prog_ret {E} : MRet (prog E) := fun A a => Return (Ok a).
#[export] Instance prog_bind {E} : MBind (prog E) := fun A B f p =>
  handle p (fun r => match r with Ok a => f a | Err e => Return (Err e) end).

Definition call {E} {X : Set} (c : SysCall X) : prog E X := Ask c (fun x => Return (Ok x)).
(** A call whose failure is the program's. *)
Definition io_call {X : Set} (c : SysCall (ires X)) : prog ErrorKind X := Ask c Return.
Definition pure {E A} (r : result E A) : prog E A := Return r.
Definition fail {E A} (e : E) : prog E A := Return (Err e).
Definition context {A} (m : string) (p : prog ErrorKind A) : prog string A :=
  handle p (fun r => match r with Ok a => Return (Ok a) | Err _ => Return (Err m) end).
(** The value is dropped, whatever [p] returns. *)
Definition ignore {E E' A} (p : prog E A) : prog E' unit := handle p (fun _ => Return (Ok tt)).
(** [p], with the descriptor [fd] closed when it is left. *)
Definition closing {E A} (fd : nat) (p : prog E A) : prog E A := handle p (fun r => Ask (Close fd) (fun _ => Return r)).

(** ** Names and records *)
Definition REDEMPTION_MAGIC : list Z := bs "SYQCLM" ++ [0; 0].
Definition REDEMPTION_RECORD_LEN : nat := 80.
Definition RequestId := list Z.
Definition hex (bytes : list Z) : list Z := flat_map hex_byte bytes.
Definition file_component (request : RequestId) : list Z := hex request.
Definition final_name (request : RequestId) : list Z := bs "redeemed-" ++ file_component request.
Definition temporary_name (request : RequestId) (random : list Z) : list Z :=
  bs ".redeemed-" ++ file_component request ++ bs "-" ++ hex random ++ bs ".tmp".
Definition lock_name : list Z := bs ".redeem-lock".
Arguments final_name : simpl never.
Arguments temporary_name : simpl never.
Arguments lock_name : simpl never.

(** [i64::to_be_bytes]; [i64::from_be_bytes] is [be_value] made signed. *)
Definition i64_from_be_bytes (l : list Z) : Z := let v := be_value l in if decide (v < 2 ^ 63) then v else v - 2 ^ 64.

Definition redeem_record (request : RequestId) (digest : list Z) (redeemed_at : Z) : mres (list Z) :=
  _ ← require (in_time redeemed_at) "replay redeem timestamp is outside the supported range"%string;
  Ok (REDEMPTION_MAGIC ++ to_be_bytes 8 redeemed_at ++ request ++ digest).

Definition validate_redeem_record (record : list Z) (request : RequestId) (digest : list Z) : mres unit :=
  _ ← require (negb (negb (bool_decide (length record = REDEMPTION_RECORD_LEN)) || negb (bool_decide (take 8 record = REDEMPTION_MAGIC))))
        "replay state is malformed; refusing signed request"%string;
  let redeemed_at := i64_from_be_bytes (take 8 (drop 8 record)) in
  _ ← require (in_time redeemed_at) "replay state has an invalid timestamp; refusing signed request"%string;
  _ ← require (bool_decide (take 32 (drop 16 record) = request)) "replay state request ID does not match its filename"%string;
  require (bool_decide (take 32 (drop 48 record) = digest)) "request ID was already redeemed by a different directive"%string.

(** ** The replay store *)
Section Store.
Context (euid : Z).

Definition validate_private_file (fd : nat) : prog string unit :=
  metadata ← context "inspect the file"%string (io_call (StatFile fd));
  pure (require (negb (negb (st_is_file metadata) || negb (bool_decide (st_uid metadata = euid)) ||
                       negb (bool_decide (Z.land (st_mode metadata) 4095 = 384))))
          "must be a target-owned mode-0600 regular file"%string).

Definition validate_private_directory : prog string unit :=
  metadata ← context "inspect replay state directory"%string (io_call StatDirectory);
  _ ← pure (require (negb (negb (st_is_dir metadata) || negb (bool_decide (st_uid metadata = euid))))
          "private directory must be target-owned and not a symlink"%string);
  pure (require (bool_decide (Z.land (st_mode metadata) 511 = 448)) "private directory must have mode 0700"%string).

Definition open_existing_replay_directory : prog string unit :=
  _ ← context "open replay state directory"%string (io_call OpenDirectory);
  validate_private_directory.

Definition readat_optional (name : list Z) (maximum : nat) : prog string (option (list Z)) :=
  Ask (OpenRead name) (fun opened =>
    match opened with
    | Err NotFound => Return (Ok None)
    | Err _ => fail "open replay record"%string
    | Ok fd =>
        _ ← validate_private_file fd;
        contents ← context "read replay record"%string (io_call (ReadUpTo fd maximum));
        _ ← pure (require (bool_decide (length contents < maximum)%nat) "replay redeem exceeds its fixed format; refusing request"%string);
        Return (Ok (Some contents))
    end).

(** The record is there: the request is refused, with the reason. *)
Definition reject_existing (request : RequestId) (digest existing : list Z) : prog string unit :=
  _ ← pure (validate_redeem_record existing request digest);
  fail "signed request has already been redeemed"%string.

Definition reject_if_redeemed (request : RequestId) (digest : list Z) : prog string unit :=
  _ ← pure (RequestId_validate request);
  existing ← readat_optional (final_name request) (REDEMPTION_RECORD_LEN + 1);
  match existing with
  | Some existing => reject_existing request digest existing
  | None => Return (Ok tt)
  end.

(** [more]: how many more attempts a spurious [NotFound] is given. *)
Fixpoint open_lock_loop (more : nat) : prog ErrorKind nat :=
  Ask (OpenCreate lock_name) (fun opened =>
    match opened, more with
    | Err NotFound, S more => Ask Sleep (fun _ => open_lock_loop more)
    | result, _ => Return result
    end).
Definition open_lock : prog ErrorKind nat := open_lock_loop 16.

Definition publish (temporary : nat) (temporary_name final_name record : list Z) : prog ErrorKind unit :=
  _ ← io_call (WriteAll temporary record);
  _ ← io_call (SyncFile temporary);
  _ ← io_call (LinkAt temporary_name final_name);
  _ ← io_call SyncDirectory;
  _ ← io_call (UnlinkAt temporary_name);
  io_call SyncDirectory.

(** What follows once the temporary file is open. *)
Definition fill_and_publish (request : RequestId) (digest : list Z) (redeemed_at : Z) (temporary_name : list Z) (temporary : nat) : prog string unit :=
  _ ← handle (validate_private_file temporary) (fun r =>
        match r with
        | Err error => _ ← ignore (io_call (UnlinkAt temporary_name)); fail error
        | Ok _ => Return (Ok tt)
        end);
  record ← pure (redeem_record request digest redeemed_at);
  handle (publish temporary temporary_name (final_name request) record) (fun r =>
    match r with
    | Ok _ => Return (Ok tt)
    | Err error =>
        _ ← ignore (io_call (UnlinkAt temporary_name));
        let err := fail "durably publish replay redeem"%string in
        if decide (error = AlreadyExists) then
          existing ← readat_optional (final_name request) (REDEMPTION_RECORD_LEN + 1);
          match existing with
          | Some existing => reject_existing request digest existing
          | None => err
          end
        else err
    end).

(** What is done with the lock held. *)
Definition redeem_locked (request : RequestId) (digest : list Z) (redeemed_at : prog string Z) : prog string unit :=
  redeemed_at ← redeemed_at;
  existing ← readat_optional (final_name request) (REDEMPTION_RECORD_LEN + 1);
  match existing with
  | Some existing => reject_existing request digest existing
  | None =>
      random ← context "generate private state filename"%string (io_call (GetRandom 16));
      let temporary_name := temporary_name request random in
      temporary ← context "create replay redeem"%string (io_call (OpenExclusive temporary_name));
      fill_and_publish request digest redeemed_at temporary_name temporary
  end.

Definition redeem_after_lock (request : RequestId) (digest : list Z) (redeemed_at : prog string Z) : prog string unit :=
  _ ← pure (RequestId_validate request);
  lock ← context "open replay lock"%string open_lock;
  closing lock (
    _ ← validate_private_file lock;
    _ ← context "lock replay redeem store"%string (io_call (Flock lock));
    redeem_locked request digest redeemed_at).
End Store.

(** ** Verification *)
Record VerifiedDirective := mkVerified { vd_digest : list Z; vd_execution_deadline : Z }.

(** The part of [ReceiverEnrollment] that verification uses. *)
Record ReceiverEnrollment `{SshKeys} := mkEnrollment {
  en_id : list Z;
  en_target_login : list Z;
  en_generation : Z;
  en_release : list Z;
  en_signer : TrustedSigner
}.

Section Verify.
Context `{HashLib} `{SshKeys} (b64_encode : list Z -> list Z) (b64_decode : list Z -> option (list Z)).
Context (to_stdvec : Directive -> option (list Z)) (take_from_bytes : list Z -> option (Directive * list Z)).
Context (euid instant_limit : Z) {T : Type}.

(** [|| context.validate_at(directive, Instant::now())]. *)
Definition validate_now (c : ReceiverContext) (d : Directive) : prog string Z :=
  now ← call InstantNow;
  pure (validate_at c d now).

Definition verify_and_redeem (encoded : list Z) (c : ReceiverContext) (signer : TrustedSigner) (derive : Directive -> mres T)
    : prog string (T * VerifiedDirective) :=
  signed ← pure (Signed_decode b64_encode b64_decode to_stdvec take_from_bytes encoded);
  let directive := sg_directive signed in
  observed_at ← call InstantNow;
  _ ← pure (validate_at c directive observed_at);
  let replay_digest := h_hash sha2 (sg_payload signed) in
  _ ← reject_if_redeemed euid (di_request_id directive) replay_digest;
  '(_, latest_now) ← pure (wall_time_bounds_at c observed_at);
  _ ← pure (signer_verify signer NAMESPACE (sg_payload signed) (sg_signature signed)
              (i64_saturating_sub latest_now (rx_clock_skew_seconds c)));
  derived ← pure (derive directive);
  _ ← redeem_after_lock euid (di_request_id directive) replay_digest (validate_now c directive);
  verified_at ← call InstantNow;
  verified_wall_time ← pure (validate_at c directive verified_at);
  deadline ← pure (execution_deadline instant_limit (di_finish_by directive) (rx_clock_skew_seconds c) verified_wall_time verified_at);
  Return (Ok (derived, mkVerified (Signed_digest signed) deadline)).

Definition require_current_receiver (config : ReceiverEnrollment) (generation : Z) (build : list Z) : mres unit :=
  require (negb (negb (bool_decide (en_generation config = generation)) || negb (bool_decide (en_release config = build))))
    "this connection runs an outdated receiver"%string.

(** [directive::now]; [UnixNow] is negative before the epoch. *)
Definition directive_now : prog string Z :=
  seconds ← call UnixNow;
  pure (_ ← require (bool_decide (0 <= seconds)) "second time provided was later than self"%string;
        from_option_err "current time exceeds the signed time range"%string (to_i64 seconds)).

(** [receiver::verify]; [derive] is [destination_rules] at the home directory. *)
Definition receiver_verify (config : ReceiverEnrollment) (generation : Z) (build directive : list Z) (derive : Directive -> mres T)
    : prog string (T * VerifiedDirective) :=
  _ ← pure (require_current_receiver config generation build);
  _ ← handle (open_existing_replay_directory euid) (fun r =>
        match r with
        | Ok _ => Return (Ok tt)
        | Err _ => fail "this server cannot read its record of used authorizations"%string
        end);
  unix_seconds ← directive_now;
  monotonic ← call InstantNow;
  let c := mkContext (en_id config) (en_generation config) (en_target_login config) build unix_seconds monotonic CLOCK_SKEW_SECONDS in
  verify_and_redeem directive c (en_signer config) derive.
End Verify.
