(* ===== verification/RedeemSystem.v ===== *)
(** * The replay store's directory and the processes that use it

    What the system calls of [Redeem] do to the directory, which of their
    effects survive a crash, and any number of receivers running at once, in any
    order, any of which may be killed at any time.
    - [Choice] is what the environment decides of a call: that it fails, the
      time, random bytes, how much of a failed write was made.
    - [fi_synced]: whether the contents are on disk; [dk_durable]: the names
      that are. A crash keeps, for each name, the durable entry or the live one,
      and leaves any contents in a file that was not synced.
    - Only these programs use the directory: it is private to the account. *)

From stdpp Require Import strings.
From S2P Require Import Prelude Text Proto Hashing Mapping Grant AuthSettle TcpProps Directive Signer Redeem.
Local Open Scope Z_scope.

Inductive FileType := TypeFile | TypeSymlink | TypeOther.
#[export] Instance FileType_eq_dec : EqDecision FileType.
Proof. solve_decision. Defined.

Record FileNode := mkFile { fi_type : FileType; fi_uid : Z; fi_mode : Z; fi_content : list Z; fi_synced : bool }.

Record Disk := mkDisk {
  dk_names : gmap (list Z) nat;
  dk_durable : gmap (list Z) nat;
  dk_files : gmap nat FileNode;
  dk_locks : gmap nat nat;         (* inode to the process that holds its lock *)
  dk_directory : Stat
}.

Record Choice := mkChoice { ch_error : option ErrorKind; ch_time : Z; ch_random : list Z; ch_written : nat }.

Section Calls.
Context (euid umask : Z).

Definition set_names (f : gmap (list Z) nat -> gmap (list Z) nat) (d : Disk) : Disk :=
  mkDisk (f (dk_names d)) (dk_durable d) (dk_files d) (dk_locks d) (dk_directory d).
Definition set_file (i : nat) (f : FileNode) (d : Disk) : Disk :=
  mkDisk (dk_names d) (dk_durable d) (<[i := f]> (dk_files d)) (dk_locks d) (dk_directory d).
Definition set_durable (n : gmap (list Z) nat) (d : Disk) : Disk :=
  mkDisk (dk_names d) n (dk_files d) (dk_locks d) (dk_directory d).
Definition set_locks (f : gmap nat nat -> gmap nat nat) (d : Disk) : Disk :=
  mkDisk (dk_names d) (dk_durable d) (dk_files d) (f (dk_locks d)) (dk_directory d).

Definition fresh_inode (d : Disk) : nat := fresh (dom (dk_files d)).
Definition new_file : FileNode := mkFile TypeFile euid (Z.ldiff 384 umask) [] false.
Definition create (name : list Z) (d : Disk) : ires nat * Disk :=
  let i := fresh_inode d in (Ok i, set_file i new_file (set_names <[name := i]> d)).

(** [O_NOFOLLOW]. *)
Definition open_at (i : nat) (d : Disk) : ires nat * Disk :=
  match dk_files d !! i with
  | Some f => if decide (fi_type f = TypeSymlink) then (Err OtherError, d) else (Ok i, d)
  | None => (Err OtherError, d)
  end.

Definition stat_of (f : FileNode) : Stat := mkStat (bool_decide (fi_type f = TypeFile)) false (fi_uid f) (fi_mode f).

(** What process [pid] is answered, and the directory after; [None]: it waits. *)
Definition perform (pid : nat) (ch : Choice) {X : Set} (c : SysCall X) (d : Disk) : option (X * Disk) :=
  match c in SysCall X return option (X * Disk) with
  | InstantNow => Some (ch_time ch, d)
  | UnixNow => Some (ch_time ch, d)
  | GetRandom n => Some (match ch_error ch with Some e => Err e | None => Ok (take n (ch_random ch)) end, d)
  | Sleep => Some (tt, d)
  | OpenDirectory => Some (match ch_error ch with Some e => Err e | None => Ok tt end, d)
  | StatDirectory => Some (match ch_error ch with Some e => Err e | None => Ok (dk_directory d) end, d)
  | OpenRead name =>
      Some match ch_error ch, dk_names d !! name with
           | Some e, _ => (Err e, d)
           | None, None => (Err NotFound, d)
           | None, Some i => open_at i d
           end
  | OpenCreate name =>
      Some match ch_error ch, dk_names d !! name with
           | Some e, _ => (Err e, d)
           | None, None => create name d
           | None, Some i => open_at i d
           end
  | OpenExclusive name =>
      Some match ch_error ch, dk_names d !! name with
           | Some e, _ => (Err e, d)
           | None, None => create name d
           | None, Some i => (Err AlreadyExists, d)
           end
  | StatFile fd =>
      Some (match ch_error ch, dk_files d !! fd with
            | Some e, _ => Err e | None, Some f => Ok (stat_of f) | None, None => Err OtherError
            end, d)
  | ReadUpTo fd n =>
      Some (match ch_error ch, dk_files d !! fd with
            | Some e, _ => Err e | None, Some f => Ok (take n (fi_content f)) | None, None => Err OtherError
            end, d)
  | WriteAll fd bytes =>
      Some match dk_files d !! fd with
           | None => (Err OtherError, d)
           | Some f =>
               let wrote l := set_file fd (mkFile (fi_type f) (fi_uid f) (fi_mode f) (fi_content f ++ l) false) d in
               match ch_error ch with
               | Some e => (Err e, wrote (take (ch_written ch) bytes))
               | None => (Ok tt, wrote bytes)
               end
           end
  | SyncFile fd =>
      Some match ch_error ch, dk_files d !! fd with
           | Some e, _ => (Err e, d)
           | None, None => (Err OtherError, d)
           | None, Some f => (Ok tt, set_file fd (mkFile (fi_type f) (fi_uid f) (fi_mode f) (fi_content f) true) d)
           end
  | SyncDirectory =>
      Some match ch_error ch with Some e => (Err e, d) | None => (Ok tt, set_durable (dk_names d) d) end
  | LinkAt old new =>
      Some match ch_error ch, dk_names d !! old, dk_names d !! new with
           | Some e, _, _ => (Err e, d)
           | None, None, _ => (Err NotFound, d)
           | None, Some _, Some _ => (Err AlreadyExists, d)
           | None, Some i, None => (Ok tt, set_names <[new := i]> d)
           end
  | UnlinkAt name =>
      Some match ch_error ch, dk_names d !! name with
           | Some e, _ => (Err e, d)
           | None, None => (Err NotFound, d)
           | None, Some _ => (Ok tt, set_names (delete name) d)
           end
  | Flock fd =>
      match ch_error ch, dk_locks d !! fd with
      | Some e, _ => Some (Err e, d)
      | None, Some _ => None
      | None, None => Some (Ok tt, set_locks <[fd := pid]> d)
      end
  | Close fd => Some (tt, set_locks (fun l => if decide (l !! fd = Some pid) then delete fd l else l) d)
  end.

(** The kernel releases what a process that is gone has locked. *)
Definition release (pid : nat) (d : Disk) : Disk := set_locks (filter (fun p => p.2 <> pid)) d.

(** [written]: the names whose live entries had reached the disk; [torn]: what
    the files that were not synced hold after the crash. *)
Definition crash_disk (written : gset (list Z)) (torn : gmap nat (list Z)) (d : Disk) : Disk :=
  let names := filter (fun p => p.1 ∈ written) (dk_names d) ∪ filter (fun p => p.1 ∉ written) (dk_durable d) in
  let files := map_imap (fun i f => Some (if fi_synced f then f
                 else mkFile (fi_type f) (fi_uid f) (fi_mode f) (default [] (torn !! i)) true)) (dk_files d) in
  mkDisk names names files ∅ (dk_directory d).

End Calls.

(** ** Processes *)
(** A request and the digest of the directive that asks for it. *)
Definition Claim : Type := RequestId * list Z.

Record Process (A : Type) := mkProcess { pr_claim : Claim; pr_prog : prog string A }.
Arguments mkProcess {A} _ _.
Arguments pr_claim {A} _.
Arguments pr_prog {A} _.

Record System (A : Type) := mkSystem {
  sys_disk : Disk;
  sys_running : gmap nat (Process A);
  sys_done : list (Claim * result string A)
}.
Arguments mkSystem {A} _ _ _.
Arguments sys_disk {A} _.
Arguments sys_running {A} _.
Arguments sys_done {A} _.

Inductive SysEvent (A : Type) :=
| Start (pid : nat) (p : Process A)
| Step (pid : nat) (ch : Choice)
| Kill (pid : nat)
| Crash (written : gset (list Z)) (torn : gmap nat (list Z)).
Arguments Start {A} _ _.
Arguments Step {A} _ _.
Arguments Kill {A} _.
Arguments Crash {A} _ _.

(** The claims that some process was told it had redeemed. *)
Definition redeemed {A} (done : list (Claim * result string A)) : list Claim :=
  omap (fun '(c, res) => match res with Ok _ => Some c | Err _ => None end) done.

Section Running.
Context (euid umask : Z) {A : Type}.
Implicit Types σ : System A.

Definition leave (pid : nat) (done : list (Claim * result string A)) σ : System A :=
  mkSystem (release pid (sys_disk σ)) (delete pid (sys_running σ)) (sys_done σ ++ done).

(** An event that cannot happen changes nothing. *)
Definition system_step (e : SysEvent A) σ : System A :=
  match e with
  | Start pid p =>
      if decide (is_Some (sys_running σ !! pid)) then σ
      else mkSystem (sys_disk σ) (<[pid := p]> (sys_running σ)) (sys_done σ)
  | Step pid ch =>
      match sys_running σ !! pid with
      | None => σ
      | Some p =>
          match pr_prog p with
          | Return r => leave pid [(pr_claim p, r)] σ
          | Ask c k =>
              match perform euid umask pid ch c (sys_disk σ) with
              | None => σ
              | Some (x, d) => mkSystem d (<[pid := mkProcess (pr_claim p) (k x)]> (sys_running σ)) (sys_done σ)
              end
          end
      end
  | Kill pid => leave pid [] σ
  | Crash written torn => mkSystem (crash_disk written torn (sys_disk σ)) ∅ (sys_done σ)
  end.

Definition system_run (es : list (SysEvent A)) σ : System A := foldl (fun σ e => system_step e σ) σ es.
End Running.

(** One process alone: what is left of it, and the directory, after some
    choices. *)
Fixpoint run_alone {E A} (euid umask : Z) (pid : nat) (chs : list Choice) (p : prog E A) (d : Disk) : prog E A * Disk :=
  match chs, p with
  | ch :: chs, Ask c k =>
      match perform euid umask pid ch c d with
      | Some (x, d) => run_alone euid umask pid chs (k x) d
      | None => run_alone euid umask pid chs p d
      end
  | _, _ => (p, d)
  end.
