(* ===== verification/RedeemStage.v ===== *)
(** * The stages of a redemption

    The order in which a program may change the replay store's directory, as an
    automaton over its calls, and that the receiver's programs keep to it
    whatever they are answered. *)

From stdpp Require Import strings.
From S2P Require Import Prelude Text Proto Hashing Mapping Grant AuthSettle TcpProps Directive DirectiveProps Signer Redeem RedeemSystem.
Local Open Scope Z_scope.

(** [l]: the lock's inode; [t], [i]: the temporary's name and inode. *)
Inductive Stage :=
| Outside
| Opened (l : nat)
| Locked (l : nat)
| Created (l : nat) (t : list Z) (i : nat)
| Filled (l : nat) (t : list Z) (i : nat)
| Safe (l : nat) (t : list Z) (i : nat)
| Linked (l : nat) (t : list Z) (i : nat)
| Published (l : nat) (t : list Z) (i : nat)
| Spoiled (l : nat) (t : list Z)
| Ended
| Redeemed.

(** The lock the stage has open, and the temporary name it may remove. *)
Definition stage_lock (s : Stage) : option nat :=
  match s with
  | Outside | Ended | Redeemed => None
  | Opened l | Locked l | Created l _ _ | Filled l _ _ | Safe l _ _ | Linked l _ _ | Published l _ _ | Spoiled l _ => Some l
  end.
Definition stage_temporary (s : Stage) : option (list Z) :=
  match s with
  | Created _ t _ | Filled _ t _ | Safe _ t _ | Linked _ t _ | Published _ t _ | Spoiled _ t => Some t
  | _ => None
  end.

Definition is_read {X : Set} (c : SysCall X) : bool :=
  match c with
  | InstantNow | UnixNow | GetRandom _ | Sleep | OpenDirectory | StatDirectory | OpenRead _ | StatFile _ | ReadUpTo _ _ => true
  | _ => false
  end.

Definition is_temporary (name : list Z) : Prop := take 10 name = bs ".redeemed-".
Definition valid_record (c : Claim) (record : list Z) : Prop := validate_redeem_record record c.1 c.2 = Ok tt.

#[export] Instance is_temporary_dec name : Decision (is_temporary name).
Proof. apply _. Defined.
#[export] Instance valid_record_dec c record : Decision (valid_record c record).
Proof. unfold valid_record. destruct (validate_redeem_record record c.1 c.2) as [[]|e]; [by left|by right]. Defined.

Section Stages.
Context (claim : Claim).

(** The stage after a call and its answer; [None]: the call is out of order. *)
Definition next (s : Stage) {X : Set} (c : SysCall X) : X -> option Stage :=
  match c in SysCall X return X -> option Stage with
  | OpenCreate name => fun x =>
      match s with
      | Outside => if decide (name = lock_name) then Some match x with Ok l => Opened l | Err _ => Outside end else None
      | _ => None
      end
  | Flock fd => fun x =>
      match s with
      | Opened l => if decide (fd = l) then Some match x with Ok _ => Locked l | Err _ => Opened l end else None
      | _ => None
      end
  | OpenExclusive name => fun x =>
      match s with
      | Locked l => if decide (is_temporary name) then Some match x with Ok i => Created l name i | Err _ => Locked l end else None
      | _ => None
      end
  | WriteAll fd bytes => fun x =>
      match s with
      | Created l t i => if decide (fd = i /\ valid_record claim bytes) then Some match x with Ok _ => Filled l t i | Err _ => Spoiled l t end else None
      | _ => None
      end
  | SyncFile fd => fun x =>
      match s with
      | Filled l t i => if decide (fd = i) then Some match x with Ok _ => Safe l t i | Err _ => Spoiled l t end else None
      | _ => None
      end
  | LinkAt old new => fun x =>
      match s with
      | Safe l t i => if decide (old = t /\ new = final_name claim.1) then Some match x with Ok _ => Linked l t i | Err _ => Spoiled l t end else None
      | _ => None
      end
  | SyncDirectory => fun x =>
      match s with
      | Linked l t i => Some match x with Ok _ => Published l t i | Err _ => Linked l t i end
      | Published l t i => Some (Published l t i)
      | _ => None
      end
  | UnlinkAt name => fun x =>
      match s, stage_lock s, stage_temporary s with
      | Linked _ _ _, _, Some t | Published _ _ _, _, Some t => if decide (name = t) then Some s else None
      | _, Some l, Some t => if decide (name = t) then Some (Spoiled l t) else None
      | _, _, _ => None
      end
  | Close fd => fun _ =>
      if decide (stage_lock s = Some fd) then Some match s with Published _ _ _ => Redeemed | _ => Ended end else None
  | _ => fun _ => Some s
  end.

(** [p], begun at a stage, keeps to the order and ends as [Q] says. *)
Fixpoint wp {E A} (s : Stage) (p : prog E A) (Q : Stage -> result E A -> Prop) : Prop :=
  match p with
  | Return r => Q s r
  | Ask c k => forall x, match next s c x with Some s' => wp s' (k x) Q | None => False end
  end.

Lemma wp_mono {E A} (p : prog E A) s (Q Q' : Stage -> result E A -> Prop) : (forall s r, Q s r -> Q' s r) -> wp s p Q -> wp s p Q'.
Proof.
  intros HQ. revert s. induction p as [r|X c k IH]; intros s; cbn; [apply HQ|]. intros H x. specialize (H x).
  destruct (next s c x); [by apply IH|done].
Qed.

Lemma wp_handle {E A E' B} (p : prog E A) (f : result E A -> prog E' B) s Q :
  wp s p (fun s' r => wp s' (f r) Q) -> wp s (handle p f) Q.
Proof.
  revert s. induction p as [r|X c k IH]; intros s; cbn; [done|]. intros H x. specialize (H x). destruct (next s c x); [by apply IH|done].
Qed.

Lemma wp_bind {E A B} (p : prog E A) (f : A -> prog E B) s Q :
  wp s p (fun s' r => match r with Ok a => wp s' (f a) Q | Err e => Q s' (Err e) end) -> wp s (p ≫= f) Q.
Proof. intros H. apply wp_handle. eapply wp_mono; [|exact H]. intros s' [a|e]; done. Qed.

Lemma wp_closing {E A} fd (p : prog E A) s Q :
  wp s p (fun s' r => match next s' (Close fd) tt with Some s' => Q s' r | None => False end) -> wp s (closing fd p) Q.
Proof. intros H. apply wp_handle. eapply wp_mono; [|exact H]. intros s' r Hr []. done. Qed.

Lemma wp_context {A} m (p : prog ErrorKind A) s Q :
  wp s p (fun s' r => match r with Ok a => Q s' (Ok a) | Err _ => Q s' (Err m) end) -> wp s (context m p) Q.
Proof. intros H. apply wp_handle. eapply wp_mono; [|exact H]. intros s' [a|e]; done. Qed.

(** ** Programs that only read *)
Fixpoint readonly {E A} (p : prog E A) : Prop :=
  match p with Return _ => True | Ask c k => is_read c = true /\ forall x, readonly (k x) end.

Lemma wp_readonly {E A} (p : prog E A) s (Q : Stage -> result E A -> Prop) : readonly p -> (forall r, Q s r) -> wp s p Q.
Proof.
  intros Hr HQ. induction p as [r|X c k IH]; cbn; [done|]. destruct Hr as [Hc Hk]. intros x.
  assert (next s c x = Some s) as -> by (destruct c; done). auto.
Qed.
End Stages.

Lemma readonly_handle {E A E' B} (p : prog E A) (f : result E A -> prog E' B) : readonly p -> (forall r, readonly (f r)) -> readonly (handle p f).
Proof. intros Hp Hf. induction p as [r|X c k IH]; cbn in *; [done|]. destruct Hp as [? ?]. split; [done|]. auto. Qed.

Lemma readonly_bind {E A B} (p : prog E A) (f : A -> prog E B) : readonly p -> (forall a, readonly (f a)) -> readonly (p ≫= f).
Proof. intros Hp Hf. apply readonly_handle; [done|]. by intros [a|e]. Qed.

Lemma readonly_context {A} m (p : prog ErrorKind A) : readonly p -> readonly (context m p).
Proof. intros Hp. apply readonly_handle; [done|]. by intros [a|e]. Qed.

Create HintDb redeem.
#[export] Hint Resolve readonly_context : redeem.

Lemma validate_private_file_reads euid fd : readonly (validate_private_file euid fd).
Proof. apply readonly_bind; [by apply readonly_context|done]. Qed.

Lemma validate_private_directory_reads euid : readonly (validate_private_directory euid).
Proof. apply readonly_bind; [by apply readonly_context|]. intros m. by apply readonly_bind. Qed.

Lemma readat_optional_reads euid name n : readonly (readat_optional euid name n).
Proof.
  split; [done|]. intros [fd|[]]; [|done..]. apply readonly_bind; [apply validate_private_file_reads|]. intros _.
  apply readonly_bind; [by apply readonly_context|]. intros l. by apply readonly_bind.
Qed.

Lemma reject_existing_reads r dg l : readonly (reject_existing r dg l).
Proof. by apply readonly_bind. Qed.

Lemma reject_if_redeemed_reads euid r dg : readonly (reject_if_redeemed euid r dg).
Proof.
  apply readonly_bind; [done|]. intros _. apply readonly_bind; [apply readat_optional_reads|]. intros [l|]; [apply reject_existing_reads|done].
Qed.

Lemma open_existing_replay_directory_reads euid : readonly (open_existing_replay_directory euid).
Proof. apply readonly_bind; [by apply readonly_context|]. intros _. apply validate_private_directory_reads. Qed.

Lemma directive_now_reads : readonly directive_now.
Proof. done. Qed.

#[export] Hint Resolve validate_private_file_reads readat_optional_reads reject_existing_reads reject_if_redeemed_reads
  open_existing_replay_directory_reads directive_now_reads : redeem.
