(* ===== verification/RedeemWp.v ===== *)
(** * The receiver's programs keep to the stages

    What a redemption record says reads back, and [receiver_verify] changes the
    directory only in the order of [RedeemStage], ending well only after its
    record is on disk. *)

From stdpp Require Import strings.
From S2P Require Import Prelude Text Proto Hashing Mapping Grant AuthSettle TcpProps Directive DirectiveProps Signer Redeem RedeemSystem RedeemStage.
Local Open Scope Z_scope.

(** ** Records *)
Lemma in_time_range t : in_time t = true -> 0 <= t < 2 ^ 63.
Proof. unfold in_time, within, MAX_UNIX_TIMESTAMP. rewrite bool_decide_eq_true. lia. Qed.

Lemma i64_round_trip t : in_time t = true -> i64_from_be_bytes (to_be_bytes 8 t) = t.
Proof.
  intros Ht%in_time_range. unfold i64_from_be_bytes. rewrite be_value_to_be_bytes, Z.mod_small by lia. by rewrite decide_True by lia.
Qed.

Lemma redeem_record_Ok r dg t record : redeem_record r dg t = Ok record ->
  in_time t = true /\ record = REDEMPTION_MAGIC ++ to_be_bytes 8 t ++ r ++ dg.
Proof. intros ([] & Ht%require_Ok & E)%result_bind_Ok. by apply Ok_inj in E as <-. Qed.

(** The fields of a record, found by their places. *)
Lemma record_fields r dg t (record := REDEMPTION_MAGIC ++ to_be_bytes 8 t ++ r ++ dg) : length r = 32%nat -> length dg = 32%nat ->
  length record = REDEMPTION_RECORD_LEN /\ take 8 record = REDEMPTION_MAGIC /\ take 8 (drop 8 record) = to_be_bytes 8 t /\
  take 32 (drop 16 record) = r /\ take 32 (drop 48 record) = dg.
Proof.
  intros Hr Hd. subst record. pose proof (proj1 (to_be_bytes_width 8 t)) as Ht.
  assert (E8 : drop 8 (REDEMPTION_MAGIC ++ to_be_bytes 8 t ++ r ++ dg) = to_be_bytes 8 t ++ r ++ dg) by by apply drop_app_length'.
  assert (E16 : drop 16 (REDEMPTION_MAGIC ++ to_be_bytes 8 t ++ r ++ dg) = r ++ dg).
  { change 16%nat with (8 + 8)%nat. rewrite <- drop_drop, E8. by apply drop_app_length'. }
  assert (E48 : drop 48 (REDEMPTION_MAGIC ++ to_be_bytes 8 t ++ r ++ dg) = dg).
  { change 48%nat with (16 + 32)%nat. rewrite <- drop_drop, E16. by apply drop_app_length'. }
  split_and!.
  - rewrite !length_app, Ht, Hr, Hd. done.
  - by apply take_app_length'.
  - rewrite E8. by apply take_app_length'.
  - rewrite E16. by apply take_app_length'.
  - rewrite E48. by apply take_ge; lia.
Qed.

(** A record is accepted for its own claim and for no other. *)
Lemma redeem_record_reads_back r dg t record r' dg' : length r = 32%nat -> length dg = 32%nat -> redeem_record r dg t = Ok record ->
  validate_redeem_record record r' dg' = Ok tt <-> r' = r /\ dg' = dg.
Proof.
  intros Hr Hd (Ht & ->)%redeem_record_Ok. destruct (record_fields r dg t Hr Hd) as (E1 & E2 & E3 & E4 & E5).
  unfold validate_redeem_record. rewrite E1, E2, E3, E4, E5, i64_round_trip, Ht by done.
  rewrite (bool_decide_eq_true_2 (_ = REDEMPTION_RECORD_LEN)), (bool_decide_eq_true_2 (_ = REDEMPTION_MAGIC)) by done. cbn.
  unfold mbind, result_bind, require. split; [|intros [-> ->]; by rewrite !bool_decide_eq_true_2].
  do 2 (case_bool_decide; [|done]). done.
Qed.

Lemma temporary_name_is_temporary r l : is_temporary (temporary_name r l).
Proof. done. Qed.

(** ** The programs *)
Section Programs.
Context (euid : Z) (r : RequestId) (dg : list Z).
Hypothesis (Hr : length r = 32%nat) (Hdg : length dg = 32%nat).
Notation wp := (wp (r, dg)).

(** [Ok] only once the record is on disk. *)
Definition publishes {A} (l : nat) (s : Stage) (res : result string A) : Prop :=
  stage_lock s = Some l /\ match res with Ok _ => exists t i, s = Published l t i | Err _ => True end.

Lemma wp_publish l t i record : valid_record (r, dg) record ->
  wp (Created l t i) (publish i t (final_name r) record) (fun s res =>
    stage_lock s = Some l /\ stage_temporary s = Some t /\ match res with Ok _ => exists t i, s = Published l t i | Err _ => True end).
Proof.
  intros Hv. cbn. intros x1. rewrite decide_True by done. destruct x1 as [[]|e]; cbn; [|done].
  intros x2. rewrite decide_True by done. destruct x2 as [[]|e]; cbn; [|done].
  intros x3. rewrite decide_True by done. destruct x3 as [[]|e]; cbn; [|done].
  intros [[]|e]; cbn; [|done]. intros x5. rewrite decide_True by done. destruct x5 as [[]|e]; cbn; [|done].
  intros [[]|e]; cbn; eauto 10.
Qed.

(** Removing the temporary keeps the lock. *)
Lemma wp_unlink {A} s l t (p : prog string A) Q : stage_lock s = Some l -> stage_temporary s = Some t ->
  (forall s', stage_lock s' = Some l -> wp s' p Q) -> wp s (_ ← ignore (io_call (UnlinkAt t)); p) Q.
Proof.
  intros Hl Ht Hp. cbn. intros x. destruct s; try done; injection Ht as ->; injection Hl as ->; rewrite decide_True by done; by apply Hp.
Qed.

(** A request that has a record is refused. *)
Lemma wp_reject_existing s l Q : (forall e, Q s (Err e)) -> wp s (reject_existing r dg l) Q.
Proof. intros HQ. unfold reject_existing. apply wp_bind. cbn. destruct (validate_redeem_record l r dg); apply HQ. Qed.

Lemma wp_fill_and_publish l t i at_ : wp (Created l t i) (fill_and_publish euid r dg at_ t i) (publishes l).
Proof.
  unfold fill_and_publish. apply wp_bind, wp_handle, wp_readonly; [auto with redeem|]. intros [[]|e].
  2: { apply (wp_unlink _ l); [done..|]. intros s' Hs'. by split. }
  cbn [RedeemStage.wp]. apply wp_bind. cbn [RedeemStage.wp pure]. destruct (redeem_record r dg at_) as [record|e] eqn:E; [|by split].
  apply wp_handle. eapply wp_mono; [|apply wp_publish, (redeem_record_reads_back r dg at_ record); done]. cbn beta.
  intros s [[]|e] (Hl & Ht & Hp); [by split|]. apply (wp_unlink _ l); [done..|]. intros s' Hl'. case_decide; [|by split].
  apply wp_bind, wp_readonly; [auto with redeem|]. intros [[existing|]|e']; [|by split..].
  apply wp_reject_existing. by split.
Qed.

Lemma wp_redeem_locked l (at_ : prog string Z) : readonly at_ -> wp (Locked l) (redeem_locked euid r dg at_) (publishes l).
Proof.
  intros Ha. unfold redeem_locked. apply wp_bind, wp_readonly; [done|]. intros [now|e]; [|by split].
  apply wp_bind, wp_readonly; [auto with redeem|]. intros [[existing|]|e]; [apply wp_reject_existing; by split| |by split].
  apply wp_bind, wp_context. cbn [RedeemStage.wp io_call next]. intros [random|e]; [|by split]. apply wp_bind, wp_context. cbn [RedeemStage.wp io_call next].
  intros x. rewrite decide_True by apply temporary_name_is_temporary. destruct x as [i|e]; [|by split]. apply wp_fill_and_publish.
Qed.

Lemma wp_open_lock_loop more : wp Outside (open_lock_loop more) (fun s res => match res with Ok l => s = Opened l | Err _ => s = Outside end).
Proof. induction more as [|more IH]; intros x; cbn; (rewrite decide_True by done); destruct x as [l|[]]; cbn; auto. Qed.

Lemma wp_redeem_after_lock (at_ : prog string Z) : readonly at_ ->
  wp Outside (redeem_after_lock euid r dg at_) (fun s res => match res with Ok _ => s = Redeemed | Err _ => True end).
Proof.
  intros Ha. unfold redeem_after_lock. apply wp_bind. cbn [RedeemStage.wp pure]. destruct (RequestId_validate r); [|done].
  apply wp_bind, wp_context. eapply wp_mono; [|apply wp_open_lock_loop]. intros s [l|e] ->; [|done].
  apply wp_closing. apply (wp_mono _ _ _ (publishes l)).
  { intros s res [Hl Hres]. cbn. rewrite decide_True by done. destruct res as [[]|e]; [|done]. by destruct Hres as (t & i & ->). }
  apply wp_bind, wp_readonly; [auto with redeem|]. intros [[]|e]; [|by split]. apply wp_bind, wp_context. cbn [RedeemStage.wp io_call next]. intros x.
  rewrite decide_True by done. destruct x as [[]|e]; [|by split]. by apply wp_redeem_locked.
Qed.
End Programs.

(** ** Verification *)
Section Verify.
Context `{HashLaws} `{SshKeys} (b64_encode : list Z -> list Z) (b64_decode : list Z -> option (list Z)).
Context (to_stdvec : Directive -> option (list Z)) (take_from_bytes : list Z -> option (Directive * list Z)).
Context (euid instant_limit : Z) {T : Type}.
Notation decode := (Signed_decode b64_encode b64_decode to_stdvec take_from_bytes).

(** A request ID is an array of 32 bytes. *)
Definition typed_directives : Prop := forall l d rest, take_from_bytes l = Some (d, rest) -> has_width 32 (di_request_id d).

Lemma decode_width bytes s : typed_directives -> decode bytes = Ok s -> has_width 32 (di_request_id (sg_directive s)).
Proof.
  intros Ht E. unfold Signed_decode in E. do 3 apply result_bind_Ok in E as ([] & _ & E). apply result_bind_Ok in E as ([d rest] & Hd%from_option_Ok & E).
  apply result_bind_Ok in E as (? & _ & E). do 3 apply result_bind_Ok in E as ([] & _ & E). apply Ok_inj in E as <-. cbn. eauto.
Qed.

(** What the directive in [encoded] asks for. *)
Definition claim_of (encoded : list Z) : Claim :=
  match decode encoded with Ok s => (di_request_id (sg_directive s), h_hash sha2 (sg_payload s)) | Err _ => ([], []) end.

Definition ends_redeemed {A} (s : Stage) (res : result string A) : Prop := match res with Ok _ => s = Redeemed | Err _ => True end.

Lemma wp_verify_and_redeem encoded c signer (derive : Directive -> mres T) : typed_directives ->
  wp (claim_of encoded) Outside
    (verify_and_redeem b64_encode b64_decode to_stdvec take_from_bytes euid instant_limit encoded c signer derive) ends_redeemed.
Proof.
  intros Ht. unfold verify_and_redeem, claim_of. apply wp_bind. cbn [wp pure]. destruct (decode encoded) as [s|e] eqn:E; [|done].
  apply wp_bind. intros t1. cbn [next wp]. apply wp_bind. cbn [wp pure]. destruct (validate_at _ _ t1); [|done].
  apply wp_bind, wp_readonly; [auto with redeem|]. intros [[]|]; [|done]. apply wp_bind. cbn [wp pure].
  destruct (wall_time_bounds_at c t1) as [[? latest]|]; [|done]. apply wp_bind. cbn [wp pure]. destruct (signer_verify _ _ _ _ _); [|done].
  apply wp_bind. cbn [wp pure]. destruct (derive _); [|done]. apply wp_bind.
  eapply wp_mono; [|apply wp_redeem_after_lock; [by apply decode_width in E as []|apply sha2_width|done]].
  intros s' [[]|]; [|done]. intros ->. cbn. intros t2. destruct (validate_at _ _ t2); [|done]. cbn. by destruct (execution_deadline _ _ _ _ _).
Qed.

Lemma wp_receiver_verify config generation build encoded (derive : Directive -> mres T) : typed_directives ->
  wp (claim_of encoded) Outside
    (receiver_verify b64_encode b64_decode to_stdvec take_from_bytes euid instant_limit config generation build encoded derive) ends_redeemed.
Proof.
  intros Ht. unfold receiver_verify. apply wp_bind. cbn [wp pure]. destruct (require_current_receiver _ _ _); [|done].
  apply wp_bind, wp_handle, wp_readonly; [auto with redeem|]. intros [[]|]; [|done]. apply wp_bind, wp_readonly; [auto with redeem|].
  intros [now|]; [|done]. apply wp_bind. cbn [wp call next]. intros m. by apply wp_verify_and_redeem.
Qed.
End Verify.
