(* ===== verification/RedeemInv.v ===== *)
(** * What each stage has on disk

    The meaning of the stages, that every call keeps it, for the process that
    makes the call and for all others, and that a record, once published,
    survives whatever happens. *)

From stdpp Require Import strings.
From S2P Require Import Prelude Text Proto Hashing Mapping Grant AuthSettle TcpProps Directive DirectiveProps Signer Redeem RedeemSystem RedeemStage.
Local Open Scope Z_scope.

(** ** Names *)
Lemma temporary_not_final t r : is_temporary t -> t <> final_name r.
Proof. intros Ht ->. unfold is_temporary, final_name in Ht. rewrite take_app in Ht. done. Qed.
Lemma temporary_not_lock t : is_temporary t -> t <> lock_name.
Proof. by intros Ht ->. Qed.
Lemma final_not_lock r : final_name r <> lock_name.
Proof. done. Qed.
#[export] Hint Resolve temporary_not_final temporary_not_lock final_not_lock not_eq_sym : redeem.

(** ** Facts on the directory *)
Record disk_ok (d : Disk) : Prop := {
  ok_live n i : dk_names d !! n = Some i -> is_Some (dk_files d !! i);
  ok_durable n i : dk_durable d !! n = Some i -> is_Some (dk_files d !! i);
  ok_final r i : dk_durable d !! final_name r = Some i -> dk_names d !! final_name r = Some i
}.

(** Inode [i] holds a record of the claim, on disk. *)
Definition holds_record (d : Disk) (c : Claim) (i : nat) : Prop :=
  exists f, dk_files d !! i = Some f /\ fi_synced f = true /\ valid_record c (fi_content f).

(** The claim's request is recorded for good. *)
Definition recorded (d : Disk) (c : Claim) : Prop :=
  exists i, dk_names d !! final_name c.1 = Some i /\ dk_durable d !! final_name c.1 = Some i /\ holds_record d c i.

Definition held (pid : nat) (d : Disk) (l : nat) : Prop := dk_names d !! lock_name = Some l /\ dk_locks d !! l = Some pid.
Definition private (d : Disk) (i : nat) : Prop :=
  forall r, dk_names d !! final_name r <> Some i /\ dk_durable d !! final_name r <> Some i.

Definition stage_ok (c : Claim) (pid : nat) (d : Disk) (s : Stage) : Prop :=
  match s with
  | Outside | Ended => True
  | Opened l => dk_names d !! lock_name = Some l
  | Locked l => held pid d l
  | Spoiled l t => held pid d l /\ is_temporary t
  | Created l t i => held pid d l /\ is_temporary t /\ dk_names d !! t = Some i /\ private d i /\
                     exists f, dk_files d !! i = Some f /\ fi_content f = []
  | Filled l t i => held pid d l /\ is_temporary t /\ dk_names d !! t = Some i /\
                    exists f, dk_files d !! i = Some f /\ valid_record c (fi_content f)
  | Safe l t i => held pid d l /\ is_temporary t /\ dk_names d !! t = Some i /\ holds_record d c i
  | Linked l t i => held pid d l /\ is_temporary t /\ dk_names d !! final_name c.1 = Some i /\ holds_record d c i
  | Published l t i => held pid d l /\ is_temporary t /\ recorded d c
  | Redeemed => recorded d c
  end.

(** What a call of one process leaves to the others. *)
Record keeps (pid : nat) (d d' : Disk) : Prop := {
  kp_lock l : dk_names d !! lock_name = Some l -> dk_names d' !! lock_name = Some l;
  kp_recorded c : recorded d c -> recorded d' c;
  kp_held l pid' : pid' <> pid -> held pid' d l ->
    dk_names d' = dk_names d /\ dk_durable d' = dk_durable d /\ dk_files d' = dk_files d /\ dk_locks d' !! l = Some pid'
}.

Lemma keeps_refl pid d : keeps pid d d.
Proof. split; [done..|]. by intros l pid' _ []. Qed.

Lemma stage_keeps c pid pid' d d' s : pid' <> pid -> keeps pid d d' -> stage_ok c pid' d s -> stage_ok c pid' d' s.
Proof.
  intros Hp K Hs.
  assert (HL : forall l, held pid' d l -> held pid' d' l /\ dk_names d' = dk_names d /\ dk_durable d' = dk_durable d /\ dk_files d' = dk_files d).
  { intros l Hl. destruct (kp_held _ _ _ K l pid' Hp Hl) as (En & Ed & Ef & El). destruct Hl as [Hn _]. unfold held. rewrite En. done. }
  destruct s; cbn in *; [done|by apply (kp_lock _ _ _ K)|..|done|by apply (kp_recorded _ _ _ K)].
  all: try (destruct Hs as [Hl Hs]; destruct (HL _ Hl) as (Hl' & En & Ed & Ef); unfold recorded, private, holds_record in *; rewrite ?En, ?Ed, ?Ef; by split).
  by apply HL.
Qed.

(** ** Calls that only touch what is private to the caller *)
Implicit Types (d : Disk) (c : Claim).
Section Effects.
Context (pid : nat).

(** No other process holds the lock while this one does. *)
Lemma held_exclusive d l l' pid' : held pid d l -> pid' <> pid -> ~ held pid' d l'.
Proof. intros [Hn Hl] Hp [Hn' Hl']. congruence. Qed.

Lemma keeps_holding d d' l : held pid d l -> dk_names d' !! lock_name = Some l -> (forall c, recorded d c -> recorded d' c) -> keeps pid d d'.
Proof.
  intros Hl Hn Hc. split; [|done|].
  - intros l' Hl'. destruct Hl as [Hl _]. congruence.
  - intros l' pid' Hp Hl'. by destruct (held_exclusive d l l' pid' Hl Hp).
Qed.

(** Binding or removing a name that is no record's. *)
Lemma recorded_names d (f : gmap (list Z) nat -> gmap (list Z) nat) c :
  (forall r, is_Some (dk_names d !! final_name r) -> f (dk_names d) !! final_name r = dk_names d !! final_name r) ->
  recorded d c -> recorded (set_names f d) c.
Proof. intros Hf (i & Hn & Hd & Hh). exists i. split_and!; [|done..]. cbn. rewrite Hf; [done|]. rewrite Hn. eauto. Qed.

(** Changing a file that no record's name refers to, or whose contents stay. *)
Lemma recorded_file d i f c : private d i -> recorded d c -> recorded (set_file i f d) c.
Proof.
  intros Hp (j & Hn & Hd & (g & Hg & Hgs)). exists j. split_and!; [done..|]. exists g. split; [|done]. cbn.
  rewrite lookup_insert_ne; [done|]. intros ->. by apply (Hp c.1).
Qed.

Lemma holds_record_synced d i f g c j : dk_files d !! i = Some f -> fi_content g = fi_content f -> fi_synced g = true ->
  holds_record d c j -> holds_record (set_file i g d) c j.
Proof.
  intros Hf Hc Hs (h & Hh & Hhs & Hhv). destruct (decide (i = j)) as [->|Hij].
  - exists g. cbn. rewrite lookup_insert_eq. split_and!; [done..|]. rewrite Hc. congruence.
  - exists h. cbn. by rewrite lookup_insert_ne.
Qed.

Lemma recorded_synced d i f g c : dk_files d !! i = Some f -> fi_content g = fi_content f -> fi_synced g = true ->
  recorded d c -> recorded (set_file i g d) c.
Proof. intros Hf Hc Hs (j & Hn & Hd & Hh). exists j. split_and!; [done..|]. by eapply holds_record_synced. Qed.

Lemma disk_ok_file d i f : disk_ok d -> disk_ok (set_file i f d).
Proof.
  intros [H1 H2 H3]. split; cbn; [..|done]; intros n j Hn; (destruct (decide (i = j)) as [->|]; [rewrite lookup_insert_eq; eauto|rewrite lookup_insert_ne by done; eauto]).
Qed.

Lemma fresh_inode_new d : dk_files d !! fresh_inode d = None.
Proof. apply not_elem_of_dom. unfold fresh_inode. apply is_fresh. Qed.

Lemma fresh_private d : disk_ok d -> private d (fresh_inode d).
Proof.
  intros [H1 H2 _] r. pose proof (fresh_inode_new d) as Hf. split; intros E; [apply H1 in E as [? E]|apply H2 in E as [? E]]; congruence.
Qed.

(** The lock's name keeps its inode whatever else is named. *)
Lemma held_set_file d l i f : held pid d l -> held pid (set_file i f d) l.
Proof. done. Qed.
Lemma held_set_names d (l : nat) (f : gmap (list Z) nat -> gmap (list Z) nat) :
  f (dk_names d) !! lock_name = dk_names d !! lock_name -> held pid d l -> held pid (set_names f d) l.
Proof. intros Hf [Hn Hl]. split; [|done]. cbn. by rewrite Hf. Qed.

(** [create], of a name that is no record's. *)
Lemma create_ok euid umask name d : disk_ok d -> dk_names d !! name = None -> (forall r, name <> final_name r) ->
  let i := fresh_inode d in let d' := set_file i (new_file euid umask) (set_names <[name := i]> d) in
  disk_ok d' /\ private d' i /\ dk_names d' !! name = Some i /\ (forall c, recorded d c -> recorded d' c) /\
  dk_files d' !! i = Some (new_file euid umask).
Proof.
  intros Hd Hn Hf i d'. pose proof (fresh_private d Hd) as Hp. split_and!.
  - destruct Hd as [H1 H2 H3]. split; cbn.
    + intros n j. destruct (decide (name = n)) as [<-|]; [rewrite lookup_insert_eq; intros [= <-]; rewrite lookup_insert_eq; eauto|].
      rewrite lookup_insert_ne by done. intros [g Hg]%H1. destruct (decide (i = j)) as [->|]; [rewrite lookup_insert_eq; eauto|by rewrite lookup_insert_ne].
    + intros n j [g Hg]%H2. destruct (decide (i = j)) as [->|]; [rewrite lookup_insert_eq; eauto|by rewrite lookup_insert_ne].
    + intros r j Hj. rewrite lookup_insert_ne by auto. auto.
  - intros r. destruct (Hp r) as [Hp1 Hp2]. split; [|done]. cbn. by rewrite lookup_insert_ne.
  - cbn. apply lookup_insert_eq.
  - intros c Hc. apply recorded_file.
    + intros r. destruct (Hp r) as [Hp1 Hp2]. split; [|done]. cbn. by rewrite lookup_insert_ne.
    + apply recorded_names; [|done]. intros r _. by rewrite lookup_insert_ne.
  - cbn. apply lookup_insert_eq.
Qed.
End Effects.

(** ** One call *)
Section Call.
Context (euid umask : Z) (c : Claim) (pid : nat).

Definition step_ok (d d' : Disk) (s' : Stage) : Prop := disk_ok d' /\ stage_ok c pid d' s' /\ keeps pid d d'.

Lemma step_ok_same d s : disk_ok d -> stage_ok c pid d s -> step_ok d d s.
Proof. intros Hd Hs. split_and!; [done..|apply keeps_refl]. Qed.

Lemma open_at_same i d x d' : open_at i d = (x, d') -> d' = d /\ (forall j, x = Ok j -> j = i).
Proof. unfold open_at. destruct (dk_files d !! i) as [f|]; [case_decide|]; intros [= <- <-]; by split; [|intros j [=]]. Qed.

Lemma step_open_create ch x d d' : disk_ok d -> perform euid umask pid ch (OpenCreate lock_name) d = Some (x, d') ->
  step_ok d d' match x with Ok l => Opened l | Err _ => Outside end.
Proof.
  intros Hd E. cbn in E. destruct (ch_error ch) as [e|]; [injection E as <- <-; by apply step_ok_same|].
  destruct (dk_names d !! lock_name) as [i|] eqn:El.
  - injection E as E. apply open_at_same in E as [-> Hx]. apply step_ok_same; [done|]. destruct x as [j|]; [|done]. by rewrite (Hx j).
  - injection E as <- <-. destruct (create_ok euid umask lock_name d Hd El) as (H1 & H2 & H3 & H4 & H5); [auto with redeem|].
    split_and!; [done..|]. split; [congruence|done|]. intros l pid' _ [Hl _]. congruence.
Qed.

Lemma step_flock ch x d d' l : disk_ok d -> dk_names d !! lock_name = Some l -> perform euid umask pid ch (Flock l) d = Some (x, d') ->
  step_ok d d' match x with Ok _ => Locked l | Err _ => Opened l end.
Proof.
  intros Hd Hl E. cbn in E. destruct (ch_error ch) as [e|]; [injection E as <- <-; by apply step_ok_same|].
  destruct (dk_locks d !! l) as [|] eqn:El; [done|]. injection E as <- <-. split_and!.
  - by destruct Hd.
  - split; [done|]. cbn. apply lookup_insert_eq.
  - split; [done..|]. intros l' pid' Hp [Hn Hl']. congruence.
Qed.

Lemma redeem_step_close ch x d d' l s : disk_ok d -> stage_ok c pid d s -> stage_lock s = Some l -> perform euid umask pid ch (Close l) d = Some (x, d') ->
  step_ok d d' match s with Published _ _ _ => Redeemed | _ => Ended end.
Proof.
  intros Hd Hs Hl E. injection E as <- <-. split_and!.
  - by destruct Hd.
  - destruct s; try done. by destruct Hs as (_ & _ & Hs).
  - split; [done..|]. intros l' pid' Hp [Hn Hl']. split_and!; [done..|]. cbn. case_decide; [|done].
    rewrite lookup_delete_ne; [done|]. intros ->. congruence.
Qed.

Lemma step_exclusive ch x d d' l t : disk_ok d -> held pid d l -> is_temporary t ->
  perform euid umask pid ch (OpenExclusive t) d = Some (x, d') ->
  step_ok d d' match x with Ok i => Created l t i | Err _ => Locked l end.
Proof.
  intros Hd Hl Ht E. cbn in E. destruct (ch_error ch) as [e|]; [injection E as <- <-; by apply step_ok_same|].
  destruct (dk_names d !! t) as [i|] eqn:En; [injection E as <- <-; by apply step_ok_same|]. injection E as <- <-.
  destruct (create_ok euid umask t d Hd En) as (H1 & H2 & H3 & H4 & H5); [auto with redeem|].
  assert (Hl' : held pid (set_file (fresh_inode d) (new_file euid umask) (set_names <[t := fresh_inode d]> d)) l).
  { apply held_set_file, held_set_names; [|done]. apply lookup_insert_ne. auto with redeem. }
  split_and!; [done| |by apply (keeps_holding _ _ _ l); [|apply Hl'|]]. cbn -[set_file set_names]. eauto 10.
Qed.

Lemma step_write ch x d d' l t i bytes : disk_ok d -> stage_ok c pid d (Created l t i) -> valid_record c bytes ->
  perform euid umask pid ch (WriteAll i bytes) d = Some (x, d') ->
  step_ok d d' match x with Ok _ => Filled l t i | Err _ => Spoiled l t end.
Proof.
  intros Hd (Hl & Ht & Hn & Hp & f & Hf & Hc) Hv E. cbn in E. rewrite Hf, Hc in E.
  assert (Hk : forall g, disk_ok (set_file i g d) /\ keeps pid d (set_file i g d)).
  { intros g. split; [by apply disk_ok_file|]. apply (keeps_holding _ _ _ l); [done|apply Hl|]. intros c' Hc'. by apply recorded_file. }
  destruct (ch_error ch) as [e|]; injection E as <- <-; (split_and!; [apply Hk| |apply Hk]); [done|].
  cbn. split_and!; [done..|]. eexists. by rewrite lookup_insert_eq.
Qed.

Lemma step_sync_file ch x d d' l t i : disk_ok d -> stage_ok c pid d (Filled l t i) ->
  perform euid umask pid ch (SyncFile i) d = Some (x, d') ->
  step_ok d d' match x with Ok _ => Safe l t i | Err _ => Spoiled l t end.
Proof.
  intros Hd (Hl & Ht & Hn & f & Hf & Hv) E. cbn in E.
  destruct (ch_error ch) as [e|]; [injection E as <- <-; by apply step_ok_same|]. rewrite Hf in E. injection E as <- <-.
  split_and!; [by apply disk_ok_file| |].
  - split_and!; [done..|]. eexists. cbn. rewrite lookup_insert_eq. done.
  - apply (keeps_holding _ _ _ l); [done|apply Hl|]. intros c'. by apply (recorded_synced d i f).
Qed.

Lemma step_link ch x d d' l t i : disk_ok d -> stage_ok c pid d (Safe l t i) ->
  perform euid umask pid ch (LinkAt t (final_name c.1)) d = Some (x, d') ->
  step_ok d d' match x with Ok _ => Linked l t i | Err _ => Spoiled l t end.
Proof.
  intros Hd (Hl & Ht & Hn & Hr) E. cbn in E.
  destruct (ch_error ch) as [e|]; [injection E as <- <-; by apply step_ok_same|]. rewrite Hn in E.
  destruct (dk_names d !! final_name c.1) as [|] eqn:Ef; [injection E as <- <-; by apply step_ok_same|]. injection E as <- <-.
  assert (Hl' : held pid (set_names <[final_name c.1 := i]> d) l).
  { apply held_set_names; [|done]. apply lookup_insert_ne. auto with redeem. }
  assert (Hfin : forall r, is_Some (dk_names d !! final_name r) -> <[final_name c.1 := i]> (dk_names d) !! final_name r = dk_names d !! final_name r).
  { intros r [j Hj]. apply lookup_insert_ne. congruence. }
  split_and!.
  - destruct Hd as [H1 H2 H3]. split; cbn; [|done|].
    + intros n j [[<- <-]|[_ Hj]]%lookup_insert_Some; [|eauto]. destruct Hr as (f & Hf & _). eauto.
    + intros r j Hj%H3. rewrite Hfin; [done|]. eauto.
  - split_and!; [done..| |done]. cbn. apply lookup_insert_eq.
  - apply (keeps_holding _ _ _ l); [done|apply Hl'|]. intros c'. apply recorded_names. exact Hfin.
Qed.

(** Once the directory is synced, what it names is on disk. *)
Lemma recorded_sync d c' : disk_ok d -> recorded d c' -> recorded (set_durable (dk_names d) d) c'.
Proof. intros Hd (i & Hn & Hd' & Hh). by exists i. Qed.

Lemma step_sync_directory ch x d d' l t i : disk_ok d -> stage_ok c pid d (Linked l t i) ->
  perform euid umask pid ch SyncDirectory d = Some (x, d') ->
  step_ok d d' match x with Ok _ => Published l t i | Err _ => Linked l t i end.
Proof.
  intros Hd (Hl & Ht & Hn & Hr) E. cbn in E. destruct (ch_error ch) as [e|]; injection E as <- <-; [by apply step_ok_same|]. split_and!.
  - destruct Hd as [H1 H2 H3]. by split.
  - split_and!; [done..|]. by exists i.
  - apply (keeps_holding _ _ _ l); [done|apply Hl|]. intros c'. by apply recorded_sync.
Qed.

Lemma step_sync_again ch x d d' l t i : disk_ok d -> stage_ok c pid d (Published l t i) ->
  perform euid umask pid ch SyncDirectory d = Some (x, d') -> step_ok d d' (Published l t i).
Proof.
  intros Hd Hs E. destruct Hs as (Hl & Ht & Hr) eqn:Hs'. cbn in E.
  destruct (ch_error ch) as [e|]; injection E as <- <-; [by apply step_ok_same|]. split_and!.
  - destruct Hd as [H1 H2 H3]. by split.
  - split_and!; [done..|]. by apply recorded_sync.
  - apply (keeps_holding _ _ _ l); [done|apply Hl|]. intros c'. by apply recorded_sync.
Qed.

Definition after_unlink (s : Stage) (l : nat) (t : list Z) : Stage :=
  match s with Linked _ _ _ | Published _ _ _ => s | _ => Spoiled l t end.

Lemma stage_unlinked d s l t : stage_ok c pid d s -> stage_lock s = Some l -> stage_temporary s = Some t ->
  held pid d l /\ is_temporary t /\ stage_ok c pid d (after_unlink s l t).
Proof. intros Hs Hl Ht. destruct s; try done; injection Hl as ->; injection Ht as ->; cbn in *; naive_solver. Qed.

Lemma step_unlink ch x d d' s l t : disk_ok d -> stage_ok c pid d s -> stage_lock s = Some l -> stage_temporary s = Some t ->
  perform euid umask pid ch (UnlinkAt t) d = Some (x, d') -> step_ok d d' (after_unlink s l t).
Proof.
  intros Hd Hs Hl Ht E. destruct (stage_unlinked d s l t Hs Hl Ht) as (Hh & Hi & Ha). cbn in E.
  destruct (ch_error ch) as [e|]; [injection E as <- <-; by apply step_ok_same|].
  destruct (dk_names d !! t) as [i|] eqn:En; injection E as <- <-; [|by apply step_ok_same].
  assert (Hdel : forall r, delete t (dk_names d) !! final_name r = dk_names d !! final_name r).
  { intros r. apply lookup_delete_ne. auto with redeem. }
  assert (Hl' : held pid (set_names (delete t) d) l). { apply held_set_names; [|done]. apply lookup_delete_ne. auto with redeem. }
  assert (Hrec : forall c', recorded d c' -> recorded (set_names (delete t) d) c'). { intros c'. apply recorded_names. auto. }
  split_and!.
  - destruct Hd as [H1 H2 H3]. split; cbn; [|done|].
    + intros n j [_ Hj]%lookup_delete_Some. eauto.
    + intros r j Hj. rewrite Hdel. auto.
  - destruct s; try done; injection Hl as ->; injection Ht as ->; cbn [after_unlink stage_ok] in *; [split_and!; [done..| |apply Ha]|].
    + cbn. rewrite Hdel. apply Ha.
    + split_and!; [done..|]. apply Hrec, Ha.
  - apply (keeps_holding _ _ _ l); [done|apply Hl'|done].
Qed.

(** Every call in order keeps what the stages mean. *)
Lemma step_perform ch d s s' {X : Set} (call : SysCall X) x d' : disk_ok d -> stage_ok c pid d s -> next c s call x = Some s' ->
  perform euid umask pid ch call d = Some (x, d') -> step_ok d d' s'.
Proof.
  intros Hd Hs Hn E. destruct call; cbn [next] in Hn.
  all: try (injection Hn as <-; injection E as _ <-; by apply step_ok_same).
  - injection Hn as <-. assert (d' = d) as ->; [|by apply step_ok_same]. cbn in E. destruct (ch_error ch), (dk_names d !! name); try congruence.
    injection E as E. by apply open_at_same in E as [-> _].
  - destruct s; try done. case_decide; [subst|done]. injection Hn as <-. by eapply step_open_create.
  - destruct s; try done. case_decide; [|done]. injection Hn as <-. by eapply step_exclusive.
  - destruct s; try done. case_decide as Hc; [destruct Hc as [-> Hv]|done]. injection Hn as <-. by eapply step_write.
  - destruct s; try done. case_decide; [subst|done]. injection Hn as <-. by eapply step_sync_file.
  - destruct s; try done; injection Hn as <-; [by eapply step_sync_directory|by eapply step_sync_again].
  - destruct s; try done. case_decide as Hc; [destruct Hc as [-> ->]|done]. injection Hn as <-. by eapply step_link.
  - destruct (stage_lock s) as [l|] eqn:El, (stage_temporary s) as [t|] eqn:Et; try (by destruct s).
    assert (name = t /\ s' = after_unlink s l t) as [-> ->].
    { destruct s; try done; cbn in *; case_decide; try done; by simplify_eq. }
    by eapply step_unlink.
  - destruct s; try done. case_decide; [subst|done]. injection Hn as <-. by eapply step_flock.
  - case_decide; [|done]. injection Hn as <-. by eapply redeem_step_close.
Qed.
End Call.
