(* ===== verification/RedeemProps.v ===== *)
(** * A request is redeemed once

    Any number of receivers run at once, in any order; calls fail, processes are
    killed and the machine crashes.  Still no request is ever redeemed twice, and
    what a receiver was told is redeemed stays recorded on disk. *)

From stdpp Require Import strings functions.
From S2P Require Import Prelude Text Proto Hashing Mapping Grant AuthSettle TcpProps Directive DirectiveProps Signer Redeem RedeemSystem RedeemStage RedeemWp RedeemInv.
Local Open Scope Z_scope.

(** ** Crashes and processes that are gone *)
Lemma crash_names written torn d n : dk_names (crash_disk written torn d) !! n = (if decide (n ∈ written) then dk_names d !! n else dk_durable d !! n).
Proof.
  cbn. case_decide as Hn.
  - destruct (dk_names d !! n) as [i|] eqn:E; [apply lookup_union_Some_l; by apply map_lookup_filter_Some_2|].
    apply lookup_union_None_2; apply map_lookup_filter_None; [by left|]. right. intros i _. cbn. naive_solver.
  - rewrite lookup_union_r by (apply map_lookup_filter_None; right; done). destruct (dk_durable d !! n) as [i|] eqn:E; [by apply map_lookup_filter_Some_2|].
    apply map_lookup_filter_None. by left.
Qed.

Lemma crash_files written torn d i f : dk_files d !! i = Some f -> exists g, dk_files (crash_disk written torn d) !! i = Some g /\ (fi_synced f = true -> g = f).
Proof. intros E. cbn. rewrite map_lookup_imap, E. cbn. eexists. split; [done|]. by intros ->. Qed.

Lemma crash_ok written torn d : disk_ok d -> disk_ok (crash_disk written torn d).
Proof.
  intros [H1 H2 H3].
  assert (HL : forall n i, dk_names (crash_disk written torn d) !! n = Some i -> is_Some (dk_files (crash_disk written torn d) !! i)).
  { intros n i. rewrite crash_names. intros E. assert (is_Some (dk_files d !! i)) as [f Hf] by (destruct (decide _); eauto).
    destruct (crash_files written torn d i f Hf) as (g & Hg & _). eauto. }
  by split.
Qed.

Lemma crash_recorded written torn d c : recorded d c -> recorded (crash_disk written torn d) c.
Proof.
  intros (i & Hn & Hd & f & Hf & Hs & Hv). exists i. change (dk_durable (crash_disk written torn d)) with (dk_names (crash_disk written torn d)).
  rewrite crash_names. destruct (crash_files written torn d i f Hf) as (g & Hg & Hgf). rewrite (Hgf Hs) in Hg.
  split_and!; [by destruct (decide _)..|]. by exists f.
Qed.

Lemma release_keeps_disk pid d : keeps pid d (release pid d).
Proof. split; [done..|]. intros l pid' Hp [Hn Hl]. split_and!; [done..|]. cbn. by apply map_lookup_filter_Some_2. Qed.

(** ** The system *)
(** The stages at which the request is this process's. *)
Definition claiming (s : Stage) : bool := match s with Linked _ _ _ | Published _ _ _ | Redeemed => true | _ => false end.

Lemma claiming_named c pid d s : stage_ok c pid d s -> claiming s = true -> is_Some (dk_names d !! final_name c.1).
Proof. intros Hs Hc. destruct s; try done; cbn in Hs; unfold recorded in Hs; naive_solver. Qed.

(** Only publishing begins a claim, and only where there was no record. *)
Lemma claims_begin euid umask pid ch c d s s' {X : Set} (call : SysCall X) x d' : stage_ok c pid d s -> next c s call x = Some s' ->
  perform euid umask pid ch call d = Some (x, d') -> claiming s' = true -> claiming s = true \/ dk_names d !! final_name c.1 = None.
Proof.
  intros Hs Hn E Hc. destruct (claiming s) eqn:Hcs; [by left|right]. destruct call; cbn [next] in Hn; destruct s; try done; simplify_eq/=.
  all: repeat (case_decide; simplify_eq/=; try done); try (by destruct x).
  destruct_and!; subst. destruct x as [[]|]; [|done]. destruct (ch_error ch); [done|]. destruct (dk_names d !! t); [|done].
  by destruct (dk_names d !! final_name c.1).
Qed.

Section System.
Context (euid umask : Z) {A : Type} (ours : Process A -> Prop).
Hypothesis (ours_wp : forall p, ours p -> wp (pr_claim p) Outside (pr_prog p) ends_redeemed).
Implicit Types σ : System A.

Definition requests (done : list (Claim * result string A)) : list RequestId := (redeemed done).*1.

Record sys_ok σ (st : nat -> Stage) : Prop := {
  so_disk : disk_ok (sys_disk σ);
  so_stage pid p : sys_running σ !! pid = Some p ->
    wp (pr_claim p) (st pid) (pr_prog p) ends_redeemed /\ stage_ok (pr_claim p) pid (sys_disk σ) (st pid);
  so_recorded c : c ∈ redeemed (sys_done σ) -> recorded (sys_disk σ) c;
  so_once : NoDup (requests (sys_done σ));
  so_claims pid p : sys_running σ !! pid = Some p -> claiming (st pid) = true -> (pr_claim p).1 ∉ requests (sys_done σ);
  so_unique pid pid' p p' : sys_running σ !! pid = Some p -> sys_running σ !! pid' = Some p' ->
    claiming (st pid) = true -> claiming (st pid') = true -> (pr_claim p).1 = (pr_claim p').1 -> pid = pid'
}.

(** Dropping a process keeps the rest. *)
Lemma leave_ok σ st pid : sys_ok σ st -> sys_ok (leave pid [] σ) st.
Proof.
  intros [H1 H2 H3 H4 H5 H6]. pose proof (release_keeps_disk pid (sys_disk σ)) as K. unfold leave. rewrite app_nil_r. split; cbn -[release].
  - by destruct H1.
  - intros q p [Hq Hp]%lookup_delete_Some. destruct (H2 q p Hp) as [Hw Hs]. split; [done|]. by apply (stage_keeps _ pid _ (sys_disk σ)).
  - intros c Hc. by apply (kp_recorded _ _ _ K), H3.
  - done.
  - intros q p [_ Hp]%lookup_delete_Some. eauto.
  - intros q q' p p' [_ Hp]%lookup_delete_Some [_ Hp']%lookup_delete_Some. eauto.
Qed.

(** Only what was redeemed counts. *)
Lemma sys_ok_done σ st done : redeemed done = redeemed (sys_done σ) -> sys_ok σ st -> sys_ok (mkSystem (sys_disk σ) (sys_running σ) done) st.
Proof. intros E [H1 H2 H3 H4 H5 H6]. unfold requests in *. split; unfold requests; cbn [sys_done sys_running sys_disk]; rewrite ?E; assumption. Qed.

Lemma return_ok σ st pid p r : sys_ok σ st -> sys_running σ !! pid = Some p -> pr_prog p = Return r ->
  sys_ok (leave pid [(pr_claim p, r)] σ) st.
Proof.
  intros Hok Hp Hr. pose proof (leave_ok σ st pid Hok) as Hl. destruct (so_stage _ _ Hok pid p Hp) as [Hw Hs]. rewrite Hr in Hw. cbn in Hw.
  destruct r as [a|e]; cbn in Hw.
  2: { apply (sys_ok_done (leave pid [] σ)); [|done]. cbn. unfold redeemed. rewrite !omap_app. done. }
  rewrite Hw in Hs. destruct Hl as [H1 H2 H3 H4 H5 H6]. pose proof (so_claims _ _ Hok pid p Hp ltac:(by rewrite Hw)) as Hnew.
  assert (Hdone : redeemed (sys_done σ ++ [(pr_claim p, Ok a)]) = redeemed (sys_done σ) ++ [pr_claim p]) by (unfold redeemed; by rewrite omap_app).
  assert (Hreq : requests (sys_done σ ++ [(pr_claim p, Ok a)]) = requests (sys_done σ) ++ [(pr_claim p).1]).
  { unfold requests. rewrite Hdone. by rewrite fmap_app. }
  unfold leave in *. cbn [sys_done sys_running sys_disk] in *. rewrite app_nil_r in *. split; cbn [sys_done sys_running sys_disk]; [done|done|..].
  - rewrite Hdone. intros c [Hc|Hc%list_elem_of_singleton]%elem_of_app; [auto|]. subst c. by apply (kp_recorded _ _ _ (release_keeps_disk pid (sys_disk σ))).
  - rewrite Hreq. apply NoDup_app. split_and!; [done| |apply NoDup_singleton]. intros x Hx Hx'%list_elem_of_singleton. by subst x.
  - intros q p' Hq Hc. rewrite Hreq. intros [Hx|Hx%list_elem_of_singleton]%elem_of_app; [by eapply H5|].
    apply lookup_delete_Some in Hq as [Hne Hq]. apply Hne. eapply (so_unique _ _ Hok pid q); [done..|by rewrite Hw|done|done].
  - done.
Qed.

Lemma call_ok σ st pid p {X : Set} (c : SysCall X) k ch x d : sys_ok σ st -> sys_running σ !! pid = Some p -> pr_prog p = Ask c k ->
  perform euid umask pid ch c (sys_disk σ) = Some (x, d) ->
  exists st', sys_ok (mkSystem d (<[pid := mkProcess (pr_claim p) (k x)]> (sys_running σ)) (sys_done σ)) st'.
Proof.
  intros [H1 H2 H3 H4 H5 H6] Hp Hr E. destruct (H2 pid p Hp) as [Hw Hs]. rewrite Hr in Hw. specialize (Hw x). cbn beta iota in Hw.
  destruct (next (pr_claim p) (st pid) c x) as [s'|] eqn:En; [|done].
  destruct (step_perform euid umask (pr_claim p) pid ch _ _ s' c x d H1 Hs En E) as (Hd & Hs' & K).
  pose proof (claims_begin euid umask pid ch _ _ _ _ c x d Hs En E) as Hnew.
  exists (<[pid := s']> st). split; cbn [sys_done sys_running sys_disk].
  - done.
  - intros q p' [[<- <-]|[Hne Hq]]%lookup_insert_Some; [by rewrite fn_lookup_insert|]. rewrite fn_lookup_insert_ne by done.
    destruct (H2 q p' Hq) as [Hw' Hq']. split; [done|]. by apply (stage_keeps _ pid _ (sys_disk σ)).
  - intros c' Hc'. by apply (kp_recorded _ _ _ K), H3.
  - done.
  - intros q p' [[<- <-]|[Hne Hq]]%lookup_insert_Some; rewrite ?fn_lookup_insert, ?fn_lookup_insert_ne by done; [|eauto].
    intros Hc. cbn. destruct (Hnew Hc) as [Hc'|Hnone]; [eauto|]. intros (c' & Hc1 & Hc2)%list_elem_of_fmap. apply H3 in Hc2 as (i & Hi & _). congruence.
  - assert (Hone : forall q p', sys_running σ !! q = Some p' -> pid <> q -> claiming s' = true -> claiming (st q) = true -> (pr_claim p).1 <> (pr_claim p').1).
    { intros q p' Hq Hne Hc Hcq Hr'. destruct (Hnew Hc) as [Hc'|Hnone]; [by eapply Hne, H6|].
      destruct (claiming_named _ _ _ _ (proj2 (H2 q p' Hq)) Hcq) as [i Hi]. congruence. }
    intros q q' p' p'' [[<- <-]|[Hne Hq]]%lookup_insert_Some [[<- <-]|[Hne' Hq']]%lookup_insert_Some; rewrite ?fn_lookup_insert, ?fn_lookup_insert_ne by done.
    + done.
    + intros Hc Hc' He. by destruct (Hone q' p'').
    + intros Hc Hc' He. by destruct (Hone q p').
    + eauto.
Qed.

(** The processes that are started are ours. *)
Definition starts_ours (e : SysEvent A) : Prop := match e with Start _ p => ours p | _ => True end.

Lemma system_step_ok σ st e : starts_ours e -> sys_ok σ st -> exists st', sys_ok (system_step euid umask e σ) st'.
Proof.
  intros He Hok. destruct e as [pid p|pid ch|pid|written torn]; cbn.
  - case_decide as Hn; [by exists st|]. apply eq_None_not_Some in Hn. exists (<[pid := Outside]> st). destruct Hok as [H1 H2 H3 H4 H5 H6]. split; cbn; [done|..|done|done| |].
    + intros q p' [[<- <-]|[Hne Hq]]%lookup_insert_Some; [rewrite fn_lookup_insert; split; [by apply ours_wp|done]|]. rewrite fn_lookup_insert_ne by done. eauto.
    + intros q p' [[<- <-]|[Hne Hq]]%lookup_insert_Some; rewrite ?fn_lookup_insert, ?fn_lookup_insert_ne by done; [done|eauto].
    + intros q q' p' p'' [[<- <-]|[Hne Hq]]%lookup_insert_Some [[<- <-]|[Hne' Hq']]%lookup_insert_Some; rewrite ?fn_lookup_insert, ?fn_lookup_insert_ne by done; [done..|eauto].
  - destruct (sys_running σ !! pid) as [p|] eqn:Hp; [|by exists st]. destruct (pr_prog p) as [r|X c k] eqn:Hr; [exists st; by apply return_ok|].
    destruct (perform euid umask pid ch c (sys_disk σ)) as [[x d]|] eqn:E; [by eapply call_ok|by exists st].
  - exists st. by apply leave_ok.
  - exists st. destruct Hok as [H1 H2 H3 H4 H5 H6]. split; cbn -[crash_disk].
    + by apply crash_ok.
    + intros q p Hq. by rewrite lookup_empty in Hq.
    + intros c Hc. by apply crash_recorded, H3.
    + done.
    + intros q p Hq. by rewrite lookup_empty in Hq.
    + intros q q' p p' Hq. by rewrite lookup_empty in Hq.
Qed.

Lemma system_run_ok σ st es : Forall starts_ours es -> sys_ok σ st -> exists st', sys_ok (system_run euid umask es σ) st'.
Proof.
  intros Hes. revert σ st. induction Hes as [|e es He _ IH]; intros σ st Hok; [by exists st|].
  destruct (system_step_ok σ st e He Hok) as [st' Hok']. by apply (IH _ st').
Qed.
End System.
