(* ===== verification/RedeemOnce.v ===== *)
(** * What a receiver redeems

    The theorems on the receiver's verification: once, only what was checked, and
    not refused without reason. *)

From stdpp Require Import strings.
From S2P Require Import Prelude Text Proto Hashing Mapping Grant AuthSettle TcpProps Directive DirectiveProps Signer Redeem RedeemSystem RedeemStage RedeemWp RedeemInv RedeemProps.
Local Open Scope Z_scope.

(** ** One process *)
Lemma perform_read euid umask pid ch {X : Set} (c : SysCall X) d x d' :
  is_read c = true -> perform euid umask pid ch c d = Some (x, d') -> d' = d.
Proof.
  intros Hc E. destruct c; try done; cbn in E; try congruence. destruct (ch_error ch), (dk_names d !! name); try congruence.
  injection E as E. by apply open_at_same in E as [-> _].
Qed.

(** What reads first, then goes on, changes only what it goes on to change. *)
Lemma run_after_reads {E A E' B} euid umask pid (P : Disk -> Prop) (p : prog E A) (f : result E A -> prog E' B) chs d :
  readonly p -> P d -> (forall r chs, P (run_alone euid umask pid chs (f r) d).2) -> P (run_alone euid umask pid chs (handle p f) d).2.
Proof.
  intros Hp Hd Hf. revert p Hp. induction chs as [|ch chs IH]; intros [r|X c k] Hp; cbn [handle run_alone]; try done.
  - apply (Hf r (ch :: chs)).
  - destruct Hp as [Hc Hk]. destruct (perform euid umask pid ch c d) as [[x d']|] eqn:E1; [|by apply (IH (Ask c k))].
    assert (d' = d) as -> by by eapply perform_read. by apply IH.
Qed.

Lemma run_reads {E A} euid umask pid (p : prog E A) chs d : readonly p -> (run_alone euid umask pid chs p d).2 = d.
Proof.
  intros Hp. revert p Hp. induction chs as [|ch chs IH]; intros [r|X c k] Hp; cbn; try done. destruct Hp as [Hc Hk].
  destruct (perform euid umask pid ch c d) as [[x d']|] eqn:E1; [|by apply (IH (Ask c k))].
  assert (d' = d) as -> by by eapply perform_read. by apply IH.
Qed.

(** A program in order, run alone, has at its end what its stage says. *)
Lemma run_alone_stage {E A} euid umask pid c (p : prog E A) Q chs d s : disk_ok d -> stage_ok c pid d s -> wp c s p Q ->
  exists s', disk_ok (run_alone euid umask pid chs p d).2 /\ stage_ok c pid (run_alone euid umask pid chs p d).2 s' /\
    wp c s' (run_alone euid umask pid chs p d).1 Q.
Proof.
  revert p d s. induction chs as [|ch chs IH]; intros [r|X call k] d s Hd Hs Hw; cbn [run_alone]; try by exists s.
  destruct (perform euid umask pid ch call d) as [[x d']|] eqn:E1; [|by apply (IH (Ask call k) d s)].
  pose proof (Hw x) as Hx. cbn beta iota in Hx. destruct (next c s call x) as [s'|] eqn:En; [|done].
  destruct (step_perform euid umask c pid ch d s s' call x d' Hd Hs En E1) as (Hd' & Hs' & _). by apply (IH (k x) d' s').
Qed.

(** Every result of a program, whatever it is answered. *)
Fixpoint returns {E A} (p : prog E A) (Q : result E A -> Prop) : Prop :=
  match p with Return r => Q r | Ask c k => forall x, returns (k x) Q end.

Lemma returns_handle {E A E' B} (p : prog E A) (f : result E A -> prog E' B) Q : returns p (fun r => returns (f r) Q) -> returns (handle p f) Q.
Proof. induction p as [r|X c k IH]; cbn; auto. Qed.

Lemma returns_mono {E A} (p : prog E A) (Q Q' : result E A -> Prop) : (forall r, Q r -> Q' r) -> returns p Q -> returns p Q'.
Proof. intros HQ. induction p as [r|X c k IH]; cbn; auto. Qed.

Lemma returns_any {E A} (p : prog E A) (Q : result E A -> Prop) : (forall r, Q r) -> returns p Q.
Proof. intros HQ. induction p as [r|X c k IH]; cbn; auto. Qed.

Lemma returns_then {E A B} (p : prog E A) (f : A -> prog E B) (Q : result E B -> Prop) :
  returns p (fun r => match r with Ok a => returns (f a) Q | Err e => Q (Err e) end) -> returns (p ≫= f) Q.
Proof. intros Hp. apply returns_handle. eapply returns_mono; [|exact Hp]. by intros [a|e]. Qed.

Lemma returns_run {E A} euid umask pid (p : prog E A) chs d Q : returns p Q -> returns (run_alone euid umask pid chs p d).1 Q.
Proof.
  revert p d. induction chs as [|ch chs IH]; intros [r|X c k] d Hp; cbn [run_alone]; try done.
  destruct (perform euid umask pid ch c d) as [[x d']|]; [|by apply (IH (Ask c k))]. apply IH, Hp.
Qed.

(** ** The theorems *)
Section Theorems.
Context `{HashLaws} `{SshKeys} (b64_encode : list Z -> list Z) (b64_decode : list Z -> option (list Z)).
Context (to_stdvec : Directive -> option (list Z)) (take_from_bytes : list Z -> option (Directive * list Z)).
Context (euid instant_limit umask : Z) {T : Type}.
Notation decode := (Signed_decode b64_encode b64_decode to_stdvec take_from_bytes).
Notation verify_and_redeem := (verify_and_redeem b64_encode b64_decode to_stdvec take_from_bytes euid instant_limit (T := T)).
Notation receiver_verify := (receiver_verify b64_encode b64_decode to_stdvec take_from_bytes euid instant_limit (T := T)).
Notation claim_of := (claim_of b64_encode b64_decode to_stdvec take_from_bytes).

(** A receiver asked to run a directive. *)
Definition is_receiver (p : Process (T * VerifiedDirective)) : Prop :=
  exists config generation build encoded derive, p = mkProcess (claim_of encoded) (receiver_verify config generation build encoded derive).

(** C1. However receivers are started, interleaved, answered, killed and cut off
    by crashes, no request is redeemed twice, and a request that a receiver was
    told it redeemed is recorded on disk, with the digest of its directive, from
    then on. *)
Theorem a_request_is_redeemed_once d es : typed_directives take_from_bytes -> disk_ok d -> Forall (starts_ours is_receiver) es ->
  let σ := system_run euid umask es (mkSystem d ∅ []) in
  NoDup (redeemed (sys_done σ)).*1 /\ forall c, c ∈ redeemed (sys_done σ) -> recorded (sys_disk σ) c.
Proof.
  intros Ht Hd Hes σ. destruct (system_run_ok euid umask is_receiver) with (σ := mkSystem (A := T * VerifiedDirective) d ∅ []) (st := fun _ : nat => Outside) (es := es)
    as [st [_ _ Hrec Hone _ _]]; [..|by split].
  - intros p (config & generation & build & encoded & derive & ->). by apply wp_receiver_verify.
  - done.
  - split; cbn; [done|..]; try (intros *; by rewrite lookup_empty); [set_solver|constructor].
Qed.

(** What verification found, when it went on to redeem. *)
Definition checked (encoded : list Z) (c : ReceiverContext) (signer : TrustedSigner) (derive : Directive -> mres T) (s : Signed) (x : T) : Prop :=
  decode encoded = Ok s /\ derive (sg_directive s) = Ok x /\
  exists observed_at wall earliest latest, validate_at c (sg_directive s) observed_at = Ok wall /\ wall_time_bounds_at c observed_at = Ok (earliest, latest) /\
    signer_verify signer NAMESPACE (sg_payload s) (sg_signature s) (i64_saturating_sub latest (rx_clock_skew_seconds c)) = Ok tt.

(** C5. Until a directive decodes, is valid for this receiver at some time, is
    signed by the trusted key and its rules are derived, verifying it changes
    nothing in the directory. *)
Theorem only_checked_directives_are_recorded encoded c signer derive pid chs d :
  (run_alone euid umask pid chs (verify_and_redeem encoded c signer derive) d).2 = d \/ exists s x, checked encoded c signer derive s x.
Proof.
  unfold Redeem.verify_and_redeem, checked. destruct (decode encoded) as [s|e]; [|left; by apply run_reads].
  cbn [pure mbind prog_bind handle].
  apply (run_after_reads _ _ _ (fun d' => d' = d \/ _)); [done|by left|]. intros [t1|e] chs1; [|left; by apply run_reads].
  cbn [pure mbind prog_bind handle]. destruct (validate_at c (sg_directive s) t1) as [wall|e] eqn:Ev; [|left; by apply run_reads].
  apply (run_after_reads _ _ _ (fun d' => d' = d \/ _)); [auto with redeem|by left|]. intros [[]|e] chs2; [|left; by apply run_reads].
  cbn [pure mbind prog_bind handle]. destruct (wall_time_bounds_at c t1) as [[earliest latest]|e] eqn:Eb; [|left; by apply run_reads].
  cbn [pure mbind prog_bind handle].
  destruct (signer_verify signer NAMESPACE _ _ _) as [[]|e] eqn:Es; [|left; by apply run_reads].
  cbn [pure mbind prog_bind handle]. destruct (derive (sg_directive s)) as [x|e] eqn:Ed; [|left; by apply run_reads].
  right. exists s, x. split_and!; [done..|]. by exists t1, wall, earliest, latest.
Qed.

(** When a copy verified as [s] must end, by the clock of the observation. *)
Definition ends_in_time (c : ReceiverContext) (s : Signed) (deadline : Z) : Prop :=
  forall wall, observed_second c wall ->
    wall + (deadline - rx_monotonic c) < (di_finish_by (sg_directive s) + rx_clock_skew_seconds c + 1) * NANOS.

Lemma deadline_ends_in_time c s t limit wall dl : validate_at c (sg_directive s) t = Ok wall ->
  execution_deadline limit (di_finish_by (sg_directive s)) (rx_clock_skew_seconds c) wall t = Ok dl -> ends_in_time c s dl.
Proof.
  intros Hv Hd w Hw. destruct (deadline_in_time _ _ _ _ _ _ Hv Hd) as [_ Hl]. unfold observed_second in Hw.
  pose proof (Z.mod_pos_bound w NANOS ltac:(done)). pose proof (Z.div_mod w NANOS ltac:(done)). lia.
Qed.

Lemma verify_returns encoded c signer derive : returns (verify_and_redeem encoded c signer derive) (fun r => forall x v, r = Ok (x, v) ->
  exists s, checked encoded c signer derive s x /\ vd_digest v = Signed_digest s /\ ends_in_time c s (vd_execution_deadline v)).
Proof.
  unfold Redeem.verify_and_redeem, checked. apply returns_then. cbn [returns pure]. destruct (decode encoded) as [s|e] eqn:Es; [|done].
  apply returns_then. intros t1. cbn [returns]. apply returns_then. cbn [returns pure]. destruct (validate_at c (sg_directive s) t1) as [wall|e] eqn:Ev; [|done].
  apply returns_then, returns_any. intros [[]|e]; [|done]. apply returns_then. cbn [returns pure].
  destruct (wall_time_bounds_at c t1) as [[earliest latest]|e] eqn:Eb; [|done]. apply returns_then. cbn [returns pure].
  destruct (signer_verify signer NAMESPACE _ _ _) as [[]|e] eqn:Eg; [|done]. apply returns_then. cbn [returns pure].
  destruct (derive (sg_directive s)) as [y|e] eqn:Ed; [|done]. apply returns_then, returns_any. intros [[]|e]; [|done].
  apply returns_then. intros t2. cbn [returns]. apply returns_then. cbn [returns pure]. destruct (validate_at c (sg_directive s) t2) as [wall2|e] eqn:Ev2; [|done].
  apply returns_then. cbn [returns pure]. destruct (execution_deadline _ _ _ _ _) as [dl|e] eqn:Edl; [|done].
  cbn. intros y' w [= <- <-]. exists s. split; [split_and!; [done..|]; by exists t1, wall, earliest, latest|]. split; [done|].
  by eapply deadline_ends_in_time.
Qed.

(** C4. What a receiver goes on to run was checked; it is recorded as used, is
    bound to the digest of what was signed, and must end, by the clock the
    receiver observed, within a second of the finish-by time and the allowed
    skew. *)
Theorem verified_directives_were_checked encoded c signer derive pid chs d x v d' : typed_directives take_from_bytes -> disk_ok d ->
  run_alone euid umask pid chs (verify_and_redeem encoded c signer derive) d = (Return (Ok (x, v)), d') ->
  recorded d' (claim_of encoded) /\
  exists s, checked encoded c signer derive s x /\ vd_digest v = Signed_digest s /\ ends_in_time c s (vd_execution_deadline v).
Proof.
  intros Ht Hd E.
  destruct (run_alone_stage euid umask pid (claim_of encoded) (verify_and_redeem encoded c signer derive) ends_redeemed chs d Outside) as (st & _ & Hst & Hw);
    [done..|by apply wp_verify_and_redeem|].
  rewrite E in Hst, Hw. cbn in Hst, Hw. subst st. split; [done|].
  pose proof (returns_run euid umask pid _ chs d _ (verify_returns encoded c signer derive)) as Hr. rewrite E in Hr. by apply Hr.
Qed.
End Theorems.
