(* ===== verification/RedeemFresh.v ===== *)
(** * A fresh request is redeemed

    With nothing going wrong, a receiver that may redeem a request does: the
    checks that guard the replay store refuse nothing else. *)

From stdpp Require Import strings.
From S2P Require Import Prelude Text Proto Hashing Mapping Grant AuthSettle TcpProps Directive DirectiveProps Signer Redeem RedeemSystem RedeemStage RedeemWp RedeemInv RedeemProps RedeemOnce.
Local Open Scope Z_scope.

Section Ends.
Context (euid umask : Z) (pid : nat) (ch : Choice).
Notation perform := (perform euid umask pid ch).

(** [p] ends with [r] when each of its calls is answered by [ch]. *)
Inductive ends {E A} : prog E A -> Disk -> result E A -> Disk -> Prop :=
| ends_return r d : ends (Return r) d r d
| ends_ask (X : Set) (c : SysCall X) k d x d' r d'' : perform c d = Some (x, d') -> ends (k x) d' r d'' -> ends (Ask c k) d r d''.

Lemma ends_run {E A} (p : prog E A) d r d' : ends p d r d' -> exists n, run_alone euid umask pid (replicate n ch) p d = (Return r, d').
Proof. induction 1 as [r d|X c k d x d' r d'' Hc _ [n IH]]; [by exists 0%nat|]. exists (S n). cbn. by rewrite Hc. Qed.

Lemma ends_handle {E A E' B} (p : prog E A) (f : result E A -> prog E' B) d r d' r' d'' :
  ends p d r d' -> ends (f r) d' r' d'' -> ends (handle p f) d r' d''.
Proof. induction 1 as [r d|X c k d x d1 r d2 Hc _ IH]; intros Hf; cbn; [done|]. eapply ends_ask; [exact Hc|auto]. Qed.

Lemma ends_then {E A B} (p : prog E A) (f : A -> prog E B) d a d' r d'' :
  ends p d (Ok a) d' -> ends (f a) d' r d'' -> ends (p ≫= f) d r d''.
Proof. intros Hp Hf. by apply (ends_handle p _ d (Ok a) d'). Qed.

Lemma ends_pure {E A B} (v : result E A) (f : A -> prog E B) d a r d' : v = Ok a -> ends (f a) d r d' -> ends (pure v ≫= f) d r d'.
Proof. by intros ->. Qed.

Lemma ends_io {X : Set} {B} (c : SysCall (ires X)) (f : X -> prog ErrorKind B) d x d' r d'' :
  perform c d = Some (Ok x, d') -> ends (f x) d' r d'' -> ends (io_call c ≫= f) d r d''.
Proof. intros Hc Hf. eapply ends_ask; [exact Hc|done]. Qed.

Lemma ends_context {A B} m (p : prog ErrorKind A) (f : A -> prog string B) d a d' r d'' :
  ends p d (Ok a) d' -> ends (f a) d' r d'' -> ends (context m p ≫= f) d r d''.
Proof. intros Hp Hf. apply (ends_then _ _ _ a d'); [|done]. eapply ends_handle; [exact Hp|constructor]. Qed.

Lemma ends_io_call {X : Set} (c : SysCall (ires X)) d x d' : perform c d = Some (Ok x, d') -> ends (io_call c) d (Ok x) d'.
Proof. intros Hc. eapply ends_ask; [exact Hc|constructor]. Qed.

Hypothesis no_error : ch_error ch = None.

(** A file the store may use. *)
Definition private_file (f : FileNode) : Prop := fi_type f = TypeFile /\ fi_uid f = euid /\ Z.land (fi_mode f) 4095 = 384.

Lemma ends_private d i f : dk_files d !! i = Some f -> private_file f -> ends (validate_private_file euid i) d (Ok tt) d.
Proof.
  intros Hi (Ht & Hu & Hm). eapply ends_context.
  - apply ends_io_call. cbn. by rewrite no_error, Hi.
  - cbn. rewrite Ht, Hu, Hm, !bool_decide_eq_true_2 by done. constructor.
Qed.

Lemma ends_absent d name n : dk_names d !! name = None -> ends (readat_optional euid name n) d (Ok None) d.
Proof. intros Hn. eapply ends_ask; [cbn; by rewrite no_error, Hn|constructor]. Qed.

Hypothesis umask_ok : Z.ldiff 384 umask = 384.

Lemma new_file_private : private_file (new_file euid umask).
Proof. split_and!; [done..|]. unfold new_file, fi_mode. by rewrite umask_ok. Qed.

Section Request.
Context (r : RequestId) (dg : list Z).
Hypothesis (Hr : length r = 32%nat) (Hdg : length dg = 32%nat).

(** Publishing, from an empty file of one's own. *)
Lemma ends_publish d t i f record : t <> final_name r -> dk_names d !! t = Some i -> dk_names d !! final_name r = None ->
  dk_files d !! i = Some f -> fi_content f = [] ->
  exists d', ends (publish i t (final_name r) record) d (Ok tt) d'.
Proof.
  intros Ht Hn Hf Hi Hc. unfold publish. eexists.
  eapply ends_io; [cbn; rewrite Hi, no_error; reflexivity|]. eapply ends_io; [cbn; rewrite no_error, lookup_insert_eq; reflexivity|].
  eapply ends_io; [cbn; rewrite no_error, Hn, Hf; reflexivity|]. eapply ends_io; [cbn; rewrite no_error; reflexivity|].
  eapply ends_io; [cbn; rewrite no_error, lookup_insert_ne, Hn by done; reflexivity|]. apply ends_io_call. cbn. rewrite no_error. reflexivity.
Qed.

(** The store is idle: no lock is held, and the lock's file, if there is one, is
    usable. *)
Definition idle (d : Disk) : Prop :=
  dk_locks d = ∅ /\ forall l, dk_names d !! lock_name = Some l -> exists f, dk_files d !! l = Some f /\ private_file f.

Lemma ends_open_lock d : idle d -> exists l f d', ends open_lock d (Ok l) d' /\ dk_files d' !! l = Some f /\ private_file f /\
  dk_locks d' = ∅ /\ forall n, n <> lock_name -> dk_names d' !! n = dk_names d !! n.
Proof.
  intros [Hl Hf]. destruct (dk_names d !! lock_name) as [l|] eqn:El.
  - destruct (Hf l eq_refl) as (f & Hi & Hp). exists l, f, d. split_and!; try done.
    apply (ends_ask _ _ _ d (Ok l) d); [|constructor]. cbn. rewrite no_error, El. unfold open_at. by rewrite Hi, (proj1 Hp).
  - exists (fresh_inode d), (new_file euid umask). eexists. split_and!.
    + eapply ends_ask; [cbn; rewrite no_error, El; reflexivity|constructor].
    + cbn. apply lookup_insert_eq.
    + apply new_file_private.
    + done.
    + intros n Hn. cbn. by apply lookup_insert_ne.
Qed.

Lemma ends_redeem d (at_ : prog string Z) wall : idle d -> RequestId_validate r = Ok tt -> in_time wall = true ->
  (forall d, ends at_ d (Ok wall) d) -> dk_names d !! final_name r = None ->
  dk_names d !! temporary_name r (take 16 (ch_random ch)) = None ->
  exists d', ends (redeem_after_lock euid r dg at_) d (Ok tt) d'.
Proof.
  intros Hd Hv Hw Ha Hn Htn. destruct (ends_open_lock d Hd) as (l & f & d1 & Hol & Hi & Hp & Hl & Hnames).
  set (t := temporary_name r (take 16 (ch_random ch))). pose proof (temporary_name_is_temporary r (take 16 (ch_random ch))) as Ht. fold t in Ht.
  set (d2 := set_locks <[l := pid]> d1). set (i := fresh_inode d2). set (d3 := set_file i (new_file euid umask) (set_names <[t := i]> d2)).
  assert (Hfn : dk_names d1 !! final_name r = None) by (rewrite Hnames; auto with redeem).
  assert (Hft : dk_names d1 !! t = None) by (rewrite Hnames; auto with redeem).
  destruct (ends_publish d3 t i (new_file euid umask) (REDEMPTION_MAGIC ++ to_be_bytes 8 wall ++ r ++ dg)) as [d4 Hpub].
  { auto with redeem. } { cbn. apply lookup_insert_eq. } { cbn. rewrite lookup_insert_ne; auto with redeem. } { cbn. apply lookup_insert_eq. } { done. }
  eexists. unfold redeem_after_lock. eapply ends_pure; [exact Hv|]. eapply ends_context; [exact Hol|].
  eapply ends_handle; [|eapply ends_ask; [reflexivity|constructor]].
  eapply ends_then; [by eapply ends_private|]. eapply ends_context; [apply ends_io_call; cbn; rewrite no_error, Hl, lookup_empty; reflexivity|].
  fold d2. unfold redeem_locked. eapply ends_then; [apply Ha|]. eapply ends_then; [by apply ends_absent|]. cbn iota beta.
  eapply ends_context; [apply ends_io_call; cbn; rewrite no_error; reflexivity|]. fold t.
  eapply ends_context; [apply ends_io_call; cbn; rewrite no_error, Hft; reflexivity|].
  fold i d3. unfold fill_and_publish. eapply ends_then.
  - eapply ends_handle; [eapply (ends_private _ _ (new_file euid umask)); [cbn; apply lookup_insert_eq|apply new_file_private]|constructor].
  - eapply ends_pure; [unfold redeem_record; rewrite Hw; reflexivity|]. eapply ends_handle; [exact Hpub|constructor].
Qed.
End Request.
End Ends.

Lemma validate_at_wall c d t wall : validate_at c d t = Ok wall -> exists earliest, wall_time_bounds_at c t = Ok (earliest, wall) /\ in_time wall = true.
Proof.
  unfold validate_at. intros ([e l] & Hb & Hv)%result_bind_Ok. apply result_bind_Ok in Hv as (? & _ & Hv). apply result_bind_Ok in Hv as (? & _ & Hv).
  apply result_bind_Ok in Hv as (? & Ht%require_Ok & Hv). do 11 (apply result_bind_Ok in Hv as (? & _ & Hv)).
  apply Ok_inj in Hv as <-. apply andb_true_iff in Ht as [_ Ht]. by exists e.
Qed.

Section Fresh.
Context `{HashLaws} `{SshKeys} (b64_encode : list Z -> list Z) (b64_decode : list Z -> option (list Z)).
Context (to_stdvec : Directive -> option (list Z)) (take_from_bytes : list Z -> option (Directive * list Z)).
Context (euid instant_limit umask : Z) {T : Type}.
Notation decode := (Signed_decode b64_encode b64_decode to_stdvec take_from_bytes).
Notation verify_and_redeem := (verify_and_redeem b64_encode b64_decode to_stdvec take_from_bytes euid instant_limit (T := T)).

Lemma decode_request bytes s : decode bytes = Ok s -> RequestId_validate (di_request_id (sg_directive s)) = Ok tt.
Proof.
  intros E. unfold Signed_decode in E. do 3 apply result_bind_Ok in E as ([] & _ & E). apply result_bind_Ok in E as ([d rest] & _ & E).
  apply result_bind_Ok in E as (? & _ & E). apply result_bind_Ok in E as ([] & _ & E). apply result_bind_Ok in E as ([] & Hv & E).
  apply result_bind_Ok in E as ([] & _ & E). apply Ok_inj in E as <-. cbn. unfold Directive_validate in Hv.
  apply result_bind_Ok in Hv as (? & _ & Hv). by apply result_bind_Ok in Hv as ([] & Hr & _).
Qed.

(** The store has no record of the request, and no file of the name that the
    random bytes give. *)
Definition unused (d : Disk) (r : RequestId) (random : list Z) : Prop :=
  dk_names d !! final_name r = None /\ dk_names d !! temporary_name r (take 16 random) = None.

(** C15. With no failing call, at a time when the directive is valid, a receiver
    whose signer signed it and whose rules derive verifies it, if the request
    has no record and the store is idle. *)
Theorem fresh_requests_are_redeemed encoded c signer derive pid ch d s x wall dl :
  ch_error ch = None -> Z.ldiff 384 umask = 384 -> idle euid d ->
  decode encoded = Ok s -> validate_at c (sg_directive s) (ch_time ch) = Ok wall ->
  signer_verify signer NAMESPACE (sg_payload s) (sg_signature s) (i64_saturating_sub wall (rx_clock_skew_seconds c)) = Ok tt ->
  derive (sg_directive s) = Ok x ->
  execution_deadline instant_limit (di_finish_by (sg_directive s)) (rx_clock_skew_seconds c) wall (ch_time ch) = Ok dl ->
  unused d (di_request_id (sg_directive s)) (ch_random ch) ->
  exists n d', run_alone euid umask pid (replicate n ch) (verify_and_redeem encoded c signer derive) d =
    (Return (Ok (x, mkVerified (Signed_digest s) dl)), d').
Proof.
  intros Hch Hu Hi Es Ev Eg Ed El [Hn Ht]. destruct (validate_at_wall _ _ _ _ Ev) as (earliest & Eb & Hw).
  pose proof (decode_request _ _ Es) as Hrq.
  destruct (ends_redeem euid umask pid ch Hch Hu (di_request_id (sg_directive s)) (h_hash sha2 (sg_payload s)) d
    (validate_now c (sg_directive s)) wall) as [d' Hd']; [try done..|].
  { intros d0. eapply ends_ask; [reflexivity|]. cbn. rewrite Ev. constructor. }
  destruct (ends_run euid umask pid ch (verify_and_redeem encoded c signer derive) d (Ok (x, mkVerified (Signed_digest s) dl)) d') as [n Hrun]; [|by exists n, d'].
  unfold Redeem.verify_and_redeem. eapply ends_pure; [exact Es|]. eapply ends_ask; [reflexivity|]. cbn [handle].
  eapply ends_pure; [exact Ev|]. eapply ends_then.
  { unfold reject_if_redeemed. eapply ends_pure; [exact Hrq|]. eapply ends_then; [by apply ends_absent|]. constructor. }
  eapply ends_pure; [exact Eb|]. cbn iota beta. eapply ends_pure; [exact Eg|]. eapply ends_pure; [exact Ed|]. eapply ends_then; [exact Hd'|].
  eapply ends_ask; [reflexivity|]. cbn [handle]. eapply ends_pure; [exact Ev|]. eapply ends_pure; [exact El|]. constructor.
Qed.
End Fresh.
