(* ===== verification/RedeemSample.v ===== *)
(** * Receivers at work on a sample directive

    Concrete libraries and runs at which the theorems on redemption apply, and a
    run that a comment of the source rules out. *)

From stdpp Require Import strings.
From S2P Require Import Prelude Text Proto Hashing Mapping Grant AuthSettle TcpProps Directive DirectiveProps Signer SignerProps Redeem RedeemSystem RedeemStage RedeemWp RedeemInv RedeemProps RedeemOnce RedeemFresh.
Local Open Scope Z_scope.

(** A library that knows one key and one signature. *)
Definition toy_keys : SshKeys := {|
  KeyData := unit; Signature := unit; SshSig := unit; key_eq_dec := _;
  from_openssh := fun l => if decide (l = bs "ssh-ed25519 key") then Some tt else None;
  to_openssh := fun _ => Some (bs "ssh-ed25519 key");
  key_algorithm := fun _ => Ed25519;
  key_rsa := fun _ => None;
  key_verify := fun _ _ _ => true;
  rsa_accepts := fun _ _ _ => false; rsa_signature_parses := fun _ => false; rsa_verify := fun _ _ _ _ _ => false;
  from_pem := fun l => if decide (l = toy_signature) then Some tt else None;
  ss_namespace := fun _ => NAMESPACE; ss_reserved := fun _ => []; ss_public_key := fun _ => tt; ss_hash_alg := fun _ => HashSha512;
  ss_signature := fun _ => tt; sig_algorithm := fun _ => Ed25519; sig_bytes := fun _ => replicate 64 1;
  signed_data := fun _ _ p => Some p;
  ssh_string := fun l => Some l; key_prefixed := fun _ => Some [1];
  algorithm_name := fun _ => bs "ssh-ed25519"; hash_name := fun _ => bs "sha512"
|}.
#[local] Existing Instance toy_keys.
#[local] Existing Instance sum_lib.

Definition sample_signer : TrustedSigner := mkSigner (bs "ssh-ed25519 key") None None.
Definition sample_receiver : ReceiverEnrollment := mkEnrollment toy_keys sample_enrollment (bs "ann") 3 (bs "1.0") sample_signer.
Definition sample_process : prog string (Z * VerifiedDirective) :=
  receiver_verify (fun l => l) Some toy_encode toy_take 501 (2 ^ 80) sample_receiver 3 (bs "1.0") sample_signed (fun _ => Ok 7).
Definition sample_claim : Claim := claim_of (fun l => l) Some toy_encode toy_take sample_signed.
Definition empty_store : Disk := mkDisk ∅ ∅ ∅ ∅ (mkStat false true 501 448).
Definition good (now : Z) : Choice := mkChoice None now [1; 2; 3] 0.

Lemma toy_typed : typed_directives toy_take.
Proof.
  intros l d rest E. assert (d = sample_directive) as ->.
  { unfold toy_take in E. repeat case_match; try done. by injection E. }
  by apply (bool_decide_unpack (has_width 32 _)).
Qed.

Lemma empty_store_ok : disk_ok empty_store.
Proof. split; intros *; cbn; by rewrite lookup_empty. Qed.

(** Two receivers of one directive, step by step in turn; then a crash, and a
    third. *)
Definition race : list (SysEvent (Z * VerifiedDirective)) :=
  let p := mkProcess sample_claim sample_process in
  [Start 1 p; Start 2 p] ++ mjoin (replicate 40 [Step 1 (good 1001); Step 2 (good 1001)]) ++
  [Crash ∅ ∅; Start 3 p] ++ replicate 40 (Step 3 (good 1001)).

Definition outcome {A} (r : result string A) : string := match r with Ok _ => "redeemed" | Err e => e end.

Lemma a_request_is_redeemed_once_witness :
  (fun x => outcome x.2) <$> sys_done (system_run 501 18 race (mkSystem empty_store ∅ [])) =
    ["redeemed"; "signed request has already been redeemed"; "signed request has already been redeemed"]%string /\
  NoDup (redeemed (sys_done (system_run 501 18 race (mkSystem empty_store ∅ [])))).*1.
Proof.
  split; [vm_compute; reflexivity|].
  apply (a_request_is_redeemed_once (H0 := sum_laws) (fun l => l) Some toy_encode toy_take 501 (2 ^ 80) 18 empty_store race toy_typed empty_store_ok).
  assert (Hp : is_receiver (fun l => l) Some toy_encode toy_take 501 (2 ^ 80) (mkProcess sample_claim sample_process))
    by (exists sample_receiver, 3, (bs "1.0"), sample_signed, (fun _ => Ok 7); reflexivity).
  unfold race. apply Forall_app. split; [by repeat constructor|]. apply Forall_app. split.
  - apply Forall_join. by apply Forall_replicate; repeat constructor.
  - apply Forall_app. split; [by repeat constructor|]. by apply Forall_replicate.
Defined.

Definition sample_verify : prog string (Z * VerifiedDirective) :=
  verify_and_redeem (fun l => l) Some toy_encode toy_take 501 (2 ^ 80) sample_signed sample_context sample_signer (fun _ => Ok 7).

Definition sample_decoded : Signed := mkSigned sample_directive (payload [42; 43]) toy_signature.
Definition sample_verified : VerifiedDirective := mkVerified (Signed_digest sample_decoded) 604859000001001.

(** After eighteen calls it has ended. *)
Definition sample_run : prog string (Z * VerifiedDirective) * Disk := run_alone 501 18 1 (replicate 18 (good 1001)) sample_verify empty_store.

Lemma sample_run_ends : sample_run.1 = Return (Ok (7, sample_verified)).
Proof. vm_compute. reflexivity. Qed.

Lemma verified_directives_were_checked_witness :
  sample_run.1 = Return (Ok (7, sample_verified)) /\ recorded sample_run.2 sample_claim.
Proof.
  split; [exact sample_run_ends|]. pose proof (surjective_pairing sample_run) as E. rewrite sample_run_ends in E.
  refine (proj1 (verified_directives_were_checked (H0 := sum_laws) (fun l => l) Some toy_encode toy_take 501 (2 ^ 80) 18 sample_signed sample_context
    sample_signer (fun _ => Ok 7) 1 (replicate 18 (good 1001)) empty_store 7 sample_verified sample_run.2 toy_typed empty_store_ok _)).
  exact E.
Defined.

Lemma fresh_requests_are_redeemed_witness :
  exists n d', run_alone 501 18 1 (replicate n (good 1001)) sample_verify empty_store = (Return (Ok (7, sample_verified)), d').
Proof.
  assert (Hi : idle 501 empty_store) by (split; [reflexivity|]; intros l; cbn; by rewrite lookup_empty).
  apply (fresh_requests_are_redeemed (fun l => l) Some toy_encode toy_take 501 (2 ^ 80) 18 sample_signed sample_context sample_signer (fun _ => Ok 7) 1
    (good 1001) empty_store sample_decoded 7 1001 604859000001001); try exact Hi; try (vm_compute; reflexivity).
  split; vm_compute; reflexivity.
Defined.

(** A directive can be refused after it is recorded as used: its start-by
    time may pass between the two last looks at the clock. *)
Theorem a_refused_directive_can_be_recorded : exists chs,
  let '(p, d) := run_alone 501 18 1 chs sample_verify empty_store in
  p = Return (Err "the directive's start-by time has passed"%string) /\ is_Some (dk_durable d !! final_name sample_claim.1).
Proof. exists (replicate 17 (good 1001) ++ [good (86401 * NANOS)]). vm_compute. split; [reflexivity|]. by eexists. Qed.

(** ** Signing *)
(** In place of base64, two characters for each byte. *)
Definition toy_b64 (l : list Z) : list Z := flat_map (fun b => [48 + b / 16 mod 16; 48 + b mod 16]) l.
Fixpoint toy_unb64 (l : list Z) : option (list Z) :=
  match l with
  | [] => Some []
  | [_] => None
  | a :: b :: l => rest ← toy_unb64 l; Some ((a - 48) * 16 + (b - 48) :: rest)
  end.

Lemma toy_base64_laws : base64_laws toy_b64 toy_unb64.
Proof.
  split_and!.
  - induction 1 as [|b l Hb _ IH]; [done|]. cbn [toy_b64 flat_map app toy_unb64]. unfold toy_b64 in IH. rewrite IH. cbn. do 2 f_equal.
    unfold is_byte in Hb. rewrite (Z.mod_small (b / 16)) by (split; [apply Z.div_pos|apply Z.div_lt_upper_bound]; lia).
    pose proof (Z.div_mod b 16). lia.
  - intros l. induction l as [|b l IH]; cbn; [constructor|]. pose proof (Z.mod_pos_bound b 16). pose proof (Z.mod_pos_bound (b / 16) 16).
    repeat constructor; try lia. exact IH.
  - by intros [|].
Qed.

Lemma toy_ssh_bytes : SshBytes (H := toy_keys).
Proof.
  split; cbn; intros; simplify_eq; try done; apply (bool_decide_unpack _); vm_compute; exact I.
Qed.

Definition toy_armor : list Z := match armored_sshsig toy_b64 tt NAMESPACE HashSha512 tt with Ok a => a | Err _ => [] end.

Lemma key_signed_directives_read_back_witness : exists out,
  sign toy_b64 toy_unb64 toy_encode sample_directive (fun _ => armored_sshsig toy_b64 tt NAMESPACE HashSha512 tt) = Ok out /\
  Signed_decode toy_b64 toy_unb64 toy_encode toy_take out = Ok (mkSigned sample_directive (payload [42; 43]) toy_armor).
Proof.
  apply (key_signed_directives_read_back (H0 := toy_ssh_bytes) toy_b64 toy_unb64 toy_encode toy_take sample_directive tt HashSha512 (fun _ => tt) [42; 43] toy_armor
    toy_base64_laws toy_laws); vm_compute; first [reflexivity|discriminate].
Defined.

Lemma accepted_signatures_are_trusted_witness :
  signer_verify sample_signer NAMESPACE (payload [42; 43]) toy_signature 900 = Ok tt /\
  exists key signature, signer_key sample_signer = Ok key /\ from_pem toy_signature = Some signature /\ ss_public_key signature = key.
Proof.
  assert (E : signer_verify sample_signer NAMESPACE (payload [42; 43]) toy_signature 900 = Ok tt) by (vm_compute; reflexivity).
  split; [exact E|]. destruct (accepted_signatures_are_trusted _ _ _ _ _ E) as (key & sig & data & Hk & _ & Hs & Hp & _). exists key, sig. auto.
Defined.
