(* ===== verification/DestResults.v ===== *)
(** * The destination's results (src/src/destination_results.rs)

    A restricted destination lists the changes it made, for the machine that
    asked for the copy, through a server neither trusts: a stream of
    authenticated frames, and the reader that checks them.
    - JSON, [postcard], HPKE, SSH signatures and keyed hashing are libraries:
      [ResultsLib] holds what is used of them.
    - Counters of changes and frames are not bounded by their width.
    - [now] is what the clock says when an operation first looks at it. *)

From stdpp Require Import strings.
From S2P Require Import Prelude Text Diagnostic Proto Hashing Mapping Grant AuthData Authority AuthSettle TcpProps Directive.
Local Open Scope Z_scope.

Definition RESULTS_NAMESPACE : list Z := bs "syq-results@greaber.github".
Definition FRAME_KEY_LABEL : list Z := bs "syq-results frame key".
Definition COMPLETENESS_KEY_LABEL : list Z := bs "syq-results completeness key".
Definition MAX_FRAME_BYTES : Z := 160 * 1024.
Definition MAX_RESULTS_SIGNATURE_BYTES : Z := 16 * 1024.
Definition MAX_HEADER_BYTES : Z := 1024.
Definition SEAL_BYTES : nat := Z.to_nat (32 * 1024).
Definition SEAL_AFTER : Z := 200 * 10 ^ 6.

(** ** Data *)
Record ResultsBinding := mkResultsBinding { rb_enrollment_id : list Z; rb_request_id : list Z; rb_grant_digest : list Z }.
#[export] Instance ResultsBinding_eq_dec : EqDecision ResultsBinding.
Proof. solve_decision. Defined.

Record Totals := mkTotals {
  to_files_transferred : Z;
  to_bytes_transferred : Z;
  to_directories_created : Z;
  to_symlinks_created : Z;
  to_specials_created : Z;
  to_deletions_completed : Z;
  to_failed : Z;
  to_refused : Z
}.
#[export] Instance Totals_eq_dec : EqDecision Totals.
Proof. solve_decision. Defined.
Definition Totals_default : Totals := mkTotals 0 0 0 0 0 0 0 0.

(** A failure as the results list it. *)

Definition is_file (c : Change) : bool :=
  match c with PublishFile _ | LinkFile | KeepFile | SetMetadata File => true | _ => false end.
Definition completes_file (c : Change) : bool := match c with PublishFile _ | LinkFile | KeepFile => true | _ => false end.

Definition action (c : Change) : list Z * option (list Z) :=
  match c with
  | PublishFile _ | LinkFile | KeepFile => (bs "transfer_file", Some (bs "file"))
  | EnsureDirectory => (bs "create_directory", Some (bs "dir"))
  | CreateSymlink => (bs "create_symlink", Some (bs "symlink"))
  | CreateSpecial => (bs "create_special", Some (bs "special"))
  | SetMetadata Dir => (bs "create_directory", Some (bs "dir"))
  | SetMetadata File => (bs "transfer_file", Some (bs "file"))
  | SetMetadata Symlink => (bs "create_symlink", Some (bs "symlink"))
  | SetMetadata _ => (bs "create_special", Some (bs "special"))
  | DeleteNonDirectory => (bs "delete", None)
  | DeleteDirectory => (bs "delete", Some (bs "dir"))
  end.

(** The records the results are made of, by their fields; a destination path is
    tagged with its encoding. *)
Inductive ResultRecord :=
| RecSucceeded (action : list Z) (dst : PathBytes) (kind : option (list Z)) (bytes : option Z)
| RecFailed (action : list Z) (dst : PathBytes) (kind : option (list Z)) (class message : list Z)
| RecError (class message : list Z).

Definition record_type (r : ResultRecord) : list Z := match r with RecError _ _ => bs "error" | _ => bs "operation_result" end.

Record HeaderBody := mkHeader { hb_binding : ResultsBinding; hb_encapsulated_key : list Z; hb_records : bool }.

Inductive Frame :=
| FHeader (body signature : list Z)
| FRecords (seq : Z) (payload tag : list Z)
| FEnd (frames : Z) (totals : Totals) (tag : list Z).

(** ** Libraries *)
Class ResultsLib := {
  Value : Type;
  to_value : ResultRecord -> Value;
  to_writer : Value -> list Z;
  from_slice : list Z -> option Value;
  value_type : Value -> option (list Z);
  from_utf8_lossy : list Z -> list Z;
  (** [blake3::Hasher::new_keyed]. *)
  keyed : list Z -> HashImpl (list Z);
  totals_to_stdvec : Totals -> option (list Z);
  frame_to_stdvec : Frame -> option (list Z);
  frame_from_bytes : list Z -> option Frame;
  header_to_stdvec : HeaderBody -> option (list Z);
  header_from_bytes : list Z -> option HeaderBody;
  (** The label and the binding, encoded. *)
  info_to_stdvec : ResultsBinding -> option (list Z);
  HpkePublic : Type;
  public_from_bytes : list Z -> option HpkePublic;
  HpkePrivate : Type;
  private_from_bytes : list Z -> option HpkePrivate;
  HpkeEncapsulated : Type;
  encapsulated_to_bytes : HpkeEncapsulated -> list Z;
  encapsulated_from_bytes : list Z -> option HpkeEncapsulated;
  HpkeContext : Type;
  setup_sender : HpkePublic -> list Z -> option (HpkeEncapsulated * HpkeContext);
  setup_receiver : HpkePrivate -> HpkeEncapsulated -> list Z -> option HpkeContext;
  hpke_export : HpkeContext -> list Z -> option (list Z);
  SigningKey : Type;
  signing_key_encrypted : SigningKey -> bool;
  ResultsSig : Type;
  results_sign : SigningKey -> list Z -> list Z -> option ResultsSig;
  results_to_pem : ResultsSig -> option (list Z);
  results_from_pem : list Z -> option ResultsSig;
  ResultsKey : Type;
  key_from_openssh : list Z -> option ResultsKey;
  results_verify : ResultsKey -> list Z -> list Z -> ResultsSig -> bool
}.

(** ** Messages *)
Definition diagnostic_or_failed (error : list Z) : list Z := default (bs "failed") (bounded_diagnostic error).

Section Results.
Context `{ResultsLib}.

(** ** Keys *)
Record Keys := mkKeys { ky_frame : list Z; ky_completeness : list Z }.

Definition keys_export (context : HpkeContext) : mres Keys :=
  frame ← from_option_err "derive the results frame key"%string (hpke_export context FRAME_KEY_LABEL);
  completeness ← from_option_err "derive the results completeness key"%string (hpke_export context COMPLETENESS_KEY_LABEL);
  Ok (mkKeys frame completeness).

Definition truncated_hash (key : list Z) (pieces : list (list Z)) : list Z :=
  take 16 (h_finalize (keyed key) (foldl (h_update (keyed key)) (h_new (keyed key)) pieces)).

Definition records_tag (k : Keys) (seq : Z) (payload : list Z) : list Z :=
  truncated_hash (ky_frame k) [bs "records" ++ [0]; to_be_bytes 8 seq; to_be_bytes 8 (lenZ payload); payload].

Definition end_tag (k : Keys) (frames : Z) (totals : Totals) : mres (list Z) :=
  encoded ← from_option_err "encode results totals"%string (totals_to_stdvec totals);
  Ok (truncated_hash (ky_frame k) [bs "end" ++ [0]; to_be_bytes 8 frames; encoded]).

(** [u128::from_be_bytes] of the first 16 bytes. *)
Definition summand (k : Keys) (seq : Z) : Z := be_value (take 16 (h_hash (keyed (ky_completeness k)) (to_be_bytes 8 seq))).
Definition u128_wrapping_add (a b : Z) : Z := (a + b) mod 2 ^ 128.

Definition encode_frame (f : Frame) : mres (list Z) :=
  encoded ← from_option_err "encode results frame"%string (frame_to_stdvec f);
  _ ← require (bool_decide (lenZ encoded <= MAX_FRAME_BYTES)) "results frame exceeds its size limit"%string;
  Ok encoded.

Definition policy_recipient (p : ReceiptPolicy) : mres (list Z) :=
  match rp_delivery p with
  | AttachedEncrypted key => Ok key
  | DetachedSignedPlaintext => Err "the signed grant names no recipient for the destination's results"%string
  end.

(** ** The destination's side *)
Record RetriedFailure := mkRetried { rf_change : Change; rf_message : list Z; rf_class : list Z }.

Record Stream := mkStream {
  sm_keys : Keys;
  sm_records : bool;
  sm_next_seq : Z;
  sm_pending : list Z;
  sm_pending_since : option Z;
  sm_ready : list (list Z);
  sm_retried : gmap PathBytes RetriedFailure;
  sm_totals : Totals;
  sm_ended : bool
}.

Definition set_pending (pending : list Z) (since : option Z) (s : Stream) : Stream :=
  mkStream (sm_keys s) (sm_records s) (sm_next_seq s) pending since (sm_ready s) (sm_retried s) (sm_totals s) (sm_ended s).
Definition set_sealed (seq : Z) (ready : list (list Z)) (s : Stream) : Stream :=
  mkStream (sm_keys s) (sm_records s) seq (sm_pending s) (sm_pending_since s) ready (sm_retried s) (sm_totals s) (sm_ended s).
Definition set_retried (r : gmap PathBytes RetriedFailure) (s : Stream) : Stream :=
  mkStream (sm_keys s) (sm_records s) (sm_next_seq s) (sm_pending s) (sm_pending_since s) (sm_ready s) r (sm_totals s) (sm_ended s).
Definition set_totals (t : Totals) (s : Stream) : Stream :=
  mkStream (sm_keys s) (sm_records s) (sm_next_seq s) (sm_pending s) (sm_pending_since s) (sm_ready s) (sm_retried s) t (sm_ended s).
Definition set_ended (s : Stream) : Stream :=
  mkStream (sm_keys s) (sm_records s) (sm_next_seq s) (sm_pending s) (sm_pending_since s) (sm_ready s) (sm_retried s) (sm_totals s) true.

Definition Stream_start (policy : ReceiptPolicy) (binding : ResultsBinding) (key : SigningKey) (records : bool) : mres Stream :=
  recipient ← policy_recipient policy;
  public ← from_option_err "invalid HPKE recipient public key in the signed grant"%string (public_from_bytes recipient);
  info ← from_option_err "encode results HPKE context"%string (info_to_stdvec binding);
  '(encapsulated, context) ← from_option_err "set up the results key exchange"%string (setup_sender public info);
  keys ← keys_export context;
  _ ← require (bool_decide (length (encapsulated_to_bytes encapsulated) = 32%nat)) "HPKE produced an unexpected encapsulated-key length"%string;
  body ← from_option_err "encode results header"%string (header_to_stdvec (mkHeader binding (encapsulated_to_bytes encapsulated) records));
  _ ← require (negb (signing_key_encrypted key)) "cannot sign results with an encrypted key"%string;
  sig ← from_option_err "sign the results header"%string (results_sign key RESULTS_NAMESPACE body);
  signature ← from_option_err "encode the results header signature"%string (results_to_pem sig);
  header ← encode_frame (FHeader body signature);
  Ok (mkStream keys records 0 [] None [header] ∅ Totals_default false).

(** [Stream::push]. *)
Definition push (now : Z) (r : ResultRecord) (s : Stream) : Stream :=
  set_pending (sm_pending s ++ to_writer (to_value r) ++ [newline])
    (match sm_pending_since s with Some t => Some t | None => Some now end) s.

Definition failure_line (dst : option PathBytes) (message : list Z) : list Z :=
  match dst with
  | Some dst => bs "syq: " ++ (if decide (dst = []) then bs "." else from_utf8_lossy dst) ++ bs ": " ++ message
  | None => bs "syq: the receiver: " ++ message
  end.

Definition list_failure (now : Z) (c : Change) (dst : option PathBytes) (class error : list Z) (s : Stream) : Stream :=
  if negb (sm_records s) then s
  else
    let message := diagnostic_or_failed error in
    let s := push now (RecError class (failure_line dst message)) s in
    match dst with
    | Some dst => push now (RecFailed (action c).1 dst (action c).2 class message) s
    | None => s
    end.

Definition count_change (c : Change) (t : Totals) : Totals :=
  match c with
  | PublishFile _ | LinkFile => mkTotals (to_files_transferred t + 1) (to_bytes_transferred t) (to_directories_created t) (to_symlinks_created t)
      (to_specials_created t) (to_deletions_completed t) (to_failed t) (to_refused t)
  | EnsureDirectory => mkTotals (to_files_transferred t) (to_bytes_transferred t) (to_directories_created t + 1) (to_symlinks_created t)
      (to_specials_created t) (to_deletions_completed t) (to_failed t) (to_refused t)
  | CreateSymlink => mkTotals (to_files_transferred t) (to_bytes_transferred t) (to_directories_created t) (to_symlinks_created t + 1)
      (to_specials_created t) (to_deletions_completed t) (to_failed t) (to_refused t)
  | CreateSpecial => mkTotals (to_files_transferred t) (to_bytes_transferred t) (to_directories_created t) (to_symlinks_created t)
      (to_specials_created t + 1) (to_deletions_completed t) (to_failed t) (to_refused t)
  | DeleteNonDirectory | DeleteDirectory => mkTotals (to_files_transferred t) (to_bytes_transferred t) (to_directories_created t)
      (to_symlinks_created t) (to_specials_created t) (to_deletions_completed t + 1) (to_failed t) (to_refused t)
  | SetMetadata _ | KeepFile => t
  end.
Definition count_failed (t : Totals) : Totals :=
  mkTotals (to_files_transferred t) (to_bytes_transferred t) (to_directories_created t) (to_symlinks_created t)
    (to_specials_created t) (to_deletions_completed t) (to_failed t + 1) (to_refused t).
Definition count_refused (t : Totals) : Totals :=
  mkTotals (to_files_transferred t) (to_bytes_transferred t) (to_directories_created t) (to_symlinks_created t)
    (to_specials_created t) (to_deletions_completed t) (to_failed t) (to_refused t + 1).
Definition with_bytes (n : Z) (t : Totals) : Totals :=
  mkTotals (to_files_transferred t) n (to_directories_created t) (to_symlinks_created t)
    (to_specials_created t) (to_deletions_completed t) (to_failed t) (to_refused t).

Definition transferred_bytes (c : Change) : option Z := match c with PublishFile size => Some size | LinkFile => Some 0 | _ => None end.

Definition settle_retried (c : Change) (dst : option PathBytes) (failed : bool) (s : Stream) : Stream :=
  match dst with
  | Some dst => if (if failed then is_file c else completes_file c) then set_retried (delete dst (sm_retried s)) s else s
  | None => s
  end.

(** [Stream::record]. *)
Definition stream_record (now : Z) (c : Change) (dst : option PathBytes) (error : option Failure) (s : Stream) : Stream :=
  if sm_ended s then s
  else
    let s := settle_retried c dst (is_some error) s in
    match error with
    | Some error => list_failure now c dst (lf_class error) (lf_message error) (set_totals (count_failed (sm_totals s)) s)
    | None =>
        let s := set_totals (count_change c (sm_totals s)) s in
        match c, dst with
        | (SetMetadata _ | KeepFile), _ => s
        | _, Some dst => if sm_records s then push now (RecSucceeded (action c).1 dst (action c).2 (transferred_bytes c)) s else s
        | _, None => s
        end
    end.

Definition stream_retried (now : Z) (c : Change) (dst : option PathBytes) (error : Failure) (s : Stream) : Stream :=
  if sm_ended s then s
  else
    match dst with
    | Some path =>
        if is_file c then set_retried (<[path := mkRetried c (diagnostic_or_failed (lf_message error)) (lf_class error)]> (sm_retried s)) s
        else stream_record now c dst (Some error) s
    | None => stream_record now c None (Some error) s
    end.

(** The changes of a refused request that have a path. *)
Definition refuse_change (now : Z) (message : list Z) (s : Stream) (dst : PathBytes) (c : Change) : Stream :=
  let s := if is_file c then set_retried (delete dst (sm_retried s)) s else s in
  list_failure now c (Some dst) (bs "safety_limit") message s.

Definition listable (changes : list (option PathBytes * Change)) : list (PathBytes * Change) :=
  omap (fun '(dst, c) => dst ← dst; Some (dst, c)) changes.

Definition stream_refused (now : Z) (message : list Z) (changes : list (option PathBytes * Change)) (s : Stream) : Stream :=
  if sm_ended s then s
  else
    let s := set_totals (count_refused (sm_totals s)) s in
    let listed := listable changes in
    let s := foldl (fun s '(dst, c) => refuse_change now message s dst c) s listed in
    if decide (listed = []) then list_failure now EnsureDirectory None (bs "safety_limit") message s else s.

(** ** Frames *)
Fixpoint position (b : Z) (l : list Z) : option nat :=
  match l with [] => None | x :: l => if decide (x = b) then Some O else S <$> position b l end.
Fixpoint rposition (b : Z) (l : list Z) : option nat :=
  match l with
  | [] => None
  | x :: l => match rposition b l with Some i => Some (S i) | None => if decide (x = b) then Some O else None end
  end.

Definition split_point (rest : list Z) : nat :=
  let end_ := Nat.min (length rest) (SEAL_BYTES * 2) in
  if decide (end_ < length rest)%nat then
    match rposition newline (take end_ rest) with
    | Some i => S i
    | None => match position newline rest with Some i => S i | None => length rest end
    end
  else end_.

(** [fuel]: each frame takes at least a byte. *)
Fixpoint seal_loop (fuel : nat) (rest : list Z) (s : Stream) : Stream * mres unit :=
  match fuel, rest with
  | _, [] => (s, Ok tt)
  | O, _ => (s, Ok tt)
  | S fuel, _ =>
      let e := split_point rest in
      let payload := take e rest in
      let seq := sm_next_seq s in
      let s := set_sealed (seq + 1) (sm_ready s) s in
      match encode_frame (FRecords seq payload (records_tag (sm_keys s) seq payload)) with
      | Err m => (s, Err m)
      | Ok frame => seal_loop fuel (drop e rest) (set_sealed (seq + 1) (sm_ready s ++ [frame]) s)
      end
  end.

Definition seal : method Stream string unit := fun s => seal_loop (length (sm_pending s)) (sm_pending s) (set_pending [] None s).

Definition due (now : Z) (s : Stream) : bool :=
  negb (bool_decide (sm_ready s = [])) || bool_decide (SEAL_BYTES <= length (sm_pending s))%nat ||
  match sm_pending_since s with Some since => bool_decide (SEAL_AFTER <= now - since) | None => false end.

Definition take_ready : method Stream string (list (list Z)) := fun s => (set_sealed (sm_next_seq s) [] s, Ok (sm_ready s)).

Definition take_frames (now : Z) : method Stream string (list (list Z)) :=
  s ← m_get;
  _ ← (if due now s then seal else mret tt);
  take_ready.

(** A [BTreeMap] in the order of its keys. *)
Definition path_le (x y : PathBytes * RetriedFailure) : Prop := bytes_lt y.1 x.1 = false.
#[export] Instance path_le_dec : RelDecision path_le.
Proof. intros x y. unfold path_le. apply _. Defined.
Definition retried_in_order (m : gmap PathBytes RetriedFailure) : list (PathBytes * RetriedFailure) := merge_sort path_le (map_to_list m).

Definition list_retried (now : Z) (s : Stream) : Stream :=
  foldl (fun s '(dst, f) => stream_record now (rf_change f) (Some dst) (Some (mkFailure (rf_message f) (rf_class f))) s)
    (set_retried ∅ s) (retried_in_order (sm_retried s)).

Definition finish (now bytes_transferred : Z) : method Stream string Totals :=
  s ← m_get;
  _ ← m_ensure (negb (sm_ended s)) "the destination's results have already ended"%string;
  _ ← m_modify (list_retried now);
  _ ← seal;
  _ ← m_modify set_ended;
  _ ← m_modify (fun s => set_totals (with_bytes bytes_transferred (sm_totals s)) s);
  s ← m_get;
  tag ← m_lift (end_tag (sm_keys s) (sm_next_seq s) (sm_totals s));
  frame ← m_lift (encode_frame (FEnd (sm_next_seq s) (sm_totals s) tag));
  _ ← m_modify (fun s => set_sealed (sm_next_seq s) (sm_ready s ++ [frame]) s);
  mret (sm_totals s).

(** ** The reader's side *)
Record Expectation := mkExpectation { xp_public_key : list Z; xp_binding : ResultsBinding; xp_secret : list Z; xp_records : bool }.

Record Reader := mkReader {
  rd_expectation : Expectation;
  rd_keys : option Keys;
  rd_frames : Z;
  rd_sum : Z;
  rd_expected_sum : Z;
  rd_expected_upto : Z;
  rd_end : option (Z * Totals);
  rd_emitted : list Value          (* what [emit] was given *)
}.

Definition Reader_new (e : Expectation) : Reader := mkReader e None 0 0 0 0 None [].

Definition set_keys (k : Keys) (r : Reader) : Reader :=
  mkReader (rd_expectation r) (Some k) (rd_frames r) (rd_sum r) (rd_expected_sum r) (rd_expected_upto r) (rd_end r) (rd_emitted r).
Definition set_frames (n sum : Z) (r : Reader) : Reader :=
  mkReader (rd_expectation r) (rd_keys r) n sum (rd_expected_sum r) (rd_expected_upto r) (rd_end r) (rd_emitted r).
Definition set_expected (sum upto : Z) (r : Reader) : Reader :=
  mkReader (rd_expectation r) (rd_keys r) (rd_frames r) (rd_sum r) sum upto (rd_end r) (rd_emitted r).
Definition set_end_frame (e : Z * Totals) (r : Reader) : Reader :=
  mkReader (rd_expectation r) (rd_keys r) (rd_frames r) (rd_sum r) (rd_expected_sum r) (rd_expected_upto r) (Some e) (rd_emitted r).
Definition add_emitted (v : Value) (r : Reader) : Reader :=
  mkReader (rd_expectation r) (rd_keys r) (rd_frames r) (rd_sum r) (rd_expected_sum r) (rd_expected_upto r) (rd_end r) (rd_emitted r ++ [v]).

Definition verify_header (e : Expectation) (body signature : list Z) : mres Keys :=
  _ ← require (bool_decide (lenZ body <= MAX_HEADER_BYTES) && bool_decide (lenZ signature <= MAX_RESULTS_SIGNATURE_BYTES))
        "the destination's results header exceeds its size limit"%string;
  _ ← require (utf8_valid signature) "results header signature is not text"%string;
  sig ← from_option_err "parse the results header signature"%string (results_from_pem signature);
  key ← from_option_err "parse the destination's results key"%string (key_from_openssh (xp_public_key e));
  _ ← require (results_verify key RESULTS_NAMESPACE body sig) "the destination's results header signature does not verify"%string;
  header ← from_option_err "decode results header"%string (header_from_bytes body);
  encoded ← from_option_err "encode results header"%string (header_to_stdvec header);
  _ ← require (bool_decide (encoded = body)) "the results header uses a noncanonical encoding"%string;
  _ ← require (bool_decide (hb_binding header = xp_binding e)) "the destination's results name a different signed grant"%string;
  _ ← require (bool_decide (hb_records header = xp_records e)) "the destination was not asked for the results it is sending"%string;
  private ← from_option_err "invalid local results recipient key"%string (private_from_bytes (xp_secret e));
  encapsulated ← from_option_err "invalid results encapsulated key"%string (encapsulated_from_bytes (hb_encapsulated_key header));
  info ← from_option_err "encode results HPKE context"%string (info_to_stdvec (hb_binding header));
  context ← from_option_err "set up the results key exchange"%string (setup_receiver private encapsulated info);
  keys_export context.

(** [while expected_upto < bound]; [fuel]: the distance. *)
Fixpoint extend_loop (fuel : nat) (k : Keys) (r : Reader) : Reader :=
  match fuel with
  | O => r
  | S fuel => extend_loop fuel k (set_expected (u128_wrapping_add (rd_expected_sum r) (summand k (rd_expected_upto r))) (rd_expected_upto r + 1) r)
  end.
Definition extend_to (bound : Z) (k : Keys) (r : Reader) : Reader := extend_loop (Z.to_nat (bound - rd_expected_upto r)) k r.

Section Accept.
Context (emit : Value -> mres unit).

Fixpoint accept_lines (lines : list (list Z)) : method Reader string unit :=
  match lines with
  | [] => mret tt
  | line :: lines =>
      if decide (line = []) then accept_lines lines
      else
        v ← m_lift (from_option_err "decode a destination result record"%string (from_slice line));
        _ ← m_ensure (bool_decide (value_type v = Some (bs "operation_result")) || bool_decide (value_type v = Some (bs "error")))
              "a destination result record has an unexpected type"%string;
        _ ← m_lift (emit v);
        _ ← m_modify (add_emitted v);
        accept_lines lines
  end.

(** An authenticated frame is counted, then its records are read. *)
Definition accept_payload (k : Keys) (seq : Z) (payload : list Z) : method Reader string unit :=
  r ← m_get;
  n ← m_lift (from_option_err "too many results frames"%string (u64_add (rd_frames r) 1));
  _ ← m_modify (set_frames n (u128_wrapping_add (rd_sum r) (summand k seq)));
  _ ← m_modify (extend_to (seq + 1) k);
  _ ← m_ensure (xp_records (rd_expectation r) || bool_decide (payload = [])) "the destination listed changes that were not requested"%string;
  accept_lines (split_on newline payload).

Definition accept_frame (f : Frame) : method Reader string unit :=
  r ← m_get;
  match f with
  | FHeader body signature =>
      _ ← m_ensure (negb (is_some (rd_keys r))) "the destination's results repeat their header"%string;
      k ← m_lift (verify_header (rd_expectation r) body signature);
      m_modify (set_keys k)
  | FRecords seq payload tag =>
      k ← m_lift (from_option_err "destination results arrived before their signed header"%string (rd_keys r));
      _ ← m_ensure (bool_decide (records_tag k seq payload = tag)) "a destination results frame failed authentication"%string;
      _ ← match rd_end r with
          | Some (frames, _) => m_ensure (bool_decide (seq < frames)) "a destination results frame follows its end"%string
          | None => mret tt
          end;
      accept_payload k seq payload
  | FEnd frames totals tag =>
      k ← m_lift (from_option_err "destination results ended before their signed header"%string (rd_keys r));
      expected ← m_lift (end_tag k frames totals);
      _ ← m_ensure (bool_decide (expected = tag)) "the destination's results end failed authentication"%string;
      _ ← m_ensure (negb (is_some (rd_end r))) "the destination's results end twice"%string;
      m_modify (set_end_frame (frames, totals))
  end.

Definition accept (encoded : list Z) : method Reader string unit :=
  _ ← m_ensure (bool_decide (lenZ encoded <= MAX_FRAME_BYTES)) "a destination results frame exceeds its size limit"%string;
  f ← m_lift (from_option_err "decode a results frame"%string (frame_from_bytes encoded));
  accept_frame f.
End Accept.

Definition received_any (r : Reader) : bool := is_some (rd_keys r).

Definition reader_finish : method Reader string Totals :=
  r ← m_get;
  k ← m_lift (from_option_err "the destination sent no results"%string (rd_keys r));
  '(frames, totals) ← m_lift (from_option_err "the destination's results ended without their final frame"%string (rd_end r));
  _ ← m_modify (extend_to frames k);
  r ← m_get;
  _ ← m_ensure (bool_decide (rd_frames r = frames) && bool_decide (rd_expected_upto r = frames) && bool_decide (rd_sum r = rd_expected_sum r))
        "the destination's results arrived incomplete or altered"%string;
  mret totals.
End Results.
