(* ===== verification/DestSpec.v ===== *)
(** * What the destination's results list

    The listing a stream stands for: totals, the failures held for a retry and
    the records in order, without bytes, frames or clocks; and that a stream's
    bytes are always its records, cut into whole ones. *)

From stdpp Require Import strings.
From S2P Require Import Prelude Text Diagnostic Proto Hashing Mapping Grant AuthData Authority AuthSettle TcpProps Directive SignerProps DestResults.
Local Open Scope Z_scope.

Section Spec.
Context `{ResultsLib}.

(** ** The listing *)
Record Listing := mkListing {
  ls_records : list ResultRecord;
  ls_retried : gmap PathBytes RetriedFailure;
  ls_totals : Totals;
  ls_ended : bool
}.

Definition failure_records (c : Change) (dst : option PathBytes) (class error : list Z) : list ResultRecord :=
  RecError class (failure_line dst (diagnostic_or_failed error)) ::
  match dst with Some dst => [RecFailed (action c).1 dst (action c).2 class (diagnostic_or_failed error)] | None => [] end.

Definition success_records (c : Change) (dst : option PathBytes) : list ResultRecord :=
  match c, dst with
  | (SetMetadata _ | KeepFile), _ | _, None => []
  | _, Some dst => [RecSucceeded (action c).1 dst (action c).2 (transferred_bytes c)]
  end.

(** Whether a change, so ended, settles what is held for its file. *)
Definition settles (c : Change) (failed : bool) : bool := if failed then is_file c else completes_file c.
Definition forget (b : bool) (dst : option PathBytes) (m : gmap PathBytes RetriedFailure) : gmap PathBytes RetriedFailure :=
  match dst with Some dst => if b then delete dst m else m | None => m end.

Section Listed.
(** Whether the records are listed at all. *)
Context (records : bool).

Definition add_records (l : list ResultRecord) (L : Listing) : Listing :=
  mkListing (ls_records L ++ if records then l else []) (ls_retried L) (ls_totals L) (ls_ended L).

Definition list_record (c : Change) (dst : option PathBytes) (error : option Failure) (L : Listing) : Listing :=
  if ls_ended L then L
  else
    let m := forget (settles c (is_some error)) dst (ls_retried L) in
    match error with
    | Some e => add_records (failure_records c dst (lf_class e) (lf_message e)) (mkListing (ls_records L) m (count_failed (ls_totals L)) false)
    | None => add_records (success_records c dst) (mkListing (ls_records L) m (count_change c (ls_totals L)) false)
    end.

Definition list_held (c : Change) (dst : option PathBytes) (error : Failure) (L : Listing) : Listing :=
  if ls_ended L then L
  else
    match dst with
    | Some path =>
        if is_file c then
          mkListing (ls_records L) (<[path := mkRetried c (diagnostic_or_failed (lf_message error)) (lf_class error)]> (ls_retried L)) (ls_totals L) false
        else list_record c dst (Some error) L
    | None => list_record c dst (Some error) L
    end.

Definition list_refused (message : list Z) (changes : list (option PathBytes * Change)) (L : Listing) : Listing :=
  if ls_ended L then L
  else
    let listed := listable changes in
    mkListing (ls_records L ++ if records then
                 (if decide (listed = []) then failure_records EnsureDirectory None (bs "safety_limit") message
                  else mjoin ((fun '(dst, c) => failure_records c (Some dst) (bs "safety_limit") message) <$> listed)) else [])
      (foldl (fun m '(dst, c) => forget (is_file c) (Some dst) m) (ls_retried L) listed)
      (count_refused (ls_totals L)) false.

Definition list_finish (bytes_transferred : Z) (L : Listing) : Listing :=
  let held := retried_in_order (ls_retried L) in
  let L := foldl (fun L '(dst, f) => list_record (rf_change f) (Some dst) (Some (mkFailure (rf_message f) (rf_class f))) L)
             (mkListing (ls_records L) ∅ (ls_totals L) false) held in
  mkListing (ls_records L) (ls_retried L) (with_bytes bytes_transferred (ls_totals L)) true.
End Listed.

(** ** Bytes *)
Definition line_of (r : ResultRecord) : list Z := to_writer (to_value r) ++ [newline].
Definition render (l : list ResultRecord) : list Z := mjoin (line_of <$> l).

Lemma render_cons r l : render (r :: l) = line_of r ++ render l.
Proof. done. Qed.
Lemma render_app l l' : render (l ++ l') = render l ++ render l'.
Proof. unfold render. by rewrite fmap_app, join_app. Qed.

(** What JSON text promises: one line, not empty. *)
Class JsonLines : Prop := { json_line v : newline ∉ to_writer v; json_nonempty v : to_writer v <> [] }.

(** A cut after a newline is a cut between records. *)
Lemma cut_between `{!JsonLines} l i : render l !! i = Some newline ->
  exists n, (0 < n)%nat /\ take (S i) (render l) = render (take n l) /\ drop (S i) (render l) = render (drop n l).
Proof.
  revert i. induction l as [|r l IH]; intros i Hi; [done|]. rewrite render_cons in *.
  destruct (decide (i < length (line_of r))%nat) as [Hlt|Hge].
  - rewrite lookup_app_l in Hi by done. unfold line_of in Hi, Hlt. rewrite length_app in Hlt. cbn in Hlt.
    destruct (decide (i < length (to_writer (to_value r)))%nat) as [Hlt'|Hge'].
    { rewrite lookup_app_l in Hi by done. apply list_elem_of_lookup_2 in Hi. by destruct (json_line (to_value r)). }
    assert (Ei : S i = length (line_of r)) by (unfold line_of; rewrite length_app; cbn; lia). exists 1%nat. split; [lia|]. rewrite Ei.
    rewrite take_app_length, drop_app_length. cbn [take drop]. rewrite render_cons. split; [by rewrite app_nil_r|done].
  - rewrite lookup_app_r in Hi by lia. destruct (IH _ Hi) as (n & Hn & Ht & Hd). exists (S n). split; [lia|]. cbn [take drop]. rewrite render_cons, <- Ht, <- Hd.
    rewrite take_app_ge, drop_app_ge by lia. by replace (S i - length (line_of r))%nat with (S (i - length (line_of r))) by lia.
Qed.

Lemma position_Some b l i : position b l = Some i -> l !! i = Some b.
Proof.
  revert i. induction l as [|x l IH]; intros i; cbn; [done|]. case_decide as Hx; [intros [= <-]; by subst|].
  destruct (position b l) as [j|]; cbn; [|done]. intros [= <-]. cbn. by apply IH.
Qed.

Lemma rposition_Some b l i : rposition b l = Some i -> l !! i = Some b.
Proof.
  revert i. induction l as [|x l IH]; intros i; cbn; [done|]. destruct (rposition b l) as [j|]; [intros [= <-]; by apply IH|].
  case_decide as Hx; [intros [= <-]; by subst|done].
Qed.

Lemma split_between `{!JsonLines} l : l <> [] -> exists n, (0 < n)%nat /\
  take (split_point (render l)) (render l) = render (take n l) /\ drop (split_point (render l)) (render l) = render (drop n l).
Proof.
  intros Hl. assert (Hall : exists n, (0 < n)%nat /\ take (length (render l)) (render l) = render (take n l) /\ drop (length (render l)) (render l) = render (drop n l)).
  { exists (length l). rewrite !take_ge, !drop_ge by lia. split; [destruct l; [done|cbn; lia]|done]. }
  unfold split_point. case_decide as Hlt; [|by rewrite Nat.min_l by lia].
  destruct (rposition newline _) as [i|] eqn:Ei.
  - apply rposition_Some in Ei. apply lookup_take_Some in Ei as [Ei _]. by apply cut_between.
  - destruct (position newline (render l)) as [i|] eqn:Ep; [|done]. apply position_Some in Ep. by apply cut_between.
Qed.

(** ** The stream lists the listing *)
(** [s'] is [s] with some records more to send. *)
Record extends (rs : list ResultRecord) (s s' : Stream) : Prop := {
  ex_keys : sm_keys s' = sm_keys s;
  ex_records : sm_records s' = sm_records s;
  ex_seq : sm_next_seq s' = sm_next_seq s;
  ex_ready : sm_ready s' = sm_ready s;
  ex_ended : sm_ended s' = sm_ended s;
  ex_pending : sm_pending s' = sm_pending s ++ render rs
}.

Lemma extends_none s s' : sm_keys s' = sm_keys s -> sm_records s' = sm_records s -> sm_next_seq s' = sm_next_seq s -> sm_ready s' = sm_ready s ->
  sm_ended s' = sm_ended s -> sm_pending s' = sm_pending s -> extends [] s s'.
Proof. intros. split; try done. by rewrite app_nil_r. Qed.

Lemma extends_trans a b s s' s'' : extends a s s' -> extends b s' s'' -> extends (a ++ b) s s''.
Proof. intros [] []. split; try congruence. rewrite render_app, app_assoc. congruence. Qed.

Lemma push_adds now r s : extends [r] s (push now r s).
Proof. split; try done. cbn. by rewrite app_nil_r. Qed.

Lemma list_failure_extends now c dst class error s :
  extends (if sm_records s then failure_records c dst class error else []) s (list_failure now c dst class error s) /\
  sm_retried (list_failure now c dst class error s) = sm_retried s /\ sm_totals (list_failure now c dst class error s) = sm_totals s.
Proof.
  unfold list_failure, failure_records. destruct (sm_records s); cbn [negb]; [|split; [by apply extends_none|done]].
  destruct dst as [dst|]; (split; [|done]).
  - eapply (extends_trans [_] [_]); apply push_adds.
  - apply push_adds.
Qed.

(** A stream, the frames it has given out, and the listing they stand for. *)
Definition frame_of (k : Keys) (i : nat) (g : list ResultRecord) : Frame := FRecords (Z.of_nat i) (render g) (records_tag k (Z.of_nat i) (render g)).
Definition sealed (k : Keys) (groups : list (list ResultRecord)) : list (mres (list Z)) := imap (fun i g => encode_frame (frame_of k i g)) groups.

Record lists (k : Keys) (records : bool) (header : list Z) (groups : list (list ResultRecord)) (out : list (list Z)) (s : Stream) (L : Listing) : Prop := {
  li_keys : sm_keys s = k;
  li_flag : sm_records s = records;
  li_retried : sm_retried s = ls_retried L;
  li_totals : sm_totals s = ls_totals L;
  li_ended : sm_ended s = ls_ended L;
  li_seq : sm_next_seq s = Z.of_nat (length groups);
  li_frames : Ok <$> (out ++ sm_ready s) = Ok header :: sealed k groups;
  li_bytes : exists pend, ls_records L = mjoin groups ++ pend /\ sm_pending s = render pend
}.

Section Refine.
Context (k : Keys) (records : bool) (header : list Z).
Notation lists := (lists k records header).

Lemma lists_extends groups out s s' L rs L' : lists groups out s L -> extends (if records then rs else []) s s' ->
  sm_retried s' = ls_retried L' -> sm_totals s' = ls_totals L' -> ls_ended L' = ls_ended L ->
  ls_records L' = ls_records L ++ (if records then rs else []) -> lists groups out s' L'.
Proof.
  intros [] [] Hr Ht He Hl. split; try congruence. destruct li_bytes0 as (pend & E1 & E2). exists (pend ++ if records then rs else []).
  rewrite Hl, E1, app_assoc. split; [done|]. rewrite render_app. congruence.
Qed.

Lemma settle_retried_extends c dst failed s : extends [] s (settle_retried c dst failed s) /\
  sm_retried (settle_retried c dst failed s) = forget (settles c failed) dst (sm_retried s) /\
  sm_totals (settle_retried c dst failed s) = sm_totals s /\ sm_records (settle_retried c dst failed s) = sm_records s.
Proof. unfold settle_retried, forget, settles. destruct dst; [destruct (if failed then _ else _)|]; (split; [by apply extends_none|done]). Qed.

Lemma record_lists groups out now c dst error s L : lists groups out s L -> lists groups out (stream_record now c dst error s) (list_record records c dst error L).
Proof.
  intros Hl. pose proof Hl as []. unfold stream_record, list_record. rewrite li_ended0. destruct (ls_ended L) eqn:He; [done|].
  destruct (settle_retried_extends c dst (is_some error) s) as (X1 & R1 & T1 & F1). set (s1 := settle_retried c dst (is_some error) s) in *.
  rewrite li_retried0 in R1. rewrite li_totals0 in T1. rewrite li_flag0 in F1. destruct error as [e|].
  - set (s2 := set_totals _ s1). destruct (list_failure_extends now c dst (lf_class e) (lf_message e) s2) as (X2 & R2 & T2).
    change (sm_records s2) with (sm_records s1) in X2. rewrite F1 in X2. eapply lists_extends; [exact Hl|apply (extends_trans [] _ s s2)|..].
    + eapply (extends_trans [] []); [exact X1|by apply extends_none].
    + exact X2.
    + by rewrite R2.
    + rewrite T2. cbn. by rewrite T1.
    + done.
    + done.
  - set (s2 := set_totals (count_change c (sm_totals s1)) s1). assert (X2 : extends [] s s2) by (eapply (extends_trans [] []); [exact X1|by apply extends_none]).
    assert (F2 : sm_records s2 = records) by done.
    assert (D : forall s3, extends (if records then success_records c dst else []) s2 s3 -> sm_retried s3 = sm_retried s2 -> sm_totals s3 = sm_totals s2 ->
      lists groups out s3 (add_records records (success_records c dst) (mkListing (ls_records L) (forget (settles c false) dst (ls_retried L)) (count_change c (ls_totals L)) false))).
    { intros s3 X3 R3 T3. eapply lists_extends; [exact Hl|eapply (extends_trans []); [exact X2|exact X3]|..]; try done; cbn.
      - by rewrite R3.
      - rewrite T3. cbn. by rewrite T1. }
    assert (Hn : success_records c dst = [] -> extends (if records then success_records c dst else []) s2 s2) by (intros ->; destruct records; by apply extends_none).
    destruct c, dst as [dst|]; try (by apply D; [apply Hn|..]); rewrite F2; destruct records; by apply D; [first [apply push_adds|by apply extends_none]|..].
Qed.

Lemma held_lists groups out now c dst error s L : lists groups out s L -> lists groups out (stream_retried now c dst error s) (list_held records c dst error L).
Proof.
  intros Hl. pose proof (record_lists groups out now c dst (Some error) s L Hl) as Hr. pose proof Hl as [].
  unfold stream_retried, list_held. rewrite li_ended0. destruct (ls_ended L) eqn:He; [done|]. destruct dst as [dst|]; [|done]. destruct (is_file c); [|done].
  eapply (lists_extends _ _ s _ L []); [done|by destruct records; apply extends_none|..]; cbn; try done; [by rewrite li_retried0|by destruct records; rewrite app_nil_r].
Qed.

Lemma refuse_changes_extend now message l s : sm_records s = records ->
  let s' := foldl (fun s '(dst, c) => refuse_change now message s dst c) s l in
  extends (if records then mjoin ((fun '(dst, c) => failure_records c (Some dst) (bs "safety_limit") message) <$> l) else []) s s' /\
  sm_retried s' = foldl (fun m '(dst, c) => forget (is_file c) (Some dst) m) (sm_retried s) l /\ sm_totals s' = sm_totals s.
Proof.
  intros Hs. revert s Hs. induction l as [|[dst c] l IH]; intros s Hs; cbn [foldl fmap list_fmap]; [split; [destruct records; by apply extends_none|done]|].
  set (s1 := if is_file c then set_retried (delete dst (sm_retried s)) s else s).
  assert (X1 : extends [] s s1) by (unfold s1; destruct (is_file c); by apply extends_none).
  assert (R1 : sm_retried s1 = forget (is_file c) (Some dst) (sm_retried s)) by (unfold s1; cbn; by destruct (is_file c)).
  assert (T1 : sm_totals s1 = sm_totals s) by (unfold s1; by destruct (is_file c)).
  assert (F1 : sm_records s1 = records) by (unfold s1; by destruct (is_file c)).
  destruct (list_failure_extends now c (Some dst) (bs "safety_limit") message s1) as (X2 & R2 & T2). rewrite F1 in X2.
  change (refuse_change now message s dst c) with (list_failure now c (Some dst) (bs "safety_limit") message s1).
  destruct (IH (list_failure now c (Some dst) (bs "safety_limit") message s1)) as (X3 & R3 & T3); [by rewrite (ex_records _ _ _ X2)|].
  split_and!; [|by rewrite R3, R2, R1|by rewrite T3, T2].
  pose proof (extends_trans _ _ _ _ _ X1 (extends_trans _ _ _ _ _ X2 X3)) as X. by destruct records.
Qed.

Lemma refused_lists groups out now message changes s L : lists groups out s L ->
  lists groups out (stream_refused now message changes s) (list_refused records message changes L).
Proof.
  intros Hl. pose proof Hl as []. unfold stream_refused, list_refused. rewrite li_ended0. destruct (ls_ended L) eqn:He; [done|].
  set (s1 := set_totals _ s). assert (X1 : extends [] s s1) by by apply extends_none.
  destruct (refuse_changes_extend now message (listable changes) s1) as (X2 & R2 & T2); [done|].
  set (s2 := foldl _ s1 _) in *. case_decide as Hd.
  - destruct (list_failure_extends now EnsureDirectory None (bs "safety_limit") message s2) as (X3 & R3 & T3).
    rewrite (ex_records _ _ _ X2) in X3. change (sm_records s1) with (sm_records s) in X3. rewrite li_flag0 in X3. rewrite Hd in X2, R2.
    eapply lists_extends; [exact Hl|eapply (extends_trans []); [exact X1|eapply (extends_trans [])]|..].
    + by destruct records.
    + exact X3.
    + cbn [ls_retried]. rewrite R3, R2, Hd. cbn. by rewrite li_retried0.
    + cbn [ls_totals]. rewrite T3, T2. cbn. by rewrite li_totals0.
    + done.
    + done.
  - eapply lists_extends; [exact Hl|eapply (extends_trans []); [exact X1|exact X2]|..]; cbn.
    + rewrite R2. cbn. by rewrite li_retried0.
    + rewrite T2. cbn. by rewrite li_totals0.
    + done.
    + done.
Qed.
End Refine.
End Spec.
