(* ===== verification/DestStream.v ===== *)
(** * What a stream sends

    Sealing, giving out frames and finishing keep a stream in step with its
    listing; a whole run sends a header, one frame for each group of records,
    and an end. *)

From stdpp Require Import strings.
From S2P Require Import Prelude Text Diagnostic Proto Hashing Mapping Grant AuthData Authority AuthSettle TcpProps Directive DirectiveProps SignerProps DestResults DestSpec.
Local Open Scope Z_scope.

Section Streams.
Context `{ResultsLib} `{!JsonLines}.
Context (k : Keys) (records : bool) (header : list Z).
Notation lists := (lists k records header).

Lemma sealed_snoc groups g : sealed k (groups ++ [g]) = sealed k groups ++ [encode_frame (frame_of k (length groups) g)].
Proof. unfold sealed. rewrite imap_app. cbn. by rewrite Nat.add_0_r. Qed.

Lemma render_nonempty l : l <> [] -> render l <> [].
Proof. destruct l as [|r l]; [done|]. intros _. rewrite render_cons. unfold line_of. by destruct (to_writer (to_value r)). Qed.

(** The part of a stream that sealing does not change. *)
Record same_listing (s s' : Stream) : Prop := {
  sl_keys : sm_keys s' = sm_keys s;
  sl_flag : sm_records s' = sm_records s;
  sl_retried : sm_retried s' = sm_retried s;
  sl_totals : sm_totals s' = sm_totals s;
  sl_ended : sm_ended s' = sm_ended s;
  sl_pending : sm_pending s' = sm_pending s
}.

Lemma seal_loop_seals fuel pend groups out s s' : (length (render pend) <= fuel)%nat -> sm_keys s = k ->
  sm_next_seq s = Z.of_nat (length groups) -> Ok <$> (out ++ sm_ready s) = Ok header :: sealed k groups ->
  seal_loop fuel (render pend) s = (s', Ok tt) ->
  exists groups', mjoin groups' = pend /\ same_listing s s' /\ sm_next_seq s' = Z.of_nat (length (groups ++ groups')) /\
    Ok <$> (out ++ sm_ready s') = Ok header :: sealed k (groups ++ groups').
Proof.
  revert pend groups s. induction fuel as [|fuel IH]; intros pend groups s Hlen Hk Hseq Hf E;
    (destruct (decide (pend = [])) as [->|Hp]; [exists []; rewrite app_nil_r; cbn in E; injection E as <-; by split_and!|]);
    pose proof (render_nonempty pend Hp) as Hne; [destruct (render pend); [done|cbn in Hlen; lia]|].
  destruct (split_between pend Hp) as (n & Hn & Ht & Hd). cbn [seal_loop] in E. destruct (render pend) as [|b rest] eqn:Er; [done|].
  rewrite Ht, Hd in E. cbn [set_sealed sm_keys sm_ready] in E. rewrite Hseq, Hk in E.
  change (FRecords (Z.of_nat (length groups)) (render (take n pend)) _) with (frame_of k (length groups) (take n pend)) in E.
  destruct (encode_frame (frame_of k (length groups) (take n pend))) as [frame|e] eqn:Ef; [|done].
  destruct (IH (drop n pend) (groups ++ [take n pend])
    (set_sealed (Z.of_nat (length groups) + 1) (sm_ready s ++ [frame]) (set_sealed (Z.of_nat (length groups) + 1) (sm_ready s) s)))
    as (gs & Hg & Hs & Hq & Hr); [| | | |exact E|].
  - assert (Hl : (length (render (take n pend)) + length (render (drop n pend)) = length (b :: rest))%nat).
    { rewrite <- length_app, <- render_app, take_drop, Er. done. }
    assert (Hx : render (take n pend) <> []) by (apply render_nonempty; destruct pend, n; [done..|lia|done]).
    destruct (render (take n pend)); [done|]. cbn in Hl, Hlen |- *. lia.
  - done.
  - cbn. rewrite length_app. cbn. lia.
  - cbn. rewrite app_assoc, fmap_app, Hf, sealed_snoc, Ef. done.
  - exists (take n pend :: gs). rewrite <- app_assoc in Hq, Hr. split_and!; [|by destruct Hs; split|done|done].
    change (mjoin (?a :: ?b)) with (a ++ mjoin b). by rewrite Hg, take_drop.
Qed.

Lemma seal_lists groups out s s' L : lists groups out s L -> seal s = (s', Ok tt) -> exists groups', lists (groups ++ groups') out s' L /\ sm_pending s' = [].
Proof.
  intros Hl E. pose proof Hl as []. destruct li_bytes as (pend & E1 & E2). unfold seal in E. rewrite E2 in E.
  destruct (seal_loop_seals (length (render pend)) pend groups out (set_pending [] None s) s') as (gs & Hg & [] & Hq & Hf); [done..|].
  exists gs. split; [|done]. cbn in *. split; try congruence. exists []. rewrite app_nil_r, join_app, Hg. done.
Qed.

Lemma take_frames_lists groups out now s s' frames L : lists groups out s L -> take_frames now s = (s', Ok frames) ->
  exists groups', lists (groups ++ groups') (out ++ frames) s' L.
Proof.
  intros Hl E. unfold take_frames, mbind, method_bind, m_get in E.
  assert (Hs : exists s1 groups', (if due now s then seal else mret tt) s = (s1, Ok tt) /\ lists (groups ++ groups') out s1 L).
  { destruct (due now s) eqn:Ed.
    - destruct (seal s) as [s1 [[]|e]] eqn:Es; [|done]. destruct (seal_lists groups out s s1 L Hl Es) as (gs & Hg & _). eauto.
    - exists s, []. by rewrite app_nil_r. }
  destruct Hs as (s1 & gs & Es & Hg). rewrite Es in E. unfold take_ready in E. injection E as <- <-. exists gs. destruct Hg. split; try done.
  cbn. by rewrite app_nil_r.
Qed.

Lemma list_retried_lists groups out now s L : lists groups out s L ->
  lists groups out (list_retried now s)
    (foldl (fun L '(dst, f) => list_record records (rf_change f) (Some dst) (Some (mkFailure (rf_message f) (rf_class f))) L)
      (mkListing (ls_records L) ∅ (ls_totals L) (ls_ended L)) (retried_in_order (ls_retried L))).
Proof.
  intros Hl. unfold list_retried. rewrite (li_retried _ _ _ _ _ _ _ Hl). assert (HL0 : lists groups out (set_retried ∅ s) (mkListing (ls_records L) ∅ (ls_totals L) (ls_ended L))).
  { destruct Hl. by split. }
  revert HL0. generalize (set_retried ∅ s) (mkListing (ls_records L) ∅ (ls_totals L) (ls_ended L)). induction (retried_in_order (ls_retried L)) as [|[dst f] l IH]; [done|].
  intros s1 L1 H1. cbn [foldl]. apply IH. by apply record_lists.
Qed.

(** The end of a stream: what was sent is all there is. *)
Record finished (groups : list (list ResultRecord)) (out : list (list Z)) (s : Stream) (L : Listing) : Prop := {
  fd_records : ls_records L = mjoin groups;
  fd_totals : sm_totals s = ls_totals L;
  fd_pending : sm_pending s = [];
  fd_frames : exists tag, end_tag k (Z.of_nat (length groups)) (ls_totals L) = Ok tag /\
    Ok <$> (out ++ sm_ready s) = Ok header :: sealed k groups ++ [encode_frame (FEnd (Z.of_nat (length groups)) (ls_totals L) tag)]
}.

Lemma finish_lists groups out now n s s' t L : lists groups out s L -> finish now n s = (s', Ok t) ->
  exists groups', finished (groups ++ groups') out s' (list_finish records n L) /\ t = ls_totals (list_finish records n L) /\ ls_ended L = false.
Proof.
  intros Hl E. unfold finish, mbind, method_bind, m_get, m_ensure, m_lift, m_modify in E.
  destruct (require (negb (sm_ended s)) _) as [[]|e] eqn:Er; [|done]. apply require_Ok, negb_true_iff in Er. rewrite (li_ended _ _ _ _ _ _ _ Hl) in Er.
  pose proof (list_retried_lists groups out now s L Hl) as H1. destruct (seal (list_retried now s)) as [s1 [[]|e]] eqn:Es; [|done].
  destruct (seal_lists _ _ _ _ _ H1 Es) as (gs & H2 & Hp). exists gs. split; [|split; [|done]].
  - destruct H2. destruct li_bytes as (pend & E1 & E2). assert (pend = []) as ->.
    { destruct pend as [|r pend]; [done|]. rewrite Hp in E2. symmetry in E2. by apply render_nonempty in E2. }
    rewrite app_nil_r in E1. rewrite Er in *. set (L1 := foldl _ _ _) in *. cbn [set_totals set_ended sm_keys sm_next_seq sm_totals sm_ready] in E. rewrite li_keys, li_seq, li_totals in E.
    destruct (end_tag k (Z.of_nat (length (groups ++ gs))) _) as [tag|e] eqn:Et; [|done].
    destruct (encode_frame (FEnd _ _ tag)) as [frame|e] eqn:Ef; [|done]. injection E as <- <-. split; [done|done|done|].
    exists tag. split; [exact Et|]. cbn. rewrite app_assoc, fmap_app, li_frames. cbn. by rewrite <- Ef.
  - destruct H2. rewrite Er in *. set (L1 := foldl _ _ _) in *. cbn [set_totals set_ended sm_keys sm_next_seq sm_totals sm_ready] in E.
    destruct (end_tag _ _ _) as [tag|e]; [|done]. destruct (encode_frame (FEnd _ _ tag)) as [frame|e]; [|done]. injection E as <- <-. cbn. by rewrite li_totals.
Qed.
End Streams.
