(* ===== verification/DestReader.v ===== *)
(** * What a reader makes of the frames

    The reader's running count and sum against the frames it accepted, and what
    it emits for each. *)

From stdpp Require Import strings.
From S2P Require Import Prelude Text Diagnostic Proto Hashing Mapping Grant AuthData Authority AuthSettle TcpProps Directive DirectiveProps SignerProps DestResults DestSpec DestStream.
Local Open Scope Z_scope.

(** What JSON promises further: a value reads back, with its type. *)
Class JsonValues `{ResultsLib} : Prop := {
  json_reads v : from_slice (to_writer v) = Some v;
  json_type r : value_type (to_value r) = Some (record_type r)
}.

Section Readers.
Context `{ResultsLib} `{!JsonLines} `{!JsonValues}.
Context (k : Keys) (groups : list (list ResultRecord)).
Notation M := (2 ^ 128).

(** ** Sums *)
Definition summand_at (i : nat) : Z := summand k (Z.of_nat i).
Definition sum_of (l : list nat) : Z := sumZ (summand_at <$> l) mod M.

Lemma sum_of_perm l l' : l ≡ₚ l' -> sum_of l = sum_of l'.
Proof. intros E. unfold sum_of. by rewrite E. Qed.

Lemma sum_of_snoc l i : sum_of (l ++ [i]) = u128_wrapping_add (sum_of l) (summand_at i).
Proof.
  unfold sum_of, u128_wrapping_add. rewrite fmap_app, sumZ_app. cbn. rewrite Z.add_0_r. by rewrite Zplus_mod_idemp_l.
Qed.

(** ** The reader after some frames *)
Definition group_at (i : nat) : list ResultRecord := default [] (groups !! i).
Definition values_of (l : list nat) : list Value := to_value <$> mjoin (group_at <$> l).

Record reading (acc : list nat) (r : Reader) : Prop := {
  rg_keys : rd_keys r = Some k;
  rg_frames : rd_frames r = lenZ acc;
  rg_sum : rd_sum r = sum_of acc;
  rg_upto : 0 <= rd_expected_upto r;
  rg_expected : rd_expected_sum r = sum_of (seq 0 (Z.to_nat (rd_expected_upto r)));
  rg_below i : i ∈ acc -> Z.of_nat i < rd_expected_upto r;
  rg_emitted : rd_emitted r = values_of acc
}.

Lemma extend_loop_spec fuel r : 0 <= rd_expected_upto r -> rd_expected_sum r = sum_of (seq 0 (Z.to_nat (rd_expected_upto r))) ->
  let r' := extend_loop fuel k r in
  rd_expected_upto r' = rd_expected_upto r + Z.of_nat fuel /\ rd_expected_sum r' = sum_of (seq 0 (Z.to_nat (rd_expected_upto r'))) /\
  rd_expectation r' = rd_expectation r /\ rd_keys r' = rd_keys r /\ rd_frames r' = rd_frames r /\ rd_sum r' = rd_sum r /\ rd_end r' = rd_end r /\
  rd_emitted r' = rd_emitted r.
Proof.
  revert r. induction fuel as [|fuel IH]; intros r Hu Hs; cbn [extend_loop]; [by rewrite Z.add_0_r|].
  destruct (IH (set_expected (u128_wrapping_add (rd_expected_sum r) (summand k (rd_expected_upto r))) (rd_expected_upto r + 1) r)) as (E1 & E2 & E3); [cbn; lia|..].
  - cbn. rewrite Hs. replace (Z.to_nat (rd_expected_upto r + 1)) with (S (Z.to_nat (rd_expected_upto r))) by lia. rewrite seq_S, sum_of_snoc. cbn.
    unfold summand_at. by rewrite Z2Nat.id.
  - cbn in E1, E3. split; [rewrite E1; lia|]. split; [exact E2|exact E3].
Qed.

Lemma extend_to_spec bound r : 0 <= rd_expected_upto r -> rd_expected_sum r = sum_of (seq 0 (Z.to_nat (rd_expected_upto r))) ->
  let r' := extend_to bound k r in
  rd_expected_upto r' = Z.max (rd_expected_upto r) bound /\ rd_expected_sum r' = sum_of (seq 0 (Z.to_nat (rd_expected_upto r'))) /\
  rd_expectation r' = rd_expectation r /\ rd_keys r' = rd_keys r /\ rd_frames r' = rd_frames r /\ rd_sum r' = rd_sum r /\ rd_end r' = rd_end r /\
  rd_emitted r' = rd_emitted r.
Proof.
  intros Hu Hs. destruct (extend_loop_spec (Z.to_nat (bound - rd_expected_upto r)) r Hu Hs) as (E1 & E2). split; [|exact E2]. unfold extend_to. rewrite E1. lia.
Qed.

(** ** Lines *)
Context (emit : Value -> mres unit).

Lemma render_lines g : split_on newline (render g) = (to_writer <$> (to_value <$> g)) ++ [[]].
Proof.
  rewrite <- split_on_lines.
  - f_equal. unfold render. f_equal. rewrite <- !list_fmap_compose. done.
  - intros c (v & -> & _)%list_elem_of_fmap. apply json_line.
Qed.

Definition is_result_type (v : Value) : Prop := value_type v = Some (bs "operation_result") \/ value_type v = Some (bs "error").

Lemma to_value_type r : is_result_type (to_value r).
Proof. unfold is_result_type. rewrite json_type. destruct r; auto. Qed.

Definition emitting (vs : list Value) (r r' : Reader) : Prop :=
  rd_expectation r' = rd_expectation r /\ rd_keys r' = rd_keys r /\ rd_frames r' = rd_frames r /\ rd_sum r' = rd_sum r /\
  rd_expected_sum r' = rd_expected_sum r /\ rd_expected_upto r' = rd_expected_upto r /\ rd_end r' = rd_end r /\ rd_emitted r' = rd_emitted r ++ vs.

(** Reading rendered records emits them, or stops where [emit] does. *)
Lemma accept_lines_spec vs r : Forall is_result_type vs ->
  match accept_lines emit ((to_writer <$> vs) ++ [[]]) r with
  | (r', Ok _) => emitting vs r r' /\ Forall (fun v => emit v = Ok tt) vs
  | (_, Err _) => exists v e, v ∈ vs /\ emit v = Err e
  end.
Proof.
  revert r. induction vs as [|v vs IH]; intros r Hv.
  - cbn [fmap list_fmap app accept_lines]. rewrite decide_True by done. cbn. split; [|done]. unfold emitting. by rewrite app_nil_r.
  - change ((to_writer <$> v :: vs) ++ [[]]) with (to_writer v :: ((to_writer <$> vs) ++ [[]])). cbn [accept_lines].
    apply Forall_cons in Hv as [Hv Hvs]. rewrite decide_False by apply json_nonempty. unfold mbind, method_bind, m_ensure, m_lift, m_modify. rewrite json_reads. cbn [from_option_err].
    assert (bool_decide (value_type v = Some (bs "operation_result")) || bool_decide (value_type v = Some (bs "error")) = true) as ->.
    { apply orb_true_iff. rewrite !bool_decide_eq_true. exact Hv. }
    cbn [require]. destruct (emit v) as [[]|e] eqn:Ee; [|exists v, e; split; [left|done]].
    specialize (IH (add_emitted v r) Hvs). destruct (accept_lines emit _ (add_emitted v r)) as [r' [[]|e]].
    + destruct IH as [IH Hf]. split; [|by constructor]. unfold emitting in *. cbn in IH. rewrite <- app_assoc in IH. exact IH.
    + destruct IH as (v' & e' & Hin & He). exists v', e'. split; [by right|done].
Qed.

Lemma require_true {E} (e : E) : require true e = Ok tt.
Proof. done. Qed.

(** ** One frame of records *)
Lemma accept_payload_spec acc r i g : reading acc r -> groups !! i = Some g -> xp_records (rd_expectation r) || bool_decide (render g = []) = true ->
  lenZ acc < 2 ^ 64 - 1 ->
  match accept_payload emit k (Z.of_nat i) (render g) r with
  | (r', Ok _) => reading (acc ++ [i]) r' /\ rd_end r' = rd_end r /\ rd_expectation r' = rd_expectation r /\
      rd_expected_upto r' = Z.max (rd_expected_upto r) (Z.of_nat i + 1)
  | (_, Err _) => exists v e, v ∈ to_value <$> g /\ emit v = Err e
  end.
Proof.
  intros Hr Hg Hx Hlen. unfold accept_payload, mbind, method_bind, m_get, m_ensure, m_lift, m_modify. rewrite (rg_frames _ _ Hr).
  assert (u64_add (lenZ acc) 1 = Some (lenZ acc + 1)) as ->.
  { unfold u64_add. rewrite decide_True; [done|]. unfold u64_max. lia. }
  cbn [from_option_err]. set (r1 := set_frames (lenZ acc + 1) _ r).
  destruct (extend_to_spec (Z.of_nat i + 1) r1) as (X1 & X2 & X3 & X4 & X5 & X6 & X7 & X8); [apply Hr..|].
  set (r2 := extend_to (Z.of_nat i + 1) k r1) in *. rewrite Hx. cbn [require]. rewrite render_lines.
  pose proof (accept_lines_spec (to_value <$> g) r2) as Hl. destruct (accept_lines emit _ r2) as [r3 [[]|e]]; [|apply Hl, Forall_fmap, Forall_true; apply to_value_type].
  destruct Hl as [(L1 & L2 & L3 & L4 & L5 & L6 & L7 & L8) _]; [apply Forall_fmap, Forall_true; apply to_value_type|].
  destruct Hr as [R1 R2 R3 R4 R5 R6 R7]. split; [|split; [by rewrite L7, X7|split; [by rewrite L1, X3|by rewrite L6, X1]]]. split.
  - by rewrite L2, X4.
  - rewrite L3, X5. unfold lenZ. rewrite length_app. cbn. unfold lenZ. lia.
  - rewrite L4, X6, sum_of_snoc. cbn. by rewrite R3.
  - rewrite L6, X1. cbn. lia.
  - by rewrite L5, L6, X2.
  - intros j [Hj| ->%list_elem_of_singleton]%elem_of_app; rewrite L6, X1; cbn; [pose proof (R6 j Hj)|]; lia.
  - rewrite L8, X8. cbn. rewrite R7. unfold values_of. rewrite fmap_app, join_app, fmap_app. f_equal. cbn. unfold group_at. rewrite Hg. cbn. by rewrite app_nil_r.
Qed.

(** A frame with the right tag goes on to its payload, unless it follows its
    end. *)
Lemma accept_records_frame r seq payload tag : rd_keys r = Some k ->
  match accept_frame emit (FRecords seq payload tag) r with
  | (_, Ok _) as res => records_tag k seq payload = tag /\ accept_payload emit k seq payload r = res
  | (_, Err _) as res => records_tag k seq payload <> tag \/ (exists n t, rd_end r = Some (n, t) /\ n <= seq) \/ accept_payload emit k seq payload r = res
  end.
Proof.
  intros Hk. unfold accept_frame, mbind, method_bind, m_get, m_ensure, m_lift. rewrite Hk. cbn [from_option_err].
  destruct (decide (records_tag k seq payload = tag)) as [Et|Et]; [rewrite bool_decide_eq_true_2 by done|rewrite bool_decide_eq_false_2 by done; by left].
  cbn [require]. destruct (rd_end r) as [[n t]|] eqn:Ee.
  - destruct (decide (seq < n)); [rewrite bool_decide_eq_true_2 by done|rewrite bool_decide_eq_false_2 by done; right; left; exists n, t; split; [done|lia]].
    destruct (accept_payload emit k seq payload r) as [r' [[]|e]] eqn:Ep; cbn; auto.
  - cbn. destruct (accept_payload emit k seq payload r) as [r' [[]|e]] eqn:Ep; auto.
Qed.

(** ** The end *)
Lemma reader_finish_spec acc r n t : reading acc r -> rd_end r = Some (n, t) ->
  match reader_finish r with
  | (r', Ok t') => t' = t /\ n = lenZ acc /\ (forall i, i ∈ acc -> Z.of_nat i < n) /\ sum_of acc = sum_of (seq 0 (length acc)) /\ rd_emitted r' = values_of acc
  | (_, Err _) => ~ (n = lenZ acc /\ (forall i, i ∈ acc -> Z.of_nat i < n) /\ rd_expected_upto r <= n /\ sum_of acc = sum_of (seq 0 (length acc)))
  end.
Proof.
  intros Hr He. unfold reader_finish, mbind, method_bind, m_get, m_ensure, m_lift, m_modify. rewrite (rg_keys _ _ Hr), He. cbn [from_option_err].
  destruct Hr as [R1 R2 R3 R4 R5 R6 R7]. destruct (extend_to_spec n r) as (X1 & X2 & X3 & X4 & X5 & X6 & X7 & X8); [done..|].
  set (r1 := extend_to n k r) in *. unfold require. destruct (_ && _ && _) eqn:Eb.
  - cbn. rewrite !andb_true_iff, !bool_decide_eq_true in Eb. destruct Eb as [[B1 B2] B3]. split; [done|].
    assert (Hn : n = lenZ acc) by congruence. split_and!; [done|..].
    + intros i Hi. pose proof (R6 i Hi). lia.
    + rewrite X6, R3, X2, B2, Hn in B3. unfold lenZ in B3. by rewrite Nat2Z.id in B3.
    + by rewrite X8.
  - cbn. intros (Hn & Hi & Hup & Hs). assert (B1 : rd_frames r1 = n) by congruence. assert (B2 : rd_expected_upto r1 = n) by (rewrite X1; lia).
    assert (B3 : rd_sum r1 = rd_expected_sum r1) by (rewrite X6, R3, X2, B2, Hn; unfold lenZ; by rewrite Nat2Z.id).
    by rewrite !bool_decide_eq_true_2 in Eb by done.
Qed.
End Readers.
