(* ===== verification/DestRun.v ===== *)
(** * A whole stream of results

    The operations of a receiver on its stream, in any order; what the frames
    of a finished stream are; and that they carry the listing. *)

From stdpp Require Import strings.
From S2P Require Import Prelude Text Diagnostic Proto Hashing Mapping Grant AuthData Authority AuthSettle TcpProps Directive DirectiveProps SignerProps DestResults DestSpec DestStream.
Local Open Scope Z_scope.

(** What a receiver does with its stream, each at its time. *)
Inductive StreamOp :=
| OpRecord (now : Z) (c : Change) (dst : option PathBytes) (error : option Failure)
| OpRetried (now : Z) (c : Change) (dst : option PathBytes) (error : Failure)
| OpRefused (now : Z) (message : list Z) (changes : list (option PathBytes * Change))
| OpTake (now : Z).

Section Runs.
Context `{ResultsLib}.

(** The frames an operation gives out. *)
Definition stream_op (op : StreamOp) : method Stream string (list (list Z)) :=
  match op with
  | OpRecord now c dst error => _ ← m_modify (stream_record now c dst error); mret []
  | OpRetried now c dst error => _ ← m_modify (stream_retried now c dst error); mret []
  | OpRefused now message changes => _ ← m_modify (stream_refused now message changes); mret []
  | OpTake now => take_frames now
  end.

Fixpoint stream_ops (ops : list StreamOp) : method Stream string (list (list Z)) :=
  match ops with
  | [] => mret []
  | op :: ops => out ← stream_op op; rest ← stream_ops ops; mret (out ++ rest)
  end.

(** A stream from its start to its last frame. *)
Definition send (policy : ReceiptPolicy) (binding : ResultsBinding) (key : SigningKey) (records : bool) (ops : list StreamOp)
    (now bytes_transferred last : Z) : mres (list (list Z) * Totals) :=
  s ← Stream_start policy binding key records;
  snd ((out ← stream_ops ops; t ← finish now bytes_transferred; rest ← take_frames last; mret (out ++ rest, t)) s).

(** The listing of the same operations. *)
Definition list_op (records : bool) (L : Listing) (op : StreamOp) : Listing :=
  match op with
  | OpRecord _ c dst error => list_record records c dst error L
  | OpRetried _ c dst error => list_held records c dst error L
  | OpRefused _ message changes => list_refused records message changes L
  | OpTake _ => L
  end.
Definition Listing_new : Listing := mkListing [] ∅ Totals_default false.
Definition listing (records : bool) (ops : list StreamOp) (bytes_transferred : Z) : Listing :=
  list_finish records bytes_transferred (foldl (list_op records) Listing_new ops).

(** ** The start *)
(** How a stream's keys and header came about. *)
Record started (policy : ReceiptPolicy) (binding : ResultsBinding) (key : SigningKey) (records : bool) (k : Keys) (body pem header : list Z) : Prop := {
  st_exchange : exists recipient public info enc ctx, policy_recipient policy = Ok recipient /\ public_from_bytes recipient = Some public /\
    info_to_stdvec binding = Some info /\ setup_sender public info = Some (enc, ctx) /\ keys_export ctx = Ok k /\
    length (encapsulated_to_bytes enc) = 32%nat /\ header_to_stdvec (mkHeader binding (encapsulated_to_bytes enc) records) = Some body;
  st_signed : exists sig, results_sign key RESULTS_NAMESPACE body = Some sig /\ results_to_pem sig = Some pem;
  st_encoded : encode_frame (FHeader body pem) = Ok header
}.

Lemma Stream_start_Ok policy binding key records s : Stream_start policy binding key records = Ok s ->
  exists k body pem header, started policy binding key records k body pem header /\ s = mkStream k records 0 [] None [header] ∅ Totals_default false.
Proof.
  unfold Stream_start. intros E. apply result_bind_Ok in E as (recipient & E1 & E). apply result_bind_Ok in E as (public & E2%from_option_Ok & E).
  apply result_bind_Ok in E as (info & E3%from_option_Ok & E). apply result_bind_Ok in E as ([enc ctx] & E4%from_option_Ok & E).
  apply result_bind_Ok in E as (k & E5 & E). apply result_bind_Ok in E as ([] & E6%require_Ok%bool_decide_eq_true & E).
  apply result_bind_Ok in E as (body & E7%from_option_Ok & E). apply result_bind_Ok in E as ([] & _ & E). apply result_bind_Ok in E as (sig & E8%from_option_Ok & E).
  apply result_bind_Ok in E as (pem & E9%from_option_Ok & E). apply result_bind_Ok in E as (header & E10 & [= <-]). exists k, body, pem, header. split; [|done].
  split; [by exists recipient, public, info, enc, ctx|by exists sig|done].
Qed.

Section Run.
Context `{!JsonLines} (k : Keys) (records : bool) (header : list Z).
Notation lists := (lists k records header).

Lemma stream_op_lists groups out op s s' frames L : lists groups out s L -> stream_op op s = (s', Ok frames) ->
  exists groups', lists (groups ++ groups') (out ++ frames) s' (list_op records L op).
Proof.
  intros Hl E. destruct op; cbn in E; [injection E as <- <-; exists []; rewrite !app_nil_r..|].
  - by apply record_lists.
  - by apply held_lists.
  - by apply refused_lists.
  - by eapply take_frames_lists.
Qed.

Lemma stream_ops_lists groups out ops s s' frames L : lists groups out s L -> stream_ops ops s = (s', Ok frames) ->
  exists groups', lists (groups ++ groups') (out ++ frames) s' (foldl (list_op records) L ops).
Proof.
  revert groups out s frames L. induction ops as [|op ops IH]; intros groups out s frames L Hl E; cbn in E.
  - injection E as <- <-. exists []. by rewrite !app_nil_r.
  - unfold mbind, method_bind in E. destruct (stream_op op s) as [s1 [f1|e]] eqn:E1; [|done]. destruct (stream_ops ops s1) as [s2 [f2|e]] eqn:E2; [|done].
    injection E as <- <-. destruct (stream_op_lists _ _ _ _ _ _ _ Hl E1) as (g1 & H1). destruct (IH _ _ _ _ _ H1 E2) as (g2 & H2).
    exists (g1 ++ g2). by rewrite !app_assoc.
Qed.
End Run.

(** The frames of a whole stream: a header, its groups of records, its end. *)
Record sent (k : Keys) (body pem : list Z) (groups : list (list ResultRecord)) (totals : Totals) (tag : list Z) (frames : list (list Z)) : Prop := {
  se_tag : end_tag k (Z.of_nat (length groups)) totals = Ok tag;
  se_frames : Ok <$> frames = encode_frame (FHeader body pem) :: sealed k groups ++ [encode_frame (FEnd (Z.of_nat (length groups)) totals tag)]
}.

Lemma take_ended now s s' frames : sm_pending s = [] -> take_frames now s = (s', Ok frames) -> frames = sm_ready s.
Proof.
  intros Hp E. unfold take_frames, mbind, method_bind, m_get in E. destruct (due now s).
  - unfold seal in E. rewrite Hp in E. cbn in E. by injection E as <- <-.
  - cbn in E. by injection E as <- <-.
Qed.

Lemma send_sent `{!JsonLines} policy binding key records ops now n last frames totals : send policy binding key records ops now n last = Ok (frames, totals) ->
  exists k body pem header groups tag, started policy binding key records k body pem header /\ sent k body pem groups totals tag frames /\
    mjoin groups = ls_records (listing records ops n) /\ totals = ls_totals (listing records ops n).
Proof.
  unfold send. destruct (Stream_start policy binding key records) as [s|] eqn:Es; [|done]. cbn [mbind result_bind].
  apply Stream_start_Ok in Es as (k & body & pem & header & Hst & ->). set (s0 := mkStream _ _ _ _ _ _ _ _ _).
  assert (Hl0 : lists k records header [] [] s0 Listing_new) by (split; try done; by exists []).
  unfold mbind, method_bind. destruct (stream_ops ops s0) as [s1 [out|]] eqn:E1; [|done]. destruct (finish now n s1) as [s2 [t|]] eqn:E2; [|done].
  destruct (take_frames last s2) as [s3 [rest|]] eqn:E3; [|done]. cbn. intros [= <- <-].
  destruct (stream_ops_lists k records header _ _ _ _ _ _ _ Hl0 E1) as (g1 & H1). destruct (finish_lists k records header _ _ _ _ _ _ _ _ H1 E2) as (g2 & [F1 F2 F3 (tag & F4 & F5)] & Ht & _).
  apply take_ended in E3; [|done]. subst rest t. exists k, body, pem, header, (g1 ++ g2), tag. split; [done|]. split; [|split; [symmetry; exact F1|done]].
  split; [done|]. cbn in F5. by rewrite F5, (st_encoded _ _ _ _ _ _ _ _ Hst).
Qed.
End Runs.
