(* ===== verification/DestDeliver.v ===== *)
(** * A stream's frames, delivered

    What reader and stream agree on, and what the reader does with each frame
    of the stream and with each frame that is not of the stream. *)

From stdpp Require Import strings.
From S2P Require Import Prelude Text Diagnostic Proto Hashing Mapping Grant AuthData Authority AuthSettle TcpProps Directive DirectiveProps SignerProps MappingGrant DestResults DestSpec DestStream DestReader DestRun.
Local Open Scope Z_scope.

(** What [postcard] promises: what it wrote, it reads back. *)
Class ResultsCodec `{ResultsLib} : Prop := {
  frame_reads f b : frame_to_stdvec f = Some b -> frame_from_bytes b = Some f;
  header_reads h b : header_to_stdvec h = Some b -> header_from_bytes b = Some h
}.

(** What HPKE promises of a key pair: both ends export the same keys. *)
Definition hpke_pair `{ResultsLib} (recipient secret : list Z) : Prop :=
  forall public info enc ctx, public_from_bytes recipient = Some public -> setup_sender public info = Some (enc, ctx) ->
    exists private enc' ctx', private_from_bytes secret = Some private /\ encapsulated_from_bytes (encapsulated_to_bytes enc) = Some enc' /\
      setup_receiver private enc' info = Some ctx' /\ forall label, hpke_export ctx' label = hpke_export ctx label.

(** What SSH signatures promise of a key pair: a signature is text of a bounded
    size, and verifies. *)
Definition signing_pair `{ResultsLib} (key : SigningKey) (public_key : list Z) : Prop :=
  exists rk, key_from_openssh public_key = Some rk /\
    forall body sig pem, results_sign key RESULTS_NAMESPACE body = Some sig -> results_to_pem sig = Some pem ->
      utf8_valid pem = true /\ lenZ pem <= MAX_RESULTS_SIGNATURE_BYTES /\
      exists sig', results_from_pem pem = Some sig' /\ results_verify rk RESULTS_NAMESPACE body sig' = true.

(** What the invoking machine expects is what the destination was told: the same
    copy, both key pairs, the same choice of records; and its header is small. *)
Record agreed `{ResultsLib} (policy : ReceiptPolicy) (binding : ResultsBinding) (key : SigningKey) (records : bool) (e : Expectation) : Prop := {
  ag_binding : xp_binding e = binding;
  ag_records : xp_records e = records;
  ag_recipient recipient : policy_recipient policy = Ok recipient -> hpke_pair recipient (xp_secret e);
  ag_signing : signing_pair key (xp_public_key e);
  ag_header enc body : length enc = 32%nat -> header_to_stdvec (mkHeader binding enc records) = Some body -> lenZ body <= MAX_HEADER_BYTES
}.

Section Deliver.
Context `{ResultsLib}.
Context (emit : Value -> mres unit).

(** Frames in the order they arrive; then the end. *)
Fixpoint accept_all (frames : list (list Z)) : method Reader string unit :=
  match frames with [] => mret tt | b :: frames => _ ← accept emit b; accept_all frames end.
Definition receive (e : Expectation) (frames : list (list Z)) : Reader * mres Totals := (_ ← accept_all frames; reader_finish) (Reader_new e).

Context `{!JsonLines} `{!JsonValues} `{!ResultsCodec}.

Lemma keys_export_agree ctx ctx' : (forall label, hpke_export ctx' label = hpke_export ctx label) -> keys_export ctx' = keys_export ctx.
Proof. intros E. unfold keys_export. by rewrite !E. Qed.

Lemma encode_frame_Ok f b : encode_frame f = Ok b -> frame_to_stdvec f = Some b /\ lenZ b <= MAX_FRAME_BYTES.
Proof.
  unfold encode_frame. intros (b' & E1%from_option_Ok & E)%result_bind_Ok. apply result_bind_Ok in E as ([] & E2%require_Ok%bool_decide_eq_true & [= <-]). done.
Qed.

Lemma accept_encoded f b r : encode_frame f = Ok b -> accept emit b r = accept_frame emit f r.
Proof.
  intros [E1 E2]%encode_frame_Ok. unfold accept, mbind, method_bind, m_ensure, m_lift. rewrite bool_decide_eq_true_2 by done. cbn [require].
  by rewrite (frame_reads _ _ E1).
Qed.

(** ** The header *)
Lemma verify_started policy binding key records k body pem header e : started policy binding key records k body pem header -> agreed policy binding key records e ->
  verify_header e body pem = Ok k.
Proof.
  intros [(recipient & public & info & enc & ctx & E1 & E2 & E3 & E4 & E5 & E6 & E7) (sig & E8 & E9) _] [Hb Hr Hp (rk & Hrk & Hs) Hh].
  destruct (Hs _ _ _ E8 E9) as (S1 & S2 & sig' & S3 & S4). destruct (Hp _ E1 _ _ _ _ E2 E4) as (private & enc' & ctx' & P1 & P2 & P3 & P4).
  pose proof (Hh _ _ E6 E7) as Hlen. unfold verify_header. rewrite !bool_decide_eq_true_2 by done. rewrite S1, S3, Hrk. unfold mbind, result_bind. cbn [andb require from_option_err].
  rewrite S4, (header_reads _ _ E7). cbn [require from_option_err]. rewrite E7. cbn [require from_option_err hb_binding hb_records hb_encapsulated_key].
  rewrite !bool_decide_eq_true_2 by done. cbn [require]. rewrite P1, P2, E3. cbn [from_option_err]. rewrite P3. cbn [from_option_err]. by rewrite (keys_export_agree _ _ P4).
Qed.

(** A header that is accepted was signed, and gives the keys its body names. *)
Definition signed_by (public_key body signature : list Z) : Prop :=
  exists sig rk, results_from_pem signature = Some sig /\ key_from_openssh public_key = Some rk /\ results_verify rk RESULTS_NAMESPACE body sig = true.

Lemma verify_header_signed e body signature k : verify_header e body signature = Ok k -> signed_by (xp_public_key e) body signature.
Proof.
  unfold verify_header. intros E. apply result_bind_Ok in E as ([] & _ & E). apply result_bind_Ok in E as ([] & _ & E).
  apply result_bind_Ok in E as (sig & E1%from_option_Ok & E). apply result_bind_Ok in E as (rk & E2%from_option_Ok & E).
  apply result_bind_Ok in E as ([] & E3%require_Ok & _). by exists sig, rk.
Qed.

(** The rest of the check reads the body alone. *)
Lemma verify_header_body e body s s' k k' : verify_header e body s = Ok k -> verify_header e body s' = Ok k' -> k = k'.
Proof.
  unfold verify_header. intros E E'.
  do 5 (apply result_bind_Ok in E as (? & _ & E)). do 5 (apply result_bind_Ok in E' as (? & _ & E')). congruence.
Qed.

Lemma accept_header e body signature k : verify_header e body signature = Ok k ->
  accept_frame emit (FHeader body signature) (Reader_new e) = (set_keys k (Reader_new e), Ok tt).
Proof. intros E. unfold accept_frame, mbind, method_bind, m_get, m_ensure, m_lift, m_modify. cbn [Reader_new rd_keys is_some negb require rd_expectation]. by rewrite E. Qed.

Lemma reading_start k groups e : reading k groups [] (set_keys k (Reader_new e)).
Proof. split; cbn; try done. by intros i Hi%not_elem_of_nil. Qed.

(** A frame the reader authenticates and the destination did not send. *)
Inductive forgery (k : Keys) (public_key : list Z) (frames : list (list Z)) : Frame -> Prop :=
| forged_header body signature : signed_by public_key body signature ->
    (forall b signature', b ∈ frames -> frame_from_bytes b <> Some (FHeader body signature')) -> forgery k public_key frames (FHeader body signature)
| forged_records seq payload : (forall b, b ∈ frames -> frame_from_bytes b <> Some (FRecords seq payload (records_tag k seq payload))) ->
    forgery k public_key frames (FRecords seq payload (records_tag k seq payload))
| forged_end n t tag : end_tag k n t = Ok tag -> (forall b, b ∈ frames -> frame_from_bytes b <> Some (FEnd n t tag)) ->
    forgery k public_key frames (FEnd n t tag).

(** As many indices below [N], not each once, with the same sum of keyed hashes. *)
Definition coincidence (k : Keys) (N : nat) : Prop :=
  exists l, length l = N /\ Forall (fun i => i < N)%nat l /\ ~ l ≡ₚ seq 0 N /\ sum_of k l = sum_of k (seq 0 N).

Section OneStream.
Context (k : Keys) (body pem : list Z) (groups : list (list ResultRecord)) (totals : Totals) (tag : list Z) (e : Expectation).
Context (Htag : end_tag k (Z.of_nat (length groups)) totals = Ok tag).
Notation N := (length groups).

Lemma accept_end r : rd_keys r = Some k -> rd_end r = None ->
  accept_frame emit (FEnd (Z.of_nat N) totals tag) r = (set_end_frame (Z.of_nat N, totals) r, Ok tt).
Proof.
  intros Hk He. unfold accept_frame, mbind, method_bind, m_get, m_ensure, m_lift, m_modify. rewrite Hk, He. cbn [from_option_err]. rewrite Htag.
  by rewrite bool_decide_eq_true_2.
Qed.

Lemma reading_end acc n t r : reading k groups acc r -> reading k groups acc (set_end_frame (n, t) r).
Proof. by intros []; split. Qed.

(** ** Every frame once *)
(** The frames after the header: [Some i], the records of a group; [None], the
    end. *)
Definition item_frame (it : option nat) : Frame :=
  match it with Some i => frame_of k i (group_at groups i) | None => FEnd (Z.of_nat N) totals tag end.
Definition items : list (option nat) := (Some <$> seq 0 N) ++ [None].

Lemma sealed_items : sealed k groups = (fun i => encode_frame (frame_of k i (group_at groups i))) <$> seq 0 N.
Proof.
  apply list_eq. intros i. unfold sealed. rewrite list_lookup_imap, list_lookup_fmap. destruct (decide (i < N)%nat) as [Hi|Hi].
  - destruct (lookup_lt_is_Some_2 groups i Hi) as [g Hg]. rewrite lookup_seq_lt by done. cbn. unfold group_at. by rewrite Hg.
  - rewrite lookup_ge_None_2 by lia. rewrite lookup_seq_ge by lia. done.
Qed.

Lemma sent_items h frames : sent k body pem groups totals tag (h :: frames) ->
  Ok <$> frames = (fun it => encode_frame (item_frame it)) <$> items.
Proof.
  intros [_ E]. injection E as _ E. etransitivity; [exact E|]. unfold items. rewrite fmap_app, sealed_items. f_equal.
  by rewrite <- list_fmap_compose.
Qed.

Definition unlisted_empty : Prop := xp_records e = false -> mjoin groups = [].

Lemma group_at_lt i : (i < N)%nat -> groups !! i = Some (group_at groups i).
Proof. intros Hi. destruct (lookup_lt_is_Some_2 groups i Hi) as [g Hg]. unfold group_at. by rewrite Hg. Qed.

Lemma group_listed i : unlisted_empty -> (i < N)%nat -> xp_records e || bool_decide (render (group_at groups i) = []) = true.
Proof.
  intros Hu Hi. destruct (xp_records e) eqn:Ex; [done|]. specialize (Hu Ex). apply bool_decide_eq_true_2. apply group_at_lt in Hi as Hg.
  apply list_elem_of_lookup_2 in Hg. destruct (group_at groups i) as [|x g] eqn:E; [done|]. assert (Hx : x ∈ mjoin groups).
  { apply list_elem_of_join. exists (x :: g). split; [left|done]. }
  rewrite Hu in Hx. by apply not_elem_of_nil in Hx.
Qed.

(** How far a reader is through the stream. *)
Record delivered (acc : list nat) (ended : bool) (r : Reader) : Prop := {
  de_reading : reading k groups acc r;
  de_end : rd_end r = if ended then Some (Z.of_nat N, totals) else None;
  de_expectation : rd_expectation r = e;
  de_below : Forall (fun i => i < N)%nat acc;
  de_upto : rd_expected_upto r <= Z.of_nat N
}.

Lemma accept_item acc ended r i b : delivered acc ended r -> unlisted_empty -> (forall v, emit v = Ok tt) -> (i < N)%nat -> lenZ acc < 2 ^ 64 - 1 ->
  encode_frame (item_frame (Some i)) = Ok b -> exists r', accept emit b r = (r', Ok tt) /\ delivered (acc ++ [i]) ended r'.
Proof.
  intros [D1 D2 D3 D4 D5] Hu Hem Hi Hlen Eb. rewrite (accept_encoded _ _ _ Eb). cbn [item_frame]. unfold frame_of.
  pose proof (accept_records_frame k emit r (Z.of_nat i) (render (group_at groups i)) (records_tag k (Z.of_nat i) (render (group_at groups i))) (rg_keys _ _ _ _ D1)) as Hf.
  pose proof (accept_payload_spec k groups emit acc r i (group_at groups i) D1 (group_at_lt i Hi)) as Hp. rewrite D3 in Hp. specialize (Hp (group_listed i Hu Hi) Hlen).
  destruct (accept_frame emit _ r) as [r' [[]|err]].
  - exists r'. split; [done|]. destruct Hf as [_ Hf]. rewrite Hf in Hp. destruct Hp as (P1 & P2 & P3 & P4). split; [done|congruence|congruence|..].
    + apply Forall_app. by rewrite Forall_singleton.
    + lia.
  - destruct Hf as [Hf|[(n & t & Hn & Hle)|Hf]]; [done|..].
    + rewrite D2 in Hn. destruct ended; [|done]. injection Hn as <- _. lia.
    + rewrite Hf in Hp. destruct Hp as (v & er & _ & Hv). by rewrite Hem in Hv.
Qed.

Definition indices (its : list (option nat)) : list nat := omap id its.

(** Any order of the remaining frames is accepted. *)
Lemma accept_items its bs acc ended r : delivered acc ended r -> unlisted_empty -> (forall v, emit v = Ok tt) ->
  Ok <$> bs = (fun it => encode_frame (item_frame it)) <$> its -> NoDup its -> Forall (fun i => i < N)%nat (indices its) ->
  (ended = true -> None ∉ its) -> lenZ acc + lenZ its < 2 ^ 64 ->
  exists r', accept_all bs r = (r', Ok tt) /\ delivered (acc ++ indices its) (ended || bool_decide (None ∈ its)) r'.
Proof.
  intros Hd Hu Hem. revert bs acc ended r Hd. induction its as [|it its IH]; intros bs acc ended r Hd Hb Hnd Hlt Hend Hlen.
  - destruct bs; [|done]. exists r. split; [done|]. rewrite bool_decide_eq_false_2 by apply not_elem_of_nil. by rewrite app_nil_r, orb_false_r.
  - destruct bs as [|b bs]; [done|]. injection Hb as Eb Hb. apply NoDup_cons in Hnd as [Hni Hnd]. unfold lenZ in Hlen. cbn [length] in Hlen. destruct it as [i|].
    + cbn in Hlt. apply Forall_cons in Hlt as [Hi Hlt]. destruct (accept_item acc ended r i b Hd Hu Hem Hi) as (r1 & E1 & D1); [unfold lenZ; lia|done|].
      destruct (IH bs (acc ++ [i]) ended r1 D1 Hb Hnd Hlt) as (r2 & E2 & D2).
      { intros He Hin. apply Hend; [done|by right]. }
      { unfold lenZ. rewrite length_app. cbn. lia. }
      exists r2. split; [cbn [accept_all]; unfold mbind, method_bind; by rewrite E1|]. rewrite <- app_assoc in D2.
      assert (bool_decide (None ∈ Some i :: its) = bool_decide (None ∈ its)) as -> by (apply bool_decide_ext; rewrite elem_of_cons; naive_solver). exact D2.
    + assert (ended = false) as -> by (destruct ended; [|done]; destruct Hend; [done|left]).
      assert (D1 : delivered acc true (set_end_frame (Z.of_nat N, totals) r)) by (destruct Hd as [X1 X2 X3 X4 X5]; split; [by apply reading_end|done..]).
      destruct (IH bs acc true _ D1 Hb Hnd Hlt) as (r2 & E2 & D2); [done|unfold lenZ; lia|].
      exists r2. split; [|rewrite (bool_decide_eq_true_2 (None ∈ None :: its)) by left; exact D2].
      cbn [accept_all]; unfold mbind, method_bind. rewrite (accept_encoded _ _ _ (eq_sym Eb)). cbn [item_frame]. rewrite accept_end; [done|apply Hd|apply Hd].
Qed.

Lemma finish_delivered acc r : delivered acc true r -> acc ≡ₚ seq 0 N -> exists r', reader_finish r = (r', Ok totals) /\ rd_emitted r' = values_of groups acc.
Proof.
  intros [D1 D2 D3 D4 D5] Hp. assert (El : length acc = N) by (by rewrite Hp, length_seq). pose proof (reader_finish_spec k groups acc r _ _ D1 D2) as Hf.
  destruct (reader_finish r) as [r' [t|err]]; [exists r'; destruct Hf as (-> & _ & _ & _ & Hf); done|]. destruct Hf. split; [unfold lenZ; by rewrite El|].
  split; [|split; [done|]].
  - rewrite Forall_forall in D4. intros i Hi%D4. lia.
  - rewrite El. by apply sum_of_perm.
Qed.

Lemma values_in_order : values_of groups (seq 0 N) = to_value <$> mjoin groups.
Proof.
  unfold values_of. do 2 f_equal. apply list_eq. intros i. rewrite list_lookup_fmap. destruct (decide (i < N)%nat) as [Hi|Hi].
  - rewrite lookup_seq_lt by done. cbn. by rewrite (group_at_lt i Hi).
  - rewrite lookup_seq_ge by lia. by rewrite lookup_ge_None_2 by lia.
Qed.

Lemma values_of_perm l l' : l ≡ₚ l' -> values_of groups l ≡ₚ values_of groups l'.
Proof. intros E. unfold values_of. by rewrite E. Qed.

Lemma items_NoDup : NoDup items.
Proof.
  unfold items. apply NoDup_app. split; [apply (NoDup_fmap_2 _), NoDup_seq|]. split; [|apply NoDup_singleton].
  intros x (i & -> & _)%list_elem_of_fmap. by intros Hx%list_elem_of_singleton.
Qed.

Lemma items_indices : indices items = seq 0 N.
Proof. unfold indices, items. rewrite omap_app. cbn. rewrite app_nil_r. induction (seq 0 N) as [|i l IH]; [done|]. cbn. by rewrite IH. Qed.

(** ** All of it *)
Lemma receive_items its h frames : verify_header e body pem = Ok k -> encode_frame (FHeader body pem) = Ok h -> unlisted_empty -> (forall v, emit v = Ok tt) ->
  its ≡ₚ items -> Ok <$> frames = (fun it => encode_frame (item_frame it)) <$> its -> lenZ frames < 2 ^ 64 ->
  exists r, receive e (h :: frames) = (r, Ok totals) /\ rd_emitted r = values_of groups (indices its) /\ indices its ≡ₚ seq 0 N.
Proof.
  intros Hv Hh Hu Hem Hp Hf Hlen. assert (Hi : indices its ≡ₚ seq 0 N) by (rewrite <- items_indices; unfold indices; by rewrite Hp).
  destruct (accept_items its frames [] false (set_keys k (Reader_new e))) as (r & E & D); try done.
  - split; [apply reading_start|done|done|constructor|cbn; lia].
  - rewrite Hp. apply items_NoDup.
  - rewrite Hi. apply Forall_forall. intros i Hin%elem_of_seq. lia.
  - apply (f_equal length) in Hf. rewrite !length_fmap in Hf. unfold lenZ in *. cbn [length]. lia.
  - cbn [orb] in D. rewrite bool_decide_eq_true_2 in D by (rewrite Hp; unfold items; apply elem_of_app; right; left).
    destruct (finish_delivered _ _ D Hi) as (r' & E' & Em). exists r'. split; [|done]. unfold receive, mbind, method_bind. cbn [accept_all]. unfold mbind, method_bind.
    rewrite (accept_encoded _ _ _ Hh), (accept_header _ _ _ _ Hv), E. exact E'.
Qed.

(** ** Any frames at all *)
Context (frames : list (list Z)) (Hsent : sent k body pem groups totals tag frames) (Hverify : verify_header e body pem = Ok k).

Lemma sent_frame f b : b ∈ frames -> frame_from_bytes b = Some f ->
  f = FHeader body pem \/ (exists i, (i < N)%nat /\ f = frame_of k i (group_at groups i)) \/ f = FEnd (Z.of_nat N) totals tag.
Proof.
  intros Hb Ef. assert (Hok : (Ok b : mres (list Z)) ∈ (Ok : list Z -> mres (list Z)) <$> frames) by by apply list_elem_of_fmap_2.
  rewrite (se_frames _ _ _ _ _ _ _ Hsent), elem_of_cons, elem_of_app, list_elem_of_singleton, sealed_items, list_elem_of_fmap in Hok.
  assert (Hr : forall f', Ok b = encode_frame f' -> f = f').
  { intros f' E. symmetry in E. apply encode_frame_Ok in E as [E _]. apply frame_reads in E. congruence. }
  destruct Hok as [E|[(i & E & Hi%elem_of_seq)|E]]; apply Hr in E; [by left| |by right; right]. right. left. exists i. split; [lia|done].
Qed.

Definition so_far (r : Reader) : Prop := r = Reader_new e \/ exists acc ended, delivered acc ended r.
Definition suspect (b : list Z) : Prop := exists f, frame_from_bytes b = Some f /\ forgery k (xp_public_key e) frames f.

Lemma accept_payload_Ok r r' u sq payload : accept_payload emit k sq payload r = (r', Ok u) ->
  rd_frames r < 2 ^ 64 - 1 /\ xp_records (rd_expectation r) || bool_decide (payload = []) = true.
Proof.
  unfold accept_payload, mbind, method_bind, m_get, m_ensure, m_lift, m_modify. unfold u64_add at 1. case_decide as Hd; [|done]. cbn [from_option_err].
  destruct (xp_records _ || _); [|done]. intros _. unfold u64_max in Hd. split; [lia|done].
Qed.

Lemma accept_any_header b r r' u bd sg : so_far r -> frame_from_bytes b = Some (FHeader bd sg) -> accept_frame emit (FHeader bd sg) r = (r', Ok u) -> so_far r' \/ suspect b.
Proof.
  intros Hs Ef E. apply method_bind_Ok in E as (r1 & r2 & E1 & E). injection E1 as <- <-. apply method_bind_Ok in E as (r1 & [] & [Hk ->]%m_ensure_Ok & E).
  destruct Hs as [->|(acc & ended & [D _ _ _ _])]; [|by rewrite (rg_keys _ _ _ _ D) in Hk].
  unfold mbind, method_bind, m_lift, m_modify in E. cbn [Reader_new rd_expectation] in E. destruct (verify_header e bd sg) as [k'|] eqn:Ev; [|done]. injection E as <- _.
  destruct (decide (bd = body)) as [->|Hne].
  - left. right. rewrite <- (verify_header_body _ _ _ _ _ _ Hverify Ev). exists [], false. split; [apply reading_start|done|done|constructor|cbn; lia].
  - right. exists (FHeader bd sg). split; [done|]. constructor; [by eapply verify_header_signed|]. intros f s' Hf Hff.
    destruct (sent_frame _ _ Hf Hff) as [[= -> _]|[(i & _ & [=])|[=]]]. done.
Qed.

Lemma accept_any_records b r r' u sq payload tg : so_far r -> frame_from_bytes b = Some (FRecords sq payload tg) ->
  accept_frame emit (FRecords sq payload tg) r = (r', Ok u) -> so_far r' \/ suspect b.
Proof.
  intros Hs Ef E. destruct Hs as [->|(acc & ended & [D1 D2 D3 D4 D5])]; [done|].
  pose proof (accept_records_frame k emit r sq payload tg (rg_keys _ _ _ _ D1)) as Hf. rewrite E in Hf. destruct Hf as [<- Hf].
  destruct (accept_payload_Ok _ _ _ _ _ Hf) as [Hlen Hx]. rewrite (rg_frames _ _ _ _ D1) in Hlen.
  destruct (decide (0 <= sq < Z.of_nat N /\ payload = render (group_at groups (Z.to_nat sq)))) as [[Hsq ->]|Hne].
  - left. right. exists (acc ++ [Z.to_nat sq]), ended. assert (Hi : (Z.to_nat sq < N)%nat) by lia.
    pose proof (accept_payload_spec k groups emit acc r _ _ D1 (group_at_lt _ Hi) Hx Hlen) as Hp. rewrite Z2Nat.id in Hp by lia. rewrite Hf in Hp.
    destruct Hp as (P1 & P2 & P3 & P4). split; [done|congruence|congruence| |lia]. apply Forall_app. by rewrite Forall_singleton.
  - right. exists (FRecords sq payload (records_tag k sq payload)). split; [done|]. constructor. intros f Hin Hff.
    destruct (sent_frame _ _ Hin Hff) as [[=]|[(i & Hi & [= -> -> _])|[=]]]. destruct Hne. rewrite Nat2Z.id. split; [lia|done].
Qed.

Lemma accept_any_end b r r' u n t tg : so_far r -> frame_from_bytes b = Some (FEnd n t tg) -> accept_frame emit (FEnd n t tg) r = (r', Ok u) -> so_far r' \/ suspect b.
Proof.
  intros Hs Ef E. destruct Hs as [->|(acc & ended & [D1 D2 D3 D4 D5])]; [done|]. unfold accept_frame, mbind, method_bind, m_get, m_ensure, m_lift, m_modify in E.
  rewrite (rg_keys _ _ _ _ D1) in E. cbn [from_option_err] in E. destruct (end_tag k n t) as [tg'|] eqn:Et; [|done].
  unfold require in E. destruct (bool_decide _) eqn:Eb; [|done]. apply bool_decide_eq_true in Eb as <-. destruct (is_some (rd_end r)) eqn:Ee; [done|]. cbn [negb] in E. injection E as <- _.
  destruct (decide (n = Z.of_nat N /\ t = totals)) as [[-> ->]|Hne].
  - left. right. exists acc, true. split; [by apply reading_end|done..].
  - right. exists (FEnd n t tg'). split; [done|]. constructor; [done|]. intros f Hin Hff.
    destruct (sent_frame _ _ Hin Hff) as [[=]|[(i & Hi & [=])|[= -> -> _]]]. by destruct Hne.
Qed.

Lemma accept_any b r r' u : so_far r -> accept emit b r = (r', Ok u) -> so_far r' \/ suspect b.
Proof.
  intros Hs E. apply method_bind_Ok in E as (r1 & [] & [_ ->]%m_ensure_Ok & E). unfold mbind, method_bind, m_lift in E.
  destruct (frame_from_bytes b) as [f|] eqn:Ef; [|done]. cbn [from_option_err] in E. destruct f as [bd sg|sq payload tg|n t tg].
  - by eapply accept_any_header.
  - by eapply accept_any_records.
  - by eapply accept_any_end.
Qed.

Lemma accept_all_any bs r r' u : so_far r -> accept_all bs r = (r', Ok u) -> so_far r' \/ exists b, b ∈ bs /\ suspect b.
Proof.
  revert r. induction bs as [|b bs IH]; intros r Hs E; [injection E as <- _; by left|]. cbn [accept_all] in E. apply method_bind_Ok in E as (r1 & [] & E1 & E).
  destruct (accept_any _ _ _ _ Hs E1) as [Hs1|Hs1]; [|right; exists b; split; [left|done]].
  destruct (IH r1 Hs1 E) as [?|(b' & Hb & ?)]; [by left|]. right. exists b'. split; [by right|done].
Qed.

(** What is accepted to the end is the stream's, or there is a forgery among the
    frames, or the sums coincide. *)
Lemma receive_any bs r t : receive e bs = (r, Ok t) ->
  (t = totals /\ rd_emitted r ≡ₚ to_value <$> mjoin groups) \/ (exists b, b ∈ bs /\ suspect b) \/ coincidence k N.
Proof.
  intros E. unfold receive in E. apply method_bind_Ok in E as (r1 & [] & E1 & E). destruct (accept_all_any _ _ _ _ (or_introl eq_refl) E1) as [Hs|Hs]; [|by right; left].
  destruct Hs as [->|(acc & ended & [D1 D2 D3 D4 D5])]; [done|]. destruct ended; [|by unfold reader_finish, mbind, method_bind, m_get, m_lift in E; rewrite (rg_keys _ _ _ _ D1), D2 in E].
  pose proof (reader_finish_spec k groups acc r1 _ _ D1 D2) as Hf. rewrite E in Hf. destruct Hf as (-> & Hn & _ & Hsum & Hem).
  assert (El : length acc = N) by (unfold lenZ in Hn; lia). rewrite El in Hsum.
  destruct (decide (NoDup acc)) as [Hnd|Hnd].
  - left. split; [done|]. rewrite Hem, <- values_in_order. apply values_of_perm. apply submseteq_length_Permutation; [|by rewrite length_seq, El].
    apply NoDup_submseteq; [done|]. intros i Hi. rewrite Forall_forall in D4. apply elem_of_seq. specialize (D4 i Hi). lia.
  - right. right. exists acc. split_and!; [done|done| |done]. intros Hp. apply Hnd. rewrite Hp. apply NoDup_seq.
Qed.
End OneStream.
End Deliver.
