(* ===== verification/DestProps.v ===== *)
(** * The results a destination listed, as the invoking machine reads them

    From a stream's operations to what its reader emits: every frame in any
    order gives the listing, whatever is accepted gives the listing or shows a
    forgery, and a failure held for a retry that never came is listed. *)

From stdpp Require Import strings sorting.
From S2P Require Import Prelude Text Diagnostic Proto Hashing Mapping Grant AuthData Authority AuthSettle TcpProps Directive DirectiveProps SignerProps DestResults DestSpec DestStream DestReader DestRun DestDeliver.
Local Open Scope Z_scope.

(** ** Messages *)
Lemma back_to_boundary_le l n : (back_to_boundary l n <= n)%nat.
Proof. induction n as [|n IH]; cbn; [by destruct (boundary_at l 0)|]. destruct (boundary_at l (S n)); lia. Qed.

Lemma back_to_boundary_at l n : boundary_at l n = true -> back_to_boundary l n = n.
Proof. intros E. destruct n; cbn; by rewrite E. Qed.

Lemma back_to_boundary_S l n : boundary_at l (S n) = false -> back_to_boundary l (S n) = back_to_boundary l n.
Proof. intros E. cbn. by rewrite E. Qed.

(** One piece: as it is, or cut, and marked as cut. *)
Lemma bounded_diagnostic_cases m : bounded_diagnostic m =
  let t := if decide (length m <= MAX_DIAGNOSTIC_BYTES)%nat then m else take (back_to_boundary m MAX_DIAGNOSTIC_BYTES) m in
  if decide (t = []) then None else Some (if decide (length m <= MAX_DIAGNOSTIC_BYTES)%nat then t else t ++ ellipsis).
Proof.
  unfold bounded_diagnostic, bounded_format, write_str. cbn zeta. cbn [foldl bw_text bw_truncated length app]. rewrite Nat.sub_0_r.
  destruct (decide (length m <= MAX_DIAGNOSTIC_BYTES)%nat) as [Hl|Hl]; cbn [bw_text bw_truncated]; [done|]. by rewrite Nat.min_l by lia.
Qed.

(** A cut message is cut again where it was. *)
Lemma cut_again t : (length t <= MAX_DIAGNOSTIC_BYTES)%nat -> (MAX_DIAGNOSTIC_BYTES < length (t ++ ellipsis))%nat ->
  take (back_to_boundary (t ++ ellipsis) MAX_DIAGNOSTIC_BYTES) (t ++ ellipsis) = t.
Proof.
  intros H1 H2. rewrite length_app in H2. cbn [length ellipsis] in H2. generalize dependent MAX_DIAGNOSTIC_BYTES. intros m H1 H2.
  assert (B0 : boundary_at (t ++ ellipsis) (length t) = true) by (unfold boundary_at; rewrite drop_app_length; apply orb_true_r).
  assert (B1 : forall i, (i = 1 \/ i = 2)%nat -> boundary_at (t ++ ellipsis) (i + length t) = false).
  { intros i Hi. unfold boundary_at. rewrite drop_app_ge by lia. rewrite Nat.add_sub. rewrite bool_decide_eq_false_2 by lia. by destruct Hi as [-> | ->]. }
  assert (back_to_boundary (t ++ ellipsis) m = length t) as ->; [|apply take_app_length].
  assert (m = length t \/ m = S (length t) \/ m = S (S (length t))) as [-> |[-> | ->]] by lia; [by apply back_to_boundary_at|..].
  - rewrite back_to_boundary_S by (apply (B1 1%nat); lia). by apply back_to_boundary_at.
  - rewrite back_to_boundary_S by (apply (B1 2%nat); lia). rewrite back_to_boundary_S by (apply (B1 1%nat); lia). by apply back_to_boundary_at.
Qed.

Lemma bounded_again m d : bounded_diagnostic m = Some d -> bounded_diagnostic d = Some d.
Proof.
  rewrite (bounded_diagnostic_cases m). cbn zeta. destruct (decide (length m <= MAX_DIAGNOSTIC_BYTES)%nat) as [Hm|Hm].
  - destruct (decide (m = [])) as [|Hne]; [done|]. intros [= <-]. rewrite bounded_diagnostic_cases. cbn zeta.
    destruct (decide (length m <= MAX_DIAGNOSTIC_BYTES)%nat); [|done]. by destruct (decide (m = [])).
  - set (t := take _ m). assert (Hlt : (length t <= MAX_DIAGNOSTIC_BYTES)%nat).
    { unfold t. rewrite length_take. pose proof (back_to_boundary_le m MAX_DIAGNOSTIC_BYTES). lia. }
    destruct (decide (t = [])) as [|Hne]; [done|]. intros [= <-]. rewrite bounded_diagnostic_cases. cbn zeta.
    destruct (decide (length (t ++ ellipsis) <= MAX_DIAGNOSTIC_BYTES)%nat) as [Hl|Hl].
    + destruct (decide (t ++ ellipsis = [])) as [E|]; [by destruct t|done].
    + rewrite cut_again by lia. by destruct (decide (t = [])).
Qed.

(** A message bounded when a failure was held is listed as it was held. *)
Lemma diagnostic_again m : diagnostic_or_failed (diagnostic_or_failed m) = diagnostic_or_failed m.
Proof.
  destruct (bounded_diagnostic m) as [d|] eqn:E.
  - assert (diagnostic_or_failed m = d) as -> by (unfold diagnostic_or_failed; by rewrite E). unfold diagnostic_or_failed. by rewrite (bounded_again _ _ E).
  - assert (diagnostic_or_failed m = bs "failed") as -> by (unfold diagnostic_or_failed; by rewrite E). by vm_compute.
Qed.

Section Props.
Context `{ResultsLib}.

(** ** Nothing is listed unless asked for *)
Lemma list_record_unlisted c dst error L : ls_records (list_record false c dst error L) = ls_records L.
Proof. unfold list_record. destruct (ls_ended L); [done|]. destruct error; cbn; apply app_nil_r. Qed.

Lemma list_op_unlisted op L : ls_records (list_op false L op) = ls_records L.
Proof.
  destruct op as [now c dst error|now c dst error|now m changes|now]; [apply list_record_unlisted| | |done]; cbn.
  - unfold list_held. destruct (ls_ended L) eqn:He; [done|]. destruct dst; [destruct (is_file c); [done|]|]; apply list_record_unlisted.
  - unfold list_refused. destruct (ls_ended L); [done|]. cbn. apply app_nil_r.
Qed.

Lemma foldl_records {A} (f : Listing -> A -> Listing) (l : list A) L : (forall L x, ls_records (f L x) = ls_records L) -> ls_records (foldl f L l) = ls_records L.
Proof. intros Hf. revert L. induction l as [|x l IH]; intros L; [done|]. cbn. by rewrite IH, Hf. Qed.

Lemma listing_unlisted ops n : ls_records (listing false ops n) = [].
Proof.
  unfold listing, list_finish. cbn [ls_records]. rewrite foldl_records by (intros L [dst f]; apply list_record_unlisted).
  cbn. rewrite foldl_records; [done|]. intros L op. apply list_op_unlisted.
Qed.

(** ** Failures held to the end *)
(** Whether an operation settles or replaces what is held for a file. *)
Definition settles_path (p : PathBytes) (op : StreamOp) : bool :=
  match op with
  | OpRecord _ c (Some q) error => bool_decide (q = p) && settles c (is_some error)
  | OpRetried _ c (Some q) _ => bool_decide (q = p) && is_file c
  | OpRefused _ _ changes => existsb (fun '(q, c) => bool_decide (q = p) && is_file c) (listable changes)
  | _ => false
  end.

Lemma forget_other p q b m : bool_decide (q = p) && b = false -> forget b (Some q) m !! p = m !! p.
Proof. cbn. destruct b; [|done]. rewrite andb_true_r, bool_decide_eq_false. intros Hq. by rewrite lookup_delete_ne. Qed.

Section Held.
Context (records : bool).

Lemma list_record_live c dst error L : ls_ended L = false -> ls_ended (list_record records c dst error L) = false /\
  ls_retried (list_record records c dst error L) = forget (settles c (is_some error)) dst (ls_retried L).
Proof. intros He. unfold list_record. rewrite He. by destruct error. Qed.

Lemma list_op_keeps p op L : ls_ended L = false -> settles_path p op = false ->
  ls_ended (list_op records L op) = false /\ ls_retried (list_op records L op) !! p = ls_retried L !! p.
Proof.
  intros He Hs. destruct op as [now c dst error|now c dst error|now m changes|now]; cbn in Hs |- *; [| | |done].
  - destruct (list_record_live c dst error L He) as [-> ->]. split; [done|]. destruct dst as [q|]; [by apply forget_other|done].
  - unfold list_held. rewrite He. destruct dst as [q|]; [destruct (is_file c) eqn:Ec|].
    + split; [done|]. cbn. rewrite andb_true_r in Hs. apply bool_decide_eq_false in Hs. by rewrite lookup_insert_ne.
    + destruct (list_record_live c (Some q) (Some error) L He) as [-> ->]. split; [done|]. apply forget_other. cbn. by rewrite Ec.
    + destruct (list_record_live c None (Some error) L He) as [-> ->]. done.
  - unfold list_refused. rewrite He. split; [done|]. cbn. revert Hs. generalize (ls_retried L). induction (listable changes) as [|[q c] l IH]; intros m' Hs; [done|].
    cbn in Hs. apply orb_false_iff in Hs as [H1 H2]. cbn [foldl]. rewrite IH by done. by apply forget_other.
Qed.

Lemma list_ops_keep p ops L : ls_ended L = false -> existsb (settles_path p) ops = false ->
  ls_ended (foldl (list_op records) L ops) = false /\ ls_retried (foldl (list_op records) L ops) !! p = ls_retried L !! p.
Proof.
  revert L. induction ops as [|op ops IH]; intros L He Hs; [done|]. cbn in Hs. apply orb_false_iff in Hs as [H1 H2]. cbn [foldl].
  destruct (list_op_keeps p op L He H1) as [E1 E2]. rewrite <- E2. by apply IH.
Qed.

(** Nothing ends a listing but its finish. *)
Lemma list_ops_live ops L : ls_ended L = false -> ls_ended (foldl (list_op records) L ops) = false.
Proof.
  revert L. induction ops as [|op ops IH]; intros L He; [done|]. apply IH. destruct op as [now c dst error|now c dst error|now m changes|now]; cbn; [| | |done].
  - by apply list_record_live.
  - unfold list_held. rewrite He. destruct dst; [destruct (is_file c); [done|]|]; by apply list_record_live.
  - unfold list_refused. by rewrite He.
Qed.
End Held.

(** Listing what is held at the end only adds records. *)
Definition list_failed (L : Listing) (x : PathBytes * RetriedFailure) : Listing :=
  let '(dst, f) := x in list_record true (rf_change f) (Some dst) (Some (mkFailure (rf_message f) (rf_class f))) L.

Lemma list_failed_all l L p f : ls_ended L = false -> (p, f) ∈ l ->
  RecFailed (action (rf_change f)).1 p (action (rf_change f)).2 (rf_class f) (diagnostic_or_failed (rf_message f)) ∈ ls_records (foldl list_failed L l).
Proof.
  assert (Hmono : forall l L r, ls_ended L = false -> r ∈ ls_records L -> r ∈ ls_records (foldl list_failed L l)).
  { clear. intros l. induction l as [|[q g] l IH]; intros L r He Hr; [done|]. cbn [foldl]. unfold list_failed at 2. apply IH; [by apply list_record_live|].
    unfold list_record. rewrite He. cbn. apply elem_of_app. by left. }
  revert L. induction l as [|[q g] l IH]; intros L He Hin; [by apply not_elem_of_nil in Hin|]. cbn [foldl]. apply elem_of_cons in Hin as [[= <- <-]|Hin].
  - apply Hmono; [by apply list_record_live|]. unfold list_failed, list_record. rewrite He. cbn. apply elem_of_app. right. right. left.
  - apply IH; [by apply list_record_live|done].
Qed.

Lemma listing_held now c p error ops1 ops2 n : is_file c = true -> existsb (settles_path p) ops2 = false ->
  RecFailed (action c).1 p (action c).2 (lf_class error) (diagnostic_or_failed (lf_message error)) ∈
    ls_records (listing true (ops1 ++ OpRetried now c (Some p) error :: ops2) n).
Proof.
  intros Hc Hs. unfold listing. rewrite foldl_app. cbn [foldl]. set (L1 := foldl (list_op true) Listing_new ops1).
  assert (He : ls_ended L1 = false) by by apply list_ops_live. set (L2 := list_op true L1 _).
  assert (E2 : ls_ended L2 = false /\ ls_retried L2 !! p = Some (mkRetried c (diagnostic_or_failed (lf_message error)) (lf_class error))).
  { unfold L2. cbn. unfold list_held. rewrite He, Hc. split; [done|]. cbn. apply lookup_insert_eq. }
  destruct E2 as [E2 R2]. destruct (list_ops_keep true p ops2 L2 E2 Hs) as [E3 R3]. rewrite R2 in R3. set (L3 := foldl _ L2 ops2) in *.
  unfold list_finish. cbn [ls_records].
  pose proof (list_failed_all (retried_in_order (ls_retried L3)) (mkListing (ls_records L3) ∅ (ls_totals L3) false) p
    (mkRetried c (diagnostic_or_failed (lf_message error)) (lf_class error)) eq_refl) as Hf. cbn [rf_change rf_class rf_message] in Hf. rewrite diagnostic_again in Hf.
  assert (Ho : (p, mkRetried c (diagnostic_or_failed (lf_message error)) (lf_class error)) ∈ retried_in_order (ls_retried L3)).
  { unfold retried_in_order. rewrite merge_sort_Permutation. by apply elem_of_map_to_list. }
  specialize (Hf Ho). exact Hf.
Qed.

(** ** Theorems *)
Context `{!JsonLines}.

(** C17. A failure that a receiver held because the sender was expected to try
    the file again is in what the finished stream sends, its message unchanged,
    unless a later operation on the stream settles or replaces it: a sender that
    never retries cannot hide it. *)
Theorem unsettled_failures_are_sent policy binding key ops1 now c p error ops2 now' n last frames totals :
  send policy binding key true (ops1 ++ OpRetried now c (Some p) error :: ops2) now' n last = Ok (frames, totals) ->
  is_file c = true -> existsb (settles_path p) ops2 = false ->
  exists k body pem header groups tag, started policy binding key true k body pem header /\ sent k body pem groups totals tag frames /\
    RecFailed (action c).1 p (action c).2 (lf_class error) (diagnostic_or_failed (lf_message error)) ∈ mjoin groups.
Proof.
  intros E Hc Hs. destruct (send_sent _ _ _ _ _ _ _ _ _ _ E) as (k & body & pem & header & groups & tag & Hst & Hse & Hg & _).
  exists k, body, pem, header, groups, tag. split; [done|]. split; [done|]. rewrite Hg. by apply listing_held.
Qed.

Context `{!JsonValues} `{!ResultsCodec}.

Lemma send_agreed policy binding key records ops now n last frames totals e : send policy binding key records ops now n last = Ok (frames, totals) ->
  agreed policy binding key records e ->
  exists k body pem h groups tag, started policy binding key records k body pem h /\ verify_header e body pem = Ok k /\
    sent k body pem groups totals tag frames /\ encode_frame (FHeader body pem) = Ok h /\
    mjoin groups = ls_records (listing records ops n) /\ totals = ls_totals (listing records ops n) /\ unlisted_empty groups e.
Proof.
  intros E Ha. destruct (send_sent _ _ _ _ _ _ _ _ _ _ E) as (k & body & pem & h & groups & tag & Hst & Hse & Hg & Ht).
  exists k, body, pem, h, groups, tag. split_and!; try done; [by eapply verify_started|apply Hst|].
  intros Hx. rewrite (ag_records _ _ _ _ _ Ha) in Hx. subst records. rewrite Hg. apply listing_unlisted.
Qed.

(** C16. The header first and then the stream's other frames in any order: the
    reader accepts every one, ends with the destination's totals, and emits the
    records of the listing, in their order if the frames came in theirs. *)
Theorem listed_results_arrive emit policy binding key records ops now n last h frames arrived totals e :
  send policy binding key records ops now n last = Ok (h :: frames, totals) -> agreed policy binding key records e ->
  (forall v, emit v = Ok tt) -> lenZ frames < 2 ^ 64 -> arrived ≡ₚ frames ->
  exists r, receive emit e (h :: arrived) = (r, Ok totals) /\ totals = ls_totals (listing records ops n) /\
    rd_emitted r ≡ₚ to_value <$> ls_records (listing records ops n) /\
    (arrived = frames -> rd_emitted r = to_value <$> ls_records (listing records ops n)).
Proof.
  intros E Ha Hem Hlen Hp. destruct (send_agreed _ _ _ _ _ _ _ _ _ _ _ E Ha) as (k & body & pem & h' & groups & tag & _ & Hv & Hse & Hh & Hg & Ht & Hu).
  assert (h' = h) as -> by (pose proof (se_frames _ _ _ _ _ _ _ Hse) as Hf; rewrite Hh in Hf; by injection Hf as <-).
  pose proof (sent_items _ _ _ _ _ _ _ _ Hse) as Hi. rewrite <- Hg.
  assert (Hlen' : lenZ arrived < 2 ^ 64) by (unfold lenZ in *; by rewrite Hp).
  destruct (decide (arrived = frames)) as [->|Hne].
  - destruct (receive_items emit k body pem groups totals tag e (se_tag _ _ _ _ _ _ _ Hse) (items groups) h frames) as (r & Hr & Em & _); try done.
    exists r. split; [done|]. split; [done|]. rewrite items_indices in Em. rewrite Em, values_in_order. done.
  - assert (Hpi : Ok <$> arrived ≡ₚ (fun it => encode_frame (item_frame k groups totals tag it)) <$> items groups) by (rewrite <- Hi; by rewrite Hp).
    apply Permutation_map_inv in Hpi as (its & Hits & Hpi).
    destruct (receive_items emit k body pem groups totals tag e (se_tag _ _ _ _ _ _ _ Hse) its h arrived) as (r & Hr & Em & Hx); try done.
    exists r. split; [done|]. split; [done|]. rewrite Em. split; [|done]. rewrite <- values_in_order. by apply values_of_perm.
Qed.

(** C6. Whatever frames reach the reader, if it accepts them and their end then
    its totals are the destination's and it emitted the records of the listing,
    each once; or one of those frames is authenticated and was never sent; or
    the keyed hashes of as many sequence numbers, not each once, add up alike. *)
Theorem accepted_results_are_complete emit policy binding key records ops now n last frames totals e arrived r t :
  send policy binding key records ops now n last = Ok (frames, totals) -> agreed policy binding key records e ->
  receive emit e arrived = (r, Ok t) ->
  (t = totals /\ rd_emitted r ≡ₚ to_value <$> ls_records (listing records ops n)) \/
  exists k body pem h, started policy binding key records k body pem h /\
    ((exists b f, b ∈ arrived /\ frame_from_bytes b = Some f /\ forgery k (xp_public_key e) frames f) \/
     exists N, lenZ frames = Z.of_nat N + 2 /\ coincidence k N).
Proof.
  intros E Ha Er. destruct (send_agreed _ _ _ _ _ _ _ _ _ _ _ E Ha) as (k & body & pem & h & groups & tag & Hst & Hv & Hse & _ & Hg & _ & _).
  destruct (receive_any emit k body pem groups totals tag e frames Hse Hv arrived r t Er) as [[-> Hr]|[(b & Hb & f & Hf & Hx)|Hc]].
  - left. by rewrite <- Hg.
  - right. exists k, body, pem, h. split; [done|]. left. by exists b, f.
  - right. exists k, body, pem, h. split; [done|]. right. exists (length groups). split; [|done].
    pose proof (f_equal length (se_frames _ _ _ _ _ _ _ Hse)) as Hl. rewrite length_fmap in Hl. cbn [length] in Hl. unfold sealed in Hl.
    rewrite length_app, length_imap in Hl. cbn [length] in Hl. unfold lenZ. lia.
Qed.
End Props.
