(* ===== verification/DestSample.v ===== *)
(** * A destination and its reader, run

    A toy library whose encodings are lists with their lengths, for which every
    law of the results holds, and a copy with a file that was published and one
    whose failure was held. *)

From stdpp Require Import strings.
From S2P Require Import Prelude Text Diagnostic Proto Hashing Mapping Grant AuthData Authority AuthSettle TcpProps Directive DirectiveProps SignerProps DestResults DestSpec DestStream DestReader DestRun DestDeliver DestProps.
Local Open Scope Z_scope.

(** ** A toy encoding *)
Definition put (l : list Z) : list Z := lenZ l :: l.
Definition get (l : list Z) : option (list Z * list Z) :=
  match l with [] => None | n :: l => Some (take (Z.to_nat n) l, drop (Z.to_nat n) l) end.
Definition put_option (o : option (list Z)) : list Z := match o with None => [0] | Some l => 1 :: put l end.
Definition get_option (l : list Z) : option (option (list Z) * list Z) :=
  match l with [] => None | n :: l => if decide (n = 0) then Some (None, l) else '(x, l) ← get l; Some (Some x, l) end.

Lemma get_put l rest : get (put l ++ rest) = Some (l, rest).
Proof. cbn. unfold lenZ. by rewrite Nat2Z.id, take_app_length, drop_app_length. Qed.
Lemma get_put_option o rest : get_option (put_option o ++ rest) = Some (o, rest).
Proof. destruct o as [l|]; [|done]. change (put_option (Some l) ++ rest) with (1 :: (put l ++ rest)). cbn [get_option]. by rewrite decide_False, get_put. Qed.

Definition put_record (r : ResultRecord) : list Z :=
  match r with
  | RecSucceeded a dst kind bytes => 0 :: put a ++ put dst ++ put_option kind ++ put_option ((fun n => [n]) <$> bytes) ++ []
  | RecFailed a dst kind class message => 1 :: put a ++ put dst ++ put_option kind ++ put class ++ put message ++ []
  | RecError class message => 2 :: put class ++ put message ++ []
  end.
Definition get_record (l : list Z) : option ResultRecord :=
  match l with
  | [] => None
  | t :: l =>
      if decide (t = 0) then
        '(a, l) ← get l; '(dst, l) ← get l; '(kind, l) ← get_option l; '(bytes, _) ← get_option l; Some (RecSucceeded a dst kind (bytes ≫= head))
      else if decide (t = 1) then
        '(a, l) ← get l; '(dst, l) ← get l; '(kind, l) ← get_option l; '(class, l) ← get l; '(message, _) ← get l; Some (RecFailed a dst kind class message)
      else '(class, l) ← get l; '(message, _) ← get l; Some (RecError class message)
  end.

Ltac read_back := repeat (rewrite get_put; cbn [mbind option_bind]); repeat (rewrite get_put_option; cbn [mbind option_bind]); repeat (rewrite get_put; cbn [mbind option_bind]).

Lemma get_put_record r : get_record (put_record r) = Some r.
Proof.
  destruct r as [a dst kind bytes|a dst kind class message|class message]; cbn [put_record get_record].
  - rewrite decide_True by done. read_back. by destruct bytes.
  - rewrite decide_False, decide_True by done. by read_back.
  - rewrite decide_False, decide_False by done. by read_back.
Qed.

Definition put_header (h : HeaderBody) : list Z :=
  put (rb_enrollment_id (hb_binding h)) ++ put (rb_request_id (hb_binding h)) ++ put (rb_grant_digest (hb_binding h)) ++ put (hb_encapsulated_key h) ++
  [if hb_records h then 1 else 0].
Definition get_header (l : list Z) : option HeaderBody :=
  '(a, l) ← get l; '(b, l) ← get l; '(c, l) ← get l; '(d, l) ← get l; f ← head l; Some (mkHeader (mkResultsBinding a b c) d (bool_decide (f = 1))).
Lemma get_put_header h : get_header (put_header h) = Some h.
Proof. destruct h as [[a b c] d f]. unfold get_header, put_header. cbn [hb_binding rb_enrollment_id rb_request_id rb_grant_digest hb_encapsulated_key hb_records]. read_back. by destruct f. Qed.

Definition put_totals (t : Totals) : list Z :=
  [to_files_transferred t; to_bytes_transferred t; to_directories_created t; to_symlinks_created t; to_specials_created t; to_deletions_completed t;
   to_failed t; to_refused t].
Definition put_frame (f : Frame) : list Z :=
  match f with
  | FHeader body signature => 0 :: put body ++ put signature ++ []
  | FRecords seq payload tag => 1 :: seq :: put payload ++ put tag ++ []
  | FEnd n t tag => 2 :: n :: put tag ++ put_totals t
  end.
Definition get_frame (l : list Z) : option Frame :=
  match l with
  | 0 :: l => '(body, l) ← get l; '(signature, _) ← get l; Some (FHeader body signature)
  | 1 :: seq :: l => '(payload, l) ← get l; '(tag, _) ← get l; Some (FRecords seq payload tag)
  | 2 :: n :: l =>
      '(tag, l) ← get l;
      match l with [a; b; c; d; e; f; g; h] => Some (FEnd n (mkTotals a b c d e f g h) tag) | _ => None end
  | _ => None
  end.
Lemma get_put_frame f : get_frame (put_frame f) = Some f.
Proof. destruct f as [body signature|seq payload tag|n [] tag]; cbn [put_frame get_frame]; by read_back. Qed.

(** ** A toy library *)
(** Odd numbers only: no newline. *)
Definition odd_list (l : list Z) : list Z := (fun z => 2 * z + 1) <$> l.
Definition halves (l : list Z) : list Z := (fun z => z / 2) <$> l.
Lemma halves_odd l : halves (odd_list l) = l.
Proof.
  unfold halves, odd_list. rewrite <- list_fmap_compose. rewrite <- (list_fmap_id l) at 2. apply list_fmap_ext. intros i z _. cbn. unfold id.
  symmetry. apply (Z.div_unique (2 * z + 1) 2 z 1); lia.
Qed.

Definition toy_hash (key : list Z) : HashImpl (list Z) :=
  mkImpl (list Z) (list Z) [] (fun s b => s ++ b) (fun s => take 32 (s ++ key ++ replicate 32 0)) (fun b => take 32 (b ++ key ++ replicate 32 0)).

Definition toy_results : ResultsLib := {|
  Value := ResultRecord;
  to_value := id;
  to_writer := fun v => odd_list (put_record v);
  from_slice := fun l => get_record (halves l);
  value_type := fun v => Some (record_type v);
  from_utf8_lossy := id;
  keyed := toy_hash;
  totals_to_stdvec := fun t => Some (put_totals t);
  frame_to_stdvec := fun f => Some (put_frame f);
  frame_from_bytes := get_frame;
  header_to_stdvec := fun h => Some (put_header h);
  header_from_bytes := get_header;
  info_to_stdvec := fun b => Some (rb_request_id b);
  HpkePublic := list Z;
  public_from_bytes := Some;
  HpkePrivate := list Z;
  private_from_bytes := Some;
  HpkeEncapsulated := unit;
  encapsulated_to_bytes := fun _ => replicate 32 7;
  encapsulated_from_bytes := fun _ => Some tt;
  HpkeContext := list Z;
  setup_sender := fun public info => Some (tt, public ++ info);
  setup_receiver := fun private _ info => Some (private ++ info);
  hpke_export := fun context label => Some (take 32 (context ++ label));
  SigningKey := unit;
  signing_key_encrypted := fun _ => false;
  ResultsSig := list Z;
  results_sign := fun _ _ body => Some (take 16 body);
  results_to_pem := fun _ => Some (bs "PEM");
  results_from_pem := fun l => Some l;
  ResultsKey := list Z;
  key_from_openssh := Some;
  results_verify := fun _ _ _ _ => true
|}.
#[local] Existing Instance toy_results.

Lemma toy_json_lines : JsonLines.
Proof.
  split; [|by intros []]. intros v Hin. apply list_elem_of_fmap in Hin as (z & Hz & _). unfold newline in Hz. lia.
Qed.
Lemma toy_json_values : JsonValues.
Proof. split; [|done]. intros v. change (get_record (halves (odd_list (put_record v))) = Some v). by rewrite halves_odd, get_put_record. Qed.
Lemma toy_codec : ResultsCodec.
Proof. split; intros x b [= <-]; [apply get_put_frame|apply get_put_header]. Qed.

(** ** A copy *)
Definition sample_policy : ReceiptPolicy := mkReceipt true false 1000 1000 (AttachedEncrypted (replicate 32 5)).
Definition sample_binding : ResultsBinding := mkResultsBinding [1; 2] [3; 4] [5; 6].
Definition sample_expectation : Expectation := mkExpectation (bs "ssh-ed25519 AAAA") sample_binding (replicate 32 5) true.

Lemma sample_agreed : agreed sample_policy sample_binding tt true sample_expectation.
Proof.
  split; [done|done|..].
  - intros recipient [= <-] public info enc ctx [= <-] [= <- <-]. exists (replicate 32 5), tt, (replicate 32 5 ++ info). done.
  - exists (bs "ssh-ed25519 AAAA"). split; [done|]. intros body sig pem _ [= <-]. split; [by vm_compute|]. split; [by vm_compute|]. by exists (bs "PEM").
  - intros enc body Hl [= <-]. unfold put_header, put, lenZ. cbn. rewrite length_app. cbn. rewrite Hl. by vm_compute.
Qed.

(** One file is published; another fails, and nobody tries it again. *)
Definition full : Failure := mkFailure (bs "no room") (bs "io").
Definition sample_before : list StreamOp := [OpRecord 0 (PublishFile 5) (Some (bs "a")) None].
Definition sample_after : list StreamOp := [OpTake (10 ^ 9); OpRecord (10 ^ 9) (SetMetadata File) (Some (bs "b")) None].
Definition sample_ops : list StreamOp := sample_before ++ OpRetried 1 (PublishFile 9) (Some (bs "b")) full :: sample_after.
Definition sample_send : mres (list (list Z) * Totals) := send sample_policy sample_binding tt true sample_ops (2 * 10 ^ 9) 5 (2 * 10 ^ 9).

Definition sample_header : list Z := match sample_send with Ok (h :: _, _) => h | _ => [] end.
Definition sample_frames : list (list Z) := match sample_send with Ok (_ :: l, _) => l | _ => [] end.
Definition sample_totals : Totals := mkTotals 1 5 0 0 0 0 1 0.

Lemma sample_sent : send sample_policy sample_binding tt true sample_ops (2 * 10 ^ 9) 5 (2 * 10 ^ 9) = Ok (sample_header :: sample_frames, sample_totals).
Proof. by vm_compute. Qed.

(** Two frames of records and the end, which comes first. *)
Lemma sample_shape : length sample_frames = 3%nat /\ reverse sample_frames <> sample_frames.
Proof. split; [by vm_compute|by vm_compute]. Qed.

Definition accept_any_value (v : Value) : mres unit := Ok tt.

Lemma listed_results_arrive_witness : exists r, receive accept_any_value sample_expectation (sample_header :: reverse sample_frames) = (r, Ok sample_totals) /\
  rd_emitted r ≡ₚ to_value <$> ls_records (listing true sample_ops 5).
Proof.
  destruct (listed_results_arrive (H0 := toy_json_lines) (H1 := toy_json_values) (H2 := toy_codec) accept_any_value
    sample_policy sample_binding tt true sample_ops (2 * 10 ^ 9) 5 (2 * 10 ^ 9) sample_header sample_frames (reverse sample_frames) sample_totals sample_expectation
    sample_sent sample_agreed) as (r & Hr & _ & Hp & _).
  - reflexivity.
  - vm_compute. reflexivity.
  - apply reverse_Permutation.
  - exists r. split; [exact Hr|exact Hp].
Defined.

Definition sample_reader : Reader := (receive accept_any_value sample_expectation (sample_header :: reverse sample_frames)).1.

Lemma accepted_results_are_complete_witness :
  receive accept_any_value sample_expectation (sample_header :: reverse sample_frames) = (sample_reader, Ok sample_totals) /\
  ((sample_totals = sample_totals /\ rd_emitted sample_reader ≡ₚ to_value <$> ls_records (listing true sample_ops 5)) \/
   exists k body pem h, started sample_policy sample_binding tt true k body pem h /\
    ((exists b f, b ∈ sample_header :: reverse sample_frames /\ frame_from_bytes b = Some f /\
        forgery k (xp_public_key sample_expectation) (sample_header :: sample_frames) f) \/
     exists N, lenZ (sample_header :: sample_frames) = Z.of_nat N + 2 /\ coincidence k N)).
Proof.
  assert (E : receive accept_any_value sample_expectation (sample_header :: reverse sample_frames) = (sample_reader, Ok sample_totals)) by (vm_compute; reflexivity).
  split; [exact E|].
  exact (accepted_results_are_complete (H0 := toy_json_lines) (H1 := toy_json_values) (H2 := toy_codec) accept_any_value
    sample_policy sample_binding tt true sample_ops (2 * 10 ^ 9) 5 (2 * 10 ^ 9) (sample_header :: sample_frames) sample_totals sample_expectation
    (sample_header :: reverse sample_frames) sample_reader sample_totals sample_sent sample_agreed E).
Defined.

Lemma unsettled_failures_are_sent_witness : exists k body pem header groups tag,
  started sample_policy sample_binding tt true k body pem header /\ sent k body pem groups sample_totals tag (sample_header :: sample_frames) /\
  RecFailed (bs "transfer_file") (bs "b") (Some (bs "file")) (bs "io") (diagnostic_or_failed (bs "no room")) ∈ mjoin groups.
Proof.
  exact (unsettled_failures_are_sent (H0 := toy_json_lines) sample_policy sample_binding tt sample_before 1 (PublishFile 9) (bs "b") full sample_after
    (2 * 10 ^ 9) 5 (2 * 10 ^ 9) (sample_header :: sample_frames) sample_totals sample_sent eq_refl eq_refl).
Defined.
