(* ===== verification/Sparse.v ===== *)
(** * Sparse writes (src/src/sparse.rs)

    [write_at] writes data at an offset, leaving holes for runs of zero blocks:
    skipped in a fresh output, punched out where old bytes may be.
    - A file is its bytes; what lies past its end reads as zero once the file
      is extended, so [byte] is zero there.
    - Each call to the operating system may fail, a write or a punch after a
      part of it was done: a script says what each call does.
    - The platform is a parameter: macOS extends the file first, always punches,
      and asks the filesystem for its block; elsewhere the block is 4096.  The
      system refuses an empty hole, and macOS one that is not block-aligned. *)

From S2P Require Import Prelude Text Proto.
Local Open Scope Z_scope.

(** [OutOfFuel] is the model's own: a loop that did not end. *)
Inductive SparseError := EFBIG | IoFailed | OutOfFuel.

(** What the operating system does with the next call. *)
Inductive IoStep := Succeed | FailAfter (n : nat).

Record FileState := mkFileState { content : list Z; script : list IoStep }.

Abbreviation io := (method FileState SparseError).

Definition next_step : io IoStep := fun f =>
  match script f with
  | [] => (f, Ok Succeed)
  | s :: rest => (mkFileState (content f) rest, Ok s)
  end.

(** Bytes written at an offset, the gap before them filled with zeros. *)
Definition overwrite (off : nat) (data c : list Z) : list Z :=
  match data with
  | [] => c
  | _ => take off c ++ replicate (off - length c) 0 ++ data ++ drop (off + length data) c
  end.

Definition zero_range (off len : nat) (c : list Z) : list Z :=
  take off c ++ replicate (Nat.min len (length c - off)) 0 ++ drop (off + len) c.

Definition set_content (c : list Z) : io unit := m_modify (fun f => mkFileState c (script f)).

(** One call: its effect when it succeeds, or a part of it and an error. *)
Definition syscall (done : list Z -> list Z) (partial : nat -> list Z -> list Z) : io unit :=
  s ← next_step;
  f ← m_get;
  match s with
  | Succeed => set_content (done (content f))
  | FailAfter n => _ ← set_content (partial n (content f)); m_fail IoFailed
  end.

(** [FileExt::write_all_at]. *)
Definition write_all_at (data : list Z) (off : Z) : io unit :=
  match data with
  | [] => mret tt
  | _ => syscall (overwrite (Z.to_nat off) data) (fun n => overwrite (Z.to_nat off) (take n data))
  end.

(** [File::set_len]. *)
Definition set_len (size : Z) : io unit :=
  let size := Z.to_nat size in
  syscall (fun c => take size c ++ replicate (size - length c) 0) (fun _ c => c).

Definition all_zero (l : list Z) : bool := forallb (fun b => bool_decide (b = 0)) l.
Definition sub (start len : nat) (l : list Z) : list Z := take len (drop start l).

Section Write.
(** Whether the target is macOS, and its filesystem's block size. *)
Context (macos : bool) (f_bsize : Z).

Definition block_size : io Z :=
  if macos then _ ← syscall id (fun _ => id); mret (Z.max f_bsize 1) else mret 4096.

(** The holes the system accepts. *)
Definition hole_accepted (off len : Z) : bool :=
  bool_decide (0 < len) &&
  (negb macos || bool_decide (off mod Z.max f_bsize 1 = 0 /\ len mod Z.max f_bsize 1 = 0)).

Definition punch (off len : Z) : io unit :=
  _ ← m_ensure (bool_decide (off <= i64_max)) EFBIG;
  _ ← m_ensure (bool_decide (len <= i64_max)) EFBIG;
  _ ← m_ensure (hole_accepted off len) IoFailed;
  syscall (zero_range (Z.to_nat off) (Z.to_nat len))
          (fun n => zero_range (Z.to_nat off) (Nat.min n (Z.to_nat len))).

(** The inner loop: how far the run of zero blocks extends. *)
Fixpoint hole_end (fuel : nat) (block : Z) (clear_existing : bool) (data : list Z) (cursor : nat)
  : result SparseError nat :=
  if decide (length data <= cursor)%nat then Ok cursor else
    match fuel with
    | O => Err OutOfFuel
    | S fuel =>
        let len := Z.to_nat (Z.min block (Z.of_nat (length data - cursor))) in
        if (clear_existing && bool_decide (Z.of_nat len <> block)) || negb (all_zero (sub cursor len data))
        then Ok cursor
        else hole_end fuel block clear_existing data (cursor + len)
    end.

(** The outer loop; it returns [written]. *)
Fixpoint write_loop (fuel : nat) (block : Z) (clear_existing : bool) (data : list Z) (offset : Z)
    (cursor written : nat) : io nat :=
  if decide (length data <= cursor)%nat then mret written else
    match fuel with
    | O => m_fail OutOfFuel
    | S fuel =>
        let absolute := offset + Z.of_nat cursor in
        let len := Z.to_nat (Z.min (block - absolute mod block) (Z.of_nat (length data - cursor))) in
        let hole := (negb clear_existing ||
                     bool_decide (absolute mod block = 0 /\ Z.of_nat len = block)) &&
                    all_zero (sub cursor len data) in
        if negb hole then write_loop fuel block clear_existing data offset (cursor + len) written
        else
          _ ← write_all_at (sub written (cursor - written) data) (offset + Z.of_nat written);
          cursor' ← m_lift (hole_end (length data) block clear_existing data (cursor + len));
          _ ← (if clear_existing
               then punch (offset + Z.of_nat cursor) (Z.of_nat (cursor' - cursor)) else mret tt);
          write_loop fuel block clear_existing data offset cursor' cursor'
    end.

(** macOS reads the metadata and establishes the end of the file. *)
Definition establish_eof (end_ : Z) : io unit :=
  if macos then
    _ ← syscall id (fun _ => id);
    f ← m_get;
    if decide (Z.of_nat (length (content f)) < end_) then set_len end_ else mret tt
  else mret tt.

Definition write_at (data : list Z) (offset : Z) (clear_existing : bool) : io unit :=
  let end_ := offset + Z.of_nat (length data) in
  if decide (i64_max < end_) then m_fail EFBIG else
    _ ← establish_eof end_;
    let clear_existing := clear_existing || macos in
    block ← block_size;
    written ← write_loop (length data) block clear_existing data offset 0 0;
    write_all_at (drop written data) (offset + Z.of_nat written).
End Write.
