(* ===== verification/SparseProps.v ===== *)
(** * Sparse writes preserve bytes

    A sparse write ends; it changes nothing outside the range it was given,
    even when it fails; when it succeeds the range reads as the data; and it
    fails only where the operating system does, never for asking for a hole the
    system would refuse. *)

From S2P Require Import Prelude Text Proto Sparse.
Local Open Scope Z_scope.

(** ** Reading bytes *)
Definition byte (c : list Z) (i : nat) : Z := default 0 (c !! i).

Lemma byte_app l l' i : byte (l ++ l') i = if decide (i < length l)%nat then byte l i else byte l' (i - length l).
Proof. unfold byte. case_decide; [by rewrite lookup_app_l|rewrite lookup_app_r by lia; done]. Qed.

Lemma byte_take n c i : byte (take n c) i = if decide (i < n)%nat then byte c i else 0.
Proof. unfold byte. case_decide; [by rewrite lookup_take_lt|by rewrite lookup_take_ge by lia]. Qed.

Lemma byte_drop n c i : byte (drop n c) i = byte c (n + i).
Proof. unfold byte. by rewrite lookup_drop. Qed.

Lemma byte_zeros n i : byte (replicate n 0) i = 0.
Proof.
  unfold byte. destruct (decide (i < n)%nat); [by rewrite lookup_replicate_2|].
  by rewrite lookup_ge_None_2 by (rewrite length_replicate; lia).
Qed.

Lemma byte_past c i : (length c <= i)%nat -> byte c i = 0.
Proof. intros. unfold byte. by rewrite lookup_ge_None_2. Qed.

Ltac bytes := repeat first [rewrite byte_app | rewrite byte_take | rewrite byte_drop | rewrite byte_zeros
                          | rewrite length_app | rewrite length_take | rewrite length_drop | rewrite length_replicate];
  repeat case_decide; try lia; try done; try (symmetry; rewrite byte_past by lia; done);
  try (rewrite byte_past by lia; done); try (rewrite !byte_past by lia; done); try (f_equal; lia).

Lemma byte_overwrite off data c i :
  byte (overwrite off data c) i = if decide (off <= i < off + length data)%nat then byte data (i - off) else byte c i.
Proof. unfold overwrite. destruct data as [|b data']; [cbn; by case_decide; [lia|]|]. set (data := b :: data'). bytes. Qed.

Lemma byte_zero_range off len c i :
  byte (zero_range off len c) i = if decide (off <= i < off + len)%nat then 0 else byte c i.
Proof. unfold zero_range. destruct (decide (i < length c)%nat); bytes. Qed.

Lemma byte_extended size c i : (length c <= size)%nat -> byte (take size c ++ replicate (size - length c) 0) i = byte c i.
Proof. intros. bytes. Qed.

Lemma overwrite_length off data c : (off <= length c \/ data <> [])%nat ->
  length (overwrite off data c) = Nat.max (length c) (if data then 0 else off + length data).
Proof.
  intros H. unfold overwrite. destruct data as [|b data']; [lia|]. set (data := b :: data').
  rewrite !length_app, length_take, length_replicate, length_drop. lia.
Qed.

Lemma zero_range_length off len c : length (zero_range off len c) = length c.
Proof. unfold zero_range. rewrite !length_app, length_take, length_replicate, length_drop. lia. Qed.

Lemma byte_sub start len l i : byte (sub start len l) i = if decide (i < len)%nat then byte l (start + i) else 0.
Proof. unfold sub. by rewrite byte_take, byte_drop. Qed.

Lemma all_zero_byte l i : all_zero l = true -> byte l i = 0.
Proof.
  unfold all_zero, byte. intros H.
  destruct (l !! i) as [b|] eqn:E; [|done]. cbn. apply list_elem_of_lookup_2 in E.
  rewrite forallb_forall in H. apply list_elem_of_In in E. apply H in E. by apply bool_decide_eq_true in E.
Qed.

(** ** Specifications of steps *)
Definition spec {A} (m : io A) (f : FileState) (Q : FileState -> result SparseError A -> Prop) : Prop :=
  Q (m f).1 (m f).2.

Lemma spec_bind {A B} (m : io A) (k : A -> io B) f Q :
  spec m f (fun f' r => match r with Ok a => spec (k a) f' Q | Err e => Q f' (Err e) end) -> spec (m ≫= k) f Q.
Proof. unfold spec. unfold mbind, method_bind. destruct (m f) as [f' [a|e]]; done. Qed.

Lemma spec_mono {A} (m : io A) f (P Q : FileState -> result SparseError A -> Prop) :
  (forall f' r, P f' r -> Q f' r) -> spec m f P -> spec m f Q.
Proof. unfold spec. auto. Qed.

Lemma spec_syscall done partial f (Q : FileState -> result SparseError unit -> Prop) :
  (forall rest, (script f = [] -> rest = []) -> Q (mkFileState (done (content f)) rest) (Ok tt)) ->
  (forall n rest, script f <> [] -> Q (mkFileState (partial n (content f)) rest) (Err IoFailed)) ->
  spec (syscall done partial) f Q.
Proof.
  intros H1 H2. destruct f as [c [|[|n] l]]; unfold spec; cbn; [apply (H1 []); done|apply H1; done|apply H2; done].
Qed.

Section SparseWrite.
Context (macos : bool) (f_bsize : Z) (data : list Z) (offset : Z) (clear : bool) (f0 : FileState).
Hypothesis Hoff : 0 <= offset.
Hypothesis Hend : offset + Z.of_nat (length data) <= i64_max.
Abbreviation off := (Z.to_nat offset).
Abbreviation n := (length data).

(** A byte is the data's, or a zero of the data skipped over an old byte,
    which only happens where old bytes need not be cleared. *)
Definition written (f : FileState) (i : nat) : Prop :=
  byte (content f) (off + i) = byte data i \/
  clear = false /\ byte data i = 0 /\ byte (content f) (off + i) = byte (content f0) (off + i).

(** What holds of the file at any time. *)
Record kept (f : FileState) : Prop := {
  ke_outside i : (i < off \/ off + n <= i)%nat -> byte (content f) i = byte (content f0) i;
  ke_length : (length (content f0) <= length (content f) <= Nat.max (length (content f0)) (off + n))%nat
}.

(** What holds when the first [w] bytes are final. *)
Record final (w : nat) (f : FileState) : Prop := {
  fi_kept : kept f;
  fi_rest i : (w <= i)%nat -> byte (content f) (off + i) = byte (content f0) (off + i);
  fi_data i : (i < w)%nat -> written f i;
  fi_script : script f0 = [] -> script f = []
}.

Definition ends {A} (good : A -> FileState -> Prop) (f : FileState) (r : result SparseError A) : Prop :=
  match r with
  | Ok a => good a f
  | Err e => e = IoFailed /\ script f0 <> [] /\ kept f
  end.

Lemma ends_bind {A B} (m : io A) (k : A -> io B) f (P : A -> FileState -> Prop) (Q : B -> FileState -> Prop) :
  spec m f (ends P) -> (forall a f', P a f' -> spec (k a) f' (ends Q)) -> spec (m ≫= k) f (ends Q).
Proof.
  intros Hm Hk. apply spec_bind. eapply spec_mono; [|exact Hm]. intros f' [a|e]; cbn; auto.
Qed.

Lemma write_final w k f : (w + k <= n)%nat -> final w f ->
  spec (write_all_at (sub w k data) (offset + Z.of_nat w)) f (ends (fun _ => final (w + k))).
Proof.
  intros Hk [[Ho Hl] Hr Hd Hs]. assert (El : length (sub w k data) = k) by (unfold sub; rewrite length_take, length_drop; lia).
  unfold write_all_at. destruct (sub w k data) as [|b l] eqn:E.
  { cbn in El. subst k. rewrite Nat.add_0_r. unfold spec; cbn. by split. }
  rewrite <- E in *. clear E b l. replace (Z.to_nat (offset + Z.of_nat w)) with (off + w)%nat by lia.
  assert (G : forall m, (m <= k)%nat -> forall rest, kept (mkFileState (overwrite (off + w) (take m (sub w k data)) (content f)) rest)).
  { intros m Hm rest. split; cbn.
    - intros i Hi. rewrite byte_overwrite, length_take, El. case_decide; [lia|]. by apply Ho.
    - destruct m; [done|]. rewrite overwrite_length by (right; destruct (sub w k data); cbn in *; [lia|done]).
      rewrite length_take, El. destruct (take _ _); lia. }
  apply spec_syscall.
  - intros rest Hrest. unfold ends. split; cbn.
    + rewrite <- (firstn_all (sub w k data)). apply G. lia.
    + intros i Hi. rewrite byte_overwrite, El. case_decide; [lia|]. apply Hr. lia.
    + intros i Hi. unfold written. cbn. rewrite byte_overwrite, El. case_decide.
      * left. rewrite byte_sub. case_decide; [|lia]. f_equal. lia.
      * apply Hd. lia.
    + auto.
  - intros m rest Hne. unfold ends. split; [done|]. split; [auto|].
    replace (take m (sub w k data)) with (take (Nat.min m k) (sub w k data)); [apply G; lia|].
    destruct (decide (m <= k)%nat); [by rewrite Nat.min_l|by rewrite !take_ge by lia].
Qed.

Lemma zero_final c c' f : (c <= c' <= n)%nat -> (forall i, (c <= i < c')%nat -> byte data i = 0) -> final c f ->
  hole_accepted macos f_bsize (offset + Z.of_nat c) (Z.of_nat (c' - c)) = true ->
  spec (punch macos f_bsize (offset + Z.of_nat c) (Z.of_nat (c' - c))) f (ends (fun _ => final c')).
Proof.
  intros Hc Hz [[Ho Hl] Hr Hd Hs] Ha. unfold punch. rewrite Ha, !bool_decide_eq_true_2 by lia.
  cbv [m_ensure require m_lift]. do 3 (apply spec_bind; unfold spec; cbn [fst snd]; fold @spec).
  replace (Z.to_nat (offset + Z.of_nat c)) with (off + c)%nat by lia. rewrite Nat2Z.id. apply spec_syscall.
  - intros rest Hrest. split; cbn; [split|..]; cbn.
    + intros i Hi. rewrite byte_zero_range. case_decide; [lia|]. by apply Ho.
    + by rewrite zero_range_length.
    + intros i Hi. rewrite byte_zero_range. case_decide; [lia|]. apply Hr. lia.
    + intros i Hi. unfold written. cbn. rewrite byte_zero_range.
      case_decide; [left; symmetry; apply Hz; lia|]. apply Hd. lia.
    + auto.
  - intros m rest Hne. unfold ends. split; [done|]. split; [auto|]. split; cbn.
    + intros i Hi. rewrite byte_zero_range. case_decide; [lia|]. by apply Ho.
    + by rewrite zero_range_length.
Qed.

Lemma skip_final c c' f : clear = false -> (c <= c' <= n)%nat -> (forall i, (c <= i < c')%nat -> byte data i = 0) ->
  final c f -> final c' f.
Proof.
  intros Hcl Hc Hz [Hk Hr Hd Hs]. split; [done| |intros i Hi|done].
  - intros i Hi. apply Hr. lia.
  - destruct (decide (i < c)%nat); [by apply Hd|]. right. split_and!; [done|apply Hz; lia|apply Hr; lia].
Qed.

Section Block.
Context (block : Z).
Hypothesis Hblock : 1 <= block.
Hypothesis Hmac : macos = true -> clear = true /\ block = Z.max f_bsize 1.

Lemma sub_zero c len i : all_zero (sub c len data) = true -> (c <= i < c + len)%nat -> byte data i = 0.
Proof.
  intros H Hi. pose proof (all_zero_byte _ (i - c) H) as E. rewrite byte_sub in E. case_decide; [|lia].
  by replace (c + (i - c))%nat with i in E by lia.
Qed.

Lemma hole_end_spec fuel c : (c <= n)%nat -> (n - c <= fuel)%nat ->
  exists c', hole_end fuel block clear data c = Ok c' /\ (c <= c' <= n)%nat /\
    (forall i, (c <= i < c')%nat -> byte data i = 0) /\ (clear = true -> Z.of_nat (c' - c) mod block = 0).
Proof.
  revert c. induction fuel as [|fuel IH]; intros c Hc Hf; cbn [hole_end]; (case_decide as D; [|try lia]).
  1,2: exists c; rewrite Nat.sub_diag, Zmod_0_l; split_and!; [done|lia|lia|intros; lia|done].
  destruct (_ || _) eqn:E.
  { exists c. rewrite Nat.sub_diag, Zmod_0_l. split_and!; [done|lia|lia|intros; lia|done]. }
  apply orb_false_iff in E as [E1 E2%negb_false_iff]. set (len := Z.to_nat _) in *.
  destruct (IH (c + len)%nat) as (c' & Ec & Hc' & Hz & Hm); [lia..|]. exists c'. split_and!; [done|lia|lia| |].
  - intros i Hi. destruct (decide (i < c + len)%nat); [apply (sub_zero c len); [done|lia]|apply Hz; lia].
  - intros Hcl. rewrite Hcl in E1. cbn [andb] in E1. apply bool_decide_eq_false in E1. apply dec_stable in E1.
    specialize (Hm Hcl). replace (Z.of_nat (c' - c)) with (block + Z.of_nat (c' - (c + len))) by lia.
    rewrite Z.add_mod, Hm, Z_mod_same_full by lia. done.
Qed.

Lemma write_loop_spec fuel c w f : (w <= c <= n)%nat -> (n - c <= fuel)%nat -> final w f ->
  spec (write_loop macos f_bsize fuel block clear data offset c w) f (ends (fun w' f' => (w' <= n)%nat /\ final w' f')).
Proof.
  revert c w f. induction fuel as [|fuel IH]; intros c w f Hw Hf Hfin; cbn [write_loop]; (case_decide as D; [|try lia]).
  1,2: unfold spec; cbn; split; [lia|done].
  pose proof (Z.mod_pos_bound (offset + Z.of_nat c) block ltac:(lia)).
  set (len := Z.to_nat _). assert (Hlen : (1 <= len <= n - c)%nat) by lia.
  destruct (_ && _) eqn:E; cbn [negb]; cycle 1.
  { apply IH; [lia|lia|done]. }
  apply andb_true_iff in E as [E1 E2].
  destruct (hole_end_spec n (c + len)) as (c' & Ec & Hc' & Hz & Hm); [lia..|].
  assert (Hzero : forall i, (c <= i < c')%nat -> byte data i = 0).
  { intros i Hi. destruct (decide (i < c + len)%nat); [apply (sub_zero c len); [done|lia]|apply Hz; lia]. }
  eapply ends_bind; [apply write_final; [|exact Hfin]; lia|]. intros ? f1 H1. cbn beta in H1.
  replace (w + (c - w))%nat with c in H1 by lia.
  apply spec_bind. unfold m_lift at 1, spec at 1. cbn [fst snd]. rewrite Ec.
  eapply (ends_bind _ _ _ (fun _ => final c')); [|intros ? f2 H2; apply IH; [lia|lia|done]].
  destruct clear eqn:Hcl.
  - apply zero_final; [lia|done|done|]. cbn [negb orb] in E1. apply bool_decide_eq_true in E1 as [Ea El].
    unfold hole_accepted. rewrite bool_decide_eq_true_2 by lia. destruct macos; cbn; [|done].
    destruct (Hmac eq_refl) as [_ <-]. apply bool_decide_eq_true_2. split; [done|].
    replace (Z.of_nat (c' - c)) with (block + Z.of_nat (c' - (c + len))) by lia.
    rewrite Z.add_mod, (Hm eq_refl), Z_mod_same_full by lia. done.
  - unfold spec. cbn. eapply skip_final; [done| |done|done]. lia.
Qed.
End Block.
End SparseWrite.

Section Calls.
Context (macos : bool) (f_bsize : Z) (data : list Z) (offset : Z) (clear : bool) (f0 : FileState).
Hypothesis Hoff : 0 <= offset.
Abbreviation final0 := (final data offset clear f0).
Abbreviation ends0 := (ends data offset f0).

Lemma final_start f : content f = content f0 -> (script f0 = [] -> script f = []) -> final0 0 f.
Proof.
  intros E Hs. split; [split; [by rewrite E|rewrite E; lia]|by intros; rewrite E|intros; lia|done].
Qed.

(** A call that only asks. *)
Lemma ask_spec f : final0 0 f -> spec (syscall id (fun _ => id)) f (ends0 (fun _ f' => final0 0 f')).
Proof.
  intros [Hk Hr Hd Hs]. apply spec_syscall.
  - intros rest Hrest. destruct Hk. split; [by split|done|done|]. cbn. auto.
  - intros m rest Hne. split; [done|]. split; [auto|]. by destruct Hk.
Qed.

Lemma establish_eof_spec f : final0 0 f ->
  spec (establish_eof macos (offset + Z.of_nat (length data))) f (ends0 (fun _ f' => final0 0 f')).
Proof.
  intros Hf. unfold establish_eof. destruct macos; [|done]. eapply ends_bind; [by apply ask_spec|].
  intros ? f1 [[Ho Hl] Hr Hd Hs]. apply spec_bind. unfold m_get, spec at 1. cbn [fst snd].
  case_decide as D; [|unfold spec; cbn; by split; [split|..]]. unfold set_len.
  replace (Z.to_nat (offset + Z.of_nat (length data))) with (Z.to_nat offset + length data)%nat by lia.
  apply spec_syscall.
  - intros rest Hrest. split; cbn.
    + split; cbn; [intros i Hi; rewrite byte_extended by lia; by apply Ho|].
      rewrite length_app, length_take, length_replicate. lia.
    + intros i Hi. rewrite byte_extended by lia. by apply Hr.
    + intros; lia.
    + auto.
  - intros m rest Hne. split; [done|]. split; [auto|]. by split.
Qed.

Lemma block_size_spec f : final0 0 f ->
  spec (block_size macos f_bsize) f
    (ends0 (fun b f' => (1 <= b /\ (macos = true -> b = Z.max f_bsize 1)) /\ final0 0 f')).
Proof.
  intros Hf. unfold block_size. destruct macos; [|unfold spec; cbn; split; [lia|done]].
  eapply ends_bind; [by apply ask_spec|]. intros ? f1 Hf1. unfold spec. cbn. split; [lia|done].
Qed.
End Calls.

(** C32. A sparse write always ends.  It refuses exactly a range past the largest
    file offset, before touching the file, and otherwise fails only where a
    call to the operating system was made to fail: every hole it asks for is
    one the system accepts, on macOS block-aligned.  No byte outside the range
    ever changes, also on failure, and the file neither shrinks nor grows past
    the range.  On success, where the caller asks for old bytes to be cleared
    or on macOS, every byte of the range reads as the data's, holes included;
    otherwise that holds of every byte but a zero of the data skipped over an
    old byte, which keeps its old value, so of the whole range when it held
    zeros.  Bytes past the end of the file read as zeros: trailing zeros of
    the data need not grow the file, and whoever needs the length sets it. *)
Theorem sparse_write_preserves_bytes macos f_bsize data offset clear f : 0 <= offset ->
  let '(f', r) := write_at macos f_bsize data offset clear f in
  let range i := (Z.to_nat offset <= i < Z.to_nat offset + length data)%nat in
  (forall i, ~ range i -> byte (content f') i = byte (content f) i) /\
  (length (content f) <= length (content f') <= Nat.max (length (content f)) (Z.to_nat offset + length data))%nat /\
  match r with
  | Ok _ =>
      offset + Z.of_nat (length data) <= i64_max /\
      forall i, range i ->
        byte (content f') i = byte data (i - Z.to_nat offset) \/
        clear || macos = false /\ byte data (i - Z.to_nat offset) = 0 /\ byte (content f') i = byte (content f) i
  | Err EFBIG => i64_max < offset + Z.of_nat (length data) /\ f' = f
  | Err IoFailed => offset + Z.of_nat (length data) <= i64_max /\ script f <> []
  | Err OutOfFuel => False
  end.
Proof.
  intros Hoff. destruct (write_at _ _ _ _ _ _) as [f' r] eqn:E. cbv zeta.
  destruct (decide (i64_max < offset + Z.of_nat (length data))) as [D|D].
  { unfold write_at in E. rewrite decide_True in E by done. injection E as <- <-. split_and!; [done|lia|lia|done|done]. }
  assert (H : spec (write_at macos f_bsize data offset clear) f
                (ends data offset f (fun _ => final data offset (clear || macos) f (length data)))).
  { unfold write_at. rewrite decide_False by done.
    eapply ends_bind; [by apply (establish_eof_spec _ _ _ (clear || macos)); [|by apply final_start]|].
    intros ? f1 H1. eapply ends_bind; [by apply (block_size_spec _ _ _ _ (clear || macos))|].
    intros b f2 [[Hb Hm] H2].
    eapply ends_bind; [apply write_loop_spec; [done|lia|done| |lia|lia|exact H2]|].
    { intros ->. split; [apply orb_true_r|auto]. }
    intros w f3 [Hw H3]. replace (drop w data) with (sub w (length data - w) data)
      by (unfold sub; by rewrite take_ge by (rewrite length_drop; lia)).
    pose proof (write_final data offset (clear || macos) f Hoff w (length data - w) f3 ltac:(lia) H3) as G.
    by replace (w + (length data - w))%nat with (length data) in G by lia. }
  unfold spec in H. rewrite E in H. cbn [fst snd] in H.
  assert (K : kept data offset f f' /\ match r with Ok _ => final data offset (clear || macos) f (length data) f'
                                      | Err e => e = IoFailed /\ script f <> [] end).
  { destruct r; cbn in H; [split; [apply H|done]|split; [apply H|split; apply H]]. }
  destruct K as [[Ho Hl] K]. split_and!; [intros i Hi; apply Ho; lia|lia|lia|].
  destruct r as [u|e]; [|destruct K as [-> K]; split; [lia|done]]. split; [lia|]. intros i Hi.
  pose proof (fi_data _ _ _ _ _ _ K (i - Z.to_nat offset)%nat ltac:(lia)) as W. unfold written in W.
  by replace (Z.to_nat offset + (i - Z.to_nat offset))%nat with i in W by lia.
Qed.

(** Blocks of four bytes: data, a hole punched over old bytes, and data. *)
Lemma sparse_write_preserves_bytes_witness :
  exists f', write_at true 4 [7; 7; 0; 0; 0; 0; 9] 2 false (mkFileState [1; 2; 3; 4; 5; 6; 7; 8] []) = (f', Ok tt) /\
  0 <= 2 /\ byte (content f') 1 = 2 /\ byte (content f') 3 = 7 /\ byte (content f') 5 = 0 /\ byte (content f') 8 = 9.
Proof.
  pose proof (sparse_write_preserves_bytes true 4 [7; 7; 0; 0; 0; 0; 9] 2 false
    (mkFileState [1; 2; 3; 4; 5; 6; 7; 8] []) ltac:(done)) as H.
  destruct (write_at _ _ _ _ _ _) as [f' r] eqn:E. assert (r = Ok tt) as -> by (vm_compute in E; by injection E).
  destruct H as (Ho & _ & _ & Hd). exists f'. split; [done|]. split; [done|].
  split; [rewrite Ho by lia; done|].
  split_and!.
  - destruct (Hd 3%nat) as [->|[? _]]; [cbn; lia|done|done].
  - destruct (Hd 5%nat) as [->|[? _]]; [cbn; lia|done|done].
  - destruct (Hd 8%nat) as [->|[? _]]; [cbn; lia|done|done].
Defined.
