(* ===== verification/WorkBudget.v ===== *)
(** * Work budgets (src/src/transfer/work_budget.rs)

    Each worker sizes its next requests from how long the last ones took.
    - A [Duration] and an [Instant] are nanoseconds; a duration saturates at its
      largest value.  Instants stay far from the end of the clock.
    - [clamp] with crossed bounds and [next_power_of_two] past the word are
      panics, [None]. *)

From S2P Require Import Prelude.
Local Open Scope Z_scope.

(** ** Durations *)
Definition from_secs (n : Z) : Z := n * 1000000000.
Definition from_millis (n : Z) : Z := n * 1000000.
Definition from_micros (n : Z) : Z := n * 1000.
Definition duration_max : Z := u64_max * 1000000000 + 999999999.
Definition duration_saturating_mul (d n : Z) : Z := Z.min duration_max (d * n).
Definition saturating_duration_since (now start : Z) : Z := Z.max 0 (now - start).

Definition DEFAULT_PIPELINE_DEPTH : Z := 4.

(** ** Machine words *)
Definition usize_max : Z := u64_max.
Definition saturating_mul_u128 (a b : Z) : Z := Z.min u128_max (a * b).
Definition clamp (x lo hi : Z) : option Z := if decide (lo <= hi) then Some (Z.max lo (Z.min x hi)) else None.
Definition next_power_of_two (x : Z) : option Z :=
  let p := if decide (x <= 1) then 1 else 2 ^ Z.log2_up x in if decide (p <= u64_max) then Some p else None.

Record WorkSize := mkWorkSize { bytes : Z; files : Z }.
#[export] Instance WorkSize_eq_dec : EqDecision WorkSize.
Proof. solve_decision. Defined.

Definition UNLIMITED : WorkSize := mkWorkSize u64_max usize_max.

Record WorkBudget := mkWorkBudget {
  limit : WorkSize;
  max_bytes : Z;
  target : Z;
  recheck_latency : bool;
  ever_slow : bool;
  next_latency_check : Z;
  earliest_latency_check : Z;
  limit_at_check : WorkSize
}.

Definition default_budget (now : Z) : WorkBudget :=
  mkWorkBudget (mkWorkSize (Z.shiftl 64 10) 64) (Z.shiftl 1 20) (from_millis 250) false false
    (now + from_secs 30) (now + from_secs 2) (mkWorkSize (Z.shiftl 64 10) 64).

Definition ranges (now max_bytes target : Z) (starting_bytes : option Z) : WorkBudget :=
  let limit := mkWorkSize (Z.min (Z.max (default (Z.shiftl 1 20) starting_bytes) 512) max_bytes) 0 in
  let d := default_budget now in
  mkWorkBudget limit max_bytes target (recheck_latency d) (ever_slow d) (next_latency_check d)
    (earliest_latency_check d) limit.

Definition request_bytes (b : WorkBudget) : option Z :=
  p ← next_power_of_two (Z.max (bytes (limit b)) 512); Some (Z.min p (max_bytes b)).

Definition set_target (t : Z) (b : WorkBudget) : WorkBudget :=
  mkWorkBudget (limit b) (max_bytes b) t (recheck_latency b) (ever_slow b) (next_latency_check b)
    (earliest_latency_check b) (limit_at_check b).

Definition set_latency (round_trip : Z) (b : WorkBudget) : WorkBudget :=
  set_target (Z.max (from_millis 250) (duration_saturating_mul round_trip DEFAULT_PIPELINE_DEPTH)) b.

Definition latency_target (b : WorkBudget) : Z := target b.

Definition shrunk (b : WorkBudget) : bool :=
  bool_decide (saturating_mul (bytes (limit b)) 2 < bytes (limit_at_check b)) ||
  bool_decide (saturating_mul (files (limit b)) 2 < files (limit_at_check b)).

Definition latency_check_due (now : Z) (b : WorkBudget) : bool :=
  (bool_decide (next_latency_check b <= now) &&
   (recheck_latency b || bool_decide (from_millis 250 < target b))) ||
  (bool_decide (earliest_latency_check b <= now) && recheck_latency b && shrunk b).

Definition range_latency_check_due (now : Z) (b : WorkBudget) : option bool :=
  below ← (if ever_slow b then Some true else r ← request_bytes b; Some (bool_decide (r < max_bytes b)));
  Some (below && latency_check_due now b).

Definition refreshed_latency (round_trip now : Z) (b : WorkBudget) : WorkBudget :=
  let previous := target b in
  let periodic := bool_decide (next_latency_check b <= now) in
  let b := set_latency round_trip b in
  let b := if negb periodic then set_target (Z.max (target b) previous) b else b in
  let interval := Z.min (Z.max (from_secs 30) (duration_saturating_mul round_trip 32)) (from_secs 300) in
  mkWorkBudget (limit b) (max_bytes b) (target b) false (ever_slow b) (now + interval)
    (now + Z.min (Z.max (from_secs 2) (duration_saturating_mul round_trip 8)) (from_secs 300)) (limit b).

Definition overdue (now : Z) (oldest : option Z) (b : WorkBudget) : bool :=
  match oldest with
  | Some start => bool_decide (duration_saturating_mul (target b) 2 < saturating_duration_since now start)
  | None => false
  end.

(** The function inside [observe]; times are [as_nanos]. *)
Definition resized (current amount elapsed target : Z) : option Z :=
  if decide (amount = 0) then Some current else
    let measured := if decide (target < elapsed) then Z.max amount current else amount in
    estimate ← clamp (saturating_mul_u128 measured target / elapsed) 1 (saturating_mul current 4);
    Some (if decide (elapsed <= target) then Z.max estimate current else Z.min estimate current).

Definition observe (work : WorkSize) (elapsed : Z) (b : WorkBudget) : option WorkBudget :=
  let recheck := recheck_latency b || bool_decide (target b < elapsed) in
  let slow := ever_slow b || recheck in
  let elapsed := Z.max elapsed (from_micros 1) in
  new_bytes ← resized (bytes (limit b)) (bytes work) elapsed (target b);
  new_files ← resized (files (limit b)) (files work) elapsed (target b);
  Some (mkWorkBudget (mkWorkSize (Z.min new_bytes (max_bytes b)) (Z.min new_files 2048)) (max_bytes b) (target b)
          recheck slow (next_latency_check b) (earliest_latency_check b) (limit_at_check b)).

(** ** Bounds *)

(** A budget that can size a request: what every budget stays. *)
Record budget_ok (b : WorkBudget) : Prop := {
  bo_max : 1 <= max_bytes b <= 2 ^ 63;
  bo_bytes : 1 <= bytes (limit b) <= max_bytes b;
  bo_files : 0 <= files (limit b) <= 2048;
  bo_target : from_millis 250 <= target b <= duration_max
}.

(** What workers do with a budget. *)
Inductive BudgetOp :=
| Observe (work : WorkSize) (elapsed : Z)
| SetLatency (round_trip : Z)
| Refreshed (round_trip now : Z).

(** A budget for ranges counts no files. *)
Definition op_ok (counts_files : bool) (op : BudgetOp) : Prop :=
  match op with
  | Observe work elapsed =>
      0 <= bytes work <= u64_max /\ 0 <= files work <= u64_max /\ 0 <= elapsed <= duration_max /\
      (counts_files = false -> files work = 0)
  | SetLatency rt | Refreshed rt _ => 0 <= rt <= duration_max
  end.

Definition apply_op (b : WorkBudget) (op : BudgetOp) : option WorkBudget :=
  match op with
  | Observe work elapsed => observe work elapsed b
  | SetLatency rt => Some (set_latency rt b)
  | Refreshed rt now => Some (refreshed_latency rt now b)
  end.

Fixpoint run_ops (b : WorkBudget) (ops : list BudgetOp) : option WorkBudget :=
  match ops with [] => Some b | op :: ops => b ← apply_op b op; run_ops b ops end.

Lemma resized_Some current amount elapsed target :
  1 <= current <= u64_max -> 0 <= amount <= u64_max -> 1 <= elapsed -> 0 <= target ->
  exists r, resized current amount elapsed target = Some r /\ 1 <= r <= 4 * current /\
    (elapsed <= target -> current <= r) /\ (target < elapsed -> r <= current) /\
    (target < elapsed -> 0 < amount <= current -> r <= Z.max 1 (current * target / elapsed)).
Proof.
  intros Hc Ha He Ht. unfold resized. case_decide; [exists current; split; [done|lia]|].
  unfold clamp, saturating_mul, saturating_mul_u128, u64_max, u128_max in *. rewrite decide_True by lia. cbn [mbind option_bind].
  eexists. split; [done|]. set (measured := if decide (target < elapsed) then _ else _).
  split; [|split; [|split]]; [case_decide; lia|intros; case_decide; lia|intros; case_decide; lia|].
  intros Hlate Hm. rewrite decide_False by lia.
  assert (measured = current) as -> by (subst measured; rewrite decide_True by lia; lia).
  assert (Z.min (2 ^ 128 - 1) (current * target) / elapsed <= current * target / elapsed).
  { apply Z.div_le_mono; lia. }
  lia.
Qed.

Lemma resized_zero elapsed target : resized 0 0 elapsed target = Some 0.
Proof. done. Qed.

Lemma observe_Some b work elapsed : budget_ok b -> 0 <= bytes work <= u64_max -> 0 <= files work <= u64_max ->
  0 <= elapsed -> (files (limit b) = 0 -> files work = 0) ->
  exists b', observe work elapsed b = Some b' /\ budget_ok b' /\ target b' = target b /\ max_bytes b' = max_bytes b /\
    (files (limit b) = 0 <-> files (limit b') = 0).
Proof.
  intros [H1 H2 H3 H4] Hb Hf He H0. unfold observe. unfold from_millis, from_micros, u64_max in *.
  assert (Ht : 250 * 1000000 <= target b <= duration_max) by done.
  destruct (resized_Some (bytes (limit b)) (bytes work) (Z.max elapsed (1 * 1000)) (target b)) as (r & -> & Hr & _);
    [unfold u64_max; lia..|]. cbn [mbind option_bind].
  destruct (decide (files (limit b) = 0)) as [E|E].
  - rewrite E, (H0 E), resized_zero. cbn. eexists. split; [done|]. split_and!; [split; cbn -[duration_max from_millis]; done || lia|done|done|cbn; lia..].
  - destruct (resized_Some (files (limit b)) (files work) (Z.max elapsed (1 * 1000)) (target b)) as (q & -> & Hq & _);
      [unfold u64_max; lia..|]. cbn. eexists. split; [done|]. split_and!; [split; cbn -[duration_max from_millis]; done || lia|done|done|cbn; lia..].
Qed.

Lemma set_latency_ok rt b : budget_ok b -> 0 <= rt -> budget_ok (set_latency rt b).
Proof.
  intros [H1 H2 H3 H4] Hr. split; cbn; try done. unfold duration_saturating_mul, from_millis, duration_max, u64_max. lia.
Qed.

Lemma refreshed_ok rt now b : budget_ok b -> 0 <= rt -> budget_ok (refreshed_latency rt now b).
Proof.
  intros Hb Hr. pose proof (set_latency_ok rt b Hb Hr) as [H1 H2 H3 H4]. destruct Hb as [G1 G2 G3 G4].
  unfold refreshed_latency. case_bool_decide; cbn [negb]; split; cbn in *; lia.
Qed.

Lemma run_ops_ok ops b : budget_ok b -> Forall (op_ok (negb (bool_decide (files (limit b) = 0)))) ops ->
  exists b', run_ops b ops = Some b' /\ budget_ok b' /\ max_bytes b' = max_bytes b.
Proof.
  revert b. induction ops as [|op ops IH]; intros b Hb; [by exists b|]. intros [Ho Hops]%Forall_cons. cbn [run_ops].
  assert (exists b1, apply_op b op = Some b1 /\ budget_ok b1 /\ max_bytes b1 = max_bytes b /\
            (files (limit b) = 0 <-> files (limit b1) = 0)) as (b1 & E & Hb1 & Em & Hf).
  { destruct op as [work e|rt|rt now]; cbn in Ho |- *.
    - destruct Ho as (Hw1 & Hw2 & He & H0).
      destruct (observe_Some b work e Hb Hw1 Hw2 (proj1 He)) as (b1 & E & Hb1 & _ & Em & Hf); [|by exists b1].
      intros E. apply H0. by rewrite bool_decide_eq_true_2.
    - eexists. split; [done|]. split_and!; [apply set_latency_ok; [done|lia]|done..].
    - eexists. split; [done|]. split; [apply refreshed_ok; [done|lia]|]. unfold refreshed_latency. by destruct (bool_decide (next_latency_check b <= now)). }
  rewrite E. cbn. destruct (IH b1 Hb1) as (b2 & E2 & Hb2 & Em2); [|exists b2; rewrite E2, Em2; by split_and!].
  rewrite (bool_decide_ext _ (files (limit b) = 0)) by (by symmetry). done.
Qed.

Lemma default_ok now : budget_ok (default_budget now).
Proof. by split. Qed.

Lemma ranges_ok now m t s : 1 <= m <= 2 ^ 63 -> from_millis 250 <= t <= duration_max -> from_option (fun x => 0 <= x) True s ->
  budget_ok (ranges now m t s).
Proof. intros Hm Ht Hs. split; cbn -[from_millis duration_max]; [lia| |lia|lia]. destruct s; cbn in *; lia. Qed.

Lemma next_power_of_two_Some x : 1 <= x <= 2 ^ 63 ->
  exists p k, next_power_of_two x = Some p /\ p = 2 ^ k /\ 0 <= k /\ x <= p < 2 * x.
Proof.
  intros Hx. unfold next_power_of_two. destruct (decide (x <= 1)) as [D|D].
  - exists 1, 0. rewrite decide_True by (unfold u64_max; lia). split_and!; done || lia.
  - pose proof (Z.log2_up_spec x ltac:(lia)) as [Hlo Hhi]. pose proof (Z.log2_up_nonneg x).
    assert (Hk : Z.log2_up x = Z.succ (Z.pred (Z.log2_up x))) by lia.
    assert (0 < Z.log2_up x) by (apply Z.log2_up_pos; lia).
    assert (E : 2 ^ Z.log2_up x = 2 * 2 ^ Z.pred (Z.log2_up x)) by (rewrite Hk at 1; apply Z.pow_succ_r; lia).
    rewrite decide_True by (unfold u64_max; lia). exists (2 ^ Z.log2_up x), (Z.log2_up x). split_and!; done || lia.
Qed.

Lemma request_bytes_Some b : budget_ok b ->
  exists r, request_bytes b = Some r /\ Z.min 512 (max_bytes b) <= r <= max_bytes b /\ bytes (limit b) <= r /\
    r < 2 * Z.max (bytes (limit b)) 512 /\ (r = max_bytes b \/ exists k, 0 <= k /\ r = 2 ^ k).
Proof.
  intros [H1 H2 _ _]. unfold request_bytes.
  destruct (next_power_of_two_Some (Z.max (bytes (limit b)) 512)) as (p & k & -> & Hp & Hk & Hb); [lia|]. cbn.
  eexists. split; [done|]. split_and!; [lia..|]. destruct (decide (p <= max_bytes b)); [right; exists k; lia|left; lia].
Qed.

(** C37. A budget for small files, and one for ranges with a ceiling from one to
    2^63 bytes, a latency target of at least 250 ms and no files ever reported to
    it, never panics and stays usable under any reports of work done, time taken
    and latency: a byte limit from one to the ceiling, at most 2048 files, a
    target of at least 250 ms.  The request it asks for is between 512 bytes, or
    the ceiling when that is smaller, and the ceiling; it is the ceiling itself
    or a power of two, at least the limit and less than double the larger of it
    and 512 bytes. *)
Theorem work_budget_stays_bounded b ops now :
  (exists max_bytes target starting, b = ranges now max_bytes target starting /\ 1 <= max_bytes <= 2 ^ 63 /\
     from_millis 250 <= target <= duration_max /\ from_option (fun x => 0 <= x) True starting /\ Forall (op_ok false) ops) \/
  (b = default_budget now /\ Forall (op_ok true) ops) ->
  exists b' r, run_ops b ops = Some b' /\ budget_ok b' /\ max_bytes b' = max_bytes b /\
    request_bytes b' = Some r /\ Z.min 512 (max_bytes b) <= r <= max_bytes b /\ bytes (limit b') <= r /\
    r < 2 * Z.max (bytes (limit b')) 512 /\ (r = max_bytes b \/ exists k, 0 <= k /\ r = 2 ^ k).
Proof.
  intros Hb. assert (H : exists b', run_ops b ops = Some b' /\ budget_ok b' /\ max_bytes b' = max_bytes b).
  { destruct Hb as [(m & t & s & -> & Hm & Ht & Hs & Ho)|[-> Ho]]; (apply run_ops_ok; [|done]);
      [by apply ranges_ok|apply default_ok]. }
  destruct H as (b' & E & Hok & Em). destruct (request_bytes_Some b' Hok) as (r & Er & Hr). rewrite Em in Hr.
  by exists b', r.
Qed.

Lemma work_budget_stays_bounded_witness :
  let ops := [Observe (mkWorkSize 65536 64) (from_millis 10); Refreshed (from_millis 100) 5; Observe (mkWorkSize 4096 3) (from_secs 9)] in
  Forall (op_ok true) ops /\
  exists b' r, run_ops (default_budget 0) ops = Some b' /\ request_bytes b' = Some r /\ r <= Z.shiftl 1 20.
Proof.
  cbv zeta. assert (Ho : Forall (op_ok true) [Observe (mkWorkSize 65536 64) (from_millis 10); Refreshed (from_millis 100) 5;
    Observe (mkWorkSize 4096 3) (from_secs 9)]) by (repeat constructor; vm_compute; done).
  split; [done|]. destruct (work_budget_stays_bounded (default_budget 0) _ 0 (or_intror (conj eq_refl Ho)))
    as (b' & r & E & _ & _ & Er & Hr & _). exists b', r. split_and!; [done|done|apply Hr].
Defined.

(** How a budget reacts to one observation.  On time, no limit shrinks and
    none grows more than fourfold; late, no limit grows, and a group no larger
    than the limit cuts it in proportion to the delay (to at least one byte);
    a late reply asks for a new latency measurement, which the budget
    remembers. *)
Theorem work_budget_reacts b work elapsed : budget_ok b -> 0 <= bytes work <= u64_max ->
  files (limit b) = 0 /\ files work = 0 \/ 1 <= files (limit b) /\ 0 <= files work <= u64_max -> 0 <= elapsed ->
  exists b', observe work elapsed b = Some b' /\
    let late := target b < elapsed in
    (late -> recheck_latency b' = true /\ ever_slow b' = true) /\
    (~ late -> bytes (limit b) <= bytes (limit b') <= 4 * bytes (limit b) /\
               files (limit b) <= files (limit b') <= 4 * files (limit b)) /\
    (late -> bytes (limit b') <= bytes (limit b) /\ files (limit b') <= files (limit b) /\
             (0 < bytes work <= bytes (limit b) ->
              bytes (limit b') <= Z.max 1 (bytes (limit b) * target b / elapsed))).
Proof.
  intros [H1 H2 H3 H4] Hw Hf He. unfold observe. unfold from_micros.
  assert (Ht : 250000000 <= target b) by (apply H4).
  assert (Hu : 2 ^ 63 <= u64_max) by (unfold u64_max; lia).
  destruct (resized_Some (bytes (limit b)) (bytes work) (Z.max elapsed (1 * 1000)) (target b)) as (r & -> & R1 & R2 & R3 & R4); [lia..|].
  cbn [mbind option_bind].
  assert (exists q, resized (files (limit b)) (files work) (Z.max elapsed (1 * 1000)) (target b) = Some q /\
            0 <= q <= 4 * files (limit b) /\ (Z.max elapsed (1 * 1000) <= target b -> files (limit b) <= q) /\
            (target b < Z.max elapsed (1 * 1000) -> q <= files (limit b))) as (q & -> & Q1 & Q2 & Q3).
  { destruct Hf as [[E ->]|Hf]; [exists 0; rewrite E; split; [done|lia]|].
    destruct (resized_Some (files (limit b)) (files work) (Z.max elapsed (1 * 1000)) (target b)) as (q & Eq & Q1 & Q2 & Q3 & _);
      [lia..|]. exists q. split; [done|]. split_and!; [lia|lia|done..]. }
  cbn [mbind option_bind]. eexists. split; [done|]. cbn. split_and!.
  - intros Hl. rewrite bool_decide_eq_true_2 by done. by rewrite !orb_true_r.
  - lia.
  - intros Hl. split_and!; [lia|lia|]. intros Hb. replace elapsed with (Z.max elapsed 1000) by lia.
    etransitivity; [apply Z.le_min_l|]. apply R4; [lia|done].
Qed.

Lemma work_budget_reacts_witness :
  budget_ok (default_budget 0) /\
  exists b', observe (mkWorkSize 65536 64) (from_secs 1) (default_budget 0) = Some b' /\
    bytes (limit b') <= 65536 * from_millis 250 / from_secs 1 /\ ever_slow b' = true.
Proof.
  assert (Hb : budget_ok (default_budget 0)) by (by split). split; [done|].
  destruct (work_budget_reacts (default_budget 0) (mkWorkSize 65536 64) (from_secs 1) Hb) as (b' & E & Hs & _ & Hl);
    [by vm_compute|right; by vm_compute|by vm_compute|].
  exists b'. split; [done|]. specialize (Hs ltac:(by vm_compute)). specialize (Hl ltac:(by vm_compute)).
  destruct Hl as (_ & _ & Hl). specialize (Hl ltac:(by vm_compute)). split; [|apply Hs].
  by vm_compute in Hl.
Defined.
