(* ===== verification/WireBudget.v ===== *)
(** * Memory accounting for decoded messages (src/src/wire_budget.rs)

    Connections share two allowances: one for decoded collections ([Budget],
    charged through a message's [Hold]) and one for what decompression adds
    ([ExpansionBudget], charged through [Expansion]s that a message may keep).
    - The shared counters and every live [Hold] and [Expansion] form one state;
      threads interleave one locked section or atomic update at a time.
    - Waiting on the condition variable is a step that changes nothing: the
      waiter evaluates its condition again later.
    - Unchecked arithmetic panics; [fetch_sub] wraps.  [usize] has 64 bits. *)

From S2P Require Import Prelude.
Local Open Scope Z_scope.

Definition MEMORY_LIMIT : Z := Z.shiftl 512 20.
Definition RESERVATION_GRANULE : Z := Z.shiftl 64 10.
Definition EXPANSION_LIMIT : Z := Z.shiftl 1 30.

(** ** The expansion allowance *)
Record ExpansionBudget := mkExpansionBudget { eb_used : Z; eb_limit : Z }.
Definition with_limit (limit : Z) : ExpansionBudget := mkExpansionBudget 0 limit.

(** What one evaluation of [reserve]'s loop does, [closed] being what the
    connection answers. *)
Inductive Reservation := Waiting | Aborted | Granted (b : ExpansionBudget) (bytes : Z).

Definition reserve (bytes : Z) (closed : bool) (b : ExpansionBudget) : option Reservation :=
  if bool_decide (0 < eb_used b) && bool_decide (eb_limit b < saturating_add (eb_used b) bytes) then
    Some (if closed then Aborted else Waiting)
  else used ← u64_add (eb_used b) bytes; Some (Granted (mkExpansionBudget used (eb_limit b)) bytes).

Definition shrink_to (held bytes : Z) (b : ExpansionBudget) : option (ExpansionBudget * Z) :=
  if decide (bytes < held) then
    freed ← u64_sub held bytes;
    used ← u64_sub (eb_used b) freed;
    Some (mkExpansionBudget used (eb_limit b), bytes)
  else Some (b, held).

Definition drop_expansion (held : Z) (b : ExpansionBudget) : option ExpansionBudget :=
  if decide (0 < held) then used ← u64_sub (eb_used b) held; Some (mkExpansionBudget used (eb_limit b)) else Some b.

(** ** The collection allowance *)
Record Budget := mkBudget { bu_used : Z; bu_limit : Z }.

Record Hold := mkHold { h_used : Z; h_reserved : Z; h_exhausted : bool; h_expansion : option Z }.
Definition Hold_new : Hold := mkHold 0 0 false None.

Definition checked_add (a b : Z) : option Z := if decide (a + b <= u64_max) then Some (a + b) else None.

(** [fetch_update] with the closure of [try_grow]. *)
Definition take_extra (extra : Z) (b : Budget) : option Budget :=
  total ← checked_add (bu_used b) extra;
  if decide (total <= bu_limit b) then Some (mkBudget total (bu_limit b)) else None.

(** The outer option is a panic, the inner one the [exhausted] error. *)
Definition try_grow (bytes : Z) (h : Hold) (b : Budget) : option (option (Hold * Budget)) :=
  match checked_add (h_used h) bytes with
  | None => Some None
  | Some used =>
      if decide (h_reserved h < used) then
        match checked_add used (RESERVATION_GRANULE - 1) with
        | None => Some None
        | Some rounded =>
            let wanted := rounded / RESERVATION_GRANULE * RESERVATION_GRANULE in
            extra ← u64_sub wanted (h_reserved h);
            Some ('b ← take_extra extra b; Some (mkHold used wanted (h_exhausted h) (h_expansion h), b))
        end
      else Some (Some (mkHold used (h_reserved h) (h_exhausted h) (h_expansion h), b))
  end.

(** The hold afterwards, the budget, and whether the bytes were granted. *)
Definition grow (bytes : Z) (h : Hold) (b : Budget) : option (Hold * Budget * bool) :=
  r ← try_grow bytes h b;
  Some match r with
       | Some (h, b) => (h, b, true)
       | None => (mkHold (h_used h) (h_reserved h) true (h_expansion h), b, false)
       end.

(** [Drop for Hold], before its fields are dropped. *)
Definition release_reserved (h : Hold) (b : Budget) : Budget :=
  mkBudget ((bu_used b - h_reserved h) mod 2 ^ 64) (bu_limit b).

(** ** All connections together *)
Record Memory := mkMemory {
  m_expansion : ExpansionBudget;
  m_budget : Budget;
  m_loose : gmap nat Z;
  m_holds : gmap nat Hold
}.

Definition Memory_new : Memory := mkMemory (with_limit EXPANSION_LIMIT) (mkBudget 0 MEMORY_LIMIT) ∅ ∅.

Inductive MemOp :=
| Reserve (e : nat) (bytes : Z) (closed : bool)
| ShrinkTo (e : nat) (bytes : Z)
| DropExpansion (e : nat)
| NewHold (h : nat)
| Keep (h e : nat)
| ReleaseExpansion (h : nat)
| Grow (h : nat) (bytes : Z)
| DropHold (h : nat).

(** [NotLive]: the operation names an object that does not exist (or, for one
    that creates an object, a name in use), which ownership rules out. *)
Inductive Outcome := Panic | NotLive | Done (m : Memory).

Definition or_panic (o : option Memory) : Outcome := match o with Some m => Done m | None => Panic end.

Definition drop_kept (held : option Z) (b : ExpansionBudget) : option ExpansionBudget :=
  match held with Some n => drop_expansion n b | None => Some b end.

Definition mem_step (m : Memory) (op : MemOp) : Outcome :=
  match op with
  | Reserve e bytes closed =>
      match m_loose m !! e with
      | Some _ => NotLive
      | None =>
          or_panic (r ← reserve bytes closed (m_expansion m);
                    Some match r with
                         | Granted b n => mkMemory b (m_budget m) (<[e := n]> (m_loose m)) (m_holds m)
                         | Waiting | Aborted => m
                         end)
      end
  | ShrinkTo e bytes =>
      match m_loose m !! e with
      | None => NotLive
      | Some held =>
          or_panic ('(b, n) ← shrink_to held bytes (m_expansion m);
                    Some (mkMemory b (m_budget m) (<[e := n]> (m_loose m)) (m_holds m)))
      end
  | DropExpansion e =>
      match m_loose m !! e with
      | None => NotLive
      | Some held =>
          or_panic (b ← drop_expansion held (m_expansion m);
                    Some (mkMemory b (m_budget m) (delete e (m_loose m)) (m_holds m)))
      end
  | NewHold h =>
      match m_holds m !! h with
      | Some _ => NotLive
      | None => Done (mkMemory (m_expansion m) (m_budget m) (m_loose m) (<[h := Hold_new]> (m_holds m)))
      end
  | Keep h e =>
      match m_holds m !! h, m_loose m !! e with
      | Some hold, Some n =>
          or_panic (b ← drop_kept (h_expansion hold) (m_expansion m);
                    Some (mkMemory b (m_budget m) (delete e (m_loose m))
                            (<[h := mkHold (h_used hold) (h_reserved hold) (h_exhausted hold) (Some n)]> (m_holds m))))
      | _, _ => NotLive
      end
  | ReleaseExpansion h =>
      match m_holds m !! h with
      | None => NotLive
      | Some hold =>
          or_panic (b ← drop_kept (h_expansion hold) (m_expansion m);
                    Some (mkMemory b (m_budget m) (m_loose m)
                            (<[h := mkHold (h_used hold) (h_reserved hold) (h_exhausted hold) None]> (m_holds m))))
      end
  | Grow h bytes =>
      match m_holds m !! h with
      | None => NotLive
      | Some hold =>
          or_panic ('(hold, b, _) ← grow bytes hold (m_budget m);
                    Some (mkMemory (m_expansion m) b (m_loose m) (<[h := hold]> (m_holds m))))
      end
  | DropHold h =>
      match m_holds m !! h with
      | None => NotLive
      | Some hold =>
          or_panic (b ← drop_kept (h_expansion hold) (m_expansion m);
                    Some (mkMemory b (release_reserved hold (m_budget m)) (m_loose m) (delete h (m_holds m))))
      end
  end.

Definition op_in_range (op : MemOp) : Prop :=
  match op with
  | Reserve _ n _ | ShrinkTo _ n | Grow _ n => 0 <= n <= u64_max
  | _ => True
  end.

(** Any interleaving of the threads' operations. *)
Inductive mem_reachable : Memory -> Prop :=
| mr_new : mem_reachable Memory_new
| mr_step m op m' : mem_reachable m -> op_in_range op -> mem_step m op = Done m' -> mem_reachable m'.
