(* ===== verification/WireProps.v ===== *)
(** * The memory allowances hold

    Under any interleaving: nothing panics, both counters are the sums over the
    live objects, the collection allowance is never exceeded, and the
    decompression allowance only by one reservation that is then alone. *)

From S2P Require Import Prelude WireBudget.
Local Open Scope Z_scope.

(** ** Values of a map as a multiset *)
Definition values {A} (m : gmap nat A) : list A := (map_to_list m).*2.

Lemma values_new {A} (m : gmap nat A) k v : m !! k = None -> values (<[k := v]> m) ≡ₚ v :: values m.
Proof. intros H. unfold values. by rewrite map_to_list_insert. Qed.

Lemma values_delete {A} (m : gmap nat A) k v : m !! k = Some v -> values m ≡ₚ v :: values (delete k m).
Proof. intros H. unfold values. by rewrite <- (map_to_list_delete m k v H). Qed.

Lemma values_update {A} (m : gmap nat A) k v : values (<[k := v]> m) ≡ₚ v :: values (delete k m).
Proof. rewrite <- insert_delete_eq. apply values_new, lookup_delete_eq. Qed.

Lemma values_elem {A} (m : gmap nat A) k v : m !! k = Some v -> v ∈ values m.
Proof. intros H. rewrite (values_delete m k v H). by left. Qed.

(** ** A set of reservations against one limit *)
Record charged (limit : Z) (l : list Z) (used : Z) : Prop := {
  ch_used : used = sumZ l;
  ch_nonneg x : x ∈ l -> 0 <= x;
  ch_bound : used <= limit \/ used ∈ l
}.

#[export] Instance charged_proper limit : Proper ((≡ₚ) ==> (=) ==> iff) (charged limit).
Proof.
  enough (H : forall l l' u, l ≡ₚ l' -> charged limit l u -> charged limit l' u).
  { intros l l' HP u ? <-. split; apply H; [done|by symmetry]. }
  intros l l' u HP [H1 H2 H3]. split; [by rewrite <- HP|intros x; rewrite <- HP; apply H2|by rewrite <- HP].
Qed.

Lemma charged_le limit x l used : charged limit (x :: l) used -> 0 <= x <= used.
Proof.
  intros [-> H _]. rewrite sumZ_cons. pose proof (H x ltac:(set_solver)).
  pose proof (sumZ_nonneg l ltac:(set_solver)). lia.
Qed.

Lemma sumZ_elem x l : (forall y, y ∈ l -> 0 <= y) -> x ∈ l -> x <= sumZ l.
Proof.
  intros H. induction l as [|y l IH]; [set_solver|]. rewrite sumZ_cons.
  pose proof (sumZ_nonneg l ltac:(set_solver)). pose proof (H y ltac:(set_solver)).
  intros [->|Hx]%elem_of_cons; [lia|]. pose proof (IH ltac:(set_solver) Hx). lia.
Qed.

Lemma sumZ_zero l : (forall y, y ∈ l -> 0 <= y) -> Forall (.= 0) l <-> sumZ l = 0.
Proof.
  intros H. split.
  - induction 1 as [|x l' -> _ IH]; [done|]. rewrite sumZ_cons, IH by set_solver. done.
  - intros E. apply Forall_forall. intros x Hx. pose proof (sumZ_elem x l H Hx). specialize (H x Hx). lia.
Qed.

Lemma charged_replace limit x x' l used : charged limit (x :: l) used -> 0 <= x' <= x ->
  charged limit (x' :: l) (used - (x - x')).
Proof.
  intros [Hu Hn Hb] Hx. rewrite sumZ_cons in Hu. split.
  - rewrite sumZ_cons. lia.
  - intros y [->|Hy]%elem_of_cons; [lia|]. apply Hn. by right.
  - destruct Hb as [Hb|Hb]; [left; lia|]. apply elem_of_cons in Hb as [Hb|Hb]; [right; apply elem_of_cons; left; lia|].
    right. pose proof (sumZ_elem used l ltac:(set_solver) Hb). replace (used - (x - x')) with used by lia. by right.
Qed.

Lemma charged_remove limit x l used : 0 <= limit -> charged limit (x :: l) used -> charged limit l (used - x).
Proof.
  intros Hl Hc. destruct (charged_replace limit x 0 l used Hc) as [Hu Hn Hb]; [pose proof (charged_le _ _ _ _ Hc); lia|].
  rewrite sumZ_cons in Hu. replace (used - x) with (used - (x - 0)) by lia. split; [lia|set_solver|].
  destruct Hb as [Hb|Hb]; [by left|]. apply elem_of_cons in Hb as [->|Hb]; [by left|by right].
Qed.

Lemma charged_grant limit x l used : charged limit l used -> 0 <= x -> used = 0 \/ used + x <= limit ->
  charged limit (x :: l) (used + x).
Proof.
  intros [-> Hn _] Hx Hb. split; [rewrite sumZ_cons; lia| |].
  - intros y [->|Hy]%elem_of_cons; [done|by apply Hn].
  - destruct Hb as [Hb|Hb]; [right; apply elem_of_cons; left; lia|by left].
Qed.

(** ** The invariant *)
Definition expansions (m : Memory) : list Z := values (m_loose m) ++ omap h_expansion (values (m_holds m)).

(** What a hold reserves: its bytes in whole granules. *)
Definition hold_ok (h : Hold) : Prop :=
  0 <= h_used h /\ h_reserved h mod RESERVATION_GRANULE = 0 /\
  h_used h <= h_reserved h < h_used h + RESERVATION_GRANULE.

Record mem_ok (m : Memory) : Prop := {
  mo_elimit : eb_limit (m_expansion m) = EXPANSION_LIMIT;
  mo_blimit : bu_limit (m_budget m) = MEMORY_LIMIT;
  mo_expansion : charged EXPANSION_LIMIT (expansions m) (eb_used (m_expansion m));
  mo_budget : bu_used (m_budget m) = sumZ (h_reserved <$> values (m_holds m));
  mo_bound : bu_used (m_budget m) <= MEMORY_LIMIT;
  mo_holds k h : m_holds m !! k = Some h -> hold_ok h
}.

Lemma reserved_bounds m k h : mem_ok m -> m_holds m !! k = Some h ->
  0 <= h_reserved h <= bu_used (m_budget m).
Proof.
  intros H Hk. destruct (mo_holds m H k h Hk) as (H0 & _ & H1). split; [lia|]. rewrite (mo_budget m H).
  apply sumZ_elem; [|by apply list_elem_of_fmap_2, (values_elem _ k)].
  intros y (h' & -> & Hh)%list_elem_of_fmap. unfold values in Hh. apply list_elem_of_fmap in Hh as ([k' h''] & -> & Hh).
  apply elem_of_map_to_list in Hh. destruct (mo_holds m H _ _ Hh) as (? & _ & ?). cbn in *. lia.
Qed.

Lemma budget_of m k h : mem_ok m -> m_holds m !! k = Some h ->
  bu_used (m_budget m) = h_reserved h + sumZ (h_reserved <$> values (delete k (m_holds m))).
Proof. intros H Hk. rewrite (mo_budget m H), (values_delete _ _ _ Hk). done. Qed.

Lemma drop_expansion_charged x l b : eb_limit b = EXPANSION_LIMIT -> charged EXPANSION_LIMIT (x :: l) (eb_used b) ->
  exists b', drop_expansion x b = Some b' /\ eb_limit b' = EXPANSION_LIMIT /\ charged EXPANSION_LIMIT l (eb_used b').
Proof.
  intros El Hc. pose proof (charged_le _ _ _ _ Hc). apply charged_remove in Hc; [|done]. unfold drop_expansion, u64_sub.
  case_decide; [rewrite decide_True by lia; by eexists|]. exists b. replace (eb_used b) with (eb_used b - x) by lia. done.
Qed.

Lemma drop_kept_charged o l b : eb_limit b = EXPANSION_LIMIT -> charged EXPANSION_LIMIT (option_list o ++ l) (eb_used b) ->
  exists b', drop_kept o b = Some b' /\ eb_limit b' = EXPANSION_LIMIT /\ charged EXPANSION_LIMIT l (eb_used b').
Proof. intros El Hc. destruct o as [x|]; [by apply drop_expansion_charged|by exists b]. Qed.

(** The reservations, one hold's apart. *)
Lemma expansions_hold m k h : m_holds m !! k = Some h ->
  expansions m ≡ₚ option_list (h_expansion h) ++ values (m_loose m) ++ omap h_expansion (values (delete k (m_holds m))).
Proof.
  intros Hk. unfold expansions. rewrite (values_delete _ _ _ Hk). cbn [omap list_omap].
  destruct (h_expansion h); cbn; [|done]. by rewrite Permutation_middle.
Qed.

(** ** Growing a hold *)
Definition granules (x : Z) : Z := (x + (RESERVATION_GRANULE - 1)) / RESERVATION_GRANULE * RESERVATION_GRANULE.

Lemma granules_spec x : granules x mod RESERVATION_GRANULE = 0 /\ x <= granules x < x + RESERVATION_GRANULE.
Proof.
  unfold granules. split; [apply Z_mod_mult|]. unfold RESERVATION_GRANULE. change (Z.shiftl 64 10) with 65536.
  pose proof (Z.div_mod (x + (65536 - 1)) 65536 ltac:(lia)). pose proof (Z.mod_pos_bound (x + (65536 - 1)) 65536 ltac:(lia)). lia.
Qed.

Lemma granules_least x r : r mod RESERVATION_GRANULE = 0 -> x <= r -> granules x <= r.
Proof.
  intros Hr Hx. destruct (granules_spec x) as [Hm Hb]. unfold RESERVATION_GRANULE in *. change (Z.shiftl 64 10) with 65536 in *.
  apply Z.mod_divide in Hr as [q ->], Hm as [q' E]; [|lia..]. rewrite E in *. nia.
Qed.

Lemma granules_unique x r : r mod RESERVATION_GRANULE = 0 -> x <= r < x + RESERVATION_GRANULE -> r = granules x.
Proof.
  intros Hr Hx. destruct (granules_spec x) as [Hm Hb]. unfold RESERVATION_GRANULE in *. change (Z.shiftl 64 10) with 65536 in *.
  apply Z.mod_divide in Hr as [q ->], Hm as [q' E]; [|lia..]. rewrite E in *. nia.
Qed.

Lemma grow_false n h b h' b' : grow n h b = Some (h', b', false) ->
  h' = mkHold (h_used h) (h_reserved h) true (h_expansion h).
Proof. unfold grow. destruct (try_grow n h b) as [[[]|]|]; cbn; [done| |done]. by intros [= <- <-]. Qed.

(** All or nothing: what growing a hold by some bytes does. *)
Record grown (bytes : Z) (h : Hold) (b : Budget) (h' : Hold) (b' : Budget) (ok : bool) : Prop := {
  gr_hold : hold_ok h';
  gr_expansion : h_expansion h' = h_expansion h;
  gr_limit : bu_limit b' = MEMORY_LIMIT;
  gr_charge : bu_used b' = bu_used b + (h_reserved h' - h_reserved h);
  gr_bound : bu_used b' <= MEMORY_LIMIT;
  gr_fits : ok = true <-> bu_used b - h_reserved h + granules (h_used h + bytes) <= MEMORY_LIMIT;
  gr_result : if ok then h_used h' = h_used h + bytes /\ h_exhausted h' = h_exhausted h
              else b' = b /\ h_used h' = h_used h /\ h_exhausted h' = true
}.

Section Grow.
Context (bytes : Z) (h : Hold) (b : Budget).
Hypothesis (Hh : hold_ok h) (Hb : 0 <= bytes) (El : bu_limit b = MEMORY_LIMIT).
Hypothesis Hu : h_reserved h <= bu_used b <= MEMORY_LIMIT.

Lemma grown_fail : MEMORY_LIMIT < bu_used b - h_reserved h + granules (h_used h + bytes) ->
  grown bytes h b (mkHold (h_used h) (h_reserved h) true (h_expansion h)) b false.
Proof. intros Hlt. split; cbn; try done; try lia. Qed.

Lemma grown_ok r t : r mod RESERVATION_GRANULE = 0 ->
  h_used h + bytes <= r < h_used h + bytes + RESERVATION_GRANULE -> t = bu_used b + (r - h_reserved h) -> t <= MEMORY_LIMIT ->
  grown bytes h b (mkHold (h_used h + bytes) r (h_exhausted h) (h_expansion h)) (mkBudget t MEMORY_LIMIT) true.
Proof.
  intros Hrm Hrb Et Ht. destruct Hh as (H0 & _). split; cbn; try done.
  - split_and!; try done; cbn; lia.
  - split; [intros _|done]. pose proof (granules_least (h_used h + bytes) r Hrm ltac:(lia)). lia.
Qed.

Lemma grow_spec : exists h' b' ok, grow bytes h b = Some (h', b', ok) /\ grown bytes h b h' b' ok.
Proof.
  pose proof Hh as (H0 & Hm & Hr). destruct (granules_spec (h_used h + bytes)) as [Gm Gb].
  assert (HM : MEMORY_LIMIT + RESERVATION_GRANULE <= u64_max) by (vm_compute; done).
  assert (HG : 0 < RESERVATION_GRANULE) by (vm_compute; done).
  assert (Hfail : MEMORY_LIMIT < bu_used b - h_reserved h + granules (h_used h + bytes) -> grow bytes h b =
    Some (mkHold (h_used h) (h_reserved h) true (h_expansion h), b, false) ->
    exists h' b' ok, grow bytes h b = Some (h', b', ok) /\ grown bytes h b h' b' ok).
  { intros Hlt E. eexists _, _, _. split; [exact E|by apply grown_fail]. }
  unfold grow, try_grow, checked_add in *. destruct (decide (h_used h + bytes <= u64_max)); [|apply Hfail; [lia|done]].
  destruct (decide (h_reserved h < h_used h + bytes)); cycle 1.
  { eexists _, (mkBudget (bu_used b) MEMORY_LIMIT), _. split; [by rewrite <- El; destruct b|].
    apply grown_ok; [done|lia|lia|lia]. }
  destruct (decide (h_used h + bytes + (RESERVATION_GRANULE - 1) <= u64_max)); [|apply Hfail; [lia|done]].
  fold (granules (h_used h + bytes)) in *. unfold u64_sub in *. rewrite decide_True in * by lia. cbn [mbind option_bind] in *.
  unfold take_extra, checked_add in *.
  destruct (decide (bu_used b + (granules (h_used h + bytes) - h_reserved h) <= u64_max)); cbn [mbind option_bind] in *;
    [|apply Hfail; [lia|done]].
  rewrite El in *. case_decide; [|apply Hfail; [lia|done]].
  eexists _, _, _. split; [done|]. apply grown_ok; [done|lia|lia|lia].
Qed.
End Grow.

(** ** Every step keeps the invariant *)
Definition keeps (o : Outcome) : Prop := match o with Panic => False | NotLive => True | Done m => mem_ok m end.

Section Steps.
Context (m : Memory).
Hypothesis Hm : mem_ok m.

(** Steps that touch only the reservations. *)
Lemma with_expansion b loose : eb_limit b = EXPANSION_LIMIT ->
  charged EXPANSION_LIMIT (values loose ++ omap h_expansion (values (m_holds m))) (eb_used b) ->
  mem_ok (mkMemory b (m_budget m) loose (m_holds m)).
Proof. intros El Hc. destruct Hm. by split. Qed.

(** Steps that change one hold, its bytes apart. *)
Lemma with_hold b loose k h h' : m_holds m !! k = Some h -> hold_ok h' -> h_reserved h' = h_reserved h ->
  eb_limit b = EXPANSION_LIMIT ->
  charged EXPANSION_LIMIT (option_list (h_expansion h') ++ values loose ++ omap h_expansion (values (delete k (m_holds m)))) (eb_used b) ->
  mem_ok (mkMemory b (m_budget m) loose (<[k := h']> (m_holds m))).
Proof.
  intros Hk Hh' Er El Hc. split; cbn; [done|apply Hm| | |apply Hm|].
  - assert (Hk' : m_holds (mkMemory b (m_budget m) loose (<[k := h']> (m_holds m))) !! k = Some h') by (cbn; apply lookup_insert_eq).
    rewrite (expansions_hold _ _ _ Hk'). cbn. by rewrite delete_insert_eq.
  - rewrite values_update. cbn. rewrite Er. by apply budget_of.
  - intros k' h1 [[<- <-]|[_ H1]]%lookup_insert_Some; [done|by apply (mo_holds m Hm k')].
Qed.

Lemma reserve_keeps e n closed : 0 <= n <= u64_max -> keeps (mem_step m (Reserve e n closed)).
Proof.
  intros Hn. cbn. destruct (m_loose m !! e) eqn:He; [done|]. unfold reserve. pose proof (mo_expansion m Hm) as Hc.
  pose proof (mo_elimit m Hm) as El. assert (HE : EXPANSION_LIMIT < u64_max) by (vm_compute; done).
  assert (0 <= eb_used (m_expansion m)) by (rewrite (ch_used _ _ _ Hc); apply sumZ_nonneg, Hc).
  destruct (_ && _) eqn:G; [by destruct closed|].
  assert (Hfit : eb_used (m_expansion m) = 0 \/ eb_used (m_expansion m) + n <= EXPANSION_LIMIT).
  { apply andb_false_iff in G as [G%bool_decide_eq_false|G%bool_decide_eq_false]; [left; lia|].
    rewrite El in G. unfold saturating_add in G. right. lia. }
  unfold u64_add. rewrite decide_True by lia. cbn. apply with_expansion; [done|]. cbn. rewrite (values_new _ _ _ He).
  apply (charged_grant _ n (expansions m)); [done|lia|done].
Qed.

Lemma shrink_keeps e n : 0 <= n <= u64_max -> keeps (mem_step m (ShrinkTo e n)).
Proof.
  intros Hn. cbn. destruct (m_loose m !! e) as [x|] eqn:He; [|done]. pose proof (mo_expansion m Hm) as Hc.
  unfold expansions in Hc. rewrite (values_delete _ _ _ He) in Hc. cbn in Hc. pose proof (charged_le _ _ _ _ Hc).
  unfold shrink_to, u64_sub. case_decide.
  - rewrite !decide_True by lia. cbn. rewrite decide_True by lia. cbn. apply with_expansion; [apply Hm|]. rewrite values_update.
    cbn. by apply charged_replace; [|lia].
  - cbn. apply with_expansion; [apply Hm|]. by rewrite values_update.
Qed.

Lemma drop_keeps e : keeps (mem_step m (DropExpansion e)).
Proof.
  cbn. destruct (m_loose m !! e) as [x|] eqn:He; [|done]. pose proof (mo_expansion m Hm) as Hc.
  unfold expansions in Hc. rewrite (values_delete _ _ _ He) in Hc.
  destruct (drop_expansion_charged _ _ _ (mo_elimit m Hm) Hc) as (b' & -> & El & Hc'). cbn. by apply with_expansion.
Qed.

Lemma new_hold_keeps k : keeps (mem_step m (NewHold k)).
Proof.
  cbn. destruct (m_holds m !! k) eqn:Hk; [done|]. destruct Hm as [H1 H2 H3 H4 H5 H6]. split; cbn; try done.
  - unfold expansions in *. cbn. by rewrite (values_new _ _ _ Hk).
  - by rewrite (values_new _ _ _ Hk).
  - intros k' h [[<- <-]|[_ Hh]]%lookup_insert_Some; [|by eapply H6]. by vm_compute.
Qed.

Lemma keep_keeps k e : keeps (mem_step m (Keep k e)).
Proof.
  cbn. destruct (m_holds m !! k) as [h|] eqn:Hk; [|done]. destruct (m_loose m !! e) as [x|] eqn:He; [|done].
  pose proof (mo_expansion m Hm) as Hc. rewrite (expansions_hold _ _ _ Hk), (values_delete _ _ _ He) in Hc.
  destruct (drop_kept_charged _ _ _ (mo_elimit m Hm) Hc) as (b' & -> & El & Hc'). cbn.
  apply (with_hold _ _ _ h); try done. by apply (mo_holds m Hm k h).
Qed.

Lemma release_keeps k : keeps (mem_step m (ReleaseExpansion k)).
Proof.
  cbn. destruct (m_holds m !! k) as [h|] eqn:Hk; [|done].
  pose proof (mo_expansion m Hm) as Hc. rewrite (expansions_hold _ _ _ Hk) in Hc.
  destruct (drop_kept_charged _ _ _ (mo_elimit m Hm) Hc) as (b' & -> & El & Hc'). cbn.
  apply (with_hold _ _ _ h); try done. by apply (mo_holds m Hm k h).
Qed.

Lemma grow_keeps k n : 0 <= n <= u64_max -> keeps (mem_step m (Grow k n)).
Proof.
  intros Hn. cbn. destruct (m_holds m !! k) as [h|] eqn:Hk; [|done]. pose proof (reserved_bounds _ _ _ Hm Hk).
  pose proof (mo_bound m Hm).
  destruct (grow_spec n h (m_budget m)) as (h' & b' & ok & -> & [G1 G2 G3 G4 G5 _ _]);
    [by apply (mo_holds m Hm k)|lia|apply Hm|lia|]. cbn.
  split; cbn; [apply Hm|done| | |done|].
  - pose proof (mo_expansion m Hm) as Hc. rewrite (expansions_hold _ _ _ Hk) in Hc. unfold expansions. cbn.
    rewrite values_update. cbn. rewrite <- G2 in Hc. destruct (h_expansion h'); [|done]. cbn in *. by rewrite <- Permutation_middle.
  - rewrite values_update, G4, (budget_of _ _ _ Hm Hk). rewrite fmap_cons, sumZ_cons. lia.
  - intros k' h1 [[<- <-]|[_ H1]]%lookup_insert_Some; [done|by apply (mo_holds m Hm k')].
Qed.

Lemma drop_hold_keeps k : keeps (mem_step m (DropHold k)).
Proof.
  cbn. destruct (m_holds m !! k) as [h|] eqn:Hk; [|done]. pose proof (reserved_bounds _ _ _ Hm Hk).
  pose proof (mo_bound m Hm). assert (HM : MEMORY_LIMIT < 2 ^ 64) by (vm_compute; done).
  pose proof (mo_expansion m Hm) as Hc. rewrite (expansions_hold _ _ _ Hk) in Hc.
  destruct (drop_kept_charged _ _ _ (mo_elimit m Hm) Hc) as (b' & -> & El & Hc'). cbn.
  split; cbn; [done|apply Hm|done| | |].
  - rewrite Z.mod_small by lia. rewrite (budget_of _ _ _ Hm Hk). lia.
  - rewrite Z.mod_small by lia. lia.
  - intros k' h1 [_ H1]%lookup_delete_Some. by apply (mo_holds m Hm k').
Qed.

Lemma mem_step_keeps op : op_in_range op -> keeps (mem_step m op).
Proof.
  destruct op; intros Hop; auto using reserve_keeps, shrink_keeps, drop_keeps, new_hold_keeps, keep_keeps, release_keeps,
    grow_keeps, drop_hold_keeps.
Qed.
End Steps.

Lemma mem_ok_reachable m : mem_reachable m -> mem_ok m.
Proof.
  induction 1 as [|m op m' _ IH Hop E].
  - split; try done. split; [done|by intros x Hx%elem_of_nil|by left].
  - pose proof (mem_step_keeps m IH op Hop) as K. by rewrite E in K.
Qed.

(** ** The theorems *)

(** C31. Under any interleaving of connections the shared memory accounting is
    exact and bounded.  No operation on a live object panics; the collection
    counter is the sum of what live messages reserve, each in whole granules,
    and within its limit; the decompression counter is the sum of the live
    reservations, and over its limit only when one reservation is all of it,
    every other being empty. *)
Theorem wire_memory_accounted m op : mem_reachable m -> op_in_range op ->
  mem_step m op <> Panic /\
  bu_used (m_budget m) = sumZ (h_reserved <$> values (m_holds m)) /\
  bu_used (m_budget m) <= MEMORY_LIMIT /\
  (forall k h, m_holds m !! k = Some h -> h_reserved h = granules (h_used h)) /\
  eb_used (m_expansion m) = sumZ (expansions m) /\
  (eb_used (m_expansion m) <= EXPANSION_LIMIT \/
   exists n rest, expansions m ≡ₚ n :: rest /\ Forall (.= 0) rest).
Proof.
  intros Hr Hop. pose proof (mem_ok_reachable m Hr) as Hm. pose proof (mem_step_keeps m Hm op Hop) as K.
  pose proof (mo_expansion m Hm) as [Hu Hn Hb]. split_and!.
  - by destruct (mem_step m op).
  - apply Hm.
  - apply Hm.
  - intros k h Hk. destruct (mo_holds m Hm k h Hk) as (H0 & Hg & Hh). apply granules_unique; [done|lia].
  - done.
  - destruct Hb as [Hb|Hb]; [by left|right]. apply list_elem_of_split in Hb as (l1 & l2 & E).
    exists (eb_used (m_expansion m)), (l1 ++ l2). rewrite E, Permutation_middle. split; [done|].
    assert (HP : expansions m ≡ₚ eb_used (m_expansion m) :: (l1 ++ l2)) by (by rewrite E, Permutation_middle).
    rewrite HP, sumZ_cons in Hu. apply Forall_forall. intros x Hx.
    assert (Hall : forall y, y ∈ l1 ++ l2 -> 0 <= y) by (intros y Hy; apply Hn; rewrite HP; by right).
    pose proof (sumZ_elem x _ Hall Hx). specialize (Hall x Hx). lia.
Qed.

Lemma wire_memory_accounted_witness :
  exists m, mem_step Memory_new (Reserve 0 (EXPANSION_LIMIT + 5) false) = Done m /\ mem_reachable m /\
    mem_step m (Reserve 1 1 false) <> Panic /\ eb_used (m_expansion m) = sumZ (expansions m).
Proof.
  eexists. split; [vm_compute; reflexivity|]. match goal with |- mem_reachable ?m /\ _ => assert (Hr : mem_reachable m) end.
  { eapply (mr_step _ (Reserve 0 (EXPANSION_LIMIT + 5) false)); [apply mr_new|by vm_compute|vm_compute; reflexivity]. }
  split; [exact Hr|]. destruct (wire_memory_accounted _ (Reserve 1 1 false) Hr) as (H1 & _ & _ & _ & H2 & _); [by vm_compute|].
  by split.
Defined.

(** Charging a message is all or nothing.  Growing a live hold succeeds
    exactly when the shared total, with this hold rounded up to whole granules,
    stays within the limit; then it holds the new bytes.  Otherwise no counter
    changes, its bytes stay what they were, and it is marked exhausted. *)
Theorem hold_grows_exactly_when_it_fits m k h n : mem_reachable m -> m_holds m !! k = Some h -> 0 <= n <= u64_max ->
  exists h' b' ok, grow n h (m_budget m) = Some (h', b', ok) /\
    mem_step m (Grow k n) = Done (mkMemory (m_expansion m) b' (m_loose m) (<[k := h']> (m_holds m))) /\
    (ok = true <-> bu_used (m_budget m) - granules (h_used h) + granules (h_used h + n) <= MEMORY_LIMIT) /\
    (if ok then h_used h' = h_used h + n /\ h_exhausted h' = h_exhausted h
     else b' = m_budget m /\ h' = mkHold (h_used h) (h_reserved h) true (h_expansion h)).
Proof.
  intros Hr Hk Hn. pose proof (mem_ok_reachable m Hr) as Hm. pose proof (reserved_bounds _ _ _ Hm Hk).
  pose proof (mo_bound m Hm). pose proof (mo_holds m Hm k h Hk) as Hh.
  destruct (grow_spec n h (m_budget m) Hh ltac:(lia) (mo_blimit m Hm) ltac:(lia)) as (h' & b' & ok & E & G).
  exists h', b', ok. split; [done|]. split; [cbn; by rewrite Hk, E|].
  assert (Er : h_reserved h = granules (h_used h)) by (apply granules_unique; [apply Hh|destruct Hh as (_ & _ & ?); lia]).
  split; [rewrite <- Er; apply (gr_fits _ _ _ _ _ _ G)|]. pose proof (gr_result _ _ _ _ _ _ G) as R.
  destruct ok; [done|]. destruct R as (R1 & R2 & R3). split; [done|]. by apply grow_false in E.
Qed.

Lemma hold_grows_exactly_when_it_fits_witness :
  exists m, mem_step Memory_new (NewHold 3) = Done m /\ mem_reachable m /\
    exists h' b', grow MEMORY_LIMIT Hold_new (m_budget m) = Some (h', b', true) /\ h_used h' = MEMORY_LIMIT.
Proof.
  eexists. split; [reflexivity|]. match goal with |- mem_reachable ?m /\ _ => assert (Hr : mem_reachable m) end.
  { eapply (mr_step _ (NewHold 3)); [apply mr_new|done|reflexivity]. }
  split; [exact Hr|].
  destruct (hold_grows_exactly_when_it_fits _ 3 Hold_new MEMORY_LIMIT Hr) as (h' & b' & ok & E & _ & Hok & R);
    [reflexivity|by vm_compute|].
  assert (ok = true) as -> by (apply Hok; vm_compute; done). exists h', b'. split; [exact E|apply R].
Defined.

(** C38. A reservation for decompression waits only for others.  It is granted
    exactly when every live reservation is empty, however large it is, or when
    it fits beside them; otherwise the reader waits, or gives up when its
    connection closes, and nothing is charged. *)
Theorem reservation_waits_only_for_others m n closed : mem_reachable m -> 0 <= n <= u64_max ->
  exists r, reserve n closed (m_expansion m) = Some r /\
    ((exists b, r = Granted b n /\ eb_used b = sumZ (expansions m) + n) <->
       Forall (.= 0) (expansions m) \/ sumZ (expansions m) + n <= EXPANSION_LIMIT) /\
    ((forall b k, r <> Granted b k) -> r = if closed then Aborted else Waiting).
Proof.
  intros Hr Hn. pose proof (mem_ok_reachable m Hr) as Hm. pose proof (mo_expansion m Hm) as [Hu H0 Hb].
  pose proof (sumZ_nonneg _ H0) as Hs. assert (HE : EXPANSION_LIMIT < u64_max) by (vm_compute; done).
  pose proof (sumZ_zero _ H0) as Hz.
  unfold reserve. rewrite (mo_elimit m Hm), Hu. setoid_rewrite Hz. unfold saturating_add.
  destruct (_ && _) eqn:G.
  - apply andb_true_iff in G as [G1%bool_decide_eq_true G2%bool_decide_eq_true]. eexists. split; [done|]. split; [|done].
    split; [intros (b & E & _); by destruct closed|lia].
  - assert (sumZ (expansions m) = 0 \/ sumZ (expansions m) + n <= EXPANSION_LIMIT).
    { apply andb_false_iff in G as [G%bool_decide_eq_false|G%bool_decide_eq_false]; lia. }
    unfold u64_add. rewrite decide_True by lia. cbn. eexists. split; [done|]. split; [|intros H'; by edestruct H'].
    split; [done|]. intros _. by eexists.
Qed.

Lemma reservation_waits_only_for_others_witness :
  mem_reachable Memory_new /\ exists b, reserve (EXPANSION_LIMIT + 5) false (m_expansion Memory_new) = Some (Granted b (EXPANSION_LIMIT + 5)).
Proof.
  split; [apply mr_new|].
  destruct (reservation_waits_only_for_others Memory_new (EXPANSION_LIMIT + 5) false mr_new) as (r & E & Hg & _); [by vm_compute|].
  destruct (proj2 Hg) as (b & -> & _); [left; constructor|]. by exists b.
Defined.
