(* ===== verification/RangeQueue.v ===== *)
(** * The queue of file ranges waiting for a worker (src/src/sched.rs, [RangeQueue])

    The source keeps one [BTreeSet] of [(len, off)] per file and a global
    [BTreeSet] holding only the largest range of every file.  Here both are
    finite sets with their last element; every [assert!], [expect], checked
    subtraction and checked sum of the source is a [None] outcome.  The abstract value of a
    queue is the list [rq_list] of its [(idx, off, end)] ranges, read up to
    permutation: the theorems show that the two-level structure implements it,
    that the assertions never fire and only the byte
    total can overflow, and that [pop] returns the longest range. *)

From S2P Require Import Prelude.
Local Open Scope Z_scope.

Abbreviation range := (nat * Z * Z)%type.

Module RangeQueue.

(** [largest], [by_file], [len], [bytes]. *)
Record t := mk {
  largest : gset (Z * nat * Z);
  by_file : gmap nat (gset (Z * Z));
  len : nat;
  bytes : Z
}.

Definition default_queue : t := mk ∅ ∅ 0 0.

(** The loop of [extend] that inserts each range into the file's set. *)
Fixpoint insert_ranges (file : gset (Z * Z)) (bytes : Z) (ranges : list (Z * Z))
  : option (gset (Z * Z) * Z) :=
  match ranges with
  | [] => Some (file, bytes)
  | (off, end_) :: rest =>
      l ← u64_sub end_ off;
      file' ← set_insert_new (l, off) file;
      bytes' ← u64_add bytes l;
      insert_ranges file' bytes' rest
  end.

(** Replace the file's entry of the global set when its maximum changed. *)
Definition update_largest (largest : gset (Z * nat * Z)) (idx : nat)
    (previous maximum : option (Z * Z)) : option (gset (Z * nat * Z)) :=
  if decide (previous = maximum) then Some largest else
    l1 ← match previous with
         | Some (l, off) => set_remove_old (l, idx, off) largest
         | None => Some largest
         end;
    '(l, off) ← maximum;
    set_insert_new (l, idx, off) l1.

Definition extend (q : t) (idx : nat) (ranges : list (Z * Z)) : option t :=
  if decide (ranges = []) then Some q else
    let file := default ∅ (by_file q !! idx) in
    let previous := set_last file in
    '(file', bytes') ← insert_ranges file (bytes q) ranges;
    largest' ← update_largest (largest q) idx previous (set_last file');
    Some (mk largest' (<[idx := file']> (by_file q)) (len q + length ranges)%nat bytes').

Definition push (q : t) (r : range) : option t :=
  let '(idx, off, end_) := r in extend q idx [(off, end_)].

Definition remove (q : t) (l : Z) (idx : nat) (off : Z) : option (range * t) :=
  file ← by_file q !! idx;
  let was_maximum := bool_decide (set_last file = Some (l, off)) in
  file' ← set_remove_old (l, off) file;
  largest' ← (if was_maximum then
                l1 ← set_remove_old (l, idx, off) (largest q);
                match set_last file' with
                | Some (next_len, next_off) => set_insert_new (next_len, idx, next_off) l1
                | None => Some l1
                end
              else Some (largest q));
  let by_file' := if decide (file' = ∅) then delete idx (by_file q)
                  else <[idx := file']> (by_file q) in
  len' ← usize_sub (len q) 1;
  bytes' ← u64_sub (bytes q) l;
  Some ((idx, off, off + l), mk largest' by_file' len' bytes').

Definition pop (q : t) : option (option range * t) :=
  match set_last (largest q) with
  | None => Some (None, q)
  | Some (l, idx, off) => '(r, q') ← remove q l idx off; Some (Some r, q')
  end.

Definition take_short (q : t) (idx : nat) (max_size : Z) : option (option range * t) :=
  match by_file q !! idx ≫= set_first with
  | None => Some (None, q)
  | Some (l, off) =>
      if decide (l <= max_size) then '(r, q') ← remove q l idx off; Some (Some r, q')
      else Some (None, q)
  end.

Definition is_empty (q : t) : bool := bool_decide (len q = 0%nat).

(** ** Abstract value *)
Definition range_idx (r : range) : nat := r.1.1.
Definition range_len (r : range) : Z := r.2 - r.1.2.

Definition file_ranges (idx : nat) (f : gset (Z * Z)) : list range :=
  (fun p : Z * Z => (idx, p.2, p.2 + p.1)) <$> elements f.

Definition ranges_of (m : gmap nat (gset (Z * Z))) : list range :=
  mjoin ((fun p => file_ranges p.1 p.2) <$> map_to_list m).

Definition rq_list (q : t) : list range := ranges_of (by_file q).

(** The order in which ranges are handed out: longest first, then file, then offset. *)
Definition range_key (r : range) : Z * nat * Z := (range_len r, r.1.1, r.1.2).

Record wf (q : t) : Prop := {
  wf_nonempty i f : by_file q !! i = Some f -> f <> ∅;
  wf_nonneg i f p : by_file q !! i = Some f -> p ∈ f -> 0 <= p.1;
  wf_largest l i o : (l, i, o) ∈ largest q <->
    exists f, by_file q !! i = Some f /\ set_last f = Some (l, o);
  wf_len : len q = length (rq_list q);
  wf_bytes : bytes q = sumZ (range_len <$> rq_list q)
}.

(** ** Lemmas on the abstract value *)
Lemma elem_file_ranges idx f i o e :
  (i, o, e) ∈ file_ranges idx f <-> i = idx /\ (e - o, o) ∈ f.
Proof.
  unfold file_ranges. rewrite list_elem_of_fmap. split.
  - intros ([l o'] & [= -> -> ->] & H%elem_of_elements). cbn.
    replace (o' + l - o') with l by lia. done.
  - intros [-> H]. exists (e - o, o). rewrite elem_of_elements. split; [|done].
    cbn. do 2 f_equal. lia.
Qed.

Lemma file_ranges_insert idx f p : p ∉ f ->
  file_ranges idx ({[p]} ∪ f) ≡ₚ (idx, p.2, p.2 + p.1) :: file_ranges idx f.
Proof. intros Hp. unfold file_ranges. by rewrite elements_union_singleton. Qed.

Lemma ranges_of_delete m i f : m !! i = Some f ->
  ranges_of m ≡ₚ file_ranges i f ++ ranges_of (delete i m).
Proof.
  intros Hi. unfold ranges_of. by rewrite <- (map_to_list_delete m i f) by done.
Qed.

Lemma ranges_of_insert m i f :
  ranges_of (<[i := f]> m) ≡ₚ file_ranges i f ++ ranges_of (delete i m).
Proof.
  rewrite (ranges_of_delete _ i f) by apply lookup_insert_eq. by rewrite delete_insert_eq.
Qed.

Lemma ranges_of_default m i :
  ranges_of m ≡ₚ file_ranges i (default ∅ (m !! i)) ++ ranges_of (delete i m).
Proof.
  destruct (m !! i) as [f|] eqn:E; cbn [from_option].
  - by apply ranges_of_delete.
  - rewrite delete_id by done. unfold file_ranges. by rewrite elements_empty.
Qed.

Lemma elem_rq_list q i o e :
  (i, o, e) ∈ rq_list q <-> exists f, by_file q !! i = Some f /\ (e - o, o) ∈ f.
Proof.
  unfold rq_list, ranges_of. rewrite list_elem_of_join. split.
  - intros (l & Hin & ([j f] & -> & Hjf%elem_of_map_to_list)%list_elem_of_fmap).
    cbn in Hin. apply elem_file_ranges in Hin as [-> ?]. eauto.
  - intros (f & Hf & Hin). exists (file_ranges i f). split; [by apply elem_file_ranges|].
    apply list_elem_of_fmap. exists (i, f). split; [done|]. by apply elem_of_map_to_list.
Qed.

Lemma range_len_nonneg q r : wf q -> r ∈ rq_list q -> 0 <= range_len r.
Proof.
  intros W. destruct r as [[i o] e]. rewrite elem_rq_list. intros (f & Hf & Hin).
  by apply (wf_nonneg q W _ _ _ Hf) in Hin.
Qed.

(** ** The global set tracks every file's maximum *)
Definition largest_ok (L : gset (Z * nat * Z)) (m : gmap nat (gset (Z * Z))) : Prop :=
  forall l i o, (l, i, o) ∈ L <-> exists f, m !! i = Some f /\ set_last f = Some (l, o).

Lemma largest_ok_last L m idx :
  largest_ok L m -> forall l o, (l, idx, o) ∈ L <-> set_last (default ∅ (m !! idx)) = Some (l, o).
Proof.
  intros HL l o. rewrite (HL l idx o). destruct (m !! idx) as [f|] eqn:E; cbn; [naive_solver|].
  split; [naive_solver|]. intros H. by apply set_last_Some in H as [? _].
Qed.

(** Moving file [idx] from maximum [previous] to [set_last f']. *)
Lemma largest_ok_move L L' m idx f' :
  largest_ok L m -> f' <> ∅ ->
  (forall l i o, (l, i, o) ∈ L' <->
     (i <> idx /\ (l, i, o) ∈ L) \/ (i = idx /\ set_last f' = Some (l, o))) ->
  largest_ok L' (<[idx := f']> m).
Proof.
  intros HL Hne HL' l i o. rewrite HL', (HL l i o). destruct (decide (i = idx)) as [->|Hi].
  - rewrite lookup_insert_eq. naive_solver.
  - rewrite lookup_insert_ne by done. naive_solver.
Qed.

Lemma largest_ok_drop L L' m idx :
  largest_ok L m ->
  (forall l i o, (l, i, o) ∈ L' <-> i <> idx /\ (l, i, o) ∈ L) ->
  largest_ok L' (delete idx m).
Proof.
  intros HL HL' l i o. rewrite HL', (HL l i o). destruct (decide (i = idx)) as [->|Hi].
  - rewrite lookup_delete_eq. naive_solver.
  - rewrite lookup_delete_ne by done. naive_solver.
Qed.

Lemma update_largest_spec L m idx f' :
  largest_ok L m -> f' <> ∅ ->
  exists L', update_largest L idx (set_last (default ∅ (m !! idx))) (set_last f') = Some L' /\
             largest_ok L' (<[idx := f']> m).
Proof.
  intros HL Hne. pose proof (largest_ok_last L m idx HL) as Hidx.
  destruct (set_last_is_Some f' Hne) as [[l o] Hmax]. unfold update_largest.
  case_decide as Heq.
  - exists L. split; [done|]. apply (largest_ok_move L); [done..|].
    intros l' i o'. destruct (decide (i = idx)) as [->|]; [|naive_solver].
    rewrite Hidx, Heq. naive_solver.
  - rewrite Hmax. cbn. destruct (set_last (default ∅ (m !! idx))) as [[l0 o0]|] eqn:Hprev; cbn.
    + unfold set_remove_old. rewrite decide_True by (by apply Hidx). cbn.
      unfold set_insert_new. rewrite decide_False; last first.
      { rewrite elem_of_difference, Hidx. intros [? _]. congruence. }
      eexists. split; [done|]. apply (largest_ok_move L); [done..|].
      intros l' i o'. rewrite Hmax. destruct (decide (i = idx)) as [->|]; [|set_solver].
      rewrite elem_of_union, elem_of_difference, !elem_of_singleton, Hidx. naive_solver.
    + unfold set_insert_new. rewrite decide_False by (rewrite Hidx; naive_solver).
      eexists. split; [done|]. apply (largest_ok_move L); [done..|].
      intros l' i o'. rewrite Hmax. destruct (decide (i = idx)) as [->|]; [|set_solver].
      rewrite elem_of_union, !elem_of_singleton, Hidx. naive_solver.
Qed.

(** ** Operations on the abstract value *)
Lemma insert_ranges_spec idx ranges : forall file bytes,
  NoDup ranges ->
  (forall o e, (o, e) ∈ ranges -> o <= e /\ (e - o, o) ∉ file) ->
  panics (u64_max < bytes + sumZ ((fun r => r.2 - r.1) <$> ranges)) (insert_ranges file bytes ranges) \/
  exists file', insert_ranges file bytes ranges =
                  Some (file', bytes + sumZ ((fun r => r.2 - r.1) <$> ranges)) /\
    file_ranges idx file' ≡ₚ ((fun r => (idx, r.1, r.2)) <$> ranges) ++ file_ranges idx file /\
    file ⊆ file' /\ (forall p, p ∈ file' -> p ∈ file \/ 0 <= p.1).
Proof.
  induction ranges as [|[o e] ranges IH]; intros file bytes Hnd Hall.
  - right. exists file. cbn. split_and!; [f_equal; f_equal; lia|done..|naive_solver].
  - apply NoDup_cons in Hnd as [Hnotin Hnd].
    destruct (Hall o e) as [Hoe Hfresh]; [set_solver|].
    assert (Hlen : 0 <= sumZ ((fun r : Z * Z => r.2 - r.1) <$> ranges)).
    { apply sumZ_nonneg. intros x ([o' e'] & -> & Hin)%list_elem_of_fmap.
      destruct (Hall o' e') as [? _]; [set_solver|]. cbn. lia. }
    rewrite fmap_cons, sumZ_cons. cbn [fst snd insert_ranges].
    rewrite (proj2 (u64_sub_Some e o (e - o))) by lia. cbn [mbind option_bind].
    unfold set_insert_new. rewrite decide_False by done. cbn [mbind option_bind]. unfold u64_add.
    case_decide; cbn [mbind option_bind]; [|left; split; [done|lia]]. rewrite Z.add_assoc.
    destruct (IH ({[(e - o, o)]} ∪ file) (bytes + (e - o))) as [Hov|(file' & Hins & HP & Hsub & Hnn)].
    + done.
    + intros o' e' Hin. destruct (Hall o' e') as [? ?]; [set_solver|]. split; [done|].
      rewrite elem_of_union, elem_of_singleton. intros [[= E1 E2]|?]; [|done].
      apply Hnotin. assert (o' = o /\ e' = e) as [-> ->] by lia. done.
    + by left.
    + right. exists file'. split_and!.
      * exact Hins.
      * rewrite HP, file_ranges_insert by done. cbn. replace (o + (e - o)) with e by lia.
        by rewrite <- Permutation_middle.
      * set_solver.
      * intros p Hp. destruct (Hnn p Hp) as [[->%elem_of_singleton|?]%elem_of_union|?]; cbn; auto.
        right. lia.
Qed.

Lemma fmap_range_len idx (ranges : list (Z * Z)) :
  range_len <$> ((fun r : Z * Z => (idx, r.1, r.2)) <$> ranges) =
  (fun r : Z * Z => r.2 - r.1) <$> ranges.
Proof. rewrite <- list_fmap_compose. done. Qed.

Lemma extend_spec q idx ranges :
  wf q -> NoDup ranges ->
  (forall o e, (o, e) ∈ ranges -> o <= e /\ (idx, o, e) ∉ rq_list q) ->
  panics (u64_max < bytes q + sumZ ((fun r => r.2 - r.1) <$> ranges)) (extend q idx ranges) \/
  exists q', extend q idx ranges = Some q' /\ wf q' /\
             rq_list q' ≡ₚ ((fun r => (idx, r.1, r.2)) <$> ranges) ++ rq_list q.
Proof.
  intros W Hnd Hall. unfold extend. case_decide as Hnil; [subst; right; eauto|].
  set (file := default ∅ (by_file q !! idx)).
  assert (Hfile : forall p, p ∈ file -> by_file q !! idx = Some file).
  { intros p. unfold file. by destruct (by_file q !! idx). }
  destruct (insert_ranges_spec idx ranges file (bytes q)) as [[Hn Hov]|(file' & Hins & HP & Hsub & Hnn)].
  { done. }
  { intros o e Hin. destruct (Hall o e Hin) as [? Hni]. split; [done|]. intros Hf.
    apply Hni, elem_rq_list. eauto. }
  { left. split; [by rewrite Hn|done]. }
  right.
  assert (Hne : file' <> ∅).
  { intros ->. destruct ranges as [|[o e] ?]; [done|].
    assert ((idx, o, e) ∈ file_ranges idx ∅) as Hin by (rewrite HP; cbn; set_solver).
    apply elem_file_ranges in Hin. set_solver. }
  destruct (update_largest_spec (largest q) (by_file q) idx file') as (L' & HL & HL');
    [exact (wf_largest q W)|done|].
  assert (HPq : ranges_of (<[idx := file']> (by_file q)) ≡ₚ
                ((fun r => (idx, r.1, r.2)) <$> ranges) ++ rq_list q).
  { rewrite ranges_of_insert, HP. unfold rq_list.
    rewrite (ranges_of_default (by_file q) idx). by rewrite <- app_assoc. }
  rewrite Hins. cbn. unfold file. rewrite HL. cbn. eexists. split; [done|]. split; [|done].
  split; cbn.
  - intros i f. destruct (decide (i = idx)) as [->|]; simplify_map_eq; [naive_solver|].
    apply (wf_nonempty q W).
  - intros i f p. destruct (decide (i = idx)) as [->|]; simplify_map_eq.
    + intros [= <-] Hp. destruct (Hnn p Hp) as [Hp'|?]; [|done].
      exact (wf_nonneg q W _ _ _ (Hfile p Hp') Hp').
    + apply (wf_nonneg q W).
  - exact HL'.
  - unfold rq_list at 1; cbn. rewrite HPq, length_app, length_fmap, <- (wf_len q W). lia.
  - unfold rq_list at 1; cbn. rewrite HPq, fmap_app, sumZ_app, fmap_range_len, (wf_bytes q W). lia.
Qed.

(** Taking a file's range away updates the global set. *)
Lemma remove_largest_spec L m idx file l off :
  largest_ok L m -> m !! idx = Some file -> (l, off) ∈ file ->
  let file' := file ∖ {[(l, off)]} in
  exists L',
    (if bool_decide (set_last file = Some (l, off)) then
       l1 ← set_remove_old (l, idx, off) L;
       match set_last file' with
       | Some (next_len, next_off) => set_insert_new (next_len, idx, next_off) l1
       | None => Some l1
       end
     else Some L) = Some L' /\
    largest_ok L' (if decide (file' = ∅) then delete idx m else <[idx := file']> m).
Proof.
  intros HL Hfile Hin file'. pose proof (largest_ok_last L m idx HL) as Hidx.
  rewrite Hfile in Hidx. cbn in Hidx.
  case_bool_decide as Hmax.
  - unfold set_remove_old. rewrite decide_True by (by apply Hidx). cbn.
    destruct (set_last file') as [[l' o']|] eqn:Hnext.
    + unfold set_insert_new. rewrite decide_False; last first.
      { rewrite elem_of_difference, Hidx, elem_of_singleton. intros [? Hne]. apply Hne. congruence. }
      eexists. split; [done|]. rewrite decide_False; last first.
      { intros E. rewrite E in Hnext. by apply set_last_Some in Hnext as [? _]. }
      apply (largest_ok_move L); [done| |].
      { intros E. rewrite E in Hnext. by apply set_last_Some in Hnext as [? _]. }
      intros l2 i o2. rewrite Hnext. destruct (decide (i = idx)) as [->|]; [|set_solver].
      rewrite elem_of_union, elem_of_difference, !elem_of_singleton, Hidx. naive_solver.
    + apply set_last_None in Hnext. eexists. split; [done|]. rewrite decide_True by done.
      apply (largest_ok_drop L); [done|]. intros l2 i o2.
      destruct (decide (i = idx)) as [->|]; [|set_solver].
      rewrite elem_of_difference, elem_of_singleton, Hidx. naive_solver.
  - assert (Hne : file <> ∅) by set_solver. destruct (set_last_is_Some file Hne) as [[lm om] Hm].
    pose proof (proj1 (set_last_Some _ _) Hm) as [Hmin Hmall].
    assert (set_last file' = Some (lm, om)) as Hm'.
    { apply set_last_Some. split; [|set_solver].
      unfold file'. rewrite elem_of_difference, elem_of_singleton. naive_solver. }
    exists L. split; [done|]. rewrite decide_False; last first.
    { intros E. rewrite E in Hm'. by apply set_last_Some in Hm' as [? _]. }
    apply (largest_ok_move L); [done| |].
    { intros E. rewrite E in Hm'. by apply set_last_Some in Hm' as [? _]. }
    intros l2 i o2. destruct (decide (i = idx)) as [->|]; [|naive_solver].
    rewrite Hidx, Hm, Hm'. naive_solver.
Qed.

Lemma remove_spec q l idx off :
  wf q -> (idx, off, off + l) ∈ rq_list q ->
  exists q', remove q l idx off = Some ((idx, off, off + l), q') /\ wf q' /\
             rq_list q ≡ₚ (idx, off, off + l) :: rq_list q'.
Proof.
  intros W Hin. pose proof (range_len_nonneg _ _ W Hin) as Hl. unfold range_len in Hl; cbn in Hl.
  pose proof Hin as Hin0. apply elem_rq_list in Hin as (file & Hfile & Hin).
  replace (off + l - off) with l in Hin by lia.
  set (m' := if decide (file ∖ {[(l, off)]} = ∅) then delete idx (by_file q)
             else <[idx := file ∖ {[(l, off)]}]> (by_file q)).
  assert (HP : rq_list q ≡ₚ (idx, off, off + l) :: ranges_of m').
  { unfold rq_list. rewrite (ranges_of_delete _ _ _ Hfile).
    assert (file_ranges idx file ≡ₚ
            (idx, off, off + l) :: file_ranges idx (file ∖ {[(l, off)]})) as Hfr.
    { rewrite <- (file_ranges_insert idx _ (l, off)) by set_solver.
      by replace ({[(l, off)]} ∪ file ∖ {[(l, off)]}) with file by
        (apply set_eq; intros x; destruct (decide (x = (l, off))); set_solver). }
    rewrite Hfr. cbn. f_equiv. unfold m'. case_decide as E.
    - rewrite E. unfold file_ranges. by rewrite elements_empty.
    - by rewrite ranges_of_insert. }
  destruct (remove_largest_spec (largest q) (by_file q) idx file l off (wf_largest q W) Hfile Hin)
    as (L' & HL & HL').
  assert (Hlen : len q = S (length (ranges_of m'))).
  { rewrite (wf_len q W), HP. done. }
  assert (Hbytes : bytes q = l + sumZ (range_len <$> ranges_of m')).
  { rewrite (wf_bytes q W), HP, fmap_cons, sumZ_cons. unfold range_len at 1; cbn. lia. }
  assert (Hnn : 0 <= sumZ (range_len <$> ranges_of m')).
  { apply sumZ_nonneg. intros x (r & -> & Hr)%list_elem_of_fmap.
    apply (range_len_nonneg q); [done|]. rewrite HP. set_solver. }
  unfold remove. rewrite Hfile. cbn.
  assert (set_remove_old (l, off) file = Some (file ∖ {[(l, off)]})) as ->
    by (unfold set_remove_old; by rewrite decide_True).
  cbn. cbn in HL. rewrite HL. cbn. fold m'.
  rewrite (proj2 (usize_sub_Some (len q) 1 (length (ranges_of m')))) by lia. cbn.
  rewrite (proj2 (u64_sub_Some (bytes q) l (sumZ (range_len <$> ranges_of m')))) by lia. cbn.
  eexists. split; [done|]. split; [|exact HP]. split; cbn; [| |exact HL'|done|done].
  - intros i f Hf. unfold m' in Hf. pose proof (wf_nonempty q W) as Hwf.
    case_decide as E; destruct (decide (i = idx)) as [->|]; simplify_map_eq; eauto.
  - intros i f p Hf Hp. unfold m' in Hf. pose proof (wf_nonneg q W) as Hwf.
    case_decide as E; destruct (decide (i = idx)) as [->|]; simplify_map_eq; [eauto| |eauto].
    apply (Hwf idx file); [done|]. set_solver.
Qed.

(** What [pop] promises: the whole queue minus one range, the longest. *)
Lemma rq_pop_spec q : wf q ->
  match pop q with
  | None => False
  | Some (None, q') => q' = q /\ rq_list q = []
  | Some (Some r, q') => wf q' /\ rq_list q ≡ₚ r :: rq_list q' /\
      forall r', r' ∈ rq_list q -> rle (range_key r') (range_key r)
  end.
Proof.
  intros W. unfold pop. destruct (set_last (largest q)) as [[[l idx] off]|] eqn:E.
  - apply set_last_Some in E as [Hin Hmax].
    apply (wf_largest q W) in Hin as (f & Hf & Hlast).
    pose proof (proj1 (set_last_Some _ _) Hlast) as [Hlo _].
    destruct (remove_spec q l idx off W) as (q' & -> & W' & HP).
    { apply elem_rq_list. exists f. by replace (off + l - off) with l by lia. }
    cbn. split_and!; [done..|]. intros [[i o] e] (f' & Hf' & Hin')%elem_rq_list.
    destruct (set_last_is_Some f') as [[l' o'] Hl']; [set_solver|].
    apply rle_trans with (l', i, o').
    + apply set_last_Some in Hl' as [_ Hall]. specialize (Hall _ Hin').
      unfold range_key, range_len. cbn. rewrite !rle_pair in *. cbn. unfold lex_cmp. cbn.
      rewrite Nat.compare_refl. cbn in Hall. destruct Hall as [->|[-> ?]]; auto.
    + assert ((l', i, o') ∈ largest q) as Hlg by (apply (wf_largest q W); eauto).
      specialize (Hmax _ Hlg). unfold range_key, range_len; cbn. by replace (off + l - off) with l by lia.
  - split; [done|]. apply set_last_None in E. destruct (rq_list q) as [|[[i o] e] ?] eqn:Eq; [done|].
    assert ((i, o, e) ∈ rq_list q) as Hin by (rewrite Eq; set_solver).
    apply elem_rq_list in Hin as (f & Hf & Hin).
    destruct (set_last_is_Some f) as [[l' o'] Hl']; [set_solver|].
    assert ((l', i, o') ∈ largest q) as Hlg by (apply (wf_largest q W); eauto). set_solver.
Qed.

Lemma take_short_spec q idx max_size : wf q ->
  match take_short q idx max_size with
  | None => False
  | Some (None, q') => q' = q /\ forall o e, (idx, o, e) ∈ rq_list q ->
      exists o' e', (idx, o', e') ∈ rq_list q /\ max_size < e' - o' <= e - o
  | Some (Some r, q') => wf q' /\ rq_list q ≡ₚ r :: rq_list q' /\
      r.1.1 = idx /\ range_len r <= max_size
  end.
Proof.
  intros W. unfold take_short. destruct (by_file q !! idx) as [f|] eqn:Hf; cbn; last first.
  { split; [done|]. intros o e (f & Hf' & _)%elem_rq_list. congruence. }
  destruct (set_first f) as [[l off]|] eqn:E; cbn; last first.
  { apply set_first_None in E. by destruct (wf_nonempty q W _ _ Hf). }
  apply set_first_Some in E as [Hin Hmin]. case_decide as Hle.
  - destruct (remove_spec q l idx off W) as (q' & -> & W' & HP).
    { apply elem_rq_list. exists f. by replace (off + l - off) with l by lia. }
    cbn. split_and!; [done..|]. unfold range_len; cbn. lia.
  - split; [done|]. intros o e (f' & Hf' & Hoe)%elem_rq_list. simplify_eq.
    exists off, (off + l). split.
    + apply elem_rq_list. exists f. by replace (off + l - off) with l by lia.
    + specialize (Hmin _ Hoe). rewrite rle_pair in Hmin. cbn in Hmin.
      rewrite Z.compare_lt_iff in Hmin. lia.
Qed.

Lemma rq_wf_default : wf default_queue.
Proof. split; cbn; set_solver. Qed.

Lemma rq_is_empty_spec q : wf q -> is_empty q = true <-> rq_list q = [].
Proof.
  intros W. unfold is_empty. rewrite bool_decide_eq_true, (wf_len q W).
  by rewrite length_zero_iff_nil.
Qed.

(** ** Properties *)

(** Publishing ranges: for ranges of nonnegative length that are not queued
    yet, [extend] trips none of its assertions; it panics only when the byte
    total exceeds a [u64], and otherwise queues exactly them, keeping the length
    and byte totals and the index of each file's longest range in step. *)
Theorem range_queue_extend_adds (q : t) (idx : nat) (rs : list (Z * Z)) :
  wf q -> NoDup rs -> (forall o e, (o, e) ∈ rs -> o <= e /\ (idx, o, e) ∉ rq_list q) ->
  panics (u64_max < bytes q + sumZ ((fun r => r.2 - r.1) <$> rs)) (extend q idx rs) \/
  exists q', extend q idx rs = Some q' /\ wf q' /\
    rq_list q' ≡ₚ ((fun r => (idx, r.1, r.2)) <$> rs) ++ rq_list q /\
    len q' = (length rs + len q)%nat /\
    bytes q' = sumZ ((fun r => r.2 - r.1) <$> rs) + bytes q.
Proof.
  intros W Hnd Hall. destruct (extend_spec q idx rs W Hnd Hall) as [Hov|(q' & He & W' & HP)]; [by left|].
  right. exists q'. split_and!; [done..| |].
  - by rewrite (wf_len q' W'), (wf_len q W), HP, length_app, length_fmap.
  - rewrite (wf_bytes q' W'), (wf_bytes q W), HP, fmap_app, sumZ_app, <- list_fmap_compose. done.
Qed.

Lemma range_queue_extend_adds_witness :
  exists q', extend default_queue 3 [(0, 5); (5, 9)] = Some q' /\ wf q' /\ bytes q' = 9.
Proof.
  destruct (range_queue_extend_adds default_queue 3 [(0, 5); (5, 9)]) as [[_ H]|(q' & H1 & H2 & _ & _ & H3)];
    [apply rq_wf_default|apply NoDup_cons; split; [set_solver|apply NoDup_singleton]| | |].
  - intros o e. rewrite !elem_of_cons, elem_of_nil. intros [[= -> ->]|[[= -> ->]|[]]];
      (split; [lia|apply not_elem_of_nil]).
  - vm_compute in H. discriminate H.
  - exists q'. exact (conj H1 (conj H2 H3)).
Defined.

(** [pop] takes the longest queued range of all files (ties by file index
    and offset), [take_short] the shortest range of one file if it is within
    the limit; both remove exactly the range they return, and return nothing
    only when no range qualifies. *)
Theorem range_queue_takes_extremes (q : t) (idx : nat) (max_size : Z) :
  wf q ->
  match pop q with
  | None => False
  | Some (None, q') => q' = q /\ rq_list q = []
  | Some (Some r, q') => wf q' /\ rq_list q ≡ₚ r :: rq_list q' /\
      forall r', r' ∈ rq_list q -> rle (range_key r') (range_key r)
  end /\
  match take_short q idx max_size with
  | None => False
  | Some (None, q') => q' = q /\ forall o e, (idx, o, e) ∈ rq_list q -> max_size < e - o
  | Some (Some r, q') => wf q' /\ rq_list q ≡ₚ r :: rq_list q' /\ r.1.1 = idx /\
      range_len r <= max_size
  end.
Proof.
  intros W. split; [exact (rq_pop_spec q W)|]. pose proof (take_short_spec q idx max_size W) as H.
  destruct (take_short q idx max_size) as [[[r|] q']|]; [done| |done].
  destruct H as [-> H]. split; [done|]. intros o e Hin. destruct (H o e Hin) as (? & ? & _ & ?). lia.
Qed.

Lemma range_queue_takes_extremes_witness :
  exists q q1 q2, extend default_queue 3 [(0, 5); (5, 9)] = Some q /\
    pop q = Some (Some (3%nat, 0, 5), q1) /\ take_short q 3 4 = Some (Some (3%nat, 5, 9), q2) /\
    wf q1 /\ wf q2.
Proof.
  destruct (extend_spec default_queue 3 [(0, 5); (5, 9)] rq_wf_default) as [[_ H]|(q & Hq & W & _)];
    [apply NoDup_cons; split; [set_solver|apply NoDup_singleton]| | |].
  { intros o e. rewrite !elem_of_cons, elem_of_nil. intros [[= -> ->]|[[= -> ->]|[]]];
      (split; [lia|apply not_elem_of_nil]). }
  { vm_compute in H. discriminate H. }
  destruct (range_queue_takes_extremes q 3 4 W) as [H1 H2].
  assert (E1 : option_map fst (extend default_queue 3 [(0, 5); (5, 9)] ≫= pop) = Some (Some (3%nat, 0, 5)))
    by (vm_compute; reflexivity).
  assert (E2 : option_map fst (extend default_queue 3 [(0, 5); (5, 9)] ≫= fun q => take_short q 3 4)
               = Some (Some (3%nat, 5, 9))) by (vm_compute; reflexivity).
  rewrite Hq in E1, E2. cbn [mbind option_bind] in E1, E2.
  destruct (pop q) as [[o1 q1]|] eqn:Ep; [|done]. destruct (take_short q 3 4) as [[o2 q2]|] eqn:Et; [|done].
  cbn in E1, E2. injection E1 as ->. injection E2 as ->.
  exists q, q1, q2. split; [exact Hq|]. split; [exact Ep|]. split; [exact Et|].
  split; [apply H1|apply H2].
Defined.

End RangeQueue.
