(* ===== verification/FileQueue.v ===== *)
(** * The queue of whole files (src/src/sched.rs, [FileOrder] and [FileQueue])

    Files wait in one heap per destination directory; the global ordered set
    [heads] holds the head of every non-empty heap.  A [BinaryHeap] is the list
    of its elements with [peek] its greatest one; indexing out of range, an
    [unwrap] of [None] and a negative difference are [None] outcomes.  The
    abstract value is [fq_list], the list of queued items up to permutation. *)

From S2P Require Import Prelude.
Local Open Scope Z_scope.

(** [usize::reverse_bits] on the low [n] bits. *)
Fixpoint rev_bits (n : nat) (x : Z) : Z :=
  match n with
  | O => 0
  | S m => 2 * rev_bits m x + Z.b2z (Z.testbit x (Z.of_nat m))
  end.

Module FileOrder.
(** A [FileOrder] is the reversed index, a 64-bit [usize]. *)
Definition new (idx : nat) : Z := rev_bits 64 (Z.of_nat idx).
Definition index (o : Z) : nat := Z.to_nat (rev_bits 64 o).
End FileOrder.

Lemma rev_bits_testbit n x j : 0 <= j ->
  Z.testbit (rev_bits n x) j = (j <? Z.of_nat n) && Z.testbit x (Z.of_nat n - 1 - j).
Proof.
  revert j. induction n as [|n IH]; intros j Hj; cbn [rev_bits].
  - rewrite Z.bits_0. by destruct (Z.ltb_spec j (Z.of_nat 0)); [lia|].
  - rewrite Z.add_comm. destruct (decide (j = 0)) as [->|Hne].
    + rewrite Z.add_b2z_double_bit0. destruct (Z.ltb_spec 0 (Z.of_nat (S n))); [|lia].
      cbn. f_equal. lia.
    + rewrite <- (Z.succ_pred j), Z.add_comm.
      assert (Z.testbit (2 * rev_bits n x + Z.b2z (Z.testbit x (Z.of_nat n))) (Z.succ (Z.pred j))
              = Z.testbit (rev_bits n x) (Z.pred j)) as ->.
      { destruct (Z.testbit x (Z.of_nat n)); cbn [Z.b2z];
          [apply Z.testbit_odd_succ | rewrite Z.add_0_r; apply Z.testbit_even_succ]; lia. }
      rewrite IH by lia.
      replace (Z.of_nat (S n) - 1 - Z.succ (Z.pred j)) with (Z.of_nat n - 1 - Z.pred j) by lia.
      f_equal. apply eq_true_iff_eq. rewrite !Z.ltb_lt. lia.
Qed.

Lemma rev_bits_range n x : 0 <= rev_bits n x < 2 ^ Z.of_nat n.
Proof.
  induction n as [|n IH]; cbn [rev_bits]; [done|].
  rewrite Nat2Z.inj_succ, Z.pow_succ_r by lia. destruct (Z.testbit x (Z.of_nat n)); cbn; lia.
Qed.

Lemma rev_bits_involutive n x : 0 <= x < 2 ^ Z.of_nat n -> rev_bits n (rev_bits n x) = x.
Proof.
  intros Hx. apply Z.bits_inj'. intros j Hj. rewrite rev_bits_testbit by done.
  destruct (Z.ltb_spec j (Z.of_nat n)) as [Hlt|Hge]; cbn.
  - rewrite rev_bits_testbit by lia. destruct (Z.ltb_spec (Z.of_nat n - 1 - j) (Z.of_nat n)); [|lia].
    cbn. f_equal. lia.
  - symmetry. apply Z.testbit_false; [done|]. rewrite Z.div_small; [done|].
    split; [lia|]. apply Z.lt_le_trans with (2 ^ Z.of_nat n); [lia|]. by apply Z.pow_le_mono_r; lia.
Qed.

Lemma index_new idx : Z.of_nat idx < 2 ^ 64 -> FileOrder.index (FileOrder.new idx) = idx.
Proof.
  intros H. unfold FileOrder.index, FileOrder.new.
  rewrite (rev_bits_involutive 64) by lia. lia.
Qed.

Module FileQueue.

(** A heap element [(size, Reverse(order))]. *)
Abbreviation item := (Z * Reverse Z)%type.

Definition item_idx (it : item) : nat := FileOrder.index (unrev it.2).
Definition item_of (size : Z) (idx : nat) : item := (size, Rev (FileOrder.new idx)).

Record t := mk {
  heads : gset (item * nat);
  directories : gmap (list Z) nat;
  groups : list (list item);
  group_of : list nat;
  count : nat;
  bytes : Z
}.

Definition default_queue : t := mk ∅ ∅ [] [] 0 0.

(** [b'/'] *)
Definition slash : Z := 47.

(** [iter().rposition(|&b| b == b'/')]: the index of the last slash. *)
Fixpoint rposition (f : Z -> bool) (l : list Z) : option nat :=
  match l with
  | [] => None
  | b :: l' => match rposition f l' with
               | Some i => Some (S i)
               | None => if f b then Some 0%nat else None
               end
  end.

Definition parent (destination : list Z) : list Z :=
  take (default 0%nat (rposition (fun b => bool_decide (b = slash)) destination)) destination.

Definition register (q : t) (idx : nat) (destination : list Z) : t :=
  let p := parent destination in
  let '(group, groups', directories') :=
    match directories q !! p with
    | Some group => (group, groups q, directories q)
    | None => (length (groups q), groups q ++ [[]], <[p := length (groups q)]> (directories q))
    end in
  let group_of' := resize (length (group_of q) `max` (idx + 1)) 0%nat (group_of q) in
  mk (heads q) directories' groups' (<[idx := group]> group_of') (count q) (bytes q).

Definition push (q : t) (it : item) : option t :=
  group ← group_of q !! item_idx it;
  heap ← groups q !! group;
  let previous := list_max heap in
  let heap' := it :: heap in
  head ← list_max heap';
  let heads' :=
    if decide (previous = Some head) then heads q
    else {[(head, group)]} ∪
         match previous with
         | Some p => heads q ∖ {[(p, group)]}
         | None => heads q
         end in
  bytes' ← u64_add (bytes q) it.1;
  Some (mk heads' (directories q) (<[group := heap']> (groups q)) (group_of q)
           (S (count q)) bytes').

Definition pop_group (q : t) (group : nat) : option (option item * t) :=
  heap ← groups q !! group;
  match list_max heap with
  | None => Some (None, q)
  | Some it =>
      let heap' := remove_one it heap in
      let heads1 := heads q ∖ {[(it, group)]} in
      let heads' := match list_max heap' with
                    | Some head => {[(head, group)]} ∪ heads1
                    | None => heads1
                    end in
      bytes' ← u64_sub (bytes q) it.1;
      count' ← usize_sub (count q) 1;
      Some (Some it, mk heads' (directories q) (<[group := heap']> (groups q)) (group_of q)
                        count' bytes')
  end.

Definition pop (q : t) : option (option item * t) :=
  match set_last (heads q) with
  | None => Some (None, q)
  | Some (_, group) => pop_group q group
  end.

Definition is_empty (q : t) : bool := bool_decide (count q = 0%nat).

(** ** [Sched::take_small_group]: the part that works on the queue *)
Section TakeSmall.
Context (max_size : Z) (max_n : nat) (max_bytes : Z).

(** [size > max_size || size > max_bytes - bytes]. *)
Definition too_big (size bytes : Z) : option bool :=
  if decide (size > max_size) then Some true else
    rest ← u64_sub max_bytes bytes; Some (bool_decide (size > rest)).

(** The inner loop; [single] is [first.is_none()].  It stops at [max_n]
    results, so [max_n - length out] rounds are enough. *)
Fixpoint drain (fuel : nat) (single : bool) (heap : list item) (out : list nat) (bytes : Z)
  : option (list item * list nat * Z) :=
  match fuel with
  | O => Some (heap, out, bytes)
  | S fuel' =>
      if decide (length out < max_n)%nat then
        match list_max heap with
        | None => Some (heap, out, bytes)
        | Some it =>
            stop ← too_big it.1 bytes;
            if (stop : bool) then Some (heap, out, bytes) else
              let heap' := remove_one it heap in
              let out' := out ++ [item_idx it] in
              if single then Some (heap', out', bytes + it.1)
              else drain fuel' single heap' out' (bytes + it.1)
        end
      else Some (heap, out, bytes)
  end.

(** The outer loop.  Every round that continues takes at least one file. *)
Fixpoint take_loop (fuel : nat) (single : bool) (group : option nat) (q : t)
    (out : list nat) (bytes : Z) : option (t * list nat * Z) :=
  match fuel with
  | O => Some (q, out, bytes)
  | S fuel' =>
      if decide (length out < max_n)%nat then
        group' ← match group with
                 | Some g => heap ← groups q !! g;
                             Some (if decide (heap = []) then snd <$> set_last (heads q)
                                   else Some g)
                 | None => Some None
                 end;
        match (match group' with Some g => Some g | None => snd <$> set_last (heads q) end) with
        | None => Some (q, out, bytes)
        | Some selected =>
            heap ← groups q !! selected;
            match list_max heap with
            | None => Some (q, out, bytes)
            | Some head =>
                stop ← too_big head.1 bytes;
                if (stop : bool) then Some (q, out, bytes) else
                  let heads1 := heads q ∖ {[(head, selected)]} in
                  '(heap', out', bytes') ← drain (max_n - length out) single heap out bytes;
                  let heads' := match list_max heap' with
                                | Some h => {[(h, selected)]} ∪ heads1
                                | None => heads1
                                end in
                  let q' := mk heads' (directories q) (<[selected := heap']> (groups q))
                               (group_of q) (count q) (FileQueue.bytes q) in
                  take_loop fuel' single group' q' out' bytes'
            end
        end
      else Some (q, out, bytes)
  end.

Definition take_small (first : option nat) (q : t) : option (list nat * t) :=
  group ← match first with
          | Some idx => g ← group_of q !! idx; Some (Some g)
          | None => Some None
          end;
  '(q', out, taken) ← take_loop max_n (bool_decide (first = None)) group q [] 0;
  bytes' ← u64_sub (FileQueue.bytes q') taken;
  count' ← usize_sub (count q') (length out);
  Some (out, mk (heads q') (directories q') (groups q') (group_of q') count' bytes').
End TakeSmall.

(** ** Abstract value and invariant *)
Definition fq_list (q : t) : list item := mjoin (groups q).

Record wf_core (q : t) : Prop := {
  wf_heads h g : (h, g) ∈ heads q <->
    exists heap, groups q !! g = Some heap /\ list_max heap = Some h;
  wf_sizes it : it ∈ fq_list q -> 0 <= it.1;
  wf_dirs p g : directories q !! p = Some g -> (g < length (groups q))%nat;
  wf_group_of i g : group_of q !! i = Some g -> (g < length (groups q))%nat
}.

Record wf (q : t) : Prop := {
  wf_wf_core : wf_core q;
  wf_count : count q = length (fq_list q);
  wf_bytes : bytes q = sumZ (fst <$> fq_list q)
}.

(** File [idx] has been registered, so it may be queued. *)
Definition registered (q : t) (idx : nat) : Prop := (idx < length (group_of q))%nat.

(** ** Replacing one directory's heap *)
Definition heads_ok (H : gset (item * nat)) (gs : list (list item)) : Prop :=
  forall h g, (h, g) ∈ H <-> exists heap, gs !! g = Some heap /\ list_max heap = Some h.

Lemma join_insert (gs : list (list item)) g heap : gs !! g = Some heap ->
  exists rest, mjoin gs ≡ₚ heap ++ rest /\
    forall heap', mjoin (<[g := heap']> gs) ≡ₚ heap' ++ rest.
Proof.
  intros Hg. exists (mjoin (take g gs ++ drop (S g) gs)). split.
  - rewrite <- (take_drop_middle gs g heap Hg) at 1. rewrite !join_app. cbn.
    by rewrite Permutation_app_swap_app.
  - intros heap'. rewrite insert_take_drop by (by eapply lookup_lt_Some).
    rewrite !join_app. cbn. by rewrite Permutation_app_swap_app.
Qed.

Lemma heads_ok_update (H H' : gset (item * nat)) (gs : list (list item)) (g : nat)
    (heap heap' : list item) :
  heads_ok H gs -> gs !! g = Some heap ->
  (forall h i, (h, i) ∈ H' <->
     (i <> g /\ (h, i) ∈ H) \/ (i = g /\ list_max heap' = Some h)) ->
  heads_ok H' (<[g := heap']> gs).
Proof.
  intros HH Hg HH' h i. rewrite HH', (HH h i). apply lookup_lt_Some in Hg as Hlt.
  destruct (decide (i = g)) as [->|Hi].
  - rewrite list_lookup_insert_eq by done. naive_solver.
  - rewrite list_lookup_insert_ne by done. naive_solver.
Qed.

(** The head of a heap that is replaced: drop the old one, add the new one. *)
Definition head_set (heap : list item) (g : nat) : gset (item * nat) :=
  match list_max heap with Some h => {[(h, g)]} | None => ∅ end.

Lemma heads_ok_replace (H : gset (item * nat)) (gs : list (list item)) (g : nat)
    (heap heap' : list item) :
  heads_ok H gs -> gs !! g = Some heap ->
  heads_ok (head_set heap' g ∪ H ∖ head_set heap g) (<[g := heap']> gs).
Proof.
  intros HH Hg. apply (heads_ok_update H _ _ _ heap); [done..|]. intros h i.
  assert (Hold : (h, g) ∈ H <-> list_max heap = Some h) by (rewrite (HH h g); naive_solver).
  unfold head_set. rewrite elem_of_union, elem_of_difference.
  destruct (decide (i = g)) as [->|Hi]; destruct (list_max heap'), (list_max heap);
    rewrite ?elem_of_singleton, ?elem_of_empty; naive_solver.
Qed.

Lemma wf_core_replace (q : t) (g : nat) (heap heap' : list item) (H' : gset (item * nat)) c b :
  wf_core q -> groups q !! g = Some heap ->
  heads_ok H' (<[g := heap']> (groups q)) ->
  (forall it, it ∈ heap' -> it ∈ heap \/ 0 <= it.1) ->
  wf_core (mk H' (directories q) (<[g := heap']> (groups q)) (group_of q) c b).
Proof.
  intros W Hg HH Hsz. destruct (join_insert (groups q) g heap Hg) as (rest & HP & HP').
  split; cbn; [exact HH| | |].
  - intros it. unfold fq_list; cbn. rewrite HP', elem_of_app. intros [Hin|Hin].
    + destruct (Hsz it Hin); [|done]. apply (wf_sizes q W). unfold fq_list. rewrite HP. set_solver.
    + apply (wf_sizes q W). unfold fq_list. rewrite HP. set_solver.
  - intros p i. rewrite length_insert. apply (wf_dirs q W).
  - intros i j. rewrite length_insert. apply (wf_group_of q W).
Qed.

Lemma fq_push_spec (q : t) (it : item) :
  wf q -> registered q (item_idx it) -> 0 <= it.1 ->
  panics (u64_max < bytes q + it.1) (push q it) \/
  exists q', push q it = Some q' /\ wf q' /\ group_of q' = group_of q /\
             fq_list q' ≡ₚ it :: fq_list q /\ bytes q' = bytes q + it.1.
Proof.
  intros W Hreg Hsz. destruct (lookup_lt_is_Some_2 _ _ Hreg) as [g Hg].
  pose proof (wf_group_of q (wf_wf_core q W) _ _ Hg) as Hlt.
  destruct (lookup_lt_is_Some_2 _ _ Hlt) as [heap Hheap].
  destruct (join_insert (groups q) g heap Hheap) as (rest & HP & HP').
  unfold push. rewrite Hg. cbn [mbind option_bind]. rewrite Hheap. cbn [mbind option_bind].
  destruct (list_max (it :: heap)) as [head|] eqn:Hhead; [|by apply list_max_None in Hhead].
  cbn [mbind option_bind]. unfold u64_add.
  destruct (decide (bytes q + it.1 <= u64_max)); cbn [mbind option_bind]; [right|left; split; [done|lia]].
  eexists. split; [done|].
  assert (HPq : mjoin (<[g := it :: heap]> (groups q)) ≡ₚ it :: fq_list q).
  { rewrite HP'. cbn. unfold fq_list. by rewrite HP. }
  split_and!; [split| | |]; cbn.
  - apply (wf_core_replace q g heap); [by apply wf_wf_core|done| |].
    + pose proof (heads_ok_replace (heads q) (groups q) g heap (it :: heap)
        (wf_heads q (wf_wf_core q W)) Hheap) as HH.
      unfold head_set in HH. rewrite Hhead in HH.
      destruct (list_max heap) as [h|] eqn:Hh; cbn.
      * case_decide as Heq; [|exact HH]. injection Heq as ->.
        enough (heads q = {[(head, g)]} ∪ heads q ∖ {[(head, g)]}) as Hu by (rewrite Hu; exact HH).
        assert ((head, g) ∈ heads q) by (apply (wf_heads q (wf_wf_core q W)); eauto).
        by apply union_difference_singleton_L.
      * by rewrite (difference_empty_L (heads q)) in HH.
    + intros x [->|]%elem_of_cons; auto.
  - unfold fq_list; cbn. rewrite HPq. cbn. by rewrite (wf_count q W).
  - unfold fq_list; cbn. rewrite HPq. rewrite fmap_cons, sumZ_cons, (wf_bytes q W). lia.
  - done.
  - exact HPq.
  - done.
Qed.

Lemma register_bytes (q : t) idx destination : bytes (register q idx destination) = bytes q.
Proof. unfold register. by destruct (directories q !! _). Qed.

Lemma heads_in (q : t) h g : wf_core q -> (h, g) ∈ heads q ->
  exists heap, groups q !! g = Some heap /\ list_max heap = Some h.
Proof. intros W. apply (wf_heads q W). Qed.

Lemma heads_empty (q : t) : wf_core q -> heads q = ∅ -> fq_list q = [].
Proof.
  intros W He. unfold fq_list. destruct (mjoin (groups q)) as [|it l] eqn:E; [done|].
  assert (it ∈ mjoin (groups q)) as Hin by (rewrite E; set_solver).
  apply list_elem_of_join in Hin as (heap & Hin & (g & Hg)%list_elem_of_lookup).
  destruct (list_max heap) as [h|] eqn:Hh; [|apply list_max_None in Hh; set_solver].
  assert ((h, g) ∈ heads q) by (apply (wf_heads q W); eauto). set_solver.
Qed.

Lemma pop_group_spec (q : t) (g : nat) (heap : list item) (it : item) :
  wf q -> groups q !! g = Some heap -> list_max heap = Some it ->
  exists q', pop_group q g = Some (Some it, q') /\ wf q' /\ group_of q' = group_of q /\
             fq_list q ≡ₚ it :: fq_list q'.
Proof.
  intros W Hg Hmax. destruct (join_insert (groups q) g heap Hg) as (rest & HP & HP').
  pose proof (list_max_elem _ _ Hmax) as Hin. pose proof (remove_one_perm it heap Hin) as Hrm.
  assert (HPq : fq_list q ≡ₚ it :: mjoin (<[g := remove_one it heap]> (groups q))).
  { unfold fq_list. rewrite HP, HP', Hrm at 1. done. }
  assert (Hnn : 0 <= sumZ (fst <$> mjoin (<[g := remove_one it heap]> (groups q)))).
  { apply sumZ_nonneg. intros x (r & -> & Hr)%list_elem_of_fmap.
    apply (wf_sizes q (wf_wf_core q W)). rewrite HPq. set_solver. }
  unfold pop_group. rewrite Hg. cbn. rewrite Hmax.
  rewrite (proj2 (u64_sub_Some (bytes q) it.1
    (sumZ (fst <$> mjoin (<[g := remove_one it heap]> (groups q)))))); last first.
  { rewrite (wf_bytes q W), HPq, fmap_cons, sumZ_cons. lia. }
  cbn [mbind option_bind]. rewrite (proj2 (usize_sub_Some (count q) 1
    (length (mjoin (<[g := remove_one it heap]> (groups q)))))); last first.
  { rewrite (wf_count q W), HPq. cbn. lia. }
  cbn [mbind option_bind]. eexists. split; [done|]. split_and!; [|done|exact HPq].
  split; [|done..]. apply (wf_core_replace q g heap); [by apply wf_wf_core|done| |].
  - pose proof (heads_ok_replace (heads q) (groups q) g heap (remove_one it heap)
      (wf_heads q (wf_wf_core q W)) Hg) as HH. unfold head_set in HH. rewrite Hmax in HH.
    destruct (list_max (remove_one it heap)); [exact HH|]. by rewrite (left_id_L ∅ (∪)) in HH.
  - intros x Hx. left. rewrite Hrm. set_solver.
Qed.

Lemma fq_pop_spec (q : t) : wf q ->
  match pop q with
  | None => False
  | Some (None, q') => q' = q /\ fq_list q = []
  | Some (Some it, q') => wf q' /\ group_of q' = group_of q /\ fq_list q ≡ₚ it :: fq_list q' /\
      forall it', it' ∈ fq_list q -> rle it' it
  end.
Proof.
  intros W. unfold pop. destruct (set_last (heads q)) as [[h g]|] eqn:E.
  - apply set_last_Some in E as [Hin Hall].
    destruct (heads_in q h g (wf_wf_core q W) Hin) as (heap & Hg & Hmax).
    destruct (pop_group_spec q g heap h W Hg Hmax) as (q' & -> & W' & Hgo & HP).
    split_and!; [done..|]. intros it' (heap' & Hit & (g' & Hg')%list_elem_of_lookup)%list_elem_of_join.
    destruct (list_max heap') as [h'|] eqn:Hh'; [|apply list_max_None in Hh'; set_solver].
    assert ((h', g') ∈ heads q) as Hh by (apply (wf_heads q (wf_wf_core q W)); eauto).
    specialize (Hall _ Hh). apply (rle_trans _ h'); [by eapply list_max_ge|].
    apply rle_pair in Hall as [Hlt|[-> _]]; [|apply rle_refl]. unfold rle. by rewrite Hlt.
  - split; [done|]. apply set_last_None in E. by apply heads_empty; [apply wf_wf_core|].
Qed.

Lemma fq_wf_default : wf default_queue.
Proof. repeat split; cbn; set_solver. Qed.

Lemma fq_is_empty_spec (q : t) : wf q -> is_empty q = true <-> fq_list q = [].
Proof.
  intros W. unfold is_empty. rewrite bool_decide_eq_true, (wf_count q W).
  by rewrite length_zero_iff_nil.
Qed.

(** ** Registration *)
Lemma resize_insert_bound (l : list nat) m idx group n :
  (forall i g, l !! i = Some g -> g < n)%nat -> (group < n)%nat ->
  forall i g, <[idx := group]> (resize m 0%nat l) !! i = Some g -> (g < n)%nat.
Proof.
  intros Hl Hg i g. rewrite list_lookup_insert_Some. intros [(_ & <- & _)|[_ Hi]]; [done|].
  destruct (decide (i < m)%nat); [|rewrite lookup_resize_old in Hi by lia; done].
  destruct (decide (i < length l)%nat).
  - rewrite lookup_resize in Hi by lia. eauto.
  - rewrite lookup_resize_new in Hi by lia. injection Hi as <-. lia.
Qed.

Lemma register_group (q : t) dst : wf_core q ->
  let '(group, groups', directories') :=
    match directories q !! parent dst with
    | Some group => (group, groups q, directories q)
    | None => (length (groups q), groups q ++ [[]],
               <[parent dst := length (groups q)]> (directories q))
    end in
  (group < length groups')%nat /\ (length (groups q) <= length groups')%nat /\
  heads_ok (heads q) groups' /\ mjoin groups' = mjoin (groups q) /\
  (forall p g, directories' !! p = Some g -> g < length groups')%nat.
Proof.
  intros W. destruct (directories q !! parent dst) as [g|] eqn:Hd.
  - split_and!; [by eapply (wf_dirs q W)|done|exact (wf_heads q W)|done|exact (wf_dirs q W)].
  - rewrite length_app. cbn. split_and!; [lia|lia| | |].
    + intros h i. rewrite (wf_heads q W). split; intros (heap & Hh & Hm).
      * exists heap. split; [by apply lookup_app_l_Some|done].
      * apply lookup_app_Some in Hh as [?|[_ Hh]]; [eauto|].
        apply list_lookup_singleton_Some in Hh as [_ <-]. done.
    + rewrite join_app. cbn. by rewrite app_nil_r.
    + intros p g. rewrite lookup_insert_Some. intros [[_ <-]|[_ Hp]]; [lia|].
      apply (wf_dirs q W) in Hp. lia.
Qed.

Lemma register_spec (q : t) idx dst : wf q ->
  wf (register q idx dst) /\ registered (register q idx dst) idx /\
  (forall i, registered q i -> registered (register q idx dst) i) /\
  fq_list (register q idx dst) = fq_list q.
Proof.
  intros W. pose proof (wf_wf_core q W) as Wc. pose proof (register_group q dst Wc) as HG.
  unfold register. set (X := match directories q !! parent dst with Some _ => _ | None => _ end) in *.
  destruct X as [[group groups'] directories']. destruct HG as (Hg & Hle & HH & HJ & HD).
  unfold registered, fq_list; cbn. rewrite length_insert, length_resize, HJ.
  split_and!; [|lia|lia|done]. split; cbn.
  - split; cbn; [exact HH| |exact HD|].
    + unfold fq_list; cbn. rewrite HJ. apply (wf_sizes q Wc).
    + apply resize_insert_bound; [|done]. intros i g Hi. apply (wf_group_of q Wc) in Hi. lia.
  - unfold fq_list; cbn. rewrite HJ. apply (wf_count q W).
  - unfold fq_list; cbn. rewrite HJ. apply (wf_bytes q W).
Qed.

(** ** Taking a batch of small files *)
Section TakeSmallSpec.
Context (max_size : Z) (max_n : nat) (max_bytes : Z).

Lemma too_big_Some size bytes : bytes <= max_bytes ->
  exists b, too_big max_size max_bytes size bytes = Some b /\
    (if b then max_size < size \/ max_bytes < bytes + size
     else size <= max_size /\ bytes + size <= max_bytes).
Proof.
  intros Hb. unfold too_big. case_decide; [exists true; split; [done|lia]|].
  rewrite (proj2 (u64_sub_Some max_bytes bytes (max_bytes - bytes))) by lia. cbn.
  eexists. split; [done|]. case_bool_decide; lia.
Qed.

(** [items] were moved from [src] to the batch [out], ending at [out']. *)
Record taken (src dst : list item) (out out' : list nat) (bytes bytes' : Z)
    (items : list item) : Prop := {
  tk_perm : src ≡ₚ items ++ dst;
  tk_out : out' = out ++ (item_idx <$> items);
  tk_bytes : bytes' = bytes + sumZ (fst <$> items);
  tk_sizes it : it ∈ items -> it.1 <= max_size;
  tk_limit : bytes' <= max_bytes;
  tk_count : (length out <= max_n -> length out' <= max_n)%nat
}.

Lemma taken_nil src out bytes : bytes <= max_bytes -> taken src src out out bytes bytes [].
Proof. intros. split; cbn; rewrite ?app_nil_r; auto; [lia|set_solver]. Qed.

Lemma taken_trans l1 l2 l3 o1 o2 o3 b1 b2 b3 i1 i2 :
  taken l1 l2 o1 o2 b1 b2 i1 -> taken l2 l3 o2 o3 b2 b3 i2 ->
  taken l1 l3 o1 o3 b1 b3 (i1 ++ i2).
Proof.
  intros [P1 O1 B1 S1 L1 C1] [P2 O2 B2 S2 L2 C2]. split; auto.
  - by rewrite P1, P2, app_assoc.
  - by rewrite O2, O1, fmap_app, app_assoc.
  - rewrite fmap_app, sumZ_app. lia.
  - intros it [?|?]%elem_of_app; auto.
Qed.

Lemma taken_one heap it out bytes :
  list_max heap = Some it -> it.1 <= max_size -> bytes + it.1 <= max_bytes ->
  (length out < max_n)%nat ->
  taken heap (remove_one it heap) out (out ++ [item_idx it]) bytes (bytes + it.1) [it].
Proof.
  intros Hm Hs Hb Hn. split; cbn; auto.
  - apply remove_one_perm. by apply list_max_elem.
  - lia.
  - set_solver.
  - rewrite length_app. cbn. lia.
Qed.

Lemma drain_spec single : forall fuel heap out bytes, bytes <= max_bytes ->
  exists heap' out' bytes' items,
    drain max_size max_n max_bytes fuel single heap out bytes = Some (heap', out', bytes') /\
    taken heap heap' out out' bytes bytes' items.
Proof.
  induction fuel as [|fuel IH]; intros heap out bytes Hb; cbn [drain];
    [eauto 10 using taken_nil|].
  case_decide as Hn; [|eauto 10 using taken_nil].
  destruct (list_max heap) as [it|] eqn:Hm; [|eauto 10 using taken_nil].
  destruct (too_big_Some it.1 bytes Hb) as ([|] & -> & Hok); cbn [mbind option_bind];
    [eauto 10 using taken_nil|]. destruct Hok as [Hs Hb'].
  pose proof (taken_one heap it out bytes Hm Hs Hb' Hn) as T1. destruct single.
  - eauto 10.
  - destruct (IH (remove_one it heap) (out ++ [item_idx it]) (bytes + it.1) Hb')
      as (heap' & out' & bytes' & items & -> & T2). eauto 10 using taken_trans.
Qed.

(** One directory's heap drained: the queue keeps its invariant. *)
Lemma drained_wf (q : t) g heap heap' head items out out' bytes bytes' :
  wf_core q -> groups q !! g = Some heap -> list_max heap = Some head ->
  taken heap heap' out out' bytes bytes' items ->
  let q' := mk (match list_max heap' with
                | Some h => {[(h, g)]} ∪ heads q ∖ {[(head, g)]}
                | None => heads q ∖ {[(head, g)]}
                end) (directories q) (<[g := heap']> (groups q)) (group_of q) (count q)
               (FileQueue.bytes q) in
  wf_core q' /\ taken (fq_list q) (fq_list q') out out' bytes bytes' items.
Proof.
  intros W Hg Hm [P O B S L C] q'. destruct (join_insert (groups q) g heap Hg) as (rest & HP & HP').
  split.
  - apply (wf_core_replace q g heap); [done..| |].
    + pose proof (heads_ok_replace (heads q) (groups q) g heap heap' (wf_heads q W) Hg) as HH.
      unfold head_set in HH. rewrite Hm in HH.
      destruct (list_max heap'); [exact HH|]. by rewrite (left_id_L ∅ (∪)) in HH.
    + intros it Hit. left. rewrite P. set_solver.
  - split; auto. unfold fq_list; cbn. by rewrite HP, HP', P, app_assoc.
Qed.

Lemma take_loop_spec single : forall fuel group (q : t) out bytes,
  wf_core q -> (forall g, group = Some g -> (g < length (groups q))%nat) -> bytes <= max_bytes ->
  exists q' out' bytes' items,
    take_loop max_size max_n max_bytes fuel single group q out bytes = Some (q', out', bytes') /\
    wf_core q' /\ group_of q' = group_of q /\ count q' = count q /\
    FileQueue.bytes q' = FileQueue.bytes q /\
    taken (fq_list q) (fq_list q') out out' bytes bytes' items.
Proof.
  induction fuel as [|fuel IH]; intros group q out bytes W Hgr Hb; cbn [take_loop];
    [eauto 15 using taken_nil|].
  case_decide as Hn; [|eauto 15 using taken_nil].
  set (X := match group with Some g => _ | None => Some None end).
  assert (exists group', X = Some group' /\
            forall g, group' = Some g -> exists heap, groups q !! g = Some heap) as (group' & -> & Hg').
  { unfold X. destruct group as [g|]; [|naive_solver].
    destruct (lookup_lt_is_Some_2 (groups q) g) as [heap Hh]; [auto|]. rewrite Hh. cbn.
    eexists. split; [done|]. case_decide; [|naive_solver].
    destruct (set_last (heads q)) as [[h g']|] eqn:E; [|done]. cbn. intros ? [= <-].
    apply set_last_Some in E as [Hin _]. apply (heads_in q h) in Hin as (? & ? & _); eauto. }
  cbn [mbind option_bind].
  set (Y := match group' with Some g => Some g | None => snd <$> set_last (heads q) end).
  destruct Y as [sel|] eqn:HY; [|eauto 15 using taken_nil].
  assert (exists heap, groups q !! sel = Some heap) as [heap Hsel].
  { unfold Y in HY. destruct group' as [g|]; [injection HY as ->; eauto|].
    destruct (set_last (heads q)) as [[h g']|] eqn:E; [|done]. injection HY as <-.
    apply set_last_Some in E as [Hin _]. apply (heads_in q h) in Hin as (? & ? & _); eauto. }
  rewrite Hsel. cbn [mbind option_bind].
  destruct (list_max heap) as [head|] eqn:Hm; [|eauto 15 using taken_nil].
  destruct (too_big_Some head.1 bytes Hb) as ([|] & -> & Hok); cbn [mbind option_bind];
    [eauto 15 using taken_nil|].
  destruct (drain_spec single (max_n - length out) heap out bytes Hb)
    as (heap' & out' & bytes' & items & -> & T1). cbn [mbind option_bind].
  destruct (drained_wf q sel heap heap' head items out out' bytes bytes' W Hsel Hm T1) as [W' T].
  edestruct (IH group' _ out' bytes' W') as (q' & out2 & bytes2 & items2 & -> & W2 & G2 & C2 & B2 & T2).
  { intros g Hg. cbn. rewrite length_insert. destruct (Hg' g Hg) as [? ?]. by eapply lookup_lt_Some. }
  { apply (tk_limit _ _ _ _ _ _ _ T1). }
  eauto 15 using taken_trans.
Qed.

Lemma take_small_spec (q : t) first : wf q -> 0 <= max_bytes ->
  (forall idx, first = Some idx -> registered q idx) ->
  exists out q' items,
    take_small max_size max_n max_bytes first q = Some (out, q') /\ wf q' /\
    group_of q' = group_of q /\ out = item_idx <$> items /\ fq_list q ≡ₚ items ++ fq_list q' /\
    (length out <= max_n)%nat /\ sumZ (fst <$> items) <= max_bytes /\
    (forall it, it ∈ items -> it.1 <= max_size).
Proof.
  intros W Hmb Hreg. unfold take_small. pose proof (wf_wf_core q W) as Wc.
  assert (exists group, match first with Some idx => g ← group_of q !! idx; Some (Some g)
                        | None => Some None end = Some group /\
            forall g, group = Some g -> (g < length (groups q))%nat) as (group & -> & Hg).
  { destruct first as [idx|]; [|naive_solver].
    destruct (lookup_lt_is_Some_2 _ _ (Hreg idx eq_refl)) as [g Hl]. rewrite Hl. cbn.
    eexists. split; [done|]. intros ? [= <-]. by eapply (wf_group_of q Wc). }
  cbn [mbind option_bind].
  destruct (take_loop_spec (bool_decide (first = None)) max_n group q [] 0 Wc Hg Hmb)
    as (q1 & out & taken' & items & -> & W1 & G1 & C1 & B1 & [P O B S L C]).
  cbn [mbind option_bind]. cbn in O.
  assert (Hnn : 0 <= sumZ (fst <$> fq_list q1)).
  { apply sumZ_nonneg. intros x (r & -> & Hr)%list_elem_of_fmap. by apply (wf_sizes q1 W1). }
  rewrite (proj2 (u64_sub_Some (FileQueue.bytes q1) taken' (sumZ (fst <$> fq_list q1)))); last first.
  { rewrite B1, (wf_bytes q W), P, fmap_app, sumZ_app. lia. }
  cbn [mbind option_bind].
  rewrite (proj2 (usize_sub_Some (count q1) (length out) (length (fq_list q1)))); last first.
  { rewrite C1, (wf_count q W), P, length_app, O, length_fmap. lia. }
  cbn [mbind option_bind]. eexists _, _, items. split; [done|].
  split_and!; [|done|exact O|exact P| |lia|done].
  - split; [|done..]. destruct W1 as [w1 w2 w3 w4]. by split.
  - apply C. cbn. lia.
Qed.

(** Why a batch ends: it is full, nothing is left, or a file that is left does
    not fit. *)
Definition stopped (q : t) (out : list nat) (bytes : Z) : Prop :=
  (max_n <= length out)%nat \/ fq_list q = [] \/
  exists it, it ∈ fq_list q /\ (max_size < it.1 \/ max_bytes < bytes + it.1).

Lemma drain_progress fuel heap it out bytes heap' out' bytes' : bytes <= max_bytes ->
  list_max heap = Some it -> too_big max_size max_bytes it.1 bytes = Some false ->
  (0 < fuel)%nat -> (length out < max_n)%nat ->
  drain max_size max_n max_bytes fuel false heap out bytes = Some (heap', out', bytes') ->
  (length out < length out')%nat.
Proof.
  intros Hb Hm Hf Hfuel Hn H. destruct fuel as [|fuel]; [lia|]. cbn [drain] in H.
  rewrite decide_True in H by done. rewrite Hm, Hf in H. cbn [mbind option_bind] in H.
  destruct (too_big_Some it.1 bytes Hb) as (b & Hb' & Hok). rewrite Hf in Hb'. injection Hb' as <-.
  destruct (drain_spec false fuel (remove_one it heap) (out ++ [item_idx it]) (bytes + it.1))
    as (h2 & o2 & b2 & items & Hd & T); [lia|]. rewrite H in Hd. injection Hd as -> -> ->.
  rewrite (tk_out _ _ _ _ _ _ _ T), !length_app. cbn. lia.
Qed.

Lemma head_item (q : t) g heap it : groups q !! g = Some heap -> list_max heap = Some it ->
  it ∈ fq_list q.
Proof.
  intros Hg Hm. unfold fq_list. apply list_elem_of_join. exists heap.
  split; [by apply list_max_elem|by eapply list_elem_of_lookup_2].
Qed.

(** The group a round works on: nonempty whenever any file is queued. *)
Lemma selected_group (q : t) group : wf_core q ->
  (forall g, group = Some g -> (g < length (groups q))%nat) ->
  exists group', match group with
                 | Some g => heap ← groups q !! g;
                             Some (if decide (heap = []) then snd <$> set_last (heads q) else Some g)
                 | None => Some None
                 end = Some group' /\
    (forall g, group' = Some g -> (g < length (groups q))%nat) /\
    match (match group' with Some g => Some g | None => snd <$> set_last (heads q) end) with
    | None => fq_list q = []
    | Some sel => exists heap it, groups q !! sel = Some heap /\ list_max heap = Some it
    end.
Proof.
  intros W Hgr.
  assert (Hlast : match snd <$> set_last (heads q) with
                  | None => fq_list q = []
                  | Some sel => exists heap it, groups q !! sel = Some heap /\ list_max heap = Some it
                  end).
  { destruct (set_last (heads q)) as [[h g]|] eqn:E; cbn.
    - apply set_last_Some in E as [Hin _]. apply (heads_in q h) in Hin as (heap & ? & ?); eauto.
    - apply set_last_None in E. by apply heads_empty. }
  destruct group as [g|]; [|exists None; split_and!; [done|done|exact Hlast]].
  destruct (lookup_lt_is_Some_2 (groups q) g) as [heap Hh]; [auto|]. rewrite Hh. cbn [mbind option_bind].
  eexists. split; [done|]. case_decide as Hne.
  - destruct (snd <$> set_last (heads q)) as [sel|] eqn:E; [|done]. split; [|done].
    intros g' [= <-]. destruct Hlast as (hp & it & Hsel & _). by eapply lookup_lt_Some.
  - split; [by intros g' [= <-]; apply Hgr|]. exists heap.
    destruct (list_max heap) as [it|] eqn:E; [eauto|]. by apply list_max_None in E.
Qed.

Lemma take_loop_stops fuel : forall group (q : t) out bytes q' out' bytes',
  wf_core q -> (forall g, group = Some g -> (g < length (groups q))%nat) -> bytes <= max_bytes ->
  (max_n - length out <= fuel)%nat ->
  take_loop max_size max_n max_bytes fuel false group q out bytes = Some (q', out', bytes') ->
  stopped q' out' bytes'.
Proof.
  induction fuel as [|fuel IH]; intros group q out bytes q' out' bytes' W Hgr Hb Hfuel H;
    cbn [take_loop] in H.
  { injection H as <- <- <-. left. lia. }
  destruct (decide (length out < max_n)%nat) as [Hn|Hn]; [|injection H as <- <- <-; left; lia].
  destruct (selected_group q group W Hgr) as (group' & Hg' & Hlt & Hsel). rewrite Hg' in H.
  cbn [mbind option_bind] in H.
  set (Y := match group' with Some g => Some g | None => snd <$> set_last (heads q) end) in *.
  destruct Y as [sel|]; [|injection H as <- <- <-; right; left; done].
  destruct Hsel as (heap & it & Hheap & Hm). rewrite Hheap in H. cbn [mbind option_bind] in H.
  rewrite Hm in H. destruct (too_big_Some it.1 bytes Hb) as (b & Htb & Hok). rewrite Htb in H.
  cbn [mbind option_bind] in H. destruct b.
  { injection H as <- <- <-. right; right. exists it. split; [by eapply head_item|done]. }
  destruct (drain_spec false (max_n - length out) heap out bytes Hb)
    as (heap' & out1 & bytes1 & items & Hd & T1). rewrite Hd in H. cbn [mbind option_bind] in H.
  destruct (drained_wf q sel heap heap' it items out out1 bytes bytes1 W Hheap Hm T1) as [W' _].
  assert (Hlong : (length out < length out1)%nat).
  { apply (drain_progress (max_n - length out) heap it out bytes heap' out1 bytes1); [done..|lia|done|done]. }
  eapply IH; [exact W'| |apply (tk_limit _ _ _ _ _ _ _ T1)| |exact H].
  - intros g Hg. cbn. rewrite length_insert. auto.
  - lia.
Qed.
End TakeSmallSpec.

(** ** Properties *)

(** [FileQueue::pop] is largest-first: it never panics, and it removes
    exactly one queued file, the greatest by size and then by bit-reversed
    index, whatever directory it is in; it returns nothing only when nothing is
    queued. *)
Theorem file_queue_pops_largest (q : t) :
  wf q ->
  match pop q with
  | None => False
  | Some (None, q') => q' = q /\ fq_list q = []
  | Some (Some it, q') => wf q' /\ fq_list q ≡ₚ it :: fq_list q' /\
      forall it', it' ∈ fq_list q -> it'.1 < it.1 \/ (it'.1 = it.1 /\ unrev it.2 <= unrev it'.2)
  end.
Proof.
  intros W. pose proof (fq_pop_spec q W) as H. destruct (pop q) as [[[it|] q']|]; [|done..].
  destruct H as (W' & _ & HP & Hmax). split_and!; [done..|].
  intros [sz' [o']] Hin. specialize (Hmax _ Hin). destruct it as [sz [o]]. cbn.
  apply rle_pair in Hmax as [Hlt|[-> Hle]]; [left; exact Hlt|right]. split; [done|].
  unfold rle in Hle. cbn in Hle. exact Hle.
Qed.

(** Three files in two directories. *)
Definition demo_queue : option t :=
  let q := register (register (register default_queue 0 [97; 47; 49]) 1 [98; 47; 50]) 2 [97; 47; 51] in
  q ← push q (item_of 10 0); q ← push q (item_of 30 1); push q (item_of 20 2).

Lemma item_idx_of size idx : Z.of_nat idx < 2 ^ 64 -> item_idx (item_of size idx) = idx.
Proof. apply index_new. Qed.

Lemma demo_queue_wf : exists q, demo_queue = Some q /\ wf q /\ registered q 0.
Proof.
  unfold demo_queue.
  destruct (register_spec default_queue 0 [97; 47; 49] fq_wf_default) as (W0 & R0 & _ & _).
  destruct (register_spec _ 1 [98; 47; 50] W0) as (W1 & R1 & K1 & _).
  destruct (register_spec _ 2 [97; 47; 51] W1) as (W2 & R2 & K2 & _).
  set (q := register _ 2 _) in *. cbv zeta.
  destruct (fq_push_spec q (item_of 10 0) W2) as [[_ H]|(q1 & -> & W3 & G3 & _ & B3)];
    [rewrite item_idx_of by done; apply K2, K1, R0|done|done|].
  cbn [mbind option_bind].
  destruct (fq_push_spec q1 (item_of 30 1) W3) as [[_ H]|(q2 & -> & W4 & G4 & _ & B4)];
    [unfold registered; rewrite G3, item_idx_of by done; apply K2, R1|done|by rewrite B3 in H|].
  cbn [mbind option_bind].
  destruct (fq_push_spec q2 (item_of 20 2) W4) as [[_ H]|(q3 & -> & W5 & G5 & _)];
    [unfold registered; rewrite G4, G3, item_idx_of by done; apply R2|done|by rewrite B4, B3 in H|].
  exists q3. split_and!; [done..|]. unfold registered. rewrite G5, G4, G3. by apply K2, K1.
Qed.

Lemma file_queue_pops_largest_witness :
  exists q it q', demo_queue = Some q /\ pop q = Some (Some it, q') /\ item_idx it = 1%nat /\ wf q'.
Proof.
  destruct demo_queue_wf as (q & Hq & W & _). pose proof (file_queue_pops_largest q W) as H.
  assert (E : option_map (fun r => option_map item_idx (fst r)) (demo_queue ≫= pop) = Some (Some 1%nat))
    by (vm_compute; reflexivity).
  rewrite Hq in E. cbn [mbind option_bind] in E.
  destruct (pop q) as [[[it|] q']|] eqn:Ep; [|done..]. exists q, it, q'. destruct H as (W' & _).
  split; [exact Hq|]. split; [exact Ep|]. split; [|exact W'].
  cbn [option_map fst] in E. congruence.
Defined.

(** [take_small_group] fills a batch and stops for a reason: started from a
    registered file it never panics; it moves distinct queued files out of the
    queue, at most [max_n] of them, each of at most [max_size] bytes and
    together at most [max_bytes]; and when it ends the batch is full, the queue
    is empty, or some queued file does not fit. *)
Theorem take_small_fills_batch (max_size : Z) (max_n : nat) (max_bytes : Z) (q : t) (first : nat) :
  wf q -> 0 <= max_bytes -> registered q first ->
  exists out q' items,
    take_small max_size max_n max_bytes (Some first) q = Some (out, q') /\ wf q' /\
    out = item_idx <$> items /\ fq_list q ≡ₚ items ++ fq_list q' /\
    (length out <= max_n)%nat /\ sumZ (fst <$> items) <= max_bytes /\
    (forall it, it ∈ items -> it.1 <= max_size) /\
    (length out = max_n \/ fq_list q' = [] \/
     exists it, it ∈ fq_list q' /\ (max_size < it.1 \/ max_bytes < sumZ (fst <$> items) + it.1)).
Proof.
  intros W Hmb Hreg.
  destruct (take_small_spec max_size max_n max_bytes q (Some first) W Hmb) as
    (out & q' & items & Ht & W' & _ & Ho & HP & Hn & Hs & Hm); [by intros ? [= <-]|].
  exists out, q', items. split_and!; [done..|].
  unfold take_small in Ht. destruct (lookup_lt_is_Some_2 _ _ Hreg) as [g Hg]. rewrite Hg in Ht.
  cbn [mbind option_bind] in Ht. rewrite bool_decide_eq_false_2 in Ht by done.
  assert (Hgl : forall g', Some g = Some g' -> (g' < length (groups q))%nat).
  { intros g' [= <-]. by eapply (wf_group_of q (wf_wf_core q W)). }
  destruct (take_loop_spec max_size max_n max_bytes false max_n (Some g) q [] 0 (wf_wf_core q W) Hgl Hmb)
    as (q1 & out1 & tk & its & Hl & _ & _ & _ & _ & T). rewrite Hl in Ht. cbn [mbind option_bind] in Ht.
  pose proof (take_loop_stops max_size max_n max_bytes max_n (Some g) q [] 0 q1 out1 tk
    (wf_wf_core q W) Hgl Hmb ltac:(cbn; lia) Hl) as Hstop.
  destruct (u64_sub _ _); cbn [mbind option_bind] in Ht; [|done].
  destruct (usize_sub _ _); cbn [mbind option_bind] in Ht; [|done]. injection Ht as <- <-.
  assert (Hsum : tk = sumZ (fst <$> items)).
  { rewrite (tk_bytes _ _ _ _ _ _ _ _ _ _ T). cbn.
    pose proof (tk_perm _ _ _ _ _ _ _ _ _ _ T) as P. unfold fq_list in HP. cbn in HP.
    unfold fq_list in P. rewrite HP in P. apply (fmap_Permutation fst) in P. apply sumZ_proper in P.
    rewrite !fmap_app, !sumZ_app in P. lia. }
  destruct Hstop as [Hs1|[Hs2|Hs3]]; [left; lia|right; left; exact Hs2|right; right].
  by rewrite <- Hsum.
Qed.

Lemma take_small_fills_batch_witness :
  exists q out q', demo_queue = Some q /\ take_small 25 5 40 (Some 0%nat) q = Some (out, q') /\
    (length out <= 5)%nat /\ out = [2; 0]%nat.
Proof.
  destruct demo_queue_wf as (q & Hq & W & R).
  destruct (take_small_fills_batch 25 5 40 q 0 W ltac:(lia) R) as (out & q' & items & Ht & _ & _ & _ & Hn & _).
  exists q, out, q'. split; [exact Hq|]. split; [exact Ht|]. split; [exact Hn|].
  assert (E : option_map fst (demo_queue ≫= take_small 25 5 40 (Some 0%nat)) = Some [2; 0]%nat)
    by (vm_compute; reflexivity).
  rewrite Hq in E. cbn [mbind option_bind] in E. rewrite Ht in E. cbn [option_map fst] in E. congruence.
Defined.

End FileQueue.
