(* ===== verification/Jobs.v ===== *)
(** * The job table (src/src/sched.rs, [FileJob], [FileJobData], [Jobs])

    Jobs live in chunks of 1024 write-once slots shared through [Arc]s, so that
    a worker's snapshot keeps the version it was handed while the table grows
    and jobs are retried.  The chunks are modelled as a store of slot vectors
    addressed by reference; a snapshot holds a reference and reads the store at
    any later time, so its stability is a theorem, not a modelling choice.
    [Arc<FileJobData>] values are only written through [Arc::make_mut], which
    copies when shared: they have value semantics and appear as values. *)

From S2P Require Import Prelude Proto.
Local Open Scope Z_scope.

Record FileJobData := mkJobData {
  j_compare_ranges : bool;
  j_compare_final : bool;
  j_compared : bool;
  j_resume_partial : bool;
  j_replace : bool;
  j_recompared : Z;
  j_src : PathBytes;
  j_source : RegisteredPath;
  j_dst : PathBytes;
  j_rel : list Z;
  j_entry : Entry;
  j_target_condition : TargetCondition;
  j_policy_condition : bool;
  j_attempt : Z;
  (** the address of the shared progress counter, [Arc<AtomicU64>] *)
  j_done : nat;
  j_inplace : bool;
  j_in_place_refusal : option ReplaceReason;
  j_rel_bytes : PathBytes;
  j_src_rel : option PathBytes;
  j_scanned : ScannedDestination
}.

Record FileJob := mkJob { fj_data : FileJobData; fj_dst_entry : option Entry }.

(** A slot vector: [Vec<OnceLock<FileJobData>>]. *)
Abbreviation slots := (list (option FileJobData)).
(** The chunks allocated so far, by reference. *)
Abbreviation chunk_store := (list slots).

Inductive SnapshotData :=
| Shared (data : FileJobData)
| Chunk (chunk : nat) (slot : nat).

(** [Borrow<FileJobData> for SnapshotData]. *)
Definition snapshot_borrow (st : chunk_store) (s : SnapshotData) : option FileJobData :=
  match s with
  | Shared data => Some data
  | Chunk c slot => sl ← st !! c; o ← sl !! slot; o
  end.

Definition JOBS_PER_CHUNK : nat := 1024.

Module Jobs.

Record t := mk {
  chunks : list nat;
  destinations : list (option Entry);
  retries : gmap nat FileJobData;
  destination_names : gmap (Z * Z) nat;
  named : nat;
  prepared : list Z;
  earlier_partials : list Z
}.

Definition default_jobs : t := mk [] [] ∅ ∅ 0 [] [].

Definition linked_identity (entry : Entry) : option (Z * Z) :=
  if bool_decide (e_kind entry = File) && bool_decide (1 < e_nlink entry)
  then Some (e_dev entry, e_ino entry) else None.

Definition locate (idx : nat) : nat * nat :=
  ((idx / JOBS_PER_CHUNK)%nat, (idx mod JOBS_PER_CHUNK)%nat).

#[global] Arguments locate : simpl never.

(** [CurrentJob]: a borrowed version and the owner a snapshot must retain. *)
Inductive CurrentJob := CRetry (data : FileJobData) | CChunk (chunk slot : nat).

Definition current (j : t) (idx : nat) : option CurrentJob :=
  match retries j !! idx with
  | Some data => Some (CRetry data)
  | None => let '(chunk, slot) := locate idx in
            c ← chunks j !! chunk; Some (CChunk c slot)
  end.

(** [CurrentJob::snapshot] and [CurrentJob::data]. *)
Definition cur_snapshot (c : CurrentJob) : SnapshotData :=
  match c with CRetry data => Shared data | CChunk chunk slot => Chunk chunk slot end.
Definition cur_data (st : chunk_store) (c : CurrentJob) : option FileJobData :=
  snapshot_borrow st (cur_snapshot c).

(** [Index::index]. *)
Definition index (st : chunk_store) (j : t) (idx : nat) : option FileJobData :=
  current j idx ≫= cur_data st.

Definition len (j : t) : nat := length (destinations j).

Definition set_chunks (j : t) (cs : list nat) : t :=
  mk cs (destinations j) (retries j) (destination_names j) (named j) (prepared j)
     (earlier_partials j).

Definition push (st : chunk_store) (j : t) (job : FileJob) : option (chunk_store * t) :=
  let '(chunk, slot) := locate (len j) in
  let '(st, cs) := if decide (slot = 0%nat)
                   then (st ++ [replicate JOBS_PER_CHUNK None], chunks j ++ [length st])
                   else (st, chunks j) in
  c ← cs !! chunk;
  sl ← st !! c;
  o ← sl !! slot;
  match o with
  | Some _ => None (* "job slot published twice" *)
  | None =>
      Some (<[c := <[slot := Some (fj_data job)]> sl]> st,
            mk cs (destinations j ++ [fj_dst_entry job]) (retries j) (destination_names j)
               (named j) (prepared j) (earlier_partials j))
  end.

(** [get_mut] followed by the caller's assignment [f]. *)
Definition update (st : chunk_store) (j : t) (idx : nat) (f : FileJobData -> FileJobData)
  : option t :=
  data ← index st j idx;
  Some (mk (chunks j) (destinations j) (<[idx := f data]> (retries j)) (destination_names j)
           (named j) (prepared j) (earlier_partials j)).

(** [self.bits[word] |= bit], growing the vector first. *)
Definition set_bit (bits : list Z) (idx : nat) : option (bool * list Z) :=
  let word := (idx / 64)%nat in
  let bit := Z.shiftl 1 (Z.of_nat (idx mod 64)) in
  let bits := if decide (length bits <= word)%nat then resize (word + 1) 0 bits else bits in
  w ← bits !! word;
  Some (bool_decide (Z.land w bit = 0), <[word := Z.lor w bit]> bits).

Definition first_preparation (j : t) (idx : nat) : option (bool * t) :=
  '(first, bits) ← set_bit (prepared j) idx;
  Some (first, mk (chunks j) (destinations j) (retries j) (destination_names j) (named j) bits
                  (earlier_partials j)).

Definition found_earlier_partials (j : t) (idx : nat) : option t :=
  '(_, bits) ← set_bit (earlier_partials j) idx;
  Some (mk (chunks j) (destinations j) (retries j) (destination_names j) (named j) (prepared j) bits).

Definition test_bit (bits : list Z) (idx : nat) : bool :=
  match bits !! (idx / 64)%nat with
  | Some w => negb (bool_decide (Z.land w (Z.shiftl 1 (Z.of_nat (idx mod 64))) = 0))
  | None => false
  end.

Definition has_earlier_partials (j : t) (idx : nat) : bool := test_bit (earlier_partials j) idx.

Definition snapshot (j : t) (idx : nat) : option (SnapshotData * option Entry) :=
  c ← current j idx; d ← destinations j !! idx; Some (cur_snapshot c, d).

Definition destination (j : t) (idx : nat) : option (option Entry) := destinations j !! idx.

(** [*names.entry(identity).or_default() += 1] for the linked entries of a slice. *)
Fixpoint count_names (names : gmap (Z * Z) nat) (entries : list (option Entry)) : gmap (Z * Z) nat :=
  match entries with
  | [] => names
  | e :: rest =>
      count_names (match e ≫= linked_identity with
                   | Some id => <[id := S (default 0%nat (names !! id))]> names
                   | None => names
                   end) rest
  end.

Definition name_destinations (j : t) (end_ : nat) : t :=
  if decide (end_ <= named j)%nat then j else
    mk (chunks j) (destinations j) (retries j)
       (count_names (destination_names j) (drop (named j) (take end_ (destinations j))))
       end_ (prepared j) (earlier_partials j).

Definition set_destination (j : t) (idx : nat) (entry : Entry) : option t :=
  old ← destinations j !! idx;
  let j := match old ≫= linked_identity with
           | Some _ => name_destinations j (idx + 1)
           | None => j
           end in
  Some (mk (chunks j) (<[idx := Some entry]> (destinations j)) (retries j) (destination_names j)
           (named j) (prepared j) (earlier_partials j)).

Definition destination_name_count (j : t) (idx : nat) : option (nat * t) :=
  let j := name_destinations j (len j) in
  d ← destinations j !! idx;
  Some (default 1%nat (id ← d ≫= linked_identity; destination_names j !! id), j).

(** [release]: [*self = Self::default()]. *)
Definition release (j : t) : t := default_jobs.

(** ** Invariant *)

(** Chunk number [c] is full up to the jobs it holds and empty beyond. *)
Record wf (st : chunk_store) (j : t) : Prop := {
  wf_chunks_nodup : NoDup (chunks j);
  wf_chunks_len : length (chunks j) = ((len j + (JOBS_PER_CHUNK - 1)) / JOBS_PER_CHUNK)%nat;
  wf_slots c r : chunks j !! c = Some r -> exists sl, st !! r = Some sl /\
    length sl = JOBS_PER_CHUNK /\
    forall s, (s < JOBS_PER_CHUNK)%nat ->
      if decide (c * JOBS_PER_CHUNK + s < len j)%nat then exists d, sl !! s = Some (Some d)
      else sl !! s = Some None;
  wf_retries i d : retries j !! i = Some d -> (i < len j)%nat;
  wf_named : (named j <= len j)%nat
}.

(** Slots published in [st] are unchanged in [st']: write-once cells only grow. *)
Definition store_extends (st st' : chunk_store) : Prop :=
  forall c s d, (st !! c ≫= fun sl => sl !! s) = Some (Some d) ->
                (st' !! c ≫= fun sl => sl !! s) = Some (Some d).

(** ** Chunk arithmetic *)
Lemma ceil_aligned K n : (0 < K -> n mod K = 0 ->
  (n + (K - 1)) / K = n / K /\ (S n + (K - 1)) / K = S (n / K))%nat.
Proof.
  intros HK Hm. pose proof (Nat.div_mod_eq n K) as Hd. rewrite Hm in Hd. split.
  - symmetry. apply (Nat.div_unique _ _ _ (K - 1)); lia.
  - symmetry. apply (Nat.div_unique _ _ _ 0); lia.
Qed.

Lemma ceil_unaligned K n : (0 < K -> n mod K <> 0 ->
  (n + (K - 1)) / K = S (n / K) /\ (S n + (K - 1)) / K = S (n / K))%nat.
Proof.
  intros HK Hm. pose proof (Nat.div_mod_eq n K) as Hd.
  pose proof (Nat.mod_upper_bound n K ltac:(lia)) as Hb. split; symmetry.
  - apply (Nat.div_unique _ _ _ (n mod K - 1)); lia.
  - apply (Nat.div_unique _ _ _ (n mod K)); lia.
Qed.

Lemma JOBS_PER_CHUNK_pos : (0 < JOBS_PER_CHUNK)%nat.
Proof. apply Nat.lt_0_succ. Qed.

Lemma locate_eq idx : idx = ((locate idx).1 * JOBS_PER_CHUNK + (locate idx).2)%nat.
Proof.
  unfold locate, fst, snd. rewrite Nat.mul_comm. apply Nat.div_mod_eq.
Qed.

Lemma locate_slot idx : ((locate idx).2 < JOBS_PER_CHUNK)%nat.
Proof. unfold locate, snd. apply Nat.mod_upper_bound. pose proof JOBS_PER_CHUNK_pos. lia. Qed.

Opaque JOBS_PER_CHUNK.

Lemma locate_lt_chunks st j idx : wf st j -> (idx < len j)%nat ->
  ((locate idx).1 < length (chunks j))%nat.
Proof.
  intros W Hi. rewrite (wf_chunks_len _ _ W). unfold locate, fst.
  pose proof JOBS_PER_CHUNK_pos as HK. set (K := JOBS_PER_CHUNK) in *.
  apply Nat.div_le_lower_bound with (b := K) (q := S (idx / K)); [lia|].
  pose proof (Nat.div_mod_eq idx K). pose proof (Nat.mod_upper_bound idx K ltac:(lia)). nia.
Qed.

(** Reading a job through its slot. *)
Lemma index_published st j idx : wf st j -> (idx < len j)%nat ->
  exists d, index st j idx = Some d.
Proof.
  intros W Hi. unfold index, current. destruct (retries j !! idx) as [d|]; [by eexists|].
  pose proof (locate_eq idx) as He. pose proof (locate_slot idx) as Hs.
  pose proof (locate_lt_chunks st j idx W Hi) as Hc.
  destruct (locate idx) as [c s]; cbn [fst snd] in *.
  destruct (lookup_lt_is_Some_2 _ _ Hc) as [r Hr]. rewrite Hr. cbn.
  destruct (wf_slots _ _ W _ _ Hr) as (sl & Hsl & _ & Hslot). specialize (Hslot s Hs).
  rewrite decide_True in Hslot by lia. destruct Hslot as [d Hd].
  exists d. unfold cur_data; cbn. rewrite Hsl; cbn. by rewrite Hd.
Qed.

Lemma index_bound st j idx d : wf st j -> index st j idx = Some d -> (idx < len j)%nat.
Proof.
  intros W. unfold index, current. destruct (retries j !! idx) as [d'|] eqn:Hr.
  { intros _. by eapply wf_retries. }
  pose proof (locate_eq idx) as He. pose proof (locate_slot idx) as Hs.
  destruct (locate idx) as [c s]; cbn [fst snd] in *.
  destruct (chunks j !! c) as [r|] eqn:Hc; cbn; [|done]. unfold cur_data; cbn.
  destruct (wf_slots _ _ W _ _ Hc) as (sl & -> & _ & Hslot). specialize (Hslot s Hs).
  case_decide; [lia|]. cbn. by rewrite Hslot.
Qed.

Lemma store_extends_refl st : store_extends st st.
Proof. by intros c s d. Qed.

Lemma store_extends_trans st1 st2 st3 :
  store_extends st1 st2 -> store_extends st2 st3 -> store_extends st1 st3.
Proof. intros H1 H2 c s d H. auto. Qed.

Lemma store_extends_alloc st sl : store_extends st (st ++ [sl]).
Proof.
  intros c s d. destruct (st !! c) as [sl0|] eqn:E; cbn; [|done].
  by rewrite (lookup_app_l_Some _ _ _ _ E).
Qed.

Lemma store_extends_publish st c sl s d : st !! c = Some sl -> sl !! s = Some None ->
  store_extends st (<[c := <[s := Some d]> sl]> st).
Proof.
  intros Hc Hs c' s' d' H. destruct (decide (c' = c)) as [->|Hne].
  - rewrite list_lookup_insert_eq by (by eapply lookup_lt_Some). rewrite Hc in H. cbn in *.
    destruct (decide (s' = s)) as [->|]; [congruence|]. by rewrite list_lookup_insert_ne.
  - by rewrite list_lookup_insert_ne by done.
Qed.

(** A snapshot that reads a value keeps reading it in every extension. *)
Lemma snapshot_stable st st' s d :
  store_extends st st' -> snapshot_borrow st s = Some d -> snapshot_borrow st' s = Some d.
Proof.
  intros He. destruct s as [d'|c sl]; cbn; [done|]. intros H.
  assert ((st !! c ≫= fun sl0 => sl0 !! sl) = Some (Some d)) as H1.
  { destruct (st !! c) as [sl0|]; cbn in *; [|done]. destruct (sl0 !! sl); naive_solver. }
  apply He in H1. destruct (st' !! c) as [sl0|]; cbn in *; [|done]. by rewrite H1.
Qed.

(** The vector of chunks and the store after making room for one more job. *)
Lemma push_room st j : wf st j ->
  let '(chunk, slot) := locate (len j) in
  let '(st', cs) := if decide (slot = 0%nat)
                    then (st ++ [replicate JOBS_PER_CHUNK None], chunks j ++ [length st])
                    else (st, chunks j) in
  NoDup cs /\ length cs = ((S (len j) + (JOBS_PER_CHUNK - 1)) / JOBS_PER_CHUNK)%nat /\
  (chunk < length cs)%nat /\ store_extends st st' /\ (forall i r, chunks j !! i = Some r -> cs !! i = Some r) /\
  (forall c r, cs !! c = Some r -> exists sl, st' !! r = Some sl /\ length sl = JOBS_PER_CHUNK /\
     forall s, (s < JOBS_PER_CHUNK)%nat ->
       if decide (c * JOBS_PER_CHUNK + s < len j)%nat then exists d, sl !! s = Some (Some d)
       else sl !! s = Some None).
Proof.
  intros W. pose proof JOBS_PER_CHUNK_pos as HK. destruct (locate (len j)) as [chunk slot] eqn:El.
  assert (Hchunk : chunk = (len j / JOBS_PER_CHUNK)%nat) by (by injection El as <- _).
  assert (Hslot : slot = (len j mod JOBS_PER_CHUNK)%nat) by (by injection El as _ <-).
  pose proof (wf_chunks_len _ _ W) as Hlen. case_decide as H0.
  - destruct (ceil_aligned JOBS_PER_CHUNK (len j)) as [E1 E2]; [done|congruence|].
    rewrite E1 in Hlen. rewrite length_app, E2, Hlen, Hchunk. cbn. split_and!; [|lia|lia| | |].
    + apply NoDup_app. split_and!; [apply (wf_chunks_nodup _ _ W)| |apply NoDup_singleton].
      intros r Hr ->%list_elem_of_singleton. apply list_elem_of_lookup in Hr as [c Hc].
      destruct (wf_slots _ _ W _ _ Hc) as (sl & Hsl & _). apply lookup_lt_Some in Hsl. lia.
    + apply store_extends_alloc.
    + intros i r Hi. by apply lookup_app_l_Some.
    + intros c r [Hc|[Hc1 Hc]]%lookup_app_Some.
      * destruct (wf_slots _ _ W _ _ Hc) as (sl & Hsl & Hll & Hs). exists sl.
        split_and!; [by apply lookup_app_l_Some|done..].
      * apply list_lookup_singleton_Some in Hc as [Hc2 <-].
        exists (replicate JOBS_PER_CHUNK None). rewrite length_replicate. split_and!; [|done|].
        { rewrite lookup_app_r, Nat.sub_diag by lia. done. }
        intros s Hs. rewrite decide_False; [by apply lookup_replicate_2|].
        pose proof (Nat.div_mod_eq (len j) JOBS_PER_CHUNK). nia.
  - destruct (ceil_unaligned JOBS_PER_CHUNK (len j)) as [E1 E2]; [done|congruence|].
    rewrite E2, <- E1, <- Hlen. split_and!; [apply (wf_chunks_nodup _ _ W)|done| | |done|].
    + rewrite Hlen, E1, Hchunk. lia.
    + apply store_extends_refl.
    + apply (wf_slots _ _ W).
Qed.

Lemma jobs_push_spec st j job : wf st j ->
  exists st' j', push st j job = Some (st', j') /\ wf st' j' /\ store_extends st st' /\
    len j' = S (len j) /\ index st' j' (len j) = Some (fj_data job) /\
    destination j' (len j) = Some (fj_dst_entry job) /\
    (forall i, (i < len j)%nat -> index st' j' i = index st j i /\ destination j' i = destination j i).
Proof.
  intros W. pose proof (push_room st j W) as HR. unfold push.
  pose proof (locate_eq (len j)) as He. pose proof (locate_slot (len j)) as Hs.
  destruct (locate (len j)) as [chunk slot] eqn:El. cbn [fst snd] in *.
  set (X := if decide (slot = 0%nat) then _ else _) in *. destruct X as [st1 cs].
  destruct HR as (Hnd & Hcl & Hlt & Hext & Hold & Hslots).
  destruct (lookup_lt_is_Some_2 _ _ Hlt) as [c Hc]. rewrite Hc. cbn [mbind option_bind].
  destruct (Hslots _ _ Hc) as (sl & Hsl & Hll & Hsp). rewrite Hsl. cbn [mbind option_bind].
  pose proof (Hsp slot Hs) as Hfree. rewrite decide_False in Hfree by lia.
  rewrite Hfree. cbn [mbind option_bind]. eexists _, _. split; [done|].
  set (st' := <[c := <[slot := Some (fj_data job)]> sl]> st1).
  assert (Hext' : store_extends st st') by eauto using store_extends_trans, store_extends_publish.
  assert (Hcur : forall i, (i < len j)%nat -> index st' (mk cs (destinations j ++ [fj_dst_entry job])
            (retries j) (destination_names j) (named j) (prepared j) (earlier_partials j)) i = index st j i).
  { intros i Hi. destruct (index_published st j i W Hi) as [d Hd]. rewrite Hd.
    unfold index, current in *. cbn. destruct (retries j !! i) as [d'|]; [done|].
    destruct (locate i) as [c' s']. destruct (chunks j !! c') as [r|] eqn:Er; [|done].
    rewrite (Hold _ _ Er). cbn in *. by eapply (snapshot_stable st st' (Chunk r s')). }
  split_and!; cbn.
  - split; unfold len; cbn; rewrite ?length_app; cbn; rewrite ?Nat.add_1_r; [done|done| | |].
    + intros c' r Hr. destruct (Hslots _ _ Hr) as (sl' & Hsl' & Hll' & Hsp').
      destruct (decide (r = c)) as [->|Hne].
      * assert (c' = chunk) as -> by (by eapply (NoDup_lookup cs)). simplify_eq.
        exists (<[slot := Some (fj_data job)]> sl). unfold st'.
        rewrite list_lookup_insert_eq by (by eapply lookup_lt_Some). rewrite length_insert.
        split_and!; [done..|]. intros s Hs'. destruct (decide (s = slot)) as [->|Hne].
        { rewrite decide_True by (unfold len in *; lia). rewrite list_lookup_insert_eq by lia. eauto. }
        rewrite list_lookup_insert_ne by done. specialize (Hsp s Hs'). unfold len in *.
        repeat case_decide; (done || lia).
      * exists sl'. unfold st'. rewrite list_lookup_insert_ne by done. split_and!; [done..|].
        intros s Hs'. specialize (Hsp' s Hs'). unfold len in *.
        assert (c' <> chunk) by (intros ->; congruence).
        repeat case_decide; try done; exfalso; nia.
    + intros i d Hi. apply (wf_retries _ _ W) in Hi. unfold len in Hi. lia.
    + pose proof (wf_named _ _ W) as Hn. unfold len in Hn. lia.
  - done.
  - unfold len; cbn. rewrite length_app; cbn. lia.
  - unfold index, current; cbn. destruct (retries j !! len j) as [d|] eqn:Er.
    { apply (wf_retries _ _ W) in Er. lia. }
    rewrite El, Hc. cbn. unfold cur_data; cbn. unfold st'.
    rewrite list_lookup_insert_eq by (by eapply lookup_lt_Some). cbn.
    rewrite list_lookup_insert_eq by lia. done.
  - unfold destination; cbn. unfold len. by rewrite lookup_app_r, Nat.sub_diag by lia.
  - intros i Hi. split; [by apply Hcur|]. unfold destination; cbn. by rewrite lookup_app_l.
Qed.

(** ** Changing a job *)
Lemma update_spec st j idx f : wf st j -> (idx < len j)%nat ->
  exists j', update st j idx f = Some j' /\ wf st j' /\ len j' = len j /\
    index st j' idx = f <$> index st j idx /\
    (forall i, i <> idx -> index st j' i = index st j i).
Proof.
  intros W Hi. destruct (index_published st j idx W Hi) as [d Hd]. unfold update. rewrite Hd.
  cbn [mbind option_bind]. eexists. split; [done|]. split_and!; [|done| |].
  - destruct W as [w1 w2 w3 w4 w5]. split; cbn; [done..| |done].
    intros i d'. rewrite lookup_insert_Some. intros [[<- _]|[_ ?]]; [done|eauto].
  - unfold index, current; cbn. by rewrite lookup_insert_eq.
  - intros i Hne. unfold index, current; cbn. by rewrite lookup_insert_ne.
Qed.

(** ** Bitmaps *)
Lemma land_bit_zero w k : 0 <= k -> Z.land w (Z.shiftl 1 k) = 0 <-> Z.testbit w k = false.
Proof.
  intros Hk. rewrite Z.shiftl_1_l. split.
  - intros H. assert (Z.testbit (Z.land w (2 ^ k)) k = false) as Hb by (by rewrite H, Z.bits_0).
    rewrite Z.land_spec, Z.pow2_bits_true, andb_true_r in Hb by done. done.
  - intros H. apply Z.bits_inj'. intros i Hi. rewrite Z.land_spec, Z.bits_0, Z.pow2_bits_eqb by done.
    destruct (Z.eqb_spec k i); [subst; by rewrite H|]. apply andb_false_r.
Qed.

Lemma land_bit_decide w k : 0 <= k ->
  bool_decide (Z.land w (Z.shiftl 1 k) = 0) = negb (Z.testbit w k).
Proof.
  intros Hk. pose proof (land_bit_zero w k Hk) as Hz.
  case_bool_decide as E; destruct (Z.testbit w k); try done; exfalso; naive_solver.
Qed.

Lemma test_bit_spec bits i :
  test_bit bits i = match bits !! (i / 64)%nat with
                    | Some w => Z.testbit w (Z.of_nat (i mod 64)) | None => false end.
Proof.
  unfold test_bit. destruct (bits !! (i / 64)%nat) as [w|]; [|done].
  rewrite land_bit_decide by lia. apply negb_involutive.
Qed.

Lemma set_bit_spec bits idx : exists bits',
  set_bit bits idx = Some (negb (test_bit bits idx), bits') /\
  forall i, test_bit bits' i = bool_decide (i = idx) || test_bit bits i.
Proof.
  unfold set_bit. set (word := (idx / 64)%nat).
  set (grown := if decide (length bits <= word)%nat then resize (word + 1) 0 bits else bits).
  assert (Hgrown : forall n, default 0 (grown !! n) = default 0 (bits !! n)).
  { intros n. unfold grown. case_decide as H; [|done].
    destruct (decide (n < word + 1)%nat) as [Hn|Hn].
    - destruct (decide (n < length bits)%nat); [by rewrite lookup_resize|].
      rewrite lookup_resize_new, (lookup_ge_None_2 bits) by lia. done.
    - by rewrite lookup_resize_old, (lookup_ge_None_2 bits) by lia. }
  assert (is_Some (grown !! word)) as [w Hw].
  { apply lookup_lt_is_Some. unfold grown. case_decide; rewrite ?length_resize; lia. }
  assert (Htest : forall i, test_bit bits i = Z.testbit (default 0 (bits !! (i / 64)%nat))
                                                (Z.of_nat (i mod 64))).
  { intros i. rewrite test_bit_spec. destruct (bits !! _); cbn; [done|]. by rewrite Z.bits_0. }
  rewrite Hw. cbn [mbind option_bind]. eexists. split.
  - do 2 f_equal. rewrite Htest, <- Hgrown. fold word. rewrite Hw. cbn.
    by rewrite land_bit_decide by lia.
  - intros i. rewrite Htest, test_bit_spec. destruct (decide ((i / 64)%nat = word)) as [Hwd|Hwd].
    + rewrite Hwd, list_lookup_insert_eq by (by eapply lookup_lt_Some).
      rewrite <- (Hgrown word), Hw. change (default 0 (Some w)) with w. rewrite Z.lor_spec, Z.shiftl_1_l, Z.pow2_bits_eqb by lia.
      rewrite orb_comm. f_equal. case_bool_decide as E; [subst; apply Z.eqb_refl|].
      apply Z.eqb_neq. intros Hm. apply E. unfold word in Hwd.
      pose proof (Nat.div_mod_eq i 64) as H1. pose proof (Nat.div_mod_eq idx 64) as H2.
      rewrite Hwd in H1. apply Nat2Z.inj in Hm. congruence.
    + rewrite list_lookup_insert_ne by done. rewrite bool_decide_eq_false_2 by (intros ->; done).
      rewrite <- (Hgrown (i / 64)%nat). destruct (grown !! (i / 64)%nat); [done|].
      change (default 0 None) with 0. by rewrite Z.bits_0.
Qed.

(** ** Sequences of operations on the table *)
Inductive op :=
| OPush (job : FileJob)
| OUpdate (idx : nat) (f : FileJobData -> FileJobData)
| OSetDestination (idx : nat) (e : Entry)
| OFirstPreparation (idx : nat)
| OFoundEarlier (idx : nat)
| ONames (idx : nat)
| ORelease.

Definition run_op (o : op) (s : chunk_store * t) : option (chunk_store * t) :=
  let '(st, j) := s in
  match o with
  | OPush job => push st j job
  | OUpdate idx f => j' ← update st j idx f; Some (st, j')
  | OSetDestination idx e => j' ← set_destination j idx e; Some (st, j')
  | OFirstPreparation idx => '(_, j') ← first_preparation j idx; Some (st, j')
  | OFoundEarlier idx => j' ← found_earlier_partials j idx; Some (st, j')
  | ONames idx => '(_, j') ← destination_name_count j idx; Some (st, j')
  | ORelease => Some (st, release j)
  end.

Fixpoint run_ops (os : list op) (s : chunk_store * t) : option (chunk_store * t) :=
  match os with
  | [] => Some s
  | o :: rest => s' ← run_op o s; run_ops rest s'
  end.

Lemma push_extends st j job st' j' : push st j job = Some (st', j') -> store_extends st st'.
Proof.
  unfold push. destruct (locate (len j)) as [chunk slot].
  set (X := if decide (slot = 0%nat) then _ else _).
  assert (store_extends st X.1) as HX.
  { unfold X. case_decide; [apply store_extends_alloc|apply store_extends_refl]. }
  destruct X as [st1 cs]. cbn in HX. intros H.
  destruct (cs !! chunk) as [c|]; [|done]. cbn in H. destruct (st1 !! c) as [sl|] eqn:Ec; [|done].
  cbn in H. destruct (sl !! slot) as [[d|]|] eqn:Es; cbn in H; [done| |done].
  injection H as <- <-. eauto using store_extends_trans, store_extends_publish.
Qed.

Lemma run_op_extends o st j st' j' :
  run_op o (st, j) = Some (st', j') -> store_extends st st'.
Proof.
  destruct o; cbn; [apply push_extends|..]; intros H; simplify_option_eq; repeat case_match;
    simplify_eq/=; try apply store_extends_refl.
Qed.

Lemma run_ops_extends os : forall st j st' j',
  run_ops os (st, j) = Some (st', j') -> store_extends st st'.
Proof.
  induction os as [|o os IH]; intros st j st' j'; cbn [run_ops].
  - intros [= <- <-]. apply store_extends_refl.
  - destruct (run_op o (st, j)) as [[st1 j1]|] eqn:E; [|done]. cbn. intros H.
    eauto using store_extends_trans, run_op_extends.
Qed.

(** ** Preparing each file once *)
Fixpoint preparations (j : t) (idxs : list nat) : option (list bool * t) :=
  match idxs with
  | [] => Some ([], j)
  | i :: rest => '(b, j1) ← first_preparation j i;
                 '(bs, j2) ← preparations j1 rest; Some (b :: bs, j2)
  end.

(** Which positions of a list hold an element not seen before. *)
Fixpoint first_seen (seen : list nat) (idxs : list nat) : list bool :=
  match idxs with
  | [] => []
  | i :: rest => bool_decide (i ∉ seen) :: first_seen (i :: seen) rest
  end.

Lemma preparations_spec idxs : forall j seen,
  (forall i, test_bit (prepared j) i = bool_decide (i ∈ seen)) ->
  exists j', preparations j idxs = Some (first_seen seen idxs, j').
Proof.
  induction idxs as [|i idxs IH]; intros j seen Hseen; cbn [preparations first_seen]; [eauto|].
  unfold first_preparation. destruct (set_bit_spec (prepared j) i) as (bits & -> & Hb).
  cbn [mbind option_bind]. rewrite Hseen.
  edestruct (IH (mk (chunks j) (destinations j) (retries j) (destination_names j) (named j) bits
                  (earlier_partials j)) (i :: seen)) as [j' ->].
  { intros k. cbn. rewrite Hb, Hseen. apply eq_true_iff_eq.
    rewrite orb_true_iff, !bool_decide_eq_true, elem_of_cons. naive_solver. }
  cbn [mbind option_bind]. eexists. do 3 f_equal. rewrite bool_decide_not. done.
Qed.

(** ** Counting the names of a linked destination *)
Definition is_id (id : Z * Z) (d : option Entry) : bool :=
  bool_decide (d ≫= linked_identity = Some id).

Lemma count_names_spec entries : forall names id,
  default 0%nat (count_names names entries !! id) =
  (default 0%nat (names !! id) + countb (is_id id) entries)%nat.
Proof.
  induction entries as [|e entries IH]; intros names id; cbn [count_names]; [cbn; lia|].
  rewrite IH, countb_cons. unfold is_id at 2.
  destruct (e ≫= linked_identity) as [id'|] eqn:E; [|by rewrite bool_decide_eq_false_2].
  destruct (decide (id = id')) as [->|Hne].
  - rewrite lookup_insert_eq, bool_decide_eq_true_2 by done. cbn. lia.
  - rewrite lookup_insert_ne, bool_decide_eq_false_2 by congruence. done.
Qed.

(** The counts cover exactly the jobs already named. *)
Definition names_ok (j : t) : Prop :=
  (named j <= len j)%nat /\
  forall id, default 0%nat (destination_names j !! id) =
             countb (is_id id) (take (named j) (destinations j)).

Lemma name_destinations_spec j n : names_ok j -> (n <= len j)%nat ->
  names_ok (name_destinations j n) /\ (n <= named (name_destinations j n))%nat /\
  destinations (name_destinations j n) = destinations j.
Proof.
  intros [Hn Hc] Hle. unfold name_destinations. case_decide as H; [done|].
  split_and!; [|cbn; lia|done]. split; [done|]. intros id.
  cbn [destination_names named destinations].
  rewrite count_names_spec, Hc, <- countb_app. f_equal.
  etrans; [|apply (take_drop (named j))]. by rewrite take_take, Nat.min_l by lia.
Qed.

(** ** Properties *)

(** The write-once chunk table behaves as a growing array: from every
    well-formed table a push succeeds (no slot is ever published twice, no
    index is out of range), the new job is read back at the next index with
    its destination, every earlier job and destination reads as before, and
    the table stays well-formed. *)
Theorem jobs_push_reads_back (st : chunk_store) (j : t) (job : FileJob) :
  wf st j ->
  exists st' j', push st j job = Some (st', j') /\ wf st' j' /\
    len j' = S (len j) /\ index st' j' (len j) = Some (fj_data job) /\
    destination j' (len j) = Some (fj_dst_entry job) /\
    (forall i, (i < len j)%nat -> index st' j' i = index st j i /\ destination j' i = destination j i).
Proof.
  intros W. destruct (jobs_push_spec st j job W) as (st' & j' & ? & ? & _ & ? & ? & ? & ?). eauto 10.
Qed.

Lemma jobs_wf_default st : wf st default_jobs.
Proof.
  split; unfold len; cbn; [apply NoDup_nil_2| |set_solver|set_solver|lia].
  symmetry. apply Nat.div_small. pose proof JOBS_PER_CHUNK_pos. lia.
Qed.

Definition demo_entry (nlink : Z) : Entry :=
  mkEntry [97] File 7 0 0 420 1 1 0 9 11 nlink 0 0 None.
Definition demo_job : FileJob :=
  mkJob (mkJobData false false false false false 0 [97] (mkRegistered 0 [97]) [98] [97]
           (demo_entry 1) Any false 0 0 false None [98] None ScUnknown) None.

Lemma jobs_push_reads_back_witness :
  exists st' j', push [] default_jobs demo_job = Some (st', j') /\
    index st' j' 0 = Some (fj_data demo_job).
Proof.
  destruct (jobs_push_reads_back [] default_jobs demo_job (jobs_wf_default []))
    as (st' & j' & H1 & _ & _ & H2 & _). exists st', j'. exact (conj H1 H2).
Defined.

(** A worker's snapshot of a job never changes: after any sequence of
    pushes, retries, destination changes, preparation marks and even the
    release of the whole table, the snapshot still reads the data the job had
    when the snapshot was taken. *)
Theorem jobs_snapshot_immutable (st st' : chunk_store) (j j' : t) (idx : nat) (os : list op)
    (s : SnapshotData) (d : option Entry) :
  wf st j -> (idx < len j)%nat ->
  snapshot j idx = Some (s, d) -> run_ops os (st, j) = Some (st', j') ->
  exists data, index st j idx = Some data /\ snapshot_borrow st' s = Some data.
Proof.
  intros W Hi Hs Hr. destruct (index_published st j idx W Hi) as [data Hd].
  exists data. split; [done|]. apply (snapshot_stable st); [by eapply run_ops_extends|].
  unfold index in Hd. unfold snapshot in Hs. destruct (current j idx) as [c|]; [|done].
  cbn in *. destruct (destinations j !! idx); [|done]. cbn in Hs. injection Hs as <- _. done.
Qed.

Lemma jobs_snapshot_immutable_witness :
  exists data,
    (exists st j, run_ops [OPush demo_job] ([], default_jobs) = Some (st, j) /\
       index st j 0 = Some data) /\
    exists st', snapshot_borrow st' (Chunk 0 0) = Some data.
Proof.
  destruct (jobs_push_spec [] default_jobs demo_job (jobs_wf_default []))
    as (st & j & Hp & W & _ & Hl & Hi & _).
  assert (exists d, snapshot j 0 = Some (Chunk 0 0, d)) as [d Hsn].
  { vm_compute in Hp. injection Hp as _ <-. eexists. reflexivity. }
  destruct (update_spec st j 0 (fun d => mkJobData true true true true true 1 (j_src d)
    (j_source d) (j_dst d) (j_rel d) (j_entry d) Absent true 1 0 true None (j_rel_bytes d) None
    ScAbsent) W) as (j1 & Hu & _); [rewrite Hl; cbn; lia|].
  destruct (jobs_snapshot_immutable st st j (release j1) 0
    [OUpdate 0 (fun d => mkJobData true true true true true 1 (j_src d)
    (j_source d) (j_dst d) (j_rel d) (j_entry d) Absent true 1 0 true None (j_rel_bytes d) None
    ScAbsent); ORelease] (Chunk 0 0) d W) as (data & H1 & H2).
  - rewrite Hl. cbn. lia.
  - exact Hsn.
  - cbn [run_ops run_op mbind option_bind]. rewrite Hu. reflexivity.
  - exists data. split; [|eauto]. exists st, j. split; [|exact H1].
    cbn [run_ops run_op]. rewrite Hp. reflexivity.
Defined.

(** [first_preparation] answers true exactly once per file: over any
    sequence of preparations of a fresh table, the answer is true at the
    positions holding an index that did not occur before, whatever the order
    and however far apart the indices (the bitmap grows as needed). *)
Theorem first_preparation_once_per_file (idxs : list nat) :
  exists j', preparations default_jobs idxs = Some (first_seen [] idxs, j').
Proof. apply preparations_spec. intros i. rewrite test_bit_spec. cbn. done. Qed.

(** [destination_names] counts the jobs of the copy whose destination is the
    same multiply linked file: with the counts covering the jobs already
    named, asking for job [idx] returns the number of jobs whose destination
    has the same device and inode, and 1 when the destination is not a
    multiply linked regular file. *)
Theorem destination_names_counts_links (j : t) (idx : nat) (d : option Entry) :
  names_ok j -> destinations j !! idx = Some d ->
  exists j', destination_name_count j idx =
    Some (match d ≫= linked_identity with
          | Some id => countb (is_id id) (destinations j)
          | None => 1%nat
          end, j') /\ names_ok j'.
Proof.
  intros Hok Hd. destruct (name_destinations_spec j (len j) Hok ltac:(done)) as (Hok' & Hn & Hds).
  unfold destination_name_count. rewrite Hds, Hd. cbn [mbind option_bind]. eexists.
  split; [|exact Hok']. do 2 f_equal. destruct (d ≫= linked_identity) as [id|] eqn:E; [|done].
  cbn [mbind option_bind]. destruct Hok' as [_ Hc]. specialize (Hc id). rewrite Hds, take_ge in Hc.
  2: { exact Hn. }
  assert (0 < countb (is_id id) (destinations j))%nat as Hpos.
  { unfold countb. apply list_elem_of_lookup_2 in Hd.
    assert (d ∈ filter (is_id id) (destinations j)) as Hin.
    { apply list_elem_of_filter. split; [|done]. unfold is_id. by rewrite bool_decide_eq_true_2. }
    destruct (filter _ _); [set_solver|cbn; lia]. }
  destruct (destination_names _ !! id); cbn in *; lia.
Qed.

Lemma destination_names_counts_links_witness :
  exists j', destination_name_count
    (mk [] [Some (demo_entry 2); None; Some (demo_entry 2)] ∅ ∅ 0 [] []) 0 = Some (2%nat, j').
Proof.
  destruct (destination_names_counts_links
    (mk [] [Some (demo_entry 2); None; Some (demo_entry 2)] ∅ ∅ 0 [] []) 0 (Some (demo_entry 2)))
    as (j' & H & _); [split; [cbn; lia|reflexivity]|reflexivity|]. exists j'. exact H.
Defined.

(** A destination recorded by [set_destination] after the plan is counted as a
    name although the job was planned with no destination: the count is of the
    jobs' recorded destinations, not of their planned ones. *)
Example set_destination_counts_unplanned :
  exists j1 j2, set_destination (mk [] [None; Some (demo_entry 2)] ∅ ∅ 0 [] []) 0 (demo_entry 2)
      = Some j1 /\ destination_name_count j1 1 = Some (2%nat, j2).
Proof. eexists _, _. split; reflexivity. Qed.

End Jobs.
