(* ===== verification/Sched.v ===== *)
(** * The scheduler (src/src/sched.rs)

    Every method of [Sched] that takes the scheduler's lock is one function on
    the whole scheduler state, returning [None] where the source would panic
    (a failed [expect], an index out of range, an underflowing counter).
    - Range and small-file batch handles are [Arc<Mutex<..>>] cells shared by
      the scheduler and the workers: they are references into [range_heap] and
      [fast_heap], so a steal that shortens a victim's range is visible through
      the victim's own handle.
    - A condition variable has no state; the calls that signal one are recorded
      in order in [signals], and a wait inside [next] is the outcome [Wait],
      after which [next_wake] runs the loop again.
    - Byte totals are [u64]: every plain sum, difference and product is checked,
      as are the [u32] counts [outstanding] (whose first value is the truncating
      [ranges.len() as u32]).  Sums that are bounded by a number the source
      already holds are plain: [off + len] is the end of a queued range,
      [take_small]'s total is at most [max_bytes], the limits of an initial split
      are at most its end.  Counters of workers, probes and files ([usize]) move
      by the number of items in hand and are naturals.  [new] computes
      [2 * block] for a block size below 2^63. *)

From S2P Require Import Prelude Proto Jobs RangeQueue FileQueue.
Local Open Scope Z_scope.

Record RangeSplit := mkSplit { rs_block : Z; rs_minimum : Z }.

#[export] Instance RangeSplit_eq_dec : EqDecision RangeSplit.
Proof. solve_decision. Defined.

Record RangeState := mkRange {
  r_idx : nat;
  r_pos : Z;
  r_end : Z;
  r_split : option RangeSplit
}.

(** [FastGroup]: the half-open range [start..end] of the batch's files. *)
Record FastGroup := mkGroup { fg_start : nat; fg_end : nat; fg_bytes : Z }.

Record FastBatchState := mkBatch {
  fb_files : list (Z * nat);
  fb_groups : list FastGroup;
  fb_owned : list bool
}.

Inductive Item :=
| IFile (idx : nat)
| IRange (handle : nat)
| IFinish (idx : nat) (matched : bool)
| IExit.

Inductive RangeWork := Cancelled | RWReady (handle : option nat).

(** Calls on the condition variables [cv] and [tune_cv], and the cancellation
    of worker connections still being set up. *)
Inductive Signal := CvAll | CvOne | TuneOne | CancelSetups.

Record Inner := mkInner {
  files : FileQueue.t;
  ranges : RangeQueue.t;
  finishes : list (nat * bool); (* the top of the stack first *)
  finishing : nat;
  inflight : list nat;
  outstanding : gmap nat Z;
  failed : gset nat;
  probing : nat;
  waiting_workers : nat;
  fast_probing : nat;
  fast_batches : nat;
  fast_groups : list nat;
  file_work_anticipated : bool;
  scan_done_flag : bool;
  work_released : bool;
  abort_flag : bool
}.

Record Sched := mkSched {
  inner : Inner;
  range_heap : gmap nat RangeState;
  fast_heap : gmap nat FastBatchState;
  next_ref : nat;
  direct_fallback_workers : nat;
  initial_range_workers : nat;
  tune_request : nat;
  job_store : chunk_store;
  jobs : Jobs.t;
  block : Z;
  min_split : Z;
  held : gset nat;
  setups_cancelled : bool;
  signals : list Signal
}.

(** Field updates. *)
Definition with_files (v : FileQueue.t) (x : Inner) : Inner :=
  mkInner v (ranges x) (finishes x) (finishing x) (inflight x) (outstanding x) (failed x)
    (probing x) (waiting_workers x) (fast_probing x) (fast_batches x) (fast_groups x)
    (file_work_anticipated x) (scan_done_flag x) (work_released x) (abort_flag x).
Definition with_ranges (v : RangeQueue.t) (x : Inner) : Inner :=
  mkInner (files x) v (finishes x) (finishing x) (inflight x) (outstanding x) (failed x)
    (probing x) (waiting_workers x) (fast_probing x) (fast_batches x) (fast_groups x)
    (file_work_anticipated x) (scan_done_flag x) (work_released x) (abort_flag x).
Definition with_finishes (v : list (nat * bool)) (x : Inner) : Inner :=
  mkInner (files x) (ranges x) v (finishing x) (inflight x) (outstanding x) (failed x) (probing
    x) (waiting_workers x) (fast_probing x) (fast_batches x) (fast_groups x)
    (file_work_anticipated x) (scan_done_flag x) (work_released x) (abort_flag x).
Definition with_finishing (v : nat) (x : Inner) : Inner :=
  mkInner (files x) (ranges x) (finishes x) v (inflight x) (outstanding x) (failed x) (probing
    x) (waiting_workers x) (fast_probing x) (fast_batches x) (fast_groups x)
    (file_work_anticipated x) (scan_done_flag x) (work_released x) (abort_flag x).
Definition with_inflight (v : list nat) (x : Inner) : Inner :=
  mkInner (files x) (ranges x) (finishes x) (finishing x) v (outstanding x) (failed x) (probing
    x) (waiting_workers x) (fast_probing x) (fast_batches x) (fast_groups x)
    (file_work_anticipated x) (scan_done_flag x) (work_released x) (abort_flag x).
Definition with_outstanding (v : gmap nat Z) (x : Inner) : Inner :=
  mkInner (files x) (ranges x) (finishes x) (finishing x) (inflight x) v (failed x) (probing x)
    (waiting_workers x) (fast_probing x) (fast_batches x) (fast_groups x) (file_work_anticipated
    x) (scan_done_flag x) (work_released x) (abort_flag x).
Definition with_failed (v : gset nat) (x : Inner) : Inner :=
  mkInner (files x) (ranges x) (finishes x) (finishing x) (inflight x) (outstanding x) v
    (probing x) (waiting_workers x) (fast_probing x) (fast_batches x) (fast_groups x)
    (file_work_anticipated x) (scan_done_flag x) (work_released x) (abort_flag x).
Definition with_probing (v : nat) (x : Inner) : Inner :=
  mkInner (files x) (ranges x) (finishes x) (finishing x) (inflight x) (outstanding x) (failed
    x) v (waiting_workers x) (fast_probing x) (fast_batches x) (fast_groups x)
    (file_work_anticipated x) (scan_done_flag x) (work_released x) (abort_flag x).
Definition with_waiting_workers (v : nat) (x : Inner) : Inner :=
  mkInner (files x) (ranges x) (finishes x) (finishing x) (inflight x) (outstanding x) (failed
    x) (probing x) v (fast_probing x) (fast_batches x) (fast_groups x) (file_work_anticipated x)
    (scan_done_flag x) (work_released x) (abort_flag x).
Definition with_fast_probing (v : nat) (x : Inner) : Inner :=
  mkInner (files x) (ranges x) (finishes x) (finishing x) (inflight x) (outstanding x) (failed
    x) (probing x) (waiting_workers x) v (fast_batches x) (fast_groups x) (file_work_anticipated
    x) (scan_done_flag x) (work_released x) (abort_flag x).
Definition with_fast_batches (v : nat) (x : Inner) : Inner :=
  mkInner (files x) (ranges x) (finishes x) (finishing x) (inflight x) (outstanding x) (failed
    x) (probing x) (waiting_workers x) (fast_probing x) v (fast_groups x) (file_work_anticipated
    x) (scan_done_flag x) (work_released x) (abort_flag x).
Definition with_fast_groups (v : list nat) (x : Inner) : Inner :=
  mkInner (files x) (ranges x) (finishes x) (finishing x) (inflight x) (outstanding x) (failed
    x) (probing x) (waiting_workers x) (fast_probing x) (fast_batches x) v
    (file_work_anticipated x) (scan_done_flag x) (work_released x) (abort_flag x).
Definition with_file_work_anticipated (v : bool) (x : Inner) : Inner :=
  mkInner (files x) (ranges x) (finishes x) (finishing x) (inflight x) (outstanding x) (failed
    x) (probing x) (waiting_workers x) (fast_probing x) (fast_batches x) (fast_groups x) v
    (scan_done_flag x) (work_released x) (abort_flag x).
Definition with_scan_done_flag (v : bool) (x : Inner) : Inner :=
  mkInner (files x) (ranges x) (finishes x) (finishing x) (inflight x) (outstanding x) (failed
    x) (probing x) (waiting_workers x) (fast_probing x) (fast_batches x) (fast_groups x)
    (file_work_anticipated x) v (work_released x) (abort_flag x).
Definition with_work_released (v : bool) (x : Inner) : Inner :=
  mkInner (files x) (ranges x) (finishes x) (finishing x) (inflight x) (outstanding x) (failed
    x) (probing x) (waiting_workers x) (fast_probing x) (fast_batches x) (fast_groups x)
    (file_work_anticipated x) (scan_done_flag x) v (abort_flag x).
Definition with_abort_flag (v : bool) (x : Inner) : Inner :=
  mkInner (files x) (ranges x) (finishes x) (finishing x) (inflight x) (outstanding x) (failed
    x) (probing x) (waiting_workers x) (fast_probing x) (fast_batches x) (fast_groups x)
    (file_work_anticipated x) (scan_done_flag x) (work_released x) v.

Definition with_inner (v : Inner) (x : Sched) : Sched :=
  mkSched v (range_heap x) (fast_heap x) (next_ref x) (direct_fallback_workers x)
    (initial_range_workers x) (tune_request x) (job_store x) (jobs x) (block x) (min_split x)
    (held x) (setups_cancelled x) (signals x).
Definition with_range_heap (v : gmap nat RangeState) (x : Sched) : Sched :=
  mkSched (inner x) v (fast_heap x) (next_ref x) (direct_fallback_workers x)
    (initial_range_workers x) (tune_request x) (job_store x) (jobs x) (block x) (min_split x)
    (held x) (setups_cancelled x) (signals x).
Definition with_fast_heap (v : gmap nat FastBatchState) (x : Sched) : Sched :=
  mkSched (inner x) (range_heap x) v (next_ref x) (direct_fallback_workers x)
    (initial_range_workers x) (tune_request x) (job_store x) (jobs x) (block x) (min_split x)
    (held x) (setups_cancelled x) (signals x).
Definition with_next_ref (v : nat) (x : Sched) : Sched :=
  mkSched (inner x) (range_heap x) (fast_heap x) v (direct_fallback_workers x)
    (initial_range_workers x) (tune_request x) (job_store x) (jobs x) (block x) (min_split x)
    (held x) (setups_cancelled x) (signals x).
Definition with_direct_fallback_workers (v : nat) (x : Sched) : Sched :=
  mkSched (inner x) (range_heap x) (fast_heap x) (next_ref x) v (initial_range_workers x)
    (tune_request x) (job_store x) (jobs x) (block x) (min_split x) (held x) (setups_cancelled
    x) (signals x).
Definition with_initial_range_workers (v : nat) (x : Sched) : Sched :=
  mkSched (inner x) (range_heap x) (fast_heap x) (next_ref x) (direct_fallback_workers x) v
    (tune_request x) (job_store x) (jobs x) (block x) (min_split x) (held x) (setups_cancelled
    x) (signals x).
Definition with_tune_request (v : nat) (x : Sched) : Sched :=
  mkSched (inner x) (range_heap x) (fast_heap x) (next_ref x) (direct_fallback_workers x)
    (initial_range_workers x) v (job_store x) (jobs x) (block x) (min_split x) (held x)
    (setups_cancelled x) (signals x).
Definition with_job_store (v : chunk_store) (x : Sched) : Sched :=
  mkSched (inner x) (range_heap x) (fast_heap x) (next_ref x) (direct_fallback_workers x)
    (initial_range_workers x) (tune_request x) v (jobs x) (block x) (min_split x) (held x)
    (setups_cancelled x) (signals x).
Definition with_jobs (v : Jobs.t) (x : Sched) : Sched :=
  mkSched (inner x) (range_heap x) (fast_heap x) (next_ref x) (direct_fallback_workers x)
    (initial_range_workers x) (tune_request x) (job_store x) v (block x) (min_split x) (held x)
    (setups_cancelled x) (signals x).
Definition with_block (v : Z) (x : Sched) : Sched :=
  mkSched (inner x) (range_heap x) (fast_heap x) (next_ref x) (direct_fallback_workers x)
    (initial_range_workers x) (tune_request x) (job_store x) (jobs x) v (min_split x) (held x)
    (setups_cancelled x) (signals x).
Definition with_min_split (v : Z) (x : Sched) : Sched :=
  mkSched (inner x) (range_heap x) (fast_heap x) (next_ref x) (direct_fallback_workers x)
    (initial_range_workers x) (tune_request x) (job_store x) (jobs x) (block x) v (held x)
    (setups_cancelled x) (signals x).
Definition with_held (v : gset nat) (x : Sched) : Sched :=
  mkSched (inner x) (range_heap x) (fast_heap x) (next_ref x) (direct_fallback_workers x)
    (initial_range_workers x) (tune_request x) (job_store x) (jobs x) (block x) (min_split x) v
    (setups_cancelled x) (signals x).
Definition with_setups_cancelled (v : bool) (x : Sched) : Sched :=
  mkSched (inner x) (range_heap x) (fast_heap x) (next_ref x) (direct_fallback_workers x)
    (initial_range_workers x) (tune_request x) (job_store x) (jobs x) (block x) (min_split x)
    (held x) v (signals x).
Definition with_signals (v : list Signal) (x : Sched) : Sched :=
  mkSched (inner x) (range_heap x) (fast_heap x) (next_ref x) (direct_fallback_workers x)
    (initial_range_workers x) (tune_request x) (job_store x) (jobs x) (block x) (min_split x)
    (held x) (setups_cancelled x) v.

Definition on_inner (f : Inner -> Inner) (s : Sched) : Sched := with_inner (f (inner s)) s.
Definition signal (x : Signal) (s : Sched) : Sched := with_signals (signals s ++ [x]) s.

(** [items[start..end]]. *)
Definition slice {A} (start end_ : nat) (l : list A) : option (list A) :=
  if decide (start <= end_ <= length l)%nat then Some (drop start (take end_ l)) else None.

(** ** [FastBatchState::claim] *)

(** The loop that extends [end] over the group; [fuel] is the group's length. *)
Fixpoint claim_end (files : list (Z * nat)) (max_files : nat) (max_bytes : Z)
    (start limit : nat) (fuel end_ : nat) (bytes : Z) : option (nat * Z) :=
  match fuel with
  | O => Some (end_, bytes)
  | S fuel' =>
      if decide (end_ < limit)%nat then
        '(size, _) ← files !! end_;
        if bool_decide (start < end_)%nat &&
           (bool_decide (max_files <= end_ - start)%nat ||
            bool_decide (max_bytes < saturating_add bytes size))
        then Some (end_, bytes)
        else bytes' ← u64_add bytes size;
             claim_end files max_files max_bytes start limit fuel' (S end_) bytes'
      else Some (end_, bytes)
  end.

Definition batch_claim (b : FastBatchState) (max_files : nat) (max_bytes : Z)
  : option (option (nat * nat) * FastBatchState) :=
  match fb_groups b with
  | [] => Some (None, b)
  | group :: rest =>
      let start := fg_start group in
      '(end_, bytes) ← claim_end (fb_files b) max_files max_bytes start (fg_end group)
                         (fg_end group - start) start 0;
      gbytes ← u64_sub (fg_bytes group) bytes;
      let group' := mkGroup end_ (fg_end group) gbytes in
      let groups' := if decide (fg_end group <= end_)%nat then rest else group' :: rest in
      Some (Some (start, end_), mkBatch (fb_files b) groups' (fb_owned b))
  end.

(** ** [Inner] *)
Definition claim_range (idx : nat) (off end_ : Z) (s : Sched) : nat * Sched :=
  let h := next_ref s in
  let s := with_range_heap (<[h := mkRange idx off end_ None]> (range_heap s)) s in
  let s := with_next_ref (S h) s in
  (h, on_inner (fun g => with_inflight (inflight g ++ [h]) g) s).

Definition inner_finished (g : Inner) : bool :=
  scan_done_flag g && bool_decide (probing g = 0%nat) && bool_decide (finishing g = 0%nat) &&
  bool_decide (inflight g = []) && FileQueue.is_empty (files g) &&
  RangeQueue.is_empty (ranges g) && bool_decide (finishes g = []).

(** ** Construction and status *)
Definition new (block min_split : Z) : Sched :=
  mkSched
    (mkInner FileQueue.default_queue RangeQueue.default_queue [] 0 [] ∅ ∅ 0 0 0 0 []
       false false false false)
    ∅ ∅ 0 0 0 0 [] Jobs.default_jobs block (Z.max min_split (2 * block)) ∅ false [].

Definition is_aborted (s : Sched) : bool := abort_flag (inner s).
Definition finished (s : Sched) : bool := inner_finished (inner s).
Definition is_failed (s : Sched) (idx : nat) : bool := bool_decide (idx ∈ failed (inner s)).

Definition end_unneeded_worker_setups (s : Sched) : Sched :=
  if is_aborted s || finished s then signal CancelSetups (with_setups_cancelled true s) else s.

(** ** Planning *)
Definition push_file (job : FileJob) (s : Sched) : option (nat * Sched) :=
  let size := e_size (j_entry (fj_data job)) in
  '(st, js) ← Jobs.push (job_store s) (jobs s) job;
  idx ← usize_sub (Jobs.len js) 1;
  c ← Jobs.current js idx;
  data ← snapshot_borrow st (Jobs.cur_snapshot c);
  let s := with_jobs js (with_job_store st s) in
  let files1 := FileQueue.register (files (inner s)) idx (j_dst data) in
  files2 ← FileQueue.push files1 (FileQueue.item_of size idx);
  let g := inner s in
  let first_work := negb (file_work_anticipated g) in
  let g := with_file_work_anticipated true (with_files files2 g) in
  let runnable := scan_done_flag g || work_released g in
  let s := with_inner g s in
  Some (idx, if first_work then signal CvAll s else if runnable then signal CvOne s else s).

Definition clear_finished_work (s : Sched) : Sched :=
  let s := with_jobs (Jobs.release (jobs s)) s in
  on_inner (fun g =>
    with_failed ∅ (with_outstanding ∅ (with_fast_groups [] (with_inflight []
      (with_finishes [] (with_ranges RangeQueue.default_queue
        (with_files FileQueue.default_queue g))))))) s.

Definition anticipate_file_work (s : Sched) : Sched :=
  let first := negb (file_work_anticipated (inner s)) in
  let s := on_inner (with_file_work_anticipated true) s in
  if first then signal CvAll s else s.

(** One round of [wait_for_anticipated_file_work]: an answer, or a wait. *)
Definition poll_anticipated (s : Sched) : option bool :=
  if file_work_anticipated (inner s) then Some true
  else if scan_done_flag (inner s) || abort_flag (inner s) then Some false
  else None.

(** [release_preflighted_work], outside the debug-only fixture hook. *)
Definition release_preflighted_work (s : Sched) : Sched :=
  signal CvAll (on_inner (with_work_released true) s).

Definition scan_done (s : Sched) : Sched :=
  end_unneeded_worker_setups
    (signal TuneOne (signal CvAll (on_inner (with_scan_done_flag true) s))).

Definition abort (s : Sched) : Sched :=
  signal CancelSetups (with_setups_cancelled true
    (signal TuneOne (signal CvAll (on_inner (with_abort_flag true) s)))).

(** ** Requests to the tuner *)
Definition request_worker_count (workers : nat) (s : Sched) : Sched :=
  signal TuneOne (with_tune_request (Nat.max (tune_request s) workers) s).

Definition arm_direct_fallback (workers : nat) (s : Sched) : Sched :=
  with_direct_fallback_workers workers s.

Definition reserve_initial_ranges (workers : nat) (s : Sched) : Sched :=
  with_initial_range_workers workers s.

Definition request_direct_fallback (s : Sched) : Sched :=
  if decide (0 < direct_fallback_workers s)%nat
  then request_worker_count (direct_fallback_workers s) s else s.

Definition take_worker_count_request (s : Sched) : nat * Sched :=
  (tune_request s, with_tune_request 0 s).

(** The predicate under which [wait_for_tuning] sleeps. *)
Definition tuning_waits (s : Sched) : bool :=
  bool_decide (tune_request s = 0%nat) && negb (abort_flag (inner s)) && negb (finished s).

(** ** Files a command-restricted receiver holds, and failures *)
Definition receiver_holds (idx : nat) (s : Sched) : Sched := with_held ({[idx]} ∪ held s) s.
Definition receiver_published (idx : nat) (s : Sched) : Sched := with_held (held s ∖ {[idx]}) s.
Definition take_receiver_hold (idx : nat) (s : Sched) : bool * Sched :=
  (bool_decide (idx ∈ held s), with_held (held s ∖ {[idx]}) s).

(** Returns whether this call recorded the failure first. *)
Definition fail_file (idx : nat) (s : Sched) : bool * Sched :=
  (bool_decide (idx ∉ failed (inner s)),
   on_inner (fun g => with_failed ({[idx]} ∪ failed g) g) s).

(** ** Queueing again *)
Definition job_size (s : Sched) (idx : nat) : option Z :=
  d ← Jobs.index (job_store s) (jobs s) idx; Some (e_size (j_entry d)).

Definition push_item (size : Z) (idx : nat) (s : Sched) : option Sched :=
  q ← FileQueue.push (files (inner s)) (FileQueue.item_of size idx);
  Some (on_inner (with_files q) s).

Definition dec_probing (n : nat) (s : Sched) : option Sched :=
  p ← usize_sub (probing (inner s)) n; Some (on_inner (with_probing p) s).

Definition requeue (idx : nat) (s : Sched) : option Sched :=
  size ← job_size s idx; s ← push_item size idx s; Some (signal CvOne s).

Definition requeue_probed (idx : nat) (s : Sched) : option Sched :=
  size ← job_size s idx; s ← dec_probing 1 s; s ← push_item size idx s; Some (signal CvAll s).

Definition requeue_finish (idx : nat) (matched : bool) (s : Sched) : Sched :=
  signal CvOne (on_inner (fun g => with_finishes ((idx, matched) :: finishes g) g) s).

Definition finish_done (s : Sched) : option Sched :=
  f ← usize_sub (finishing (inner s)) 1;
  Some (signal TuneOne (signal CvAll (on_inner (with_finishing f) s))).

(** ** Batches of small files *)
Definition needs_worker_capacity (s : Sched) : option bool :=
  let g := inner s in
  if negb (FileQueue.is_empty (files g)) || negb (RangeQueue.is_empty (ranges g)) ||
     negb (bool_decide (finishes g = [])) || bool_decide (fast_probing g < probing g)%nat
  then Some true else
    batches ← mapM (fun h => fast_heap s !! h) (fast_groups g);
    if existsb (fun b => negb (bool_decide (length (fb_groups b) = 0%nat))) batches
    then Some true else
      rs ← mapM (fun h => range_heap s !! h) (inflight g);
      Some (existsb (fun r => bool_decide (r_pos r < r_end r)) rs).

(** The debug assertions of this section are part of the checked build: a
    violated one is a panic.  [clamp(1, max_n)] panics when [max_n] is zero. *)
Definition begin_fast_batch (active max_n : nat) (s : Sched) : option (nat * Sched) :=
  let g := inner s in
  if decide (fast_probing g < probing g)%nat then
    let available_workers := Nat.max (active - fast_batches g) 1 in
    let available_files := (FileQueue.count (files g) + 1)%nat in
    let share := ((available_files + (available_workers - 1)) / available_workers)%nat in
    if decide (max_n < 1)%nat then None else
      let target := Nat.min (Nat.max share 1) max_n in
      Some (target, on_inner (fun g => with_fast_batches (S (fast_batches g))
                                         (with_fast_probing (S (fast_probing g)) g)) s)
  else None.

Definition mark_fast (n : nat) (s : Sched) : option Sched :=
  let s := on_inner (fun g => with_fast_probing (fast_probing g + n) g) s in
  if decide (fast_probing (inner s) <= probing (inner s))%nat then Some s else None.

(** [share_fast_groups]: the first group stays with the owner. *)
Definition share_fast_groups (batch_files : list (Z * nat)) (groups : list (nat * nat)) (s : Sched)
  : option ((nat * nat) * nat * Sched) :=
  match groups with
  | [] => None (* "nonempty fast batch" *)
  | first :: rest =>
      gs ← mapM (fun '(a, b) => fs ← slice a b batch_files; bytes ← u64_sum 0 (fst <$> fs);
                                Some (mkGroup a b bytes)) rest;
      let h := next_ref s in
      let batch := mkBatch batch_files gs (replicate (length batch_files) true) in
      let s := with_next_ref (S h) (with_fast_heap (<[h := batch]> (fast_heap s)) s) in
      let s := if decide (rest = []) then s
               else signal CvAll (on_inner (fun g => with_fast_groups (fast_groups g ++ [h]) g) s) in
      Some (first, h, s)
  end.

Definition finish_fast_groups (h : nat) (s : Sched) : option (list bool * Sched) :=
  b ← fast_heap s !! h;
  Some (fb_owned b,
        on_inner (fun g => with_fast_groups (filter (fun x => x <> h) (fast_groups g)) g) s).

(** [slice[range].fill(false)]. *)
Definition fill_false (start end_ : nat) (l : list bool) : option (list bool) :=
  if decide (start <= end_ <= length l)%nat
  then Some (take start l ++ replicate (end_ - start) false ++ drop end_ l) else None.

Fixpoint push_items (l : list (Z * nat)) (s : Sched) : option Sched :=
  match l with
  | [] => Some s
  | (size, idx) :: rest => s ← push_item size idx s; push_items rest s
  end.

(** Take the last unread group of the first batch that has one. *)
Fixpoint steal_fast_from (handles : list nat) (s : Sched) : option (option nat * Sched) :=
  match handles with
  | [] => Some (None, s)
  | h :: rest =>
      b ← fast_heap s !! h;
      match reverse (fb_groups b) with
      | [] => steal_fast_from rest s
      | group :: kept =>
          owned ← fill_false (fg_start group) (fg_end group) (fb_owned b);
          fs ← slice (fg_start group) (fg_end group) (fb_files b);
          let s := with_fast_heap (<[h := mkBatch (fb_files b) (reverse kept) owned]> (fast_heap s)) s in
          fp ← usize_sub (fast_probing (inner s)) (length fs);
          n1 ← usize_sub (length fs) 1;
          p ← usize_sub (probing (inner s)) n1;
          let s := on_inner (fun g => with_probing p (with_fast_probing fp g)) s in
          match fs with
          | [] => None
          | (_, first) :: others =>
              s ← push_items others s;
              Some (Some first, signal CvAll s)
          end
      end
  end.

Definition steal_fast_group (s : Sched) : option (option nat * Sched) :=
  steal_fast_from (fast_groups (inner s)) s.

Definition complete_fast_batch (n : nat) (s : Sched) : option Sched :=
  if decide (n = 0%nat) then None else
  p ← usize_sub (probing (inner s)) n;
  fp ← usize_sub (fast_probing (inner s)) n;
  fb ← usize_sub (fast_batches (inner s)) 1;
  Some (signal CvAll (on_inner (fun g => with_fast_batches fb (with_fast_probing fp (with_probing p g))) s)).

(** ** The tuner's remaining-work gate *)
Record TuningWork := mkTuning {
  tw_scan_done : bool;
  tw_remaining_bytes : Z;
  tw_queued_files : nat;
  tw_unread_batch_files : nat;
  tw_unread_batch_bytes : Z;
  tw_work_units : Z;
  tw_minimum_split : Z;
  tw_workers : nat;
  tw_activity : Z;
  tw_minimum_activity : Z;
  tw_parallel : bool;
  tw_sufficient : bool
}.

(** [shares.checked_ilog2().map_or(0, |n| 1 << n)]. *)
Definition balanced_shares (shares : Z) : Z := if decide (shares <= 0) then 0 else 2 ^ Z.log2 shares.

(** The extra work units a splittable range in flight stands for. *)
Definition split_units (r : RangeState) (units : Z) : option Z :=
  match r_split r with
  | None => Some units
  | Some split =>
      if decide (rs_minimum split = 0) then None else
        let shares := saturating_sub (r_end r) (r_pos r) / rs_minimum split in
        Some (saturating_add units (saturating_sub (balanced_shares shares) 1))
  end.

Definition tuning_work (n : nat) (minimum_activity file_credit : Z) (s : Sched) : option TuningWork :=
  let g := inner s in
  if negb (scan_done_flag g) then
    Some (mkTuning false 0 0 0 0 0 (min_split s) n 0 minimum_activity false false)
  else
    rs ← mapM (fun h => range_heap s !! h) (inflight g);
    batches ← mapM (fun h => fast_heap s !! h) (fast_groups g);
    let unread := mjoin (fb_groups <$> batches) in
    let unread_files := sum_list ((fun x => fg_end x - fg_start x)%nat <$> unread) in
    queued ← u64_add (FileQueue.bytes (files g)) (RangeQueue.bytes (ranges g));
    flying ← u64_sum 0 ((fun r => saturating_sub (r_end r) (r_pos r)) <$> rs);
    started ← u64_add queued flying;
    unread_bytes ← u64_sum 0 (fg_bytes <$> unread);
    bytes ← u64_add started unread_bytes;
    let available_files := (FileQueue.count (files g) + unread_files)%nat in
    let activity := saturating_add bytes (saturating_mul (Z.of_nat available_files) file_credit) in
    let units0 := Z.of_nat (available_files + RangeQueue.len (ranges g) + length (inflight g)) in
    units ← foldl (fun acc r => u ← acc; split_units r u) (Some units0) rs;
    let parallel := bool_decide (Z.of_nat n <= units) ||
                    bool_decide (saturating_mul (Z.of_nat n) (min_split s) <= bytes) in
    Some (mkTuning true bytes (FileQueue.count (files g)) unread_files unread_bytes units
            (min_split s) n activity minimum_activity parallel
            (parallel && bool_decide (minimum_activity <= activity))).

Definition work_left_for (n : nat) (minimum_activity file_credit : Z) (s : Sched) : option bool :=
  t ← tuning_work n minimum_activity file_credit s; Some (tw_sufficient t).

(** ** Ranges *)
Definition range_update (h : nat) (f : RangeState -> RangeState) (s : Sched) : option Sched :=
  r ← range_heap s !! h; Some (with_range_heap (<[h := f r]> (range_heap s)) s).

Definition set_end (e : Z) (r : RangeState) : RangeState := mkRange (r_idx r) (r_pos r) e (r_split r).
Definition set_pos (p : Z) (r : RangeState) : RangeState := mkRange (r_idx r) p (r_end r) (r_split r).
Definition set_split (sp : option RangeSplit) (r : RangeState) : RangeState :=
  mkRange (r_idx r) (r_pos r) (r_end r) sp.

Definition update_range_split (h : nat) (sp : RangeSplit) (s : Sched) : option Sched :=
  r ← range_heap s !! h;
  if decide (r_split r = Some sp) then Some s else
    s ← range_update h (set_split (Some sp)) s;
    Some (signal TuneOne (signal CvAll s)).

(** [*outstanding.entry(idx).or_insert(0) += 1]. *)
Definition inc_outstanding (idx : nat) (s : Sched) : option Sched :=
  n ← u32_add (default 0 (outstanding (inner s) !! idx)) 1;
  Some (on_inner (fun g => with_outstanding (<[idx := n]> (outstanding g)) g) s).

Definition push_range (r : range) (s : Sched) : option Sched :=
  q ← RangeQueue.push (ranges (inner s)) r; Some (on_inner (with_ranges q) s).

(** [inflight.retain(|x| !Arc::ptr_eq(x, h))]. *)
Definition drop_inflight (h : nat) (s : Sched) : Sched :=
  on_inner (fun g => with_inflight (filter (fun x => x <> h) (inflight g)) g) s.

Definition release_rest (h : nat) (s : Sched) : option Sched :=
  r ← range_heap s !! h;
  if decide (r_end r <= r_pos r) then Some s else
    s ← range_update h (set_end (r_pos r)) s;
    s ← inc_outstanding (r_idx r) s;
    s ← push_range (r_idx r, r_pos r, r_end r) s;
    Some (signal CvAll s).

Definition return_unstarted (item : Item) (s : Sched) : option Sched :=
  match item with
  | IExit => Some s
  | IFile idx =>
      size ← job_size s idx; s ← dec_probing 1 s; s ← push_item size idx s; Some (signal CvAll s)
  | IRange h =>
      r ← range_heap s !! h;
      s ← push_range (r_idx r, r_pos r, r_end r) (drop_inflight h s);
      Some (signal CvAll s)
  | IFinish idx matched =>
      let s := on_inner (fun g => with_finishes ((idx, matched) :: finishes g) g) s in
      f ← usize_sub (finishing (inner s)) 1;
      Some (signal CvAll (on_inner (with_finishing f) s))
  end.

(** The victim scan of [steal]: the first in-flight range with the most unread
    bytes among those of at least twice their split floor. *)
Fixpoint best_victim (min_split : Z) (heap : gmap nat RangeState) (hs : list nat)
    (best : option (Z * nat)) : option (option (Z * nat)) :=
  match hs with
  | [] => Some best
  | h :: rest =>
      r ← heap !! h;
      let rem := saturating_sub (r_end r) (r_pos r) in
      let minimum := match r_split r with Some sp => rs_minimum sp | None => min_split end in
      twice ← checked_mul 2 minimum;
      let better := bool_decide (twice <= rem) &&
                    match best with None => true | Some (b, _) => bool_decide (b < rem) end in
      best_victim min_split heap rest (if better then Some (rem, h) else best)
  end.

Definition steal (s : Sched) : option (option nat * Sched) :=
  best ← best_victim (min_split s) (range_heap s) (inflight (inner s)) None;
  match best with
  | None => Some (None, s)
  | Some (_, victim) =>
      r ← range_heap s !! victim;
      rem ← u64_sub (r_end r) (r_pos r);
      let blk := match r_split r with Some sp => rs_block sp | None => block s end in
      if decide (blk = 0) then None else
        split ← checked_mul (div_ceil (r_pos r + rem / 2) blk) blk;
        if bool_decide (r_end r <= split) || bool_decide (split <= r_pos r) then Some (None, s) else
          s1 ← range_update victim (set_end split) s;
          s1 ← inc_outstanding (r_idx r) s1;
          let '(h, s2) := claim_range (r_idx r) split (r_end r) s1 in
          s3 ← range_update h (set_split (r_split r)) s2;
          Some (Some h, s3)
  end.

(** ** [next] *)
Inductive Poll := Ready (i : Item) | Wait.

(** The queue section of the loop, in the source's order of preference. *)
Definition try_take (s : Sched) : option (option Item * Sched) :=
  '(o, rq) ← RangeQueue.pop (ranges (inner s));
  let s := on_inner (with_ranges rq) s in
  match o with
  | Some (idx, off, end_) => let '(h, s) := claim_range idx off end_ s in Some (Some (IRange h), s)
  | None =>
      match finishes (inner s) with
      | (idx, matched) :: rest =>
          Some (Some (IFinish idx matched),
                on_inner (fun g => with_finishing (S (finishing g)) (with_finishes rest g)) s)
      | [] =>
          '(o, fq) ← FileQueue.pop (files (inner s));
          let s := on_inner (with_files fq) s in
          match o with
          | Some it => Some (Some (IFile (FileQueue.item_idx it)),
                             on_inner (fun g => with_probing (S (probing g)) g) s)
          | None =>
              '(o, s) ← steal s;
              match o with
              | Some h => Some (Some (IRange h), s)
              | None =>
                  '(o, s) ← steal_fast_group s;
                  match o with
                  | Some idx => Some (Some (IFile idx), s)
                  | None => Some (None, s)
                  end
              end
          end
      end
  end.

(** One round of [next]'s loop under the lock; [Wait] leaves the caller asleep. *)
Definition next_poll (s : Sched) : option (Poll * Sched) :=
  if abort_flag (inner s) then Some (Ready IExit, signal TuneOne s) else
    '(o, s) ← (if scan_done_flag (inner s) || work_released (inner s)
               then try_take s else Some (None, s));
    match o with
    | Some item => Some (Ready item, s)
    | None =>
        if finished s then Some (Ready IExit, signal TuneOne s)
        else Some (Wait, on_inner (fun g => with_waiting_workers (S (waiting_workers g)) g) s)
    end.

(** A sleeping worker that reacquires the lock runs the loop again. *)
Definition next_wake (s : Sched) : option (Poll * Sched) :=
  w ← usize_sub (waiting_workers (inner s)) 1;
  next_poll (on_inner (with_waiting_workers w) s).

Definition take_small_near (first : nat) (max_size : Z) (max_n : nat) (max_bytes : Z) (s : Sched)
  : option (list nat * Sched) :=
  '(out, q) ← FileQueue.take_small max_size max_n max_bytes (Some first) (files (inner s));
  Some (out, on_inner (fun g => with_probing (probing g + length out) (with_files q g)) s).

Definition range_work (idx : nat) (max_size : option Z) (s : Sched) : option (RangeWork * Sched) :=
  let g := inner s in
  if abort_flag g || bool_decide (idx ∈ failed g) then Some (Cancelled, s) else
    match max_size with
    | Some size =>
        if decide (0 < size) then
          if decide (RangeQueue.len (ranges g) <= waiting_workers g)%nat then Some (RWReady None, s) else
            '(o, rq) ← RangeQueue.take_short (ranges g) idx size;
            match o with
            | None => Some (RWReady None, on_inner (with_ranges rq) s)
            | Some (i, off, end_) =>
                let '(h, s) := claim_range i off end_ (on_inner (with_ranges rq) s) in
                Some (RWReady (Some h), s)
            end
        else Some (RWReady None, s)
    | None => Some (RWReady None, s)
    end.

Definition take_short_range (idx : nat) (max_size : Z) (s : Sched) : option (option nat * Sched) :=
  if decide (max_size = 0) then Some (None, s) else
    '(w, s) ← range_work idx (Some max_size) s;
    Some (match w with Cancelled => None | RWReady next => next end, s).

(** The split of one range over the initial workers in [ranges_ready]: part
    [part] of [parts] starting at [off]. *)
Fixpoint split_parts (blk blocks parts end_ : Z) (fuel : nat) (part off : Z) : list (Z * Z) :=
  match fuel with
  | O => []
  | S fuel' =>
      let n := blocks / parts + (if decide (part < blocks mod parts) then 1 else 0) in
      let limit := if decide (part + 1 = parts) then end_ else off + n * blk in
      (off, limit) :: split_parts blk blocks parts end_ fuel' (part + 1) limit
  end.

Definition initial_split (s : Sched) (workers : nat) (ranges : list (Z * Z)) : option (list (Z * Z)) :=
  match ranges with
  | [(start, end_)] =>
      if bool_decide (1 < workers)%nat && FileQueue.is_empty (files (inner s)) then
        if decide (block s = 0) then
          (* [is_multiple_of(0)] holds only of 0; the division that follows panics *)
          if decide (start = 0) then None else Some ranges
        else if decide (start mod block s = 0) then
          total ← u64_sub end_ start;
          let blocks := total / block s in
          let floor := div_ceil (min_split s) (block s) in
          if decide (floor = 0) then None else
            let parts := Z.max (Z.min (Z.of_nat workers) (blocks / floor)) 1 in
            Some (if decide (1 < parts)
                  then split_parts (block s) blocks parts end_ (Z.to_nat parts) 0 start
                  else ranges)
        else Some ranges
      else Some ranges
  | _ => Some ranges
  end.

Definition ranges_ready (idx : nat) (ranges0 : list (Z * Z)) (s : Sched) : option (option nat * Sched) :=
  s ← dec_probing 1 s;
  let workers := initial_range_workers s in
  let s := with_initial_range_workers 0 s in
  rs ← initial_split s workers ranges0;
  let s := if decide (rs = []) then s
           else on_inner (fun g => with_outstanding (<[idx := as_u32 (length rs)]> (outstanding g)) g) s in
  let '(first, s) := match rs with
                     | [] => (None, s)
                     | (off, end_) :: _ => let '(h, s) := claim_range idx off end_ s in (Some h, s)
                     end in
  q ← RangeQueue.extend (ranges (inner s)) idx (tail rs);
  Some (first, signal CvAll (on_inner (with_ranges q) s)).

Definition range_done (h : nat) (s : Sched) : option (bool * Sched) :=
  let s := drop_inflight h s in
  r ← range_heap s !! h;
  n ← outstanding (inner s) !! r_idx r;
  n ← u64_sub n 1;
  let s := on_inner (fun g => with_outstanding
             (if decide (n = 0) then delete (r_idx r) (outstanding g)
              else <[r_idx r := n]> (outstanding g)) g) s in
  Some (bool_decide (n = 0) && negb (abort_flag (inner s)) && negb (is_failed s (r_idx r)),
        signal CvAll s).

Definition retry_range (h : nat) (start : Z) (s : Sched) : option Sched :=
  let s := drop_inflight h s in
  r ← range_heap s !! h;
  if decide (start < r_end r) then
    s ← push_range (r_idx r, start, r_end r) s; Some (signal CvAll s)
  else
    n ← outstanding (inner s) !! r_idx r;
    n ← u64_sub n 1;
    let s := on_inner (fun g =>
               if decide (n = 0)
               then with_finishes ((r_idx r, false) :: finishes g)
                      (with_outstanding (delete (r_idx r) (outstanding g)) g)
               else with_outstanding (<[r_idx r := n]> (outstanding g)) g) s in
    Some (signal CvAll s).

(** The worker's side of a handle: claim the next request of at most [n] bytes
    ([Worker::claim_comparison_window] and the range pipeline). *)
Definition claim_window (h : nat) (n : Z) (s : Sched) : option ((Z * Z) * Sched) :=
  r ← range_heap s !! h;
  let p := Z.min (r_end r) (r_pos r + n) in
  s ← range_update h (set_pos p) s;
  Some ((r_pos r, p), s).

(** [Worker::claim_comparison_window]: a worker its gate has parked first hands
    back what it has not read.  [min(end, pos + n)] is the source's
    [end.min(start.saturating_add(window))], since [end] is a [u64]. *)
Definition claim_comparison_window (gate_allowed : bool) (h : nat) (window : Z) (s : Sched)
  : option (option (Z * Z) * Sched) :=
  s ← (if gate_allowed then Some s else release_rest h s);
  '((start, end_), s) ← claim_window h window s;
  Some (if decide (start < end_) then Some (start, end_) else None, s).
