(* ===== verification/SchedRanges.v ===== *)
(** * Ownership of file ranges

    A range waits in the queue or belongs to a worker's in-flight handle.  The
    live intervals of a scheduler state are the queued ranges together with,
    for every handle in flight, the interval from the offset at which the
    handle was claimed (its base) to its current end.  This file states the
    invariant of the range side of the scheduler on its components (queue,
    in-flight list, outstanding counts, handle cells) and proves what taking,
    splitting, returning and retiring a range do to it. *)

From S2P Require Import Prelude RangeQueue Sched.
Local Open Scope Z_scope.

(** The base-to-end interval of handle [h]. *)
Definition flight (heap : gmap nat RangeState) (b : gmap nat Z) (h : nat) : range :=
  match heap !! h with
  | Some r => (r_idx r, default 0 (b !! h), r_end r)
  | None => (0%nat, 0, 0)
  end.

Definition live (rq : RangeQueue.t) (fl : list nat) (heap : gmap nat RangeState) (b : gmap nat Z)
  : list range :=
  RangeQueue.rq_list rq ++ (flight heap b <$> fl).

Definition of_file (i : nat) (r : range) : bool := bool_decide (r.1.1 = i).
Definition covers (i : nat) (x : Z) (r : range) : bool :=
  of_file i r && bool_decide (r.1.2 <= x < r.2).

Record RInv (rq : RangeQueue.t) (fl : list nat) (out : gmap nat Z)
    (heap : gmap nat RangeState) (nref : nat) (b : gmap nat Z) : Prop := {
  ri_wf : RangeQueue.wf rq;
  ri_nonempty r : r ∈ RangeQueue.rq_list rq -> r.1.2 < r.2;
  ri_nodup : NoDup fl;
  ri_flight h : h ∈ fl -> exists r p, heap !! h = Some r /\ b !! h = Some p /\
                                      p <= r_pos r <= r_end r;
  ri_fresh h r : heap !! h = Some r -> (h < nref)%nat;
  ri_splits h r sp : heap !! h = Some r -> r_split r = Some sp ->
                     0 < rs_block sp <= rs_minimum sp;
  ri_outstanding i : default 0 (out !! i) = as_u32 (countb (of_file i) (live rq fl heap b));
  ri_disjoint i x : (countb (covers i x) (live rq fl heap b) <= 1)%nat
}.

(** ** Lists of intervals *)
Lemma flight_ext (heap heap' : gmap nat RangeState) (b b' : gmap nat Z) (l : list nat) :
  (forall k, k ∈ l -> heap !! k = heap' !! k /\ b !! k = b' !! k) ->
  flight heap b <$> l = flight heap' b' <$> l.
Proof.
  intros H. apply list_fmap_ext. intros i k Hk%list_elem_of_lookup_2. unfold flight.
  by destruct (H k Hk) as [-> ->].
Qed.

Lemma retain_perm (h : nat) (fl : list nat) : NoDup fl -> h ∈ fl -> fl ≡ₚ h :: filter (fun x => x <> h) fl.
Proof.
  intros Hnd Hin. apply NoDup_Permutation; [done| |].
  - constructor; [|by apply NoDup_filter]. rewrite list_elem_of_filter. naive_solver.
  - intros x. rewrite elem_of_cons, list_elem_of_filter. destruct (decide (x = h)); naive_solver.
Qed.

Lemma live_focus rq fl heap b h : NoDup fl -> h ∈ fl ->
  live rq fl heap b ≡ₚ flight heap b h ::
    live rq (filter (fun x => x <> h) fl) heap b.
Proof.
  intros Hnd Hin. unfold live. rewrite (retain_perm h fl Hnd Hin) at 1.
  cbn. by rewrite Permutation_middle.
Qed.

Lemma cov_two i x (r1 r2 : range) (l l' : list range) :
  l ≡ₚ r1 :: r2 :: l' -> (countb (covers i x) l <= 1)%nat ->
  covers i x r1 = true -> covers i x r2 = true -> False.
Proof. intros -> H H1 H2. rewrite !countb_cons, H1, H2 in H. lia. Qed.

Lemma covers_true i x j o e : covers i x (j, o, e) = true <-> j = i /\ o <= x < e.
Proof.
  unfold covers, of_file. cbn. rewrite andb_true_iff, !bool_decide_eq_true. done.
Qed.

(** Cutting an interval keeps the coverage of every byte. *)
Lemma covers_cut i x j o m e : o <= m <= e ->
  ((if covers i x (j, o, e) then 1 else 0) =
   (if covers i x (j, o, m) then 1 else 0) + (if covers i x (j, m, e) then 1 else 0))%nat.
Proof.
  intros H. unfold covers, of_file. cbn.
  destruct (bool_decide (j = i)); cbn; [|done]. repeat case_bool_decide; lia.
Qed.

Section Steps.
Context (rq : RangeQueue.t) (fl : list nat) (out : gmap nat Z).
Context (heap : gmap nat RangeState) (nref : nat) (b : gmap nat Z).
Context (I : RInv rq fl out heap nref b).

Lemma fresh_not_flying : nref ∉ fl.
Proof.
  intros Hin. destruct (ri_flight _ _ _ _ _ _ I _ Hin) as (r & p & Hr & _).
  apply (ri_fresh _ _ _ _ _ _ I) in Hr. lia.
Qed.

(** A range in the queue overlaps no other live interval, so what a handle
    owns can be queued: it is not there already. *)
Lemma not_queued h r o : h ∈ fl -> heap !! h = Some r -> default 0 (b !! h) <= o < r_end r ->
  (r_idx r, o, r_end r) ∉ RangeQueue.rq_list rq.
Proof.
  intros Hin Hr Ho Hq. pose proof (live_focus rq fl heap b h (ri_nodup _ _ _ _ _ _ I) Hin) as HP.
  apply elem_of_Permutation in Hq as [l Hl].
  eapply (cov_two (r_idx r) o (flight heap b h) (r_idx r, o, r_end r));
    [|apply (ri_disjoint _ _ _ _ _ _ I)| |].
  - rewrite HP. unfold live. rewrite Hl. cbn. reflexivity.
  - unfold flight. rewrite Hr. by apply covers_true.
  - apply covers_true. lia.
Qed.

(** Any change of the live intervals that keeps every file's count and every
    byte's coverage keeps the accounting. *)
Lemma flight_new idx off e sp :
  flight (<[nref := mkRange idx off e sp]> heap) (<[nref := off]> b) <$> fl = flight heap b <$> fl.
Proof.
  symmetry. apply flight_ext. intros k Hk. pose proof fresh_not_flying.
  rewrite !lookup_insert_ne by (intros ->; done). done.
Qed.

(** *** Claiming a queued range *)
Lemma rinv_take rq' i o e :
  RangeQueue.wf rq' -> RangeQueue.rq_list rq ≡ₚ (i, o, e) :: RangeQueue.rq_list rq' ->
  let heap' := <[nref := mkRange i o e None]> heap in
  let b' := <[nref := o]> b in
  RInv rq' (fl ++ [nref]) out heap' (S nref) b' /\
  live rq' (fl ++ [nref]) heap' b' ≡ₚ live rq fl heap b.
Proof.
  intros W HP heap' b'. pose proof fresh_not_flying as Hfr.
  assert (HL : live rq' (fl ++ [nref]) heap' b' ≡ₚ live rq fl heap b).
  { unfold live. rewrite HP, fmap_app.
    assert (flight heap' b' <$> fl = flight heap b <$> fl) as -> by apply flight_new.
    assert (flight heap' b' <$> [nref] = [(i, o, e)]) as ->.
    { cbn. unfold flight, heap', b'. by rewrite !lookup_insert_eq. }
    rewrite app_assoc, Permutation_app_comm. done. }
  split; [|done]. split; [done| | | | | | |].
  - intros r Hr. apply (ri_nonempty _ _ _ _ _ _ I). rewrite HP. set_solver.
  - apply NoDup_app. split_and!; [apply (ri_nodup _ _ _ _ _ _ I)|set_solver|apply NoDup_singleton].
  - intros h [Hh| ->%list_elem_of_singleton]%elem_of_app.
    + unfold heap', b'. rewrite !lookup_insert_ne by (intros ->; done).
      by apply (ri_flight _ _ _ _ _ _ I).
    + unfold heap', b'. rewrite !lookup_insert_eq. do 2 eexists. split_and!; [done..|cbn; lia|].
      cbn. assert (o < e); [|lia]. apply (ri_nonempty _ _ _ _ _ _ I (i, o, e)). rewrite HP. set_solver.
  - intros h r. unfold heap'. rewrite lookup_insert_Some. intros [[<- _]|[_ Hr]]; [lia|].
    apply (ri_fresh _ _ _ _ _ _ I) in Hr. lia.
  - intros h r sp. unfold heap'. rewrite lookup_insert_Some. intros [[_ <-]|[_ Hr]]; [done|].
    by eapply (ri_splits _ _ _ _ _ _ I).
  - intros k. rewrite HL. apply (ri_outstanding _ _ _ _ _ _ I).
  - intros k x. rewrite HL. apply (ri_disjoint _ _ _ _ _ _ I).
Qed.

(** *** A worker advances its position *)
Lemma rinv_advance h r p : heap !! h = Some r -> r_pos r <= p <= r_end r ->
  RInv rq fl out (<[h := set_pos p r]> heap) nref b /\
  live rq fl (<[h := set_pos p r]> heap) b = live rq fl heap b.
Proof.
  intros Hr Hp.
  assert (HL : live rq fl (<[h := set_pos p r]> heap) b = live rq fl heap b).
  { unfold live. f_equal. apply list_fmap_ext. intros i k _. unfold flight.
    destruct (decide (k = h)) as [->|]; [by rewrite lookup_insert_eq, Hr|].
    by rewrite lookup_insert_ne. }
  split; [|done]. destruct I as [i1 i2 i3 i4 i5 i6 i7 i8]. split; try done.
  - intros k Hk. destruct (i4 k Hk) as (r' & p' & Hr' & Hb & Hle).
    destruct (decide (k = h)) as [->|].
    + rewrite lookup_insert_eq. simplify_eq. do 2 eexists. split_and!; [done..|cbn; lia|cbn; lia].
    + rewrite lookup_insert_ne by done. eauto.
  - intros k r'. rewrite lookup_insert_Some. intros [[<- _]|[_ ?]]; eauto.
  - intros k r' sp. rewrite lookup_insert_Some. intros [[_ <-]|[_ ?]] Hsp; [cbn in Hsp|]; eauto.
  - intros k. rewrite HL. apply i7.
  - intros k x. rewrite HL. apply i8.
Qed.

(** *** Exposing a split policy *)
Lemma rinv_set_split h r sp : heap !! h = Some r -> 0 < rs_block sp <= rs_minimum sp ->
  RInv rq fl out (<[h := set_split (Some sp) r]> heap) nref b /\
  live rq fl (<[h := set_split (Some sp) r]> heap) b = live rq fl heap b.
Proof.
  intros Hr Hbm.
  assert (HL : live rq fl (<[h := set_split (Some sp) r]> heap) b = live rq fl heap b).
  { unfold live. f_equal. apply list_fmap_ext. intros i k _. unfold flight.
    destruct (decide (k = h)) as [->|]; [by rewrite lookup_insert_eq, Hr|].
    by rewrite lookup_insert_ne. }
  split; [|done]. destruct I as [i1 i2 i3 i4 i5 i6 i7 i8]. split; try done.
  - intros k Hk. destruct (i4 k Hk) as (r' & p' & Hr' & Hbk & Hle).
    destruct (decide (k = h)) as [->|].
    + rewrite lookup_insert_eq. simplify_eq. do 2 eexists. split_and!; [done..|cbn; lia|cbn; lia].
    + rewrite lookup_insert_ne by done. eauto.
  - intros k r'. rewrite lookup_insert_Some. intros [[<- _]|[_ ?]]; eauto.
  - intros k r' sp'. rewrite lookup_insert_Some. intros [[_ <-]|[_ ?]] Hsp; [|eauto].
    cbn in Hsp. by simplify_eq.
  - intros k. rewrite HL. apply i7.
  - intros k x. rewrite HL. apply i8.
Qed.

(** *** Shortening a handle: the tail goes to a new handle or to the queue *)

Lemma flight_shortened h r m : heap !! h = Some r ->
  flight (<[h := set_end m r]> heap) b <$> filter (fun x => x <> h) fl =
  flight heap b <$> filter (fun x => x <> h) fl.
Proof.
  intros Hr. symmetry. apply flight_ext. intros k [Hne _]%list_elem_of_filter.
  by rewrite lookup_insert_ne by done.
Qed.

Lemma live_shortened h r m p : h ∈ fl -> heap !! h = Some r -> b !! h = Some p ->
  exists rest, live rq fl heap b ≡ₚ (r_idx r, p, r_end r) :: rest /\
    live rq fl (<[h := set_end m r]> heap) b ≡ₚ (r_idx r, p, m) :: rest.
Proof.
  intros Hin Hr Hb. exists (live rq (filter (fun x => x <> h) fl) heap b).
  pose proof (ri_nodup _ _ _ _ _ _ I) as Hnd. split.
  - rewrite (live_focus rq fl heap b h Hnd Hin). unfold flight. by rewrite Hr, Hb.
  - rewrite (live_focus rq fl _ b h Hnd Hin). unfold flight at 1. rewrite lookup_insert_eq, Hb.
    cbn. unfold live. by rewrite flight_shortened.
Qed.

(** The accounting of a cut: one more interval of the file, same coverage. *)
Lemma cut_accounting i p m e rest l' n :
  live rq fl heap b ≡ₚ (i, p, e) :: rest -> l' ≡ₚ (i, p, m) :: (i, m, e) :: rest -> p <= m <= e ->
  u32_add (default 0 (out !! i)) 1 = Some n ->
  (forall k, default 0 (<[i := n]> out !! k) = as_u32 (countb (of_file k) l')) /\
  (forall k x, countb (covers k x) l' = countb (covers k x) (live rq fl heap b)).
Proof.
  intros HP HP' Hm Hn. split.
  - intros k. rewrite HP', !countb_cons. pose proof (ri_outstanding _ _ _ _ _ _ I k) as Hk.
    rewrite HP, countb_cons in Hk. unfold of_file in *. cbn in *.
    destruct (decide (k = i)) as [->|Hne].
    + rewrite lookup_insert_eq, bool_decide_eq_true_2 in * by done.
      pose proof (as_u32_succ (1 + countb (of_file i) rest)) as Hs. unfold of_file in Hs.
      rewrite <- Hk, Hn in Hs. exact Hs.
    + rewrite lookup_insert_ne, bool_decide_eq_false_2 in * by congruence. done.
  - intros k x. rewrite HP', HP, !countb_cons. pose proof (covers_cut k x i p m e Hm). lia.
Qed.
(** *** Stealing: the tail [m, end) of a victim becomes a new handle *)
Lemma rinv_steal h r m p n : h ∈ fl -> heap !! h = Some r -> b !! h = Some p ->
  r_pos r <= m <= r_end r -> u32_add (default 0 (out !! r_idx r)) 1 = Some n ->
  let out' := <[r_idx r := n]> out in
  let heap' := <[nref := mkRange (r_idx r) m (r_end r) (r_split r)]>
                 (<[h := set_end m r]> heap) in
  let b' := <[nref := m]> b in
  RInv rq (fl ++ [nref]) out' heap' (S nref) b' /\
  (forall k x, countb (covers k x) (live rq (fl ++ [nref]) heap' b') =
               countb (covers k x) (live rq fl heap b)).
Proof.
  intros Hin Hr Hb Hm Hn out' heap' b'. pose proof fresh_not_flying as Hfr.
  destruct (live_shortened h r m p Hin Hr Hb) as (rest & HP & HP').
  destruct (ri_flight _ _ _ _ _ _ I h Hin) as (r0 & p0 & Hr0 & Hb0 & Hle). simplify_eq.
  assert (HL : live rq (fl ++ [nref]) heap' b' ≡ₚ (r_idx r, p, m) :: (r_idx r, m, r_end r) :: rest).
  { unfold live. rewrite fmap_app.
    assert (flight heap' b' <$> [nref] = [(r_idx r, m, r_end r)]) as ->.
    { cbn. unfold flight, heap', b'. by rewrite !lookup_insert_eq. }
    assert (flight heap' b' <$> fl = flight (<[h := set_end m r]> heap) b <$> fl) as ->.
    { apply flight_ext. intros k Hk. unfold heap', b'. rewrite !(lookup_insert_ne _ nref) by (intros ->; done). done. }
    rewrite app_assoc, Permutation_app_comm. cbn. unfold live in HP'. rewrite HP'. constructor. }
  destruct (cut_accounting _ _ _ _ _ _ _ HP HL ltac:(lia) Hn) as [HO HC]. split; [|done].
  split; [apply I|apply I| | | | |exact HO|].
  - apply NoDup_app. split_and!; [apply I|set_solver|apply NoDup_singleton].
  - intros k [Hk| ->%list_elem_of_singleton]%elem_of_app; unfold heap', b'.
    + rewrite !(lookup_insert_ne _ nref) by (intros ->; done).
      destruct (decide (k = h)) as [->|Hne].
      * rewrite lookup_insert_eq. do 2 eexists. split_and!; [done..|cbn; lia|cbn; lia].
      * rewrite lookup_insert_ne by done. by apply (ri_flight _ _ _ _ _ _ I).
    + rewrite !lookup_insert_eq. do 2 eexists. split_and!; [done..|cbn; lia|cbn; lia].
  - intros k r'. unfold heap'. rewrite !lookup_insert_Some.
    intros [[<- _]|[_ [[<- _]|[_ Hk]]]]; [lia| |].
    + apply (ri_fresh _ _ _ _ _ _ I) in Hr. lia.
    + apply (ri_fresh _ _ _ _ _ _ I) in Hk. lia.
  - intros k r' sp. unfold heap'. rewrite !lookup_insert_Some.
    pose proof (ri_splits _ _ _ _ _ _ I) as Hs.
    intros [[_ <-]|[_ [[_ <-]|[_ Hk]]]] Hsp; cbn in Hsp; eauto.
  - intros k x. rewrite HC. apply I.
Qed.

(** *** Releasing: the unread tail of a handle goes back to the queue *)
Lemma rinv_release h r rq' p n : h ∈ fl -> heap !! h = Some r -> b !! h = Some p ->
  r_pos r < r_end r -> u32_add (default 0 (out !! r_idx r)) 1 = Some n -> RangeQueue.wf rq' ->
  RangeQueue.rq_list rq' ≡ₚ (r_idx r, r_pos r, r_end r) :: RangeQueue.rq_list rq ->
  let out' := <[r_idx r := n]> out in
  let heap' := <[h := set_end (r_pos r) r]> heap in
  RInv rq' fl out' heap' nref b /\
  (forall k x, countb (covers k x) (live rq' fl heap' b) =
               countb (covers k x) (live rq fl heap b)).
Proof.
  intros Hin Hr Hb Hlt Hn W HPq out' heap'.
  destruct (live_shortened h r (r_pos r) p Hin Hr Hb) as (rest & HP & HP').
  destruct (ri_flight _ _ _ _ _ _ I h Hin) as (r0 & p0 & Hr0 & Hb0 & Hle). simplify_eq.
  assert (HL : live rq' fl heap' b ≡ₚ (r_idx r, p, r_pos r) :: (r_idx r, r_pos r, r_end r) :: rest).
  { unfold live in *. rewrite HPq. cbn. unfold heap'. rewrite HP'. constructor. }
  destruct (cut_accounting _ _ _ _ _ _ _ HP HL ltac:(lia) Hn) as [HO HC]. split; [|done].
  split; [done| |apply I| | | |exact HO|].
  - intros x. rewrite HPq. intros [->|Hx]%elem_of_cons; [done|]. by apply I.
  - intros k Hk. unfold heap'. destruct (decide (k = h)) as [->|Hne].
    + rewrite lookup_insert_eq. do 2 eexists. split_and!; [done..|cbn; lia|cbn; lia].
    + rewrite lookup_insert_ne by done. by apply (ri_flight _ _ _ _ _ _ I).
  - intros k r'. unfold heap'. rewrite lookup_insert_Some.
    pose proof (ri_fresh _ _ _ _ _ _ I) as Hf. intros [[<- _]|[_ Hk]]; eauto.
  - intros k r' sp. unfold heap'. rewrite lookup_insert_Some.
    pose proof (ri_splits _ _ _ _ _ _ I) as Hs. intros [[_ <-]|[_ Hk]] Hsp; cbn in Hsp; eauto.
  - intros k x. rewrite HC. apply I.
Qed.

(** *** Giving a whole handle back to the queue *)
Lemma rinv_requeue h r rq' p : h ∈ fl -> heap !! h = Some r -> b !! h = Some p ->
  p < r_end r -> RangeQueue.wf rq' ->
  RangeQueue.rq_list rq' ≡ₚ (r_idx r, p, r_end r) :: RangeQueue.rq_list rq ->
  RInv rq' (filter (fun x => x <> h) fl) out heap nref b /\
  live rq' (filter (fun x => x <> h) fl) heap b ≡ₚ live rq fl heap b.
Proof.
  intros Hin Hr Hb Hlt W HPq.
  assert (HL : live rq' (filter (fun x => x <> h) fl) heap b ≡ₚ live rq fl heap b).
  { rewrite (live_focus rq fl heap b h) by (done || apply I). unfold live. rewrite HPq. cbn.
    unfold flight at 2. by rewrite Hr, Hb. }
  split; [|done]. split; [done| | | |apply I|apply I| |].
  - intros x. rewrite HPq. intros [->|Hx]%elem_of_cons; [done|]. by apply I.
  - apply NoDup_filter, I.
  - intros k [_ Hk]%list_elem_of_filter. by apply I.
  - intros k. rewrite HL. apply I.
  - intros k x. rewrite HL. apply I.
Qed.

(** *** Retiring a handle *)
Lemma rinv_retire h r p : h ∈ fl -> heap !! h = Some r -> b !! h = Some p ->
  exists c n, n = as_u32 c /\ default 0 (out !! r_idx r) = as_u32 (S c) /\
    c = countb (of_file (r_idx r)) (live rq (filter (fun x => x <> h) fl) heap b) /\
    RInv rq (filter (fun x => x <> h) fl)
      (if decide (n = 0) then delete (r_idx r) out else <[r_idx r := n]> out) heap nref b /\
    live rq fl heap b ≡ₚ (r_idx r, p, r_end r) :: live rq (filter (fun x => x <> h) fl) heap b.
Proof.
  intros Hin Hr Hb. pose proof (live_focus rq fl heap b h (ri_nodup _ _ _ _ _ _ I) Hin) as HP.
  assert (Hfl : flight heap b h = (r_idx r, p, r_end r)) by (unfold flight; by rewrite Hr, Hb).
  rewrite Hfl in HP. set (l := live rq (filter (fun x => x <> h) fl) heap b) in *.
  exists (countb (of_file (r_idx r)) l), (as_u32 (countb (of_file (r_idx r)) l)).
  assert (Hof : of_file (r_idx r) (r_idx r, p, r_end r) = true)
    by (unfold of_file; by rewrite bool_decide_eq_true_2).
  split_and!; [done| |done| |done].
  - rewrite (ri_outstanding _ _ _ _ _ _ I), HP, countb_cons, Hof. done.
  - split; [apply I|apply I|apply NoDup_filter, I| |apply I|apply I| |].
    + intros k [_ Hk]%list_elem_of_filter. by apply I.
    + intros k. fold l. destruct (decide (k = r_idx r)) as [->|Hne].
      * case_decide as E; simplify_map_eq; [by rewrite E|done].
      * pose proof (ri_outstanding _ _ _ _ _ _ I k) as Hk. rewrite HP, countb_cons in Hk.
        unfold of_file at 1 in Hk. cbn in Hk. rewrite bool_decide_eq_false_2 in Hk by congruence.
        cbn in Hk. rewrite <- Hk. case_decide; by simplify_map_eq.
    + intros k x. fold l. pose proof (ri_disjoint _ _ _ _ _ _ I k x) as Hd.
      rewrite HP, countb_cons in Hd. lia.
Qed.

(** *** Registering a probed file's ranges: the first is claimed at once *)
Lemma rinv_register idx o e rest rq' :
  countb (of_file idx) (live rq fl heap b) = 0%nat ->
  RangeQueue.wf rq' ->
  RangeQueue.rq_list rq' ≡ₚ ((fun r => (idx, r.1, r.2)) <$> rest) ++ RangeQueue.rq_list rq ->
  (forall r, r ∈ (o, e) :: rest -> r.1 < r.2) ->
  (forall x, countb (covers idx x) ((fun r => (idx, r.1, r.2)) <$> (o, e) :: rest) <= 1)%nat ->
  let heap' := <[nref := mkRange idx o e None]> heap in
  let b' := <[nref := o]> b in
  RInv rq' (fl ++ [nref]) (<[idx := as_u32 (length ((o, e) :: rest))]> out) heap' (S nref) b' /\
  live rq' (fl ++ [nref]) heap' b' ≡ₚ
    ((fun r => (idx, r.1, r.2)) <$> (o, e) :: rest) ++ live rq fl heap b.
Proof.
  intros Hnone W HPq Hne Hdis heap' b'. pose proof fresh_not_flying as Hfr.
  assert (HL : live rq' (fl ++ [nref]) heap' b' ≡ₚ
               ((fun r => (idx, r.1, r.2)) <$> (o, e) :: rest) ++ live rq fl heap b).
  { unfold live. rewrite HPq, fmap_app.
    assert (flight heap' b' <$> fl = flight heap b <$> fl) as -> by apply flight_new.
    assert (flight heap' b' <$> [nref] = [(idx, o, e)]) as ->.
    { cbn. unfold flight, heap', b'. by rewrite !lookup_insert_eq. }
    rewrite (app_assoc _ (flight heap b <$> fl)), Permutation_app_comm. cbn.
    by rewrite <- app_assoc. }
  assert (Hcount : forall k, countb (of_file k) ((fun r : Z * Z => (idx, r.1, r.2)) <$> (o, e) :: rest)
            = if decide (k = idx) then length ((o, e) :: rest) else 0%nat).
  { intros k. generalize ((o, e) :: rest). induction l as [|r l IH]; [by case_decide|].
    rewrite fmap_cons, countb_cons, IH. unfold of_file. cbn [fst].
    case_decide; [subst; by rewrite bool_decide_eq_true_2|by rewrite bool_decide_eq_false_2 by congruence]. }
  split; [|done]. split; [done| | | | | | |].
  - intros x. rewrite HPq. intros [(r & -> & Hr)%list_elem_of_fmap|Hx]%elem_of_app; [|by apply I].
    apply Hne. set_solver.
  - apply NoDup_app. split_and!; [apply I|set_solver|apply NoDup_singleton].
  - intros k [Hk| ->%list_elem_of_singleton]%elem_of_app; unfold heap', b'.
    + rewrite !lookup_insert_ne by (intros ->; done). by apply I.
    + rewrite !lookup_insert_eq. pose proof (Hne (o, e) ltac:(set_solver)) as Hoe. cbn in Hoe.
      do 2 eexists. split_and!; [done..|cbn; lia|cbn; lia].
  - intros k r. unfold heap'. rewrite lookup_insert_Some. intros [[<- _]|[_ Hr]]; [lia|].
    apply (ri_fresh _ _ _ _ _ _ I) in Hr. lia.
  - intros k r sp. unfold heap'. rewrite lookup_insert_Some. intros [[_ <-]|[_ Hr]]; [done|].
    by eapply (ri_splits _ _ _ _ _ _ I).
  - intros k. rewrite HL, countb_app, Hcount. destruct (decide (k = idx)) as [->|Hk].
    + by rewrite lookup_insert_eq, Hnone, Nat.add_0_r.
    + rewrite lookup_insert_ne by done. apply I.
  - intros k x. rewrite HL, countb_app. destruct (decide (k = idx)) as [->|Hk].
    + specialize (Hdis x). enough (countb (covers idx x) (live rq fl heap b) = 0%nat) by lia.
      apply Nat.le_0_r. rewrite <- Hnone. apply countb_mono. intros r. unfold covers. by destruct (of_file idx r).
    + enough (countb (covers k x) ((fun r : Z * Z => (idx, r.1, r.2)) <$> (o, e) :: rest) = 0%nat) as ->
        by apply I.
      apply Nat.le_0_r. specialize (Hcount k). rewrite decide_False in Hcount by done.
      rewrite <- Hcount. apply countb_mono. intros r. unfold covers. by destruct (of_file k r).
Qed.
End Steps.
