(* ===== verification/SchedInv.v ===== *)
(** * The scheduler's invariant and its operations

    [Inv] collects the invariants of the range side (SchedRanges), of the file
    queue with the job table, and of the small-file batches.  For every
    operation of the scheduler and every move of a worker, the lemmas of this
    file show that it panics only when a total overflows its machine integer
    ([overfull]) as long as the caller keeps the protocol, that it preserves
    [Inv], and what it does to the live intervals. *)

From S2P Require Import Prelude Proto Jobs RangeQueue FileQueue Sched SchedRanges.
Local Open Scope Z_scope.

(** ** Files and jobs *)
Record FInv (fq : FileQueue.t) (st : chunk_store) (j : Jobs.t) : Prop := {
  fi_wf : FileQueue.wf fq;
  fi_jobs : Jobs.wf st j;
  fi_sizes i d : Jobs.index st j i = Some d -> 0 <= e_size (j_entry d);
  fi_registered i : (i < Jobs.len j)%nat -> FileQueue.registered fq i;
  fi_items it : it ∈ FileQueue.fq_list fq -> (FileQueue.item_idx it < Jobs.len j)%nat;
  fi_len : Z.of_nat (Jobs.len j) < 2 ^ 64
}.

Lemma finv_push fq st j size idx : FInv fq st j -> (idx < Jobs.len j)%nat -> 0 <= size ->
  panics (u64_max < FileQueue.bytes fq + size) (FileQueue.push fq (FileQueue.item_of size idx)) \/
  exists fq', FileQueue.push fq (FileQueue.item_of size idx) = Some fq' /\ FInv fq' st j /\
    FileQueue.fq_list fq' ≡ₚ FileQueue.item_of size idx :: FileQueue.fq_list fq /\
    FileQueue.bytes fq' = FileQueue.bytes fq + size.
Proof.
  intros [W J S R It L] Hi Hsz.
  assert (Hidx : FileQueue.item_idx (FileQueue.item_of size idx) = idx) by (apply FileQueue.item_idx_of; lia).
  destruct (FileQueue.fq_push_spec fq (FileQueue.item_of size idx) W)
    as [Hov|(fq' & Hp & W' & G & HP & HB)].
  { rewrite Hidx. auto. }
  { done. }
  { left. exact Hov. }
  right. exists fq'. split_and!; [done| |done|exact HB]. split; auto.
  - intros i Hl. unfold FileQueue.registered. rewrite G. by apply R.
  - intros it. rewrite HP. intros [->|Hin]%elem_of_cons; [by rewrite Hidx|auto].
Qed.

Lemma finv_pop fq st j : FInv fq st j ->
  match FileQueue.pop fq with
  | None => False
  | Some (None, fq') => fq' = fq /\ FileQueue.fq_list fq = []
  | Some (Some it, fq') => FInv fq' st j /\ FileQueue.fq_list fq ≡ₚ it :: FileQueue.fq_list fq' /\
      (FileQueue.item_idx it < Jobs.len j)%nat
  end.
Proof.
  intros [W J S R It L]. pose proof (FileQueue.fq_pop_spec fq W) as HP.
  destruct (FileQueue.pop fq) as [[[it|] fq']|]; [|done..].
  destruct HP as (W' & G & HP & _). split_and!; [|done|].
  - split; auto.
    + intros i Hl. unfold FileQueue.registered. rewrite G. by apply R.
    + intros it' Hin. apply It. rewrite HP. set_solver.
  - apply It. rewrite HP. set_solver.
Qed.

Lemma job_size_ok s idx : FInv (files (inner s)) (job_store s) (jobs s) ->
  (idx < Jobs.len (jobs s))%nat -> exists size, job_size s idx = Some size /\ 0 <= size.
Proof.
  intros I Hi. destruct (Jobs.index_published _ _ _ (fi_jobs _ _ _ I) Hi) as [d Hd].
  exists (e_size (j_entry d)). unfold job_size. rewrite Hd. split; [done|].
  by apply (fi_sizes _ _ _ I idx).
Qed.

Lemma finv_take_small fq st j first max_size max_n max_bytes :
  FInv fq st j -> (first < Jobs.len j)%nat -> 0 <= max_bytes ->
  exists out fq' items,
    FileQueue.take_small max_size max_n max_bytes (Some first) fq = Some (out, fq') /\
    FInv fq' st j /\ out = FileQueue.item_idx <$> items /\
    FileQueue.fq_list fq ≡ₚ items ++ FileQueue.fq_list fq' /\
    (length out <= max_n)%nat /\ sumZ (fst <$> items) <= max_bytes /\
    (forall it, it ∈ items -> it.1 <= max_size).
Proof.
  intros [W J S R It L] Hf Hb.
  destruct (FileQueue.take_small_spec max_size max_n max_bytes fq (Some first) W Hb)
    as (out & fq' & items & Ht & W' & G & Ho & HP & Hn & Hs & Hm).
  { intros ? [= <-]. auto. }
  exists out, fq', items. split_and!; try done. split; auto.
  - intros i Hl. unfold FileQueue.registered. rewrite G. by apply R.
  - intros it Hin. apply It. rewrite HP. set_solver.
Qed.

(** ** Small-file batches *)
Definition group_len (x : FastGroup) : nat := (fg_end x - fg_start x)%nat.

Record batch_ok (n : nat) (b : FastBatchState) : Prop := {
  bo_owned : length (fb_owned b) = length (fb_files b);
  bo_groups x : x ∈ fb_groups b -> (fg_start x < fg_end x <= length (fb_files b))%nat /\
    fg_bytes x = sumZ (fst <$> drop (fg_start x) (take (fg_end x) (fb_files b))) /\
    fg_bytes x <= u64_max;
  bo_files f : f ∈ fb_files b -> 0 <= f.1 /\ (f.2 < n)%nat
}.

Definition batch_unread (fh : gmap nat FastBatchState) (h : nat) : nat :=
  match fh !! h with Some b => sum_list (group_len <$> fb_groups b) | None => 0 end.

Definition unread (fg : list nat) (fh : gmap nat FastBatchState) : nat :=
  sum_list (batch_unread fh <$> fg).

(** [n] is the number of jobs. *)
Record PInv (p fp : nat) (fg : list nat) (fh : gmap nat FastBatchState) (nref n : nat) : Prop := {
  pi_groups h : h ∈ fg -> is_Some (fh !! h);
  pi_nodup : NoDup fg;
  pi_fresh h : is_Some (fh !! h) -> (h < nref)%nat;
  pi_batches h b : fh !! h = Some b -> batch_ok n b;
  pi_unread : (unread fg fh <= fp)%nat;
  pi_fast : (fp <= p)%nat
}.

(** ** The whole scheduler *)
Record Inv (s : Sched) (b : gmap nat Z) : Prop := {
  iv_ranges : RInv (ranges (inner s)) (inflight (inner s)) (outstanding (inner s))
                   (range_heap s) (next_ref s) b;
  iv_files : FInv (files (inner s)) (job_store s) (jobs s);
  iv_fast : PInv (probing (inner s)) (fast_probing (inner s)) (fast_groups (inner s))
                 (fast_heap s) (next_ref s) (Jobs.len (jobs s));
  iv_block : 0 < block s;
  iv_min : block s <= min_split s
}.

(** The live intervals of a state. *)
Definition live_of (s : Sched) (b : gmap nat Z) : list range :=
  live (ranges (inner s)) (inflight (inner s)) (range_heap s) b.

(** A handle that an operation allocates starts at the position it is given. *)
Definition rebase (s s' : Sched) (b : gmap nat Z) : gmap nat Z :=
  match range_heap s' !! next_ref s with
  | Some r => <[next_ref s := r_pos r]> b
  | None => b
  end.

Lemma inv_new blk ms : 0 < blk -> Inv (new blk ms) ∅.
Proof.
  intros Hb. split; cbn; [| | |done|lia].
  - split; cbn; try set_solver; try apply NoDup_nil_2; try (cbn; lia).
    apply RangeQueue.rq_wf_default.
  - split; [apply FileQueue.fq_wf_default|apply Jobs.jobs_wf_default| | | |done].
    + intros i d. unfold Jobs.index, Jobs.current. cbn. destruct (Jobs.locate i). done.
    + unfold Jobs.len; cbn. lia.
    + set_solver.
  - split; cbn; [set_solver|apply NoDup_nil_2| |set_solver|done|done].
    intros h [x Hx]. done.
Qed.

Lemma rinv_nref rq fl out heap n n' b : RInv rq fl out heap n b -> (n <= n')%nat ->
  RInv rq fl out heap n' b.
Proof.
  intros I Hn. split; try apply I. intros h r Hr. apply (ri_fresh _ _ _ _ _ _ I) in Hr. lia.
Qed.

Lemma pinv_nref p fp fg fh n n' k : PInv p fp fg fh n k -> (n <= n')%nat -> PInv p fp fg fh n' k.
Proof.
  intros I Hn. split; try apply I. intros h Hh. apply (pi_fresh _ _ _ _ _ _ I) in Hh. lia.
Qed.

Lemma pinv_jobs p fp fg fh n k k' : PInv p fp fg fh n k -> (k <= k')%nat -> PInv p fp fg fh n k'.
Proof.
  intros I Hn. split; try apply I. intros h x Hx. destruct (pi_batches _ _ _ _ _ _ I h x Hx) as [? ? Hf].
  split; [done..|]. intros f Hin. specialize (Hf f Hin). lia.
Qed.

Lemma rebase_none s s' b : range_heap s' !! next_ref s = None -> rebase s s' b = b.
Proof. unfold rebase. by intros ->. Qed.

Lemma heap_fresh s b : Inv s b -> range_heap s !! next_ref s = None.
Proof.
  intros I. destruct (range_heap s !! next_ref s) as [r|] eqn:E; [|done].
  apply (ri_fresh _ _ _ _ _ _ (iv_ranges _ _ I)) in E. lia.
Qed.

(** Every byte is covered as often before as after. *)
Definition same_cover (s : Sched) (b : gmap nat Z) (s' : Sched) (b' : gmap nat Z) : Prop :=
  forall k x, countb (covers k x) (live_of s' b') = countb (covers k x) (live_of s b).

Lemma same_cover_perm s b s' b' : live_of s' b' ≡ₚ live_of s b -> same_cover s b s' b'.
Proof. intros HP k x. by rewrite HP. Qed.

Lemma same_cover_refl s b : same_cover s b s b.
Proof. done. Qed.

(** ** Claiming a range taken from the queue *)
Lemma claim_taken s b rq' i o e :
  Inv s b -> RangeQueue.wf rq' ->
  RangeQueue.rq_list (ranges (inner s)) ≡ₚ (i, o, e) :: RangeQueue.rq_list rq' ->
  let s' := (claim_range i o e (on_inner (with_ranges rq') s)).2 in
  Inv s' (rebase s s' b) /\ same_cover s b s' (rebase s s' b).
Proof.
  intros I W HP s'. destruct (rinv_take _ _ _ _ _ _ (iv_ranges _ _ I) rq' i o e W HP) as [R HL].
  assert (rebase s s' b = <[next_ref s := o]> b) as ->.
  { unfold rebase, s'; cbn. by rewrite lookup_insert_eq. }
  split.
  - split; [exact R|apply I| |apply I|apply I]. eapply pinv_nref; [apply I|cbn; lia].
  - apply same_cover_perm. exact HL.
Qed.

Lemma range_update_eq s h r f : range_heap s !! h = Some r ->
  range_update h f s = Some (with_range_heap (<[h := f r]> (range_heap s)) s).
Proof. intros Hr. unfold range_update. by rewrite Hr. Qed.

(** ** Stealing half of a range in flight *)
Definition split_floor (ms : Z) (r : RangeState) : Z :=
  match r_split r with Some sp => rs_minimum sp | None => ms end.

(** Too little is unread for the range to be halved. *)
Definition unsplittable (ms : Z) (r : RangeState) : Prop :=
  saturating_sub (r_end r) (r_pos r) < 2 * split_floor ms r.

(** A range whose doubled split floor does not fit a [u64]. *)
Definition wide_floor (ms : Z) (heap : gmap nat RangeState) (hs : list nat) : Prop :=
  exists h r, h ∈ hs /\ heap !! h = Some r /\ u64_max < 2 * split_floor ms r.

(** The totals that an operation on this state can overflow with no new work
    coming in: a file in 2^32 live pieces, a doubled split floor or an offset
    beyond a [u64], and the bytes queued together with those of a handle or of a
    small-file batch. *)
Inductive overfull (s : Sched) (b : gmap nat Z) : Prop :=
| of_count i : u32_max <= Z.of_nat (countb (of_file i) (live_of s b)) -> overfull s b
| of_floor : wide_floor (min_split s) (range_heap s) (inflight (inner s)) -> overfull s b
| of_end h r : h ∈ inflight (inner s) -> range_heap s !! h = Some r -> u64_max < r_end r -> overfull s b
| of_ranges h r p : h ∈ inflight (inner s) -> range_heap s !! h = Some r -> b !! h = Some p ->
    u64_max < RangeQueue.bytes (ranges (inner s)) + (r_end r - p) -> overfull s b
| of_files h fb : h ∈ fast_groups (inner s) -> fast_heap s !! h = Some fb ->
    u64_max < FileQueue.bytes (files (inner s)) + sumZ (fst <$> fb_files fb) -> overfull s b.

(** One more piece of file [i]. *)
Lemma inc_outstanding_spec s b i : Inv s b ->
  panics (overfull s b) (inc_outstanding i s) \/
  exists n, u32_add (default 0 (outstanding (inner s) !! i)) 1 = Some n /\
    inc_outstanding i s =
      Some (on_inner (fun g => with_outstanding (<[i := n]> (outstanding g)) g) s).
Proof.
  intros I. unfold inc_outstanding.
  pose proof (as_u32_succ (countb (of_file i) (live_of s b))) as H. unfold live_of in H.
  rewrite <- (ri_outstanding _ _ _ _ _ _ (iv_ranges _ _ I) i) in H.
  destruct (u32_add _ 1) as [n|]; cbn [mbind option_bind]; [right; eauto|].
  left. split; [done|]. by apply (of_count s b i).
Qed.

Lemma best_victim_spec ms heap hs : forall best,
  (forall h, h ∈ hs -> is_Some (heap !! h)) ->
  panics (wide_floor ms heap hs) (best_victim ms heap hs best) \/
  exists best', best_victim ms heap hs best = Some best' /\
    ((best' = best /\ (best = None -> forall h r, h ∈ hs -> heap !! h = Some r -> unsplittable ms r)) \/
     exists h r, best' = Some (saturating_sub (r_end r) (r_pos r), h) /\
       h ∈ hs /\ heap !! h = Some r /\ ~ unsplittable ms r).
Proof.
  induction hs as [|h hs IH]; intros best Hall; cbn [best_victim].
  { right. exists best. split; [done|]. left. split; [done|set_solver]. }
  destruct (Hall h ltac:(set_solver)) as [r Hr]. rewrite Hr. cbn [mbind option_bind]. cbv zeta.
  fold (split_floor ms r). unfold checked_mul.
  destruct (decide (2 * split_floor ms r <= u64_max)) as [Hw|Hw]; cbn [mbind option_bind];
    [|left; split; [done|]; exists h, r; split_and!; [set_solver|done|lia]].
  match goal with |- context [best_victim _ _ hs ?x] => set (best1 := x) end.
  destruct (IH best1 ltac:(set_solver)) as [[-> (h' & r' & ? & ?)]|(best' & -> & Hb)];
    [left; split; [done|]; exists h', r'; set_solver|right].
  destruct Hb as [[-> Hn]|(h' & r' & -> & ? & ? & ?)].
  - eexists. split; [done|]. unfold best1 in *. destruct (_ && _) eqn:E.
    + apply andb_true_iff in E as [E%bool_decide_eq_true _].
      right. exists h, r. unfold unsplittable. split_and!; [done|set_solver|done|lia].
    + left. split; [done|]. intros ->. rewrite andb_true_r in E. apply bool_decide_eq_false in E.
      intros h' r' [->|Hin]%elem_of_cons Hr'; [|by eapply Hn]. simplify_eq. unfold unsplittable. lia.
  - eexists. split; [done|]. right. exists h', r'. set_solver.
Qed.

(** The victim has the most unread bytes of all that can be split. *)
Lemma best_victim_max ms heap hs : forall best rem v,
  best_victim ms heap hs best = Some (Some (rem, v)) ->
  (forall b w, best = Some (b, w) -> b <= rem) /\
  (forall h r, h ∈ hs -> heap !! h = Some r -> ~ unsplittable ms r ->
     saturating_sub (r_end r) (r_pos r) <= rem).
Proof.
  induction hs as [|h hs IH]; intros best rem v H; cbn [best_victim] in H.
  { simplify_eq. split; [by intros b w [= <- <-]|set_solver]. }
  destruct (heap !! h) as [r|] eqn:Hr; cbn [mbind option_bind] in H; [|done].
  unfold checked_mul in H. destruct (decide (_ <= u64_max)); cbn [mbind option_bind] in H; [|done].
  apply IH in H as [Hb Hall]. split.
  - intros b w ->. destruct (_ && _) eqn:E in Hb; [|by eapply Hb].
    apply andb_true_iff in E as [_ E%bool_decide_eq_true]. specialize (Hb _ _ eq_refl). lia.
  - intros h' r' [->|Hin]%elem_of_cons Hr' Hs; [|by eapply Hall]. simplify_eq.
    destruct (_ && _) eqn:E in Hb; [by eapply Hb|]. unfold unsplittable, split_floor in Hs.
    apply andb_false_iff in E as [E%bool_decide_eq_false|E]; [lia|].
    destruct best as [[b w]|]; [|done]. apply bool_decide_eq_false in E. specialize (Hb _ _ eq_refl). lia.
Qed.

Lemma flight_in s b h : Inv s b -> h ∈ inflight (inner s) ->
  exists r p, range_heap s !! h = Some r /\ b !! h = Some p /\ p <= r_pos r <= r_end r.
Proof. intros I. apply (iv_ranges _ _ I). Qed.

Lemma steal_spec s b : Inv s b ->
  panics (overfull s b) (steal s) \/
  exists o s', steal s = Some (o, s') /\ Inv s' (rebase s s' b) /\
    same_cover s b s' (rebase s s' b) /\
    (o = None -> s' = s /\ forall h r, h ∈ inflight (inner s) -> range_heap s !! h = Some r ->
                          unsplittable (min_split s) r).
Proof.
  intros I. unfold steal.
  destruct (best_victim_spec (min_split s) (range_heap s) (inflight (inner s)) None)
    as [[-> Hw]|(best & -> & Hbest)].
  { intros h Hh. destruct (flight_in s b h I Hh) as (r & p & Hr & _). eauto. }
  { left. split; [done|]. by apply of_floor. }
  assert (Hskip : Inv s (rebase s s b) /\ same_cover s b s (rebase s s b)).
  { rewrite rebase_none by (by eapply heap_fresh). split; [done|apply same_cover_refl]. }
  cbn [mbind option_bind]. destruct best as [[rem v]|]; last first.
  { destruct Hskip. destruct Hbest as [[_ Hn]|(? & ? & ? & _)]; [|done]. right. eauto 10. }
  destruct Hbest as [[? _]|(h & r & [= -> ->] & Hin & Hr & Hspl)]; [done|].
  destruct (flight_in s b h I Hin) as (r0 & p & Hr0 & Hb & Hle). simplify_eq.
  rewrite Hr. cbn [mbind option_bind].
  rewrite (proj2 (u64_sub_Some (r_end r) (r_pos r) (r_end r - r_pos r))) by lia.
  cbn [mbind option_bind]. set (blk := match r_split r with Some sp => rs_block sp | None => block s end).
  assert (0 < blk <= split_floor (min_split s) r) as Hblk.
  { unfold blk, split_floor. pose proof (iv_block _ _ I). pose proof (iv_min _ _ I).
    destruct (r_split r) eqn:Es; [|lia]. by eapply (ri_splits _ _ _ _ _ _ (iv_ranges _ _ I)). }
  rewrite decide_False by lia. set (m := div_ceil (r_pos r + (r_end r - r_pos r) / 2) blk * blk).
  assert (E : r_pos r < m < r_end r).
  { unfold unsplittable, saturating_sub in Hspl. unfold m.
    pose proof (div_ceil_spec (r_pos r + (r_end r - r_pos r) / 2) blk ltac:(lia)).
    pose proof (Z.div_mod (r_end r - r_pos r) 2 ltac:(lia)).
    pose proof (Z.mod_pos_bound (r_end r - r_pos r) 2 ltac:(lia)). lia. }
  unfold checked_mul. fold m. case_decide; cbn [mbind option_bind];
    [|left; split; [done|]; apply (of_end s b h r); [done..|lia]].
  rewrite !bool_decide_eq_false_2 by lia. cbn [orb].
  pose proof (heap_fresh s b I) as Hfr.
  assert (h <> next_ref s) as Hne by (intros ->; congruence).
  rewrite (range_update_eq s h r) by done. cbn [mbind option_bind].
  destruct (inc_outstanding_spec s b (r_idx r) I) as [Hov|(n & Hn & _)].
  { left. destruct Hov as [Hov HP]. split; [|done]. unfold inc_outstanding in *.
    cbn -[u32_add range_update] in *. destruct (u32_add _ 1); [done|]. done. }
  unfold inc_outstanding. cbn -[set_end set_split range_update u32_add]. rewrite Hn.
  cbn -[set_end set_split range_update u32_add]. right.
  erewrite range_update_eq by (cbn; apply lookup_insert_eq). cbn [mbind option_bind].
  eexists _, _. split; [done|].
  destruct (rinv_steal _ _ _ _ _ _ (iv_ranges _ _ I) h r m p n Hin Hr Hb ltac:(lia) Hn) as [R HC].
  match goal with |- Inv ?s' _ /\ _ => assert (rebase s s' b = <[next_ref s := m]> b) as ->;
    [unfold rebase; cbn; by rewrite lookup_insert_eq|] end.
  split_and!; [|intros k x; unfold live_of; cbn; rewrite insert_insert_eq; apply HC|done].
  split; cbn; [rewrite insert_insert_eq; exact R|apply I| |apply I|apply I].
  eapply pinv_nref; [apply I|lia].
Qed.

(** What a successful steal does, in full. *)
Lemma steal_inv s b h s' : Inv s b -> steal s = Some (Some h, s') ->
  exists v r m blk, v ∈ inflight (inner s) /\ range_heap s !! v = Some r /\ h = next_ref s /\
    blk = match r_split r with Some sp => rs_block sp | None => block s end /\
    r_pos r < m < r_end r /\ m mod blk = 0 /\
    r_pos r + (r_end r - r_pos r) / 2 <= m < r_pos r + (r_end r - r_pos r) / 2 + blk /\
    ~ unsplittable (min_split s) r /\
    (forall h' r', h' ∈ inflight (inner s) -> range_heap s !! h' = Some r' ->
       ~ unsplittable (min_split s) r' -> r_end r' - r_pos r' <= r_end r - r_pos r) /\
    range_heap s' !! v = Some (set_end m r) /\
    range_heap s' !! h = Some (mkRange (r_idx r) m (r_end r) (r_split r)) /\
    (forall k, k <> v -> k <> h -> range_heap s' !! k = range_heap s !! k) /\
    inflight (inner s') = inflight (inner s) ++ [h].
Proof.
  intros I H. unfold steal in H. pose proof (heap_fresh s b I) as Hfr.
  destruct (best_victim_spec (min_split s) (range_heap s) (inflight (inner s)) None)
    as [[Hbv _]|(best & Hbv & Hbest)].
  { intros k Hk. destruct (flight_in s b k I Hk) as (r & p & Hr & _). eauto. }
  { by rewrite Hbv in H. }
  rewrite Hbv in H. cbn [mbind option_bind] in H. destruct best as [[rem v]|]; [|done].
  destruct (best_victim_max _ _ _ _ _ _ Hbv) as [_ Hmax].
  destruct Hbest as [[? _]|(v0 & r & [= -> ->] & Hin & Hr & Hspl)]; [done|].
  destruct (flight_in s b v0 I Hin) as (r0 & p & Hr0 & _ & Hle). simplify_eq.
  rewrite Hr in H. cbn [mbind option_bind] in H.
  rewrite (proj2 (u64_sub_Some (r_end r) (r_pos r) (r_end r - r_pos r))) in H by lia.
  cbn [mbind option_bind] in H.
  set (blk := match r_split r with Some sp => rs_block sp | None => block s end) in *.
  assert (0 < blk) as Hblk.
  { unfold blk. destruct (r_split r) eqn:Es; [|apply I].
    by destruct (ri_splits _ _ _ _ _ _ (iv_ranges _ _ I) _ _ _ Hr Es). }
  case_decide; [done|]. unfold checked_mul in H.
  set (m := div_ceil (r_pos r + (r_end r - r_pos r) / 2) blk * blk) in *.
  case_decide; cbn [mbind option_bind] in H; [|done]. destruct (_ || _) eqn:Ec in H; [done|].
  apply orb_false_iff in Ec as [E1%bool_decide_eq_false E2%bool_decide_eq_false].
  rewrite (range_update_eq s v0 r) in H by done. cbn [mbind option_bind] in H. unfold inc_outstanding in H.
  destruct (u32_add _ 1) as [n|]; cbn -[range_update] in H; [|done].
  erewrite range_update_eq in H by (cbn; apply lookup_insert_eq). cbn in H. injection H as <- <-.
  assert (v0 <> next_ref s) as Hne by (intros ->; congruence).
  exists v0, r, m, blk. cbn. rewrite insert_insert_eq.
  split_and!; try done; try lia.
  - unfold m. apply Z.mod_mul. lia.
  - apply (div_ceil_spec (r_pos r + (r_end r - r_pos r) / 2) blk Hblk).
  - apply (div_ceil_spec (r_pos r + (r_end r - r_pos r) / 2) blk Hblk).
  - intros h' r' Hin' Hr' Hs'. specialize (Hmax h' r' Hin' Hr' Hs'). unfold saturating_sub in Hmax.
    destruct (flight_in s b h' I Hin') as (? & ? & ? & _ & ?). simplify_eq. lia.
  - by rewrite lookup_insert_ne, lookup_insert_eq.
  - by rewrite lookup_insert_eq.
  - intros k Hk1 Hk2. by rewrite !lookup_insert_ne.
Qed.

(** ** Queueing files *)
Lemma push_item_spec s b size idx : Inv s b -> (idx < Jobs.len (jobs s))%nat -> 0 <= size ->
  panics (u64_max < FileQueue.bytes (files (inner s)) + size) (push_item size idx s) \/
  exists fq, push_item size idx s = Some (on_inner (with_files fq) s) /\
    Inv (on_inner (with_files fq) s) b /\
    FileQueue.fq_list fq ≡ₚ FileQueue.item_of size idx :: FileQueue.fq_list (files (inner s)) /\
    FileQueue.bytes fq = FileQueue.bytes (files (inner s)) + size.
Proof.
  intros I Hi Hs. unfold push_item.
  destruct (finv_push _ _ _ size idx (iv_files _ _ I) Hi Hs) as [[-> ?]|(fq & Hp & F & HP & HB)]; [by left|].
  right. exists fq. rewrite Hp. split_and!; [done| |done|done].
  split; [apply I|exact F|apply I|apply I|apply I].
Qed.

Lemma push_items_spec l : forall s b, Inv s b ->
  (forall f, f ∈ l -> 0 <= f.1 /\ (f.2 < Jobs.len (jobs s))%nat) ->
  panics (u64_max < FileQueue.bytes (files (inner s)) + sumZ (fst <$> l)) (push_items l s) \/
  exists fq, push_items l s = Some (on_inner (with_files fq) s) /\
    Inv (on_inner (with_files fq) s) b /\
    FileQueue.fq_list fq ≡ₚ ((fun f => FileQueue.item_of f.1 f.2) <$> l)
                             ++ FileQueue.fq_list (files (inner s)).
Proof.
  induction l as [|[size idx] l IH]; intros s b I Hl; cbn [push_items].
  - right. exists (files (inner s)). split_and!; [by destruct s as [[]]|by destruct s as [[]]|done].
  - destruct (Hl (size, idx) ltac:(set_solver)) as [Hs Hi]. rewrite fmap_cons, sumZ_cons. cbn [fst snd] in *.
    assert (0 <= sumZ (fst <$> l)) as Hnn.
    { apply sumZ_nonneg. intros x (f & -> & Hf)%list_elem_of_fmap. apply Hl. set_solver. }
    destruct (push_item_spec s b size idx I Hi Hs) as [[-> Hov]|(fq & -> & I1 & HP & HB)];
      [left; split; [done|lia]|]. cbn [mbind option_bind].
    destruct (IH _ b I1) as [[-> Hov]|(fq' & -> & I2 & HP')]. { intros f Hf. apply Hl. set_solver. }
    { left. split; [done|]. cbn in Hov. lia. }
    right. exists fq'. split_and!; [done|exact I2|]. rewrite HP'. cbn. rewrite HP.
    by rewrite <- Permutation_middle.
Qed.

Lemma push_perm q it q' : FileQueue.push q it = Some q' ->
  FileQueue.fq_list q' ≡ₚ it :: FileQueue.fq_list q.
Proof.
  unfold FileQueue.push. intros H.
  destruct (FileQueue.group_of q !! _) as [g|]; cbn [mbind option_bind] in H; [|done].
  destruct (FileQueue.groups q !! g) as [heap|] eqn:Eg; cbn [mbind option_bind] in H; [|done].
  cbv zeta in H. destruct (list_max (it :: heap)) as [hd|]; cbn [mbind option_bind] in H; [|done].
  destruct (u64_add _ _) as [by'|]; cbn [mbind option_bind] in H; [|done]. injection H as <-. unfold FileQueue.fq_list. cbn.
  destruct (FileQueue.join_insert _ _ _ Eg) as (rest & H1 & H2). by rewrite (H2 (it :: heap)), H1.
Qed.

Lemma push_items_inv l : forall s s', push_items l s = Some s' ->
  exists fq, s' = on_inner (with_files fq) s /\
    FileQueue.fq_list fq ≡ₚ ((fun f => FileQueue.item_of f.1 f.2) <$> l)
                             ++ FileQueue.fq_list (files (inner s)).
Proof.
  induction l as [|[size idx] l IH]; intros s s' H; cbn [push_items] in H.
  { injection H as <-. exists (files (inner s)). split; [by destruct s as [[]]|done]. }
  unfold push_item in H. destruct (FileQueue.push _ _) as [q|] eqn:Eq; cbn [mbind option_bind] in H; [|done].
  apply IH in H as (fq & -> & HP). exists fq. split; [done|]. rewrite HP. cbn.
  rewrite (push_perm _ _ _ Eq). by rewrite <- Permutation_middle.
Qed.

(** ** Stealing an unread group of a small-file batch *)
Lemma unread_update fg fh h b0 b1 : NoDup fg -> h ∈ fg -> fh !! h = Some b0 ->
  (unread fg (<[h := b1]> fh) + sum_list (group_len <$> fb_groups b0) =
   unread fg fh + sum_list (group_len <$> fb_groups b1))%nat.
Proof.
  intros Hnd Hin Hb. unfold unread. pose proof (retain_perm h fg Hnd Hin) as HP.
  assert (Hsplit : forall fh', sum_list (batch_unread fh' <$> fg) =
    (batch_unread fh' h + sum_list (batch_unread fh' <$> filter (fun x => x <> h) fg))%nat).
  { intros fh'. by rewrite (sum_list_perm _ _ (fmap_Permutation (batch_unread fh') _ _ HP)). }
  rewrite !Hsplit.
  assert (batch_unread (<[h := b1]> fh) <$> filter (fun x => x <> h) fg =
          batch_unread fh <$> filter (fun x => x <> h) fg) as ->.
  { apply list_fmap_ext. intros i k [Hne _]%list_elem_of_lookup_2%list_elem_of_filter.
    unfold batch_unread. by rewrite lookup_insert_ne. }
  unfold batch_unread at 1 3. rewrite lookup_insert_eq, Hb. lia.
Qed.

Lemma elem_of_slice {A} a e (l : list A) x : x ∈ drop a (take e l) -> x ∈ l.
Proof.
  intros Hx. rewrite <- (take_drop e l), <- (take_drop a (take e l)). set_solver.
Qed.

Lemma slice_sum_le a e (l : list (Z * nat)) : (forall f, f ∈ l -> 0 <= f.1) ->
  sumZ (fst <$> drop a (take e l)) <= sumZ (fst <$> l).
Proof.
  intros Hl. assert (Hnn : forall l', l' ⊆ l -> 0 <= sumZ (fst <$> l')).
  { intros l' Hs. apply sumZ_nonneg. intros x (f & -> & Hf)%list_elem_of_fmap. auto. }
  rewrite <- (take_drop e l) at 2. rewrite <- (take_drop a (take e l)) at 2.
  rewrite !fmap_app, !sumZ_app.
  pose proof (Hnn (take a (take e l))) as H1. pose proof (Hnn (drop e l)) as H2.
  rewrite take_take in *. assert (forall n, take n l ⊆ l) by (intros n x; rewrite <- (take_drop n l) at 2; set_solver).
  assert (drop e l ⊆ l) by (intros x; rewrite <- (take_drop e l) at 2; set_solver).
  specialize (H1 ltac:(auto)). specialize (H2 ltac:(auto)). lia.
Qed.

Lemma unread_other fg fh h b1 : h ∉ fg -> unread fg (<[h := b1]> fh) = unread fg fh.
Proof.
  intros Hn. unfold unread. f_equal. apply list_fmap_ext.
  intros i k Hk%list_elem_of_lookup_2. unfold batch_unread. by rewrite lookup_insert_ne by (intros ->; done).
Qed.

Lemma slice_Some {A} a e (l : list A) : (a <= e <= length l)%nat ->
  slice a e l = Some (drop a (take e l)).
Proof. intros H. unfold slice. by rewrite decide_True. Qed.

Lemma fill_false_Some a e l : (a <= e <= length l)%nat ->
  exists l', fill_false a e l = Some l' /\ length l' = length l.
Proof.
  intros H. unfold fill_false. rewrite decide_True by done. eexists. split; [done|].
  rewrite !length_app, length_take, length_replicate, length_drop. lia.
Qed.

Lemma steal_fast_from_spec s b hs : Inv s b -> hs ⊆ fast_groups (inner s) ->
  panics (overfull s b) (steal_fast_from hs s) \/
  exists o s', steal_fast_from hs s = Some (o, s') /\ Inv s' b /\
    live_of s' b = live_of s b /\ range_heap s' = range_heap s /\ jobs s' = jobs s /\
    match o with
    | None => s' = s /\ (forall h, h ∈ hs -> exists fb, fast_heap s !! h = Some fb /\ fb_groups fb = [])
    | Some idx => (idx < Jobs.len (jobs s))%nat
    end.
Proof.
  intros I. induction hs as [|h hs IH]; intros Hsub; cbn [steal_fast_from].
  { right. exists None, s. split; [done|]. do 4 (split; [done|]). split; [done|set_solver]. }
  pose proof (iv_fast _ _ I) as P. assert (h ∈ fast_groups (inner s)) as Hh by set_solver.
  destruct (pi_groups _ _ _ _ _ _ P h Hh) as [fb Hfb]. rewrite Hfb. cbn [mbind option_bind].
  destruct (reverse (fb_groups fb)) as [|grp kept] eqn:Er.
  { destruct IH as [Hov|(o & s' & -> & I' & HL & HR & HJ & Ho)]; [set_solver|by left|].
    right. exists o, s'. split; [done|]. do 4 (split; [done|]). destruct o; [done|]. destruct Ho as [-> Ho].
    split; [done|]. intros k [->|Hk]%elem_of_cons; [|auto]. exists fb. split; [done|].
    apply (f_equal reverse) in Er. by rewrite reverse_involutive in Er. }
  pose proof (pi_batches _ _ _ _ _ _ P h fb Hfb) as [Ho Hg Hf].
  assert (Hgr : fb_groups fb = reverse kept ++ [grp]).
  { rewrite <- (reverse_involutive (fb_groups fb)), Er, reverse_cons. done. }
  destruct (Hg grp) as [Hb _]; [rewrite Hgr; set_solver|].
  destruct (fill_false_Some (fg_start grp) (fg_end grp) (fb_owned fb)) as (owned & -> & Hlo); [lia|].
  cbn [mbind option_bind]. rewrite slice_Some by lia. cbn [mbind option_bind].
  set (fs := drop (fg_start grp) (take (fg_end grp) (fb_files fb))).
  assert (Hlen : length fs = group_len grp).
  { unfold fs, group_len. rewrite length_drop, length_take. lia. }
  assert (Hpos : (0 < group_len grp)%nat) by (unfold group_len; lia).
  set (fb' := mkBatch (fb_files fb) (reverse kept) owned).
  pose proof (unread_update (fast_groups (inner s)) (fast_heap s) h fb fb' (pi_nodup _ _ _ _ _ _ P) Hh Hfb) as Hu.
  rewrite Hgr in Hu. cbn [fb_groups fb'] in Hu. rewrite fmap_app, sum_list_app in Hu.
  cbn in Hu. pose proof (pi_unread _ _ _ _ _ _ P) as Hur. pose proof (pi_fast _ _ _ _ _ _ P) as Hfp.
  assert (Hfp' : usize_sub (fast_probing (inner s)) (length fs) =
                 Some (fast_probing (inner s) - length fs)%nat) by (apply usize_sub_Some; lia).
  assert (Hn1 : usize_sub (length fs) 1 = Some (length fs - 1)%nat) by (apply usize_sub_Some; lia).
  assert (Hp' : usize_sub (probing (inner s)) (length fs - 1) =
                Some (probing (inner s) - (length fs - 1))%nat) by (apply usize_sub_Some; lia).
  cbn -[usize_sub on_inner]. rewrite Hfp'. cbn [mbind option_bind]. rewrite Hn1. cbn [mbind option_bind].
  rewrite Hp'. cbn [mbind option_bind].
  set (s1 := on_inner _ _).
  assert (I1 : Inv s1 b).
  { split; [apply I|apply I| |apply I|apply I]. unfold s1; cbn. split.
    - intros k Hk. rewrite lookup_insert_is_Some'. right. by apply (pi_groups _ _ _ _ _ _ P).
    - apply P.
    - intros k [x [[<- _]|[_ Hx]]%lookup_insert_Some]; apply (pi_fresh _ _ _ _ _ _ P); eauto.
    - intros k x [[<- <-]|[_ Hx]]%lookup_insert_Some; [|by eapply (pi_batches _ _ _ _ _ _ P)].
      split; cbn; [lia| |exact Hf]. intros g Hgk. apply Hg. rewrite Hgr. set_solver.
    - lia.
    - lia. }
  destruct fs as [|[sz first] others] eqn:Efs; [cbn in Hlen; lia|].
  assert (Hfiles : forall f, f ∈ (sz, first) :: others -> 0 <= f.1 /\ (f.2 < Jobs.len (jobs s))%nat).
  { intros f Hin. apply Hf. rewrite <- Efs in Hin. unfold fs in Hin.
    by eapply elem_of_slice. }
  destruct (push_items_spec others s1 b I1) as [[-> Hov]|(fq & -> & I2 & _)].
  { intros f Hin. apply Hfiles. set_solver. }
  { left. split; [done|]. apply (of_files s b h fb); [done..|].
    pose proof (slice_sum_le (fg_start grp) (fg_end grp) (fb_files fb) ltac:(intros f Hin; by apply Hf)) as Hle.
    fold fs in Hle. rewrite Efs, fmap_cons, sumZ_cons in Hle.
    destruct (Hfiles (sz, first) ltac:(set_solver)) as [Hsz _]. cbn in Hov, Hle, Hsz. lia. }
  right. cbn [mbind option_bind]. eexists _, _. split_and!; [done| |done|done|done|].
  - split; apply I2.
  - by destruct (Hfiles (sz, first) ltac:(set_solver)).
Qed.

(** What stealing a group does, in full: the last group of the first batch with
    unread groups; its first file goes to the caller, the others are queued. *)
Lemma steal_fast_inv s b hs idx s' : Inv s b -> hs ⊆ fast_groups (inner s) ->
  steal_fast_from hs s = Some (Some idx, s') ->
  exists h fb grp kept sz others owned, h ∈ hs /\ fast_heap s !! h = Some fb /\
    fb_groups fb = kept ++ [grp] /\
    drop (fg_start grp) (take (fg_end grp) (fb_files fb)) = (sz, idx) :: others /\
    fill_false (fg_start grp) (fg_end grp) (fb_owned fb) = Some owned /\
    fast_heap s' = <[h := mkBatch (fb_files fb) kept owned]> (fast_heap s) /\
    FileQueue.fq_list (files (inner s')) ≡ₚ
      ((fun f => FileQueue.item_of f.1 f.2) <$> others) ++ FileQueue.fq_list (files (inner s)) /\
    (probing (inner s') + length others = probing (inner s))%nat /\
    (fast_probing (inner s') + S (length others) = fast_probing (inner s))%nat.
Proof.
  intros I. induction hs as [|h hs IH]; intros Hsub H; cbn [steal_fast_from] in H; [done|].
  destruct (fast_heap s !! h) as [fb|] eqn:Hfb; cbn [mbind option_bind] in H; [|done].
  destruct (reverse (fb_groups fb)) as [|grp kept] eqn:Er.
  { destruct IH as (h' & IH); [set_solver|done|]. exists h'.
    destruct IH as (fb' & grp & kept & sz & others & owned & Hin & Hrest).
    exists fb', grp, kept, sz, others, owned. split; [set_solver|done]. }
  destruct (fill_false _ _ _) as [owned|] eqn:Eo; cbn [mbind option_bind] in H; [|done].
  destruct (slice _ _ _) as [fs|] eqn:Es; cbn [mbind option_bind] in H; [|done].
  unfold slice in Es. case_decide; [|done]. injection Es as <-. set (fs := drop _ _) in *. cbv zeta in H.
  destruct (usize_sub _ (length fs)) as [fp|] eqn:E1; cbn [mbind option_bind] in H; [|done].
  destruct (usize_sub (length fs) 1) as [n1|] eqn:E2; cbn [mbind option_bind] in H; [|done].
  destruct (usize_sub _ n1) as [p|] eqn:E3; cbn [mbind option_bind] in H; [|done].
  apply usize_sub_Some in E1, E2, E3. cbn in E1, E3.
  destruct fs as [|[sz first] others] eqn:Efs; [done|]. cbn [length] in *.
  destruct (push_items others _) as [s2|] eqn:Ep; cbn [mbind option_bind] in H; [|done].
  injection H as <- <-.
  apply push_items_inv in Ep as (fq & -> & HP).
  exists h, fb, grp, (reverse kept), sz, others, owned.
  assert (Hg : fb_groups fb = reverse kept ++ [grp]).
  { rewrite <- (reverse_involutive (fb_groups fb)), Er, reverse_cons. done. }
  split_and!; [set_solver|done|done|done|done|done|exact HP|cbn; lia|cbn; lia].
Qed.

(** ** [next] *)
Lemma with_ranges_id s : on_inner (with_ranges (ranges (inner s))) s = s.
Proof. by destruct s as [[]]. Qed.

Lemma with_files_id s : on_inner (with_files (files (inner s))) s = s.
Proof. by destruct s as [[]]. Qed.

(** Nothing that [next] could hand out. *)
Definition idle (s : Sched) : Prop :=
  RangeQueue.rq_list (ranges (inner s)) = [] /\ finishes (inner s) = [] /\
  FileQueue.fq_list (files (inner s)) = [] /\
  (forall h r, h ∈ inflight (inner s) -> range_heap s !! h = Some r -> unsplittable (min_split s) r) /\
  (forall h, h ∈ fast_groups (inner s) -> exists fb, fast_heap s !! h = Some fb /\ fb_groups fb = []).

(** The item names work that exists. *)
Definition item_ok (s : Sched) (i : Item) : Prop :=
  match i with
  | IFile idx => (idx < Jobs.len (jobs s))%nat
  | IRange h => h ∈ inflight (inner s)
  | IFinish idx m => True
  | IExit => True
  end.

Lemma inv_ghost s s' b : Inv s b -> ranges (inner s') = ranges (inner s) ->
  inflight (inner s') = inflight (inner s) -> outstanding (inner s') = outstanding (inner s) ->
  range_heap s' = range_heap s -> files (inner s') = files (inner s) ->
  job_store s' = job_store s -> jobs s' = jobs s -> (next_ref s <= next_ref s')%nat ->
  fast_groups (inner s') = fast_groups (inner s) -> fast_heap s' = fast_heap s ->
  block s' = block s -> min_split s' = min_split s ->
  (unread (fast_groups (inner s)) (fast_heap s) <= fast_probing (inner s') <= probing (inner s'))%nat ->
  Inv s' b /\ live_of s' b = live_of s b.
Proof.
  intros I E1 E2 E3 E4 E5 E6 E7 E8 E9 E10 E11 E12 E13. unfold live_of. rewrite E1, E2, E4.
  split; [|done]. split; rewrite ?E1, ?E2, ?E3, ?E4, ?E5, ?E6, ?E7, ?E9, ?E10, ?E11, ?E12; try apply I.
  - eapply rinv_nref; [apply I|done].
  - eapply pinv_nref; [|done]. pose proof (iv_fast _ _ I) as []. split; auto; lia.
Qed.

Lemma steal_flying s h s' : steal s = Some (Some h, s') -> h ∈ inflight (inner s').
Proof.
  unfold steal. intros H. destruct (best_victim _ _ _ _) as [[[rem v]|]|]; cbn in H; [|done..].
  destruct (range_heap s !! v) as [r|] eqn:Er; cbn in H; [|done].
  destruct (u64_sub _ _); cbn in H; [|done]. case_decide; [done|].
  destruct (checked_mul _ _); cbn [mbind option_bind] in H; [|done].
  destruct (_ || _); [done|]. rewrite (range_update_eq s v r) in H by done. cbn [mbind option_bind] in H.
  unfold inc_outstanding in H. destruct (u32_add _ 1); cbn -[range_update] in H; [|done].
  erewrite range_update_eq in H by (cbn; apply lookup_insert_eq). cbn in H. injection H as <- <-.
  cbn. set_solver.
Qed.

Lemma try_take_spec s b : Inv s b ->
  panics (overfull s b) (try_take s) \/
  exists o s', try_take s = Some (o, s') /\ Inv s' (rebase s s' b) /\
    same_cover s b s' (rebase s s' b) /\
    match o with
    | None => s' = s /\ idle s
    | Some i => item_ok s' i /\ i <> IExit
    end.
Proof.
  intros I. unfold try_take. pose proof (heap_fresh s b I) as Hfr.
  pose proof (RangeQueue.rq_pop_spec _ (ri_wf _ _ _ _ _ _ (iv_ranges _ _ I))) as HP.
  destruct (RangeQueue.pop (ranges (inner s))) as [[[[[i o] e]|] rq]|]; [| |done]; cbn [mbind option_bind].
  { right. destruct HP as (W & HP & _). destruct (claim_taken s b rq i o e I W HP) as [I' HC].
    eexists _, _. split; [done|]. cbn [snd] in *. split; [exact I'|]. split; [exact HC|].
    split; [cbn; set_solver|done]. }
  destruct HP as [-> Hrq]. rewrite with_ranges_id.
  destruct (finishes (inner s)) as [|[idx m] rest] eqn:Ef; last first.
  { right. eexists _, _. split; [done|]. rewrite rebase_none by done.
    match goal with |- Inv ?s' _ /\ _ => destruct (inv_ghost s s' b I) as [I' HL] end;
      [try done..|]; [split; apply (iv_fast _ _ I)|].
    split; [done|]. split; [|done]. intros k x. by rewrite HL. }
  pose proof (finv_pop _ _ _ (iv_files _ _ I)) as HF.
  destruct (FileQueue.pop (files (inner s))) as [[[it|] fq]|]; [| |done]; cbn [mbind option_bind].
  { right. destruct HF as (F & HPf & Hit). eexists _, _. split; [done|]. rewrite rebase_none by done.
    split; [|split; [done|split; [done|done]]].
    split; [apply I|exact F| |apply I|apply I]. cbn. pose proof (iv_fast _ _ I) as []. split; auto. }
  destruct HF as [-> Hfq]. rewrite with_files_id.
  destruct (steal_spec s b I) as [[-> Hov]|(o & s1 & Hst & I1 & HC & Hnone)]; [by left|]. rewrite Hst. cbn [mbind option_bind].
  destruct o as [h|].
  { right. eexists _, _. split; [done|]. split; [done|]. split; [done|]. split; [|done]. by eapply steal_flying. }
  destruct (Hnone eq_refl) as [-> Huns]. clear I1 HC.
  unfold steal_fast_group. destruct (steal_fast_from_spec s b (fast_groups (inner s)) I ltac:(done))
    as [[-> Hov]|(o & s2 & Hsf & I2 & HL & HR & HJ & Ho)]; [by left|]. right. rewrite Hsf. cbn [mbind option_bind].
  assert (Hb : rebase s s2 b = b) by (apply rebase_none; by rewrite HR).
  assert (HC : same_cover s b s2 b) by (intros k x; by rewrite HL).
  destruct o as [idx|].
  - eexists _, _. split; [done|]. rewrite Hb. split; [done|]. split; [done|]. split; [|done].
    cbn. by rewrite HJ.
  - eexists _, _. split; [done|]. destruct Ho as [-> Ho]. rewrite Hb. split; [done|].
    split; [done|]. split; [done|]. by split_and!.
Qed.
