(* ===== verification/SchedOps.v ===== *)
(** * The scheduler's operations keep its invariant

    For every operation of the scheduler and every move of a worker: under the
    protocol its callers follow it panics only when a total overflows its
    machine integer; otherwise it keeps [Inv], and it accounts for every byte of
    the live intervals. *)

From S2P Require Import Prelude Proto Jobs RangeQueue FileQueue Sched SchedRanges SchedInv.
Local Open Scope Z_scope.

(** The usual conclusion: [s'] is a good state, and no byte changed owner count. *)
Definition keeps (s : Sched) (b : gmap nat Z) (s' : Sched) : Prop :=
  Inv s' (rebase s s' b) /\ same_cover s b s' (rebase s s' b).

Lemma keeps_live s b s' : Inv s b -> range_heap s' = range_heap s -> Inv s' b ->
  live_of s' b ≡ₚ live_of s b -> keeps s b s'.
Proof.
  intros I Hh I' HL. unfold keeps. rewrite rebase_none by (rewrite Hh; by eapply heap_fresh).
  split; [done|]. by apply same_cover_perm.
Qed.

(** An operation that touches none of the queues, handles and jobs. *)
Lemma keeps_ghost s b s' : Inv s b -> ranges (inner s') = ranges (inner s) ->
  inflight (inner s') = inflight (inner s) -> outstanding (inner s') = outstanding (inner s) ->
  range_heap s' = range_heap s -> files (inner s') = files (inner s) ->
  job_store s' = job_store s -> jobs s' = jobs s -> (next_ref s <= next_ref s')%nat ->
  fast_groups (inner s') = fast_groups (inner s) -> fast_heap s' = fast_heap s ->
  block s' = block s -> min_split s' = min_split s ->
  (unread (fast_groups (inner s)) (fast_heap s) <= fast_probing (inner s') <= probing (inner s'))%nat ->
  keeps s b s'.
Proof.
  intros I E1 E2 E3 E4 E5 E6 E7 E8 E9 E10 E11 E12 E13.
  destruct (inv_ghost s s' b I) as [I' HL]; [done..|]. apply keeps_live; [done..|by rewrite HL].
Qed.

Lemma inv_fast s b : Inv s b ->
  (unread (fast_groups (inner s)) (fast_heap s) <= fast_probing (inner s) <= probing (inner s))%nat.
Proof. intros I. split; apply (iv_fast _ _ I). Qed.

Ltac ghost I := apply (keeps_ghost _ _ _ I); try done; cbn; pose proof (inv_fast _ _ I); try lia.

(** Sending signals does not matter to the invariant. *)
Lemma keeps_signal x s b s' : keeps s b s' -> keeps s b (signal x s').
Proof. intros [I H]. split; [|exact H]. split; apply I. Qed.

(** ** Planning and status *)
Lemma push_file_spec s b job : Inv s b -> 0 <= e_size (j_entry (fj_data job)) ->
  Z.of_nat (S (Jobs.len (jobs s))) < 2 ^ 64 ->
  panics (u64_max < FileQueue.bytes (files (inner s)) + e_size (j_entry (fj_data job))) (push_file job s) \/
  exists s', push_file job s = Some (Jobs.len (jobs s), s') /\ keeps s b s' /\
    Jobs.len (jobs s') = S (Jobs.len (jobs s)) /\
    Jobs.index (job_store s') (jobs s') (Jobs.len (jobs s)) = Some (fj_data job) /\
    FileQueue.fq_list (files (inner s')) ≡ₚ
      FileQueue.item_of (e_size (j_entry (fj_data job))) (Jobs.len (jobs s))
        :: FileQueue.fq_list (files (inner s)).
Proof.
  intros I Hsz Hn. pose proof (iv_files _ _ I) as F. unfold push_file.
  destruct (Jobs.jobs_push_spec _ _ job (fi_jobs _ _ _ F)) as (st & js & -> & W & Hext & Hlen & Hidx & _ & Hold).
  cbn [mbind option_bind]. rewrite Hlen. cbn [usize_sub].
  rewrite (proj2 (usize_sub_Some (S (Jobs.len (jobs s))) 1 (Jobs.len (jobs s)))) by lia.
  cbn [mbind option_bind]. unfold Jobs.index in Hidx.
  destruct (Jobs.current js (Jobs.len (jobs s))) as [c|] eqn:Ec; cbn [mbind option_bind] in *; [|done].
  unfold Jobs.cur_data in Hidx. rewrite Hidx. cbn [mbind option_bind].
  destruct (FileQueue.register_spec (files (inner s)) (Jobs.len (jobs s)) (j_dst (fj_data job))
              (fi_wf _ _ _ F)) as (Wq & Hreg & Hkeep & Hlist).
  set (fq1 := FileQueue.register _ _ _) in *.
  assert (F1 : FInv fq1 st js).
  { split; [done|done| | | |].
    - intros i d Hd. destruct (decide (i = Jobs.len (jobs s))) as [->|Hne].
      + unfold Jobs.index in Hd. rewrite Ec in Hd. cbn in Hd. unfold Jobs.cur_data in Hd.
        rewrite Hidx in Hd. by injection Hd as <-.
      + assert (i < Jobs.len js)%nat by (eapply Jobs.index_bound; eauto).
        destruct (Hold i) as [Ho _]; [lia|]. rewrite Ho in Hd. by eapply (fi_sizes _ _ _ F).
    - intros i Hi. destruct (decide (i = Jobs.len (jobs s))) as [->|Hne]; [done|].
      apply Hkeep, (fi_registered _ _ _ F). lia.
    - intros it. rewrite Hlist. intros Hin%(fi_items _ _ _ F). lia.
    - lia. }
  destruct (finv_push _ _ _ (e_size (j_entry (fj_data job))) (Jobs.len (jobs s)) F1)
    as [[Hp Hov]|(fq2 & Hp & F2 & HP & _)]; [lia|done| |];
    cbn -[FileQueue.push FileQueue.item_of usize_sub]; fold fq1; rewrite Hp; cbn [mbind option_bind].
  { left. split; [done|]. unfold fq1 in Hov. by rewrite FileQueue.register_bytes in Hov. }
  right.
  set (s' := if negb _ then _ else _).
  assert (Hs' : exists s0 l, s0 = with_inner (with_file_work_anticipated true (with_files fq2 (inner s)))
            (with_jobs js (with_job_store st s)) /\ s' = with_signals l s0).
  { unfold s'. repeat case_match; eexists _, _; (split; [reflexivity|reflexivity]). }
  clearbody s'. destruct Hs' as (s0 & l & Hs0 & ->).
  exists (with_signals l s0). split; [done|]. rewrite Hs0. cbn. split; [|split; [done|split]].
  - apply keeps_live; [done|done| |done]. split; cbn; [apply I|exact F2| |apply I|apply I].
    rewrite Hlen. apply pinv_jobs with (Jobs.len (jobs s)); [apply I|lia].
  - unfold Jobs.index. rewrite Ec. done.
  - by rewrite HP, Hlist.
Qed.

(** ** Queueing again *)
Lemma keeps_push_item s0 b s size idx : Inv s b -> live_of s b = live_of s0 b ->
  range_heap s = range_heap s0 -> Inv s0 b -> (idx < Jobs.len (jobs s))%nat -> 0 <= size ->
  panics (u64_max < FileQueue.bytes (files (inner s)) + size) (push_item size idx s) \/
  exists s', push_item size idx s = Some s' /\ keeps s0 b s' /\
    FileQueue.fq_list (files (inner s')) ≡ₚ
      FileQueue.item_of size idx :: FileQueue.fq_list (files (inner s)).
Proof.
  intros I HL HH I0 Hi Hs.
  destruct (push_item_spec s b size idx I Hi Hs) as [Hov|(fq & -> & I' & HP & _)]; [by left|].
  right. eexists. split; [done|]. split; [|done].
  apply keeps_live; [done|exact HH|done|]. unfold live_of in *. cbn. by rewrite HL.
Qed.

(** The queued bytes and this file's size together do not fit a [u64]. *)
Definition overfilled (s : Sched) (idx : nat) : Prop :=
  exists size, job_size s idx = Some size /\ u64_max < FileQueue.bytes (files (inner s)) + size.

Lemma requeue_spec s b idx : Inv s b -> (idx < Jobs.len (jobs s))%nat ->
  panics (overfilled s idx) (requeue idx s) \/
  exists s', requeue idx s = Some s' /\ keeps s b s'.
Proof.
  intros I Hi. destruct (job_size_ok s idx (iv_files _ _ I) Hi) as (size & Hz & Hs).
  unfold requeue. rewrite Hz. cbn [mbind option_bind].
  destruct (keeps_push_item s b s size idx) as [[-> Hov]|(s' & -> & K & _)]; [done..| |].
  { left. split; [done|]. by exists size. }
  right. eexists. split; [done|]. by apply keeps_signal.
Qed.

Lemma dec_probing_spec s b n : Inv s b -> (fast_probing (inner s) + n <= probing (inner s))%nat ->
  exists s', dec_probing n s = Some s' /\ s' = on_inner (with_probing (probing (inner s) - n)) s /\
    Inv s' b /\ live_of s' b = live_of s b.
Proof.
  intros I Hn. unfold dec_probing.
  rewrite (proj2 (usize_sub_Some (probing (inner s)) n (probing (inner s) - n))) by lia.
  cbn [mbind option_bind]. eexists. split; [done|]. split; [done|].
  pose proof (inv_fast _ _ I). apply inv_ghost; try done. cbn. lia.
Qed.

Lemma requeue_probed_spec s b idx : Inv s b -> (idx < Jobs.len (jobs s))%nat ->
  (fast_probing (inner s) < probing (inner s))%nat ->
  panics (overfilled s idx) (requeue_probed idx s) \/
  exists s', requeue_probed idx s = Some s' /\ keeps s b s'.
Proof.
  intros I Hi Hp. destruct (job_size_ok s idx (iv_files _ _ I) Hi) as (size & Hz & Hs).
  unfold requeue_probed. rewrite Hz. cbn [mbind option_bind].
  destruct (dec_probing_spec s b 1 I) as (s1 & -> & Hs1 & I1 & HL); [lia|]. cbn [mbind option_bind].
  destruct (keeps_push_item s b s1 size idx) as [[-> Hov]|(s' & -> & K & _)]; [by subst..| |].
  { left. split; [done|]. exists size. by subst s1. }
  right. eexists. split; [done|]. by apply keeps_signal.
Qed.

Lemma finish_done_spec s b : Inv s b -> (0 < finishing (inner s))%nat ->
  exists s', finish_done s = Some s' /\ keeps s b s'.
Proof.
  intros I Hf. unfold finish_done.
  rewrite (proj2 (usize_sub_Some (finishing (inner s)) 1 (finishing (inner s) - 1))) by lia.
  cbn [mbind option_bind]. eexists. split; [done|]. ghost I.
Qed.

(** ** Batches of small files *)
Lemma begin_fast_batch_spec s b active max_n : Inv s b ->
  (fast_probing (inner s) < probing (inner s))%nat -> (1 <= max_n)%nat ->
  exists n s', begin_fast_batch active max_n s = Some (n, s') /\ keeps s b s' /\ (1 <= n <= max_n)%nat.
Proof.
  intros I Hp Hn. unfold begin_fast_batch. rewrite decide_True by done. rewrite decide_False by lia.
  eexists _, _. split; [done|]. split; [ghost I|lia].
Qed.

Lemma mark_fast_spec s b n : Inv s b -> (fast_probing (inner s) + n <= probing (inner s))%nat ->
  exists s', mark_fast n s = Some s' /\ keeps s b s'.
Proof.
  intros I Hp. unfold mark_fast. cbn. rewrite decide_True by done. eexists. split; [done|]. ghost I.
Qed.

Lemma complete_fast_batch_spec s b n : Inv s b -> (0 < n)%nat -> (0 < fast_batches (inner s))%nat ->
  (unread (fast_groups (inner s)) (fast_heap s) + n <= fast_probing (inner s))%nat ->
  exists s', complete_fast_batch n s = Some s' /\ keeps s b s'.
Proof.
  intros I Hn Hb Hu. pose proof (inv_fast _ _ I). unfold complete_fast_batch.
  rewrite decide_False by lia.
  rewrite (proj2 (usize_sub_Some (probing (inner s)) n (probing (inner s) - n))) by lia.
  rewrite (proj2 (usize_sub_Some (fast_probing (inner s)) n (fast_probing (inner s) - n))) by lia.
  rewrite (proj2 (usize_sub_Some (fast_batches (inner s)) 1 (fast_batches (inner s) - 1))) by lia.
  cbn [mbind option_bind]. eexists. split; [done|]. ghost I.
Qed.

(** The groups of a batch lie in its files, each nonempty. *)
Definition group_in (n : nat) (g : nat * nat) : Prop := (g.1 < g.2 <= n)%nat.

(** A shared group whose sizes do not add up to a [u64]. *)
Definition heavy_group (bf : list (Z * nat)) (groups : list (nat * nat)) : Prop :=
  exists g, g ∈ groups /\ u64_max < sumZ (fst <$> drop g.1 (take g.2 bf)).

Lemma share_groups_spec (bf : list (Z * nat)) (rest : list (nat * nat)) :
  (forall f, f ∈ bf -> 0 <= f.1) -> Forall (group_in (length bf)) rest ->
  let share := mapM (fun '(a, e) => fs ← slice a e bf; bytes ← u64_sum 0 (fst <$> fs);
                                    Some (mkGroup a e bytes)) rest in
  panics (heavy_group bf rest) share \/
  exists gs, share = Some gs /\
    sum_list (group_len <$> gs) = sum_list ((fun g => g.2 - g.1)%nat <$> rest) /\
    forall x, x ∈ gs -> (fg_start x < fg_end x <= length bf)%nat /\
      fg_bytes x = sumZ (fst <$> drop (fg_start x) (take (fg_end x) bf)) /\ fg_bytes x <= u64_max.
Proof.
  intros Hnn. induction 1 as [|[a e] rest H Hr IH].
  { right. exists []. split_and!; [done|done|set_solver]. }
  unfold group_in in H; cbn in H. cbv zeta. cbn [mapM]. rewrite slice_Some by lia. cbn [mbind option_bind].
  destruct (u64_sum_spec (fst <$> drop a (take e bf)) 0) as [[-> Hov]|[-> Hle]].
  { intros x (f & -> & Hf)%list_elem_of_fmap. apply elem_of_slice in Hf. auto. }
  { left. split; [done|]. exists (a, e). split; [set_solver|exact Hov]. }
  cbn [mbind option_bind]. destruct IH as [[-> (g & Hg & Hov)]|(gs & -> & Hs & Hg)].
  { left. split; [done|]. exists g. split; [set_solver|done]. }
  right. cbn. eexists. split; [done|]. split; [cbn; rewrite Hs; done|].
  intros x [->|Hx]%elem_of_cons; [|auto]. cbn. split; [lia|split; [done|]]. apply Hle. done.
Qed.

Lemma inv_share s b h batch fg : Inv s b -> h = next_ref s -> batch_ok (Jobs.len (jobs s)) batch ->
  (fg = fast_groups (inner s) \/ fg = fast_groups (inner s) ++ [h]) ->
  (unread (fast_groups (inner s)) (fast_heap s) +
     sum_list (group_len <$> fb_groups batch) <= fast_probing (inner s))%nat ->
  PInv (probing (inner s)) (fast_probing (inner s)) fg (<[h := batch]> (fast_heap s)) (S h)
    (Jobs.len (jobs s)).
Proof.
  intros I -> Hb Hfg Hu. pose proof (iv_fast _ _ I) as P.
  assert (Hfr : next_ref s ∉ fast_groups (inner s)).
  { intros Hin. pose proof (pi_fresh _ _ _ _ _ _ P _ (pi_groups _ _ _ _ _ _ P _ Hin)). lia. }
  assert (Hun : (unread fg (<[next_ref s := batch]> (fast_heap s)) <= fast_probing (inner s))%nat).
  { destruct Hfg as [-> | ->]; [rewrite unread_other by done; lia|].
    unfold unread. rewrite fmap_app, sum_list_app.
    change (sum_list (batch_unread (<[next_ref s := batch]> (fast_heap s)) <$> fast_groups (inner s)))
      with (unread (fast_groups (inner s)) (<[next_ref s := batch]> (fast_heap s))).
    rewrite unread_other by done. cbn. unfold batch_unread. rewrite lookup_insert_eq. lia. }
  split; [| | | |done|apply P].
  - intros k Hk. rewrite lookup_insert_is_Some'. destruct Hfg as [-> | ->].
    + right. by apply (pi_groups _ _ _ _ _ _ P).
    + apply elem_of_app in Hk as [Hk|Hk]; [right; by apply (pi_groups _ _ _ _ _ _ P)|].
      left. apply list_elem_of_singleton in Hk. done.
  - destruct Hfg as [-> | ->]; [apply P|]. apply NoDup_app.
    split_and!; [apply P|set_solver|apply NoDup_singleton].
  - intros k [x [[<- _]|[_ Hx]]%lookup_insert_Some]; [lia|].
    pose proof (pi_fresh _ _ _ _ _ _ P k ltac:(eauto)). lia.
  - intros k x [[_ <-]|[_ Hx]]%lookup_insert_Some; [done|]. by eapply (pi_batches _ _ _ _ _ _ P).
Qed.

Lemma share_fast_groups_spec s b (bf : list (Z * nat)) first (rest : list (nat * nat)) : Inv s b ->
  (forall f, f ∈ bf -> 0 <= f.1 /\ (f.2 < Jobs.len (jobs s))%nat) ->
  Forall (group_in (length bf)) rest ->
  (unread (fast_groups (inner s)) (fast_heap s) + sum_list ((fun g => g.2 - g.1)%nat <$> rest)
     <= fast_probing (inner s))%nat ->
  panics (heavy_group bf rest) (share_fast_groups bf (first :: rest) s) \/
  exists s', share_fast_groups bf (first :: rest) s = Some (first, next_ref s, s') /\ keeps s b s'.
Proof.
  intros I Hf Hg Hu. unfold share_fast_groups.
  destruct (share_groups_spec bf rest ltac:(intros f Hin; by apply Hf) Hg)
    as [[-> Hov]|(gs & -> & Hsum & Hgs)]; [by left|]. right. cbn [mbind option_bind].
  set (batch := mkBatch bf gs (replicate (length bf) true)).
  assert (Hok : batch_ok (Jobs.len (jobs s)) batch).
  { split; cbn; [by rewrite length_replicate|done|done]. }
  eexists. split; [done|]. case_decide as Hr; [|apply keeps_signal];
    (apply keeps_live; [done|done| |done]);
    (split; cbn; [eapply rinv_nref; [apply I|lia]|apply I| |apply I|apply I]);
    (apply (inv_share s b); [done|done|done|auto|cbn; lia]).
Qed.

Lemma finish_fast_groups_spec s b h fb : Inv s b -> fast_heap s !! h = Some fb ->
  exists s', finish_fast_groups h s = Some (fb_owned fb, s') /\ keeps s b s'.
Proof.
  intros I Hfb. unfold finish_fast_groups. rewrite Hfb. cbn [mbind option_bind].
  eexists. split; [done|]. pose proof (iv_fast _ _ I) as P.
  apply keeps_live; [done|done| |done]. split; cbn; [apply I|apply I| |apply I|apply I].
  split; [|apply NoDup_filter, P|apply P|apply P| |apply P].
  - intros k [_ Hk]%list_elem_of_filter. by apply P.
  - etransitivity; [|apply (pi_unread _ _ _ _ _ _ P)]. unfold unread.
    generalize (fast_groups (inner s)). intros l. induction l as [|k l IH]; [done|].
    rewrite filter_cons. case_decide; cbn; lia.
Qed.

Definition slice_bytes (files : list (Z * nat)) (a e : nat) : Z := sumZ (fst <$> drop a (take e files)).

Lemma slice_bytes_snoc files a e size idx : (a <= e)%nat -> files !! e = Some (size, idx) ->
  slice_bytes files a (S e) = slice_bytes files a e + size.
Proof.
  intros Ha He. unfold slice_bytes. rewrite (take_S_r _ _ _ He).
  pose proof (lookup_lt_Some _ _ _ He).
  rewrite drop_app_le by (rewrite length_take; lia). rewrite fmap_app, sumZ_app. cbn. lia.
Qed.

Lemma slice_bytes_nil files a : slice_bytes files a a = 0.
Proof. unfold slice_bytes. rewrite drop_ge; [done|]. rewrite length_take. lia. Qed.

Lemma slice_bytes_split files a m e : (a <= m <= e)%nat ->
  slice_bytes files a e = slice_bytes files a m + slice_bytes files m e.
Proof.
  intros H. unfold slice_bytes. rewrite <- sumZ_app, <- fmap_app. do 2 f_equal.
  destruct (decide (m <= length files)%nat) as [Hm|Hm].
  - rewrite <- (take_drop m files) at 1. rewrite take_app.
    rewrite length_take, Nat.min_l by lia. rewrite take_take, Nat.min_r by lia.
    rewrite drop_app_le by (rewrite length_take; lia). rewrite take_drop_commute.
    by replace (m + (e - m))%nat with e by lia.
  - rewrite (take_ge files e), (take_ge files m), (drop_ge files m) by lia. by rewrite app_nil_r.
Qed.

Section ClaimEnd.
Context (files : list (Z * nat)) (max_files : nat) (max_bytes : Z) (start limit : nat).
Context (Hlimit : (limit <= length files)%nat) (Hsizes : forall f, f ∈ files -> 0 <= f.1).
Context (Htotal : slice_bytes files start limit <= u64_max).

Lemma claim_end_spec fuel : forall end_,
  (start <= end_ <= limit)%nat -> (limit - end_ <= fuel)%nat ->
  (start < end_ -> end_ - start <= Nat.max 1 max_files)%nat ->
  (slice_bytes files start end_ <= max_bytes \/ (end_ <= S start)%nat \/ u64_max <= max_bytes) ->
  exists e, claim_end files max_files max_bytes start limit fuel end_ (slice_bytes files start end_) =
      Some (e, slice_bytes files start e) /\
    (end_ <= e <= limit)%nat /\ (start < limit -> start < e)%nat /\
    (e - start <= Nat.max 1 max_files)%nat /\
    (slice_bytes files start e <= max_bytes \/ (e <= S start)%nat \/ u64_max <= max_bytes).
Proof.
  induction fuel as [|fuel IH]; intros e0 Hr Hf Hn Hb; cbn [claim_end].
  { exists e0. split; [done|]. split_and!; [lia..|done]. }
  case_decide as Hlt; [|exists e0; split; [done|]; split_and!; [lia..|done]].
  destruct (lookup_lt_is_Some_2 files e0) as [[size idx] He]; [lia|]. rewrite He. cbn [mbind option_bind].
  destruct (_ && _) eqn:Ec.
  { apply andb_true_iff in Ec as [Hs%bool_decide_eq_true _].
    exists e0. split; [done|]. split_and!; [lia..|done]. }
  assert (Hfit : slice_bytes files start e0 + size <= u64_max).
  { rewrite <- (slice_bytes_snoc files start e0 size idx) by (done || lia).
    pose proof (slice_bytes_split files start (S e0) limit ltac:(lia)).
    enough (0 <= slice_bytes files (S e0) limit) by lia. apply sumZ_nonneg.
    intros x ([sz i] & -> & Hx)%list_elem_of_fmap. by apply elem_of_slice, Hsizes in Hx. }
  rewrite (u64_add_Some _ _ Hfit). cbn [mbind option_bind].
  rewrite <- (slice_bytes_snoc files start e0 size idx) by (done || lia).
  apply andb_false_iff in Ec as [Ec%bool_decide_eq_false|Ec].
  - destruct (IH (S e0)) as (e & -> & H1 & H2 & H3 & H4); [lia|lia|lia|lia|].
    exists e. split; [done|]. split_and!; [lia..|done].
  - apply orb_false_iff in Ec as [E1%bool_decide_eq_false E2%bool_decide_eq_false].
    destruct (IH (S e0)) as (e & -> & H1 & H2 & H3 & H4); [lia|lia|lia| |].
    { unfold saturating_add in E2.
      rewrite (slice_bytes_snoc files start e0 size idx) by (done || lia). lia. }
    exists e. split; [done|]. split_and!; [lia..|done].
Qed.
End ClaimEnd.

(** A claim takes the front of the first unread group: at least one file, at
    most [max_files] files and [max_bytes] bytes unless a single file exceeds
    them; what it takes is no longer stealable. *)
Lemma batch_claim_spec n fb max_files max_bytes : batch_ok n fb ->
  exists o fb', batch_claim fb max_files max_bytes = Some (o, fb') /\ batch_ok n fb' /\
    fb_files fb' = fb_files fb /\ fb_owned fb' = fb_owned fb /\
    match o with
    | None => fb_groups fb = [] /\ fb' = fb
    | Some (a, e) => (exists g rest, fb_groups fb = g :: rest /\ fg_start g = a /\ e <= fg_end g)%nat /\
        (a < e)%nat /\ (e - a <= Nat.max 1 max_files)%nat /\
        (slice_bytes (fb_files fb) a e <= max_bytes \/ e = S a \/ u64_max <= max_bytes) /\
        (sum_list (group_len <$> fb_groups fb') + (e - a) = sum_list (group_len <$> fb_groups fb))%nat
    end.
Proof.
  intros [Ho Hg Hf]. unfold batch_claim. destruct (fb_groups fb) as [|g rest] eqn:Eg.
  { eexists _, _. split; [done|]. split; [split; rewrite ?Eg; done|done]. }
  destruct (Hg g ltac:(set_solver)) as (Hb & Hbytes & Hfit). pose proof Hfit as Hfit'. rewrite Hbytes in Hfit'.
  pose proof (claim_end_spec (fb_files fb) max_files max_bytes (fg_start g) (fg_end g) ltac:(lia)
    ltac:(intros f Hin; by apply Hf) Hfit' (fg_end g - fg_start g) (fg_start g) ltac:(lia) ltac:(lia) ltac:(lia) ltac:(lia))
    as (e & Hc & H1 & H2 & H3 & H4). rewrite slice_bytes_nil in Hc. rewrite Hc. cbn [mbind option_bind].
  change (fg_bytes g = slice_bytes (fb_files fb) (fg_start g) (fg_end g)) in Hbytes.
  rewrite (slice_bytes_split _ _ e) in Hbytes by lia.
  assert (0 <= slice_bytes (fb_files fb) e (fg_end g)) as Hnn.
  { apply sumZ_nonneg. intros x ([sz i] & -> & Hx)%list_elem_of_fmap.
    apply elem_of_slice in Hx. by apply Hf in Hx as [? _]. }
  rewrite (proj2 (u64_sub_Some _ _ (slice_bytes (fb_files fb) e (fg_end g)))) by lia. cbn [mbind option_bind].
  eexists _, _. split; [done|]. split_and!; [|done|done|eexists _, _; split_and!; [done|done|lia]|lia|lia| |].
  - split; cbn; [done| |done]. case_decide; [set_solver|].
    intros x [->|Hx]%elem_of_cons; [cbn|apply Hg; set_solver]. split; [lia|split; [done|]].
    assert (0 <= slice_bytes (fb_files fb) (fg_start g) e); [|lia].
    apply sumZ_nonneg. intros x ([sz i] & -> & Hx)%list_elem_of_fmap.
    apply elem_of_slice in Hx. by apply Hf in Hx as [? _].
  - destruct H4 as [?|[?|?]]; [auto| |auto]. right; left. lia.
  - cbn. unfold group_len. case_decide; cbn; lia.
Qed.

(** [shared.lock().unwrap().claim(..)]: the owner's claim on its batch handle. *)
Definition claim_fast (h : nat) (max_files : nat) (max_bytes : Z) (s : Sched)
  : option (option (nat * nat) * Sched) :=
  fb ← fast_heap s !! h;
  '(o, fb) ← batch_claim fb max_files max_bytes;
  Some (o, with_fast_heap (<[h := fb]> (fast_heap s)) s).

Lemma pinv_shrink p fp fg fh nref n h fb fb' : PInv p fp fg fh nref n -> fh !! h = Some fb ->
  batch_ok n fb' ->
  (sum_list (group_len <$> fb_groups fb') <= sum_list (group_len <$> fb_groups fb))%nat ->
  PInv p fp fg (<[h := fb']> fh) nref n.
Proof.
  intros P Hfb Hok Hle. split; [|apply P| | | |apply P].
  - intros k Hk. rewrite lookup_insert_is_Some'. right. by apply P.
  - intros k [x [[<- _]|[_ Hx]]%lookup_insert_Some]; apply (pi_fresh _ _ _ _ _ _ P); eauto.
  - intros k x [[_ <-]|[_ Hx]]%lookup_insert_Some; [done|]. by eapply P.
  - pose proof (pi_unread _ _ _ _ _ _ P). destruct (decide (h ∈ fg)) as [Hin|Hin].
    + pose proof (unread_update fg fh h fb fb' (pi_nodup _ _ _ _ _ _ P) Hin Hfb). lia.
    + by rewrite unread_other.
Qed.

Lemma claim_fast_spec s b h fb mf mb : Inv s b -> fast_heap s !! h = Some fb ->
  exists o s', claim_fast h mf mb s = Some (o, s') /\ keeps s b s'.
Proof.
  intros I Hfb. unfold claim_fast. rewrite Hfb. cbn [mbind option_bind].
  destruct (batch_claim_spec _ _ mf mb (pi_batches _ _ _ _ _ _ (iv_fast _ _ I) _ _ Hfb))
    as (o & fb' & -> & Hok & _ & _ & Ho). cbn [mbind option_bind].
  eexists _, _. split; [done|]. apply keeps_live; [done|done| |done].
  split; cbn; [apply I|apply I| |apply I|apply I].
  eapply pinv_shrink; [apply I|done|done|].
  destruct o as [[a e]|]; [|destruct Ho as [_ ->]; done]. destruct Ho as (_ & _ & _ & _ & ?). lia.
Qed.

(** ** Ranges in flight *)
Lemma inv_with_range s b (heap' : gmap nat RangeState) : Inv s b ->
  RInv (ranges (inner s)) (inflight (inner s)) (outstanding (inner s)) heap' (next_ref s) b ->
  Inv (with_range_heap heap' s) b.
Proof. intros I R. split; cbn; [exact R|apply I..]. Qed.

(** An update of an existing handle cell allocates nothing. *)
Lemma rebase_update s s' b h r r' : range_heap s !! h = Some r -> Inv s b ->
  range_heap s' = <[h := r']> (range_heap s) -> rebase s s' b = b.
Proof.
  intros Hr I Hh. apply rebase_none. rewrite Hh, lookup_insert_ne; [by eapply heap_fresh|].
  intros ->. pose proof (heap_fresh s b I). congruence.
Qed.

Lemma update_range_split_spec s b h r sp : Inv s b -> range_heap s !! h = Some r ->
  0 < rs_block sp <= rs_minimum sp ->
  exists s', update_range_split h sp s = Some s' /\ keeps s b s'.
Proof.
  intros I Hr Hsp. unfold update_range_split. rewrite Hr. cbn [mbind option_bind].
  case_decide; [exists s; split; [done|]; by apply keeps_live|].
  rewrite (range_update_eq _ _ _ _ Hr). cbn [mbind option_bind]. eexists. split; [done|].
  do 2 apply keeps_signal.
  destruct (rinv_set_split _ _ _ _ _ _ (iv_ranges _ _ I) h r sp Hr Hsp) as [R HL].
  unfold keeps. erewrite rebase_update by done. split; [by apply inv_with_range|].
  intros k x. unfold live_of; cbn. by rewrite HL.
Qed.

Lemma claim_window_spec s b h r n : Inv s b -> range_heap s !! h = Some r -> h ∈ inflight (inner s) ->
  0 <= n ->
  exists p s', claim_window h n s = Some ((r_pos r, p), s') /\ keeps s b s' /\
    p = Z.min (r_end r) (r_pos r + n) /\ r_pos r <= p /\ live_of s' b = live_of s b /\
    s' = with_range_heap (<[h := set_pos p r]> (range_heap s)) s.
Proof.
  intros I Hr Hin Hn. destruct (flight_in s b h I Hin) as (r0 & q & Hr0 & _ & Hle). simplify_eq.
  unfold claim_window. rewrite Hr. cbn [mbind option_bind].
  rewrite (range_update_eq _ _ _ _ Hr). cbn [mbind option_bind]. eexists _, _. split; [done|].
  destruct (rinv_advance _ _ _ _ _ _ (iv_ranges _ _ I) h r (Z.min (r_end r) (r_pos r + n)) Hr
              ltac:(lia)) as [R HL].
  split_and!; [|done|lia|exact HL|done].
  unfold keeps. erewrite rebase_update by done. split; [by apply inv_with_range|].
  intros k x. unfold live_of; cbn. by rewrite HL.
Qed.

(** Queueing an interval that is not queued already. *)
Lemma push_range_spec s i o e : RangeQueue.wf (ranges (inner s)) -> o <= e ->
  (i, o, e) ∉ RangeQueue.rq_list (ranges (inner s)) ->
  panics (u64_max < RangeQueue.bytes (ranges (inner s)) + (e - o)) (push_range (i, o, e) s) \/
  exists rq, push_range (i, o, e) s = Some (on_inner (with_ranges rq) s) /\ RangeQueue.wf rq /\
    RangeQueue.rq_list rq ≡ₚ (i, o, e) :: RangeQueue.rq_list (ranges (inner s)).
Proof.
  intros W Hoe Hn. unfold push_range. cbn [RangeQueue.push].
  destruct (RangeQueue.extend_spec (ranges (inner s)) i [(o, e)] W) as [[-> Hov]|(rq & -> & W' & HP)].
  { apply NoDup_singleton. }
  { intros o' e' [= -> ->]%list_elem_of_singleton. done. }
  { left. split; [done|]. cbn in Hov. lia. }
  right. cbn [mbind option_bind]. eexists. split; [done|]. split; [done|]. exact HP.
Qed.

Lemma release_rest_spec s b h : Inv s b -> h ∈ inflight (inner s) ->
  panics (overfull s b) (release_rest h s) \/
  exists s', release_rest h s = Some s' /\ keeps s b s'.
Proof.
  intros I Hin. destruct (flight_in s b h I Hin) as (r & p & Hr & Hb & Hle).
  unfold release_rest. rewrite Hr. cbn [mbind option_bind].
  case_decide as Hc; [right; exists s; split; [done|]; by apply keeps_live|].
  rewrite (range_update_eq _ _ _ _ Hr). cbn [mbind option_bind].
  destruct (inc_outstanding_spec s b (r_idx r) I) as [[Hn HP]|(n & Hn & _)]; unfold inc_outstanding in *;
    cbn [inner with_range_heap] in *.
  { left. split; [|done]. by destruct (u32_add _ 1). }
  rewrite Hn. cbn [mbind option_bind]. set (s1 := on_inner _ _).
  destruct (push_range_spec s1 (r_idx r) (r_pos r) (r_end r))
    as [[-> Hov]|(rq & -> & W & HP)]; [apply (iv_ranges _ _ I)|lia| | |].
  { eapply (not_queued _ _ _ _ _ _ (iv_ranges _ _ I)); [done|done|]. rewrite Hb. cbn. lia. }
  { left. split; [done|]. apply (of_ranges s b h r p); [done..|]. cbn in Hov. lia. }
  right. cbn [mbind option_bind]. eexists. split; [done|]. apply keeps_signal.
  destruct (rinv_release _ _ _ _ _ _ (iv_ranges _ _ I) h r rq p n Hin Hr Hb ltac:(lia) Hn W HP) as [R HC].
  unfold keeps. erewrite rebase_update by done. split; [|exact HC].
  split; cbn; [exact R|apply I..].
Qed.

(** Queueing a handle's whole interval, from its base. *)
Lemma requeue_handle_spec s b h r p : Inv s b -> h ∈ inflight (inner s) -> range_heap s !! h = Some r ->
  b !! h = Some p -> p < r_end r ->
  panics (overfull s b) (push_range (r_idx r, p, r_end r) (drop_inflight h s)) \/
  exists s', push_range (r_idx r, p, r_end r) (drop_inflight h s) = Some s' /\ keeps s b s'.
Proof.
  intros I Hin Hr Hb Hlt.
  destruct (push_range_spec (drop_inflight h s) (r_idx r) p (r_end r))
    as [[-> Hov]|(rq & -> & W & HP)]; [apply (iv_ranges _ _ I)|lia| | |].
  { eapply (not_queued _ _ _ _ _ _ (iv_ranges _ _ I)); [done|done|]. rewrite Hb. cbn. lia. }
  { left. split; [done|]. by apply (of_ranges s b h r p). }
  right. eexists. split; [done|].
  destruct (rinv_requeue _ _ _ _ _ _ (iv_ranges _ _ I) h r rq p Hin Hr Hb Hlt W HP) as [R HL].
  apply keeps_live; [done|done| |exact HL]. split; cbn; [exact R|apply I..].
Qed.

(** What a worker may hand back before it issued a request. *)
Definition returnable (s : Sched) (b : gmap nat Z) (i : Item) : Prop :=
  match i with
  | IExit => True
  | IFile idx => (idx < Jobs.len (jobs s))%nat /\ (fast_probing (inner s) < probing (inner s))%nat
  | IRange h => h ∈ inflight (inner s) /\
      exists r, range_heap s !! h = Some r /\ b !! h = Some (r_pos r) /\ r_pos r < r_end r
  | IFinish _ _ => (0 < finishing (inner s))%nat
  end.

Lemma return_unstarted_spec s b i : Inv s b -> returnable s b i ->
  panics (overfull s b \/ exists idx, i = IFile idx /\ overfilled s idx) (return_unstarted i s) \/
  exists s', return_unstarted i s = Some s' /\ keeps s b s'.
Proof.
  intros I Hr. destruct i as [idx|h|idx m|]; cbn [return_unstarted].
  - destruct Hr as [Hi Hp]. destruct (requeue_probed_spec s b idx I Hi Hp) as [[Hn Hov]|?]; [left|by right].
    split; [exact Hn|eauto].
  - destruct Hr as (Hin & r & Hr & Hb & Hlt). rewrite Hr. cbn [mbind option_bind].
    destruct (requeue_handle_spec s b h r (r_pos r)) as [[-> Hov]|(s' & -> & K)];
      [done..|left; split; [done|by left]|].
    right. eexists. split; [done|]. by apply keeps_signal.
  - right. cbn in Hr. cbn. rewrite (proj2 (usize_sub_Some (finishing (inner s)) 1 (finishing (inner s) - 1))) by lia.
    cbn [mbind option_bind]. eexists. split; [done|]. ghost I.
  - right. exists s. split; [done|]. by apply keeps_live.
Qed.

(** ** Retiring and retrying *)
Lemma of_file_self i p e : of_file i (i, p, e) = true.
Proof. unfold of_file. by rewrite bool_decide_eq_true_2. Qed.

(** Taking one from the [outstanding] count of a file whose handle is retired. *)
Lemma take_outstanding s b (c : nat) (r : RangeState) :
  default 0 (outstanding (inner s) !! r_idx r) = as_u32 (S c) ->
  (c < countb (of_file (r_idx r)) (live_of s b))%nat ->
  let take_one := n ← outstanding (inner s) !! r_idx r; u64_sub n 1 in
  panics (overfull s b) take_one \/ take_one = Some (as_u32 c).
Proof.
  intros Hn Hc. cbv zeta. pose proof (as_u32_pred c) as H. rewrite <- Hn in H.
  assert (Hfull : u32_max <= Z.of_nat c -> overfull s b).
  { intros ?. apply (of_count s b (r_idx r)). lia. }
  destruct (outstanding (inner s) !! r_idx r) as [v|]; cbn [default from_option mbind option_bind] in *.
  - unfold id in H. destruct (u64_sub v 1) as [w|]; [right; by f_equal|left; split; [done|auto]].
  - left. split; [done|]. apply Hfull. exact H.
Qed.

Lemma range_done_spec s b h r p : Inv s b -> h ∈ inflight (inner s) -> range_heap s !! h = Some r ->
  b !! h = Some p ->
  panics (overfull s b) (range_done h s) \/
  exists done s', range_done h s = Some (done, s') /\ Inv s' b /\ range_heap s' = range_heap s /\
    live_of s b ≡ₚ (r_idx r, p, r_end r) :: live_of s' b /\
    inflight (inner s') = filter (fun x => x <> h) (inflight (inner s)) /\
    abort_flag (inner s') = abort_flag (inner s) /\ failed (inner s') = failed (inner s) /\
    (done = true <-> as_u32 (countb (of_file (r_idx r)) (live_of s' b)) = 0 /\
       abort_flag (inner s) = false /\ r_idx r ∉ failed (inner s)).
Proof.
  intros I Hin Hr Hb. unfold range_done. cbn. rewrite Hr. cbn [mbind option_bind].
  destruct (rinv_retire _ _ _ _ _ _ (iv_ranges _ _ I) h r p Hin Hr Hb) as (c & n & -> & Hn & Hcnt & R & HL).
  destruct (take_outstanding s b c r Hn) as [[Ht Hov]|Ht].
  { unfold live_of. rewrite HL, countb_cons, of_file_self. lia. }
  { left. split; [|done]. destruct (outstanding (inner s) !! r_idx r); cbn [mbind option_bind] in *; [by rewrite Ht|done]. }
  destruct (outstanding (inner s) !! r_idx r) as [v|]; cbn [mbind option_bind] in *; [|done]. rewrite Ht.
  right. cbn [mbind option_bind]. eexists _, _. split; [done|].
  split_and!; [|done|exact HL|done|done|done|].
  - split; cbn; [exact R|apply I..].
  - unfold live_of; cbn. rewrite <- Hcnt, !andb_true_iff, bool_decide_eq_true, !negb_true_iff.
    unfold is_failed; cbn. rewrite bool_decide_eq_false. naive_solver.
Qed.

Lemma retry_range_spec s b h r p : Inv s b -> h ∈ inflight (inner s) -> range_heap s !! h = Some r ->
  b !! h = Some p ->
  panics (overfull s b) (retry_range h p s) \/
  exists s', retry_range h p s = Some s' /\ keeps s b s'.
Proof.
  intros I Hin Hr Hb. destruct (flight_in s b h I Hin) as (r0 & p0 & Hr0 & Hb0 & Hle). simplify_eq.
  unfold retry_range. change (range_heap (drop_inflight h s) !! h) with (range_heap s !! h).
  rewrite Hr. cbn [mbind option_bind]. case_decide as Hlt.
  - destruct (requeue_handle_spec s b h r p) as [[-> Hov]|(s' & -> & K)]; [done..|by left|].
    right. cbn [mbind option_bind]. eexists. split; [done|]. by apply keeps_signal.
  - destruct (rinv_retire _ _ _ _ _ _ (iv_ranges _ _ I) h r p Hin Hr Hb) as (c & n & -> & Hn & Hcnt & R & HL).
    change (outstanding (inner (drop_inflight h s))) with (outstanding (inner s)).
    destruct (take_outstanding s b c r Hn) as [[Ht Hov]|Ht].
    { unfold live_of. rewrite HL, countb_cons, of_file_self. lia. }
    { left. split; [|done]. destruct (outstanding (inner s) !! r_idx r); cbn [mbind option_bind] in *; [by rewrite Ht|done]. }
    destruct (outstanding (inner s) !! r_idx r) as [v|]; cbn [mbind option_bind] in *; [|done]. rewrite Ht.
    right. cbn [mbind option_bind]. eexists. split; [done|]. apply keeps_signal.
    assert (Hfr : range_heap s !! next_ref s = None) by (by eapply heap_fresh).
    unfold keeps. rewrite rebase_none by (case_decide; exact Hfr). split.
    + split; [|case_decide; apply I..]. case_decide; exact R.
    + assert (Hcov : forall k x, countb (covers k x)
          (live (ranges (inner s)) (filter (fun x => x <> h) (inflight (inner s))) (range_heap s) b) =
          countb (covers k x) (live_of s b)); [|intros k x; rewrite <- Hcov; by case_decide].
      intros k x. unfold live_of. rewrite HL, countb_cons.
      destruct (covers k x (r_idx r, p, r_end r)) eqn:E; [|done]. apply covers_true in E. lia.
Qed.

(** ** Registering a probed file's ranges *)
Definition tag (idx : nat) (l : list (Z * Z)) : list range := (fun r => (idx, r.1, r.2)) <$> l.

(** Consecutive nonempty intervals from [a] to [e]. *)
Fixpoint chain (a : Z) (l : list (Z * Z)) (e : Z) : Prop :=
  match l with
  | [] => a = e
  | (o, m) :: l' => o = a /\ o < m /\ chain m l' e
  end.

Lemma chain_le l : forall a e, chain a l e -> a <= e.
Proof.
  induction l as [|[o m] l IH]; cbn; intros a e; [lia|]. intros (-> & Hlt & Hc%IH). lia.
Qed.

Lemma chain_nonempty l : forall a e r, chain a l e -> r ∈ l -> r.1 < r.2.
Proof.
  induction l as [|[o m] l IH]; cbn; intros a e r; [set_solver|].
  intros (-> & Hlt & Hc) [->|Hr]%elem_of_cons; [done|]. eauto.
Qed.

Lemma chain_sum l : forall a e, chain a l e -> sumZ ((fun r : Z * Z => r.2 - r.1) <$> l) = e - a.
Proof.
  induction l as [|[o m] l IH]; cbn [chain]; intros a e; [cbn; lia|].
  intros (-> & Hlt & Hc%IH). rewrite fmap_cons, sumZ_cons, Hc. cbn. lia.
Qed.

Lemma chain_covers idx x l : forall a e, chain a l e ->
  countb (covers idx x) (tag idx l) = (if decide (a <= x < e) then 1%nat else 0%nat).
Proof.
  induction l as [|[o m] l IH]; cbn [chain]; intros a e.
  - intros ->. by rewrite decide_False by lia.
  - intros (-> & Hlt & Hc). unfold tag. rewrite fmap_cons, countb_cons. fold (tag idx l).
    rewrite (IH m e Hc). pose proof (chain_le _ _ _ Hc). unfold covers, of_file. cbn.
    rewrite bool_decide_eq_true_2 by done. cbn. repeat case_decide; case_bool_decide; lia.
Qed.

Section SplitParts.
Context (blk blocks parts start end_ : Z).
Context (Hblk : 0 < blk) (Hparts : 0 < parts) (Hq : 0 < blocks / parts).
Context (Hend : start + blocks * blk <= end_).

Definition part_offset (i : Z) : Z :=
  start + (i * (blocks / parts) + Z.min i (blocks mod parts)) * blk.

Lemma split_parts_spec fuel : forall part, Z.of_nat fuel = parts - part -> 0 <= part ->
  let l := split_parts blk blocks parts end_ fuel part (part_offset part) in
  (part < parts -> chain (part_offset part) l end_) /\ length l = fuel /\
  forall r, r ∈ l -> blocks / parts * blk <= r.2 - r.1 /\ (r.1 - start) mod blk = 0.
Proof.
  pose proof (Z.div_mod blocks parts ltac:(lia)) as Hdm.
  pose proof (Z.mod_pos_bound blocks parts Hparts) as Hmod.
  set (q := blocks / parts) in *. set (m := blocks mod parts) in *.
  induction fuel as [|fuel IH]; intros part Hfuel Hpart; cbn [split_parts].
  { split; [lia|]. split; [done|set_solver]. }
  fold q m. set (limit := if decide (part + 1 = parts) then end_ else _).
  assert (Hmul : (part_offset part - start) mod blk = 0).
  { unfold part_offset. rewrite Z.add_simpl_l. apply Z.mod_mul. lia. }
  destruct (decide (part + 1 = parts)) as [Hlast|Hmore]; unfold limit.
  - assert (fuel = 0%nat) as -> by lia. cbn [split_parts chain length].
    assert (Hoff : part_offset part + q * blk <= end_).
    { unfold part_offset. fold q m. rewrite Z.min_r by lia. nia. }
    split; [intros _; split_and!; [done|nia|done]|]. split; [done|].
    intros r ->%list_elem_of_singleton. cbn. split; [lia|done].
  - assert (Hn : part_offset part + (q + (if decide (part < m) then 1 else 0)) * blk = part_offset (part + 1)).
    { unfold part_offset. fold q m. case_decide; [rewrite !Z.min_l by lia|rewrite !Z.min_r by lia]; nia. }
    rewrite Hn. destruct (IH (part + 1) ltac:(lia) ltac:(lia)) as (Hc & Hl & Hr).
    cbn [chain length]. split; [intros _; split_and!; [done| |apply Hc; lia]|].
    { rewrite <- Hn. case_decide; nia. }
    split; [by rewrite Hl|]. intros r [->|Hin]%elem_of_cons; [cbn|auto].
    split; [rewrite <- Hn; case_decide; nia|done].
Qed.
End SplitParts.

(** The initial split never panics and tiles the range exactly; when it does
    split, every part starts at a block of the range, has at least [min_split]
    bytes, and there are at most [workers] parts. *)
Lemma initial_split_spec s b workers rs : Inv s b -> (forall r, r ∈ rs -> r.1 < r.2) ->
  exists rs', initial_split s workers rs = Some rs' /\
    (rs' = rs \/ exists a e, rs = [(a, e)] /\ chain a rs' e /\ (1 < length rs' <= workers)%nat /\
       forall r, r ∈ rs' -> min_split s <= r.2 - r.1 /\ r.1 mod block s = 0).
Proof.
  intros I Hne. unfold initial_split. destruct rs as [|[a e] [|]]; [eauto| |eauto].
  destruct (_ && _) eqn:Ew; [|eauto]. apply andb_true_iff in Ew as [Hw%bool_decide_eq_true _].
  pose proof (iv_block _ _ I) as Hb. pose proof (iv_min _ _ I) as Hm.
  specialize (Hne (a, e) ltac:(set_solver)). cbn in Hne.
  rewrite decide_False by lia. case_decide as Hal; [|eauto].
  rewrite (proj2 (u64_sub_Some e a (e - a))) by lia. cbn [mbind option_bind].
  pose proof (div_ceil_spec (min_split s) (block s) Hb) as Hfl.
  set (floor := div_ceil (min_split s) (block s)) in *.
  assert (1 <= floor) by nia. rewrite decide_False by lia.
  set (blocks := (e - a) / block s). set (parts := Z.max _ 1). case_decide as Hp; [|eauto].
  pose proof (Z.mul_div_le (e - a) (block s) Hb) as Hbl. fold blocks in Hbl.
  assert (Hpf : parts * floor <= blocks).
  { pose proof (Z.mul_div_le blocks floor ltac:(lia)). unfold parts in *. nia. }
  assert (Hq : floor <= blocks / parts) by (apply Z.div_le_lower_bound; lia).
  pose proof (split_parts_spec (block s) blocks parts a e Hb ltac:(lia) ltac:(lia) ltac:(lia)
    (Z.to_nat parts) 0 ltac:(lia) ltac:(lia)) as (Hc & Hlen & Hr).
  assert (Ho : part_offset (block s) blocks parts a 0 = a).
  { unfold part_offset. rewrite Z.min_l; [lia|]. apply Z.mod_pos_bound. lia. }
  rewrite Ho in *. eexists. split; [done|]. right. exists a, e. split; [done|].
  split; [apply Hc; lia|]. rewrite Hlen. split; [unfold parts in *; lia|].
  intros r Hin. destruct (Hr r Hin) as [H1 H2]. split; [nia|].
  replace (r.1) with ((r.1 - a) + a) by lia. rewrite Z.add_mod, H2, Hal by lia. done.
Qed.

Lemma initial_split_covers s b workers rs rs' : Inv s b -> (forall r, r ∈ rs -> r.1 < r.2) ->
  initial_split s workers rs = Some rs' ->
  (forall r, r ∈ rs' -> r.1 < r.2) /\ (rs' = [] <-> rs = []) /\
  forall idx x, countb (covers idx x) (tag idx rs') = countb (covers idx x) (tag idx rs).
Proof.
  intros I Hne Hi. destruct (initial_split_spec s b workers rs I Hne) as (rs0 & H0 & Hrs). simplify_eq.
  destruct Hrs as [->|(a & e & -> & Hc & Hlen & _)]; [done|].
  split; [intros r; by apply chain_nonempty with a e|].
  split; [by destruct rs'; cbn in Hlen; [lia|]|].
  intros idx x. rewrite (chain_covers _ _ _ _ _ Hc). symmetry. apply (chain_covers idx x [(a, e)]).
  cbn. split_and!; [done|apply (Hne (a, e)); set_solver|done].
Qed.

Lemma disjoint_nodup idx (l : list (Z * Z)) : (forall r, r ∈ l -> r.1 < r.2) ->
  (forall x, countb (covers idx x) (tag idx l) <= 1)%nat -> NoDup l.
Proof.
  induction l as [|[o e] l IH]; intros Hne Hd; [apply NoDup_nil_2|].
  assert (Hd' : forall x, (countb (covers idx x) (tag idx l) <= 1)%nat).
  { intros x. specialize (Hd x). unfold tag in Hd. rewrite fmap_cons, countb_cons in Hd. unfold tag. lia. }
  apply NoDup_cons. split; [|apply IH; [set_solver|done]]. intros Hin. specialize (Hd o).
  unfold tag in Hd. rewrite fmap_cons, countb_cons in Hd. specialize (Hne (o, e) ltac:(set_solver)).
  assert (Hc : covers idx o (idx, o, e) = true) by (apply covers_true; cbn in Hne; lia).
  cbn [fst snd] in Hd. rewrite Hc in Hd. apply elem_of_Permutation in Hin as [l' HP].
  rewrite HP, fmap_cons, countb_cons in Hd. cbn [fst snd] in Hd. rewrite Hc in Hd. lia.
Qed.

(** The first range becomes a handle in flight, the others are queued. *)
Lemma register_ranges s b idx o e rest : Inv s b -> countb (of_file idx) (live_of s b) = 0%nat ->
  (forall r, r ∈ (o, e) :: rest -> r.1 < r.2) ->
  (forall x, countb (covers idx x) (tag idx ((o, e) :: rest)) <= 1)%nat ->
  let s1 := on_inner (fun g => with_outstanding (<[idx := as_u32 (length ((o, e) :: rest))]> (outstanding g)) g) s in
  let s2 := (claim_range idx o e s1).2 in
  panics (u64_max < RangeQueue.bytes (ranges (inner s)) + sumZ ((fun r => r.2 - r.1) <$> rest))
    (RangeQueue.extend (ranges (inner s)) idx rest) \/
  exists q, RangeQueue.extend (ranges (inner s)) idx rest = Some q /\
    let s3 := on_inner (with_ranges q) s2 in
    Inv s3 (<[next_ref s := o]> b) /\
    live_of s3 (<[next_ref s := o]> b) ≡ₚ tag idx ((o, e) :: rest) ++ live_of s b.
Proof.
  intros I Hnone Hne Hd s1 s2. pose proof (iv_ranges _ _ I) as RI.
  assert (Hnd : NoDup ((o, e) :: rest)) by by apply (disjoint_nodup idx).
  destruct (RangeQueue.extend_spec (ranges (inner s)) idx rest (ri_wf _ _ _ _ _ _ RI))
    as [Hov|(q & Hq & W & HP)].
  { by apply NoDup_cons in Hnd as [_ ?]. }
  { intros o' e' Hin. split; [specialize (Hne (o', e') ltac:(set_solver)); cbn in Hne; lia|].
    intros Hq. rewrite countb_zero in Hnone. specialize (Hnone (idx, o', e') ltac:(set_solver)).
    unfold of_file in Hnone; cbn in Hnone. by rewrite bool_decide_eq_true_2 in Hnone. }
  { by left. }
  right. exists q. split; [done|].
  destruct (rinv_register _ _ _ _ _ _ RI idx o e rest q Hnone W HP Hne Hd) as [R HL].
  split; [|exact HL]. split; cbn; [exact R|apply I| |apply I|apply I].
  eapply pinv_nref; [apply I|lia].
Qed.

Lemma covers_other idx k x l : k <> idx -> countb (covers k x) (tag idx l) = 0%nat.
Proof.
  intros Hk. apply countb_zero. intros r ([? ?] & -> & _)%list_elem_of_fmap. unfold covers, of_file. cbn.
  by rewrite bool_decide_eq_false_2.
Qed.

Lemma ranges_ready_spec s b idx rs : Inv s b -> (fast_probing (inner s) < probing (inner s))%nat ->
  (forall r, r ∈ rs -> r.1 < r.2) ->
  (forall x, countb (covers idx x) (tag idx rs) <= 1)%nat ->
  countb (of_file idx) (live_of s b) = 0%nat ->
  panics (u64_max < RangeQueue.bytes (ranges (inner s)) + sumZ ((fun r => r.2 - r.1) <$> rs))
    (ranges_ready idx rs s) \/
  exists o s', ranges_ready idx rs s = Some (o, s') /\ Inv s' (rebase s s' b) /\
    (forall k x, countb (covers k x) (live_of s' (rebase s s' b)) =
       countb (covers k x) (tag idx rs) + countb (covers k x) (live_of s b))%nat /\
    (o = None <-> rs = []) /\ abort_flag (inner s') = abort_flag (inner s) /\
    failed (inner s') = failed (inner s).
Proof.
  intros I Hp Hne Hd Hnone. unfold ranges_ready.
  destruct (dec_probing_spec s b 1 I) as (s1 & -> & Hs1 & I1 & HL1); [lia|]. cbn [mbind option_bind].
  set (s2 := with_initial_range_workers 0 s1).
  assert (I2 : Inv s2 b) by (split; apply I1).
  assert (HL2 : live_of s2 b = live_of s b) by exact HL1.
  assert (E : next_ref s2 = next_ref s /\ range_heap s2 = range_heap s /\
    abort_flag (inner s2) = abort_flag (inner s) /\ failed (inner s2) = failed (inner s) /\
    ranges (inner s2) = ranges (inner s)) by by subst.
  destruct (initial_split_spec s2 b (initial_range_workers s1) rs I2 Hne) as (rs' & Hsp & Hcase).
  assert (Hsum : sumZ ((fun r => r.2 - r.1) <$> rs') = sumZ ((fun r => r.2 - r.1) <$> rs)).
  { destruct Hcase as [->|(a & e & -> & Hc & _)]; [done|]. rewrite (chain_sum _ _ _ Hc). cbn. lia. }
  clear Hcase.
  destruct (initial_split_covers s2 b _ rs rs' I2 Hne Hsp) as (Hne' & Hnil & Hcov).
  clearbody s2. destruct E as (En & Eh & Ea & Ef & Er). rewrite Hsp. cbn [mbind option_bind].
  destruct rs' as [|[o e] rest]; cbn [tail].
  - right. rewrite decide_True by done. cbn. eexists _, _. split; [done|].
    rewrite rebase_none by (cbn; rewrite Eh; by eapply heap_fresh).
    destruct Hnil as [Hnil _]. rewrite (Hnil eq_refl) in *. split; [split; apply I2|].
    split; [|done]. intros k x. cbn. by rewrite <- HL2.
  - rewrite decide_False by done. rewrite <- HL2 in Hnone.
    destruct (register_ranges s2 b idx o e rest I2 Hnone Hne') as [[Hq Hov]|(q & Hq & I3 & HL3)].
    { intros x. by rewrite Hcov. }
    { left. cbn -[RangeQueue.extend]. rewrite Hq. split; [done|]. rewrite fmap_cons, sumZ_cons in Hsum.
      rewrite Er in Hov. specialize (Hne' (o, e) ltac:(set_solver)). cbn in Hne', Hsum. lia. }
    right. set (s3 := on_inner (with_ranges q) _) in I3, HL3.
    cbn -[RangeQueue.extend]. rewrite Hq. cbn [mbind option_bind].
    eexists _, _. split; [done|].
    match goal with |- Inv ?s' _ /\ _ => assert (rebase s s' b = <[next_ref s2 := o]> b) as -> end.
    { unfold rebase; cbn. by rewrite <- En, lookup_insert_eq. }
    split; [split; apply I3|]. split; [|split; [|done]]; last first.
    { split; [done|]. intros ->. destruct Hnil as [_ Hnil]. discriminate (Hnil eq_refl). }
    intros k x. rewrite <- HL2. match goal with |- countb _ ?l = _ => change l with (live_of s3 (<[next_ref s2 := o]> b)) end.
    rewrite HL3, countb_app. f_equal.
    destruct (decide (k = idx)) as [->|Hk]; [apply Hcov|by rewrite !covers_other].
Qed.

(** ** Claiming more work *)
Lemma range_work_spec s b idx max_size : Inv s b ->
  exists w s', range_work idx max_size s = Some (w, s') /\ keeps s b s' /\
    match w with
    | Cancelled => s' = s /\ (abort_flag (inner s) = true \/ idx ∈ failed (inner s))
    | RWReady None => s' = s
    | RWReady (Some h) => h = next_ref s /\ h ∈ inflight (inner s') /\
        exists r, range_heap s' !! h = Some r /\ r_idx r = idx /\
          exists size, max_size = Some size /\ r_end r - r_pos r <= size /\
            (waiting_workers (inner s) < RangeQueue.len (ranges (inner s)))%nat
    end.
Proof.
  intros I. assert (K : keeps s b s) by by apply keeps_live. unfold range_work.
  destruct (_ || _) eqn:E.
  { exists Cancelled, s. split; [done|]. split; [done|]. split; [done|].
    apply orb_true_iff in E as [E|E%bool_decide_eq_true]; auto. }
  clear E. destruct max_size as [size|]; [|exists (RWReady None), s; auto].
  case_decide; [|exists (RWReady None), s; auto]. case_decide as Hw; [exists (RWReady None), s; auto|].
  pose proof (RangeQueue.take_short_spec (ranges (inner s)) idx size
    (ri_wf _ _ _ _ _ _ (iv_ranges _ _ I))) as HT.
  destruct (RangeQueue.take_short (ranges (inner s)) idx size) as [[[[[i o] e]|] rq]|]; [| |done];
    cbn [mbind option_bind].
  - destruct HT as (W & HP & Hi & Hl). cbn in Hi. subst i.
    destruct (claim_taken s b rq idx o e I W HP) as [I' HC].
    exists (RWReady (Some (next_ref s))). eexists. split; [done|]. split; [split; [exact I'|exact HC]|]. split; [done|].
    split; [cbn; set_solver|]. exists (mkRange idx o e None). cbn. rewrite lookup_insert_eq.
    split_and!; [done..|]. exists size. split_and!; [done|exact Hl|lia].
  - destruct HT as [-> _]. rewrite with_ranges_id. exists (RWReady None), s. auto.
Qed.

Lemma take_small_near_spec s b first max_size max_n max_bytes : Inv s b ->
  (first < Jobs.len (jobs s))%nat -> 0 <= max_bytes ->
  exists out s', take_small_near first max_size max_n max_bytes s = Some (out, s') /\ keeps s b s' /\
    probing (inner s') = (probing (inner s) + length out)%nat /\
    (length out <= max_n)%nat /\ (forall i, i ∈ out -> (i < Jobs.len (jobs s))%nat) /\
    exists items, out = FileQueue.item_idx <$> items /\
      FileQueue.fq_list (files (inner s)) ≡ₚ items ++ FileQueue.fq_list (files (inner s')) /\
      sumZ (fst <$> items) <= max_bytes /\ (forall it, it ∈ items -> it.1 <= max_size).
Proof.
  intros I Hf Hb. unfold take_small_near.
  destruct (finv_take_small _ _ _ first max_size max_n max_bytes (iv_files _ _ I) Hf Hb)
    as (out & fq & items & -> & F & Ho & HP & Hn & Hs & Hm). cbn [mbind option_bind].
  eexists _, _. split; [done|]. split_and!; [|done|done| |by exists items].
  - apply keeps_live; [done|done| |done]. split; cbn; [apply I|exact F| |apply I|apply I].
    pose proof (iv_fast _ _ I) as []. split; auto. lia.
  - intros i. rewrite Ho. intros (it & -> & Hit)%list_elem_of_fmap.
    apply (fi_items _ _ _ (iv_files _ _ I)). rewrite HP. set_solver.
Qed.

(** ** [next] *)
Lemma next_poll_spec s b : Inv s b ->
  panics (overfull s b) (next_poll s) \/
  exists p s', next_poll s = Some (p, s') /\ keeps s b s' /\
    match p with
    | Wait => abort_flag (inner s) = false /\ finished s = false /\
        (scan_done_flag (inner s) || work_released (inner s) = true -> idle s) /\
        s' = on_inner (fun g => with_waiting_workers (S (waiting_workers g)) g) s
    | Ready IExit => abort_flag (inner s) = true \/ (finished s = true /\ idle s)
    | Ready i => abort_flag (inner s) = false /\ item_ok s' i
    end.
Proof.
  intros I. unfold next_poll. destruct (abort_flag (inner s)) eqn:Ea.
  { right. eexists _, _. split; [done|]. split; [apply keeps_signal; by apply keeps_live|auto]. }
  destruct (scan_done_flag (inner s) || work_released (inner s)) eqn:Er; cbn [mbind option_bind].
  - destruct (try_take_spec s b I) as [[-> Hov]|(o & s' & -> & I' & HC & Ho)]; [by left|].
    right. cbn [mbind option_bind].
    destruct o as [i|].
    + eexists _, _. split; [done|]. split; [done|]. destruct Ho as [Hi Hne]. by destruct i.
    + destruct Ho as [-> Hidle]. destruct (finished s) eqn:Ef.
      * eexists _, _. split; [done|]. split; [apply keeps_signal; by apply keeps_live|auto].
      * eexists _, _. split; [done|]. split; [ghost I|by split_and!].
  - right. destruct (finished s) eqn:Ef.
    + exfalso. unfold finished, inner_finished in Ef.
      apply orb_false_iff in Er as [Er _]. by rewrite Er in Ef.
    + eexists _, _. split; [done|]. split; [ghost I|by split_and!].
Qed.

(** A woken worker runs the loop again from the state without its own wait. *)
Lemma next_wake_spec s b : Inv s b -> (0 < waiting_workers (inner s))%nat ->
  panics (overfull s b) (next_wake s) \/
  exists p s', next_wake s = Some (p, s') /\ keeps s b s' /\
    exists s0, s0 = on_inner (with_waiting_workers (waiting_workers (inner s) - 1)) s /\
      next_poll s0 = Some (p, s') /\ Inv s0 b.
Proof.
  intros I Hw. unfold next_wake.
  rewrite (proj2 (usize_sub_Some (waiting_workers (inner s)) 1 (waiting_workers (inner s) - 1))) by lia.
  cbn [mbind option_bind]. set (s0 := on_inner _ s).
  assert (I0 : Inv s0 b) by (split; apply I).
  destruct (next_poll_spec s0 b I0) as [[Hn Hov]|(p & s' & Hp & K & _)].
  { left. split; [done|]. destruct Hov; [by eapply (of_count s b)|by apply (of_floor s b)|by eapply (of_end s b)|
      by eapply (of_ranges s b)|by eapply (of_files s b)]. }
  right. exists p, s'. split; [done|].
  split; [exact K|]. exists s0. done.
Qed.
