(* ===== verification/SchedRun.v ===== *)
(** * Runs of the scheduler

    [Op] lists every locked operation a planner, a tuner or a worker performs;
    [exec] runs one.  [allowed] is the protocol the callers follow
    (src/src/transfer/worker.rs).  A ghost state records, for the theorems only,
    the base of every handle, the ranges registered and retired so far, the
    requests workers claimed, and the handles that stand for a failure not yet
    recorded.  [reachable] closes the initial state under allowed steps. *)

From S2P Require Import Prelude Proto Jobs RangeQueue FileQueue Sched SchedRanges SchedInv SchedOps.
Local Open Scope Z_scope.

Inductive Op :=
| OPushFile (job : FileJob)
| OAnticipate | ORelease | OScanDone | OAbort
| ORequestWorkers (n : nat) | OArmFallback (n : nat) | OReserveInitial (n : nat)
| ORequestFallback | OTakeRequest
| OReceiverHolds (idx : nat) | OReceiverPublished (idx : nat) | OTakeHold (idx : nat)
| OFailFile (idx : nat)
| ORequeue (idx : nat) | ORequeueProbed (idx : nat)
| ORequeueFinish (idx : nat) (matched : bool) | OFinishDone
| OBeginFast (active max_n : nat) | OMarkFast (n : nat)
| OShareFast (bf : list (Z * nat)) (groups : list (nat * nat))
| OClaimFast (h max_files : nat) (max_bytes : Z) | OFinishFast (h : nat) | OCompleteFast (n : nat)
| OUpdateSplit (h : nat) (sp : RangeSplit) | OReleaseRest (h : nat) | OReturn (i : Item)
| ONext | OWake
| OTakeSmallNear (first : nat) (max_size : Z) (max_n : nat) (max_bytes : Z)
| ORangeWork (idx : nat) (max_size : option Z)
| ORangesReady (idx : nat) (rs : list (Z * Z))
| ORangeDone (h : nat) (holder : option nat)
| ORetryRange (h : nat) (start : Z)
| OClaimWindow (h : nat) (n : Z).

Definition exec (op : Op) (s : Sched) : option Sched :=
  match op with
  | OPushFile job => '(_, s) ← push_file job s; Some s
  | OAnticipate => Some (anticipate_file_work s)
  | ORelease => Some (release_preflighted_work s)
  | OScanDone => Some (scan_done s)
  | OAbort => Some (abort s)
  | ORequestWorkers n => Some (request_worker_count n s)
  | OArmFallback n => Some (arm_direct_fallback n s)
  | OReserveInitial n => Some (reserve_initial_ranges n s)
  | ORequestFallback => Some (request_direct_fallback s)
  | OTakeRequest => Some (take_worker_count_request s).2
  | OReceiverHolds idx => Some (receiver_holds idx s)
  | OReceiverPublished idx => Some (receiver_published idx s)
  | OTakeHold idx => Some (take_receiver_hold idx s).2
  | OFailFile idx => Some (fail_file idx s).2
  | ORequeue idx => requeue idx s
  | ORequeueProbed idx => requeue_probed idx s
  | ORequeueFinish idx m => Some (requeue_finish idx m s)
  | OFinishDone => finish_done s
  | OBeginFast active max_n => '(_, s) ← begin_fast_batch active max_n s; Some s
  | OMarkFast n => mark_fast n s
  | OShareFast bf groups => '(_, _, s) ← share_fast_groups bf groups s; Some s
  | OClaimFast h mf mb => '(_, s) ← claim_fast h mf mb s; Some s
  | OFinishFast h => '(_, s) ← finish_fast_groups h s; Some s
  | OCompleteFast n => complete_fast_batch n s
  | OUpdateSplit h sp => update_range_split h sp s
  | OReleaseRest h => release_rest h s
  | OReturn i => return_unstarted i s
  | ONext => '(_, s) ← next_poll s; Some s
  | OWake => '(_, s) ← next_wake s; Some s
  | OTakeSmallNear first ms mn mb => '(_, s) ← take_small_near first ms mn mb s; Some s
  | ORangeWork idx ms => '(_, s) ← range_work idx ms s; Some s
  | ORangesReady idx rs => '(_, s) ← ranges_ready idx rs s; Some s
  | ORangeDone h _ => '(_, s) ← range_done h s; Some s
  | ORetryRange h start => retry_range h start s
  | OClaimWindow h n => '(_, s) ← claim_window h n s; Some s
  end.

Record Ghost := mkGhost {
  base : gmap nat Z;
  registered : list range;
  retired : list range;
  requested : list range;
  owing : gset nat
}.

Definition ghost_new : Ghost := mkGhost ∅ [] [] [] ∅.

Definition ghost_after (op : Op) (s s' : Sched) (g : Ghost) : Ghost :=
  let b := rebase s s' (base g) in
  match op with
  | ORangesReady idx rs =>
      mkGhost b (tag idx rs ++ registered g) (retired g) (requested g) (owing g)
  | ORangeDone h holder =>
      mkGhost b (registered g) (flight (range_heap s) (base g) h :: retired g) (requested g)
        (match holder with Some h' => {[h']} ∪ owing g | None => owing g end)
  | OClaimWindow h n =>
      match range_heap s !! h with
      | Some r => mkGhost b (registered g) (retired g)
                    ((r_idx r, r_pos r, Z.min (r_end r) (r_pos r + n)) :: requested g) (owing g)
      | None => g
      end
  | _ => mkGhost b (registered g) (retired g) (requested g) (owing g)
  end.

(** A worker retires a handle when it has issued requests for all of it, or
    after the file failed or the copy was aborted.  The range pipeline also
    retires an extra handle after an error that its caller has yet to record:
    the primary handle of the same file stays in flight until then. *)
Definition may_retire (s : Sched) (g : Ghost) (h : nat) (holder : option nat) (r : RangeState) : Prop :=
  abort_flag (inner s) = true \/ r_idx r ∈ failed (inner s) \/
  match holder with
  | None => r_pos r = r_end r /\ h ∉ owing g
  | Some h' => h' <> h /\ h' ∈ inflight (inner s) /\
               exists r', range_heap s !! h' = Some r' /\ r_idx r' = r_idx r
  end.

Definition allowed (op : Op) (s : Sched) (g : Ghost) : Prop :=
  let i := inner s in
  match op with
  | OPushFile job => 0 <= e_size (j_entry (fj_data job)) /\ Z.of_nat (S (Jobs.len (jobs s))) < 2 ^ 64
  | ORequeue idx => (idx < Jobs.len (jobs s))%nat
  | ORequeueProbed idx => (idx < Jobs.len (jobs s) /\ fast_probing i < probing i)%nat
  | OFinishDone => (0 < finishing i)%nat
  | OBeginFast _ max_n => (fast_probing i < probing i /\ 1 <= max_n)%nat
  | OMarkFast n => (fast_probing i + n <= probing i)%nat
  | OShareFast bf groups =>
      groups <> [] /\ (forall f, f ∈ bf -> 0 <= f.1 /\ (f.2 < Jobs.len (jobs s))%nat) /\
      Forall (group_in (length bf)) (tail groups) /\
      (unread (fast_groups i) (fast_heap s) + sum_list ((fun x => x.2 - x.1)%nat <$> tail groups)
         <= fast_probing i)%nat
  | OClaimFast h _ _ | OFinishFast h => is_Some (fast_heap s !! h)
  | OCompleteFast n => (0 < n /\ 0 < fast_batches i /\
      unread (fast_groups i) (fast_heap s) + n <= fast_probing i)%nat
  | OUpdateSplit h sp => is_Some (range_heap s !! h) /\ 0 < rs_block sp <= rs_minimum sp
  | OReleaseRest h => h ∈ inflight i
  | OReturn it => returnable s (base g) it /\ (forall h, it = IRange h -> h ∉ owing g)
  | OWake => (0 < waiting_workers i)%nat
  | OTakeSmallNear first _ _ mb => (first < Jobs.len (jobs s))%nat /\ 0 <= mb
  | ORangesReady idx rs => (fast_probing i < probing i)%nat /\
      (forall r, r ∈ rs -> r.1 < r.2) /\ (forall x, countb (covers idx x) (tag idx rs) <= 1)%nat /\
      countb (of_file idx) (live_of s (base g)) = 0%nat
  | ORangeDone h holder => h ∈ inflight i /\
      exists r, range_heap s !! h = Some r /\ may_retire s g h holder r
  | ORetryRange h start => h ∈ inflight i /\ base g !! h = Some start /\ h ∉ owing g
  | OClaimWindow h n => h ∈ inflight i /\ 0 <= n
  | _ => True
  end.

Inductive step (op : Op) : Sched * Ghost -> Sched * Ghost -> Prop :=
| step_op s g s' : allowed op s g -> exec op s = Some s' ->
    step op (s, g) (s', ghost_after op s s' g).

Inductive reachable (blk ms : Z) : Sched -> Ghost -> Prop :=
| reach_new : reachable blk ms (new blk ms) ghost_new
| reach_step s g op s' g' : reachable blk ms s g -> step op (s, g) (s', g') -> reachable blk ms s' g'.

(** ** Every allowed operation that does not overflow runs and keeps the invariant *)

(** The operation overflows a machine integer: with the work in hand
    ([overfull]), or with the work it brings in. *)
Definition overflows (op : Op) (s : Sched) (g : Ghost) : Prop :=
  overfull s (base g) \/
  match op with
  | OPushFile job => u64_max < FileQueue.bytes (files (inner s)) + e_size (j_entry (fj_data job))
  | ORequeue idx | ORequeueProbed idx | OReturn (IFile idx) => overfilled s idx
  | OShareFast bf groups => heavy_group bf (tail groups)
  | ORangesReady _ rs =>
      u64_max < RangeQueue.bytes (ranges (inner s)) + sumZ ((fun r => r.2 - r.1) <$> rs)
  | _ => False
  end.

Lemma rebase_same_heap s b s' : Inv s b -> range_heap s' = range_heap s -> rebase s s' b = b.
Proof. intros I H. apply rebase_none. rewrite H. by eapply heap_fresh. Qed.

Ltac bind_step := cbn [exec mbind option_bind].

(** What one operation does to the coverage of the live intervals. *)
Definition step_cover (op : Op) (s : Sched) (g : Ghost) (s' : Sched) : Prop :=
  let b := base g in let b' := rebase s s' b in
  forall k x,
    match op with
    | ORangesReady idx rs => countb (covers k x) (live_of s' b') =
        (countb (covers k x) (tag idx rs) + countb (covers k x) (live_of s b))%nat
    | ORangeDone h _ => countb (covers k x) (live_of s b) =
        ((if covers k x (flight (range_heap s) b h) then 1 else 0) +
          countb (covers k x) (live_of s' b'))%nat
    | _ => countb (covers k x) (live_of s' b') = countb (covers k x) (live_of s b)
    end.

Ltac overflow Hov := left; split; [done|]; by first [left; exact Hov|right; exact Hov].

Lemma exec_ok op s g : Inv s (base g) -> allowed op s g ->
  panics (overflows op s g) (exec op s) \/
  exists s', exec op s = Some s' /\ Inv s' (rebase s s' (base g)) /\ step_cover op s g s'.
Proof.
  intros I A. set (b := base g) in *.
  assert (Hkeep : forall s', keeps s b s' -> Inv s' (rebase s s' b) /\
    forall k x, countb (covers k x) (live_of s' (rebase s s' b)) = countb (covers k x) (live_of s b))
    by (intros s' K; exact K).
  destruct op; cbn [exec allowed] in *; unfold step_cover; fold b;
    try (right; eexists; split; [reflexivity|]; apply Hkeep; ghost I; fail).
  - destruct A. destruct (push_file_spec s b job) as [[-> Hov]|(s' & -> & K & _)]; [done..|overflow Hov|].
    bind_step. eauto.
  - right. eexists. split; [done|]. apply Hkeep. unfold anticipate_file_work. case_match; ghost I.
  - right. eexists. split; [done|]. apply Hkeep. unfold scan_done, end_unneeded_worker_setups.
    case_match; ghost I.
  - right. eexists. split; [done|]. apply Hkeep. unfold request_direct_fallback. case_decide; ghost I.
  - destruct (requeue_spec s b idx) as [[-> Hov]|(s' & -> & K)]; [done..|overflow Hov|]. eauto.
  - destruct A. destruct (requeue_probed_spec s b idx) as [[-> Hov]|(s' & -> & K)]; [done..|overflow Hov|]. eauto.
  - destruct (finish_done_spec s b) as (s' & -> & K); [done..|]. eauto.
  - destruct A. destruct (begin_fast_batch_spec s b active max_n) as (n & s' & -> & K & _); [done..|].
    bind_step. eauto.
  - destruct (mark_fast_spec s b n) as (s' & -> & K); [done..|]. eauto.
  - destruct A as (Hne & Hf & Hg & Hu). destruct groups as [|first rest]; [done|].
    destruct (share_fast_groups_spec s b bf first rest) as [[-> Hov]|(s' & -> & K)]; [done..|overflow Hov|].
    bind_step. eauto.
  - destruct A as [fb Hfb]. destruct (claim_fast_spec s b h fb max_files max_bytes) as (o & s' & -> & K); [done..|].
    bind_step. eauto.
  - destruct A as [fb Hfb]. destruct (finish_fast_groups_spec s b h fb) as (s' & -> & K); [done..|].
    bind_step. eauto.
  - destruct A as (? & ? & ?). destruct (complete_fast_batch_spec s b n) as (s' & -> & K); [done..|]. eauto.
  - destruct A as [[r Hr] Hsp]. destruct (update_range_split_spec s b h r sp) as (s' & -> & K); [done..|]. eauto.
  - destruct (release_rest_spec s b h) as [[-> Hov]|(s' & -> & K)]; [done..|overflow Hov|]. eauto.
  - destruct A as [A _]. destruct (return_unstarted_spec s b i) as [[-> Hov]|(s' & -> & K)]; [done..| |eauto].
    left. split; [done|]. destruct Hov as [Hov|(idx & -> & Hov)]; [by left|by right].
  - destruct (next_poll_spec s b I) as [[-> Hov]|(p & s' & -> & K & _)]; [overflow Hov|]. bind_step. eauto.
  - destruct (next_wake_spec s b) as [[-> Hov]|(p & s' & -> & K & _)]; [done..|overflow Hov|]. bind_step. eauto.
  - destruct A. destruct (take_small_near_spec s b first max_size max_n max_bytes)
      as (out & s' & -> & K & _); [done..|]. bind_step. eauto.
  - destruct (range_work_spec s b idx max_size I) as (w & s' & -> & K & _). bind_step. eauto.
  - destruct A as (? & ? & ? & ?).
    destruct (ranges_ready_spec s b idx rs) as [[-> Hov]|(o & s' & -> & I' & HC & _)]; [done..|overflow Hov|].
    bind_step. eauto.
  - destruct A as (Hin & r & Hr & _). destruct (flight_in s b h I Hin) as (r0 & p & Hr0 & Hb & _). simplify_eq.
    destruct (range_done_spec s b h r p) as [[-> Hov]|(d & s' & -> & I' & Hh & HL & _)];
      [done..|overflow Hov|]. bind_step. right. exists s'. split; [done|]. rewrite rebase_same_heap by done. split; [done|].
    intros k x. rewrite HL, countb_cons. unfold flight. by rewrite Hr, Hb.
  - destruct A as (Hin & Hb & _). destruct (flight_in s b h I Hin) as (r & p & Hr & Hp & _).
    destruct (retry_range_spec s b h r start) as [[-> Hov]|(s' & -> & K)]; [done..|overflow Hov|]. eauto.
  - destruct A as [Hin Hn]. destruct (flight_in s b h I Hin) as (r & p & Hr & Hp & _).
    destruct (claim_window_spec s b h r n) as (q & s' & -> & K & _); [done..|]. bind_step. eauto.
Qed.

(** ** Requests cover what was retired *)

Definition requested_at (req : list range) (k : nat) (x : Z) : Prop :=
  exists r, r ∈ req /\ covers k x r = true.

(** How an operation changes handles: [dropped] leaves the in-flight list, the
    other handles keep their file; a handle in flight afterwards advanced only
    over bytes in [req], or is new and stands at its base. *)
Record frame (s s' : Sched) (b b' : gmap nat Z) (dropped : option nat) (req : list range) : Prop := {
  fr_old h r : h ∈ inflight (inner s) -> range_heap s !! h = Some r -> Some h <> dropped ->
    h ∈ inflight (inner s') /\ exists r', range_heap s' !! h = Some r' /\ r_idx r' = r_idx r;
  fr_new h r' : h ∈ inflight (inner s') -> range_heap s' !! h = Some r' ->
    (exists r, h ∈ inflight (inner s) /\ range_heap s !! h = Some r /\ r_idx r' = r_idx r /\
       b' !! h = b !! h /\ forall x, r_pos r <= x < r_pos r' -> requested_at req (r_idx r) x) \/
    b' !! h = Some (r_pos r');
  fr_failed : failed (inner s) ⊆ failed (inner s');
  fr_abort : abort_flag (inner s) = true -> abort_flag (inner s') = true
}.

(** The stops [failed] and [abort] are never withdrawn. *)
Definition stops_kept (s s' : Sched) : Prop :=
  failed (inner s) ⊆ failed (inner s') /\
  (abort_flag (inner s) = true -> abort_flag (inner s') = true).

Lemma frame_quiet s s' b : Inv s b -> range_heap s' = range_heap s ->
  inflight (inner s') = inflight (inner s) -> stops_kept s s' -> frame s s' b (rebase s s' b) None [].
Proof.
  intros I Hh Hf [H1 H2]. rewrite rebase_same_heap by done. split; rewrite ?Hh, ?Hf; try done.
  - eauto.
  - intros h r' Hin Hr. left. exists r'. split_and!; try done. lia.
Qed.

Lemma frame_drop s s' b h : Inv s b -> range_heap s' = range_heap s ->
  inflight (inner s') = filter (fun x => x <> h) (inflight (inner s)) -> stops_kept s s' ->
  frame s s' b (rebase s s' b) (Some h) [].
Proof.
  intros I Hh Hf [H1 H2]. rewrite rebase_same_heap by done. split; rewrite ?Hh, ?Hf; try done.
  - intros k r Hk Hr Hne. split; [|eauto]. apply list_elem_of_filter. split; [congruence|done].
  - intros k r' [_ Hin]%list_elem_of_filter Hr. left. exists r'. split_and!; try done. lia.
Qed.

(** A cell is rewritten; its file stays, its position advances over [req]. *)
Lemma frame_update s s' b h r r' req : Inv s b -> range_heap s !! h = Some r ->
  range_heap s' = <[h := r']> (range_heap s) -> r_idx r' = r_idx r ->
  (forall x, r_pos r <= x < r_pos r' -> requested_at req (r_idx r) x) ->
  inflight (inner s') = inflight (inner s) -> stops_kept s s' ->
  frame s s' b (rebase s s' b) None req.
Proof.
  intros I Hr Hh Hi Hreq Hf [H1 H2]. rewrite (rebase_update s s' b h r r') by done.
  split; rewrite ?Hf; try done.
  - intros k rk Hk Hrk _. split; [done|]. rewrite Hh. destruct (decide (k = h)) as [->|Hne].
    + rewrite lookup_insert_eq. simplify_eq. eauto.
    + rewrite lookup_insert_ne by done. eauto.
  - intros k rk Hk. rewrite Hh, lookup_insert_Some. intros [[<- <-]|[Hne Hrk]]; left.
    + exists r. by split_and!.
    + exists rk. split_and!; try done. lia.
Qed.

(** A new handle is allocated, possibly after rewriting the end of another. *)
Lemma frame_claim s s' b rn : Inv s b -> range_heap s' !! next_ref s = Some rn ->
  (forall h r, range_heap s !! h = Some r ->
     exists r', range_heap s' !! h = Some r' /\ r_idx r' = r_idx r /\ r_pos r' = r_pos r) ->
  inflight (inner s') = inflight (inner s) ++ [next_ref s] -> stops_kept s s' ->
  frame s s' b (rebase s s' b) None [].
Proof.
  intros I Hn Hold Hf [H1 H2].
  assert (Hb : rebase s s' b = <[next_ref s := r_pos rn]> b) by (unfold rebase; by rewrite Hn).
  rewrite Hb. split; rewrite ?Hf; try done.
  - intros k rk Hk Hrk _. split; [set_solver|]. destruct (Hold k rk Hrk) as (r' & ? & ? & _). eauto.
  - intros k rk Hk Hrk. destruct (decide (k = next_ref s)) as [->|Hne].
    + right. rewrite lookup_insert_eq. congruence.
    + left. apply elem_of_app in Hk as [Hk|?%list_elem_of_singleton]; [|done].
      destruct (flight_in s b k I Hk) as (r & p & Hr & _). destruct (Hold k r Hr) as (r' & Hr' & Hi & Hp).
      simplify_eq. exists r. rewrite lookup_insert_ne by done. split_and!; try done. rewrite Hp. lia.
Qed.

Lemma stops_refl s : stops_kept s s.
Proof. by split. Qed.

Lemma push_items_quiet l : forall s s', push_items l s = Some s' ->
  range_heap s' = range_heap s /\ inflight (inner s') = inflight (inner s) /\ stops_kept s s'.
Proof.
  induction l as [|[sz i] l IH]; cbn [push_items]; intros s s' H.
  { injection H as ->. auto using stops_refl. }
  unfold push_item in H. destruct (FileQueue.push _ _); cbn [mbind option_bind] in H; [|done].
  apply IH in H as (-> & -> & H). split; [done|]. split; [done|]. exact H.
Qed.

Lemma steal_fast_quiet hs : forall s o s', steal_fast_from hs s = Some (o, s') ->
  range_heap s' = range_heap s /\ inflight (inner s') = inflight (inner s) /\ stops_kept s s'.
Proof.
  induction hs as [|h hs IH]; intros s o s' H; cbn [steal_fast_from] in H.
  { injection H as <- ->. auto using stops_refl. }
  destruct (fast_heap s !! h); cbn [mbind option_bind] in H; [|done].
  destruct (reverse _) as [|grp kept]; [by eapply IH|].
  destruct (fill_false _ _ _); cbn [mbind option_bind] in H; [|done].
  destruct (slice _ _ _) as [fs|]; cbn [mbind option_bind] in H; [|done]. cbv zeta in H.
  destruct (usize_sub _ (length fs)); cbn [mbind option_bind] in H; [|done].
  destruct (usize_sub _ 1); cbn [mbind option_bind] in H; [|done].
  destruct (usize_sub _ _); cbn [mbind option_bind] in H; [|done].
  destruct fs as [|[sz i] fs]; [done|].
  destruct (push_items _ _) eqn:E; cbn [mbind option_bind] in H; [|done].
  apply push_items_quiet in E. injection H as <- <-. exact E.
Qed.

Lemma claim_range_frame s s0 b i o e : Inv s b -> next_ref s0 = next_ref s ->
  range_heap s0 = range_heap s -> inflight (inner s0) = inflight (inner s) -> stops_kept s s0 ->
  frame s (claim_range i o e s0).2 b (rebase s (claim_range i o e s0).2 b) None [].
Proof.
  intros I En Eh Ef Hs. eapply frame_claim; cbn; rewrite ?En, ?Eh, ?Ef; try done.
  - by rewrite lookup_insert_eq.
  - intros h r Hr. exists r. rewrite lookup_insert_ne; [done|].
    intros <-. pose proof (heap_fresh s b I). congruence.
Qed.

Lemma steal_frame s b h s' : Inv s b -> steal s = Some (Some h, s') ->
  frame s s' b (rebase s s' b) None [].
Proof.
  unfold steal. intros I H. pose proof (heap_fresh s b I) as Hfr.
  destruct (best_victim _ _ _ _) as [[[rem v]|]|]; cbn [mbind option_bind] in H; [|done..].
  destruct (range_heap s !! v) as [r|] eqn:Er; cbn [mbind option_bind] in H; [|done].
  destruct (u64_sub _ _); cbn [mbind option_bind] in H; [|done]. case_decide; [done|].
  destruct (checked_mul _ _); cbn [mbind option_bind] in H; [|done].
  destruct (_ || _); [done|]. rewrite (range_update_eq s v r) in H by done. cbn [mbind option_bind] in H.
  unfold inc_outstanding in H. destruct (u32_add _ 1); cbn -[range_update] in H; [|done].
  erewrite range_update_eq in H by (cbn; apply lookup_insert_eq). cbn in H. injection H as <- <-.
  eapply frame_claim; cbn; [done|by rewrite lookup_insert_eq| |done|by split].
  intros k rk Hk. rewrite !lookup_insert_ne by (intros <-; congruence).
  destruct (decide (k = v)) as [->|]; [rewrite lookup_insert_eq|rewrite lookup_insert_ne by done; eauto].
  simplify_eq. eauto.
Qed.

Lemma try_take_frame s b o s' : Inv s b -> try_take s = Some (o, s') ->
  frame s s' b (rebase s s' b) None [].
Proof.
  intros I H. unfold try_take in H.
  pose proof (RangeQueue.rq_pop_spec _ (ri_wf _ _ _ _ _ _ (iv_ranges _ _ I))) as HP.
  destruct (RangeQueue.pop _) as [[[[[i off] e]|] rq]|]; cbn [mbind option_bind] in H; [| |done].
  { injection H as <- <-. by apply (claim_range_frame s (on_inner (with_ranges rq) s) b i off e). }
  destruct HP as [-> _]. rewrite with_ranges_id in H.
  destruct (finishes _) as [|[idx m] rest]; [|injection H as <- <-; by apply frame_quiet].
  pose proof (finv_pop _ _ _ (iv_files _ _ I)) as HF.
  destruct (FileQueue.pop _) as [[[it|] fq]|]; cbn [mbind option_bind] in H; [| |done].
  { injection H as <- <-. by apply frame_quiet. }
  destruct HF as [-> _]. rewrite with_files_id in H.
  destruct (steal_spec s b I) as [[Hst _]|(o1 & s1 & Hst & _ & _ & Hnone)]; rewrite Hst in H; [done|]. cbn [mbind option_bind] in H. destruct o1 as [h|].
  { injection H as <- <-. by eapply steal_frame. }
  destruct (Hnone eq_refl) as [-> _]. unfold steal_fast_group in H.
  destruct (steal_fast_from _ s) as [[o2 s2]|] eqn:Ef; cbn [mbind option_bind] in H; [|done].
  apply steal_fast_quiet in Ef as (E1 & E2 & E3).
  destruct o2; injection H as <- <-; by apply frame_quiet.
Qed.

Lemma next_poll_frame s b p s' : Inv s b -> next_poll s = Some (p, s') ->
  frame s s' b (rebase s s' b) None [].
Proof.
  intros I H. unfold next_poll in H. destruct (abort_flag (inner s)) eqn:Ea.
  { injection H as <- <-. apply frame_quiet; [done..|]. split; [done|]. by rewrite Ea. }
  destruct (_ || _); cbn [mbind option_bind] in H.
  - destruct (try_take_spec s b I) as [[Ht _]|(o & s1 & Ht & _ & _ & Ho)]; rewrite Ht in H; [done|].
    cbn [mbind option_bind] in H. destruct o as [i|].
    + injection H as <- <-. by eapply try_take_frame.
    + destruct Ho as [-> _]. destruct (finished s); injection H as <- <-; by apply frame_quiet.
  - destruct (finished s); injection H as <- <-; by apply frame_quiet.
Qed.

Definition dropped (op : Op) : option nat :=
  match op with
  | OReturn (IRange h) | ORangeDone h _ | ORetryRange h _ => Some h
  | _ => None
  end.

Definition new_requests (op : Op) (s : Sched) : list range :=
  match op with
  | OClaimWindow h n =>
      match range_heap s !! h with
      | Some r => [(r_idx r, r_pos r, Z.min (r_end r) (r_pos r + n))]
      | None => []
      end
  | _ => []
  end.

(** Undo one bind of an equation [_ ≫= _ = Some _]. *)
Ltac unbind H :=
  repeat (cbv zeta in H; cbn [mbind option_bind] in H;
    match type of H with
    | (?x ≫= _) ≫= _ = Some _ => destruct x eqn:?; [|discriminate H]
    | ?x ≫= _ = Some _ => destruct x eqn:?; [|discriminate H]
    | (let '(_, _) := ?p in _) = Some _ => destruct p
    | (if ?c then _ else _) = Some _ => destruct c eqn:?
    | None = Some _ => discriminate H
    end); cbv zeta in H; cbn [mbind option_bind] in H; match type of H with
    | Some (_, _, _) = Some (_, _, _) => injection H as ? ? ?; subst
    | Some (_, _) = Some (_, _) => injection H as ? ?; subst
    | Some _ = Some _ => injection H as ?; subst
    | _ => idtac
    end.

(** The state an operation with a result leaves. *)
Ltac result_of H :=
  match type of H with
  | ?x ≫= _ = Some _ =>
      let E := fresh "E" in destruct x as [[]|] eqn:E; [|discriminate H];
      injection H as <-; rename E into H
  end.

Lemma exec_frame op s g s' : Inv s (base g) -> allowed op s g -> exec op s = Some s' ->
  frame s s' (base g) (rebase s s' (base g)) (dropped op) (new_requests op s).
Proof.
  intros I A H. set (b := base g) in *.
  assert (Q : forall s', range_heap s' = range_heap s -> inflight (inner s') = inflight (inner s) ->
    stops_kept s s' -> frame s s' b (rebase s s' b) None []) by (intros; by apply frame_quiet).
  destruct op; cbn [exec dropped new_requests allowed] in *;
    try (injection H as <-; apply Q; done).
  - result_of H. unfold push_file in H. unbind H. apply Q; repeat case_match; by try split.
  - injection H as <-. unfold anticipate_file_work. apply Q; case_match; by try split.
  - injection H as <-. unfold scan_done, end_unneeded_worker_setups. apply Q; case_match; by try split.
  - injection H as <-. unfold request_direct_fallback. apply Q; case_match; by try split.
  - injection H as <-. apply Q; [done..|]. split; [cbn; set_solver|done].
  - unfold requeue, push_item in H. unbind H. by apply Q.
  - unfold requeue_probed, push_item, dec_probing in H. unbind H. by apply Q.
  - unfold finish_done in H. unbind H. by apply Q.
  - result_of H. unfold begin_fast_batch in H. unbind H. by apply Q.
  - unfold mark_fast in H. unbind H. by apply Q.
  - destruct (share_fast_groups bf groups s) as [[[? ?] s1]|] eqn:E; [|done]. injection H as <-.
    unfold share_fast_groups in E. destruct groups as [|? rest]; [done|]. unbind E.
    apply Q; case_decide; by try split.
  - result_of H. unfold claim_fast in H. unbind H. by apply Q.
  - result_of H. unfold finish_fast_groups in H. unbind H. by apply Q.
  - unfold complete_fast_batch in H. unbind H. by apply Q.
  - unfold update_range_split in H. destruct A as [[r Hr] _]. rewrite Hr in H. cbn [mbind option_bind] in H.
    case_decide; [injection H as <-; by apply Q|]. rewrite (range_update_eq _ _ _ _ Hr) in H. unbind H.
    eapply frame_update; [done|done|done|done| |done|by split]. cbn. lia.
  - unfold release_rest in H. destruct (flight_in s b h I A) as (r & p & Hr & _). rewrite Hr in H.
    cbn [mbind option_bind] in H. case_decide; [injection H as <-; by apply Q|].
    rewrite (range_update_eq _ _ _ _ Hr) in H. unfold inc_outstanding, push_range in H. unbind H.
    eapply frame_update; [done|done|done|done| |done|by split]. cbn. lia.
  - destruct i; cbn [return_unstarted] in H.
    + unfold push_item, dec_probing in H. unbind H. by apply Q.
    + unfold push_range in H. unbind H. by apply frame_drop.
    + unbind H. by apply Q.
    + injection H as <-. by apply Q.
  - result_of H. by eapply next_poll_frame.
  - destruct (next_wake_spec s b I A) as [[Hn _]|(p & s1 & Hn & _ & s0 & -> & Hp & I0)]; rewrite Hn in H; [done|].
    injection H as <-. by destruct (next_poll_frame _ b p s1 I0 Hp).
  - result_of H. unfold take_small_near in H. unbind H. by apply Q.
  - result_of H. unfold range_work in H. unbind H; try by apply Q.
    destruct max_size as [size|]; unbind H; try by apply Q.
    destruct o as [[[i off] e]|]; [|unbind H; by apply Q]. injection H as <- <-.
    by apply (claim_range_frame s (on_inner (with_ranges t) s) b i off e).
  - result_of H. unfold ranges_ready, dec_probing in H.
    destruct (usize_sub _ _) as [pr|]; cbn [mbind option_bind] in H; [|done].
    destruct (initial_split _ _ _) as [[|[off e] rest]|]; cbn [mbind option_bind] in H; [| |done].
    + rewrite decide_True in H by done. unbind H. by apply Q.
    + rewrite decide_False in H by done. set (s1 := on_inner _ (with_initial_range_workers _ _)) in H.
      cbn -[RangeQueue.extend s1] in H. destruct (RangeQueue.extend _ _ _); [|done]. injection H as <- <-.
      by destruct (claim_range_frame s s1 b idx off e).
  - result_of H. unfold range_done in H. unbind H. by apply frame_drop.
  - unfold retry_range, push_range in H. unbind H.
    + by apply frame_drop.
    + apply frame_drop; [done|done| |split]; cbn; by repeat case_decide.
  - result_of H. destruct A as [Hin Hn]. destruct (flight_in s b h I Hin) as (r & q & Hr & _).
    destruct (claim_window_spec s b h r n) as (q1 & s1 & Hc & _ & Hq1 & _ & _ & Hs1); [done..|].
    rewrite Hc in H. injection H as _ <-. rewrite Hr.
    apply (frame_update s s1 b h r (set_pos q1 r)); [done|done|by rewrite Hs1|done| |by rewrite Hs1|by rewrite Hs1].
    cbn. intros x Hx. eexists. split; [by left|]. apply covers_true. by subst.
Qed.

(** The invariant of a run. *)
Record RunInv (s : Sched) (g : Ghost) : Prop := {
  rn_inv : Inv s (base g);
  rn_cover k x : countb (covers k x) (registered g) =
    (countb (covers k x) (live_of s (base g)) + countb (covers k x) (retired g))%nat;
  rn_flight h r p : h ∈ inflight (inner s) -> range_heap s !! h = Some r -> base g !! h = Some p ->
    forall x, p <= x < r_pos r -> requested_at (requested g) (r_idx r) x;
  rn_retired k o e : (k, o, e) ∈ retired g -> abort_flag (inner s) = false -> k ∉ failed (inner s) ->
    (exists h r, h ∈ owing g /\ h ∈ inflight (inner s) /\ range_heap s !! h = Some r /\ r_idx r = k) \/
    forall x, o <= x < e -> requested_at (requested g) k x
}.

Lemma run_new blk ms : 0 < blk -> RunInv (new blk ms) ghost_new.
Proof. intros Hb. split; cbn; [by apply inv_new|done|set_solver|set_solver]. Qed.

Lemma requested_mono req req' k x : req ⊆ req' -> requested_at req k x -> requested_at req' k x.
Proof. intros Hs (r & Hr & Hc). exists r. auto. Qed.

Lemma ghost_after_base op s s' g : Inv s (base g) -> allowed op s g ->
  base (ghost_after op s s' g) = rebase s s' (base g).
Proof.
  intros I A. destruct op; try done. cbn. destruct A as [Hin _].
  destruct (flight_in s (base g) h I Hin) as (r & p & Hr & _). by rewrite Hr.
Qed.

Lemma ghost_after_requested op s s' g :
  requested (ghost_after op s s' g) = new_requests op s ++ requested g.
Proof. destruct op; try done. cbn. by destruct (range_heap s !! h). Qed.

Lemma ghost_after_owing op s s' g : owing g ⊆ owing (ghost_after op s s' g).
Proof. destruct op; try done; cbn; case_match; set_solver. Qed.

(** The byte accounting of one step. *)
Lemma run_cover op s g s' : RunInv s g -> step_cover op s g s' -> forall k x,
  (countb (covers k x) (registered (ghost_after op s s' g)) =
   countb (covers k x) (live_of s' (rebase s s' (base g))) +
   countb (covers k x) (retired (ghost_after op s s' g)))%nat.
Proof.
  intros R SC k x. pose proof (rn_cover _ _ R k x) as Hc. specialize (SC k x). cbn zeta in SC.
  destruct op; cbn [ghost_after registered retired] in *;
    try (rewrite SC; exact Hc).
  - rewrite countb_app. rewrite SC, Hc. lia.
  - rewrite countb_cons. lia.
  - destruct (range_heap s !! h); cbn; rewrite SC; exact Hc.
Qed.

(** What a handle in flight stands on was requested, before and after. *)
Lemma run_flight op s g s' : RunInv s g ->
  frame s s' (base g) (rebase s s' (base g)) (dropped op) (new_requests op s) ->
  forall h r p, h ∈ inflight (inner s') -> range_heap s' !! h = Some r ->
    rebase s s' (base g) !! h = Some p ->
    forall x, p <= x < r_pos r -> requested_at (new_requests op s ++ requested g) (r_idx r) x.
Proof.
  intros R F h r p Hin Hr Hp x Hx.
  destruct (fr_new _ _ _ _ _ _ F h r Hin Hr) as [(r0 & Hin0 & Hr0 & Hi & Hb & Hreq)|Hb];
    [|rewrite Hb in Hp; injection Hp as <-; lia].
  rewrite Hb in Hp. rewrite Hi. destruct (decide (x < r_pos r0)) as [Hlt|Hge].
  - eapply requested_mono; [|apply (rn_flight _ _ R h r0 p Hin0 Hr0 Hp); lia]. set_solver.
  - eapply requested_mono; [|apply Hreq; lia]. set_solver.
Qed.

(** Retired ranges stay requested, or a handle in flight owes their failure. *)
Lemma run_retired_old op s g s' k o e : RunInv s g -> allowed op s g ->
  frame s s' (base g) (rebase s s' (base g)) (dropped op) (new_requests op s) ->
  (k, o, e) ∈ retired g -> abort_flag (inner s') = false -> k ∉ failed (inner s') ->
  (exists h r, h ∈ owing (ghost_after op s s' g) /\ h ∈ inflight (inner s') /\
     range_heap s' !! h = Some r /\ r_idx r = k) \/
  forall x, o <= x < e -> requested_at (new_requests op s ++ requested g) k x.
Proof.
  intros R A F Hin Ha Hf.
  assert (Ha0 : abort_flag (inner s) = false).
  { destruct (abort_flag (inner s)) eqn:E; [|done]. by rewrite (fr_abort _ _ _ _ _ _ F E) in Ha. }
  assert (Hf0 : k ∉ failed (inner s)) by (intros ?; apply Hf, (fr_failed _ _ _ _ _ _ F); done).
  destruct (rn_retired _ _ R k o e Hin Ha0 Hf0) as [(h & r & Ho & Hh & Hr & Hk)|Hreq]; last first.
  { right. intros x Hx. eapply requested_mono; [|by apply Hreq]. set_solver. }
  left. destruct (decide (Some h = dropped op)) as [Hd|Hd].
  - destruct op; try done; cbn in Hd.
    + destruct i; try done. injection Hd as ->. by destruct A as [_ A]; destruct (A handle eq_refl).
    + injection Hd as ->. destruct A as (_ & r0 & Hr0 & Hmay). simplify_eq.
      destruct Hmay as [?|[?|Hmay]]; [congruence|done|]. destruct holder as [h'|]; [|by destruct Hmay].
      destruct Hmay as (Hne & Hin' & r' & Hr' & Hi').
      destruct (fr_old _ _ _ _ _ _ F h' r' Hin' Hr') as (? & r2 & ? & ?); [cbn; congruence|].
      exists h', r2. split_and!; [cbn; set_solver|done|done|congruence].
    + injection Hd as ->. by destruct A as (_ & _ & ?).
  - destruct (fr_old _ _ _ _ _ _ F h r Hh Hr Hd) as (? & r2 & ? & ?).
    exists h, r2. split_and!; [by apply ghost_after_owing|done|done|congruence].
Qed.

(** The newly retired range is accounted for. *)
Lemma run_retired_new s g s' h holder r p : RunInv s g -> h ∈ inflight (inner s) ->
  range_heap s !! h = Some r -> base g !! h = Some p -> may_retire s g h holder r ->
  frame s s' (base g) (rebase s s' (base g)) (Some h) [] ->
  abort_flag (inner s') = false -> r_idx r ∉ failed (inner s') ->
  (exists h0 r0, h0 ∈ owing (ghost_after (ORangeDone h holder) s s' g) /\
     h0 ∈ inflight (inner s') /\ range_heap s' !! h0 = Some r0 /\ r_idx r0 = r_idx r) \/
  forall x, p <= x < r_end r -> requested_at (requested g) (r_idx r) x.
Proof.
  intros R Hin Hr Hp Hmay F Ha Hf. destruct Hmay as [Hab|[Hfl|Hmay]].
  - by rewrite (fr_abort _ _ _ _ _ _ F Hab) in Ha.
  - destruct Hf. by apply (fr_failed _ _ _ _ _ _ F).
  - destruct holder as [h'|].
    + left. destruct Hmay as (Hne & Hin' & r' & Hr' & Hi').
      destruct (fr_old _ _ _ _ _ _ F h' r' Hin' Hr') as (? & r2 & ? & ?); [congruence|].
      exists h', r2. split_and!; [cbn; set_solver|done|done|congruence].
    + right. destruct Hmay as [He _]. rewrite <- He. by apply (rn_flight _ _ R h).
Qed.

Lemma run_step op s g s' : RunInv s g -> allowed op s g -> exec op s = Some s' ->
  RunInv s' (ghost_after op s s' g).
Proof.
  intros R A E. pose proof (rn_inv _ _ R) as I.
  destruct (exec_ok op s g I A) as [[E1 _]|(s1 & E1 & I' & SC)]; simplify_eq.
  pose proof (exec_frame op s g s' I A E) as F.
  split; rewrite ?ghost_after_base, ?ghost_after_requested by done.
  - done.
  - by apply run_cover.
  - by apply (run_flight op s g s').
  - intros k o e Hin Ha Hf.
    assert (Hret : (k, o, e) ∈ retired g \/ exists h holder, op = ORangeDone h holder /\
              (k, o, e) = flight (range_heap s) (base g) h).
    { destruct op; cbn in Hin; auto.
      - apply elem_of_cons in Hin as [?|?]; [right; eauto|auto].
      - destruct (range_heap s !! h); auto. }
    destruct Hret as [?|(h & holder & -> & Heq)]; [by eapply run_retired_old|].
    destruct A as (Hfl & r & Hr & Hmay). destruct (flight_in s _ h I Hfl) as (r0 & p & Hr0 & Hp & _).
    simplify_eq. unfold flight in Heq. rewrite Hr, Hp in Heq. injection Heq as -> -> ->.
    by eapply (run_retired_new s g s' h holder r p).
Qed.

Lemma reachable_inv blk ms s g : 0 < blk -> reachable blk ms s g -> RunInv s g.
Proof.
  intros Hb. induction 1 as [|s g op s' g' _ IH Hs]; [by apply run_new|].
  inversion Hs; subst. by apply run_step.
Qed.
