(* ===== verification/SchedWake.v ===== *)
(** * Waiting and waking

    When [next] puts its caller to sleep, and that no operation makes work
    available to a sleeping worker without signalling the condition variable. *)

From S2P Require Import Prelude Proto Jobs RangeQueue FileQueue Sched SchedRanges SchedInv SchedOps SchedRun.
Local Open Scope Z_scope.

Definition released (s : Sched) : bool := scan_done_flag (inner s) || work_released (inner s).

(** The states in which [next] sleeps. *)
Definition waits (s : Sched) : Prop :=
  abort_flag (inner s) = false /\ finished s = false /\ (released s = true -> idle s).

Lemma steal_idle s b : Inv s b -> idle s ->
  panics (wide_floor (min_split s) (range_heap s) (inflight (inner s))) (steal s) \/
  steal s = Some (None, s).
Proof.
  intros I (_ & _ & _ & Hu & _). unfold steal.
  destruct (best_victim_spec (min_split s) (range_heap s) (inflight (inner s)) None)
    as [[-> Hw]|(best & -> & Hbest)]; [|by left|right].
  { intros h Hh. destruct (flight_in s b h I Hh) as (r & p & Hr & _). eauto. }
  cbn [mbind option_bind]. destruct Hbest as [[-> _]|(h & r & _ & Hin & Hr & Hn)]; [done|].
  by destruct (Hn (Hu h r Hin Hr)).
Qed.

Lemma steal_fast_idle s hs :
  (forall h, h ∈ hs -> exists fb, fast_heap s !! h = Some fb /\ fb_groups fb = []) ->
  steal_fast_from hs s = Some (None, s).
Proof.
  induction hs as [|h hs IH]; intros Hall; cbn [steal_fast_from]; [done|].
  destruct (Hall h ltac:(set_solver)) as (fb & -> & Hg). cbn [mbind option_bind]. rewrite Hg. cbn.
  apply IH. set_solver.
Qed.

Lemma try_take_idle s b : Inv s b -> idle s ->
  panics (wide_floor (min_split s) (range_heap s) (inflight (inner s))) (try_take s) \/
  try_take s = Some (None, s).
Proof.
  intros I Hidle. pose proof Hidle as (Hr & Hf & Hq & _ & Hg). unfold try_take.
  pose proof (RangeQueue.rq_pop_spec _ (ri_wf _ _ _ _ _ _ (iv_ranges _ _ I))) as HP.
  destruct (RangeQueue.pop _) as [[[r|] rq]|]; [| |done]; cbn [mbind option_bind].
  { destruct HP as (_ & HP & _). rewrite Hr in HP. by apply Permutation_nil_cons in HP. }
  destruct HP as [-> _]. rewrite with_ranges_id, Hf.
  pose proof (finv_pop _ _ _ (iv_files _ _ I)) as HF.
  destruct (FileQueue.pop _) as [[[it|] fq]|]; [| |done]; cbn [mbind option_bind].
  { destruct HF as (_ & HF & _). rewrite Hq in HF. by apply Permutation_nil_cons in HF. }
  destruct HF as [-> _]. rewrite with_files_id.
  destruct (steal_idle s b I Hidle) as [[-> Hw]| ->]; [by left|right]. cbn [mbind option_bind].
  unfold steal_fast_group. by rewrite steal_fast_idle.
Qed.

Lemma wait_waits s b s' : Inv s b -> next_poll s = Some (Wait, s') -> waits s.
Proof.
  intros I Hs'. destruct (next_poll_spec s b I) as [[Hn _]|(p & s1 & Hp & _ & H)]; simplify_eq.
  destruct H as (? & ? & ? & _). by split_and!.
Qed.

(** In such a state [next] hands out nothing. *)
Lemma waits_not_ready s b i s' : Inv s b -> waits s -> next_poll s <> Some (Ready i, s').
Proof.
  intros I (Ha & Hf & Hi). unfold next_poll. rewrite Ha. fold (released s).
  destruct (released s) eqn:E; cbn [mbind option_bind]; [|by rewrite Hf].
  destruct (try_take_idle s b I (Hi eq_refl)) as [[-> _]| ->]; [done|]. cbn [mbind option_bind]. by rewrite Hf.
Qed.

(** ** Operations that do not signal *)
Definition signalled (s s' : Sched) : Prop :=
  exists l, signals s' = signals s ++ l /\ (CvAll ∈ l \/ CvOne ∈ l).

Lemma waits_keep s s' : abort_flag (inner s') = abort_flag (inner s) ->
  scan_done_flag (inner s') = scan_done_flag (inner s) ->
  work_released (inner s') = work_released (inner s) ->
  (idle s -> idle s' /\ finished s' = finished s) -> waits s -> waits s'.
Proof.
  intros Ea Es Ew Hi (Ha & Hf & Hid).
  assert (Er : released s' = released s) by (unfold released; by rewrite Es, Ew).
  split_and!; [by rewrite Ea| |rewrite Er; intros H; by apply Hi, Hid].
  destruct (released s) eqn:E; [by destruct (Hi (Hid eq_refl)) as [_ ->]|].
  unfold finished, inner_finished. rewrite Es. unfold released in E.
  apply orb_false_iff in E as [-> _]. done.
Qed.

(** Nothing that [next] reads changed. *)
Lemma waits_same s s' : abort_flag (inner s') = abort_flag (inner s) ->
  scan_done_flag (inner s') = scan_done_flag (inner s) ->
  work_released (inner s') = work_released (inner s) ->
  ranges (inner s') = ranges (inner s) -> finishes (inner s') = finishes (inner s) ->
  files (inner s') = files (inner s) -> inflight (inner s') = inflight (inner s) ->
  range_heap s' = range_heap s -> min_split s' = min_split s ->
  probing (inner s') = probing (inner s) -> finishing (inner s') = finishing (inner s) ->
  (forall h, h ∈ fast_groups (inner s') -> h ∈ fast_groups (inner s) /\
     forall fb, fast_heap s !! h = Some fb -> fb_groups fb = [] ->
       exists fb', fast_heap s' !! h = Some fb' /\ fb_groups fb' = []) ->
  waits s -> waits s'.
Proof.
  intros Ea Es Ew Er Ef Eq Ei Eh Em Ep En Hg. apply waits_keep; [done..|].
  intros (H1 & H2 & H3 & H4 & H5). split.
  - unfold idle. rewrite Er, Ef, Eq, Ei, Eh, Em. split_and!; [done..|].
    intros h [Hh Hfb]%Hg. destruct (H5 h Hh) as (fb & Hf0 & Hn). by apply (Hfb fb).
  - unfold finished, inner_finished. by rewrite Es, Ep, En, Ei, Eq, Er, Ef.
Qed.

Lemma groups_same s s' : fast_groups (inner s') = fast_groups (inner s) -> fast_heap s' = fast_heap s ->
  forall h, h ∈ fast_groups (inner s') -> h ∈ fast_groups (inner s) /\
     forall fb, fast_heap s !! h = Some fb -> fb_groups fb = [] ->
       exists fb', fast_heap s' !! h = Some fb' /\ fb_groups fb' = [].
Proof. intros -> -> h Hh. eauto. Qed.

Ltac same := apply waits_same; try done; apply groups_same; done.
Ltac sends := left; eexists; split; [cbn; rewrite <- ?app_assoc; reflexivity|set_solver].

Lemma claim_fast_waits s b h mf mb o s' : Inv s b -> claim_fast h mf mb s = Some (o, s') ->
  waits s -> waits s'.
Proof.
  intros I H. unfold claim_fast in H.
  destruct (fast_heap s !! h) as [fb|] eqn:Hfb; cbn [mbind option_bind] in H; [|done].
  destruct (batch_claim_spec _ _ mf mb (pi_batches _ _ _ _ _ _ (iv_fast _ _ I) _ _ Hfb))
    as (o1 & fb1 & Hc & _ & _ & _ & Ho). rewrite Hc in H. cbn [mbind option_bind] in H.
  injection H as <- <-. apply waits_same; try done. intros k Hk. split; [done|].
  intros fb0 Hfb0 Hn. cbn. destruct (decide (k = h)) as [->|Hne].
  - rewrite lookup_insert_eq. exists fb1. split; [done|]. simplify_eq.
    destruct o1 as [[a e]|]; [|by destruct Ho as [_ ->]].
    destruct Ho as ((gr & rest & Hgr & _) & _). by rewrite Hn in Hgr.
  - rewrite lookup_insert_ne by done. eauto.
Qed.

Lemma finish_fast_waits s h o s' : finish_fast_groups h s = Some (o, s') -> waits s -> waits s'.
Proof.
  intros H. unfold finish_fast_groups in H. destruct (fast_heap s !! h); [|done].
  injection H as <- <-. apply waits_same; try done. intros k [_ Hk]%list_elem_of_filter. cbn. eauto.
Qed.

Lemma share_fast_waits s b bf groups o h s' : Inv s b -> share_fast_groups bf groups s = Some (o, h, s') ->
  signalled s s' \/ (waits s -> waits s').
Proof.
  intros I H. unfold share_fast_groups in H. destruct groups as [|first rest]; [done|].
  destruct (mapM _ rest) as [gs|]; cbn [mbind option_bind] in H; [|done]. injection H as <- <- <-.
  case_decide; [right|sends]. apply waits_same; try done. intros k Hk. split; [done|].
  intros fb Hfb Hn. cbn. rewrite lookup_insert_ne; [eauto|].
  intros <-. pose proof (pi_fresh _ _ _ _ _ _ (iv_fast _ _ I) (next_ref s) ltac:(eauto)). lia.
Qed.

Lemma take_small_waits s b first ms mn mb o s' : Inv s b -> (first < Jobs.len (jobs s))%nat -> 0 <= mb ->
  take_small_near first ms mn mb s = Some (o, s') -> waits s -> waits s'.
Proof.
  intros I Hf Hb H. destruct (take_small_near_spec s b first ms mn mb I Hf Hb)
    as (out & s1 & Ht & K & Hp & _ & _ & items & Ho & HP & _). rewrite H in Ht. injection Ht as <- <-.
  pose proof H as H'. unfold take_small_near in H'. unbind H'. cbn in Hp, HP.
  apply waits_keep; try done. intros (H1 & H2 & H3 & H4 & H5).
  rewrite H3 in HP. apply Permutation_nil_l in HP. symmetry in HP. apply app_nil in HP as [-> HP].
  split; [by split_and!|]. unfold finished, inner_finished; cbn. rewrite Nat.add_0_r.
  do 3 f_equal. destruct K as [I' _].
  pose proof (FileQueue.fq_is_empty_spec _ (fi_wf _ _ _ (iv_files _ _ I))) as Ee.
  pose proof (FileQueue.fq_is_empty_spec _ (fi_wf _ _ _ (iv_files _ _ I'))) as Ee'. cbn in Ee'.
  by rewrite (proj2 Ee H3), (proj2 Ee' HP).
Qed.

Lemma range_work_waits s b idx ms w s' : Inv s b -> range_work idx ms s = Some (w, s') ->
  waits s -> waits s'.
Proof.
  intros I H. destruct (range_work_spec s b idx ms I) as (w1 & s1 & Hw & _ & Hcase).
  rewrite H in Hw. injection Hw as <- <-. destruct w as [|[h|]].
  - by destruct Hcase as [-> _].
  - destruct Hcase as (_ & _ & r & _ & _ & size & -> & _ & Hlen).
    unfold range_work in H. destruct (_ || _); [done|]. destruct (decide (0 < size)); [|done].
    destruct (decide _); [done|].
    destruct (RangeQueue.take_short _ _ _) as [[[[[i off] e]|] rq]|]; [|done..]. injection H as <- <-.
    apply waits_keep; try done. intros (H1 & _). exfalso.
    rewrite (RangeQueue.wf_len _ (ri_wf _ _ _ _ _ _ (iv_ranges _ _ I))), H1 in Hlen. cbn in Hlen. lia.
  - by rewrite Hcase.
Qed.

Lemma claim_window_waits s b h n w s' : Inv s b -> h ∈ inflight (inner s) -> 0 <= n ->
  claim_window h n s = Some (w, s') -> waits s -> waits s'.
Proof.
  intros I Hin Hn H. destruct (flight_in s b h I Hin) as (r & p & Hr & _ & Hle).
  destruct (claim_window_spec s b h r n I Hr Hin Hn) as (q & s1 & Hc & _ & Hq & Hlt & _ & Hs1).
  rewrite H in Hc. injection Hc as _ <-. subst s'. apply waits_keep; try done.
  intros (H1 & H2 & H3 & H4 & H5). split; [|done]. split_and!; try done. intros k rk Hk. cbn.
  rewrite lookup_insert_Some. intros [[<- <-]|[_ Hrk]]; [|by apply (H4 k)].
  specialize (H4 h r Hk Hr). unfold unsplittable, split_floor, saturating_sub in *. cbn. lia.
Qed.

Lemma next_waits s b p s' : Inv s b -> next_poll s = Some (p, s') -> waits s -> waits s'.
Proof.
  intros I H Hw. destruct p as [i|]; [by destruct (waits_not_ready s b i s' I Hw)|].
  destruct (next_poll_spec s b I) as [[Hn _]|(p1 & s2 & Hp & _ & Hcase)]; [by rewrite H in Hn|].
  rewrite H in Hp. injection Hp as <- <-. destruct Hcase as (_ & _ & _ & ->). revert Hw. same.
Qed.

Lemma waits_unreleased s : abort_flag (inner s) = false -> released s = false -> waits s.
Proof.
  intros Ha Hr. split_and!; [done| |by rewrite Hr]. unfold finished, inner_finished. unfold released in Hr.
  by apply orb_false_iff in Hr as [-> _].
Qed.

Lemma wake_step op s g s' : Inv s (base g) -> allowed op s g -> exec op s = Some s' ->
  signalled s s' \/ (waits s -> waits s').
Proof.
  intros I A H. set (b := base g) in *.
  destruct op; cbn [exec allowed] in *;
    try (injection H as <-; right; same; fail);
    try (injection H as <-; sends; fail).
  - result_of H. unfold push_file in H. unbind H. case_match; [sends|]. case_match eqn:Er; [sends|].
    right. intros (Ha & _). by apply waits_unreleased.
  - injection H as <-. unfold anticipate_file_work. case_match; [sends|right; same].
  - injection H as <-. unfold scan_done, end_unneeded_worker_setups. case_match; sends.
  - injection H as <-. right. unfold request_direct_fallback. case_decide; same.
  - unfold requeue, push_item in H. unbind H. sends.
  - unfold requeue_probed, push_item, dec_probing in H. unbind H. sends.
  - unfold finish_done in H. unbind H. sends.
  - right. result_of H. unfold begin_fast_batch in H. unbind H. same.
  - right. unfold mark_fast in H. unbind H. same.
  - destruct (share_fast_groups bf groups s) as [[[? ?] s1]|] eqn:E; [|done]. injection H as <-.
    by eapply share_fast_waits.
  - right. result_of H. by eapply claim_fast_waits.
  - right. result_of H. by eapply finish_fast_waits.
  - unfold complete_fast_batch in H. unbind H. sends.
  - unfold update_range_split, range_update in H. unbind H; [auto|sends].
  - unfold release_rest, inc_outstanding, push_range, range_update in H. unbind H; [auto|sends].
  - destruct i; cbn [return_unstarted] in H; unfold push_item, dec_probing, push_range in H; unbind H;
      [sends|sends|sends|auto].
  - right. result_of H. by eapply next_waits.
  - right. destruct (next_wake_spec s b I A) as [[Hn _]|(p & s1 & Hn & _ & s0 & -> & Hp & I0)];
      rewrite Hn in H; [done|]. injection H as <-. intros Hw. eapply next_waits; [exact I0|exact Hp|]. revert Hw. same.
  - right. result_of H. destruct A. by eapply take_small_waits.
  - right. result_of H. by eapply range_work_waits.
  - result_of H. unfold ranges_ready, dec_probing in H.
    destruct (usize_sub _ _); cbn [mbind option_bind] in H; [|done].
    destruct (initial_split _ _ _) as [[|[off e] rest]|]; cbn [mbind option_bind] in H; [| |done];
      cbn -[RangeQueue.extend] in H; unbind H; sends.
  - result_of H. unfold range_done in H. unbind H. sends.
  - unfold retry_range, push_range in H. unbind H; sends.
  - right. result_of H. destruct A. by eapply claim_window_waits.
Qed.

(** A finished scheduler has nothing to hand out, not even an unread group. *)
Lemma no_unread_groups s b h fb : Inv s b -> probing (inner s) = 0%nat ->
  h ∈ fast_groups (inner s) -> fast_heap s !! h = Some fb -> fb_groups fb = [].
Proof.
  intros I Hp Hin Hfb. pose proof (inv_fast _ _ I) as Hu. rewrite Hp in Hu.
  assert (Hz : batch_unread (fast_heap s) h = 0%nat).
  { assert (Hun : unread (fast_groups (inner s)) (fast_heap s) = 0%nat) by lia. unfold unread in Hun.
    apply elem_of_Permutation in Hin as [l HP].
    rewrite (sum_list_perm _ _ (fmap_Permutation (batch_unread (fast_heap s)) _ _ HP)) in Hun.
    cbn in Hun. lia. }
  unfold batch_unread in Hz. rewrite Hfb in Hz.
  destruct (fb_groups fb) as [|x l] eqn:E; [done|]. cbn in Hz.
  pose proof (pi_batches _ _ _ _ _ _ (iv_fast _ _ I) h fb Hfb) as [_ Hg _].
  destruct (Hg x) as [Hx _]; [rewrite E; set_solver|]. unfold group_len in Hz. lia.
Qed.

Lemma finished_idle s b : Inv s b -> finished s = true -> idle s.
Proof.
  intros I Hf. unfold finished, inner_finished in Hf. rewrite !andb_true_iff in Hf.
  destruct Hf as ((((((_ & Hp) & _) & Hi) & Hq) & Hr) & Hfin).
  apply bool_decide_eq_true in Hp, Hi, Hfin.
  apply (FileQueue.fq_is_empty_spec _ (fi_wf _ _ _ (iv_files _ _ I))) in Hq.
  apply (RangeQueue.rq_is_empty_spec _ (ri_wf _ _ _ _ _ _ (iv_ranges _ _ I))) in Hr.
  split_and!; [done..|rewrite Hi; set_solver|]. intros h Hh.
  destruct (pi_groups _ _ _ _ _ _ (iv_fast _ _ I) h Hh) as [fb Hfb]. exists fb. split; [done|].
  by eapply no_unread_groups.
Qed.
