(* ===== verification/SchedProps.v ===== *)
(** * What the scheduler guarantees

    The properties of src/src/sched.rs as a whole, each with a concrete run
    that meets its hypotheses. *)

From S2P Require Import Prelude Proto Jobs RangeQueue FileQueue Sched SchedRanges SchedInv SchedOps SchedRun SchedWake.
Local Open Scope Z_scope.

(** ** Concrete runs *)
Fixpoint run_ops (ops : list Op) (s : Sched) (g : Ghost) : option (Sched * Ghost) :=
  match ops with
  | [] => Some (s, g)
  | op :: rest => s' ← exec op s; run_ops rest s' (ghost_after op s s' g)
  end.

Fixpoint all_allowed (ops : list Op) (s : Sched) (g : Ghost) : Prop :=
  match ops with
  | [] => True
  | op :: rest => allowed op s g /\
      match exec op s with
      | Some s' => all_allowed rest s' (ghost_after op s s' g)
      | None => False
      end
  end.

Lemma run_reachable blk ms ops : forall s g s' g', reachable blk ms s g -> all_allowed ops s g ->
  run_ops ops s g = Some (s', g') -> reachable blk ms s' g'.
Proof.
  induction ops as [|op ops IH]; cbn; intros s g s' g' R A H; [by simplify_eq|].
  destruct A as [A A']. destruct (exec op s) as [s1|] eqn:E; cbn in *; [|done].
  eapply IH; [|done|done]. eapply reach_step; [done|]. by constructor.
Qed.

Definition demo_job : FileJob :=
  mkJob (mkJobData false false false false false 0 [97] (mkRegistered 0 [97]) [98] [97]
           (mkEntry [97] File 64 0 0 420 1 1 0 9 11 1 0 0 None)
           Any false 0 0 false None [98] None ScUnknown) None.
(** One 64-byte file, probed, split between two workers that request all of it. *)
Definition demo_ops : list Op :=
  [OPushFile demo_job; OScanDone; ONext; ORangesReady 0 [(0, 64)]; ONext;
   OClaimWindow 0 100; OClaimWindow 1 100].

(** Evaluate the execution the goal branches on. *)
Ltac eval_exec :=
  match goal with |- match ?x with _ => _ end =>
    let y := eval vm_compute in x in
    let E := fresh in assert (E : x = y) by (vm_compute; reflexivity); rewrite E; clear E
  end.

Lemma demo_allowed : all_allowed demo_ops (new 4 8) ghost_new.
Proof.
  do 3 (split; [done|]; eval_exec).
  split.
  { split; [vm_compute; lia|]. split_and!.
    - intros r ->%list_elem_of_singleton. cbn. lia.
    - intros x. rewrite (chain_covers 0 x [(0, 64)] 0 64) by done. case_decide; lia.
    - by vm_compute. }
  eval_exec. split; [done|]; eval_exec.
  do 2 (split; [by vm_compute; repeat constructor|]; eval_exec). done.
Qed.

Definition demo_state : Sched * Ghost :=
  default (new 4 8, ghost_new) (run_ops demo_ops (new 4 8) ghost_new).

Lemma demo_reachable : reachable 4 8 demo_state.1 demo_state.2.
Proof.
  assert (E : run_ops demo_ops (new 4 8) ghost_new = Some demo_state) by (vm_compute; reflexivity).
  rewrite (surjective_pairing demo_state) in E.
  eapply run_reachable; [apply reach_new|apply demo_allowed|exact E].
Qed.

Lemma demo_handles :
  inflight (inner demo_state.1) = [0; 1]%nat /\ owing demo_state.2 = ∅ /\
  range_heap demo_state.1 !! 0%nat = Some (mkRange 0 32 32 None) /\
  range_heap demo_state.1 !! 1%nat = Some (mkRange 0 64 64 None).
Proof. split_and!; vm_compute; reflexivity. Qed.

Lemma demo_may_retire : allowed (ORangeDone 0 None) demo_state.1 demo_state.2.
Proof.
  destruct demo_handles as (Ei & Eo & E0 & _). revert Ei Eo E0. generalize demo_state.1 demo_state.2.
  intros s g Ei Eo E0. split; [rewrite Ei; set_solver|]. eexists. split; [exact E0|].
  right; right. rewrite Eo. done.
Qed.

(** ** Theorems *)

(** Whatever sequence of planner, tuner and worker operations led here, an
    operation its callers' protocol allows trips no [expect], [assert!] or index
    check and underflows no count of queued or outstanding work: it panics only
    when a total overflows its machine integer.  (That a caller hands back only
    probes, publications and waits it was counted for is part of the protocol,
    [allowed].) *)
Theorem panics_only_on_overflow (blk ms : Z) (s : Sched) (g : Ghost) (op : Op) :
  0 < blk -> reachable blk ms s g -> allowed op s g ->
  panics (overflows op s g) (exec op s) \/
  exists s', exec op s = Some s' /\ reachable blk ms s' (ghost_after op s s' g).
Proof.
  intros Hb R A. pose proof (rn_inv _ _ (reachable_inv _ _ _ _ Hb R)) as I.
  destruct (exec_ok op s g I A) as [?|(s' & E & _)]; [by left|]. right. exists s'. split; [done|].
  eapply reach_step; [done|]. by constructor.
Qed.

(** C8. Every byte a probe registered has exactly one fate: for every file and
    offset, the ranges registered so far cover it as often as the live ranges
    (queued, or in flight from the offset at which a worker claimed them) and
    the retired ranges together; and at no time do two live ranges overlap, so
    no two workers own the same byte. *)
Theorem bytes_owned_once (blk ms : Z) (s : Sched) (g : Ghost) (k : nat) (x : Z) :
  0 < blk -> reachable blk ms s g ->
  countb (covers k x) (registered g) =
    (countb (covers k x) (live_of s (base g)) + countb (covers k x) (retired g))%nat /\
  (countb (covers k x) (live_of s (base g)) <= 1)%nat.
Proof.
  intros Hb R. pose proof (reachable_inv _ _ _ _ Hb R) as RI. split.
  - apply RI.
  - apply (ri_disjoint _ _ _ _ _ _ (iv_ranges _ _ (rn_inv _ _ RI))).
Qed.

Lemma bytes_owned_once_witness :
  countb (covers 0 40) (registered demo_state.2) = 1%nat /\
  (countb (covers 0 40) (live_of demo_state.1 (base demo_state.2)) <= 1)%nat.
Proof.
  split; [vm_compute; reflexivity|].
  apply (bytes_owned_once 4 8 demo_state.1 demo_state.2 0 40); [lia|apply demo_reachable].
Defined.

(** C13. [range_done] elects the publisher of a file only when the file is
    complete: if it returns true for a file in fewer than 2^32 live pieces (the
    range of the [u32] that counts them), the copy was not aborted, the file has
    not failed, no range of it is queued or in flight any more, and every byte of
    every range registered for it was covered by a request some worker issued. *)
Theorem completion_after_every_request (blk ms : Z) (s s' : Sched) (g : Ghost) (h : nat)
    (holder : option nat) (r : RangeState) :
  0 < blk -> reachable blk ms s g -> allowed (ORangeDone h holder) s g ->
  range_heap s !! h = Some r ->
  Z.of_nat (countb (of_file (r_idx r)) (live_of s (base g))) < 2 ^ 32 ->
  range_done h s = Some (true, s') ->
  abort_flag (inner s) = false /\ r_idx r ∉ failed (inner s) /\
  countb (of_file (r_idx r)) (live_of s' (base g)) = 0%nat /\
  forall o e, (r_idx r, o, e) ∈ registered g ->
    forall x, o <= x < e -> requested_at (requested g) (r_idx r) x.
Proof.
  intros Hb R A Hr Hfew Hd. pose proof (reachable_inv _ _ _ _ Hb R) as RI. pose proof (rn_inv _ _ RI) as I.
  pose proof A as (Hin & _). destruct (flight_in s _ h I Hin) as (r0 & p & Hr0 & Hp & _). simplify_eq.
  destruct (range_done_spec s _ h r p I Hin Hr Hp)
    as [[Hd1 _]|(d & s1 & Hd1 & I1 & Hh & HL & Hf & Ea & Ef & Ht)]; rewrite Hd in Hd1; [done|].
  injection Hd1 as <- <-. destruct (proj1 Ht eq_refl) as (Hz & Ha & Hnf).
  rewrite HL, countb_cons, of_file_self in Hfew.
  rewrite as_u32_small in Hz by (unfold u32_max; lia). apply Nat2Z.inj_iff with (m := 0%nat) in Hz.
  split_and!; [done..|]. intros o e Hreg x Hx.
  assert (E : exec (ORangeDone h holder) s = Some s') by (cbn; by rewrite Hd).
  pose proof (run_step _ _ _ _ RI A E) as RI'.
  pose proof (rn_cover _ _ RI' (r_idx r) x) as Hc.
  rewrite ghost_after_base, rebase_same_heap in Hc by done. cbn [ghost_after registered retired] in Hc.
  assert (Hlive : countb (covers (r_idx r) x) (live_of s' (base g)) = 0%nat).
  { apply Nat.le_0_r. rewrite <- Hz. apply countb_mono. intros y. unfold covers. by destruct (of_file _ y). }
  assert (Hpos : (0 < countb (covers (r_idx r) x) (registered g))%nat).
  { apply countb_pos. eexists. split; [exact Hreg|]. by apply covers_true. }
  assert (Hret : exists y, y ∈ flight (range_heap s) (base g) h :: retired g /\ covers (r_idx r) x y = true).
  { apply countb_pos. lia. }
  destruct Hret as ([[k o'] e'] & Hy & Hcov). apply covers_true in Hcov as [-> Hx'].
  destruct (rn_retired _ _ RI' (r_idx r) o' e') as [(h1 & r1 & _ & Hin1 & Hr1 & Hk1)|Hreq];
    [exact Hy|by rewrite Ea|by rewrite Ef| |].
  - exfalso. rewrite countb_zero in Hz.
    specialize (Hz (flight (range_heap s') (base g) h1)). unfold of_file in Hz.
    rewrite bool_decide_eq_true_2 in Hz by (unfold flight; rewrite Hr1; done).
    discriminate Hz. unfold live_of, live. apply elem_of_app. right. by apply list_elem_of_fmap_2.
  - rewrite ghost_after_requested in Hreq. by apply Hreq.
Qed.

(** The run continues: the first worker retires its half. *)
Definition demo_half : Sched := default demo_state.1 (exec (ORangeDone 0 None) demo_state.1).
Definition demo_half_ghost : Ghost := ghost_after (ORangeDone 0 None) demo_state.1 demo_half demo_state.2.

Lemma demo_half_reachable : reachable 4 8 demo_half demo_half_ghost.
Proof.
  eapply reach_step; [apply demo_reachable|]. constructor; [apply demo_may_retire|].
  vm_compute. reflexivity.
Qed.

Lemma demo_half_facts :
  inflight (inner demo_half) = [1]%nat /\ owing demo_half_ghost = ∅ /\
  range_heap demo_half !! 1%nat = Some (mkRange 0 64 64 None) /\
  registered demo_half_ghost = [(0%nat, 0, 64)] /\
  option_map fst (range_done 1 demo_half) = Some true /\
  countb (of_file 0) (live_of demo_half (base demo_half_ghost)) = 1%nat.
Proof. split_and!; vm_compute; reflexivity. Qed.

Lemma completion_after_every_request_witness :
  requested_at (requested demo_half_ghost) 0 40.
Proof.
  destruct demo_half_facts as (Ei & Eo & E1 & Er & Ed & Ec). pose proof demo_half_reachable as R.
  revert R Ei Eo E1 Er Ed Ec. generalize demo_half demo_half_ghost. intros s g R Ei Eo E1 Er Ed Ec.
  destruct (range_done 1 s) as [[d s']|] eqn:Hd; [|done]. injection Ed as ->.
  destruct (completion_after_every_request 4 8 s s' g 1 None (mkRange 0 64 64 None))
    as (_ & _ & _ & H); [lia|exact R| |exact E1|cbn [r_idx]; rewrite Ec; lia|exact Hd|].
  - split; [rewrite Ei; set_solver|]. eexists. split; [exact E1|]. right; right. by rewrite Eo.
  - apply (H 0 64); [rewrite Er; set_solver|lia].
Defined.

(** C34. When the copy is finished, nothing is left behind: in a reachable state
    that [finished] accepts, every byte ever registered has been retired, no
    file is queued, and [next] tells every worker to exit. *)
Theorem finished_leaves_nothing (blk ms : Z) (s : Sched) (g : Ghost) :
  0 < blk -> reachable blk ms s g -> finished s = true ->
  (forall k x, countb (covers k x) (registered g) = countb (covers k x) (retired g)) /\
  FileQueue.fq_list (files (inner s)) = [] /\
  exists s', next_poll s = Some (Ready IExit, s').
Proof.
  intros Hb R Hf. pose proof (reachable_inv _ _ _ _ Hb R) as RI. pose proof (rn_inv _ _ RI) as I.
  pose proof Hf as Hf'. unfold finished, inner_finished in Hf'. rewrite !andb_true_iff in Hf'.
  destruct Hf' as ((((((_ & _) & _) & Hi) & Hq) & Hr) & _). apply bool_decide_eq_true in Hi.
  apply (FileQueue.fq_is_empty_spec _ (fi_wf _ _ _ (iv_files _ _ I))) in Hq.
  apply (RangeQueue.rq_is_empty_spec _ (ri_wf _ _ _ _ _ _ (iv_ranges _ _ I))) in Hr.
  split_and!; [|done|].
  - intros k x. rewrite (rn_cover _ _ RI). unfold live_of, live. rewrite Hr, Hi. done.
  - unfold next_poll. destruct (abort_flag (inner s)); [eauto|].
    destruct (try_take_idle s (base g) I (finished_idle s _ I Hf)) as [[_ Hw]| ->].
    { destruct Hw as (h & _ & Hin & _). rewrite Hi in Hin. by apply not_elem_of_nil in Hin. }
    destruct (_ || _); cbn [mbind option_bind]; rewrite Hf; eauto.
Qed.

(** The last worker retires its half, and the copy is finished. *)
Definition demo_end : Sched := default demo_half (exec (ORangeDone 1 None) demo_half).
Definition demo_end_ghost : Ghost := ghost_after (ORangeDone 1 None) demo_half demo_end demo_half_ghost.

Lemma demo_end_allowed : allowed (ORangeDone 1 None) demo_half demo_half_ghost.
Proof.
  destruct demo_half_facts as (Ei & Eo & E1 & _). revert Ei Eo E1. generalize demo_half demo_half_ghost.
  intros s g Ei Eo E1. split; [rewrite Ei; set_solver|]. eexists. split; [exact E1|].
  right; right. by rewrite Eo.
Qed.

Lemma demo_end_reachable : reachable 4 8 demo_end demo_end_ghost.
Proof.
  eapply reach_step; [apply demo_half_reachable|].
  constructor; [apply demo_end_allowed|vm_compute; reflexivity].
Qed.

Lemma finished_leaves_nothing_witness :
  countb (covers 0 5) (retired demo_end_ghost) = 1%nat /\
  exists s', next_poll demo_end = Some (Ready IExit, s').
Proof.
  destruct (finished_leaves_nothing 4 8 demo_end demo_end_ghost) as (H & _ & Hn);
    [lia|apply demo_end_reachable|vm_compute; reflexivity|].
  split; [|exact Hn]. rewrite <- (H 0%nat 5). vm_compute. reflexivity.
Defined.

(** What [next] hands out, in its order of preference: the longest queued range
    of all files; without one, the publication queued last; without one, the
    largest queued file; without one, the upper half (from a block boundary) of
    the in-flight range with the most unread bytes among those long enough to be
    split; and only then the first file of another worker's unread batch group,
    whose other files go back to the queue.  What is handed out leaves the queue
    or the handle it comes from. *)
Inductive handed (s s' : Sched) : Item -> Prop :=
| handed_range h idx off e :
    RangeQueue.rq_list (ranges (inner s)) ≡ₚ (idx, off, e) :: RangeQueue.rq_list (ranges (inner s')) ->
    (forall r, r ∈ RangeQueue.rq_list (ranges (inner s)) ->
       RangeQueue.range_len r <= RangeQueue.range_len (idx, off, e)) ->
    range_heap s' !! h = Some (mkRange idx off e None) -> h ∈ inflight (inner s') ->
    handed s s' (IRange h)
| handed_finish idx m :
    RangeQueue.rq_list (ranges (inner s)) = [] ->
    finishes (inner s) = (idx, m) :: finishes (inner s') ->
    finishing (inner s') = S (finishing (inner s)) ->
    handed s s' (IFinish idx m)
| handed_file it :
    RangeQueue.rq_list (ranges (inner s)) = [] -> finishes (inner s) = [] ->
    FileQueue.fq_list (files (inner s)) ≡ₚ it :: FileQueue.fq_list (files (inner s')) ->
    (forall it', it' ∈ FileQueue.fq_list (files (inner s)) -> it'.1 <= it.1) ->
    probing (inner s') = S (probing (inner s)) ->
    handed s s' (IFile (FileQueue.item_idx it))
| handed_half h v r m :
    RangeQueue.rq_list (ranges (inner s)) = [] -> finishes (inner s) = [] ->
    FileQueue.fq_list (files (inner s)) = [] ->
    v ∈ inflight (inner s) -> range_heap s !! v = Some r -> ~ unsplittable (min_split s) r ->
    (forall h' r', h' ∈ inflight (inner s) -> range_heap s !! h' = Some r' ->
       ~ unsplittable (min_split s) r' -> r_end r' - r_pos r' <= r_end r - r_pos r) ->
    r_pos r + (r_end r - r_pos r) / 2 <= m < r_end r ->
    range_heap s' !! v = Some (set_end m r) ->
    range_heap s' !! h = Some (mkRange (r_idx r) m (r_end r) (r_split r)) ->
    inflight (inner s') = inflight (inner s) ++ [h] ->
    handed s s' (IRange h)
| handed_group idx h fb grp kept sz others owned :
    RangeQueue.rq_list (ranges (inner s)) = [] -> finishes (inner s) = [] ->
    FileQueue.fq_list (files (inner s)) = [] ->
    (forall h r, h ∈ inflight (inner s) -> range_heap s !! h = Some r -> unsplittable (min_split s) r) ->
    h ∈ fast_groups (inner s) -> fast_heap s !! h = Some fb -> fb_groups fb = kept ++ [grp] ->
    drop (fg_start grp) (take (fg_end grp) (fb_files fb)) = (sz, idx) :: others ->
    fast_heap s' = <[h := mkBatch (fb_files fb) kept owned]> (fast_heap s) ->
    FileQueue.fq_list (files (inner s')) ≡ₚ (fun f => FileQueue.item_of f.1 f.2) <$> others ->
    handed s s' (IFile idx).

Lemma try_take_hands s b i s' : Inv s b -> try_take s = Some (Some i, s') -> handed s s' i.
Proof.
  intros I H. unfold try_take in H.
  pose proof (RangeQueue.rq_pop_spec _ (ri_wf _ _ _ _ _ _ (iv_ranges _ _ I))) as HP.
  destruct (RangeQueue.pop _) as [[[[[k o] e]|] rq]|]; cbn [mbind option_bind] in H; [| |done].
  { destruct HP as (_ & HP & Hmax). injection H as <- <-. eapply handed_range.
    - exact HP.
    - intros [[k' o'] e'] Hr. specialize (Hmax _ Hr). unfold RangeQueue.range_key in Hmax.
      rewrite !rle_pair in Hmax. cbn in Hmax. unfold RangeQueue.range_len in *. cbn in *.
      destruct (Z.compare_spec (e' - o') (e - o)); [lia|lia|]. exfalso.
      destruct Hmax as [Hl|[[= ? ?] _]]; [|lia]. unfold lex_cmp in Hl. cbn in Hl.
      rewrite (proj2 (Z.compare_gt_iff _ _)) in Hl by lia. done.
    - cbn. by rewrite lookup_insert_eq.
    - cbn. set_solver. }
  destruct HP as [-> Hrq]. rewrite with_ranges_id in H.
  destruct (finishes (inner s)) as [|[idx m] rest] eqn:Ef; last first.
  { injection H as <- <-. by apply handed_finish. }
  pose proof (FileQueue.fq_pop_spec _ (fi_wf _ _ _ (iv_files _ _ I))) as HF.
  destruct (FileQueue.pop _) as [[[it|] fq]|]; cbn [mbind option_bind] in H; [| |done].
  { destruct HF as (_ & _ & HF & Hmax). injection H as <- <-. apply handed_file; try done.
    intros [sz' [o']] Hin. specialize (Hmax _ Hin). destruct it as [sz [o]].
    apply rle_pair in Hmax as [Hlt|[-> _]]; cbn [fst]; [change (sz' < sz) in Hlt|]; lia. }
  destruct HF as [-> Hfq]. rewrite with_files_id in H.
  destruct (steal_spec s b I) as [[Hst _]|(o1 & s1 & Hst & _ & _ & Hnone)]; rewrite Hst in H; [done|].
  cbn [mbind option_bind] in H. destruct o1 as [h|].
  { injection H as <- <-. destruct (steal_inv s b h s1 I Hst)
      as (v & r & m & blk & Hv & Hr & _ & _ & Hm & _ & Hm' & Hs & Hmax & E1 & E2 & _ & E3).
    apply (handed_half s s1 h v r m); try done. lia. }
  destruct (Hnone eq_refl) as [-> Hu]. unfold steal_fast_group in H.
  destruct (steal_fast_from _ s) as [[o2 s2]|] eqn:Es; cbn [mbind option_bind] in H; [|done].
  destruct o2 as [idx|]; [|done]. injection H as <- <-.
  destruct (steal_fast_inv s b _ idx s2 I ltac:(done) Es)
    as (h & fb & grp & kept & sz & others & owned & Hh & Hfb & Hg & Hd & _ & Hheap & HP & _).
  rewrite Hfq, app_nil_r in HP. by apply (handed_group s s2 idx h fb grp kept sz others owned).
Qed.

(** C7. [next] hands out work by priority and sleeps only for a reason.  In every
    reachable state one round of it panics only when a total overflows its
    machine integer; otherwise it returns an item chosen as [handed] says, after
    the planner released its work and unless the copy is aborted; or it returns
    [Exit], after an abort or when the copy is finished and nothing can be
    handed out; or it sleeps, when the copy is neither aborted nor finished and
    the planner has released nothing yet, or there is nothing to hand out: no
    queued range, publication or file, no in-flight range long enough to split
    and no unread small-file group. *)
Theorem next_hands_out_or_sleeps (blk ms : Z) (s : Sched) (g : Ghost) :
  0 < blk -> reachable blk ms s g ->
  panics (overfull s (base g)) (next_poll s) \/
  exists p s', next_poll s = Some (p, s') /\
    match p with
    | Wait => abort_flag (inner s) = false /\ finished s = false /\ (released s = true -> idle s)
    | Ready IExit => abort_flag (inner s) = true \/ (finished s = true /\ idle s)
    | Ready i => abort_flag (inner s) = false /\ released s = true /\ handed s s' i
    end.
Proof.
  intros Hb R. pose proof (rn_inv _ _ (reachable_inv _ _ _ _ Hb R)) as I.
  destruct (next_poll_spec s (base g) I) as [?|(p & s' & Hp & _ & H)]; [by left|right].
  exists p, s'. split; [done|]. destruct p as [i|]; [|destruct H as (? & ? & ? & _); done].
  assert (Hi : i = IExit \/ released s = true /\ handed s s' i).
  { unfold next_poll in Hp. destruct (abort_flag (inner s)); [injection Hp as <- _; by left|].
    fold (released s) in Hp. destruct (released s); cbn [mbind option_bind] in Hp;
      [|destruct (finished s); [injection Hp as <- _; by left|done]].
    destruct (try_take s) as [[[i0|] s0]|] eqn:Et; cbn [mbind option_bind] in Hp; [| |done].
    - injection Hp as -> ->. right. split; [done|]. by eapply try_take_hands.
    - destruct (finished s0); [injection Hp as <- _; by left|done]. }
  destruct Hi as [-> |[Hrel Hh]]; [done|]. destruct i; [| | |done]; destruct H as [Ha _]; done.
Qed.

Lemma next_hands_out_or_sleeps_witness :
  (exists s', next_poll demo_half = Some (Wait, s')) /\ idle demo_half.
Proof.
  assert (E : option_map fst (next_poll demo_half) = Some Wait) by (vm_compute; reflexivity).
  destruct (next_hands_out_or_sleeps 4 8 demo_half demo_half_ghost) as [[Hn _]|(p & s' & Hp & H)];
    [lia|apply demo_half_reachable|rewrite Hn in E; discriminate E|].
  rewrite Hp in E. injection E as ->. split; [exists s'; exact Hp|]. apply H. vm_compute. reflexivity.
Defined.

(** C14. No lost wake-up: an operation that makes [next] ready to return, in a
    state where it would have slept, signals the workers' condition variable.
    So a worker that went to sleep is notified whenever work, an abort or the
    end of the copy reaches it. *)
Theorem no_lost_wakeup (blk ms : Z) (s s' s1 s2 : Sched) (g : Ghost) (op : Op) (i : Item) :
  0 < blk -> reachable blk ms s g -> allowed op s g -> exec op s = Some s' ->
  next_poll s = Some (Wait, s1) -> next_poll s' = Some (Ready i, s2) ->
  exists l, signals s' = signals s ++ l /\ (CvAll ∈ l \/ CvOne ∈ l).
Proof.
  intros Hb R A E Hw Hr. pose proof (reachable_inv _ _ _ _ Hb R) as RI. pose proof (rn_inv _ _ RI) as I.
  destruct (wake_step op s g s' I A E) as [H|H]; [exact H|]. exfalso.
  pose proof (H (wait_waits s (base g) s1 I Hw)) as W.
  pose proof (rn_inv _ _ (run_step op s g s' RI A E)) as I'. by destruct (waits_not_ready s' _ i s2 I' W).
Qed.

Lemma no_lost_wakeup_witness :
  exists l, signals demo_end = signals demo_half ++ l /\ (CvAll ∈ l \/ CvOne ∈ l).
Proof.
  assert (E1 : option_map fst (next_poll demo_half) = Some Wait) by (vm_compute; reflexivity).
  assert (E2 : option_map fst (next_poll demo_end) = Some (Ready IExit)) by (vm_compute; reflexivity).
  destruct (next_poll demo_half) as [[p1 s1]|] eqn:H1; [|discriminate E1]. injection E1 as ->.
  destruct (next_poll demo_end) as [[p2 s2]|] eqn:H2; [|discriminate E2]. injection E2 as ->.
  apply (no_lost_wakeup 4 8 demo_half demo_end s1 s2 demo_half_ghost (ORangeDone 1 None) IExit);
    [lia|apply demo_half_reachable|apply demo_end_allowed|vm_compute; reflexivity|exact H1|exact H2].
Defined.

(** ** Splitting and sharing *)
Lemma all_allowed_app l1 l2 : forall s g, all_allowed (l1 ++ l2) s g -> all_allowed l1 s g.
Proof.
  induction l1 as [|op l1 IH]; cbn; intros s g; [done|]. intros [A H]. split; [done|].
  destruct (exec op s); [by apply IH|done].
Qed.

Definition demo_probed : Sched * Ghost :=
  default (new 4 8, ghost_new) (run_ops (take 4 demo_ops) (new 4 8) ghost_new).

Lemma demo_probed_reachable : reachable 4 8 demo_probed.1 demo_probed.2.
Proof.
  assert (E : run_ops (take 4 demo_ops) (new 4 8) ghost_new = Some demo_probed) by (vm_compute; reflexivity).
  rewrite (surjective_pairing demo_probed) in E.
  pose proof demo_allowed as A. rewrite <- (take_drop 4 demo_ops) in A.
  exact (run_reachable 4 8 _ _ _ _ _ (reach_new 4 8) (all_allowed_app _ _ _ _ A) E).
Qed.

(** Stealing halves the largest in-flight remainder: the victim has the most
    unread bytes of all ranges with at least twice their split floor; the split
    point is the first block boundary at or after the middle of what is unread,
    strictly inside it; the victim's own handle then ends there, the thief's
    new handle covers the rest under the same split policy, and no other handle
    changes. *)
Theorem steal_halves_largest (blk ms : Z) (s s' : Sched) (g : Ghost) (h : nat) :
  0 < blk -> reachable blk ms s g -> steal s = Some (Some h, s') ->
  exists v r m b, v ∈ inflight (inner s) /\ range_heap s !! v = Some r /\ h = next_ref s /\
    b = match r_split r with Some sp => rs_block sp | None => block s end /\
    r_pos r < m < r_end r /\ m mod b = 0 /\
    r_pos r + (r_end r - r_pos r) / 2 <= m < r_pos r + (r_end r - r_pos r) / 2 + b /\
    ~ unsplittable (min_split s) r /\
    (forall h' r', h' ∈ inflight (inner s) -> range_heap s !! h' = Some r' ->
       ~ unsplittable (min_split s) r' -> r_end r' - r_pos r' <= r_end r - r_pos r) /\
    range_heap s' !! v = Some (set_end m r) /\
    range_heap s' !! h = Some (mkRange (r_idx r) m (r_end r) (r_split r)) /\
    (forall k, k <> v -> k <> h -> range_heap s' !! k = range_heap s !! k) /\
    inflight (inner s') = inflight (inner s) ++ [h].
Proof.
  intros Hb R H. pose proof (rn_inv _ _ (reachable_inv _ _ _ _ Hb R)) as I. by apply (steal_inv s (base g)).
Qed.

Lemma steal_halves_largest_witness :
  exists s', steal demo_probed.1 = Some (Some 1%nat, s') /\
    exists v r m, range_heap demo_probed.1 !! v = Some r /\ r_pos r < m < r_end r /\
      range_heap s' !! v = Some (set_end m r).
Proof.
  assert (E : exists s', steal demo_probed.1 = Some (Some 1%nat, s')).
  { eexists. vm_compute. reflexivity. }
  destruct E as [s' E]. exists s'. split; [exact E|].
  destruct (steal_halves_largest 4 8 demo_probed.1 s' demo_probed.2 1 ltac:(lia) demo_probed_reachable E)
    as (v & r & m & b & _ & Hr & _ & _ & Hm & _ & _ & _ & _ & Hv & _).
  exists v, r, m. exact (conj Hr (conj Hm Hv)).
Defined.

(** The initial split of a file's only range over [workers] workers tiles it
    exactly: either it is kept whole, or it becomes between two and [workers]
    consecutive parts from its start to its end, each starting at a multiple of
    the block size and holding at least [min_split] bytes. *)
Theorem initial_split_tiles (blk ms : Z) (s : Sched) (g : Ghost) (workers : nat) (a e : Z) :
  0 < blk -> reachable blk ms s g -> a < e ->
  exists parts, initial_split s workers [(a, e)] = Some parts /\ chain a parts e /\
    (parts = [(a, e)] \/
     ((1 < length parts <= workers)%nat /\
      forall r, r ∈ parts -> min_split s <= r.2 - r.1 /\ r.1 mod block s = 0)).
Proof.
  intros Hb R Hlt. pose proof (rn_inv _ _ (reachable_inv _ _ _ _ Hb R)) as I.
  destruct (initial_split_spec s (base g) workers [(a, e)] I) as (parts & Hp & Hcase).
  { by intros r ->%list_elem_of_singleton. }
  exists parts. split; [done|]. destruct Hcase as [->|(a' & e' & [= <- <-] & Hc & Hl & Hr)]; [|auto].
  split; [by cbn|auto].
Qed.

Lemma initial_split_tiles_witness :
  initial_split (new 4 8) 3 [(0, 30)] = Some [(0, 12); (12, 20); (20, 30)] /\
  exists parts, initial_split (new 4 8) 3 [(0, 30)] = Some parts /\ chain 0 parts 30.
Proof.
  split; [vm_compute; reflexivity|].
  destruct (initial_split_tiles 4 8 (new 4 8) ghost_new 3 0 30) as (parts & H1 & H2 & _);
    [lia|apply reach_new|lia|]. exists parts. exact (conj H1 H2).
Defined.

(** A claim on a small-file batch takes the front of its first unread group:
    at least one file, at most [max_files] files and [max_bytes] bytes unless a
    single file alone exceeds them; the claimed files leave the groups, so no
    peer can steal them afterwards, and the batch stays well formed. *)
Theorem fast_claim_bounded (n : nat) (fb : FastBatchState) (max_files : nat) (max_bytes : Z) :
  batch_ok n fb -> max_bytes < u64_max ->
  exists o fb', batch_claim fb max_files max_bytes = Some (o, fb') /\ batch_ok n fb' /\
    match o with
    | None => fb_groups fb = [] /\ fb' = fb
    | Some (a, e) =>
        (exists grp rest, fb_groups fb = grp :: rest /\ fg_start grp = a /\ (e <= fg_end grp)%nat) /\
        (a < e)%nat /\ (e - a <= Nat.max 1 max_files)%nat /\
        (slice_bytes (fb_files fb) a e <= max_bytes \/ e = S a) /\
        (sum_list (group_len <$> fb_groups fb') + (e - a) = sum_list (group_len <$> fb_groups fb))%nat
    end.
Proof.
  intros Hok Hmb. destruct (batch_claim_spec n fb max_files max_bytes Hok)
    as (o & fb' & Hc & Hok' & _ & _ & Ho). exists o, fb'. split; [done|]. split; [done|].
  destruct o as [[a e]|]; [|done]. destruct Ho as (Hg & H1 & H2 & H3 & H4). split_and!; [done..| |done].
  destruct H3 as [?|[?|?]]; [auto|auto|lia].
Qed.

Definition demo_batch : FastBatchState :=
  mkBatch [(5, 0%nat); (7, 1%nat); (9, 2%nat)] [mkGroup 1 3 16] [true; true; true].

Lemma fast_claim_bounded_witness :
  exists o fb', batch_claim demo_batch 4 10 = Some (o, fb') /\ batch_ok 3 fb' /\ o = Some (1, 2)%nat.
Proof.
  destruct (fast_claim_bounded 3 demo_batch 4 10) as (o & fb' & H1 & H2 & _); [|done|].
  - split; [reflexivity| |].
    + intros x ->%list_elem_of_singleton. cbn. split; [lia|split; [reflexivity|by vm_compute]].
    + intros f. cbn. rewrite !elem_of_cons, elem_of_nil.
      intros [->|[->|[->|[]]]]; cbn; lia.
  - exists o, fb'. split; [exact H1|]. split; [exact H2|]. vm_compute in H1. by injection H1 as <- _.
Defined.

(** A batch of three small files, of which two are shared with idle peers. *)
Definition small_job (size : Z) (name : Z) : FileJob :=
  mkJob (mkJobData false false false false false 0 [name] (mkRegistered 0 [name]) [98; 47; name] [name]
           (mkEntry [name] File size 0 0 420 1 1 0 9 11 1 0 0 None)
           Any false 0 0 false None [98] None ScUnknown) None.
Definition fast_ops : list Op :=
  [OPushFile (small_job 5 97); OPushFile (small_job 4 98); OPushFile (small_job 3 99); OScanDone; ONext;
   OBeginFast 1 4; OTakeSmallNear 0 10 2 100; OMarkFast 2;
   OShareFast [(5, 0%nat); (4, 1%nat); (3, 2%nat)] [(0, 1)%nat; (1, 3)%nat]].
Definition demo_fast : Sched * Ghost :=
  default (new 4 8, ghost_new) (run_ops fast_ops (new 4 8) ghost_new).

Lemma fast_allowed : all_allowed fast_ops (new 4 8) ghost_new.
Proof.
  do 4 (split; [done|]; eval_exec). split; [done|]; eval_exec.
  split; [vm_compute; lia|]. eval_exec. split; [split; [vm_compute; lia|done]|]. eval_exec.
  split; [vm_compute; lia|]. eval_exec. split; [|eval_exec; done].
  split; [done|]. split; [|split].
  - intros f. rewrite !elem_of_cons, elem_of_nil. intros [->|[->|[->|[]]]]; (split; [done|vm_compute; lia]).
  - repeat constructor.
  - vm_compute. lia.
Qed.

Lemma demo_fast_reachable : reachable 4 8 demo_fast.1 demo_fast.2.
Proof.
  assert (E : run_ops fast_ops (new 4 8) ghost_new = Some demo_fast) by (vm_compute; reflexivity).
  rewrite (surjective_pairing demo_fast) in E.
  exact (run_reachable 4 8 _ _ _ _ _ (reach_new 4 8) fast_allowed E).
Qed.

(** Stealing an unread small-file group moves whole files: the group leaves
    the batch from its far end, the owner's flags of exactly its files are
    cleared, its first file is handed to the thief (and stays counted as a
    probe), the others return to the file queue, and the probe counters drop by
    exactly the files that left. *)
Theorem fast_steal_moves_files (blk ms : Z) (s s' : Sched) (g : Ghost) (idx : nat) :
  0 < blk -> reachable blk ms s g -> steal_fast_group s = Some (Some idx, s') ->
  exists h fb grp kept sz others owned, h ∈ fast_groups (inner s) /\ fast_heap s !! h = Some fb /\
    fb_groups fb = kept ++ [grp] /\
    drop (fg_start grp) (take (fg_end grp) (fb_files fb)) = (sz, idx) :: others /\
    fill_false (fg_start grp) (fg_end grp) (fb_owned fb) = Some owned /\
    fast_heap s' = <[h := mkBatch (fb_files fb) kept owned]> (fast_heap s) /\
    FileQueue.fq_list (files (inner s')) ≡ₚ
      ((fun f => FileQueue.item_of f.1 f.2) <$> others) ++ FileQueue.fq_list (files (inner s)) /\
    (probing (inner s') + length others = probing (inner s))%nat /\
    (fast_probing (inner s') + S (length others) = fast_probing (inner s))%nat.
Proof.
  intros Hb R H. pose proof (rn_inv _ _ (reachable_inv _ _ _ _ Hb R)) as I.
  by apply (steal_fast_inv s (base g) (fast_groups (inner s)) idx s' I).
Qed.

Lemma fast_steal_moves_files_witness :
  exists s', steal_fast_group demo_fast.1 = Some (Some 1%nat, s') /\
    exists others, (probing (inner s') + length (A := Z * nat) others = probing (inner demo_fast.1))%nat.
Proof.
  assert (E : exists s', steal_fast_group demo_fast.1 = Some (Some 1%nat, s')).
  { eexists. vm_compute. reflexivity. }
  destruct E as [s' E]. exists s'. split; [exact E|].
  destruct (fast_steal_moves_files 4 8 demo_fast.1 s' demo_fast.2 1 ltac:(lia) demo_fast_reachable E)
    as (h & fb & grp & kept & sz & others & owned & _ & _ & _ & _ & _ & _ & _ & Hp & _).
  exists others. exact Hp.
Defined.
