(* ===== verification/Expression.v ===== *)
(** * The expression language (src/src/expression/mod.rs)

    Typed, side-effect-free predicates over a source and its mapped
    destination: values and their types, the fields of a file, the facts known
    about it, the static type check [ty] and the evaluator [eval], and the
    policy that uses expressions.
    - An [i128] is a [Z]; checked operations give an error outside its range.
    - A byte string is a list of bytes.
    - An error carries its message; [context(..)] only adds a prefix, which is
      left out, and [error.is::<NeedMetadata>()] is the constructor test.
    - A compiled regular expression is a parameter with its match function. *)

From stdpp Require Import strings.
From S2P Require Import Prelude Text Proto.
Local Open Scope Z_scope.

(** ** Errors *)
Inductive Error := Bail (message : string) | NeedMetadata.

#[export] Instance Error_eq_dec : EqDecision Error.
Proof. solve_decision. Defined.

Abbreviation res := (result Error).

(** [anyhow::bail!] and [require]. *)
Definition bail {A} (m : string) : res A := Err (Bail m).
Definition require_msg (ok : bool) (m : string) : res unit := if ok then Ok tt else bail m.

(** ** [i128] *)
Definition i128_min : Z := - 2 ^ 127.
Definition i128_max : Z := 2 ^ 127 - 1.
Definition in_i128 (n : Z) : bool := bool_decide (i128_min <= n <= i128_max).
Definition checked (n : Z) : option Z := if in_i128 n then Some n else None.
(** Division truncates toward zero; [MIN / -1] and [MIN % -1] overflow. *)
Definition checked_div (a b : Z) : option Z := if decide (b = 0) then None else checked (Z.quot a b).
Definition checked_rem (a b : Z) : option Z :=
  if decide (b = 0) then None else if decide (a = i128_min /\ b = -1) then None else Some (Z.rem a b).

(** ** Types and values *)
Inductive Ty := TBool | TString | TNumber | TSize | TDuration | TTimestamp | TNull.

#[export] Instance Ty_eq_dec : EqDecision Ty.
Proof. solve_decision. Defined.

Inductive Value :=
| VBool (b : bool)
| VString (s : list Z)
| VQuantity (n : Z) (t : Ty)
| VNull.

#[export] Instance Value_eq_dec : EqDecision Value.
Proof. solve_decision. Defined.

Definition value_ty (v : Value) : Ty :=
  match v with
  | VBool _ => TBool
  | VString _ => TString
  | VQuantity _ t => t
  | VNull => TNull
  end.

Definition boolean (v : Value) : res bool :=
  match v with VBool b => Ok b | _ => bail "expected a boolean value" end.

(** ** Fields *)
Inductive Field :=
| FPath | FName | FExtension | FKind | FExists | FSize | FMtime | FS3LastModified | FCtime
| FMode | FUid | FGid | FDevice | FInode | FLinks | FLinkTarget.

Definition Field_parse (name : list Z) : res Field :=
  if decide (name = bs "path") then Ok FPath
  else if decide (name = bs "name") then Ok FName
  else if decide (name = bs "extension") then Ok FExtension
  else if decide (name = bs "kind") then Ok FKind
  else if decide (name = bs "exists") then Ok FExists
  else if decide (name = bs "size") then Ok FSize
  else if decide (name = bs "mtime") then Ok FMtime
  else if decide (name = bs "s3_last_modified") then Ok FS3LastModified
  else if decide (name = bs "ctime") then Ok FCtime
  else if decide (name = bs "mode") then Ok FMode
  else if decide (name = bs "uid") then Ok FUid
  else if decide (name = bs "gid") then Ok FGid
  else if decide (name = bs "device") then Ok FDevice
  else if decide (name = bs "inode") then Ok FInode
  else if decide (name = bs "nlink") then Ok FLinks
  else if decide (name = bs "link_target") then Ok FLinkTarget
  else bail "unknown field".

Definition field_ty (f : Field) : Ty :=
  match f with
  | FPath | FName | FExtension | FKind | FLinkTarget => TString
  | FExists => TBool
  | FSize => TSize
  | FMtime | FCtime | FS3LastModified => TTimestamp
  | _ => TNumber
  end.

(** ** Files *)
Record FileFacts := mkFile {
  f_exists : bool;
  f_kind : option Kind;
  f_size : option Z;
  f_mtime : option (Z * Z);
  f_ctime : option (Z * Z);
  f_s3_last_modified : option (Z * Z);
  f_mode : option Z;
  f_uid : option Z;
  f_gid : option Z;
  f_device : option Z;
  f_inode : option Z;
  f_nlink : option Z;
  f_link_target : option (list Z)
}.

Definition File_default : FileFacts :=
  mkFile false None None None None None None None None None None None None.

Definition from_entry (e : Entry) : FileFacts :=
  mkFile true (Some (e_kind e)) (Some (e_size e)) (Some (e_mtime e, e_mtime_nsec e))
    (Some (e_ctime e, e_ctime_nsec e)) None (Some (Z.land (e_mode e) 4095)) (Some (e_uid e))
    (Some (e_gid e)) (Some (e_dev e)) (Some (e_ino e)) (Some (e_nlink e)) (e_link e).

(** [slice.iter().rposition(..)]. *)
Fixpoint last_index (b : Z) (l : list Z) : option nat :=
  match l with
  | [] => None
  | x :: l' => match last_index b l' with
               | Some i => Some (S i)
               | None => if decide (x = b) then Some 0%nat else None
               end
  end.

(** [path.rsplit(|b| b == '/').next()]: what follows the last slash. *)
Definition base_name (path : list Z) : list Z :=
  match last_index slash path with Some i => drop (S i) path | None => path end.

Definition extension (name : list Z) : list Z :=
  match last_index dot name with
  | Some i => if decide (i = 0%nat) then [] else drop (S i) name
  | None => []
  end.

Definition kind_name (k : Kind) : list Z :=
  match k with
  | File => bs "file" | Dir => bs "dir" | Symlink => bs "symlink" | Fifo => bs "fifo"
  | Socket => bs "socket" | CharDev => bs "char" | BlockDev => bs "block" | Other => bs "other"
  end.

Definition quantity (n : option Z) (t : Ty) : Value :=
  match n with Some n => VQuantity n t | None => VNull end.

Definition nanos (p : Z * Z) : Z := p.1 * 1000000000 + p.2.

Definition file_field (f : FileFacts) (path : list Z) (fld : Field) : Value :=
  match fld with
  | FPath => VString path
  | FName => VString (base_name path)
  | FExtension => VString (extension (base_name path))
  | FExists => VBool (f_exists f)
  | _ =>
      if negb (f_exists f) then VNull else
        match fld with
        | FKind => match f_kind f with Some k => VString (kind_name k) | None => VNull end
        | FSize => quantity (f_size f) TSize
        | FMtime => quantity (nanos <$> f_mtime f) TTimestamp
        | FCtime => quantity (nanos <$> f_ctime f) TTimestamp
        | FS3LastModified => quantity (nanos <$> f_s3_last_modified f) TTimestamp
        | FMode => quantity (f_mode f) TNumber
        | FUid => quantity (f_uid f) TNumber
        | FGid => quantity (f_gid f) TNumber
        | FDevice => quantity (f_device f) TNumber
        | FInode => quantity (f_inode f) TNumber
        | FLinks => quantity (f_nlink f) TNumber
        | FLinkTarget => match f_link_target f with Some t => VString t | None => VNull end
        | _ => VNull (* unreachable: answered above *)
        end
  end.

(** ** Facts *)
Inductive Facts :=
| Complete (file : FileFacts)
| S3Listing (size : Z) (directory_marker : bool) (last_modified : option (Z * Z))
| Unread.

Definition facts_field (k : Facts) (path : list Z) (fld : Field) : res Value :=
  match k with
  | Complete file => Ok (file_field file path fld)
  | _ =>
      match fld with
      | FPath | FName | FExtension => Ok (file_field File_default path fld)
      | _ =>
          match k with
          | S3Listing size _ last_modified =>
              match fld with
              | FExists => Ok (VBool true)
              | FSize => Ok (VQuantity size TSize)
              | FS3LastModified => Ok (quantity (nanos <$> last_modified) TTimestamp)
              | FCtime | FDevice | FInode | FLinks | FLinkTarget => Ok VNull
              | _ => Err NeedMetadata
              end
          | _ => Err NeedMetadata
          end
      end
  end.

(** ** Operators *)
Inductive Op :=
| And | Or | OEq | ONe | OLt | OLe | OGt | OGe | Add | Sub | Mul | Div | Rem | BitAnd | BitOr | BitXor.

#[export] Instance Op_eq_dec : EqDecision Op.
Proof. solve_decision. Defined.

Definition common_type (a b : Ty) : res Ty :=
  if decide (a = TNull) then Ok b
  else if bool_decide (b = TNull) || bool_decide (a = b) then Ok a
  else bail "incompatible types".

Definition is_additive (t : Ty) : bool :=
  match t with TNumber | TSize | TDuration => true | _ => false end.
Definition is_ordered (t : Ty) : bool :=
  match t with TNumber | TSize | TDuration | TTimestamp | TString => true | _ => false end.

Definition binary_type (op : Op) (a b : Ty) : res Ty :=
  let arithmetic := bail "invalid arithmetic" in
  match op with
  | And | Or =>
      _ ← require_msg (bool_decide (a = TBool) && bool_decide (b = TBool)) "and/or require booleans";
      Ok TBool
  | OEq | ONe => _ ← common_type a b; Ok TBool
  | OLt | OLe | OGt | OGe =>
      _ ← require_msg (bool_decide (a = b) && is_ordered a)
            "ordered comparisons require matching numbers, sizes, durations, timestamps, or strings";
      Ok TBool
  | BitAnd | BitOr | BitXor =>
      if bool_decide (a = TNumber) && bool_decide (b = TNumber) then Ok TNumber else arithmetic
  | Add =>
      if bool_decide (a = TTimestamp) && bool_decide (b = TDuration) ||
         bool_decide (a = TDuration) && bool_decide (b = TTimestamp) then Ok TTimestamp
      else if bool_decide (a = b) && is_additive a then Ok a else arithmetic
  | Sub =>
      if bool_decide (a = TTimestamp) && bool_decide (b = TDuration) then Ok TTimestamp
      else if bool_decide (a = TTimestamp) && bool_decide (b = TTimestamp) then Ok TDuration
      else if bool_decide (a = b) && is_additive a then Ok a else arithmetic
  | Mul =>
      if bool_decide (a = TNumber) && is_additive b then Ok b
      else if bool_decide (b = TNumber) && is_additive a then Ok a else arithmetic
  | Div =>
      if bool_decide (b = TNumber) && is_additive a then Ok a
      else if bool_decide (a = b) && (bool_decide (a = TSize) || bool_decide (a = TDuration))
      then Ok TNumber else arithmetic
  | Rem => if bool_decide (a = b) && is_additive a then Ok a else arithmetic
  end.

(** [Vec<u8>::cmp]. *)
Fixpoint bytes_cmp (a b : list Z) : comparison :=
  match a, b with
  | [], [] => Eq
  | [], _ => Lt
  | _, [] => Gt
  | x :: a', y :: b' => match Z.compare x y with Eq => bytes_cmp a' b' | c => c end
  end.

Definition order_holds (op : Op) (c : comparison) : option bool :=
  match op with
  | OLt => Some (match c with Lt => true | _ => false end)
  | OLe => Some (match c with Gt => false | _ => true end)
  | OGt => Some (match c with Gt => true | _ => false end)
  | OGe => Some (match c with Lt => false | _ => true end)
  | _ => None
  end.

Definition arith (op : Op) (a b : Z) : option Z :=
  match op with
  | Add => checked (a + b)
  | Sub => checked (a - b)
  | Mul => checked (a * b)
  | Div => checked_div a b
  | Rem => checked_rem a b
  | BitAnd => Some (Z.land a b)
  | BitOr => Some (Z.lor a b)
  | BitXor => Some (Z.lxor a b)
  | _ => None
  end.

Definition binary (op : Op) (a b : Value) : res Value :=
  match op with
  | OEq => Ok (VBool (bool_decide (a = b)))
  | ONe => Ok (VBool (bool_decide (a <> b)))
  | _ =>
      if bool_decide (a = VNull) || bool_decide (b = VNull)
      then bail "field is unavailable; test it against null or use coalesce first" else
        ty ← binary_type op (value_ty a) (value_ty b);
        let ordering := match a, b with
                        | VQuantity x _, VQuantity y _ => Some (Z.compare x y)
                        | VString x, VString y => Some (bytes_cmp x y)
                        | _, _ => None
                        end in
        match ordering ≫= order_holds op with
        | Some v => Ok (VBool v)
        | None =>
            match a, b with
            | VQuantity x _, VQuantity y _ =>
                match arith op x y with
                | Some n => Ok (VQuantity n ty)
                | None => bail "arithmetic overflow or division by zero"
                end
            | _, _ => bail "arithmetic requires quantities"
            end
        end
  end.

(** Values the evaluator can hold: quantities have a quantity type and fit. *)
Definition is_quantity_ty (t : Ty) : bool :=
  match t with TNumber | TSize | TDuration | TTimestamp => true | _ => false end.
Definition wf_value (v : Value) : bool :=
  match v with VQuantity n t => is_quantity_ty t && in_i128 n | _ => true end.

(** ** Metadata read through a rooted descriptor *)
Record RootMetadata := mkRootMeta {
  rm_dev : Z; rm_ino : Z; rm_mode : Z; rm_nlink : Z; rm_len : Z; rm_mtime : Z; rm_mtime_nsec : Z; rm_atime : Z * Z;
  rm_ctime : Z; rm_ctime_nsec : Z; rm_uid : Z; rm_gid : Z; rm_rdev : Z
}.

(** The file-type bits [S_IFMT] of a mode, with their values on Linux. *)
Definition mode_kind (mode : Z) : Kind :=
  let fmt := Z.land mode 61440 in
  if decide (fmt = 32768) then File
  else if decide (fmt = 16384) then Dir
  else if decide (fmt = 40960) then Symlink
  else if decide (fmt = 4096) then Fifo
  else if decide (fmt = 49152) then Socket
  else if decide (fmt = 8192) then CharDev
  else if decide (fmt = 24576) then BlockDev
  else Other.

Definition from_root (m : RootMetadata) : FileFacts :=
  mkFile true (Some (mode_kind (rm_mode m))) (Some (rm_len m)) (Some (rm_mtime m, rm_mtime_nsec m))
    (Some (rm_ctime m, rm_ctime_nsec m)) None (Some (Z.land (rm_mode m) 4095)) (Some (rm_uid m))
    (Some (rm_gid m)) (Some (rm_dev m)) (Some (rm_ino m)) (Some (rm_nlink m)) None.

Record ContextValues := mkContext {
  c_src : Facts;
  c_dst : Facts;
  c_src_path : list Z;
  c_dst_path : list Z;
  c_now : Z
}.

(** ** Expressions *)
Section Nodes.
Context {Regex : Type}.

Inductive Node :=
| Literal (v : Value)
| NField (dst : bool) (f : Field)
| Now
| Not (n : Node)
| Negative (n : Node)
| Binary (op : Op) (a b : Node)
| In (a : Node) (items : list Node)
| Between (a b c : Node)
| Pattern (n : Node) (pattern : Regex)
| If (c a b : Node)
| Coalesce (a b : Node).

(** Induction that reaches the items of [In]. *)
Fixpoint node_rect' (P : Node -> Prop)
    (HLit : forall v, P (Literal v)) (HField : forall d f, P (NField d f)) (HNow : P Now)
    (HNot : forall n, P n -> P (Not n)) (HNeg : forall n, P n -> P (Negative n))
    (HBin : forall op a b, P a -> P b -> P (Binary op a b))
    (HIn : forall a items, P a -> Forall P items -> P (In a items))
    (HBetween : forall a b c, P a -> P b -> P c -> P (Between a b c))
    (HPat : forall n r, P n -> P (Pattern n r))
    (HIf : forall c a b, P c -> P a -> P b -> P (If c a b))
    (HCoal : forall a b, P a -> P b -> P (Coalesce a b)) (n : Node) : P n :=
  let rec := node_rect' P HLit HField HNow HNot HNeg HBin HIn HBetween HPat HIf HCoal in
  match n with
  | Literal v => HLit v
  | NField d f => HField d f
  | Now => HNow
  | Not n => HNot n (rec n)
  | Negative n => HNeg n (rec n)
  | Binary op a b => HBin op a b (rec a) (rec b)
  | In a items => HIn a items (rec a)
      ((fix go (l : list Node) : Forall P l :=
          match l with
          | [] => @List.Forall_nil Node P
          | x :: l' => @List.Forall_cons Node P x l' (rec x) (go l')
          end) items)
  | Between a b c => HBetween a b c (rec a) (rec b) (rec c)
  | Pattern n r => HPat n r (rec n)
  | If c a b => HIf c a b (rec c) (rec a) (rec b)
  | Coalesce a b => HCoal a b (rec a) (rec b)
  end.

Fixpoint uses_source_s3_time (n : Node) : bool :=
  match n with
  | NField false FS3LastModified => true
  | Not n | Negative n | Pattern n _ => uses_source_s3_time n
  | Binary _ a b | Coalesce a b => uses_source_s3_time a || uses_source_s3_time b
  | Between a b c | If a b c =>
      uses_source_s3_time a || uses_source_s3_time b || uses_source_s3_time c
  | In a items => uses_source_s3_time a || existsb uses_source_s3_time items
  | _ => false
  end.

(** [Node::ty]. *)
Fixpoint ty (n : Node) : res Ty :=
  match n with
  | Literal v => Ok (value_ty v)
  | NField _ f => Ok (field_ty f)
  | Now => Ok TTimestamp
  | Not n => t ← ty n; _ ← require_msg (bool_decide (t = TBool)) "not requires a boolean"; Ok TBool
  | Negative n =>
      t ← ty n;
      _ ← require_msg (is_additive t) "unary minus requires a number, size, or duration";
      Ok t
  | Binary op a b => ta ← ty a; tb ← ty b; binary_type op ta tb
  | Between a b c =>
      ta ← ty a; tb ← ty b; _ ← binary_type OGe ta tb;
      ta ← ty a; tc ← ty c; _ ← binary_type OLe ta tc;
      Ok TBool
  | In a items =>
      (fix go (l : list Node) : res Ty :=
         match l with
         | [] => Ok TBool
         | b :: l' => ta ← ty a; tb ← ty b; _ ← binary_type OEq ta tb; go l'
         end) items
  | Pattern a _ =>
      t ← ty a; _ ← require_msg (bool_decide (t = TString)) "pattern matching requires a string"; Ok TBool
  | If c a b =>
      tc ← ty c; _ ← require_msg (bool_decide (tc = TBool)) "if requires a boolean condition";
      ta ← ty a; tb ← ty b; common_type ta tb
  | Coalesce a b => ta ← ty a; tb ← ty b; common_type ta tb
  end.

Context (is_match : Regex -> list Z -> bool).

(** [Node::eval]; [&&] and [||] do not evaluate their right side when the left
    decides, nor do [If], [Coalesce], [Between] and [In] look further. *)
Fixpoint eval (c : ContextValues) (n : Node) : res Value :=
  match n with
  | Literal v => Ok v
  | Now => Ok (VQuantity (c_now c) TTimestamp)
  | NField dst f =>
      if dst then facts_field (c_dst c) (c_dst_path c) f else facts_field (c_src c) (c_src_path c) f
  | Not n => v ← eval c n; b ← boolean v; Ok (VBool (negb b))
  | Negative n =>
      v ← eval c n;
      match v with
      | VQuantity x t => match checked (- x) with
                         | Some m => Ok (VQuantity m t)
                         | None => bail "arithmetic overflow"
                         end
      | _ => bail "cannot negate an unavailable value"
      end
  | Binary And a b =>
      va ← eval c a; ba ← boolean va;
      if (ba : bool) then vb ← eval c b; bb ← boolean vb; Ok (VBool bb) else Ok (VBool false)
  | Binary Or a b =>
      va ← eval c a; ba ← boolean va;
      if (ba : bool) then Ok (VBool true) else vb ← eval c b; bb ← boolean vb; Ok (VBool bb)
  | Binary op a b => va ← eval c a; vb ← eval c b; binary op va vb
  | Between a b d =>
      value ← eval c a; vb ← eval c b;
      low ← binary OGe value vb; low ← boolean low;
      if (low : bool) then
        vd ← eval c d; high ← binary OLe value vd; high ← boolean high; Ok (VBool high)
      else Ok (VBool false)
  | In a items =>
      value ← eval c a;
      (fix go (l : list Node) : res Value :=
         match l with
         | [] => Ok (VBool false)
         | item :: l' =>
             vi ← eval c item; e ← binary OEq value vi; hit ← boolean e;
             if (hit : bool) then Ok (VBool true) else go l'
         end) items
  | Pattern n pattern =>
      v ← eval c n;
      match v with
      | VString s => Ok (VBool (is_match pattern s))
      | _ => bail "cannot match an unavailable value; test it against null first"
      end
  | If cond a b => v ← eval c cond; t ← boolean v; if (t : bool) then eval c a else eval c b
  | Coalesce a b => v ← eval c a; if decide (v = VNull) then eval c b else Ok v
  end.

(** ** [Expression] and [Policy] *)
Record Expression := mkExpression { root : Node }.

Definition evaluate (e : Expression) (src : FileFacts) (src_path : list Z) (dst : FileFacts)
    (dst_path : list Z) (now : Z) : res bool :=
  v ← eval (mkContext (Complete src) (Complete dst) src_path dst_path now) (root e); boolean v.

Definition evaluate_known (e : Expression) (src : Facts) (src_path : list Z) (dst : Facts)
    (dst_path : list Z) (now : Z) : res (option bool) :=
  match eval (mkContext src dst src_path dst_path now) (root e) with
  | Ok value => b ← boolean value; Ok (Some b)
  | Err NeedMetadata => Ok None
  | Err error => Err error
  end.

Record Policy := mkPolicy {
  p_selection : option Expression;
  p_update : option Expression;
  p_now : Z
}.

Definition policy_uses_source_s3_time (p : Policy) : bool :=
  match p_selection p with Some e => uses_source_s3_time (root e) | None => false end ||
  match p_update p with Some e => uses_source_s3_time (root e) | None => false end.

Definition active (p : Policy) : bool :=
  bool_decide (is_Some (p_selection p)) || bool_decide (is_Some (p_update p)).

Definition selects (p : Policy) (src : FileFacts) (path : list Z) : res bool :=
  if decide (f_kind src = Some Dir) then Ok true else
    match p_selection p with
    | None => Ok true
    | Some e => evaluate e src path File_default [] (p_now p)
    end.

Definition selects_known (p : Policy) (src : Facts) (path : list Z) : res (option bool) :=
  match src with
  | Complete file => b ← selects p file path; Ok (Some b)
  | _ =>
      match p_selection p with
      | None => Ok (Some true)
      | Some e =>
          match src with
          | S3Listing _ true _ => Ok (Some true)
          | _ => evaluate_known e src path Unread [] (p_now p)
          end
      end
  end.

Definition permits_known (p : Policy) (src : Facts) (src_path : list Z) (dst : Facts)
    (dst_path : list Z) : res (option bool) :=
  match p_update p with
  | None => Ok (Some true)
  | Some e => evaluate_known e src src_path dst dst_path (p_now p)
  end.

Definition permits (p : Policy) (src : FileFacts) (src_path : list Z) (dst : FileFacts)
    (dst_path : list Z) : res bool :=
  match p_update p with
  | None => Ok true
  | Some e => evaluate e src src_path dst dst_path (p_now p)
  end.

End Nodes.

Arguments Node : clear implicits.
Arguments Expression : clear implicits.
Arguments Policy : clear implicits.

(** [source_path]: the last nonempty component of an explicit file root. *)
Definition source_path (root relative : list Z) : list Z :=
  if decide (relative = [])
  then default [] (head (filter (fun c => c <> []) (reverse (split_on slash root))))
  else relative.
