(* ===== verification/ExprSound.v ===== *)
(** * Soundness of the expression language

    A well-typed expression evaluates to a value of its type or to null, and
    fails only where a part of it looked at an unavailable value or its
    arithmetic overflowed, or where metadata has not been read; evaluation from
    partial facts agrees with evaluation from the complete metadata. *)

From stdpp Require Import strings.
From S2P Require Import Prelude Text Proto Expression.
Local Open Scope Z_scope.

(** ** [i128] is closed under the bitwise operators *)
Lemma in_i128_spec n : in_i128 n = true <-> i128_min <= n <= i128_max.
Proof. unfold in_i128. by rewrite bool_decide_eq_true. Qed.

Lemma in_i128_shiftr n : in_i128 n = true <-> Z.shiftr n 127 = 0 \/ Z.shiftr n 127 = -1.
Proof.
  rewrite in_i128_spec. unfold i128_min, i128_max. rewrite Z.shiftr_div_pow2 by lia.
  pose proof (Z.div_mod n (2 ^ 127) ltac:(lia)). pose proof (Z.mod_pos_bound n (2 ^ 127) ltac:(lia)). lia.
Qed.

Lemma in_i128_bitop (f : Z -> Z -> Z) a b :
  (forall x y n, Z.shiftr (f x y) n = f (Z.shiftr x n) (Z.shiftr y n)) ->
  (forall x y, (x = 0 \/ x = -1) -> (y = 0 \/ y = -1) -> f x y = 0 \/ f x y = -1) ->
  in_i128 a = true -> in_i128 b = true -> in_i128 (f a b) = true.
Proof. intros Hs Hc. rewrite !in_i128_shiftr, Hs. auto. Qed.

Lemma checked_Some n m : checked n = Some m <-> m = n /\ in_i128 n = true.
Proof. unfold checked. destruct (in_i128 n); naive_solver. Qed.

Lemma in_i128_rem a b : b <> 0 -> in_i128 a = true -> in_i128 (Z.rem a b) = true.
Proof.
  rewrite !in_i128_spec. unfold i128_min, i128_max. intros Hb Ha.
  assert (Habs : Z.abs (Z.rem a b) <= Z.abs a).
  { rewrite <- Z.rem_abs by done. apply Z.rem_le; lia. }
  destruct (Z.le_gt_cases 0 a) as [Hp|Hn].
  - pose proof (Z.rem_nonneg a b Hb Hp). lia.
  - pose proof (Z.rem_nonpos a b Hb ltac:(lia)). lia.
Qed.

Lemma arith_in_range op x y n : in_i128 x = true -> in_i128 y = true -> arith op x y = Some n ->
  in_i128 n = true.
Proof.
  intros Hx Hy H. destruct op; cbn in H; try done;
    try (apply checked_Some in H as [-> H]; exact H).
  - unfold checked_div in H. case_decide; [done|]. by apply checked_Some in H as [-> H].
  - unfold checked_rem in H. repeat case_decide; try done. injection H as <-. by apply in_i128_rem.
  - injection H as <-. apply in_i128_bitop; [intros; apply Z.shiftr_land| |done|done].
    intros ? ? [-> | ->] [-> | ->]; cbn; auto.
  - injection H as <-. apply in_i128_bitop; [intros; apply Z.shiftr_lor| |done|done].
    intros ? ? [-> | ->] [-> | ->]; cbn; auto.
  - injection H as <-. apply in_i128_bitop; [intros; apply Z.shiftr_lxor| |done|done].
    intros ? ? [-> | ->] [-> | ->]; cbn; auto.
Qed.

(** ** Well-formed facts *)
Definition opt_within (lo hi : Z) (o : option Z) : Prop :=
  match o with Some n => lo <= n < hi | None => True end.
Definition opt_time (o : option (Z * Z)) : Prop :=
  match o with Some (s, n) => - 2 ^ 63 <= s < 2 ^ 63 /\ 0 <= n < 2 ^ 32 | None => True end.

(** The ranges of the source's field types. *)
Record wf_file (f : FileFacts) : Prop := {
  wff_size : opt_within 0 (2 ^ 64) (f_size f);
  wff_mtime : opt_time (f_mtime f);
  wff_ctime : opt_time (f_ctime f);
  wff_s3 : opt_time (f_s3_last_modified f);
  wff_mode : opt_within 0 (2 ^ 32) (f_mode f);
  wff_uid : opt_within 0 (2 ^ 32) (f_uid f);
  wff_gid : opt_within 0 (2 ^ 32) (f_gid f);
  wff_device : opt_within 0 (2 ^ 64) (f_device f);
  wff_inode : opt_within 0 (2 ^ 64) (f_inode f);
  wff_nlink : opt_within 0 (2 ^ 64) (f_nlink f)
}.

Definition wf_facts (k : Facts) : Prop :=
  match k with
  | Complete f => wf_file f
  | S3Listing size _ t => 0 <= size < 2 ^ 64 /\ opt_time t
  | Unread => True
  end.

Record wf_context (c : ContextValues) : Prop := {
  wfc_src : wf_facts (c_src c);
  wfc_dst : wf_facts (c_dst c);
  wfc_now : in_i128 (c_now c) = true
}.

(** The value has type [t], or is null. *)
Definition has_ty (v : Value) (t : Ty) : Prop := wf_value v = true /\ (value_ty v = t \/ v = VNull).

Lemma in_i128_small n : - 2 ^ 127 <= n < 2 ^ 127 -> in_i128 n = true.
Proof. intros H. apply in_i128_spec. unfold i128_min, i128_max. lia. Qed.

Lemma quantity_has_ty lo hi o t : is_quantity_ty t = true -> - 2 ^ 127 <= lo -> hi <= 2 ^ 127 ->
  opt_within lo hi o -> has_ty (quantity o t) t.
Proof.
  intros Ht Hlo Hhi Ho. destruct o as [n|]; cbn in *; split; cbn; auto.
  rewrite Ht, in_i128_small; [done|lia].
Qed.

Lemma nanos_has_ty o : opt_time o -> has_ty (quantity (nanos <$> o) TTimestamp) TTimestamp.
Proof.
  intros Ho. apply (quantity_has_ty (- 2 ^ 127) (2 ^ 127)); [done|lia|lia|].
  destruct o as [[s n]|]; cbn in *; [|done]. unfold nanos; cbn. lia.
Qed.

Lemma null_has_ty t : has_ty VNull t.
Proof. split; auto. Qed.

Lemma file_field_sound f path fld : wf_file f -> has_ty (file_field f path fld) (field_ty fld).
Proof.
  intros [S M C S3 Mo U G D I L]. destruct fld; cbn [file_field field_ty]; try (split; cbn; by auto).
  all: destruct (f_exists f); cbn [negb]; try apply null_has_ty.
  all: try (apply nanos_has_ty; assumption).
  all: try (eapply quantity_has_ty; [done| | |eassumption]; lia).
  - destruct (f_kind f); [split; cbn; by auto|apply null_has_ty].
  - destruct (f_link_target f); [split; cbn; by auto|apply null_has_ty].
Qed.

Lemma facts_field_sound k path fld : wf_facts k ->
  match facts_field k path fld with
  | Ok v => has_ty v (field_ty fld)
  | Err e => e = NeedMetadata
  end.
Proof.
  intros W. destruct k as [f|size dm t|].
  - cbn. by apply file_field_sound.
  - destruct W as [Hs Ht]. destruct fld; cbn; try done; try (split; cbn; by auto).
    + split; cbn; [apply in_i128_small; lia|auto].
    + by apply nanos_has_ty.
  - destruct fld; cbn; try done; split; cbn; by auto.
Qed.

(** ** Values and their types *)
Lemma has_ty_nonnull v t : has_ty v t -> v <> VNull -> wf_value v = true /\ value_ty v = t.
Proof. intros [W [H|H]] Hn; [done|by destruct Hn]. Qed.

Lemma bool_inv v : has_ty v TBool -> v = VNull \/ exists b, v = VBool b.
Proof. intros [W [Ht| ->]]; [|by left]. right. destruct v as [b|s|n t|]; cbn in *; try done; [eauto|]. by subst t. Qed.

(** A quantity is what a value of a quantity type is. *)
Lemma quantity_inv v : wf_value v = true -> is_quantity_ty (value_ty v) = true ->
  exists n, v = VQuantity n (value_ty v) /\ in_i128 n = true.
Proof.
  destruct v as [b|s|n t|]; cbn; try done. intros [_ H]%andb_true_iff _. eauto.
Qed.

Lemma string_inv v : wf_value v = true -> value_ty v = TString -> exists s, v = VString s.
Proof. destruct v as [b|s|n t|]; cbn; try done; [eauto|]. intros H Ht. subst t. cbn in H. discriminate. Qed.

(** The shapes [binary_type] accepts. *)
Lemma binary_type_arith op a b t : binary_type op a b = Ok t ->
  match op with
  | And | Or | OEq | ONe => True
  | OLt | OLe | OGt | OGe => a = b /\ is_ordered a = true /\ t = TBool
  | _ => is_quantity_ty a = true /\ is_quantity_ty b = true /\ is_quantity_ty t = true
  end.
Proof. destruct op, a, b; intros H; vm_compute in H; try discriminate H; simplify_eq; vm_compute; auto. Qed.

(** [binary] past its equality and null cases. *)
Lemma binary_nonnull op a b : op <> OEq -> op <> ONe -> a <> VNull -> b <> VNull ->
  binary op a b =
    (ty ← binary_type op (value_ty a) (value_ty b);
     match (match a, b with
            | VQuantity x _, VQuantity y _ => Some (Z.compare x y)
            | VString x, VString y => Some (bytes_cmp x y)
            | _, _ => None
            end) ≫= order_holds op with
     | Some v => Ok (VBool v)
     | None =>
         match a, b with
         | VQuantity x _, VQuantity y _ =>
             match arith op x y with
             | Some n => Ok (VQuantity n ty)
             | None => bail "arithmetic overflow or division by zero"
             end
         | _, _ => bail "arithmetic requires quantities"
         end
     end).
Proof.
  intros H1 H2 Ha Hb. destruct op; try done; unfold binary; by rewrite !bool_decide_eq_false_2.
Qed.

Lemma binary_null op a b : op <> OEq -> op <> ONe -> a = VNull \/ b = VNull ->
  binary op a b = bail "field is unavailable; test it against null or use coalesce first".
Proof.
  intros H1 H2 Hn. assert (E : bool_decide (a = VNull) || bool_decide (b = VNull) = true).
  { apply orb_true_iff. rewrite !bool_decide_eq_true. done. }
  destruct op; try done; unfold binary; by rewrite E.
Qed.

(** ** Results

    A value of type [t] or null, or an error that [P] allows. *)
Definition yields (P : Error -> Prop) (r : res Value) (t : Ty) : Prop :=
  match r with Ok v => has_ty v t | Err e => P e end.

Lemma yields_VBool P b : yields P (Ok (VBool b)) TBool.
Proof. split; auto. Qed.

Lemma yields_bind P Q (r : res Value) (k : Value -> res Value) t t' :
  yields Q r t -> (forall e, r = Err e -> P e) -> (forall v, r = Ok v -> has_ty v t -> yields P (k v) t') -> yields P (r ≫= k) t'.
Proof. destruct r; cbn; auto. Qed.

Lemma yields_boolean P v (k : bool -> res Value) t :
  has_ty v TBool -> (v = VNull -> P (Bail "expected a boolean value")) -> (forall b, yields P (k b) t) ->
  yields P (boolean v ≫= k) t.
Proof. intros [->|[b ->]]%bool_inv Hn Hk; [by apply Hn|apply Hk]. Qed.

(** The exact result does not fit, or does not exist. *)
Definition unrepresentable (op : Op) (x y : Z) : Prop :=
  match op with
  | Add => in_i128 (x + y) = false
  | Sub => in_i128 (x - y) = false
  | Mul => in_i128 (x * y) = false
  | Div => y = 0 \/ in_i128 (Z.quot x y) = false
  | Rem => y = 0 \/ (x = i128_min /\ y = -1)
  | _ => False
  end.

Definition is_arithmetic (op : Op) : bool :=
  match op with Add | Sub | Mul | Div | Rem | BitAnd | BitOr | BitXor => true | _ => false end.

Lemma arith_None op x y : is_arithmetic op = true -> arith op x y = None -> unrepresentable op x y.
Proof.
  destruct op; cbn; try done; intros _; unfold checked, checked_div, checked_rem; repeat case_decide; try (by auto);
    unfold checked; destruct (in_i128 _); by auto.
Qed.

Lemma binary_sound P op a b ta tb t : op <> And -> op <> Or -> binary_type op ta tb = Ok t ->
  has_ty a ta -> has_ty b tb ->
  (op <> OEq -> op <> ONe -> a = VNull \/ b = VNull -> P (Bail "field is unavailable; test it against null or use coalesce first")) ->
  (forall x u y w, a = VQuantity x u -> b = VQuantity y w -> unrepresentable op x y -> P (Bail "arithmetic overflow or division by zero")) ->
  yields P (binary op a b) t.
Proof.
  intros Hna Hno Ht Ha Hb Hnull Hover.
  destruct (decide (op = OEq)) as [->|Ne].
  { cbn in Ht. destruct (common_type ta tb); cbn in Ht; simplify_eq. apply yields_VBool. }
  destruct (decide (op = ONe)) as [->|Nn].
  { cbn in Ht. destruct (common_type ta tb); cbn in Ht; simplify_eq. apply yields_VBool. }
  destruct (decide (a = VNull \/ b = VNull)) as [Hn|[Na Nb]%Decidable.not_or].
  { rewrite binary_null by done. by apply Hnull. }
  destruct (has_ty_nonnull _ _ Ha Na) as [Wa <-]. destruct (has_ty_nonnull _ _ Hb Nb) as [Wb <-].
  pose proof (binary_type_arith _ _ _ _ Ht) as Hs.
  rewrite binary_nonnull by done. rewrite Ht. cbn [mbind result_bind].
  destruct (order_holds op Eq) as [v0|] eqn:Eo.
  - assert (Hord : value_ty a = value_ty b /\ is_ordered (value_ty a) = true /\ t = TBool)
      by (destruct op; done).
    destruct Hord as (Et & Hor & ->).
    assert (Hok : forall c, exists v, order_holds op c = Some v) by (intros c; destruct op; done || (cbn; eauto)).
    destruct (decide (value_ty a = TString)) as [Es|Es].
    + destruct (string_inv a Wa Es) as [x ->]. destruct (string_inv b Wb) as [y ->]; [congruence|].
      cbn [mbind option_bind]. destruct (Hok (bytes_cmp x y)) as [v ->]. apply yields_VBool.
    + assert (Qa : is_quantity_ty (value_ty a) = true) by (by destruct (value_ty a)).
      destruct (quantity_inv a Wa Qa) as (x & -> & _).
      destruct (quantity_inv b Wb) as (y & -> & _); [by rewrite <- Et|].
      cbn [mbind option_bind]. destruct (Hok (x ?= y)) as [v ->]. apply yields_VBool.
  - assert (Hq : is_quantity_ty (value_ty a) = true /\ is_quantity_ty (value_ty b) = true /\
                 is_quantity_ty t = true) by (destruct op; done).
    destruct Hq as (Qa & Qb & Qt). assert (Hno' : forall c, order_holds op c = None) by (intros c; destruct op; done).
    destruct (quantity_inv a Wa Qa) as (x & Hx & Rx). destruct (quantity_inv b Wb Qb) as (y & Hy & Ry).
    rewrite Hx, Hy. cbn [mbind option_bind]. rewrite Hno'. destruct (arith op x y) as [n|] eqn:Ea.
    + split; cbn; [|auto]. by rewrite Qt, (arith_in_range op x y n Rx Ry Ea).
    + eapply Hover; [exact Hx|exact Hy|]. apply arith_None; [by destruct op|done].
Qed.

(** ** Type soundness *)
Section Sound.
Context {Regex : Type} (is_match : Regex -> list Z -> bool).
Abbreviation node := (Node Regex).

(** Every literal is a well-formed value. *)
Fixpoint wf_node (n : node) : bool :=
  match n with
  | Literal v => wf_value v
  | NField _ _ | Now => true
  | Not n | Negative n | Pattern n _ => wf_node n
  | Binary _ a b | Coalesce a b => wf_node a && wf_node b
  | Between a b c | If a b c => wf_node a && wf_node b && wf_node c
  | In a items => wf_node a && forallb wf_node items
  end.

Definition children (n : node) : list node :=
  match n with
  | Literal _ | NField _ _ | Now => []
  | Not n | Negative n | Pattern n _ => [n]
  | Binary _ a b | Coalesce a b => [a; b]
  | Between a b c | If a b c => [a; b; c]
  | In a items => a :: items
  end.

(** [m] is [n] or lies within it. *)
Inductive part_of (m : node) : node -> Prop :=
| part_here : part_of m m
| part_child a n : a ∈ children n -> part_of m a -> part_of m n.

Lemma common_type_has_ty a b t v : common_type a b = Ok t ->
  (has_ty v a -> has_ty v t) /\ (has_ty v b -> has_ty v t).
Proof.
  unfold common_type. case_decide as Ha; [intros [= <-]|].
  { subst a. split; [|done]. intros [W [H| ->]]; [|apply null_has_ty]. split; [done|].
    right. destruct v; cbn in *; try done. by subst. }
  destruct (_ || _) eqn:E; [|done]. intros [= <-]. split; [done|].
  apply orb_true_iff in E as [E%bool_decide_eq_true|E%bool_decide_eq_true]; [|by subst].
  subst b. intros [W [H| ->]]; [|apply null_has_ty]. split; [done|].
  right. destruct v; cbn in *; try done. by subst.
Qed.

Lemma require_msg_Ok b m u : require_msg b m = Ok u -> b = true.
Proof. by destruct b. Qed.

Lemma in_types (a : node) (items : list node) t :
  (fix go (l : list node) : res Ty :=
     match l with
     | [] => Ok TBool
     | b :: l' => ta ← ty a; tb ← ty b; _ ← binary_type OEq ta tb; go l'
     end) items = Ok t ->
  t = TBool /\ (forall b, b ∈ items -> exists tb, ty b = Ok tb) /\
  (items <> [] -> exists ta, ty a = Ok ta).
Proof.
  induction items as [|b items IH]; intros H; [by simplify_eq; split_and!; [|set_solver|]|].
  destruct (ty a) as [ta|] eqn:Ea; cbn [mbind result_bind] in H; [|done].
  destruct (ty b) as [tb|] eqn:Eb; cbn [mbind result_bind] in H; [|done].
  destruct (binary_type OEq ta tb); cbn [mbind result_bind] in H; [|done].
  apply IH in H as (-> & Hall & _). split_and!; [done| |eauto].
  intros x [->|Hx]%elem_of_cons; eauto.
Qed.

(** One bind of a typing equation. *)
Ltac ty_bind H E :=
  match type of H with
  | ?x ≫= _ = Ok _ => destruct x eqn:E; cbn [mbind result_bind] in H; [|discriminate H]
  end.
Ltac parts := repeat match goal with H : _ && _ = true |- _ => apply andb_true_iff in H as [? H] end.

Context (c : ContextValues).

(** ** Why an expression that was type checked fails

    An operand it looked at is null, so the field it comes from is unavailable;
    or the exact result of its arithmetic does not fit.  The operand of a
    membership test in an empty list is not type checked at all. *)
Definition null (n : node) : Prop := eval is_match c n = Ok VNull.

Definition blamed (n : node) : Prop :=
  match n with
  | Not a | Pattern a _ => null a
  | Negative a => null a \/ exists x t, eval is_match c a = Ok (VQuantity x t) /\ in_i128 (- x) = false
  | Binary op a b =>
      op <> OEq /\ op <> ONe /\ (null a \/ null b) \/
      exists x t y u, eval is_match c a = Ok (VQuantity x t) /\ eval is_match c b = Ok (VQuantity y u) /\ unrepresentable op x y
  | Between a b d => null a \/ null b \/ null d
  | If cond _ _ => null cond
  | In _ [] => True
  | _ => False
  end.

(** The failure is that of a part which is to blame for it, or metadata was
    not read. *)
Definition excused (n : node) (e : Error) : Prop :=
  e = NeedMetadata \/ exists m, part_of m n /\ eval is_match c m = Err e /\ blamed m.

(** The same, one step at a time. *)
Definition locally (n : node) (e : Error) : Prop :=
  e = NeedMetadata \/ blamed n \/ exists a, a ∈ children n /\ eval is_match c a = Err e.

Lemma locally_child n a e : a ∈ children n -> eval is_match c a = Err e -> locally n e.
Proof. right; right. eauto. Qed.
Lemma locally_blamed n e : blamed n -> locally n e.
Proof. by right; left. Qed.

Definition sound_at (n : node) : Prop :=
  forall t, wf_node n = true -> ty n = Ok t -> yields (excused n) (eval is_match c n) t.

(** Evaluates the first operand; its failure is a child's. *)
Ltac operand IH :=
  eapply yields_bind; [by apply IH|intros ? He; eapply locally_child, He; cbn [children]; set_solver|].

Lemma sound_not n t : sound_at n -> wf_node (Not n) = true -> ty (Not n) = Ok t -> yields (locally (Not n)) (eval is_match c (Not n)) t.
Proof.
  intros IH W T. cbn [wf_node ty] in *. ty_bind T E. ty_bind T E'. injection T as <-.
  apply require_msg_Ok, bool_decide_eq_true in E'. subst. cbn [eval]. operand IH. intros v Ev Hv.
  apply yields_boolean; [done|intros ->; by apply locally_blamed|]. intros. apply yields_VBool.
Qed.

Lemma sound_negative n t : sound_at n -> wf_node (Negative n) = true -> ty (Negative n) = Ok t ->
  yields (locally (Negative n)) (eval is_match c (Negative n)) t.
Proof.
  intros IH W T. cbn [wf_node ty] in *. ty_bind T E. ty_bind T E'. injection T as <-.
  apply require_msg_Ok in E'. cbn [eval]. operand IH. intros v Ev Hv.
  destruct (decide (v = VNull)) as [->|Hn]; [apply locally_blamed; by left|].
  destruct (has_ty_nonnull _ _ Hv Hn) as [Wv Tv]. destruct v as [bv|sv|x t|]; cbn in Wv, Tv; subst a; try done.
  destruct (checked (- x)) as [m|] eqn:Ec.
  - apply checked_Some in Ec as [-> Ec]. apply andb_true_iff in Wv as [Q _]. split; cbn; [by rewrite Q, Ec|auto].
  - apply locally_blamed. right. exists x, t. split; [done|]. unfold checked in Ec. by destruct (in_i128 (- x)).
Qed.

Lemma sound_logic (op : Op) a b t : op = And \/ op = Or -> sound_at a -> sound_at b -> wf_node (Binary op a b) = true ->
  ty (Binary op a b) = Ok t -> yields (locally (Binary op a b)) (eval is_match c (Binary op a b)) t.
Proof.
  intros Hop IHa IHb W T. cbn [wf_node ty] in *. parts. ty_bind T Ea. ty_bind T Eb.
  assert (t = TBool /\ a0 = TBool /\ a1 = TBool) as (-> & -> & ->).
  { destruct Hop as [-> | ->]; cbn in T; ty_bind T E; apply require_msg_Ok in E;
      apply andb_true_iff in E as [E1%bool_decide_eq_true E2%bool_decide_eq_true];
      injection T as <-; by subst. }
  assert (HB : yields (locally (Binary op a b)) (vb ← eval is_match c b; bb ← boolean vb; Ok (VBool bb)) TBool).
  { operand IHb. intros v Ev Hv.
    apply yields_boolean; [done|intros ->; apply locally_blamed; left; by destruct Hop as [-> | ->]; auto|]. intros. apply yields_VBool. }
  destruct Hop as [-> | ->]; cbn [eval]; operand IHa; intros v Ev Hv;
    (apply yields_boolean; [done|intros ->; apply locally_blamed; left; by auto|]); intros []; done || apply yields_VBool.
Qed.

Lemma sound_binary (op : Op) a b t : sound_at a -> sound_at b -> wf_node (Binary op a b) = true ->
  ty (Binary op a b) = Ok t -> yields (locally (Binary op a b)) (eval is_match c (Binary op a b)) t.
Proof.
  intros IHa IHb. destruct (decide (op = And \/ op = Or)) as [Hop|[Ha Ho]%Decidable.not_or]; [by apply sound_logic|].
  intros W T. cbn [wf_node ty] in *. parts. ty_bind T Ea. ty_bind T Eb.
  assert (Heq : eval is_match c (Binary op a b) =
    (va ← eval is_match c a; vb ← eval is_match c b; binary op va vb)) by (by destruct op).
  rewrite Heq. operand IHa. intros va Eva Hva. operand IHb. intros vb Evb Hvb.
  eapply binary_sound; [done|done|exact T|done|done|..].
  - intros H1 H2 Hn. apply locally_blamed. left. split_and!; [done|done|]. destruct Hn as [-> | ->]; [by left|by right].
  - intros x u y w -> -> Hu. apply locally_blamed. right. by exists x, u, y, w.
Qed.

Lemma in_sound P value ta (items : list node) : has_ty value ta -> Forall sound_at items ->
  forallb wf_node items = true -> (forall b, b ∈ items -> exists tb, ty b = Ok tb) ->
  (forall b e, b ∈ items -> eval is_match c b = Err e -> P e) ->
  yields P ((fix go (l : list node) : res Value :=
     match l with
     | [] => Ok (VBool false)
     | item :: l' =>
         vi ← eval is_match c item; e ← binary OEq value vi; hit ← boolean e;
         if (hit : bool) then Ok (VBool true) else go l'
     end) items) TBool.
Proof.
  intros Hv. induction 1 as [|b items Hb _ IH]; intros W T HP; [apply yields_VBool|].
  cbn in W. apply andb_true_iff in W as [W1 W2].
  destruct (T b ltac:(set_solver)) as [tb Hb']. eapply yields_bind; [by apply Hb|intros e; apply HP; set_solver|]. intros vi Evi Hvi.
  cbn [mbind result_bind binary boolean]. case_bool_decide; [apply yields_VBool|].
  apply IH; [done|set_solver|intros; eapply HP; [|done]; set_solver].
Qed.

Lemma sound_in a items t : sound_at a -> Forall sound_at items -> wf_node (In a items) = true -> ty (In a items) = Ok t ->
  yields (locally (In a items)) (eval is_match c (In a items)) t.
Proof.
  intros IHa IHi W T. cbn [wf_node ty] in *. parts.
  apply in_types in T as (-> & Hall & Hne). destruct (decide (items = [])) as [->|Hitems].
  { cbn [eval]. destruct (eval is_match c a) as [v|e]; [apply yields_VBool|]. by apply locally_blamed. }
  destruct (Hne Hitems) as [ta Hta]. cbn [eval]. operand IHa. intros v Ev Hv.
  eapply in_sound; [done..|]. intros b e Hb He. eapply locally_child; [|exact He]. cbn. set_solver.
Qed.

(** A comparison of well-typed operands, as a boolean. *)
Lemma compare_sound P op va vb ta tb t (k : bool -> res Value) t' :
  op = OGe \/ op = OLe -> binary_type op ta tb = Ok t -> has_ty va ta -> has_ty vb tb ->
  (va = VNull \/ vb = VNull -> forall e, P e) ->
  (forall b, yields P (k b) t') -> yields P (x ← binary op va vb; x ← boolean x; k x) t'.
Proof.
  intros Hop Ht Ha Hb Hn Hk.
  assert (t = TBool) as -> by (destruct Hop as [-> | ->]; by apply binary_type_arith in Ht as (_ & _ & ->)).
  destruct (decide (va = VNull \/ vb = VNull)) as [H|[Na Nb]%Decidable.not_or].
  { rewrite binary_null by (done || by destruct Hop as [-> | ->]). by apply Hn. }
  assert (exists b, binary op va vb = Ok (VBool b)) as [b ->]; [|apply Hk].
  assert (Hy : yields (fun _ => False) (binary op va vb) TBool).
  { eapply binary_sound; [by destruct Hop as [-> | ->]..|exact Ht|done|done|intros _ _ []; done|].
    intros x u y w -> -> Hu. by destruct Hop as [-> | ->]. }
  rewrite binary_nonnull in * by (done || by destruct Hop as [-> | ->]).
  destruct (binary_type op (value_ty va) (value_ty vb)); cbn [mbind result_bind] in *; [|done].
  destruct (_ ≫= order_holds op) as [v|] eqn:Eo; [eauto|]. exfalso.
  destruct va, vb; try done; destruct Hop as [-> | ->]; done.
Qed.

Lemma sound_between a b d t : sound_at a -> sound_at b -> sound_at d -> wf_node (Between a b d) = true ->
  ty (Between a b d) = Ok t -> yields (locally (Between a b d)) (eval is_match c (Between a b d)) t.
Proof.
  intros IHa IHb IHd W T. cbn [wf_node ty] in *. parts.
  ty_bind T Ea. ty_bind T Eb. ty_bind T E1. ty_bind T Ed. ty_bind T E2. injection T as <-. cbn [eval].
  operand IHa. intros va Eva Hva. operand IHb. intros vb Evb Hvb.
  eapply compare_sound; [by left|exact E1|done|done|intros Hn e; apply locally_blamed; destruct Hn as [-> | ->]; cbn; auto|].
  intros []; [|apply yields_VBool]. operand IHd. intros vd Evd Hvd.
  eapply compare_sound; [by right|exact E2|done|done|intros Hn e; apply locally_blamed; destruct Hn as [-> | ->]; cbn; auto|].
  intros. apply yields_VBool.
Qed.

Lemma sound_pattern n r t : sound_at n -> wf_node (Pattern n r) = true -> ty (Pattern n r) = Ok t ->
  yields (locally (Pattern n r)) (eval is_match c (Pattern n r)) t.
Proof.
  intros IH W T. cbn [wf_node ty] in *. ty_bind T E. ty_bind T E'. injection T as <-.
  apply require_msg_Ok, bool_decide_eq_true in E'. subst. cbn [eval]. operand IH. intros v Ev Hv.
  destruct (decide (v = VNull)) as [->|Hn]; [by apply locally_blamed|].
  destruct (has_ty_nonnull _ _ Hv Hn) as [Wv Tv]. destruct (string_inv v Wv Tv) as [s ->]. apply yields_VBool.
Qed.

Lemma yields_common P Q a b t (r : res Value) : common_type a b = Ok t -> (forall e, r = Err e -> Q e) ->
  yields P r a \/ yields P r b -> yields Q r t.
Proof.
  intros T HQ H. destruct r as [v|e]; [|by apply HQ]. destruct (common_type_has_ty a b t v T) as [H1 H2].
  destruct H; [by apply H1|by apply H2].
Qed.

Lemma sound_if cn a b t : sound_at cn -> sound_at a -> sound_at b -> wf_node (If cn a b) = true -> ty (If cn a b) = Ok t ->
  yields (locally (If cn a b)) (eval is_match c (If cn a b)) t.
Proof.
  intros IHc IHa IHb W T. cbn [wf_node ty] in *. parts.
  ty_bind T E. ty_bind T E'. apply require_msg_Ok, bool_decide_eq_true in E'. subst.
  ty_bind T Ea. ty_bind T Eb. cbn [eval]. operand IHc. intros v Ev Hv.
  apply yields_boolean; [done|intros ->; by apply locally_blamed|]. intros [].
  - eapply yields_common; [exact T|intros e; apply locally_child; set_solver|]. left. by apply IHa.
  - eapply yields_common; [exact T|intros e; apply locally_child; set_solver|]. right. by apply IHb.
Qed.

Lemma sound_coalesce a b t : sound_at a -> sound_at b -> wf_node (Coalesce a b) = true -> ty (Coalesce a b) = Ok t ->
  yields (locally (Coalesce a b)) (eval is_match c (Coalesce a b)) t.
Proof.
  intros IHa IHb W T. cbn [wf_node ty] in *. parts. ty_bind T Ea. ty_bind T Eb. cbn [eval].
  operand IHa. intros v Ev Hv. case_decide.
  - eapply yields_common; [exact T|intros e; apply locally_child; set_solver|]. right. by apply IHb.
  - by apply (proj1 (common_type_has_ty _ _ _ _ T)).
Qed.

(** The parts of an expression that was type checked were type checked, but for
    the operand of a membership test in an empty list. *)
Lemma ty_children n t a : ty n = Ok t -> a ∈ children n -> (exists t', ty a = Ok t') \/ n = In a [].
Proof.
  destruct n; cbn [ty children]; intros T Ha; try (by apply elem_of_nil in Ha).
  4:{ apply in_types in T as (_ & Hall & Hne). destruct items as [|b items].
      - apply list_elem_of_singleton in Ha as ->. by right.
      - left. apply elem_of_cons in Ha as [->|Ha]; [by apply Hne|by apply Hall]. }
  all: left; repeat (let E := fresh "E" in ty_bind T E); rewrite ?elem_of_cons, ?elem_of_nil in Ha; destruct_or?; subst; by eauto.
Qed.

Lemma wf_children n a : wf_node n = true -> a ∈ children n -> wf_node a = true.
Proof.
  destruct n; cbn [wf_node children]; intros W Ha; try (by apply elem_of_nil in Ha); parts;
    rewrite ?elem_of_cons, ?elem_of_nil in Ha; destruct_or?; subst; try done.
  rewrite forallb_forall in W. apply W. by apply list_elem_of_In.
Qed.

Lemma excused_of_local n t : wf_node n = true -> ty n = Ok t -> Forall sound_at (children n) ->
  yields (locally n) (eval is_match c n) t -> yields (excused n) (eval is_match c n) t.
Proof.
  intros W T IH Hy. destruct (eval is_match c n) as [v|e] eqn:En; cbn in *; [done|].
  assert (Hme : blamed n -> excused n e) by (right; exists n; split; [apply part_here|done]).
  destruct Hy as [->|[Hb|(a & Ha & Ea)]]; [by left|by apply Hme|].
  destruct (ty_children _ _ _ T Ha) as [[t' Ta]| ->]; [|by apply Hme].
  rewrite Forall_forall in IH. pose proof (IH a Ha t' (wf_children _ _ W Ha) Ta) as Hs. rewrite Ea in Hs.
  destruct Hs as [->|(m & Hm & Em & Hb)]; [by left|]. right. exists m. split; [by eapply part_child|done].
Qed.

Lemma eval_sound n : wf_context c -> sound_at n.
Proof.
  intros C. induction n using node_rect'; intros t W T;
    try (apply (excused_of_local _ t W T); [cbn [children]; auto|
      first [by apply sound_not|by apply sound_negative|by apply sound_binary|by apply sound_in
            |by apply sound_between|by apply sound_pattern|by apply sound_if|by apply sound_coalesce]]).
  - injection T as <-. split; auto.
  - injection T as <-. cbn [eval].
    pose proof (facts_field_sound (c_src c) (c_src_path c) f (wfc_src c C)) as Hs.
    pose proof (facts_field_sound (c_dst c) (c_dst_path c) f (wfc_dst c C)) as Hd.
    destruct d; [destruct (facts_field (c_dst c) _ f)|destruct (facts_field (c_src c) _ f)];
      cbn; try done; by left.
  - injection T as <-. split; cbn; [apply C|auto].
Qed.
End Sound.

(** ** Partial facts *)

(** What is known of a file agrees with its complete metadata: an S3 listing
    knows its size and service time and that the fields S3 never has are
    unavailable; unread facts say nothing. *)
Definition agrees (k : Facts) (f : FileFacts) : Prop :=
  match k with
  | Complete g => g = f
  | S3Listing size _ t =>
      f_exists f = true /\ f_size f = Some size /\ f_s3_last_modified f = t /\ f_ctime f = None /\
      f_device f = None /\ f_inode f = None /\ f_nlink f = None /\ f_link_target f = None
  | Unread => True
  end.

(** [r'] is [r], unless [r] stopped at metadata that was not read. *)
Definition refines {A} (r r' : res A) : Prop :=
  match r with Err NeedMetadata => True | _ => r' = r end.

Lemma refines_refl {A} (r : res A) : refines r r.
Proof. by destruct r as [|[]]. Qed.

Lemma refines_bind {A B} (r r' : res A) (k k' : A -> res B) :
  refines r r' -> (forall a, refines (k a) (k' a)) -> refines (r ≫= k) (r' ≫= k').
Proof. destruct r as [a|[m|]]; cbn; [intros -> H; apply H|by intros ->|done]. Qed.

Lemma refines_same {A B} (r : res A) (k k' : A -> res B) :
  (forall a, refines (k a) (k' a)) -> refines (r ≫= k) (r ≫= k').
Proof. apply refines_bind, refines_refl. Qed.

Lemma facts_field_agrees k f path fld : agrees k f ->
  refines (facts_field k path fld) (Ok (file_field f path fld)).
Proof.
  intros H. destruct k as [g|size dm t|]; [by destruct H| |by destruct fld].
  destruct H as (He & Hs & Ht & Hc & Hd & Hi & Hn & Hl).
  destruct fld; cbn; try done; by rewrite ?He, ?Hs, ?Ht, ?Hc, ?Hd, ?Hi, ?Hn, ?Hl.
Qed.

Section Known.
Context {Regex : Type} (is_match : Regex -> list Z -> bool) (c c' : ContextValues).
Context (Hsrc : forall f, refines (facts_field (c_src c) (c_src_path c) f)
                                  (facts_field (c_src c') (c_src_path c') f)).
Context (Hdst : forall f, refines (facts_field (c_dst c) (c_dst_path c) f)
                                  (facts_field (c_dst c') (c_dst_path c') f)).
Context (Hnow : c_now c' = c_now c).

Lemma eval_refines (n : Node Regex) : refines (eval is_match c n) (eval is_match c' n).
Proof using Hsrc Hdst Hnow.
  induction n as [v|d f| |n IH|n IH|op a b IHa IHb|a items IHa IHi|a b d IHa IHb IHd|n r IH
    |cn a b IHc IHa IHb|a b IHa IHb] using node_rect'; cbn [eval].
  - apply refines_refl.
  - destruct d; [apply Hdst|apply Hsrc].
  - by rewrite Hnow.
  - apply refines_bind; [done|]. intros v. apply refines_refl.
  - apply refines_bind; [done|]. intros v. apply refines_refl.
  - assert (HB : refines (vb ← eval is_match c b; bb ← boolean vb; Ok (VBool bb))
                         (vb ← eval is_match c' b; bb ← boolean vb; Ok (VBool bb)))
      by (apply refines_bind; [done|]; intros; apply refines_refl).
    destruct op; (apply refines_bind; [done|]); intros v; try (apply refines_same; intros []; done);
      (apply refines_bind; [done|]); intros w; apply refines_refl.
  - apply refines_bind; [done|]. intros v. induction IHi as [|b items Hb _ IH]; [done|].
    apply refines_bind; [done|]. intros vi. cbn [mbind result_bind binary boolean].
    case_bool_decide; [done|exact IH].
  - apply refines_bind; [done|]. intros va. apply refines_bind; [done|]. intros vb.
    apply refines_same. intros lo. apply refines_same. intros []; [|done].
    apply refines_bind; [done|]. intros. apply refines_refl.
  - apply refines_bind; [done|]. intros v. apply refines_refl.
  - apply refines_bind; [done|]. intros v. apply refines_same. by intros [].
  - apply refines_bind; [done|]. intros v. case_decide; [done|apply refines_refl].
Qed.
End Known.

(** ** Complete facts answer *)
Definition informed {A} (r : res A) : Prop := r <> Err NeedMetadata.

Lemma informed_bind {A B} (r : res A) (k : A -> res B) :
  informed r -> (forall a, informed (k a)) -> informed (r ≫= k).
Proof. unfold informed. destruct r; cbn; [auto|congruence]. Qed.

Lemma informed_Ok {A} (a : A) : informed (Ok a).
Proof. done. Qed.

Lemma informed_boolean v : informed (boolean v).
Proof. by destruct v. Qed.

Lemma informed_require b m : informed (require_msg b m).
Proof. by destruct b. Qed.

Lemma informed_common a b : informed (common_type a b).
Proof. unfold common_type. case_decide; [done|]. by destruct (_ || _). Qed.

Lemma informed_binary_type op a b : informed (binary_type op a b).
Proof.
  destruct op; cbn -[bool_decide is_ordered is_additive];
    try (apply informed_bind; [first [apply informed_require|apply informed_common]|done]);
    repeat case_match; done.
Qed.

Lemma informed_binary op a b : informed (binary op a b).
Proof.
  destruct (decide (op = OEq)) as [->|]; [done|]. destruct (decide (op = ONe)) as [->|]; [done|].
  destruct (decide (a = VNull \/ b = VNull)) as [Hn|[Ha Hb]%Decidable.not_or]; [by rewrite binary_null|].
  rewrite binary_nonnull by done. apply informed_bind; [apply informed_binary_type|]. intros t.
  destruct (_ ≫= order_holds op); [done|]. destruct a, b; try done. by destruct (arith _ _ _).
Qed.

Create HintDb informed.
#[export] Hint Resolve informed_bind informed_Ok informed_boolean informed_binary : informed.

Lemma eval_complete {Regex} (is_match : Regex -> list Z -> bool) (n : Node Regex) src dst sp dp now :
  informed (eval is_match (mkContext (Complete src) (Complete dst) sp dp now) n).
Proof.
  set (c := mkContext _ _ _ _ _).
  induction n as [v|d f| |n IH|n IH|op a b IHa IHb|a items IHa IHi|a b d IHa IHb IHd|n r IH
    |cn a b IHc IHa IHb|a b IHa IHb] using node_rect'; cbn [eval]; try done.
  - by destruct d.
  - eauto with informed.
  - apply informed_bind; [done|]. intros []; try done. by destruct (checked _).
  - destruct op; (apply informed_bind; [done|]); intros v;
      try (apply informed_bind; [apply informed_boolean|]; intros []); eauto with informed.
  - apply informed_bind; [done|]. intros v. induction IHi as [|b items Hb _ IH]; [done|].
    apply informed_bind; [done|]. intros vi. cbn [mbind result_bind binary boolean].
    case_bool_decide; [done|exact IH].
  - apply informed_bind; [done|]. intros va. apply informed_bind; [done|]. intros vb.
    apply informed_bind; [apply informed_binary|]. intros x. apply informed_bind; [apply informed_boolean|].
    intros []; eauto with informed.
  - apply informed_bind; [done|]. by intros [].
  - apply informed_bind; [done|]. intros v. apply informed_bind; [apply informed_boolean|]. by intros [].
  - apply informed_bind; [done|]. intros v. by case_decide.
Qed.

(** An expression that reads no destination field. *)
Section Source.
Context {Regex : Type}.

Fixpoint source_only (n : Node Regex) : bool :=
  match n with
  | Literal _ | Now => true
  | NField d _ => negb d
  | Not n | Negative n | Pattern n _ => source_only n
  | Binary _ a b | Coalesce a b => source_only a && source_only b
  | Between a b c | If a b c => source_only a && source_only b && source_only c
  | In a items => source_only a && forallb source_only items
  end.

(** Its value does not depend on what the destination is. *)
Lemma eval_source_only (is_match : Regex -> list Z -> bool) (n : Node Regex) src sp now dst dp dst' dp' :
  source_only n = true ->
  eval is_match (mkContext src dst sp dp now) n = eval is_match (mkContext src dst' sp dp' now) n.
Proof.
  set (c := mkContext src dst sp dp now). set (c' := mkContext src dst' sp dp' now).
  induction n as [v|d f| |n IH|n IH|op a b IHa IHb|a items IHa IHi|a b d IHa IHb IHd|n r IH
    |cn a b IHc IHa IHb|a b IHa IHb] using node_rect'; cbn [eval source_only]; intros S;
    try (by rewrite IH); try done.
  - by destruct d.
  - apply andb_true_iff in S as [Sa Sb]. rewrite (IHa Sa), (IHb Sb). done.
  - apply andb_true_iff in S as [Sa Si]. rewrite (IHa Sa).
    destruct (eval is_match c' a) as [v|e]; cbn [mbind result_bind]; [|done].
    induction IHi as [|b items Hb _ IH]; [done|]. cbn in Si. apply andb_true_iff in Si as [Sb Si].
    rewrite (Hb Sb), (IH Si). done.
  - apply andb_true_iff in S as [[Sa Sb]%andb_true_iff Sd]. by rewrite (IHa Sa), (IHb Sb), (IHd Sd).
  - apply andb_true_iff in S as [[Sa Sb]%andb_true_iff Sd]. by rewrite (IHc Sa), (IHa Sb), (IHb Sd).
  - apply andb_true_iff in S as [Sa Sb]. by rewrite (IHa Sa), (IHb Sb).
Qed.
End Source.
