(* ===== verification/ExprLex.v ===== *)
(** * The lexer (src/src/expression/parser.rs: [lex] and [number])

    Source text is a [&str]: a list of bytes that is valid UTF-8.  Slicing it
    off a character boundary is what [str::get] refuses.  A loop that is not
    structural takes fuel; running out, and a panic, is the outcome [Stuck]. *)

From stdpp Require Import strings.
From S2P Require Import Prelude Text Proto Expression.
Local Open Scope Z_scope.

(** ** Outcomes *)
Inductive outcome (A : Type) := Done (a : A) | Fail (e : Error) | Stuck.
Arguments Done {A} a.
Arguments Fail {A} e.
Arguments Stuck {A}.

#[export] Instance outcome_ret : MRet outcome := fun A a => Done a.
#[export] Instance outcome_bind : MBind outcome := fun A B f o =>
  match o with Done a => f a | Fail e => Fail e | Stuck => Stuck end.

Definition lift {A} (r : res A) : outcome A := match r with Ok a => Done a | Err e => Fail e end.
Definition fail_with {A} (m : string) : outcome A := Fail (Bail m).

Definition parse_i128 (radix : Z) (l : list Z) : option Z := from_str_radix true i128_min i128_max radix l.

(** ** Tokens *)
Inductive Token :=
| Word (w : list Z)
| TString (s : list Z)
| TNumber (s : list Z)
| Symbol (s : list Z)
| TEnd.

#[export] Instance Token_eq_dec : EqDecision Token.
Proof. solve_decision. Defined.

(** ** Quantities *)
Definition suffixes : list (string * (Z * Ty)) :=
  [ (""%string, (1, Expression.TNumber)); ("B"%string, (1, TSize));
    ("kB"%string, (1000, TSize)); ("KB"%string, (1000, TSize)); ("MB"%string, (1000000, TSize));
    ("GB"%string, (1000000000, TSize)); ("TB"%string, (1000000000000, TSize));
    ("KiB"%string, (Z.shiftl 1 10, TSize)); ("MiB"%string, (Z.shiftl 1 20, TSize));
    ("GiB"%string, (Z.shiftl 1 30, TSize)); ("TiB"%string, (Z.shiftl 1 40, TSize));
    ("ns"%string, (1, TDuration)); ("us"%string, (1000, TDuration)); ("ms"%string, (1000000, TDuration));
    ("s"%string, (1000000000, TDuration)); ("m"%string, (60000000000, TDuration));
    ("h"%string, (3600000000000, TDuration)); ("d"%string, (86400000000000, TDuration));
    ("w"%string, (604800000000000, TDuration)) ].

Definition number (s : list Z) : res Value :=
  match strip_prefix (bs "0o") s with
  | Some octal =>
      match parse_i128 8 octal with
      | Some n => Ok (VQuantity n Expression.TNumber)
      | None => bail "invalid octal number"
      end
  | None =>
      match strip_prefix (bs "0x") s with
      | Some hex =>
          match parse_i128 16 hex with
          | Some n => Ok (VQuantity n Expression.TNumber)
          | None => bail "invalid hexadecimal number"
          end
      | None =>
          let '(digits, suffix) := take_while (fun c => is_digit c || bool_decide (c = dot)) s in
          match match_name suffix suffixes with
          | None => bail "unknown quantity suffix"
          | Some (multiplier, t) =>
              let '(whole, fraction) := default (digits, []) (split_once dot digits) in
              _ ← require_msg (bool_decide (length fraction <= 18)%nat && bool_decide (dot ∉ fraction))
                    "invalid decimal quantity";
              let scale := 10 ^ Z.of_nat (length fraction) in
              match parse_i128 10 whole with
              | None => bail "invalid digit"
              | Some w =>
                  let f := if decide (fraction = []) then 0 else default (-1) (parse_i128 10 fraction) in
                  match (n ← checked (w * scale); n ← checked (n + f); checked (n * multiplier)) with
                  | None => bail "quantity overflow"
                  | Some n =>
                      _ ← require_msg (bool_decide (Z.rem n scale = 0))
                            "quantity must resolve to whole bytes, nanoseconds, or integers";
                      Ok (VQuantity (Z.quot n scale) t)
                  end
              end
          end
      end
  end.

(** ** Lexing *)
Definition backslash : Z := 92.

(** The body of a quoted literal, up to its closing quote. *)
Fixpoint lex_string (quote : Z) (rest value : list Z) : res (list Z * list Z) :=
  match rest with
  | [] => bail "unterminated string"
  | c :: rest =>
      if decide (c = quote) then Ok (value, rest)
      else if decide (c <> backslash) then lex_string quote rest (value ++ [c])
      else
        match rest with
        | [] => bail "unfinished escape"
        | c :: rest =>
            if bool_decide (c = backslash) || bool_decide (c = 39) || bool_decide (c = 34)
            then lex_string quote rest (value ++ [c])
            else if decide (c = 110) then lex_string quote rest (value ++ [10])
            else if decide (c = 114) then lex_string quote rest (value ++ [13])
            else if decide (c = 116) then lex_string quote rest (value ++ [9])
            else if decide (c = 120) then
              match rest with
              | a :: b :: rest' =>
                  if char_boundary rest && char_boundary rest' then
                    match parse_u8 16 [a; b] with
                    | Some v => lex_string quote rest' (value ++ [v])
                    | None => bail "invalid byte escape"
                    end
                  else bail "expected two hexadecimal digits after \x"
              | _ => bail "expected two hexadecimal digits after \x"
              end
            else bail "unknown string escape; escape a backslash as \\"
        end
  end.

Definition symbols : list string :=
  [ "=="; "!="; "<="; ">="; "<>"; "=~"; "="; "<"; ">"; "+"; "-"; "*"; "/"; "%"; "&"; "|"; "^";
    "("; ")"; "["; "]"; "," ]%string.

Fixpoint lex_symbol (syms : list string) (rest : list Z) : option (list Z * list Z) :=
  match syms with
  | [] => None
  | s :: syms' => match strip_prefix (bs s) rest with
                  | Some rest' => Some (bs s, rest')
                  | None => lex_symbol syms' rest
                  end
  end.

Definition is_quote (b : Z) : bool := bool_decide (b = 39) || bool_decide (b = 34).

(** [s[start..i]] panics when the end is not on a character boundary. *)
Definition slice_end (rest : list Z) : outcome unit := if char_boundary rest then Done tt else Stuck.

(** One token from a nonempty rest that starts with no white space. *)
Definition lex_token (b : Z) (rest : list Z) : outcome (Token * list Z) :=
  if is_quote b then '(v, rest) ← lift (lex_string b rest []); Done (TString v, rest)
  else if is_digit b then
    let '(w, rest) := take_while (fun c => is_alphanumeric c || bool_decide (c = dot)) rest in
    _ ← slice_end rest; Done (TNumber (b :: w), rest)
  else if is_alpha b || bool_decide (b = 95) then
    let '(w, rest) := take_while (fun c => is_alphanumeric c || bool_decide (c = 95) || bool_decide (c = dot)) rest in
    _ ← slice_end rest; Done (Word (b :: w), rest)
  else
    _ ← slice_end (b :: rest);
    match lex_symbol symbols (b :: rest) with
    | Some (s, rest) => Done (Symbol s, rest)
    | None => fail_with "unexpected character"
    end.

Fixpoint lex_loop (fuel : nat) (total : nat) (rest : list Z) (tokens : list (Token * nat))
  : outcome (list (Token * nat)) :=
  match rest with
  | [] => Done (tokens ++ [(TEnd, total)])
  | b :: rest' =>
      match fuel with
      | O => Stuck
      | S fuel' =>
          if is_whitespace b then lex_loop fuel' total rest' tokens else
            let start := (total - length rest)%nat in
            '(token, rest'') ← lex_token b rest';
            let tokens' := tokens ++ [(token, start)] in
            _ ← lift (require_msg (bool_decide (length tokens' <= 512)%nat) "expression exceeds 512 tokens");
            lex_loop fuel' total rest'' tokens'
      end
  end.

Definition lex (s : list Z) : outcome (list (Token * nat)) := lex_loop (length s) (length s) s [].
