(* ===== verification/ExprParse.v ===== *)
(** * The parser (src/src/expression/parser.rs: [Parser], [parse]) and the
    compilation entry points of src/src/expression/mod.rs

    A recursive-descent parser with precedence climbing over the token list.
    The recursion of [expression] is bounded by the source's own nesting limit
    of 64, its loops by the number of tokens; [ExprParseTotal] proves that this
    fuel is always enough.  The regular-expression and glob compilers and the
    RFC 3339 parser are library code: parameters of the section. *)

From stdpp Require Import strings.
From S2P Require Import Prelude Text Proto Expression ExprLex.
Local Open Scope Z_scope.

Record Parser := mkParser {
  tokens : list (Token * nat);
  at_ : nat;
  depth : nat;
  destination : bool
}.

(** A step of the parser: it may fail, and it threads [&mut self]. *)
Definition parser (A : Type) : Type := Parser -> outcome (A * Parser).
#[export] Instance parser_ret : MRet parser := fun A a p => Done (a, p).
#[export] Instance parser_bind : MBind parser := fun A B f m p => '(a, p') ← m p; f a p'.

Definition pfail {A} (m : string) : parser A := fun _ => fail_with m.
Definition plift {A} (r : res A) : parser A := fun p => a ← lift r; Done (a, p).
Definition prequire (b : bool) (m : string) : parser unit := plift (require_msg b m).

(** [self.tokens[self.at].0]; an index out of range panics. *)
Definition peek : parser Token := fun p =>
  match tokens p !! at_ p with Some (t, _) => Done (t, p) | None => Stuck end.

Definition take_token : parser Token := fun p =>
  '(v, p) ← peek p;
  if decide (v = TEnd) then Done (v, p)
  else Done (v, mkParser (tokens p) (S (at_ p)) (depth p) (destination p)).

Definition token_is (s : list Z) (t : Token) : bool :=
  match t with Word w | Symbol w => bool_decide (w = s) | _ => false end.

Definition is_next (s : string) : parser bool := t ← peek; mret (token_is (bs s) t).

Definition eat (s : string) : parser bool :=
  b ← is_next s;
  if (b : bool) then _ ← take_token; mret true else mret false.

Definition expect (s : string) : parser unit :=
  b ← eat s; prequire b ("expected " ++ s)%string.

Definition enter : parser unit := fun p =>
  Done (tt, mkParser (tokens p) (at_ p) (S (depth p)) (destination p)).
Definition leave : parser unit := fun p =>
  match depth p with
  | O => Stuck
  | S d => Done (tt, mkParser (tokens p) (at_ p) d (destination p))
  end.
Definition get_depth : parser nat := fun p => Done (depth p, p).
Definition get_destination : parser bool := fun p => Done (destination p, p).
(** How many rounds a loop of the parser may run. *)
Definition rounds : parser nat := fun p => Done (S (length (tokens p)), p).

(** ** Operators and their precedence *)
Definition word_operators : list (string * (Z * option Op)) :=
  [ ("or"%string, (1, Some Or)); ("and"%string, (2, Some And));
    ("in"%string, (3, None)); ("between"%string, (3, None)); ("glob"%string, (3, None));
    ("matches"%string, (3, None)); ("is"%string, (3, None)); ("not"%string, (3, None)) ].

Definition symbol_operators : list (string * (Z * option Op)) :=
  [ ("="%string, (3, Some OEq)); ("=="%string, (3, Some OEq)); ("!="%string, (3, Some ONe));
    ("<>"%string, (3, Some ONe)); ("<"%string, (3, Some OLt)); ("<="%string, (3, Some OLe));
    (">"%string, (3, Some OGt)); (">="%string, (3, Some OGe)); ("=~"%string, (3, None));
    ("|"%string, (4, Some BitOr)); ("^"%string, (5, Some BitXor)); ("&"%string, (6, Some BitAnd));
    ("+"%string, (7, Some Add)); ("-"%string, (7, Some Sub)); ("*"%string, (8, Some Mul));
    ("/"%string, (8, Some Div)); ("%"%string, (8, Some Rem)) ].

Definition operator (t : Token) : Z * option Op :=
  match t with
  | Word s => default (0, None) (match_name s word_operators)
  | Symbol s => default (0, None) (match_name s symbol_operators)
  | _ => (0, None)
  end.

Section Parsing.
Context {Regex : Type}.
(** [regex::bytes::RegexBuilder] with the one-megabyte size limit,
    [globset::GlobBuilder] with literal separators, and
    [time::OffsetDateTime::parse] with [unix_timestamp_nanos]. *)
Context (regex_build : list Z -> option Regex) (glob_regex : list Z -> option (list Z))
        (parse_rfc3339 : list Z -> option Z).
Abbreviation node := (Node Regex).

Definition or_fail {A} (o : option A) (m : string) : parser A :=
  match o with Some a => mret a | None => pfail m end.

Definition pattern (left : node) (glob : bool) : parser node :=
  t ← take_token;
  match t with
  | TString pattern =>
      _ ← prequire (utf8_valid pattern) "pattern must be UTF-8";
      pattern ← (if glob then or_fail (glob_regex pattern) "invalid glob" else mret pattern);
      regex ← or_fail (regex_build pattern) "invalid pattern";
      mret (Pattern left regex)
  | _ => pfail "pattern must be a quoted literal"
  end.

Section Level.
(** [expression], one level down. *)
Context (expr : Z -> parser node).

(** The items of [in], after the opening bracket and a first [eat(close)]. *)
Fixpoint items_loop (n : nat) (close : string) (items : list node) : parser (list node) :=
  match n with
  | O => fun _ => Stuck
  | S n =>
      item ← expr 0;
      let items := items ++ [item] in
      closed ← eat close;
      if (closed : bool) then mret items else _ ← expect ","; items_loop n close items
  end.

Definition in_items : parser (list node) :=
  bracket ← eat "[";
  close ← (if (bracket : bool) then mret "]"%string else _ ← expect "("; mret ")"%string);
  empty ← eat close;
  if (empty : bool) then mret [] else n ← rounds; items_loop n close [].

(** The operators that are not [Op]s. *)
Definition special_form (left : node) (negate : bool) (special : Token) : parser node :=
  let other := pfail "expected in, between, glob, or matches after not" in
  match special with
  | Word s =>
      if decide (s = bs "in") then items ← in_items; mret (In left items)
      else if decide (s = bs "between") then
        low ← expr 4; _ ← expect "and"; high ← expr 4; mret (Between left low high)
      else if bool_decide (s = bs "is") && negb negate then
        neg ← eat "not";
        _ ← expect "null";
        mret (Binary (if (neg : bool) then ONe else OEq) left (Literal VNull))
      else if bool_decide (s = bs "glob") || bool_decide (s = bs "matches") then
        pattern left (bool_decide (s = bs "glob"))
      else other
  | Symbol s => if bool_decide (s = bs "=~") && negb negate then pattern left false else other
  | _ => other
  end.

Fixpoint operator_loop (n : nat) (min : Z) (left : node) : parser node :=
  match n with
  | O => fun _ => Stuck
  | S n =>
      t ← peek;
      let '(precedence, op) := operator t in
      if bool_decide (precedence = 0) || bool_decide (precedence < min) then mret left else
        token ← take_token;
        match op with
        | Some op =>
            right ← expr (precedence + 1);
            operator_loop n min (Binary op left right)
        | None =>
            let negate := bool_decide (token = Word (bs "not")) in
            special ← (if negate then take_token else mret token);
            left ← special_form left negate special;
            operator_loop n min (if negate then Not left else left)
        end
  end.

Definition timestamp : parser node :=
  _ ← expect "(";
  t ← take_token;
  match t with
  | TString v =>
      _ ← expect ")";
      _ ← prequire (utf8_valid v) "invalid utf-8 sequence";
      time ← or_fail (parse_rfc3339 v) "invalid RFC 3339 timestamp (include a timezone)";
      mret (Literal (VQuantity time TTimestamp))
  | _ => pfail "timestamp requires a quoted RFC 3339 literal"
  end.

Definition conditional (is_if : bool) : parser node :=
  _ ← expect "(";
  a ← expr 0;
  _ ← expect ",";
  b ← expr 0;
  if is_if then
    _ ← expect ","; c ← expr 0; _ ← expect ")"; mret (If a b c)
  else _ ← expect ")"; mret (Coalesce a b).

Definition field_name (w : list Z) : parser node :=
  match split_once dot w with
  | None => pfail "expected src.FIELD, dst.FIELD, or a quoted string"
  | Some (side, field) =>
      _ ← prequire (bool_decide (side = bs "src") || bool_decide (side = bs "dst"))
            "field must start with src. or dst.";
      destination ← get_destination;
      _ ← prequire (negb (bool_decide (side = bs "dst")) || destination)
            "--where accepts source fields only; use --copy-if for destination conditions";
      f ← plift (Field_parse field);
      mret (NField (bool_decide (side = bs "dst")) f)
  end.

Definition prefix : parser node :=
  t ← take_token;
  let other := pfail "expected a value, field, or parenthesized expression" in
  match t with
  | TString v => mret (Literal (VString v))
  | TNumber v => v ← plift (number v); mret (Literal v)
  | Symbol s =>
      if decide (s = bs "(") then n ← expr 0; _ ← expect ")"; mret n
      else if decide (s = bs "-") then n ← expr 9; mret (Negative n)
      else other
  | Word w =>
      if decide (w = bs "not") then n ← expr 3; mret (Not n)
      else if bool_decide (w = bs "true") || bool_decide (w = bs "false")
      then mret (Literal (VBool (bool_decide (w = bs "true"))))
      else if decide (w = bs "null") then mret (Literal VNull)
      else if decide (w = bs "now") then mret Now
      else if decide (w = bs "timestamp") then timestamp
      else if bool_decide (w = bs "if") || bool_decide (w = bs "coalesce")
      then conditional (bool_decide (w = bs "if"))
      else field_name w
  | TEnd => other
  end.
End Level.

Fixpoint expression (fuel : nat) (min : Z) : parser node :=
  match fuel with
  | O => fun _ => Stuck
  | S fuel =>
      _ ← enter;
      d ← get_depth;
      _ ← prequire (bool_decide (d <= 64)%nat) "expression nesting exceeds 64 levels";
      left ← prefix (expression fuel);
      n ← rounds;
      left ← operator_loop (expression fuel) n min left;
      _ ← leave;
      mret left
  end.

Definition parse (text : list Z) (destination : bool) : outcome node :=
  _ ← lift (require_msg (bool_decide (Z.of_nat (length text) <= 65536)) "expression exceeds 64 KiB");
  tokens ← lex text;
  '(result, p) ← expression 65 0 (mkParser tokens 0 0 destination);
  '(t, _) ← peek p;
  _ ← lift (require_msg (bool_decide (t = TEnd)) "unexpected tokens after expression");
  Done result.

(** [Expression::compile]. *)
Definition compile (text : list Z) (destination : bool) : outcome (Expression Regex) :=
  root ← parse text destination;
  t ← lift (ty root);
  _ ← lift (require_msg (bool_decide (t = TBool)) "expression must produce a boolean");
  Done (mkExpression root).

Definition compile_option (text : option (list Z)) (destination : bool)
  : outcome (option (Expression Regex)) :=
  match text with
  | None => Done None
  | Some s => e ← compile s destination; Done (Some e)
  end.

(** [Policy::compile]; the clock is an argument, [None] before the epoch. *)
Definition Policy_compile (selection update : option (list Z)) (clock : option Z) : outcome (Policy Regex) :=
  selection ← compile_option selection false;
  update ← compile_option update true;
  match clock with
  | Some now => Done (mkPolicy selection update now)
  | None => fail_with "second time provided was later than self"
  end.
End Parsing.
