(* ===== verification/ExprTotal.v ===== *)
(** * The lexer and the parser always answer

    Every loop of the lexer and the parser ends within the fuel it is given and
    no index or slice panics: on valid UTF-8 text the outcome is a result or an
    error, never [Stuck].  Along the way the shape of what they produce: at
    most 512 tokens before the end marker, trees no larger than their tokens,
    well-formed literals, and no destination field in a source predicate. *)

From stdpp Require Import strings.
From S2P Require Import Prelude Text Proto Expression ExprSound ExprLex ExprParse.
Local Open Scope Z_scope.

(** ** Outcomes *)
Definition ok {A} (Q : A -> Prop) (o : outcome A) : Prop :=
  match o with Done a => Q a | Fail _ => True | Stuck => False end.

Lemma ok_mono {A} (Q R : A -> Prop) o : ok Q o -> (forall a, Q a -> R a) -> ok R o.
Proof. destruct o; cbn; auto. Qed.

Lemma ok_bind {A B} (Q : A -> Prop) (R : B -> Prop) (o : outcome A) (k : A -> outcome B) :
  ok Q o -> (forall a, Q a -> ok R (k a)) -> ok R (o ≫= k).
Proof. destruct o; cbn; auto. Qed.

Lemma ok_lift {A} (r : res A) : ok (fun a => r = Ok a) (lift r).
Proof. by destruct r. Qed.

(** ** The lexer *)
(** What a literal leaves is a strictly shorter valid suffix. *)
Lemma lex_string_suffix quote rest value v r : lex_string quote rest value = Ok (v, r) ->
  exists pre, rest = pre ++ quote :: r.
Proof.
  remember (length rest) as n eqn:En. revert rest value En.
  induction n as [n IH] using lt_wf_ind. intros rest value En.
  assert (Hrec : forall pre l value', rest = pre ++ l -> (length l < n)%nat ->
     lex_string quote l value' = Ok (v, r) -> exists pre, rest = pre ++ quote :: r).
  { intros pre l value' -> Hl H. destruct (IH (length l) Hl l value' eq_refl H) as [pre' ->].
    exists (pre ++ pre'). by rewrite <- app_assoc. }
  destruct rest as [|c rest]; [done|]. cbn [lex_string]. cbn in En. case_decide as Eq.
  { intros [= <- <-]. exists []. by subst. }
  case_decide as Eb; [apply (Hrec [c]); cbn; [done|lia]|].
  destruct rest as [|c2 rest]; [done|]. cbn in En.
  destruct (_ || _ || _); [apply (Hrec [c; c2]); cbn; [done|lia]|].
  do 3 (case_decide; [apply (Hrec [c; c2]); cbn; [done|lia]|]).
  case_decide; [|done]. destruct rest as [|a [|b rest']]; try done. cbn in En.
  destruct (_ && _); [|done]. destruct (parse_u8 16 [a; b]); [|done].
  apply (Hrec [c; c2; a; b]); cbn; [done|lia].
Qed.

Lemma lex_symbol_Some syms rest s r : lex_symbol syms rest = Some (s, r) ->
  exists name, name ∈ syms /\ s = bs name /\ rest = s ++ r.
Proof.
  induction syms as [|name syms IH]; [done|]. cbn. destruct (strip_prefix _ _) eqn:E.
  - intros [= <- <-]. exists name. split_and!; [set_solver|done|by apply strip_prefix_Some].
  - intros (name' & ? & ?)%IH. exists name'. split; [set_solver|done].
Qed.

Lemma symbols_ascii name : name ∈ symbols ->
  exists b l, bs name = b :: l /\ Forall (fun b => 0 <= b <= 127) (b :: l).
Proof.
  assert (E : forallb (fun s => match bs s with
     | [] => false | b :: l => forallb (within 0 127) (b :: l) end) symbols = true) by reflexivity.
  intros H%list_elem_of_In. rewrite forallb_forall in E. specialize (E name H).
  destruct (bs name) as [|b l]; [done|]. exists b, l. split; [done|]. apply Forall_forall. intros x Hx.
  apply within_spec. rewrite forallb_forall in E. by apply E, list_elem_of_In.
Qed.

Lemma utf8_after_word w l : Forall (fun b => 0 <= b <= 127) w -> utf8_valid (w ++ l) = true -> utf8_valid l = true.
Proof. induction 1; [done|]. cbn [app]. intros H'. apply IHForall. by eapply utf8_tail. Qed.

Lemma is_quote_ascii b : is_quote b = true -> 0 <= b <= 127.
Proof. unfold is_quote. rewrite orb_true_iff, !bool_decide_eq_true. lia. Qed.

(** A token is read, never [TEnd], and what is left is valid and shorter. *)
Lemma lex_token_ok b rest : utf8_valid (b :: rest) = true ->
  ok (fun tr => tr.1 <> TEnd /\ utf8_valid tr.2 = true /\ (length tr.2 <= length rest)%nat) (lex_token b rest).
Proof.
  intros Hv. unfold lex_token. destruct (is_quote b) eqn:Eq.
  { eapply ok_bind; [apply ok_lift|]. intros [v r] E. cbn.
    destruct (lex_string_suffix _ _ _ _ _ E) as [pre ->]. split_and!; [done| |rewrite length_app; cbn; lia].
    apply (utf8_after_ascii (b :: pre) b r); [done|by apply is_quote_ascii]. }
  assert (Hslice : forall w, utf8_valid w = true -> slice_end w = Done tt)
    by (intros w Hw; unfold slice_end; by rewrite utf8_boundary).
  assert (Hrun : forall f (mk : list Z -> Token), (forall w, mk w <> TEnd) -> 0 <= b <= 127 ->
    (forall c, f c = true -> 0 <= c <= 127) ->
    ok (fun tr => tr.1 <> TEnd /\ utf8_valid tr.2 = true /\ (length tr.2 <= length rest)%nat)
      (let '(w, rest) := take_while f rest in _ ← slice_end rest; Done (mk (b :: w), rest))).
  { intros f mk Hmk Hb Hf. pose proof (take_while_valid f rest Hf (utf8_tail _ _ Hv Hb)) as Hr.
    pose proof (take_while_app f rest) as Ha. destruct (take_while f rest) as [w r]. cbn in Hr, Ha.
    rewrite (Hslice r Hr). cbn. split_and!; [apply Hmk|done|]. rewrite <- Ha, length_app. lia. }
  destruct (is_digit b) eqn:Ed.
  { apply (Hrun _ TNumber); [done|by apply ascii_digit|]. intros c. unfold is_alphanumeric, dot.
    rewrite !orb_true_iff, bool_decide_eq_true. intros [[H|H]|H]; [by apply ascii_digit|by apply ascii_alpha|lia]. }
  destruct (is_alpha b || bool_decide (b = 95)) eqn:Ea.
  { apply (Hrun _ Word); [done| |].
    - apply orb_true_iff in Ea as [Ea|Ea%bool_decide_eq_true]; [by apply ascii_alpha|lia].
    - intros c. unfold is_alphanumeric, dot. rewrite !orb_true_iff, !bool_decide_eq_true.
      intros [[[H|H]|H]|H]; [by apply ascii_digit|by apply ascii_alpha|lia|lia]. }
  rewrite (Hslice (b :: rest) Hv). cbn [mbind outcome_bind].
  destruct (lex_symbol symbols (b :: rest)) as [[s r]|] eqn:Es; [|done].
  destruct (lex_symbol_Some _ _ _ _ Es) as (name & Hn & -> & Er).
  destruct (symbols_ascii name Hn) as (x & l & En & Ha). rewrite En in Er |- *. cbn. split_and!; [done| |].
  - rewrite Er in Hv. by eapply utf8_after_word.
  - injection Er as _ ->. rewrite length_app. lia.
Qed.

(** A token list: at most [n] tokens, then the end marker. *)
Definition token_list (n : nat) (ts : list (Token * nat)) : Prop :=
  exists body pos, ts = body ++ [(TEnd, pos)] /\ Forall (fun t => t.1 <> TEnd) body /\ (length body <= n)%nat.

Lemma is_whitespace_ascii b : is_whitespace b = true -> 0 <= b <= 127.
Proof. unfold is_whitespace. rewrite !orb_true_iff, !bool_decide_eq_true. lia. Qed.

Lemma lex_loop_ok fuel total rest ts : utf8_valid rest = true -> (length rest <= fuel)%nat ->
  Forall (fun t => t.1 <> TEnd) ts -> (length ts <= 512)%nat ->
  ok (token_list 512) (lex_loop fuel total rest ts).
Proof.
  revert rest ts. induction fuel as [|fuel IH]; intros [|b rest] ts Hv Hf Ht Hl; cbn [lex_loop];
    try (exists ts, total; by auto); [cbn in Hf; lia|]. cbn in Hf.
  destruct (is_whitespace b) eqn:Ew.
  { apply IH; [|lia|done..]. by eapply utf8_tail, is_whitespace_ascii. }
  eapply ok_bind; [by apply lex_token_ok|]. intros [t r] (Hn & Hr & Hlen). cbn [fst snd] in *.
  eapply ok_bind; [apply ok_lift|]. intros [] Hq%require_msg_Ok%bool_decide_eq_true.
  apply IH; [done|lia| |done]. apply Forall_app. split; [done|]. by constructor.
Qed.

Lemma lex_ok text : utf8_valid text = true -> ok (token_list 512) (lex text).
Proof. intros H. apply lex_loop_ok; [done|lia|constructor|cbn; lia]. Qed.

(** ** Numbers *)
Lemma suffixes_quantity m t : (m, t) ∈ suffixes.*2 -> is_quantity_ty t = true.
Proof.
  intros H. assert (E : forallb (fun p => is_quantity_ty p.2) suffixes.*2 = true) by reflexivity.
  rewrite forallb_forall in E. by apply (E (m, t)), list_elem_of_In.
Qed.

Lemma in_i128_quot n d : 0 < d -> in_i128 n = true -> in_i128 (Z.quot n d) = true.
Proof.
  rewrite !in_i128_spec. intros Hd [H1 H2]. split.
  - etransitivity; [|apply (Z.quot_le_mono i128_min n d Hd H1)]. unfold i128_min.
    rewrite Z.quot_opp_l by lia. pose proof (Z.quot_le_upper_bound (2 ^ 127) d (2 ^ 127) Hd). nia.
  - etransitivity; [apply (Z.quot_le_mono n i128_max d Hd H2)|].
    apply Z.quot_le_upper_bound; [done|]. unfold i128_max. nia.
Qed.

Lemma number_wf s v : number s = Ok v -> wf_value v = true.
Proof.
  unfold number. destruct (strip_prefix _ s) as [o|].
  { destruct (parse_i128 8 o) eqn:E; [|done]. intros [= <-]. cbn. apply in_i128_spec.
    by eapply from_str_radix_range. }
  destruct (strip_prefix _ s) as [h|].
  { destruct (parse_i128 16 h) eqn:E; [|done]. intros [= <-]. cbn. apply in_i128_spec.
    by eapply from_str_radix_range. }
  destruct (take_while _ s) as [digits suffix]. destruct (match_name suffix suffixes) as [[m t]|] eqn:Es; [|done].
  destruct (default _ _) as [whole fraction]. destruct (require_msg _ _); cbn [mbind result_bind]; [|done].
  destruct (parse_i128 10 whole) as [w|]; [|done].
  destruct (w' ← checked _; _) as [n|] eqn:En; [|done].
  destruct (require_msg _ _); cbn [mbind result_bind]; [|done]. intros [= <-]. cbn.
  apply match_name_elem, suffixes_quantity in Es. rewrite Es. cbn.
  apply in_i128_quot; [apply Z.pow_pos_nonneg; lia|].
  destruct (checked _) as [n1|]; cbn in En; [|done]. destruct (checked (_ + _)) as [n2|]; cbn in En; [|done].
  by apply checked_Some in En as [-> ?].
Qed.

(** ** Steps of the parser *)

(** The tokens end with the end marker and the cursor is on one of them. *)
Definition Pinv (p : Parser) : Prop := token_list 512 (tokens p) /\ (at_ p < length (tokens p))%nat.

Record adv (p p' : Parser) : Prop := {
  adv_tokens : tokens p' = tokens p;
  adv_destination : destination p' = destination p;
  adv_depth : depth p' = depth p;
  adv_at : (at_ p <= at_ p')%nat;
  adv_inv : Pinv p'
}.

Lemma adv_refl p : Pinv p -> adv p p.
Proof. by split. Qed.

Lemma adv_trans p q r : adv p q -> adv q r -> adv p r.
Proof. intros [] []. split; congruence || lia || done. Qed.

Definition runs {A} (m : parser A) (p : Parser) (Q : A -> Parser -> Prop) : Prop :=
  ok (fun ap => Q ap.1 ap.2) (m p).

Lemma runs_mono {A} (m : parser A) p (Q R : A -> Parser -> Prop) :
  runs m p Q -> (forall a p', Q a p' -> R a p') -> runs m p R.
Proof. intros H HQ. eapply ok_mono; [exact H|]. intros [a p']. apply HQ. Qed.

Lemma runs_bind {A B} (m : parser A) (k : A -> parser B) p Q (R : B -> Parser -> Prop) :
  runs m p Q -> (forall a p', Q a p' -> runs (k a) p' R) -> runs (m ≫= k) p R.
Proof. intros H HQ. eapply ok_bind; [exact H|]. intros [a p']. apply HQ. Qed.

Lemma runs_ret {A} (a : A) p (Q : A -> Parser -> Prop) : Q a p -> runs (mret a) p Q.
Proof. done. Qed.

Lemma runs_fail {A} m p (Q : A -> Parser -> Prop) : runs (pfail m) p Q.
Proof. done. Qed.

Lemma runs_lift {A} (r : res A) p : runs (plift r) p (fun a p' => r = Ok a /\ p' = p).
Proof. by destruct r. Qed.

Lemma runs_require b m p : runs (prequire b m) p (fun _ p' => b = true /\ p' = p).
Proof. eapply runs_mono; [apply runs_lift|]. intros [] p' [H%require_msg_Ok ->]. done. Qed.

Lemma runs_or_fail {A} (o : option A) m p : runs (or_fail o m) p (fun a p' => o = Some a /\ p' = p).
Proof. by destruct o. Qed.

Lemma Pinv_lookup p : Pinv p -> exists t pos, tokens p !! at_ p = Some (t, pos) /\
  (t <> TEnd -> (S (at_ p) < length (tokens p))%nat).
Proof.
  intros [(body & pos & E & Hb & _) Hlt]. destruct (lookup_lt_is_Some_2 _ _ Hlt) as [[t ps] Ht].
  exists t, ps. split; [done|]. intros Hn. rewrite E in Hlt, Ht |- *. rewrite length_app in *. cbn in *.
  rewrite lookup_app in Ht. destruct (body !! at_ p) eqn:Eb; [apply lookup_lt_Some in Eb; lia|].
  apply list_lookup_singleton_Some in Ht as [_ [= <- <-]]. done.
Qed.

Lemma runs_peek p : Pinv p -> runs peek p (fun t p' => p' = p /\ exists pos, tokens p !! at_ p = Some (t, pos)).
Proof.
  intros H. destruct (Pinv_lookup p H) as (t & pos & Ht & _). unfold runs, peek. rewrite Ht. cbn. eauto.
Qed.

Lemma runs_take p : Pinv p -> runs take_token p (fun t p' => adv p p' /\
  (t <> TEnd -> (at_ p < at_ p')%nat) /\ exists pos, tokens p !! at_ p = Some (t, pos)).
Proof.
  intros H. destruct (Pinv_lookup p H) as (t & pos & Ht & Hn). unfold runs, take_token, peek. rewrite Ht. cbn.
  case_decide as E; cbn; (split; [|split; [|eauto]]).
  - by apply adv_refl.
  - done.
  - destruct H as [H1 H2]. split; cbn; [done..|lia|]. split; cbn; auto.
  - intros _. lia.
Qed.

Lemma runs_eat s p : Pinv p ->
  runs (eat s) p (fun b p' => adv p p' /\ (b = true -> (at_ p < at_ p')%nat)).
Proof.
  intros H. unfold eat, is_next. eapply runs_bind.
  { eapply runs_bind; [by apply runs_peek|]. intros t p' [-> Ht]. apply (runs_ret _ _ (fun b q => q = p /\
      (b = true -> exists t pos, t <> TEnd /\ tokens p !! at_ p = Some (t, pos)))).
    split; [done|]. destruct Ht as [pos Ht]. intros E. exists t, pos. by destruct t. }
  intros b p' [-> Hb]. destruct b; [|apply runs_ret; split; [by apply adv_refl|done]].
  eapply runs_bind; [by apply runs_take|]. intros t p' (Ha & Hlt & pos & Ht). apply runs_ret.
  split; [done|]. intros _. apply Hlt. destruct Hb as (t' & pos' & Hn & Ht'); [done|]. congruence.
Qed.

Lemma runs_expect s p : Pinv p -> runs (expect s) p (fun _ p' => adv p p' /\ (at_ p < at_ p')%nat).
Proof.
  intros H. eapply runs_bind; [by apply runs_eat|]. intros b p' [Ha Hb].
  eapply runs_mono; [apply runs_require|]. intros [] ? [-> ->]. auto.
Qed.

(** ** Trees *)
Section Trees.
Context {Regex : Type} (regex_build : list Z -> option Regex) (glob_regex : list Z -> option (list Z))
        (parse_rfc3339 : list Z -> option Z).
(** [unix_timestamp_nanos] is an [i128]. *)
Context (rfc3339_i128 : forall s n, parse_rfc3339 s = Some n -> in_i128 n = true).
Abbreviation node := (Node Regex).

Fixpoint node_size (n : node) : nat :=
  match n with
  | Literal _ | NField _ _ | Now => 1
  | Not n | Negative n | Pattern n _ => S (node_size n)
  | Binary _ a b | Coalesce a b => S (node_size a + node_size b)
  | Between a b c | If a b c => S (node_size a + node_size b + node_size c)
  | In a items => S (node_size a + sum_list_with node_size items)
  end.

Lemma node_size_pos n : (1 <= node_size n)%nat.
Proof. destruct n; cbn; lia. Qed.

(** Between [p] and [p'] the parser read the tokens of [n], and [k] more. *)
Record built (k : nat) (p : Parser) (n : node) (p' : Parser) : Prop := {
  bu_adv : adv p p';
  bu_wf : wf_node n = true;
  bu_source : destination p = false -> source_only n = true;
  bu_size : (at_ p + node_size n + k <= at_ p')%nat
}.

Record built_items (p : Parser) (items : list node) (p' : Parser) : Prop := {
  bi_adv : adv p p';
  bi_wf : forallb wf_node items = true;
  bi_source : destination p = false -> forallb source_only items = true;
  bi_size : (at_ p + sum_list_with node_size items <= at_ p')%nat
}.

(** Chains the facts about the cursor; proves [built] of a composed tree. *)
Ltac chain :=
  repeat match goal with
  | H : built _ ?p _ ?q |- _ => destruct H
  | H : built_items ?p _ ?q |- _ => destruct H
  | H : _ /\ _ |- _ => destruct H
  end;
  repeat match goal with
  | H1 : adv ?p ?q, H2 : adv ?q ?r |- _ =>
      lazymatch goal with
      | _ : adv p r |- _ => fail
      | _ => pose proof (adv_trans p q r H1 H2)
      end
  end;
  repeat match goal with
  | H : adv ?p ?q |- _ =>
      lazymatch goal with
      | _ : destination q = destination p |- _ => fail
      | _ => pose proof (adv_destination p q H); pose proof (adv_at p q H); pose proof (adv_depth p q H)
      end
  end.

Ltac booleans :=
  repeat match goal with
  | H : ?a = false -> _, E : ?a = false |- _ => specialize (H E)
  | H : destination ?q = false -> _, E : destination ?q = destination ?p, F : destination ?p = false |- _ =>
      specialize (H (eq_trans E F))
  end;
  repeat match goal with H : _ = true |- _ => rewrite H end.

Ltac build :=
  chain; split; [done|cbn; booleans; done|intros ?; cbn; booleans; done
                |cbn [node_size sum_list_with]; rewrite ?node_size_pos; lia].

Ltac pinv := first [done | eapply adv_inv; eassumption].

Definition expr_spec (expr : Z -> parser node) (d : nat) : Prop :=
  forall min p, Pinv p -> depth p = d -> runs (expr min) p (built 0 p).

Lemma runs_pattern k p0 left glob p q : built 0 p0 left p -> adv p q -> (at_ p + k < at_ q)%nat ->
  runs (pattern regex_build glob_regex left glob) q (fun n r => built k p0 n r /\ adv q r).
Proof.
  intros Hl Hq Hlt. unfold pattern. eapply runs_bind; [apply runs_take; pinv|]. intros t r (Ha & _ & _).
  destruct t; try apply runs_fail. eapply runs_bind; [apply runs_require|]. intros [] ? [_ ->].
  eapply (runs_bind _ _ _ (fun _ s => s = r)).
  { destruct glob; [|done]. eapply runs_mono; [apply runs_or_fail|]. by intros ? ? [_ ->]. }
  intros pat ? ->. eapply runs_bind; [apply runs_or_fail|]. intros re ? [_ ->]. apply runs_ret. split; [build|done].
Qed.

Section Level.
Context (expr : Z -> parser node) (d : nat) (Hexpr : expr_spec expr d).

Lemma runs_items n close items p0 p : built_items p0 items p -> depth p = d ->
  (length (tokens p) - at_ p <= n)%nat -> runs (items_loop expr n close items) p (built_items p0).
Proof using Hexpr.
  revert items p. induction n as [|n IH]; intros items p Hi Hd Hn.
  { destruct (adv_inv _ _ (bi_adv _ _ _ Hi)) as [_ ?]. lia. }
  cbn [items_loop]. eapply runs_bind; [apply Hexpr; [eapply adv_inv, bi_adv; eassumption|done]|].
  intros item p1 H1.
  eapply runs_bind; [apply runs_eat; eapply adv_inv, bu_adv; eassumption|]. intros closed p2 [H2 _].
  assert (Hi2 : built_items p0 (items ++ [item]) p2).
  { chain. split; [done| | |].
    - rewrite forallb_app. cbn. booleans. done.
    - intros ?. rewrite forallb_app. cbn. booleans. done.
    - rewrite sum_list_with_app. cbn. lia. }
  destruct closed; [by apply runs_ret|].
  eapply runs_bind; [apply runs_expect; pinv|]. intros [] p3 [H3 Hlt].
  pose proof (node_size_pos item). apply IH.
  - chain. by split; [|..|lia].
  - chain. congruence.
  - chain. rewrite (adv_tokens p p3) by done. lia.
Qed.

Lemma runs_in_items p : Pinv p -> depth p = d -> runs (in_items expr) p (built_items p).
Proof using Hexpr.
  intros Hp Hd. unfold in_items. eapply runs_bind; [by apply runs_eat|]. intros br p1 [H1 _].
  eapply (runs_bind _ _ _ (fun _ q => adv p q)).
  { destruct br; [by apply runs_ret|]. eapply runs_bind; [apply runs_expect; pinv|]. intros [] q [Hq _].
    apply runs_ret. by eapply adv_trans. }
  intros close p2 H2. eapply runs_bind; [apply runs_eat; pinv|]. intros e p3 [H3 _].
  assert (H4 : built_items p [] p3) by (chain; split; cbn; [done..|lia]).
  destruct e; [by apply runs_ret|]. eapply (runs_bind _ _ _ (fun n q => q = p3 /\ n = S (length (tokens p3)))); [done|].
  intros n ? [-> ->]. apply runs_items; [done| |lia]. chain. congruence.
Qed.

Ltac expr_step := eapply runs_bind; [apply Hexpr; [first [pinv | eapply adv_inv, bu_adv; eassumption]|chain; congruence]|].
Ltac expect_step := eapply runs_bind; [apply runs_expect; first [pinv | eapply adv_inv, bu_adv; eassumption]|].

Lemma runs_special k p0 left p q negate special : built 0 p0 left p -> adv p q -> depth p = d ->
  (at_ p + k < at_ q)%nat -> runs (special_form regex_build glob_regex expr left negate special) q (fun n r => built k p0 n r /\ adv q r).
Proof using Hexpr.
  intros Hl Hq Hd Hlt. unfold special_form. destruct special as [s| | |s|]; try apply runs_fail.
  - case_decide.
    { eapply runs_bind; [apply runs_in_items; [pinv|chain; congruence]|]. intros items r Hr. apply runs_ret. split; [build|by chain]. }
    case_decide.
    { expr_step. intros lo p1 H1. expect_step. intros [] p2 [H2 Hlt2]. expr_step. intros hi p3 H3.
      apply runs_ret. split; [build|by chain]. }
    destruct (_ && _).
    { eapply runs_bind; [apply runs_eat; pinv|]. intros neg p1 [H1 _]. expect_step. intros [] p2 [H2 Hlt2].
      apply runs_ret. split; [build|by chain]. }
    destruct (_ || _); [|apply runs_fail]. by eapply runs_pattern.
  - destruct (_ && _); [by eapply runs_pattern|apply runs_fail].
Qed.

Lemma operator_TEnd t : (operator t).1 <> 0 -> t <> TEnd.
Proof. by destruct t. Qed.

Lemma runs_operators n min left p0 p : built 0 p0 left p -> depth p = d ->
  (length (tokens p) - at_ p <= n)%nat ->
  runs (operator_loop regex_build glob_regex expr n min left) p (built 0 p0).
Proof using Hexpr.
  revert left p. induction n as [|n IH]; intros left p Hl Hd Hn.
  { destruct (adv_inv _ _ (bu_adv _ _ _ _ Hl)) as [_ ?]. lia. }
  assert (Hp : Pinv p) by (eapply adv_inv, bu_adv, Hl).
  cbn [operator_loop]. eapply runs_bind; [by apply runs_peek|]. intros t ? [-> [pos Ht]].
  destruct (operator t) as [prec op] eqn:Eop. destruct (_ || _) eqn:Estop; [by apply runs_ret|].
  apply orb_false_iff in Estop as [Ez%bool_decide_eq_false _].
  assert (Hend : t <> TEnd) by (apply operator_TEnd; by rewrite Eop).
  eapply runs_bind; [by apply runs_take|]. intros token p1 (H1 & Hlt & pos1 & Ht1).
  assert (token = t) as -> by congruence. specialize (Hlt Hend).
  assert (Hnext : forall left' p', built 0 p0 left' p' -> adv p1 p' ->
     runs (operator_loop regex_build glob_regex expr n min left') p' (built 0 p0)).
  { intros left' p' Hb Ha. apply IH; [done|chain; congruence|]. chain. rewrite (adv_tokens p p') by done. lia. }
  destruct op as [op|].
  { expr_step. intros right p2 H2. apply Hnext; [build|by destruct H2]. }
  eapply (runs_bind _ _ _ (fun s q => adv p1 q /\ (bool_decide (t = Word (bs "not")) = true ->
     s <> TEnd -> (at_ p1 < at_ q)%nat))).
  { destruct (bool_decide _); [|apply runs_ret; split; [apply adv_refl; pinv|done]].
    eapply runs_mono; [apply runs_take; pinv|]. intros s q (Ha & Hs & _). auto. }
  intros special q (H2 & Hq). destruct (decide (special = TEnd)) as [->|Hs]; [apply runs_fail|].
  set (negate := bool_decide _) in *. set (k := if negate then 1%nat else 0%nat).
  eapply runs_bind.
  { apply (runs_special k p0 left p q); [done|by eapply adv_trans|done|]. subst k. chain.
    destruct negate; [specialize (Hq eq_refl Hs)|]; lia. }
  intros left' p2 [H3 H4]. apply Hnext; [subst k; destruct negate; build|by chain].
Qed.

Lemma runs_timestamp p q : adv p q -> (at_ p < at_ q)%nat -> runs (timestamp parse_rfc3339) q (built 0 p).
Proof using rfc3339_i128.
  intros Hq Hlt. unfold timestamp. expect_step. intros [] p1 [H1 _].
  eapply runs_bind; [apply runs_take; pinv|]. intros t p2 (H2 & _). destruct t; try apply runs_fail.
  expect_step. intros [] p3 [H3 _]. eapply runs_bind; [apply runs_require|]. intros [] ? [_ ->].
  eapply runs_bind; [apply runs_or_fail|]. intros n ? [Hn ->]. apply runs_ret.
  pose proof (rfc3339_i128 _ _ Hn). build.
Qed.

Lemma runs_conditional p q is_if : adv p q -> depth p = d -> (at_ p < at_ q)%nat ->
  runs (conditional expr is_if) q (built 0 p).
Proof using Hexpr.
  intros Hq Hd Hlt. unfold conditional. expect_step. intros [] p1 [H1 L1]. expr_step. intros a p2 H2.
  expect_step. intros [] p3 [H3 L3]. expr_step. intros b p4 H4. destruct is_if.
  - expect_step. intros [] p5 [H5 L5]. expr_step. intros c p6 H6. expect_step. intros [] p7 [H7 L7].
    apply runs_ret. build.
  - expect_step. intros [] p5 [H5 L5]. apply runs_ret. build.
Qed.

Lemma runs_field_name p q w : adv p q -> (at_ p < at_ q)%nat -> runs (field_name (Regex := Regex) w) q (built 0 p).
Proof.
  intros Hq Hlt. unfold field_name. destruct (split_once dot w) as [[side field]|]; [|apply runs_fail].
  eapply runs_bind; [apply runs_require|]. intros [] ? [_ ->].
  eapply (runs_bind _ _ _ (fun b r => r = q /\ b = destination q)); [done|]. intros b ? [-> ->].
  eapply runs_bind; [apply runs_require|]. intros [] ? [Hside ->].
  eapply runs_bind; [apply runs_lift|]. intros f ? [_ ->]. apply runs_ret.
  chain. split; [done|done| |cbn; lia]. intros Hd. cbn. rewrite orb_true_iff in Hside.
  destruct Hside; [done|congruence].
Qed.

Lemma runs_prefix p : Pinv p -> depth p = d ->
  runs (prefix parse_rfc3339 expr) p (built 0 p).
Proof using Hexpr rfc3339_i128.
  intros Hp Hd. unfold prefix. eapply runs_bind; [by apply runs_take|]. intros t q (Hq & Hlt & _).
  assert (Hlt' : t <> TEnd -> (at_ p < at_ q)%nat) by done.
  destruct t as [w|s|s|s|]; [specialize (Hlt ltac:(done))..|apply runs_fail].
  - case_decide; [expr_step; intros n r Hr; apply runs_ret; build|].
    destruct (_ || _); [apply runs_ret; build|].
    case_decide; [apply runs_ret; build|]. case_decide; [apply runs_ret; build|].
    case_decide; [by apply runs_timestamp|].
    destruct (_ || _); [by apply runs_conditional|by apply runs_field_name].
  - apply runs_ret. build.
  - eapply runs_bind; [apply runs_lift|]. intros v ? [Hv%number_wf ->]. apply runs_ret. build.
  - case_decide; [|case_decide; [|apply runs_fail]].
    + expr_step. intros n r Hr. expect_step. intros [] r' [Hr' _]. apply runs_ret. build.
    + expr_step. intros n r Hr. apply runs_ret. build.
Qed.
End Level.

(** The nesting limit bounds the recursion: with fuel for the levels that are
    left, [expression] answers. *)
Lemma runs_expression fuel d : (65 <= fuel + d)%nat -> (d <= 64)%nat ->
  expr_spec (expression regex_build glob_regex parse_rfc3339 fuel) d.
Proof using rfc3339_i128.
  revert d. induction fuel as [|fuel IH]; intros d Hf Hd min p Hp Ed; [lia|]. cbn [expression].
  eapply (runs_bind _ _ _ (fun _ q => tokens q = tokens p /\ at_ q = at_ p /\ depth q = S d /\
    destination q = destination p)); [cbn; by rewrite Ed|].
  intros [] q (Et & Ea & Eq & Edst). eapply (runs_bind _ _ _ (fun n r => r = q /\ n = depth q)); [done|].
  intros n ? [-> ->]. eapply runs_bind; [apply runs_require|]. intros [] ? [Hle%bool_decide_eq_true ->].
  assert (Hq : Pinv q) by (unfold Pinv; by rewrite Et, Ea).
  assert (Hx : expr_spec (expression regex_build glob_regex parse_rfc3339 fuel) (S d)) by (apply IH; lia).
  eapply runs_bind; [by eapply runs_prefix|]. intros left r Hr.
  eapply (runs_bind _ _ _ (fun n s => s = r /\ n = S (length (tokens r)))); [done|]. intros n ? [-> ->].
  eapply runs_bind; [eapply (runs_operators _ (S d)); [done|exact Hr| |lia]|].
  { rewrite (adv_depth _ _ (bu_adv _ _ _ _ Hr)). done. }
  intros left' s [[Hs1 Hs2 Hs3 Hs4 Hs5] Hw Hsrc Hsz].
  eapply (runs_bind _ _ _ (fun _ s' => s' = mkParser (tokens s) (at_ s) d (destination s))).
  { unfold runs, leave. by rewrite Hs3, Eq. }
  intros [] ? ->. apply runs_ret. split; [split; cbn| | |]; try congruence; try lia.
  - exact Hs5.
  - rewrite <- Edst. exact Hsrc.
  - cbn. lia.
Qed.

(** ** [parse] and [compile] *)
Definition sound_tree (dst : bool) (n : node) : Prop :=
  wf_node n = true /\ (dst = false -> source_only n = true) /\ (node_size n <= 512)%nat.

(** [parse] with any [expression] that meets its specification. *)
Lemma parse_with_ok (expr : Z -> parser node) text dst : utf8_valid text = true -> expr_spec expr 0 ->
  ok (sound_tree dst)
    (_ ← lift (require_msg (bool_decide (Z.of_nat (length text) <= 65536)) "expression exceeds 64 KiB");
     tokens ← lex text;
     '(result, p) ← expr 0 (mkParser tokens 0 0 dst);
     '(t, _) ← peek p;
     _ ← lift (require_msg (bool_decide (t = TEnd)) "unexpected tokens after expression");
     Done result).
Proof.
  intros Hv He. eapply ok_bind; [apply ok_lift|]. intros [] _.
  eapply ok_bind; [by apply lex_ok|]. intros ts Hts.
  assert (Hp : Pinv (mkParser ts 0 0 dst)).
  { split; [done|]. destruct Hts as (body & pos & -> & _). cbn. rewrite length_app. cbn. lia. }
  eapply ok_bind; [exact (He 0 _ Hp eq_refl)|]. intros [n p] [Ha Hw Hs Hz]. cbn [fst snd at_ destination] in *.
  eapply ok_bind; [apply (runs_peek p), Ha|]. intros [t q] _.
  eapply ok_bind; [apply ok_lift|]. intros [] _. split_and!; [done..|].
  destruct Ha as [Et _ _ _ [_ Hlt]]. cbn in Et. rewrite Et in Hlt. destruct Hts as (body & pos & -> & _ & Hb).
  rewrite length_app in Hlt. cbn in Hlt. lia.
Qed.

Lemma parse_ok text dst : utf8_valid text = true ->
  ok (sound_tree dst) (parse regex_build glob_regex parse_rfc3339 text dst).
Proof using rfc3339_i128.
  intros Hv. apply (parse_with_ok (expression regex_build glob_regex parse_rfc3339 65)); [done|].
  apply runs_expression; lia.
Qed.

Lemma compile_ok text dst : utf8_valid text = true ->
  ok (fun e => sound_tree dst (root e) /\ ty (root e) = Ok TBool)
     (compile regex_build glob_regex parse_rfc3339 text dst).
Proof using rfc3339_i128.
  intros Hv. eapply ok_bind; [by apply parse_ok|]. intros n Hn.
  eapply ok_bind; [apply ok_lift|]. intros t Ht. eapply ok_bind; [apply ok_lift|].
  intros [] Hb%require_msg_Ok%bool_decide_eq_true. subst t. by cbn.
Qed.
End Trees.
