(* ===== verification/ExprText.v ===== *)
(** * Literals of the expression language read back exactly

    A printer for byte strings and the value of a decimal quantity, and the
    theorems that the lexer and [number] invert the one and compute the other
    without rounding. *)

From stdpp Require Import strings.
From S2P Require Import Prelude Text Proto Expression ExprSound ExprLex ExprParse ExprTotal.
Local Open Scope Z_scope.

(** ** String literals *)
(** Printable bytes as themselves, the quote and the backslash escaped, the
    rest in hexadecimal. *)
Definition quote_byte (quote b : Z) : list Z :=
  if bool_decide (b = quote) || bool_decide (b = backslash) then [backslash; b]
  else if bool_decide (32 <= b <= 126) then [b]
  else [backslash; 120; hex_digit (b / 16); hex_digit (b mod 16)].

Definition quote_string (quote : Z) (v : list Z) : list Z :=
  quote :: flat_map (quote_byte quote) v ++ [quote].

Definition hex_reads (b : Z) : bool :=
  bool_decide (parse_u8 16 [hex_digit (b / 16); hex_digit (b mod 16)] = Some b) &&
  within 0 127 (hex_digit (b / 16)).

Lemma hex_read b : is_byte b -> parse_u8 16 [hex_digit (b / 16); hex_digit (b mod 16)] = Some b /\
  0 <= hex_digit (b / 16) <= 127.
Proof.
  intros Hb.
  assert (H : hex_reads b = true) by (apply byte_cases; [vm_compute; reflexivity|done]).
  apply andb_true_iff in H as [H1%bool_decide_eq_true H2%within_spec]. done.
Qed.

Lemma boundary_ascii b l : 0 <= b <= 127 -> char_boundary (b :: l) = true.
Proof. intros H. cbn. rewrite bool_decide_eq_false_2; [done|lia]. Qed.

(** What follows a quoted byte starts a character. *)
Lemma quoted_boundary quote v rest : is_quote quote = true ->
  char_boundary (flat_map (quote_byte quote) v ++ quote :: rest) = true.
Proof.
  intros Hq%is_quote_ascii. destruct v as [|b v]; [by apply boundary_ascii|]. cbn [flat_map].
  unfold quote_byte at 1. destruct (_ || _); [by apply boundary_ascii|].
  case_bool_decide; [apply boundary_ascii; lia|by apply boundary_ascii].
Qed.

Lemma is_quote_cases q : is_quote q = true -> q = 39 \/ q = 34.
Proof. unfold is_quote. rewrite orb_true_iff, !bool_decide_eq_true. tauto. Qed.

Lemma lex_string_escape quote c rest value : is_quote quote = true -> (c = quote \/ c = backslash) ->
  lex_string quote (backslash :: c :: rest) value = lex_string quote rest (value ++ [c]).
Proof.
  intros Hq%is_quote_cases Hc. cbn [lex_string]. unfold backslash in *.
  rewrite decide_False by lia. rewrite decide_False by lia.
  replace (_ || _ || _) with true; [done|]. symmetry. rewrite !orb_true_iff, !bool_decide_eq_true. lia.
Qed.

Lemma lex_string_plain quote c rest value : c <> quote -> c <> backslash ->
  lex_string quote (c :: rest) value = lex_string quote rest (value ++ [c]).
Proof. intros H1 H2. cbn [lex_string]. by rewrite decide_False, decide_True. Qed.

Lemma lex_string_hex quote b rest value : is_quote quote = true -> is_byte b -> char_boundary rest = true ->
  lex_string quote (backslash :: 120 :: hex_digit (b / 16) :: hex_digit (b mod 16) :: rest) value =
  lex_string quote rest (value ++ [b]).
Proof.
  intros Hq%is_quote_cases Hb Hr. destruct (hex_read b Hb) as [Hx Ha].
  cbn [lex_string]. unfold backslash. rewrite decide_False by lia. rewrite decide_False by lia.
  replace (bool_decide (120 = 92) || bool_decide (120 = 39) || bool_decide (120 = 34)) with false by done.
  do 3 (rewrite decide_False by lia). rewrite decide_True by done.
  by rewrite (boundary_ascii _ _ Ha), Hr, Hx.
Qed.

Lemma lex_string_quoted quote v rest value : is_quote quote = true -> Forall is_byte v ->
  lex_string quote (flat_map (quote_byte quote) v ++ quote :: rest) value = Ok (value ++ v, rest).
Proof.
  intros Hq Hv. revert value. induction Hv as [|b v Hb Hv IH]; intros value.
  { cbn. by rewrite decide_True, app_nil_r. }
  pose proof (quoted_boundary quote v rest Hq) as Hr. cbn [flat_map]. rewrite <- app_assoc.
  unfold quote_byte at 1. destruct (_ || _) eqn:E1.
  - rewrite orb_true_iff, !bool_decide_eq_true in E1. cbn [app].
    rewrite lex_string_escape by done. rewrite IH. by rewrite <- app_assoc.
  - rewrite orb_false_iff, !bool_decide_eq_false in E1. case_bool_decide; cbn [app].
    + rewrite lex_string_plain by tauto. rewrite IH. by rewrite <- app_assoc.
    + rewrite lex_string_hex by done. rewrite IH. by rewrite <- app_assoc.
Qed.

Lemma quote_not_white q : is_quote q = true -> is_whitespace q = false.
Proof. by intros [-> | ->]%is_quote_cases. Qed.

Lemma lex_quoted quote v : is_quote quote = true -> Forall is_byte v ->
  lex (quote_string quote v) = Done [(TString v, 0%nat); (TEnd, length (quote_string quote v))].
Proof.
  intros Hq Hv. unfold lex, quote_string. set (body := flat_map _ v ++ [quote]). cbn [length lex_loop].
  rewrite (quote_not_white quote Hq). unfold lex_token. rewrite Hq.
  assert (E : lex_string quote body [] = Ok (v, [])) by (apply (lex_string_quoted quote v [] []); done).
  rewrite E. cbn [lift mbind outcome_bind app]. rewrite Nat.sub_diag. cbn. by destruct (length body).
Qed.

Section Literals.
Context {Regex : Type} (regex_build : list Z -> option Regex) (glob_regex : list Z -> option (list Z))
        (parse_rfc3339 : list Z -> option Z).

(** C39. Every byte string whose quoted form fits the 64 KiB limit on an
    expression can be written as a literal and reads back: the quoted form, with
    quote, backslash and unprintable bytes escaped, parses to exactly that
    string. *)
Theorem string_literal_roundtrip quote v dst : is_quote quote = true -> Forall is_byte v ->
  Z.of_nat (length (quote_string quote v)) <= 65536 ->
  parse regex_build glob_regex parse_rfc3339 (quote_string quote v) dst = Done (Literal (VString v)).
Proof.
  intros Hq Hv Hl. unfold parse. rewrite bool_decide_eq_true_2 by done. rewrite lex_quoted by done. reflexivity.
Qed.
End Literals.

Lemma string_literal_roundtrip_witness :
  parse Some Some (fun _ => None) (quote_string 34 [97; 34; 92; 0; 200; 39]) false =
    Done (Literal (Regex := list Z) (VString [97; 34; 92; 0; 200; 39])).
Proof.
  apply string_literal_roundtrip; [reflexivity| |vm_compute; done].
  repeat constructor; unfold is_byte; lia.
Defined.

(** ** Quantities *)

(** The number a string of decimal digits denotes. *)
Definition decimal (l : list Z) : Z := fold_left (fun a b => a * 10 + (b - 48)) l 0.

(** A decimal quantity as the user writes it: digits, an optional fraction and
    a unit. *)
Definition quantity_text (whole fraction : list Z) (unit : string) : list Z :=
  whole ++ match fraction with [] => [] | _ => dot :: fraction end ++ bs unit.

Lemma to_digit_digit b : is_digit b = true -> to_digit 10 b = Some (b - 48).
Proof.
  intros H. unfold to_digit. rewrite H. apply bool_decide_eq_true in H. by rewrite decide_True by lia.
Qed.

Lemma digits_value_decimal l acc : Forall (fun b => is_digit b = true) l ->
  digits_value 10 acc l = Some (fold_left (fun a b => a * 10 + (b - 48)) l acc).
Proof.
  intros H. revert acc. induction H as [|b l Hb _ IH]; intros acc; [done|].
  cbn. rewrite to_digit_digit by done. apply IH.
Qed.

Lemma decimal_acc l acc :
  fold_left (fun a b => a * 10 + (b - 48)) l acc = acc * 10 ^ Z.of_nat (length l) + decimal l.
Proof.
  unfold decimal. revert acc. induction l as [|b l IH]; intros acc; [cbn; lia|].
  cbn [fold_left length]. rewrite IH, (IH (0 * 10 + (b - 48))).
  rewrite Nat2Z.inj_succ, Z.pow_succ_r by lia. lia.
Qed.

Lemma decimal_app a b : decimal (a ++ b) = decimal a * 10 ^ Z.of_nat (length b) + decimal b.
Proof. unfold decimal at 1. rewrite fold_left_app. apply decimal_acc. Qed.

Lemma decimal_snoc l b : decimal (l ++ [b]) = decimal l * 10 + (b - 48).
Proof. rewrite decimal_app. reflexivity. Qed.

Lemma decimal_range l : Forall (fun b => is_digit b = true) l -> 0 <= decimal l < 10 ^ Z.of_nat (length l).
Proof.
  induction l as [|b l IH] using rev_ind; [by cbn|]. intros [Hl Hb]%Forall_app.
  rewrite decimal_snoc, length_app, Nat2Z.inj_add, Z.pow_add_r by lia.
  change (10 ^ Z.of_nat (length [b])) with 10.
  apply Forall_cons in Hb as [Hb%bool_decide_eq_true _]. specialize (IH Hl). lia.
Qed.

Lemma decimal_nonneg l : Forall (fun b => is_digit b = true) l -> 0 <= decimal l.
Proof. apply decimal_range. Qed.

Lemma parse_decimal l : l <> [] -> Forall (fun b => is_digit b = true) l ->
  parse_i128 10 l = if decide (decimal l <= i128_max) then Some (decimal l) else None.
Proof.
  intros Hne Hl. unfold parse_i128, from_str_radix.
  pose proof (decimal_nonneg l Hl) as Hn.
  assert (E : digits_value 10 0 l = Some (decimal l)) by (by rewrite digits_value_decimal).
  destruct l as [|b l]; [done|]. apply Forall_cons in Hl as [Hb%bool_decide_eq_true _].
  assert (Hm : forall (A : Type) (x y z : A),
     match b with 43 => x | 45 => y | _ => z end = z).
  { intros. assert (b = 48 \/ b = 49 \/ b = 50 \/ b = 51 \/ b = 52 \/ b = 53 \/ b = 54 \/ b = 55 \/ b = 56 \/ b = 57)
      as Hc by lia. by decompose [or] Hc; subst. }
  etransitivity; [apply f_equal with (f := fun o => o ≫= _), (Hm (option Z))|]. rewrite E. cbn [mbind option_bind].
  unfold i128_min. repeat case_decide; done || lia.
Qed.

(** The units: none starts like a number, and none reads as a radix prefix. *)
Definition unit_ok (u : string * (Z * Ty)) : bool :=
  let '(name, (m, _)) := u in
  match bs name with
  | [] => true
  | b :: _ => negb (is_digit b || bool_decide (b = dot)) && negb (bool_decide (b = 111)) && negb (bool_decide (b = 120))
  end && bool_decide (1 <= m) && bool_decide (match_name (bs name) suffixes = Some u.2).

Lemma units_ok name m t : (name, (m, t)) ∈ suffixes ->
  1 <= m /\ match_name (bs name) suffixes = Some (m, t) /\
  match bs name with [] => True | b :: _ => is_digit b || bool_decide (b = dot) = false /\ b <> 111 /\ b <> 120 end.
Proof.
  intros H%list_elem_of_In. assert (E : forallb unit_ok suffixes = true) by (vm_compute; reflexivity).
  rewrite forallb_forall in E. specialize (E _ H). unfold unit_ok in E.
  apply andb_true_iff in E as [[E1 E2%bool_decide_eq_true]%andb_true_iff E3%bool_decide_eq_true].
  split_and!; [done|done|]. destruct (bs name) as [|b l]; [done|].
  apply andb_true_iff in E1 as [[E4%negb_true_iff E5%negb_true_iff]%andb_true_iff E6%negb_true_iff].
  apply bool_decide_eq_false in E5, E6. done.
Qed.

Lemma digits_no_dot l : Forall (fun b => is_digit b = true) l -> dot ∉ l.
Proof. intros H Hd. rewrite Forall_forall in H. specialize (H _ Hd). by vm_compute in H. Qed.

(** [number] past the radix prefixes, on the parts of a decimal quantity. *)
Lemma number_parts whole fraction name m t : (name, (m, t)) ∈ suffixes -> whole <> [] ->
  Forall (fun b => is_digit b = true) whole -> Forall (fun b => is_digit b = true) fraction ->
  (length fraction <= 18)%nat ->
  number (quantity_text whole fraction name) =
    match parse_i128 10 whole with
    | None => bail "invalid digit"
    | Some w =>
        let scale := 10 ^ Z.of_nat (length fraction) in
        let f := if decide (fraction = []) then 0 else default (-1) (parse_i128 10 fraction) in
        match (n ← checked (w * scale); n ← checked (n + f); checked (n * m)) with
        | None => bail "quantity overflow"
        | Some n =>
            _ ← require_msg (bool_decide (Z.rem n scale = 0))
                  "quantity must resolve to whole bytes, nanoseconds, or integers";
            Ok (VQuantity (Z.quot n scale) t)
        end
    end.
Proof.
  intros Hu Hne Hw Hf Hl. destruct (units_ok name m t Hu) as (_ & Hname & Hhead).
  set (frac := match fraction with [] => [] | _ => dot :: fraction end).
  assert (Hpre : forall c, (c = 111 \/ c = 120) -> strip_prefix [48; c] (quantity_text whole fraction name) = None).
  { intros c Hc. unfold quantity_text. fold frac. destruct whole as [|b whole]; [done|]. cbn [app strip_prefix].
    case_decide as Eb; [|done]. destruct (whole ++ frac ++ bs name) as [|b2 r] eqn:E; [done|].
    case_decide as E2; [|done]. subst b2. exfalso. apply Forall_cons in Hw as [_ Hw].
    destruct whole as [|b2 whole]; cbn in E.
    - subst frac. destruct fraction as [|x fraction]; cbn in E; [|injection E as <- _; unfold dot in Hc; lia].
      destruct (bs name); [done|]. injection E as -> _. lia.
    - injection E as -> _. apply Forall_cons in Hw as [Hw%bool_decide_eq_true _]. lia. }
  unfold number. change (bs "0o") with [48; 111]. change (bs "0x") with [48; 120].
  rewrite !Hpre by auto. unfold quantity_text. fold frac. rewrite app_assoc.
  rewrite take_while_app_stop; [|apply Forall_app; split|].
  - rewrite Hname.
    assert (Hs : default (whole ++ frac, []) (split_once dot (whole ++ frac)) = (whole, fraction)).
    { subst frac. destruct fraction as [|x fraction].
      - rewrite app_nil_r, split_once_absent by (by apply digits_no_dot). done.
      - rewrite split_once_first by (by apply digits_no_dot). done. }
    rewrite Hs. rewrite !bool_decide_eq_true_2 by (done || by apply digits_no_dot). done.
  - eapply Forall_impl; [exact Hw|]. intros b Hb. by rewrite Hb.
  - subst frac. destruct fraction; [constructor|]. apply Forall_cons. split; [done|].
    eapply Forall_impl; [exact Hf|]. intros b Hb. by rewrite Hb.
  - by destruct (bs name) as [|b r]; [|destruct Hhead].
Qed.

Lemma pow10_pos n : 0 < 10 ^ Z.of_nat n.
Proof. apply Z.pow_pos_nonneg; lia. Qed.

Lemma parse_fraction fraction : Forall (fun b => is_digit b = true) fraction -> decimal fraction <= i128_max ->
  (if decide (fraction = []) then 0 else default (-1) (parse_i128 10 fraction)) = decimal fraction.
Proof. intros Hf Hb. case_decide; [by subst|]. rewrite parse_decimal by done. by rewrite decide_True. Qed.

(** Quantities are exact: a decimal quantity denotes (digits * unit) /
    10^places when that fits an [i128] and is whole, and is refused otherwise;
    nothing is rounded or wrapped. *)
Theorem number_exact whole fraction name m t : (name, (m, t)) ∈ suffixes -> whole <> [] ->
  Forall (fun b => is_digit b = true) whole -> Forall (fun b => is_digit b = true) fraction ->
  (length fraction <= 18)%nat ->
  let scaled := decimal (whole ++ fraction) * m in
  let scale := 10 ^ Z.of_nat (length fraction) in
  match number (quantity_text whole fraction name) with
  | Ok v => scaled <= i128_max /\ exists q, v = VQuantity q t /\ q * scale = scaled
  | Err _ => i128_max < scaled \/ scaled mod scale <> 0
  end.
Proof.
  intros Hu Hne Hw Hf Hl scaled scale. rewrite (number_parts _ _ name m t) by done. cbv zeta. fold scale.
  destruct (units_ok name m t Hu) as (Hm & _). pose proof (decimal_nonneg _ Hw) as Nw.
  pose proof (decimal_nonneg _ Hf) as Nf. pose proof (pow10_pos (length fraction)) as Ps. fold scale in Ps.
  assert (Ed : decimal (whole ++ fraction) = decimal whole * scale + decimal fraction) by apply decimal_app.
  set (D := decimal (whole ++ fraction)) in *.
  assert (Hbig : i128_max < D -> i128_max < scaled) by (subst scaled; nia).
  rewrite parse_decimal by done. case_decide as Ew; [|left; apply Hbig; nia].
  assert (Hrange : forall x, 0 <= x -> checked x = if decide (x <= i128_max) then Some x else None).
  { intros x Hx. unfold checked, in_i128, i128_min. case_bool_decide; case_decide; done || lia. }
  assert (Hfi : decimal fraction <= i128_max).
  { pose proof (decimal_range _ Hf) as [_ H]. pose proof (Z.pow_le_mono_r 10 (Z.of_nat (length fraction)) 18).
    unfold i128_max. lia. }
  rewrite parse_fraction by done. rewrite Hrange by nia.
  case_decide as E1; cbn [mbind option_bind bail]; [|left; apply Hbig; lia].
  rewrite <- Ed, Hrange by nia.
  case_decide as E2; cbn [mbind option_bind bail]; [|left; apply Hbig; lia].
  rewrite Hrange by (subst scaled; nia). fold scaled. case_decide as E3; [|left; lia].
  assert (Hs0 : 0 <= scaled) by (subst scaled; nia).
  rewrite Z.rem_mod_nonneg by lia. case_bool_decide as Em; cbn; [|by right].
  split; [done|]. exists (scaled ÷ scale). split; [done|]. rewrite Z.quot_div_nonneg by lia.
  pose proof (Z.div_mod scaled scale ltac:(lia)). lia.
Qed.

Lemma number_exact_witness :
  number (bs "1.5KiB") = Ok (VQuantity 1536 TSize) /\
  match number (quantity_text (bs "1") (bs "5") "KiB") with
  | Ok v => decimal (bs "1" ++ bs "5") * 1024 <= i128_max /\
            exists q, v = VQuantity q TSize /\ q * 10 ^ Z.of_nat (length (bs "5")) = decimal (bs "1" ++ bs "5") * 1024
  | Err _ => i128_max < decimal (bs "1" ++ bs "5") * 1024 \/
             (decimal (bs "1" ++ bs "5") * 1024) mod 10 ^ Z.of_nat (length (bs "5")) <> 0
  end.
Proof.
  split; [reflexivity|]. apply (number_exact (bs "1") (bs "5") "KiB" 1024 TSize).
  - apply list_elem_of_In. cbn. tauto.
  - done.
  - by repeat constructor.
  - by repeat constructor.
  - cbn. lia.
Defined.
